(* ===== verification/_CoqProject ===== *)
-Q . S2P
Prelude.v
Text.v
Console.v
RingBuffer.v
Axi.v
Device.v
Memory.v
RamStorage.v
Uart.v
Interrupts.v
InterruptTheorems.v
Heap.v
HeapLines.v
Host.v
HostExamples.v
Fabric.v
FabricSpec.v
FabricPorts.v
FabricInv.v
FabricRoutes.v
FabricBeats.v
FabricWrites.v
FabricCommit.v
FabricTheorems.v
FabricRuns.v
FabricLiveness.v
FabricExclusive.v
FabricStall.v
FabricData.v
FabricExamples.v
Elf.v
ElfPlan.v
ElfLayout.v
ElfParse.v
ElfImage.v
FabricMemory.v
FabricTraffic.v
FabricImage.v
Packed.v
Binding.v
Platform.v
PlatformInstance.v
Topology.v
PlatformTheorems.v
PlatformCycles.v
PlatformConfig.v
ElfHeap.v
PlatformLines.v
PlatformDefault.v
PlatformExamples.v
CommandLine.v
ImageFiles.v
ImageTheorems.v
Statistics.v
Sim.v
SimTheorems.v
SimHost.v
SimTrace.v
SimSafety.v
SimRuns.v
SimData.v
SimReport.v
SimSideband.v
SimExit.v
SimExamples.v
RunExamples.v
