(* ===== verification/Prelude.v ===== *)
(** * Verification of the AXI4 testbench for Verilator

    The program simulates a hardware design that Verilator has translated to
    C++.  The design is an AXI4 master with one or more ports; the testbench is
    everything behind those ports: an AXI slave (the fabric), an address space
    of devices, the sideband signals between devices (timer and interrupt
    lines), the loading of images and the program's main loop.  This development
    translates that code into executable definitions and proves what its
    components promise to each other and to the user.  All paths below are
    under src/.

    ** The parts and how they interact

    [main] (src/sim_main.cpp) reads the command line, asks the device registry
    for a platform (src/platform.cpp), loads ELF and raw images into its memories
    (src/elf_loader.cpp), constructs the model and then, once per clock cycle:
    [Platform::begin_cycle] (reset); the sideband pins are set; [AxiFabric::drive]
    computes the slave's outputs and [VerilatedAxiBinding::drive] packs them into
    the members of the model (src/verilated_binding.hpp, src/packed.hpp); the
    model is evaluated; [sample] unpacks its outputs; the model is evaluated
    with the clock high; [AxiFabric::commit] performs the handshakes and moves
    the bursts on (src/fabric.hpp, src/axi.hpp), calling the devices
    (src/device.hpp, src/devices.cpp, examples/fuxi/sim/interrupt_devices.cpp);
    [Platform::end_cycle] ticks the devices and settles their signals.

    ** Files

    - Prelude.v: machine integers, exceptions, the state-and-exception monad
      [M] with the triple [wp], lemmas on lists and on bits.  Text.v:
      [std::from_chars], [std::to_string], hexadecimal printing,
      [parse_unsigned] of platform.cpp.  Console.v: the two output streams and
      the messages of exceptions.
    - RingBuffer.v, Axi.v: src/axi.hpp; [RingBuffer], the payloads, responses and
      [BurstCursor].
    - Device.v: src/device.hpp and [AddressSpace].  The devices live in a heap of
      an abstract type; the class [DeviceHeap] has the virtual methods,
      [DeviceHeapLaws] what the fabric relies on.  Memory.v: [RomDevice],
      [RamDevice], [ExitDevice] and the memory the process gives them, or
      refuses ([ProcessMemory]); RamStorage.v: where a RAM keeps its bytes, its
      moves and its destruction.  Uart.v: [UartDevice] and its backends.
      Interrupts.v (theorems in InterruptTheorems.v): CLINT and PLIC.  Heap.v: the
      concrete heap of all device classes, an instance of the interface;
      HeapLines.v: what no call changes of it.
    - Host.v: [HostServices] of platform.cpp, files and terminals over a
      parameter for the operating system; HostExamples.v: a system with two
      terminals.
    - Fabric.v: [AxiFabric], member by member.  FabricSpec.v: the abstract fabric,
      a labelled transition system on queues.  FabricPorts.v, FabricRoutes.v,
      FabricBeats.v, FabricWrites.v: each stage of a cycle refines it.
      FabricInv.v: its invariants, by rule induction.  FabricCommit.v: the stages
      composed.  FabricTheorems.v, FabricRuns.v, FabricLiveness.v,
      FabricExclusive.v, FabricStall.v, FabricData.v: the properties.
      FabricMemory.v, FabricTraffic.v, FabricImage.v: the memory behind the
      fabric as one log of accesses, and what the ports see of it.
      FabricExamples.v applies the theorems to traffic run by computation.
    - Elf.v: [ImageLoadPlan] and its parser, with ElfPlan.v (applying a plan),
      ElfLayout.v (the layout of an ELF file, byte by byte, and the valid
      files), ElfParse.v (the parser accepts exactly these), ElfImage.v (a reference encoder that is read
      back) and ElfHeap.v (loading changes nothing but memories).
    - Platform.v: names, options, [DeviceRegistry], [PlatformSpec], the built-in
      and the Fuxi types.  PlatformInstance.v: class [Platform].  Topology.v: its
      settling order.  PlatformTheorems.v, PlatformCycles.v, PlatformConfig.v,
      PlatformLines.v, PlatformDefault.v: the properties.  PlatformExamples.v:
      the Fuxi board, built by computation.
    - Packed.v, Binding.v: the packed signals and the binding of the model.
    - sim_main.cpp: CommandLine.v (options and help), ImageFiles.v ([load_images]
      and [read_file] of elf_loader.cpp), Statistics.v, and Sim.v: the Verilated
      model, the sideband binding, traces, signals, the main loop and [main].
      SimTheorems.v: termination and exit statuses.  SimSafety.v: fabric, binding
      and platform composed.  SimRuns.v: the main loop as a relation, on which
      SimData.v (memories), SimReport.v (statistics), SimSideband.v (interrupt
      pins) and SimExit.v (the guest's exit) build; ImageTheorems.v: what the
      images put where; SimTrace.v: the trace; SimHost.v: the terminals.  SimExamples.v and
      RunExamples.v: whole simulations run by computation.

    ** What the theorems show

    - Whole runs: the main loop ends, each status means what it says, and after a
      successful start only a protocol error of the design can stop it; the
      guest's exit ends it in the cycle in which it is acknowledged.  The
      memories are one byte store, to which the design's bursts are applied one
      after the other; a design reads the bytes of its images; in every cycle
      its interrupt pins are what the registers of CLINT and PLIC say.  The
      statistics count the handshakes, and the printed report reads back; a
      trace has every evaluation and is closed; terminals are left as they
      were found.
    - Fabric: every cycle is a sequence of transitions of the abstract fabric or
      a protocol violation of the design, reported before a device is touched;
      bursts are decoded exactly as AXI asks; a cycle makes at most one device
      call, for the present beat of the front burst, in the window that burst
      was decoded to; every port gets exactly the responses of its bursts, in
      order; arbitration is fair, and a DUT that only takes responses sees
      every burst answered up to the first write whose data it owes; exclusive accesses follow their
      monitors; reset empties the fabric; the exit code is the first one
      acknowledged.
    - Images: a plan is applied completely or not at all; the parser accepts
      exactly the valid files and plans exactly their segments; encoding and
      parsing are inverse.
    - Platform: configurations are accepted exactly when valid, before any
      device is made; the default platform builds exactly for valid memory maps
      whose memories the process can allocate; connections are accepted and
      ordered exactly when they join outputs to free inputs of their width
      without a cycle; interrupt lines are settled after every
      cycle.
    - Components: the ring buffer is a bounded queue, the cursor computes AXI's
      addresses and lanes, windows never overlap, memories write exactly the
      strobed bytes, the storage of a RAM is given back exactly once, the UART
      loses no input, PLIC and CLINT lines are up to date, packed fields read
      back.

    ** Representation

    An integer of width w is a [Z]; what can leave the range of its C++ type is
    reduced explicitly ([u8] .. [u128]).  A bus word is the list of its bytes, and
    FabricData.v shows that it always has the width of the bus.  Exceptions
    are values of [exn]; a computation that throws keeps the state it has
    changed.  References to the front of a queue are written out as reads and
    writes of the queue, and a [Device *] is an index into the heap, so that a
    device mapped twice, or wired to others, is one object.

    Loops over containers recurse on lists.  The others have fuel: [zero_fill]
    one round per started 4096 bytes; [read_loop] and [write_loop] the width of
    the field, since every round moves a bit; [topological_order] one step per
    device; [poll_loop] one round per free place of the FIFO; [print_digits]
    the 20 digits of a 64-bit number, [print_hex] its 16; [simulate] the sum of
    both cycle limits ([loop_fuel]).  In each case a theorem or lemma shows that
    the result is the one of the unbounded loop.

    ** Assumptions

    - [FabricConfigOk], [BindingConfigOk]: the [static_assert]s of the templates.
    - [DeviceHeapLaws], [LoadableLaws], [MemoryLaws], [UartBackendLaws]:
      discharged by the devices and backends of the repository.
    - [ModelLaws]: construction and [eval] keep the widths of the members of the
      model (they are C++ types), and on a 64-bit bus its requests do not reach
      the last page of the address space (where [lane_mask] is wrong, see
      Axi.v).  [TimeLaws]: only [timeInc] moves the time of a context.
      [finish_is_final]: the final blocks do not take a $finish back.
    - [HostLaws]: what termios promises of a terminal's attributes, and that
      opening and closing files and allocating memory leave them alone.
      [LibraryLaws]: a read of n characters that succeeds gives n.
      [AllocatorLaws]: new memory is new.  A target's own devices are assumed to
      be fresh when made, and to use the host only to open files and for memory.

    Each has an instance that the examples compute with.

    ** Not modelled

    The operating system's side of its calls ([HostSystem], [Allocator]), the
    memory it gives or refuses to the devices and to the images that are read
    ([ProcessMemory], [file_buffer]), the bytes of files and [strtod]
    ([HostLibrary]), what a UART's streams deliver ([UartStreams]), and which
    signals arrive when are parameters.  So are the Verilated model with its
    trace writer, the generated configuration and the generated addresses of
    the Fuxi board.  Elsewhere (strings, maps, the fabric) memory is assumed to
    suffice.  CMake code, SystemVerilog, tests and benchmark programs are
    outside.

    ** Differences from the documentation

    README.md gives 130 as the status of a run that SIGINT ended; the program
    returns 129 (SimTheorems.v).  README.md says that unmapped accesses return
    DECERR; an exclusive one returns SLVERR (FabricTheorems.v).  A beat that
    ends at 2^64 has no byte lanes (Axi.v); two descriptors of one terminal can
    leave it raw (HostExamples.v); a negative number behind white space is
    accepted (SimTheorems.v).

    ** Not proved

    That the bytes a guest writes to its UART are those the output stream gets,
    over a whole run, and that the code of an exit response is the word that
    was written to the Exit register. *)

From Stdlib Require Export ZArith Lia.
From stdpp Require Export base strings numbers option gmap list.

Declare Scope axi_scope.
Delimit Scope axi_scope with axi.
#[global] Open Scope axi_scope.
#[global] Open Scope Z_scope.

(** ** Machine integers

    An unsigned integer of width [w] is a [Z]; an operation that can leave the
    range of its C++ type is followed by an explicit reduction. *)
Definition wrap (w x : Z) : Z := x mod 2 ^ w.
Definition u8 (x : Z) : Z := wrap 8 x.
Definition u16 (x : Z) : Z := wrap 16 x.
Definition u32 (x : Z) : Z := wrap 32 x.
Definition u64 (x : Z) : Z := wrap 64 x.
Definition u128 (x : Z) : Z := wrap 128 x.

Definition UINT32_MAX : Z := 2 ^ 32 - 1.
Definition UINT64_MAX : Z := 2 ^ 64 - 1.

(** [x != 0] on an integer, as C++ converts it to [bool]. *)
Definition nz (x : Z) : bool := negb (x =? 0).

(** [b ? 1 : 0]. *)
Definition b2z (b : bool) : Z := if b then 1 else 0.

(** A value fits an unsigned type of width [w]. *)
Definition fits (w x : Z) : Prop := 0 <= x < 2 ^ w.

(** ** Exceptions

    A C++ exception is the class that is thrown together with the message (for
    an AXI protocol error: the structured context the message is built from). *)
Record ErrorContext := {
  ec_cycle : Z;
  ec_port : nat;
  ec_channel : string;
  ec_id_address : option (Z * Z)
}.

Inductive exn :=
| ProtocolError (context : option ErrorContext) (detail : string)
| ElfError (message : string)
| InvalidArgument (message : string)
| LogicError (message : string)
| OutOfRange (message : string)
| RuntimeError (message : string)
| LengthError (message : string)
| BadAlloc (message : string).

#[global] Instance ErrorContext_eq_dec : EqDecision ErrorContext.
Proof. solve_decision. Defined.
#[global] Instance exn_eq_dec : EqDecision exn.
Proof. solve_decision. Defined.

Inductive result (A : Type) :=
| Ok (a : A)
| Throw (e : exn).
Arguments Ok {A} a.
Arguments Throw {A} e.

Definition rbind {A B} (c : result A) (k : A -> result B) : result B :=
  match c with
  | Ok a => k a
  | Throw e => Throw e
  end.

Notation "'try' x ':=' c 'in' k" := (rbind c (fun x => k))
  (at level 200, x pattern, c at level 100, k at level 200, right associativity) : axi_scope.
Notation "'guard' b 'else' e 'in' k" := (if b then k else Throw e)
  (at level 200, b at level 100, e at level 100, k at level 200, right associativity) : axi_scope.

(** ** Stateful code that can throw

    The state reached when an exception is thrown is kept: what was written
    before the [throw] stays written, as in C++. *)
Definition M (S A : Type) : Type := S -> result A * S.

Section Monad.
Context {S : Type}.

Definition ret {A} (a : A) : M S A := fun s => (Ok a, s).
Definition bind {A B} (c : M S A) (k : A -> M S B) : M S B :=
  fun s => match c s with
           | (Ok a, s') => k a s'
           | (Throw e, s') => (Throw e, s')
           end.
Definition throw {A} (e : exn) : M S A := fun s => (Throw e, s).
Definition get : M S S := fun s => (Ok s, s).
Definition gets {A} (f : S -> A) : M S A := fun s => (Ok (f s), s).
Definition modify (f : S -> S) : M S unit := fun s => (Ok tt, f s).
Definition lift {A} (r : result A) : M S A := fun s => (r, s).

(** [for (x : l) body(x)] *)
Fixpoint for_each {A} (l : list A) (body : A -> M S unit) : M S unit :=
  match l with
  | [] => ret tt
  | x :: l' => bind (body x) (fun _ => for_each l' body)
  end.
End Monad.

Notation "'do' x ':=' c 'in' k" := (bind c (fun x => k))
  (at level 200, x pattern, c at level 100, k at level 200, right associativity) : axi_scope.
Notation "c ';;;' k" := (bind c (fun _ => k))
  (at level 199, k at level 200, right associativity) : axi_scope.
Notation "'when' b c" := (if b then c else ret tt)
  (at level 198, b at level 9, c at level 198) : axi_scope.

(** Weakest preconditions: [wp c Q E s] says that [c], run in [s], either
    returns a value and a state that satisfy [Q], or throws an exception in a
    state that satisfies [E]. *)
Definition wp {S A} (c : M S A) (Q : A -> S -> Prop) (E : exn -> S -> Prop) (s : S) : Prop :=
  match c s with
  | (Ok a, s') => Q a s'
  | (Throw e, s') => E e s'
  end.

Section WP.
Context {S : Type}.
Implicit Types (E : exn -> S -> Prop) (s : S).

Lemma wp_ret {A} (a : A) Q E s : Q a s -> wp (ret a) Q E s.
Proof. done. Qed.

Lemma wp_throw {A} e (Q : A -> S -> Prop) E s : E e s -> wp (throw e) Q E s.
Proof. done. Qed.

Lemma wp_get (Q : S -> S -> Prop) E s : Q s s -> wp get Q E s.
Proof. done. Qed.

Lemma wp_gets {A} (f : S -> A) Q E s : Q (f s) s -> wp (gets f) Q E s.
Proof. done. Qed.

Lemma wp_modify f (Q : unit -> S -> Prop) E s : Q tt (f s) -> wp (modify f) Q E s.
Proof. done. Qed.

Lemma wp_lift_ok {A} (r : result A) a Q E s : r = Ok a -> Q a s -> wp (lift r) Q E s.
Proof. by intros ->. Qed.

Lemma wp_bind {A B} (c : M S A) (k : A -> M S B) Q E s :
  wp c (fun a => wp (k a) Q E) E s -> wp (bind c k) Q E s.
Proof. unfold wp, bind. by destruct (c s) as [[a|e] s']. Qed.

Lemma wp_mono {A} (c : M S A) (Q Q' : A -> S -> Prop) E E' s :
  wp c Q E s -> (forall a s', Q a s' -> Q' a s') -> (forall e s', E e s' -> E' e s') ->
  wp c Q' E' s.
Proof. unfold wp. destruct (c s) as [[a|e] s']; auto. Qed.

(** Sequencing through a known specification of the first part. *)
Lemma wp_and {A} (c : M S A) (Q1 Q2 : A -> S -> Prop) E1 E2 s :
  wp c Q1 E1 s -> wp c Q2 E2 s ->
  wp c (fun a s' => Q1 a s' /\ Q2 a s') (fun e s' => E1 e s' /\ E2 e s') s.
Proof. unfold wp. by destruct (c s) as [[a|e] s']. Qed.

Lemma wp_seq {A B} (c : M S A) (k : A -> M S B) (R : A -> S -> Prop) Q E s :
  wp c R E s -> (forall a s', R a s' -> wp (k a) Q E s') -> wp (bind c k) Q E s.
Proof. intros Hc Hk. apply wp_bind. eapply wp_mono; [exact Hc | exact Hk | auto]. Qed.

(** A loop with an invariant indexed by the elements still to visit. *)
Lemma wp_for_each {A} (l : list A) (body : A -> M S unit) (I : list A -> S -> Prop) E s :
  I l s ->
  (forall x l' s, x ∈ l -> I (x :: l') s -> wp (body x) (fun _ => I l') E s) ->
  wp (for_each l body) (fun _ => I []) E s.
Proof.
  revert s. induction l as [|x l IH]; intros s Hi Hb; [done|]. simpl.
  apply (wp_seq _ _ (fun _ => I l)); [apply Hb; [by left | done]|].
  intros _ s' Hi'. apply IH; [done|]. intros y l' s'' Hy. apply Hb. by right.
Qed.

Lemma wp_for_each_inv {A} (l : list A) (body : A -> M S unit) (I : S -> Prop) E s :
  I s -> (forall x s, x ∈ l -> I s -> wp (body x) (fun _ => I) E s) ->
  wp (for_each l body) (fun _ => I) E s.
Proof. intros Hi Hb. apply (wp_for_each l body (fun _ => I)); auto. Qed.

Lemma wp_ok {A} (c : M S A) Q E s a s' : wp c Q E s -> c s = (Ok a, s') -> Q a s'.
Proof. unfold wp. intros Hw Hc. by rewrite Hc in Hw. Qed.

Lemma wp_throws {A} (c : M S A) Q E s e s' : wp c Q E s -> c s = (Throw e, s') -> E e s'.
Proof. unfold wp. intros Hw Hc. by rewrite Hc in Hw. Qed.
End WP.

(** A computation that has returned: so have its parts. *)
Lemma bind_ok {S A B} (c : M S A) (k : A -> M S B) s b s' :
  bind c k s = (Ok b, s') -> exists a s1, c s = (Ok a, s1) /\ k a s1 = (Ok b, s').
Proof. unfold bind. destruct (c s) as [[a|e] s1] eqn:E; [eauto | done]. Qed.

Lemma lift_ok {S A} (r : result A) (s s' : S) a : lift r s = (Ok a, s') -> r = Ok a /\ s' = s.
Proof. by intros [= -> ->]. Qed.

Tactic Notation "returned" hyp(H) "as" simple_intropattern(a) simple_intropattern(s) ident(E) :=
  apply bind_ok in H as (a & s & E & H).
Tactic Notation "lifted" hyp(H) "as" simple_intropattern(a) ident(E) :=
  apply bind_ok in H as (a & ? & [E ->]%lift_ok & H).

(** One step of a computation. *)
Ltac wp_step :=
  lazymatch goal with
  | |- wp (bind _ _) _ _ _ => apply wp_bind
  | |- wp (ret _) _ _ _ => apply wp_ret
  | |- wp (throw _) _ _ _ => apply wp_throw
  | |- wp get _ _ _ => apply wp_get
  | |- wp (gets _) _ _ _ => apply wp_gets
  | |- wp (modify _) _ _ _ => apply wp_modify
  end.
Ltac wp_steps := repeat (wp_step; cbv beta).
(** Case analysis on the condition the computation tests next. *)
Tactic Notation "wp_if" simple_intropattern(eq) :=
  lazymatch goal with |- wp (if ?b then _ else _) _ _ _ => destruct b eqn:eq end.

(** ** Record update

    [r <| field ::= f |>] is the record [r] with [field] changed by [f], for a
    record type that declares its eta-expansion. *)
Class Eta (R : Type) := eta : R -> R.
Class Update {R T : Type} (field : R -> T) := update : (T -> T) -> R -> R.

Ltac derive_update :=
  lazymatch goal with
  | |- @Update ?R ?T ?field =>
      let body := constr:(fun (upd_fun : T -> T) (upd_rec : R) =>
        ltac:(let e := eval cbv delta [eta] in (@eta R _ upd_rec) in
              let e := eval hnf in e in
              let e := eval pattern (field upd_rec) in e in
              lazymatch e with
              | ?g _ => let t := eval cbv beta in (g (upd_fun (field upd_rec))) in exact t
              end)) in
      exact body
  end.
#[global] Hint Extern 0 (Update _) => derive_update : typeclass_instances.
#[global] Arguments update {R T} field {_} f r /.

Notation "r <| p ::= f |>" := (update p f r)
  (at level 12, left associativity, p at level 10, f at level 200) : axi_scope.
Notation "r <| p := v |>" := (update p (fun _ => v) r)
  (at level 12, left associativity, p at level 10, v at level 200) : axi_scope.

(** ** Automation *)
Create HintDb axi discriminated.
Create Rewrite HintDb axi.

(** Case analysis on the boolean tests of the code, each replaced by the
    arithmetic fact it decides. *)
Ltac bool_cases :=
  repeat match goal with
  | |- context [Z.ltb ?a ?b] => destruct (Z.ltb_spec a b)
  | |- context [Z.leb ?a ?b] => destruct (Z.leb_spec a b)
  | |- context [Z.eqb ?a ?b] => destruct (Z.eqb_spec a b)
  | |- context [Nat.ltb ?a ?b] => destruct (Nat.ltb_spec a b)
  | |- context [Nat.leb ?a ?b] => destruct (Nat.leb_spec a b)
  | |- context [Nat.eqb ?a ?b] => destruct (Nat.eqb_spec a b)
  | H : context [Z.ltb ?a ?b] |- _ => destruct (Z.ltb_spec a b)
  | H : context [Z.leb ?a ?b] |- _ => destruct (Z.leb_spec a b)
  | H : context [Z.eqb ?a ?b] |- _ => destruct (Z.eqb_spec a b)
  | H : context [Nat.ltb ?a ?b] |- _ => destruct (Nat.ltb_spec a b)
  | H : context [Nat.leb ?a ?b] |- _ => destruct (Nat.leb_spec a b)
  | H : context [Nat.eqb ?a ?b] |- _ => destruct (Nat.eqb_spec a b)
  end.

(** Decompose a computation that is known to have returned (or thrown). *)
Ltac inv_step :=
  match goal with
  | H : Ok _ = Ok _ |- _ => injection H as H; try subst
  | H : Throw _ = Throw _ |- _ => injection H as H; try subst
  | H : Ok _ = Throw _ |- _ => discriminate H
  | H : Throw _ = Ok _ |- _ => discriminate H
  | H : (_, _) = (_, _) |- _ => injection H as H; try subst
  | H : Some _ = Some _ |- _ => injection H as H; try subst
  | H : Some _ = None |- _ => discriminate H
  | H : None = Some _ |- _ => discriminate H
  | H : true = false |- _ => discriminate H
  | H : false = true |- _ => discriminate H
  end.
Ltac inv_all := repeat (inv_step; simpl in *).

(** Linear arithmetic with quotients and remainders by constants. *)
Ltac zdiv := Z.div_mod_to_equations; lia.

(** ** Integers *)
Lemma pow2_pos (k : Z) : 0 <= k -> 0 < 2 ^ k.
Proof. intros. apply Z.pow_pos_nonneg; lia. Qed.

Lemma wrap_small (w x : Z) : fits w x -> wrap w x = x.
Proof. apply Z.mod_small. Qed.

Lemma wrap_fits (w x : Z) : 0 <= w -> fits w (wrap w x).
Proof. intros. apply Z.mod_pos_bound, pow2_pos; lia. Qed.

Lemma u64_small (x : Z) : fits 64 x -> u64 x = x.
Proof. apply wrap_small. Qed.

Lemma u64_fits (x : Z) : fits 64 (u64 x).
Proof. apply wrap_fits. lia. Qed.

Lemma u128_small (x : Z) : fits 128 x -> u128 x = x.
Proof. apply wrap_small. Qed.

Lemma nz_true (x : Z) : nz x = true <-> x <> 0.
Proof. unfold nz. destruct (Z.eqb_spec x 0); naive_solver. Qed.

Lemma nz_false (x : Z) : nz x = false <-> x = 0.
Proof. unfold nz. destruct (Z.eqb_spec x 0); naive_solver. Qed.

Lemma nz_b2z (b : bool) : nz (b2z b) = b.
Proof. by destruct b. Qed.

(** [x & (2^k - 1)] is the remainder, [x & ~(2^k - 1)] rounds down, at any
    width [w] that holds [x]. *)
Lemma land_low (x k : Z) : 0 <= k -> Z.land x (2 ^ k - 1) = x mod 2 ^ k.
Proof. intros. replace (2 ^ k - 1) with (Z.ones k) by (rewrite Z.ones_equiv; lia).
  by apply Z.land_ones. Qed.

Lemma land_align (w x k : Z) :
  0 <= k -> 0 <= w -> fits w x ->
  Z.land x (wrap w (Z.lnot (2 ^ k - 1))) = x - x mod 2 ^ k.
Proof.
  intros Hk Hw Hx. unfold wrap.
  rewrite <- (Z.land_ones _ w) by done.
  rewrite (Z.land_comm (Z.lnot _)), Z.land_assoc, (Z.land_ones x w) by done.
  rewrite (Z.mod_small x) by apply Hx.
  replace (2 ^ k - 1) with (Z.ones k) by (rewrite Z.ones_equiv; lia).
  rewrite <- Z.ldiff_land, Z.ldiff_ones_r by done.
  rewrite Z.shiftl_mul_pow2, Z.shiftr_div_pow2 by done.
  pose proof (Z.div_mod x (2 ^ k)). pose proof (pow2_pos k). lia.
Qed.

Lemma u64_align (x k : Z) :
  0 <= k -> fits 64 x -> Z.land x (u64 (Z.lnot (2 ^ k - 1))) = x - x mod 2 ^ k.
Proof. intros. by apply land_align. Qed.

Lemma u128_align (x k : Z) :
  0 <= k -> fits 128 x -> Z.land x (u128 (Z.lnot (2 ^ k - 1))) = x - x mod 2 ^ k.
Proof. intros. by apply land_align. Qed.

Lemma align_bounds (x m : Z) : 0 < m -> x - x mod m <= x < x - x mod m + m.
Proof. intros. pose proof (Z.mod_pos_bound x m). lia. Qed.

(** A power-of-two grid refines a coarser one. *)
Lemma mod_mod_le (x m n : Z) :
  0 < n -> 0 < m -> (n | m) -> x mod n <= x mod m.
Proof.
  intros Hn Hm Hd.
  rewrite <- (Z.mod_mod_divide x m n) by done.
  apply Z.mod_le; [apply Z.mod_pos_bound; lia | lia].
Qed.

Lemma pow2_divide (a b : Z) : 0 <= a <= b -> (2 ^ a | 2 ^ b).
Proof.
  intros. exists (2 ^ (b - a)). rewrite <- Z.pow_add_r by lia. f_equal. lia.
Qed.

(** Bytes of one block are in one block of any coarser grid. *)
Lemma same_block_coarser (x y n m : Z) :
  0 < n -> 0 < m -> (n | m) -> x / n = y / n -> x / m = y / m.
Proof.
  intros Hn Hm [k ->] Heq. assert (0 < k) by nia.
  rewrite (Z.mul_comm k n), <- !Z.div_div by lia. by rewrite Heq.
Qed.

Lemma same_block (x y n : Z) :
  0 < n -> x - x mod n <= y < x - x mod n + n -> y / n = x / n.
Proof.
  intros Hn Hy. pose proof (Z.div_mod x n).
  symmetry. apply Z.div_unique with (y - (x - x mod n)); lia.
Qed.

(** Bits above [k] added to a number below [2 ^ k]. *)
Lemma lor_disjoint a b k : 0 <= k -> fits k a -> Z.lor a (Z.shiftl b k) = a + b * 2 ^ k.
Proof.
  intros Hk [Ha0 Ha1]. rewrite Z.shiftl_mul_pow2 by done.
  rewrite <- Z.lxor_lor, <- Z.add_nocarry_lxor; [done| |]; apply Z.bits_inj'; intros n Hn;
    rewrite Z.land_spec, Z.bits_0.
  all: destruct (Z.lt_ge_cases n k);
    [rewrite (Z.mul_pow2_bits_low b k n) by done; by rewrite andb_false_r|].
  all: rewrite <- (Z.mod_small a (2 ^ k)) by done;
    by rewrite Z.mod_pow2_bits_high by lia.
Qed.

(** The loop that puts a little-endian number together, [f i] the byte [i]
    shifted to its place. *)
Lemma little_endian_loop (n : nat) (f : nat -> Z) (v : Z) :
  0 <= v ->
  (forall i, (i < n)%nat ->
     f i = Z.shiftl (v / 2 ^ (8 * Z.of_nat i) mod 256) (8 * Z.of_nat i)) ->
  foldl (fun value i => Z.lor value (f i)) 0 (seq 0 n) = v mod 2 ^ (8 * Z.of_nat n).
Proof.
  intros Hv. induction n as [|n IH]; intros Hf; [by rewrite Z.mod_1_r|].
  rewrite seq_S, foldl_app. simpl foldl. rewrite IH by (intros; apply Hf; lia).
  rewrite (Hf n) by lia. set (k := 8 * Z.of_nat n).
  assert (0 < 2 ^ k) by (apply pow2_pos; lia).
  rewrite lor_disjoint by (unfold fits; (lia || apply Z.mod_pos_bound; lia)).
  replace (8 * Z.of_nat (S n)) with (k + 8) by lia. rewrite Z.pow_add_r by lia.
  change (2 ^ 8) with 256. rewrite (Z.rem_mul_r v (2 ^ k) 256) by lia. lia.
Qed.

(** ** Transition systems *)
Lemma rtc_invariant {A} (R : relation A) (P : A -> Prop) (x y : A) :
  (forall a b, P a -> R a b -> P b) -> P x -> rtc R x y -> P y.
Proof. intros Hstep Hx Hr. induction Hr; eauto. Qed.

(** ** Lists *)
Lemma lookup_total_lt `{!Inhabited A} (l : list A) (i : nat) :
  (i < length l)%nat -> l !! i = Some (l !!! i).
Proof. intros. by apply list_lookup_lookup_total_lt. Qed.

Lemma seq_lookup_lt (n i : nat) : (i < n)%nat -> seq 0 n !! i = Some i.
Proof. intros. by rewrite lookup_seq_lt. Qed.

(** [for (lane = 0; lane < n; ++lane) if (cond(lane)) a[start + lane] = v(lane)] *)
Definition masked_copy (n : nat) (cond : nat -> bool) (start : nat) (v : nat -> Z)
    (a : list Z) : list Z :=
  foldl (fun a lane => if cond lane then <[(start + lane)%nat := v lane]> a else a)
    a (seq 0 n).

Lemma masked_copy_length n cond start v a : length (masked_copy n cond start v a) = length a.
Proof.
  unfold masked_copy. generalize (seq 0 n) as ks. intros ks. revert a.
  induction ks as [|k ks IH]; intros a; [done|]. simpl. rewrite IH.
  destruct (cond k); by rewrite ?length_insert.
Qed.

Lemma masked_copy_lookup n cond start v a j :
  (j < length a)%nat ->
  masked_copy n cond start v a !!! j =
    if bool_decide (start <= j < start + n)%nat && cond (j - start)%nat
    then v (j - start)%nat else a !!! j.
Proof.
  intros Hj. unfold masked_copy. revert Hj. induction n as [|n IH]; intros Hj.
  { simpl. rewrite bool_decide_eq_false_2 by lia. done. }
  rewrite seq_S, foldl_app. simpl. fold (masked_copy n cond start v a) in *.
  destruct (decide (j = start + n)%nat) as [->|Hne].
  - replace (start + n - start)%nat with n by lia.
    rewrite bool_decide_eq_true_2 by lia. simpl. destruct (cond n).
    + apply list_lookup_total_insert_eq. by rewrite masked_copy_length.
    + rewrite IH, bool_decide_eq_false_2 by lia. done.
  - transitivity (masked_copy n cond start v a !!! j).
    { destruct (cond n); [|done]. apply list_lookup_total_insert_ne. lia. }
    rewrite IH by done.
    by rewrite (bool_decide_ext (start <= j < start + n)%nat (start <= j < start + S n)%nat) by lia.
Qed.

Lemma masked_copy_ext n cond cond' start v v' a :
  (forall i, (i < n)%nat -> cond i = cond' i) ->
  (forall i, (i < n)%nat -> cond i = true -> v i = v' i) ->
  masked_copy n cond start v a = masked_copy n cond' start v' a.
Proof.
  intros Hc Hv. unfold masked_copy.
  assert (forall i, i ∈ seq 0 n -> (i < n)%nat) as Hs by (intros i Hi%elem_of_seq; lia).
  revert a Hs. generalize (seq 0 n) as ks. induction ks as [|k ks IH]; intros a Hs; [done|].
  simpl. assert (k < n)%nat as Hk by (apply Hs; by left).
  rewrite IH by (intros i Hi; apply Hs; by right). rewrite <- Hc by done.
  destruct (cond k) eqn:E; [|done]. by rewrite Hv.
Qed.

(** Lists of the same length that agree at every index are equal. *)
Lemma list_eq_total `{!Inhabited A} (l1 l2 : list A) :
  length l1 = length l2 ->
  (forall i, (i < length l1)%nat -> l1 !!! i = l2 !!! i) -> l1 = l2.
Proof.
  intros Hl Heq. apply list_eq_same_length with (length l1); [done | done |].
  intros i x y Hi Hx Hy. specialize (Heq i Hi).
  by rewrite (list_lookup_total_correct _ _ _ Hx), (list_lookup_total_correct _ _ _ Hy) in Heq.
Qed.

(** [memcpy(a + start, v, n)] *)
Definition splice (start : nat) (v a : list Z) : list Z :=
  take start a ++ v ++ drop (start + length v) a.

Lemma splice_length start v a :
  (start + length v <= length a)%nat -> length (splice start v a) = length a.
Proof. intros. unfold splice. rewrite !length_app, length_take, length_drop. lia. Qed.

Lemma splice_lookup start v a j :
  (start + length v <= length a)%nat -> (j < length a)%nat ->
  splice start v a !!! j =
    if bool_decide (start <= j < start + length v)%nat then v !!! (j - start)%nat else a !!! j.
Proof.
  intros Hl Hj. unfold splice. case_bool_decide.
  - rewrite lookup_total_app_r by (rewrite length_take; lia).
    rewrite length_take, Nat.min_l by lia. by rewrite lookup_total_app_l by lia.
  - destruct (decide (j < start)%nat).
    + rewrite lookup_total_app_l by (rewrite length_take; lia). by rewrite lookup_total_take_lt.
    + rewrite lookup_total_app_r by (rewrite length_take; lia).
      rewrite length_take, Nat.min_l by lia. rewrite lookup_total_app_r by lia.
      rewrite lookup_total_drop. f_equal. lia.
Qed.

(** The copy loop with every lane enabled is the [memcpy] of the fast path. *)
Lemma masked_copy_all (cond : nat -> bool) start v a :
  (start + length v <= length a)%nat -> (forall i, (i < length v)%nat -> cond i = true) ->
  masked_copy (length v) cond start (fun i => v !!! i) a = splice start v a.
Proof.
  intros Hl Hc. apply list_eq_total; [by rewrite masked_copy_length, splice_length|].
  intros j Hj. rewrite masked_copy_length in Hj.
  rewrite masked_copy_lookup, splice_lookup by done.
  case_bool_decide; [|done]. by rewrite Hc by lia.
Qed.
