(* ===== verification/Text.v ===== *)
(** * Numbers in text ([std::from_chars], [std::to_string], [parse_unsigned])

    The part of [<charconv>] the platform and the interrupt devices use:
    unsigned integers in base 10 or 16, without sign, white space or prefix. *)
From Stdlib Require Import Ascii.
From S2P Require Import Prelude.

(** The value of a digit ([std::from_chars] accepts both cases of letters). *)
Definition digit_value (base : Z) (c : ascii) : option Z :=
  let n := Z.of_nat (nat_of_ascii c) in
  let v := if (48 <=? n) && (n <=? 57) then n - 48
           else if (97 <=? n) && (n <=? 122) then n - 87
           else if (65 <=? n) && (n <=? 90) then n - 55
           else base in
  if v <? base then Some v else None.

(** The longest prefix of digits: its value after [acc], how many there were,
    and the unread rest. *)
Fixpoint scan_digits (base : Z) (s : string) (acc : Z) (count : nat) : Z * nat * string :=
  match s with
  | EmptyString => (acc, count, s)
  | String c s' =>
      match digit_value base c with
      | Some d => scan_digits base s' (acc * base + d) (S count)
      | None => (acc, count, s)
      end
  end.

(** [std::from_chars] for an unsigned type of width [w]: the value and the
    unread rest, or [None] for [errc::invalid_argument] (no digit) and
    [errc::result_out_of_range]. *)
Definition from_chars (w base : Z) (s : string) : option (Z * string) :=
  let '(v, count, rest) := scan_digits base s 0 0 in
  if (count =? 0)%nat || negb (v <? 2 ^ w) then None else Some (v, rest).

(** The whole text is one number. *)
Definition from_all_chars (w base : Z) (s : string) : option Z :=
  match from_chars w base s with
  | Some (v, rest) => if bool_decide (rest = EmptyString) then Some v else None
  | None => None
  end.

(** [text.starts_with(p)], and the text after [p]. *)
Fixpoint strip_prefix (p s : string) : option string :=
  match p, s with
  | EmptyString, _ => Some s
  | String a p', String b s' => if bool_decide (a = b) then strip_prefix p' s' else None
  | _, EmptyString => None
  end.

Definition parse_unsigned (text : string) : result Z :=
  let '(base, digits) :=
    match strip_prefix "0x" text, strip_prefix "0X" text with
    | Some rest, _ | None, Some rest => (16, rest)
    | None, None => (10, text)
    end in
  match from_all_chars 64 base digits with
  | Some v => Ok v
  | None => Throw (InvalidArgument ("invalid unsigned integer: " +:+ text))
  end.

(** [std::to_string] of an unsigned integer: at most 20 digits for [uint64_t]. *)
Definition digit_char (d : Z) : ascii := ascii_of_nat (Z.to_nat (48 + d)).

Fixpoint print_digits (fuel : nat) (n : Z) (acc : string) : string :=
  match fuel with
  | O => acc
  | S fuel' =>
      let acc := String (digit_char (n mod 10)) acc in
      if n / 10 =? 0 then acc else print_digits fuel' (n / 10) acc
  end.

Definition to_string (n : Z) : string := print_digits 20 n EmptyString.

(** [stream << std::hex << value]: at most 16 digits for [uint64_t]. *)
Definition hex_char (d : Z) : ascii :=
  ascii_of_nat (Z.to_nat (if d <? 10 then 48 + d else 87 + d)).

Fixpoint print_hex (fuel : nat) (n : Z) (acc : string) : string :=
  match fuel with
  | O => acc
  | S fuel' =>
      let acc := String (hex_char (n mod 16)) acc in
      if n / 16 =? 0 then acc else print_hex fuel' (n / 16) acc
  end.

Definition to_hex (n : Z) : string := print_hex 16 n EmptyString.

(** What is written to a stream, piece after piece, and the character that ends
    a line. *)
Definition newline : string := String "010" EmptyString.
Definition concatenate (l : list string) : string := foldr String.append EmptyString l.

(** More fuel than digits prints the same. *)
Lemma print_hex_fuel (fuel extra : nat) (n : Z) (acc : string) :
  0 <= n < 16 ^ Z.of_nat fuel -> (0 < fuel)%nat ->
  print_hex (fuel + extra) n acc = print_hex fuel n acc.
Proof.
  revert n acc. induction fuel as [|fuel IH]; intros n acc Hn Hf; [lia|].
  rewrite Nat2Z.inj_succ, Z.pow_succ_r in Hn by lia. simpl.
  destruct (Z.eqb_spec (n / 16) 0) as [Hz|Hz]; [done|].
  assert (0 < n / 16) as Hpos by (pose proof (Z.div_pos n 16); lia).
  assert (n / 16 < 16 ^ Z.of_nat fuel) as Hlt by (apply Z.div_lt_upper_bound; lia).
  destruct fuel as [|fuel]; [change (16 ^ Z.of_nat 0) with 1 in Hlt; lia|]. apply IH; lia.
Qed.

(** ** Round trip *)
Lemma digit_value_char (d : Z) : 0 <= d < 10 -> digit_value 10 (digit_char d) = Some d.
Proof.
  intros Hd. assert (d ∈ [0;1;2;3;4;5;6;7;8;9]) as Hin.
  { assert (d = 0 \/ d = 1 \/ d = 2 \/ d = 3 \/ d = 4 \/ d = 5 \/ d = 6 \/ d = 7 \/ d = 8 \/ d = 9)
      by lia. rewrite !elem_of_cons. tauto. }
  repeat (apply elem_of_cons in Hin as [->|Hin]; [done|]). by apply elem_of_nil in Hin.
Qed.

(** Printing puts the digits of [n] before [acc]; scanning them continues with
    the value of [n] appended to what was read before. *)
Lemma scan_print (fuel : nat) (n v : Z) (k : nat) (acc : string) :
  0 <= n < 10 ^ Z.of_nat fuel -> (0 < fuel)%nat ->
  exists m, (0 < m)%nat /\
    scan_digits 10 (print_digits fuel n acc) v k
      = scan_digits 10 acc (v * 10 ^ Z.of_nat m + n) (k + m).
Proof.
  revert n acc. induction fuel as [|fuel IH]; intros n acc Hn Hf; [lia|].
  rewrite Nat2Z.inj_succ, Z.pow_succ_r in Hn by lia. simpl.
  pose proof (Z.mod_pos_bound n 10). pose proof (Z.div_mod n 10).
  assert (forall v k, scan_digits 10 (String (digit_char (n mod 10)) acc) v k
          = scan_digits 10 acc (v * 10 + n mod 10) (S k)) as Hs.
  { intros. cbn [scan_digits]. by rewrite digit_value_char by lia. }
  destruct (Z.eqb_spec (n / 10) 0) as [Hz|Hz].
  - exists 1%nat. split; [lia|]. rewrite Hs. f_equal; [|lia].
    change (10 ^ Z.of_nat 1) with 10. lia.
  - assert (0 < fuel)%nat.
    { destruct fuel; [|lia]. change (10 * 10 ^ Z.of_nat 0) with 10 in Hn.
      rewrite Z.div_small in Hz by lia. done. }
    destruct (IH (n / 10) (String (digit_char (n mod 10)) acc)) as (m & Hm & ->); [|lia|].
    { split; [apply Z.div_pos; lia|]. apply Z.div_lt_upper_bound; lia. }
    exists (S m). split; [lia|]. rewrite Hs, Nat2Z.inj_succ, Z.pow_succ_r by lia.
    f_equal; lia.
Qed.

Lemma to_string_no_prefix (n : Z) (p : ascii) :
  fits 64 n -> p = "x"%char \/ p = "X"%char ->
  strip_prefix (String "0" (String p EmptyString)) (to_string n) = None.
Proof.
  intros Hn Hp.
  assert (forall m, 0 <= m -> digit_char (m mod 10) <> p) as Hd.
  { intros m Hm. pose proof (Z.mod_pos_bound m 10 ltac:(lia)) as Hb. intros He.
    pose proof (digit_value_char (m mod 10) Hb) as Hv. rewrite He in Hv.
    destruct Hp as [-> | ->]; discriminate. }
  assert (forall fuel m acc, 0 <= m ->
    match acc with String c _ => c <> p | EmptyString => True end ->
    strip_prefix (String "0" (String p EmptyString)) (print_digits fuel m acc) = None \/
    exists c, print_digits fuel m acc = acc /\ fuel = 0%nat /\ c = 0) as Hg.
  { induction fuel as [|fuel IH]; intros m acc Hm Hacc; [right; by exists 0|]. left. simpl.
    destruct (m / 10 =? 0) eqn:E.
    - cbn [strip_prefix]. destruct acc as [|c acc]; case_bool_decide; try done.
      case_bool_decide; done.
    - destruct (IH (m / 10) (String (digit_char (m mod 10)) acc)) as [Hs|(c & Hs & -> & _)].
      + apply Z.div_pos; lia. + by apply Hd. + done.
      + simpl. cbn [strip_prefix]. destruct acc as [|c' acc]; case_bool_decide; try done.
        case_bool_decide; done. }
  destruct (Hg 20%nat n EmptyString) as [Hs|(c & _ & Hs & _)]; [apply Hn | done | done | done].
Qed.

Lemma scan_digits_nonneg base s acc count :
  0 < base -> 0 <= acc -> 0 <= (scan_digits base s acc count).1.1.
Proof.
  intros Hb. revert acc count. induction s as [|c s IH]; intros acc count Ha; [done|]. cbn [scan_digits].
  destruct (digit_value base c) as [d|] eqn:E; [|done]. apply IH.
  assert (0 <= d); [|nia]. unfold digit_value in E. case_match; [|done]. injection E as <-.
  destruct (_ && _) eqn:E1; [lia|]. destruct ((97 <=? _) && _) eqn:E2; [lia|]. destruct ((65 <=? _) && _) eqn:E3; lia.
Qed.

Lemma parse_unsigned_fits text v : parse_unsigned text = Ok v -> fits 64 v.
Proof.
  unfold parse_unsigned.
  assert (forall base digits, base = 10 \/ base = 16 ->
    from_all_chars 64 base digits = Some v -> fits 64 v) as Hf.
  { intros base digits Hb. unfold from_all_chars, from_chars.
    pose proof (scan_digits_nonneg base digits 0 0 ltac:(lia) ltac:(lia)) as Hn.
    destruct (scan_digits base digits 0 0) as [[n c] rest]. cbn in Hn.
    destruct ((c =? 0)%nat || negb (n <? 2 ^ 64)) eqn:E; [done|].
    apply orb_false_iff in E as [_ E%negb_false_iff%Z.ltb_lt].
    case_bool_decide; [|done]. intros [= <-]. split; lia. }
  destruct (strip_prefix "0x" text), (strip_prefix "0X" text);
    (destruct (from_all_chars _ _ _) eqn:E; [|done]); intros [= <-]; (eapply Hf; [|exact E]); auto.
Qed.

(** Parsing a number printed in decimal gives the number back, for every
    64-bit value: the sizes [default_platform] prints are the sizes the device
    factories parse. *)
Theorem parse_unsigned_to_string (n : Z) :
  fits 64 n -> parse_unsigned (to_string n) = Ok n.
Proof.
  intros Hn. unfold parse_unsigned. rewrite !to_string_no_prefix by (done || tauto).
  unfold from_all_chars, from_chars, to_string.
  destruct (scan_print 20 n 0 0 EmptyString) as (m & Hm & ->); [|lia|].
  { destruct Hn. change (10 ^ Z.of_nat 20) with (10 ^ 20). lia. }
  destruct Hn as [Hn0 Hn1]. destruct m; [lia|]. cbn [scan_digits Nat.add Nat.eqb orb].
  rewrite Z.mul_0_l, Z.add_0_l. replace (n <? 2 ^ 64) with true by (symmetry; apply Z.ltb_lt; lia). done.
Qed.

Lemma parse_unsigned_to_string_witness : parse_unsigned (to_string 0x8000000) = Ok 0x8000000.
Proof. apply (parse_unsigned_to_string 0x8000000). split; vm_compute; congruence. Defined.
