(* ===== verification/Console.v ===== *)
(** * Printed text

    What the program writes to [std::cout] and [std::cerr], and the messages of
    its exceptions ([what()]). *)
From Stdlib Require Import Ascii.
From S2P Require Import Prelude Text.

(** Both streams, with the text written so far. *)
Record Console := mk_console { cout : string; cerr : string }.
#[export] Instance Console_eta : Eta Console := fun c => mk_console (cout c) (cerr c).
Definition empty_console : Console := {| cout := EmptyString; cerr := EmptyString |}.

Definition print_out (text : string) (c : Console) : Console :=
  c <| cout ::= fun s => s +:+ text |>.
Definition print_err (text : string) (c : Console) : Console :=
  c <| cerr ::= fun s => s +:+ text |>.

(** A [std::filesystem::path] is written as [std::quoted] does it. *)
Definition quote : ascii := "034".
Definition backslash : ascii := "092".

Fixpoint escape (text : string) : string :=
  match text with
  | EmptyString => EmptyString
  | String c rest =>
      if bool_decide (c = quote) || bool_decide (c = backslash)
      then String backslash (String c (escape rest)) else String c (escape rest)
  end.

Definition quoted (text : string) : string :=
  String quote (escape text +:+ String quote EmptyString).

(** The text [protocol_error] of fabric.hpp builds. *)
Definition protocol_message (context : ErrorContext) (detail : string) : string :=
  "cycle " +:+ to_string (ec_cycle context) +:+ ", AXI port " +:+
  to_string (Z.of_nat (ec_port context)) +:+ ", " +:+ ec_channel context +:+
  match ec_id_address context with
  | Some (id, address) => ", ID 0x" +:+ to_hex id +:+ ", address 0x" +:+ to_hex address
  | None => EmptyString
  end +:+ ": " +:+ detail.

Definition what (e : exn) : string :=
  match e with
  | ProtocolError (Some context) detail => protocol_message context detail
  | ProtocolError None detail => detail
  | ElfError message | InvalidArgument message | LogicError message
  | OutOfRange message | RuntimeError message | LengthError message | BadAlloc message => message
  end.

(** ** Reading numbers back *)
Lemma append_cons c s t : String c s +:+ t = String c (s +:+ t).
Proof. done. Qed.
Lemma append_nil_r s : s +:+ EmptyString = s.
Proof. by induction s as [|c s IH]; [|rewrite append_cons, IH]. Qed.
Lemma append_assoc s t u : (s +:+ t) +:+ u = s +:+ (t +:+ u).
Proof. induction s as [|c s IH]; [done|]. by rewrite !append_cons, IH. Qed.

Lemma print_digits_acc fuel n acc : print_digits fuel n acc = print_digits fuel n EmptyString +:+ acc.
Proof.
  revert n acc. induction fuel as [|fuel IH]; intros n acc; [done|]. cbn [print_digits].
  destruct (n / 10 =? 0); [done|]. rewrite IH, (IH _ (String _ EmptyString)), append_assoc. done.
Qed.

(** A text that does not start with a digit. *)
Definition no_digit (s : string) : Prop :=
  match s with String c _ => digit_value 10 c = None | EmptyString => True end.

(** A number followed by text that is no digit is scanned back. *)
Lemma scan_to_string n rest :
  fits 64 n -> no_digit rest ->
  exists m, (0 < m)%nat /\ scan_digits 10 (to_string n +:+ rest) 0 0 = (n, m, rest).
Proof.
  intros Hn Hr. unfold to_string. rewrite <- print_digits_acc.
  destruct (scan_print 20 n 0 0 rest) as (m & Hm & ->); [|lia|].
  { destruct Hn. change (10 ^ Z.of_nat 20) with (10 ^ 20). lia. }
  exists m. split; [done|]. rewrite Z.mul_0_l, Z.add_0_l, Nat.add_0_l.
  destruct rest as [|c rest]; [done|]. cbn [scan_digits]. cbn in Hr. by rewrite Hr.
Qed.

Lemma from_chars_to_string n rest :
  fits 64 n -> no_digit rest -> from_chars 64 10 (to_string n +:+ rest) = Some (n, rest).
Proof.
  intros Hn Hr. unfold from_chars. destruct (scan_to_string n rest Hn Hr) as (m & Hm & ->).
  destruct m; [lia|]. cbn [Nat.eqb orb]. destruct Hn as [_ Hn]. apply Z.ltb_lt in Hn. by rewrite Hn.
Qed.

Lemma strip_prefix_app p s : strip_prefix p (p +:+ s) = Some s.
Proof. induction p as [|c p IH]; [done|]. rewrite append_cons. cbn. by rewrite bool_decide_eq_true_2. Qed.
