(* ===== verification/RingBuffer.v ===== *)
(** * Fixed-capacity ring buffer ([RingBuffer] of src/axi.hpp)

    The buffer is the array [values_], the index [head_] of the oldest element
    and the number [size_] of elements.  The abstract view of a well-formed
    buffer is the list of its elements, oldest first ([rb_list]); every
    operation is shown to be the corresponding operation of a bounded queue. *)
From S2P Require Import Prelude.

Record RingBuffer (T : Type) := {
  values_ : list T;
  head_ : nat;
  size_ : nat
}.
Arguments values_ {T} _.
Arguments head_ {T} _.
Arguments size_ {T} _.

Section RingBuffer.
Context {T : Type} `{!Inhabited T} (Capacity : nat).
Implicit Types (rb : RingBuffer T) (v : T).

(** [std::array<T, Capacity> values_{}]: [inhabitant] is [T{}]. *)
Definition rb_init : RingBuffer T :=
  {| values_ := replicate Capacity inhabitant; head_ := 0; size_ := 0 |}.

Definition rb_empty rb : bool := (size_ rb =? 0)%nat.
Definition rb_full rb : bool := (size_ rb =? Capacity)%nat.

Definition rb_front rb : result T :=
  if rb_empty rb then Throw (LogicError "front() on empty RingBuffer")
  else Ok (values_ rb !!! head_ rb).

(** Writing through the reference [front()] returns. *)
Definition rb_set_front v rb : RingBuffer T :=
  {| values_ := <[head_ rb := v]> (values_ rb);
     head_ := head_ rb; size_ := size_ rb |}.

Definition rb_push v rb : bool * RingBuffer T :=
  if rb_full rb then (false, rb)
  else (true,
        {| values_ := <[((head_ rb + size_ rb) mod Capacity)%nat := v]> (values_ rb);
           head_ := head_ rb; size_ := S (size_ rb) |}).

Definition rb_pop rb : result (RingBuffer T) :=
  if rb_empty rb then Throw (LogicError "pop() on empty RingBuffer")
  else Ok {| values_ := values_ rb;
             head_ := ((head_ rb + 1) mod Capacity)%nat;
             size_ := (size_ rb - 1)%nat |}.

Definition rb_clear rb : RingBuffer T :=
  {| values_ := values_ rb; head_ := 0; size_ := 0 |}.

(** ** Well-formedness and the abstract queue *)
Definition rb_wf rb : Prop :=
  length (values_ rb) = Capacity /\ (head_ rb < Capacity)%nat /\
  (size_ rb <= Capacity)%nat.

Definition rb_list rb : list T :=
  (fun i => values_ rb !!! ((head_ rb + i) mod Capacity)%nat) <$> seq 0 (size_ rb).

Lemma rb_list_length rb : length (rb_list rb) = size_ rb.
Proof. unfold rb_list. by rewrite length_fmap, length_seq. Qed.

Lemma rb_list_lookup rb i :
  (i < size_ rb)%nat ->
  rb_list rb !! i = Some (values_ rb !!! ((head_ rb + i) mod Capacity)%nat).
Proof. intros. unfold rb_list. by rewrite list_lookup_fmap, seq_lookup_lt. Qed.

Lemma rb_empty_spec rb : rb_empty rb = true <-> rb_list rb = [].
Proof.
  unfold rb_empty. rewrite Nat.eqb_eq, <- rb_list_length.
  by rewrite length_zero_iff_nil.
Qed.

Lemma rb_full_spec rb :
  rb_wf rb -> rb_full rb = false <-> (length (rb_list rb) < Capacity)%nat.
Proof.
  intros (_ & _ & Hs). unfold rb_full.
  rewrite rb_list_length, Nat.eqb_neq. lia.
Qed.

(** Two buffer positions less than a capacity apart are different slots. *)
Lemma slot_inj (h i j : nat) :
  (h < Capacity)%nat -> (i < Capacity)%nat -> (j < Capacity)%nat ->
  ((h + i) mod Capacity)%nat = ((h + j) mod Capacity)%nat -> i = j.
Proof.
  intros Hh Hi Hj Heq.
  pose proof (Nat.div_mod_eq (h + i) Capacity) as Ei.
  pose proof (Nat.div_mod_eq (h + j) Capacity) as Ej.
  rewrite Heq in Ei.
  assert ((h + i) / Capacity < 2)%nat by (apply Nat.Div0.div_lt_upper_bound; lia).
  assert ((h + j) / Capacity < 2)%nat by (apply Nat.Div0.div_lt_upper_bound; lia).
  destruct ((h + i) / Capacity)%nat as [|[|]], ((h + j) / Capacity)%nat as [|[|]]; lia.
Qed.

Lemma slot_lt (n : nat) : (0 < Capacity)%nat -> (n mod Capacity < Capacity)%nat.
Proof. intros. apply Nat.mod_upper_bound. lia. Qed.

(** ** Every operation is the queue operation *)
Lemma rb_init_spec : (0 < Capacity)%nat -> rb_wf rb_init /\ rb_list rb_init = [].
Proof. intros. repeat split; simpl; rewrite ?length_replicate; lia. Qed.

Lemma rb_clear_spec rb : rb_wf rb -> rb_wf (rb_clear rb) /\ rb_list (rb_clear rb) = [].
Proof. intros (? & ? & ?). repeat split; simpl; lia. Qed.

Lemma rb_front_spec rb :
  rb_wf rb ->
  rb_front rb = match rb_list rb with
                | [] => Throw (LogicError "front() on empty RingBuffer")
                | v :: _ => Ok v
                end.
Proof.
  intros (Hl & Hh & Hs). unfold rb_front, rb_empty, rb_list.
  destruct (size_ rb); [done|]. simpl.
  by rewrite Nat.add_0_r, Nat.mod_small.
Qed.

Lemma rb_push_spec rb v :
  rb_wf rb ->
  let (ok, rb') := rb_push v rb in
  rb_wf rb' /\ ok = negb (rb_full rb) /\
  rb_list rb' = if ok then rb_list rb ++ [v] else rb_list rb.
Proof.
  intros (Hl & Hh & Hs). unfold rb_push.
  destruct (rb_full rb) eqn:Hf; [done|].
  assert (size_ rb < Capacity)%nat by (unfold rb_full in Hf; bool_cases; lia || done).
  split; [|split; [done|]].
  { repeat split; simpl; rewrite ?length_insert; lia. }
  unfold rb_list. simpl size_. rewrite seq_S, fmap_app. simpl. f_equal.
  - apply list_fmap_ext. intros i x Hx. apply lookup_seq in Hx as [-> Hi].
    simpl. rewrite list_lookup_total_insert_ne; [done|].
    intros Heq%slot_inj; lia.
  - rewrite list_lookup_total_insert_eq; [done|]. rewrite Hl. apply slot_lt. lia.
Qed.

Lemma rb_pop_spec rb :
  rb_wf rb ->
  match rb_list rb with
  | [] => rb_pop rb = Throw (LogicError "pop() on empty RingBuffer")
  | _ :: q => exists rb', rb_pop rb = Ok rb' /\ rb_wf rb' /\ rb_list rb' = q
  end.
Proof.
  intros (Hl & Hh & Hs). unfold rb_pop, rb_empty, rb_list.
  destruct (size_ rb) as [|n] eqn:Hn; [done|]. simpl.
  eexists. split; [done|]. split.
  { repeat split; simpl; [done | apply slot_lt; lia | lia]. }
  simpl. rewrite Nat.sub_0_r, <- fmap_S_seq, <- list_fmap_compose.
  apply list_fmap_ext. intros i x _. simpl. f_equal.
  rewrite Nat.Div0.add_mod_idemp_l. f_equal. lia.
Qed.

Lemma rb_set_front_spec rb v :
  rb_wf rb -> rb_wf (rb_set_front v rb) /\
  rb_list (rb_set_front v rb) = match rb_list rb with [] => [] | _ :: q => v :: q end.
Proof.
  intros (Hl & Hh & Hs). split.
  { repeat split; simpl; rewrite ?length_insert; lia. }
  unfold rb_list. simpl size_. destruct (size_ rb) as [|n] eqn:Hn; [done|]. simpl.
  rewrite Nat.add_0_r, Nat.mod_small by done. f_equal.
  - apply list_lookup_total_insert_eq. lia.
  - apply list_fmap_ext. intros i x Hx. apply lookup_seq in Hx as [-> Hi].
    rewrite list_lookup_total_insert_ne; [done|].
    intros Heq. assert (0 = 1 + i)%nat; [|lia].
    apply (slot_inj (head_ rb)); [lia..|].
    by rewrite Nat.add_0_r, Nat.mod_small.
Qed.

(** ** Sequences of calls: the ring buffer implements a bounded queue *)
Inductive call :=
| CallPush (v : T)
| CallFront
| CallSetFront (v : T)
| CallPop
| CallClear.

(** What a caller sees: a [bool], a value, or an exception. *)
Inductive reply :=
| ReplyBool (b : bool)
| ReplyValue (r : result T)
| ReplyDone (r : result unit).

Definition rb_call (c : call) rb : reply * RingBuffer T :=
  match c with
  | CallPush v => let (b, rb') := rb_push v rb in (ReplyBool b, rb')
  | CallFront => (ReplyValue (rb_front rb), rb)
  | CallSetFront v =>
      match rb_front rb with
      | Ok _ => (ReplyDone (Ok tt), rb_set_front v rb)
      | Throw e => (ReplyDone (Throw e), rb)
      end
  | CallPop =>
      match rb_pop rb with
      | Ok rb' => (ReplyDone (Ok tt), rb')
      | Throw e => (ReplyDone (Throw e), rb)
      end
  | CallClear => (ReplyDone (Ok tt), rb_clear rb)
  end.

(** The specification: a list that never grows beyond [Capacity]. *)
Definition queue_call (c : call) (q : list T) : reply * list T :=
  match c with
  | CallPush v =>
      if (length q <? Capacity)%nat then (ReplyBool true, q ++ [v]) else (ReplyBool false, q)
  | CallFront =>
      (ReplyValue (match q with
                   | [] => Throw (LogicError "front() on empty RingBuffer")
                   | v :: _ => Ok v end), q)
  | CallSetFront v =>
      match q with
      | [] => (ReplyDone (Throw (LogicError "front() on empty RingBuffer")), [])
      | _ :: q' => (ReplyDone (Ok tt), v :: q')
      end
  | CallPop =>
      match q with
      | [] => (ReplyDone (Throw (LogicError "pop() on empty RingBuffer")), [])
      | _ :: q' => (ReplyDone (Ok tt), q')
      end
  | CallClear => (ReplyDone (Ok tt), [])
  end.

Fixpoint run_calls {Q} (step : call -> Q -> reply * Q) (cs : list call) (q : Q)
  : list reply * Q :=
  match cs with
  | [] => ([], q)
  | c :: cs' => let (r, q') := step c q in
                let (rs, q'') := run_calls step cs' q' in (r :: rs, q'')
  end.

Lemma rb_call_simulates c rb :
  rb_wf rb ->
  rb_wf (rb_call c rb).2 /\
  ((rb_call c rb).1, rb_list (rb_call c rb).2) = queue_call c (rb_list rb).
Proof.
  intros Hwf. pose proof Hwf as (_ & _ & Hs). destruct c; simpl.
  - pose proof (rb_push_spec rb v Hwf) as Hp. pose proof (rb_full_spec rb Hwf) as Hf.
    destruct (rb_push v rb) as [b rb']. destruct Hp as (Hw & -> & Hl). split; [done|].
    simpl. rewrite Hl. destruct Hf as [Hf1 Hf2].
    destruct (Nat.ltb_spec (length (rb_list rb)) Capacity); destruct (rb_full rb); simpl;
      [by specialize (Hf2 ltac:(done)) | done | done | specialize (Hf1 eq_refl); lia].
  - split; [done|]. by rewrite rb_front_spec.
  - rewrite rb_front_spec by done. destruct (rb_set_front_spec rb v Hwf) as [Hw Hl].
    destruct (rb_list rb) eqn:Hq; simpl; [by rewrite Hq | by rewrite Hl].
  - pose proof (rb_pop_spec rb Hwf) as Hp.
    destruct (rb_list rb) eqn:Hq; [rewrite Hp; simpl; by rewrite Hq|].
    destruct Hp as (rb' & -> & Hw & Hl). simpl. by rewrite Hl.
  - destruct (rb_clear_spec rb Hwf) as [Hw Hl]. by rewrite Hl.
Qed.

(** C33: a ring buffer that starts empty answers every sequence of
    [push]/[front]/[pop]/[clear] calls (writes through [front()] included)
    exactly as a first-in first-out list bounded by [Capacity] does, and its
    final contents are that list's: nothing is lost, duplicated or reordered
    when the indices wrap around, and [push] fails exactly when it is full. *)
Theorem ring_buffer_is_bounded_queue (cs : list call) :
  (0 < Capacity)%nat ->
  let (replies, rb) := run_calls rb_call cs rb_init in
  run_calls queue_call cs [] = (replies, rb_list rb) /\
  (length (rb_list rb) <= Capacity)%nat.
Proof.
  intros Hc. destruct (rb_init_spec Hc) as [Hwf Hl]. rewrite <- Hl. clear Hl.
  revert Hwf. generalize rb_init as rb. induction cs as [|c cs IH]; intros rb Hwf; simpl.
  { split; [done|]. rewrite rb_list_length. apply Hwf. }
  destruct (rb_call_simulates c rb Hwf) as [Hwf' Heq]. rewrite <- Heq.
  destruct (rb_call c rb) as [r rb'] eqn:Hr. simpl in *.
  specialize (IH rb' Hwf'). destruct (run_calls rb_call cs rb') as [rs rb''].
  destruct IH as [-> ?]. done.
Qed.
End RingBuffer.

Arguments call : clear implicits.
Arguments reply : clear implicits.

(** Three elements through a two-slot buffer, across the wrap-around. *)
Lemma ring_buffer_is_bounded_queue_witness :
  (0 < 2)%nat /\
  run_calls (queue_call 2) [CallPush 1; CallPush 2; CallPush 3; CallPop; CallPush 3; CallFront] [] =
    ([ReplyBool true; ReplyBool true; ReplyBool false; ReplyDone (Ok tt); ReplyBool true;
      ReplyValue (Ok 2)], [2; 3]).
Proof.
  split; [lia|].
  pose proof (ring_buffer_is_bounded_queue (T := Z) 2
    [CallPush 1; CallPush 2; CallPush 3; CallPop; CallPush 3; CallFront] ltac:(lia)) as H.
  apply (proj1 H).
Defined.

#[export] Hint Resolve rb_clear_spec : axi.
