(* ===== verification/Axi.v ===== *)
(** * AXI payloads and burst arithmetic (src/axi.hpp)

    The enumerations and payload structures of the AXI channels, the merging
    of responses, and [BurstCursor]: the beat addresses, byte lanes and legality
    of a FIXED, INCR or WRAP burst.  Addresses are [uint64_t] (the wide
    intermediate values [unsigned __int128]), indices of beats and lanes [nat]. *)
From S2P Require Import Prelude.

Inductive Response := Okay | ExclusiveOkay | SlaveError | DecodeError.
Inductive Burst := Fixed | Increment | Wrap | Reserved.

#[global] Instance Response_eq_dec : EqDecision Response.
Proof. solve_decision. Defined.
#[global] Instance Burst_eq_dec : EqDecision Burst.
Proof. solve_decision. Defined.

(** The encodings of the enumerations ([static_cast] in either direction). *)
Definition response_code (r : Response) : Z :=
  match r with Okay => 0 | ExclusiveOkay => 1 | SlaveError => 2 | DecodeError => 3 end.
Definition burst_of_code (b : Z) : Burst :=
  if b =? 0 then Fixed else if b =? 1 then Increment else if b =? 2 then Wrap else Reserved.

Record AddressPayload := {
  ap_id : Z;
  ap_address : Z;
  ap_length : Z;        (* beats minus one *)
  ap_size : Z;          (* log2 of the bytes per beat *)
  ap_burst : Burst;
  ap_lock : bool;
  ap_cache : Z;
  ap_protection : Z
}.

#[global] Instance AddressPayload_inhabited : Inhabited AddressPayload :=
  populate {| ap_id := 0; ap_address := 0; ap_length := 0; ap_size := 0;
              ap_burst := Increment; ap_lock := false; ap_cache := 0; ap_protection := 0 |}.
#[global] Instance AddressPayload_eq_dec : EqDecision AddressPayload.
Proof. solve_decision. Defined.

Record WriteDataPayload := { wd_data : list Z; wd_strobe : list Z; wd_last : bool }.

#[global] Instance WriteDataPayload_eq_dec : EqDecision WriteDataPayload.
Proof. solve_decision. Defined.

Record ReadDataPayload := {
  rd_id : Z; rd_data : list Z; rd_response : Response; rd_last : bool }.

Record WriteResponsePayload := {
  wr_id : Z; wr_response : Response; wr_exit_response : bool; wr_exit_code : Z }.

#[global] Instance WriteResponsePayload_inhabited : Inhabited WriteResponsePayload :=
  populate {| wr_id := 0; wr_response := Okay; wr_exit_response := false; wr_exit_code := 0 |}.

(** What the DUT drives on one port, and what the fabric answers. *)
Record MasterSignals := {
  m_aw_valid : bool; m_aw : AddressPayload;
  m_w_valid : bool; m_w : WriteDataPayload;
  m_b_ready : bool;
  m_ar_valid : bool; m_ar : AddressPayload;
  m_r_ready : bool
}.

Record SlaveSignals := {
  s_aw_ready : bool;
  s_w_ready : bool;
  s_b_valid : bool; s_b : WriteResponsePayload;
  s_ar_ready : bool;
  s_r_valid : bool; s_r : ReadDataPayload
}.

Definition combine_response (lhs rhs : Response) : Response :=
  if bool_decide (lhs = DecodeError) || bool_decide (rhs = DecodeError) then DecodeError
  else if bool_decide (lhs = SlaveError) || bool_decide (rhs = SlaveError) then SlaveError
  else if bool_decide (lhs = ExclusiveOkay) || bool_decide (rhs = ExclusiveOkay)
  then ExclusiveOkay
  else Okay.

(** src/device.hpp *)
Definition response_is_success (r : Response) : bool :=
  bool_decide (r = Okay) || bool_decide (r = ExclusiveOkay).

(** ** BurstCursor *)
Record BurstCursor := {
  payload_ : AddressPayload;
  beats_ : nat;
  beat_bytes_ : Z
}.

Section BurstCursor.
Context (DATA_BYTES : nat).

Definition checked_beat_bytes (size : Z) : result Z :=
  guard size <? 64 else ProtocolError None "AXI AxSIZE is not representable" in
  Ok (Z.shiftl 1 size).

Definition validate_shape (c : BurstCursor) : result unit :=
  let p := payload_ c in
  guard negb (Z.of_nat DATA_BYTES <? beat_bytes_ c)
    else ProtocolError None "AXI AxSIZE exceeds the data bus width" in
  guard negb (bool_decide (ap_burst p = Reserved))
    else ProtocolError None "reserved AXI burst type" in
  guard negb (bool_decide (ap_burst p = Fixed) && (16 <? beats_ c)%nat)
    else ProtocolError None "AXI FIXED burst contains more than 16 beats" in
  if bool_decide (ap_burst p = Wrap) then
    guard ((beats_ c =? 2) || (beats_ c =? 4) || (beats_ c =? 8) || (beats_ c =? 16))%nat
      else ProtocolError None "AXI WRAP burst length is not 2, 4, 8, or 16" in
    guard negb (nz (Z.land (ap_address p) (beat_bytes_ c - 1)))
      else ProtocolError None "AXI WRAP burst start is not beat-aligned" in
    Ok tt
  else Ok tt.

(** The constructor. *)
Definition mk_cursor (p : AddressPayload) : result BurstCursor :=
  try bytes := checked_beat_bytes (ap_size p) in
  let c := {| payload_ := p; beats_ := Z.to_nat (ap_length p + 1); beat_bytes_ := bytes |} in
  try _ := validate_shape c in
  Ok c.

Definition beat_address (c : BurstCursor) (index : nat) : result Z :=
  guard (index <? beats_ c)%nat else OutOfRange "AXI beat index out of range" in
  let start := ap_address (payload_ c) in
  let aligned := Z.land start (u128 (Z.lnot (beat_bytes_ c - 1))) in
  let i := Z.of_nat index in
  try result :=
    match ap_burst (payload_ c) with
    | Fixed => Ok start
    | Increment =>
        Ok (if (index =? 0)%nat then start
            else u128 (aligned + u128 (i * beat_bytes_ c)))
    | Wrap =>
        let boundary := u128 (Z.of_nat (beats_ c) * beat_bytes_ c) in
        let base := Z.land start (u128 (Z.lnot (u128 (boundary - 1)))) in
        Ok (u128 (base + u128 (u128 (start - base) + u128 (i * beat_bytes_ c)) mod boundary))
    | Reserved => Throw (ProtocolError None "reserved AXI burst type")
    end in
  guard negb (UINT64_MAX <? result)
    else ProtocolError None "AXI address arithmetic overflow" in
  Ok (u64 result).

(** The lanes of a beat whose address is [addr]. *)
Definition lane_mask_at (c : BurstCursor) (addr : Z) : list Z :=
  let aligned_to_size := Z.land addr (u64 (Z.lnot (beat_bytes_ c - 1))) in
  let first := addr in
  let last := u64 (aligned_to_size + beat_bytes_ c) in
  let bus_base := Z.land addr (u64 (Z.lnot (Z.of_nat DATA_BYTES - 1))) in
  (fun lane : nat =>
     let byte_address := u64 (bus_base + Z.of_nat lane) in
     b2z ((first <=? byte_address) && (byte_address <? last))) <$> seq 0 DATA_BYTES.

Definition lane_mask (c : BurstCursor) (index : nat) : result (list Z) :=
  try addr := beat_address c index in Ok (lane_mask_at c addr).

Definition bus_word_address (c : BurstCursor) (index : nat) : result Z :=
  try addr := beat_address c index in
  Ok (Z.land addr (u64 (Z.lnot (Z.of_nat DATA_BYTES - 1)))).

(** The lane loop of [validate_4k_boundary] for one beat. *)
Definition beat_in_page (page base : Z) (mask : list Z) : bool :=
  forallb (fun lane : nat =>
    negb (nz (mask !!! lane) && negb (Z.shiftr (u64 (base + Z.of_nat lane)) 12 =? page)))
    (seq 0 DATA_BYTES).

Fixpoint validate_4k_beats (c : BurstCursor) (page : Z) (todo : list nat) : result unit :=
  match todo with
  | [] => Ok tt
  | beat :: todo' =>
      try base := bus_word_address c beat in
      try mask := lane_mask c beat in
      guard beat_in_page page base mask
        else ProtocolError None "AXI burst crosses a 4 KiB boundary" in
      validate_4k_beats c page todo'
  end.

Definition validate_4k_boundary (c : BurstCursor) : result unit :=
  validate_4k_beats c (Z.shiftr (ap_address (payload_ c)) 12) (seq 0 (beats_ c)).

(** ** The values of the C++ types *)
Definition payload_wf (p : AddressPayload) : Prop :=
  fits 64 (ap_id p) /\ fits 64 (ap_address p) /\ fits 8 (ap_length p) /\
  fits 8 (ap_size p).

(** The widths the fabric is instantiated with: a power of two of at most
    1024 bits ([DataBits] is 32, 64 or 128). *)
Class BusWidth := {
  bus_log : Z;
  bus_log_bound : 0 <= bus_log <= 7;
  bus_log_eq : Z.of_nat DATA_BYTES = 2 ^ bus_log
}.

(** ** The specification of a burst *)
Definition burst_beats (p : AddressPayload) : nat := Z.to_nat (ap_length p + 1).
Definition burst_bytes (p : AddressPayload) : Z := 2 ^ ap_size p.

Definition legal_shape (p : AddressPayload) : Prop :=
  burst_bytes p <= Z.of_nat DATA_BYTES /\
  match ap_burst p with
  | Fixed => ap_length p <= 15
  | Increment => True
  | Wrap => (ap_length p = 1 \/ ap_length p = 3 \/ ap_length p = 7 \/ ap_length p = 15) /\
            ap_address p mod burst_bytes p = 0
  | Reserved => False
  end.

(** The address of beat [i], in unbounded arithmetic. *)
Definition beat_address_spec (p : AddressPayload) (i : nat) : Z :=
  let A := ap_address p in
  let B := burst_bytes p in
  match ap_burst p with
  | Increment => if (i =? 0)%nat then A else A - A mod B + Z.of_nat i * B
  | Wrap => let W := (ap_length p + 1) * B in
            A - A mod W + (A mod W + Z.of_nat i * B) mod W
  | _ => A
  end.

Definition cursor_of (p : AddressPayload) : BurstCursor :=
  {| payload_ := p; beats_ := burst_beats p; beat_bytes_ := burst_bytes p |}.

Context `{!BusWidth}.

Lemma bus_log_le (k : Z) : 0 <= k -> 2 ^ k <= Z.of_nat DATA_BYTES -> k <= bus_log.
Proof.
  intros Hk Hle. rewrite bus_log_eq in Hle. pose proof bus_log_bound.
  apply (Z.pow_le_mono_r_iff 2); lia.
Qed.

Lemma validate_shape_spec p :
  payload_wf p -> ap_size p < 64 ->
  validate_shape (cursor_of p) = Ok tt <-> legal_shape p.
Proof.
  intros (_ & HA & HL & HS) Hs. unfold validate_shape, legal_shape, cursor_of; simpl.
  unfold burst_bytes at 2. rewrite land_low by apply HS. fold (burst_bytes p).
  unfold fits, burst_beats in *.
  destruct (ap_burst p); simpl; unfold nz; bool_cases; simpl; split;
    intros; try done; try lia; try (split; [lia|]); try (destruct_and!; destruct_or?; lia).
Qed.

Lemma mk_cursor_unfold p :
  mk_cursor p =
  if ap_size p <? 64
  then try _ := validate_shape (cursor_of p) in Ok (cursor_of p)
  else Throw (ProtocolError None "AXI AxSIZE is not representable").
Proof.
  unfold mk_cursor, checked_beat_bytes. rewrite Z.shiftl_1_l.
  by destruct (ap_size p <? 64).
Qed.

Lemma validate_shape_throws c e :
  validate_shape c = Throw e -> exists why, e = ProtocolError None why.
Proof. unfold validate_shape. repeat case_match; intros; inv_all; eauto. Qed.

Lemma mk_cursor_spec (p : AddressPayload) :
  payload_wf p ->
  (legal_shape p -> mk_cursor p = Ok (cursor_of p)) /\
  (~ legal_shape p -> exists why, mk_cursor p = Throw (ProtocolError None why)).
Proof.
  intros Hwf. pose proof Hwf as (_ & _ & _ & HS). rewrite mk_cursor_unfold.
  destruct (Z.ltb_spec (ap_size p) 64) as [Hs|Hs].
  - pose proof (validate_shape_spec p Hwf Hs) as Hv. split; intros Hl.
    + apply Hv in Hl. by rewrite Hl.
    + destruct (validate_shape (cursor_of p)) as [[]|e] eqn:E; [tauto|].
      apply validate_shape_throws in E as [why ->]. by exists why.
  - split; [|naive_solver]. intros [Hle _].
    apply bus_log_le in Hle; [|apply HS]. pose proof bus_log_bound. lia.
Qed.

Lemma mk_cursor_ok_inv p c :
  payload_wf p -> mk_cursor p = Ok c -> c = cursor_of p /\ legal_shape p.
Proof.
  intros Hw. rewrite mk_cursor_unfold. destruct (Z.ltb_spec (ap_size p) 64); [|done].
  pose proof (validate_shape_spec p Hw ltac:(done)) as Hv.
  destruct (validate_shape (cursor_of p)) as [[]|]; simpl; [|done].
  intros; inv_all. split; [done | by apply Hv].
Qed.

(** The messages a cursor can raise. *)
Definition cursor_errors : list string :=
  ["AXI AxSIZE is not representable"; "AXI AxSIZE exceeds the data bus width";
   "reserved AXI burst type"; "AXI FIXED burst contains more than 16 beats";
   "AXI WRAP burst length is not 2, 4, 8, or 16"; "AXI WRAP burst start is not beat-aligned";
   "AXI address arithmetic overflow"; "AXI burst crosses a 4 KiB boundary"].
Definition cursor_error (e : exn) : Prop :=
  exists why, e = ProtocolError None why /\ why ∈ cursor_errors.

Lemma cursor_error_intro why :
  bool_decide (why ∈ cursor_errors) = true -> cursor_error (ProtocolError None why).
Proof. intros Hin%bool_decide_eq_true. by exists why. Qed.

Lemma mk_cursor_error p e : mk_cursor p = Throw e -> cursor_error e.
Proof.
  rewrite mk_cursor_unfold. unfold validate_shape.
  repeat case_match; simpl; intros; inv_all; by apply cursor_error_intro.
Qed.

Lemma beat_address_error c i e :
  (i < beats_ c)%nat -> beat_address c i = Throw e -> cursor_error e.
Proof.
  intros Hi%Nat.ltb_lt. unfold beat_address. rewrite Hi.
  destruct (ap_burst (payload_ c)); simpl; try (destruct (negb _); [done|]);
    intros; inv_all; by apply cursor_error_intro.
Qed.

Lemma validate_4k_error c e : validate_4k_boundary c = Throw e -> cursor_error e.
Proof.
  unfold validate_4k_boundary. generalize (Z.shiftr (ap_address (payload_ c)) 12) as pg.
  assert (Forall (fun i => (i < beats_ c)%nat) (seq 0 (beats_ c))) as Hall.
  { apply Forall_forall. intros i Hi%elem_of_seq. lia. }
  intros pg. induction Hall as [|i l Hi _ IH]; simpl; [done|].
  unfold bus_word_address, lane_mask.
  destruct (beat_address c i) eqn:Ha; simpl; [|intros; inv_all; by eapply beat_address_error].
  destruct (beat_in_page _ _ _); [done|]. intros; inv_all. by apply cursor_error_intro.
Qed.

(** The constructor of [BurstCursor] accepts a payload exactly when AXI
    allows its shape: no beat wider than the bus, no reserved burst type, at
    most 16 beats of a FIXED burst, 2, 4, 8 or 16 beats of a WRAP burst that
    starts on a beat boundary.  Any other payload raises a protocol error,
    and an accepted one yields its beat count and beat size. *)
Theorem mk_cursor_accepts_legal_shapes (p : AddressPayload) :
  payload_wf p ->
  (legal_shape p -> mk_cursor p = Ok (cursor_of p)) /\
  (~ legal_shape p -> exists why, mk_cursor p = Throw (ProtocolError None why)).
Proof. apply mk_cursor_spec. Qed.

(** ** Addresses of the beats of a legal burst *)
Section Legal.
Context (p : AddressPayload) (Hwf : payload_wf p) (Hlegal : legal_shape p).

Lemma burst_size_bound : 0 <= ap_size p <= bus_log.
Proof.
  destruct Hwf as (_ & _ & _ & HS). split; [apply HS|].
  apply bus_log_le; [apply HS | apply Hlegal].
Qed.

Lemma burst_bytes_bound : 1 <= burst_bytes p <= 128.
Proof.
  pose proof burst_size_bound. pose proof bus_log_bound. unfold burst_bytes. split.
  - change 1 with (2 ^ 0). apply Z.pow_le_mono_r; lia.
  - change 128 with (2 ^ 7). apply Z.pow_le_mono_r; lia.
Qed.

Lemma burst_bytes_divide : (burst_bytes p | Z.of_nat DATA_BYTES).
Proof. rewrite bus_log_eq. apply pow2_divide, burst_size_bound. Qed.

Lemma burst_beats_Z : Z.of_nat (burst_beats p) = ap_length p + 1.
Proof. destruct Hwf as (_ & _ & HL & _). unfold burst_beats, fits in *. lia. Qed.

Lemma burst_beats_bound : (1 <= burst_beats p <= 256)%nat.
Proof.
  pose proof burst_beats_Z. destruct Hwf as (_ & _ & HL & _).
  unfold fits in HL. change (2 ^ 8) with 256 in HL. lia.
Qed.

(** The container of a WRAP burst is a power of two. *)
Lemma wrap_container :
  ap_burst p = Wrap ->
  exists k, 1 <= k <= 4 /\ (ap_length p + 1) * burst_bytes p = 2 ^ (k + ap_size p).
Proof.
  intros Hb. pose proof Hlegal as Hl. unfold legal_shape in Hl. rewrite Hb in Hl.
  destruct Hl as (_ & Hn & _). pose proof burst_size_bound.
  unfold burst_bytes.
  destruct Hn as [->|[->|[->| ->]]]; [exists 1|exists 2|exists 3|exists 4];
    (split; [lia|]); by rewrite Z.pow_add_r by lia.
Qed.

Lemma beat_address_wrap_bound (i : nat) :
  ap_burst p = Wrap ->
  let W := (ap_length p + 1) * burst_bytes p in
  let base := ap_address p - ap_address p mod W in
  0 <= base <= beat_address_spec p i /\ beat_address_spec p i < base + W /\
  base + W <= 2 ^ 64.
Proof.
  intros Hb. simpl. unfold beat_address_spec. rewrite Hb.
  destruct (wrap_container Hb) as (k & Hk & ->). pose proof burst_size_bound.
  pose proof bus_log_bound.
  set (W := 2 ^ (k + ap_size p)). assert (0 < W) by (apply pow2_pos; lia).
  destruct Hwf as (_ & [HA0 HA1] & _ & _).
  pose proof (Z.mod_pos_bound (ap_address p) W).
  pose proof (Z.mod_pos_bound (ap_address p mod W + Z.of_nat i * burst_bytes p) W).
  pose proof (Z.mod_le (ap_address p) W).
  assert (2 ^ 64 mod W = 0) as H64.
  { apply Z.mod_divide; [lia|]. apply pow2_divide. lia. }
  split; [lia|]. split; [lia|].
  pose proof (Z.div_mod (ap_address p) W). pose proof (Z.div_mod (2 ^ 64) W).
  assert (ap_address p / W < 2 ^ 64 / W); [|nia].
  apply Z.div_lt_upper_bound; [lia|]. rewrite H64 in *. lia.
Qed.

Lemma beat_address_spec_bound (i : nat) :
  (i < burst_beats p)%nat -> 0 <= beat_address_spec p i < 2 ^ 64 + 2 ^ 16.
Proof.
  intros Hi. destruct Hwf as (_ & [HA0 HA1] & _ & _).
  pose proof burst_beats_bound. pose proof burst_bytes_bound.
  destruct (ap_burst p) eqn:Hb; try (unfold beat_address_spec; rewrite Hb; lia).
  - unfold beat_address_spec. rewrite Hb. destruct (i =? 0)%nat; [lia|].
    pose proof (Z.mod_pos_bound (ap_address p) (burst_bytes p)).
    pose proof (Z.mod_le (ap_address p) (burst_bytes p)).
    assert (0 <= Z.of_nat i * burst_bytes p <= 256 * 128) by nia. lia.
  - pose proof (beat_address_wrap_bound i Hb). cbv zeta in *. lia.
Qed.

Lemma beat_address_eq (i : nat) :
  (i < burst_beats p)%nat ->
  beat_address (cursor_of p) i =
    if beat_address_spec p i <=? UINT64_MAX then Ok (beat_address_spec p i)
    else Throw (ProtocolError None "AXI address arithmetic overflow").
Proof.
  intros Hi. pose proof (beat_address_spec_bound i Hi) as Hb.
  pose proof burst_size_bound as Hs. pose proof burst_bytes_bound as HB.
  pose proof burst_beats_bound as Hn. pose proof bus_log_bound as HL.
  pose proof Hwf as (_ & [HA0 HA1] & _ & _). pose proof burst_beats_Z as HnZ.
  assert (fits 128 (ap_address p)) as HA by (unfold fits; lia).
  assert (0 <= Z.of_nat i * burst_bytes p <= 256 * 128) as Hib by nia.
  unfold beat_address, cursor_of; simpl.
  destruct (Nat.ltb_spec i (burst_beats p)) as [_|]; [|lia].
  assert (match ap_burst p with Reserved => False | _ => True end) as Hres.
  { pose proof Hlegal as Hl. unfold legal_shape in Hl. destruct (ap_burst p); tauto. }
  match goal with |- rbind ?c _ = _ =>
    assert (c = Ok (beat_address_spec p i)) as -> end.
  - unfold beat_address_spec in *. destruct (ap_burst p) eqn:Hburst; try done.
    + f_equal. destruct (i =? 0)%nat; [done|].
      rewrite (u128_small (_ * _)) by (unfold fits; lia).
      unfold burst_bytes at 1. rewrite u128_align by (done || lia).
      apply u128_small. fold (burst_bytes p). unfold fits; lia.
    + destruct (wrap_container Hburst) as (k & Hk & HW).
      rewrite HnZ, HW. rewrite (u128_small (2 ^ _)).
      2:{ split; [lia|]. apply Z.pow_lt_mono_r; lia. }
      assert (0 < 2 ^ (k + ap_size p)) by (apply pow2_pos; lia).
      assert (2 ^ (k + ap_size p) <= 2 ^ 11) by (apply Z.pow_le_mono_r; lia).
      rewrite (u128_small (2 ^ _ - 1)) by (unfold fits; lia).
      rewrite u128_align by (done || lia).
      pose proof (Z.mod_pos_bound (ap_address p) (2 ^ (k + ap_size p))).
      rewrite (u128_small (ap_address p - _)) by (unfold fits; lia).
      rewrite (u128_small (Z.of_nat i * _)) by (unfold fits; lia).
      replace (ap_address p - (ap_address p - ap_address p mod 2 ^ (k + ap_size p)))
        with (ap_address p mod 2 ^ (k + ap_size p)) by lia.
      rewrite (u128_small (_ mod _ + _)) by (unfold fits; lia).
      f_equal. rewrite HW in Hb. apply u128_small. unfold fits; lia.
  - simpl. unfold UINT64_MAX.
    destruct (Z.ltb_spec (2 ^ 64 - 1) (beat_address_spec p i)),
             (Z.leb_spec (beat_address_spec p i) (2 ^ 64 - 1)); try lia; [done|].
    simpl. f_equal. apply u64_small. unfold fits; lia.
Qed.

(** C34: [beat_address] computes the address AXI assigns to a beat: the
    start address for FIXED and for the first beat, the aligned start plus
    whole beats for INCR, and the position modulo the container for WRAP.
    The 128-bit arithmetic never wraps, and the only failure for a beat of
    the burst is an INCR burst that runs past the 64-bit address space. *)
Theorem beat_address_computes_axi_address (i : nat) :
  (i < burst_beats p)%nat ->
  beat_address (cursor_of p) i =
    if beat_address_spec p i <=? UINT64_MAX then Ok (beat_address_spec p i)
    else Throw (ProtocolError None "AXI address arithmetic overflow").
Proof. apply beat_address_eq. Qed.

(** ** Byte lanes *)

(** The lanes [first, first + count) of a bus word. *)
Definition lane_window (first count : nat) : list Z :=
  (fun lane => b2z ((first <=? lane)%nat && (lane <? first + count)%nat))
    <$> seq 0 DATA_BYTES.

Definition first_lane (a : Z) : nat := Z.to_nat (a mod Z.of_nat DATA_BYTES).
Definition lane_count (a : Z) : nat := Z.to_nat (burst_bytes p - a mod burst_bytes p).

Lemma lane_window_bound (a : Z) :
  (1 <= lane_count a)%nat /\ (first_lane a + lane_count a <= DATA_BYTES)%nat.
Proof.
  pose proof burst_bytes_bound as HB. pose proof burst_bytes_divide as [m Hm].
  pose proof (Z.mod_pos_bound a (burst_bytes p)).
  assert (0 < Z.of_nat DATA_BYTES).
  { rewrite bus_log_eq. apply pow2_pos. pose proof bus_log_bound. lia. }
  pose proof (Z.mod_pos_bound a (Z.of_nat DATA_BYTES)).
  unfold first_lane, lane_count. split; [lia|].
  assert (a mod Z.of_nat DATA_BYTES mod burst_bytes p = a mod burst_bytes p) as E.
  { apply Z.mod_mod_divide. by exists m. }
  pose proof (Z.div_mod (a mod Z.of_nat DATA_BYTES) (burst_bytes p)).
  assert (a mod Z.of_nat DATA_BYTES / burst_bytes p < m) by (apply Z.div_lt_upper_bound; nia).
  assert (a mod Z.of_nat DATA_BYTES + (burst_bytes p - a mod burst_bytes p)
          <= Z.of_nat DATA_BYTES) by nia.
  lia.
Qed.

Lemma bus_base_eq (a : Z) :
  fits 64 a ->
  Z.land a (u64 (Z.lnot (Z.of_nat DATA_BYTES - 1))) = a - Z.of_nat (first_lane a).
Proof.
  intros Ha. pose proof bus_log_bound. unfold first_lane.
  pose proof (pow2_pos bus_log). pose proof (Z.mod_pos_bound a (2 ^ bus_log)).
  rewrite bus_log_eq, u64_align by (done || lia). lia.
Qed.

Lemma bus_word_fits (a : Z) :
  fits 64 a -> 0 <= a - Z.of_nat (first_lane a) /\
  a - Z.of_nat (first_lane a) + Z.of_nat DATA_BYTES <= 2 ^ 64.
Proof.
  intros [Ha0 Ha1]. pose proof bus_log_bound. unfold first_lane.
  rewrite bus_log_eq. pose proof (pow2_pos bus_log).
  pose proof (Z.mod_pos_bound a (2 ^ bus_log)). pose proof (Z.mod_le a (2 ^ bus_log)).
  assert (2 ^ 64 mod 2 ^ bus_log = 0) as H64.
  { apply Z.mod_divide; [lia|]. apply pow2_divide. lia. }
  pose proof (Z.div_mod a (2 ^ bus_log)). pose proof (Z.div_mod (2 ^ 64) (2 ^ bus_log)).
  assert (a / 2 ^ bus_log < 2 ^ 64 / 2 ^ bus_log); [|nia].
  apply Z.div_lt_upper_bound; [lia|]. rewrite H64 in *. lia.
Qed.

Lemma align_to_beat (a : Z) :
  fits 64 a ->
  Z.land a (u64 (Z.lnot (burst_bytes p - 1))) = a - a mod burst_bytes p.
Proof. intros. apply u64_align; [apply burst_size_bound | done]. Qed.

(** Below the top of the address space the enabled lanes of a beat at [a]
    are the bytes from [a] to the end of its beat-aligned block. *)
Lemma lane_mask_at_window (a : Z) :
  fits 64 a -> a + Z.of_nat (lane_count a) < 2 ^ 64 ->
  lane_mask_at (cursor_of p) a = lane_window (first_lane a) (lane_count a).
Proof.
  intros Ha Htop. unfold lane_mask_at, lane_window. simpl beat_bytes_.
  rewrite bus_base_eq, align_to_beat by done. pose proof burst_bytes_bound.
  pose proof (Z.mod_pos_bound a (burst_bytes p)). unfold lane_count in *.
  pose proof (bus_word_fits a Ha). destruct Ha.
  apply list_fmap_ext. intros i x Hx. apply lookup_seq in Hx as [-> Hi].
  rewrite !u64_small by (unfold fits; lia). simpl. f_equal.
  bool_cases; simpl; lia || done.
Qed.

(** A beat that ends exactly at 2^64 gets no lane: the end wraps to zero. *)
Lemma lane_mask_at_top (a : Z) :
  fits 64 a -> a + Z.of_nat (lane_count a) = 2 ^ 64 ->
  lane_mask_at (cursor_of p) a = replicate DATA_BYTES 0.
Proof.
  intros Ha Htop. unfold lane_mask_at. simpl beat_bytes_.
  rewrite bus_base_eq, align_to_beat by done. pose proof burst_bytes_bound.
  pose proof (Z.mod_pos_bound a (burst_bytes p)). unfold lane_count in *.
  pose proof (bus_word_fits a Ha). destruct Ha.
  replace (a - a mod burst_bytes p + burst_bytes p) with (2 ^ 64) by lia.
  change (u64 (2 ^ 64)) with 0.
  apply list_eq_same_length with DATA_BYTES;
    rewrite ?length_fmap, ?length_seq, ?length_replicate; try done.
  intros i x y Hi. rewrite list_lookup_fmap, seq_lookup_lt, lookup_replicate_2 by done.
  intros E1 E2; simplify_eq/=. rewrite u64_small by (unfold fits; lia).
  bool_cases; simpl; lia || done.
Qed.

Lemma lane_count_top (a : Z) :
  fits 64 a -> a + Z.of_nat (lane_count a) <= 2 ^ 64.
Proof.
  intros Ha. pose proof (bus_word_fits a Ha). pose proof (lane_window_bound a). lia.
Qed.

Lemma lane_window_lookup (first count lane : nat) :
  (lane < DATA_BYTES)%nat ->
  lane_window first count !!! lane
    = b2z ((first <=? lane)%nat && (lane <? first + count)%nat).
Proof.
  intros. apply list_lookup_total_correct. unfold lane_window.
  by rewrite list_lookup_fmap, seq_lookup_lt.
Qed.

(** The lane mask of a beat enables exactly the bytes the beat
    transfers: from the beat address to the end of its size-aligned block,
    at least one byte, all of them inside the bus word, for a beat that
    does not end at the very top of the 64-bit address space. *)
Theorem lane_mask_enables_the_beat_bytes (i : nat) :
  (i < burst_beats p)%nat ->
  let a := beat_address_spec p i in
  let n := lane_count a in
  a + Z.of_nat n < 2 ^ 64 ->
  exists mask base,
    lane_mask (cursor_of p) i = Ok mask /\
    bus_word_address (cursor_of p) i = Ok base /\
    base mod Z.of_nat DATA_BYTES = 0 /\ base <= a < base + Z.of_nat DATA_BYTES /\
    length mask = DATA_BYTES /\ (1 <= n)%nat /\
    (a + Z.of_nat n) mod burst_bytes p = 0 /\ Z.of_nat n <= burst_bytes p /\
    forall lane, (lane < DATA_BYTES)%nat ->
      mask !!! lane = b2z ((a <=? base + Z.of_nat lane) && (base + Z.of_nat lane <? a + Z.of_nat n)).
Proof.
  intros Hi a n Hn. pose proof (lane_window_bound a) as [Hc1 Hc2].
  pose proof (beat_address_spec_bound i Hi) as Hbd. fold a in Hbd. fold n in Hc1, Hc2.
  pose proof bus_log_bound. assert (0 < 2 ^ bus_log) by (apply pow2_pos; lia).
  pose proof burst_bytes_bound. pose proof (Z.mod_pos_bound a (burst_bytes p) ltac:(lia)).
  assert (fits 64 a) as Ha by (unfold fits; lia).
  assert (Z.of_nat (first_lane a) = a mod 2 ^ bus_log) as Hf.
  { unfold first_lane. rewrite bus_log_eq. pose proof (Z.mod_pos_bound a (2 ^ bus_log)). lia. }
  pose proof (Z.div_mod a (2 ^ bus_log)) as Hdm.
  exists (lane_window (first_lane a) n), (a - Z.of_nat (first_lane a)).
  unfold lane_mask, bus_word_address. rewrite beat_address_eq by done.
  fold a. unfold UINT64_MAX. destruct (Z.leb_spec a (2 ^ 64 - 1)); [|lia]. simpl.
  rewrite lane_mask_at_window, bus_base_eq by done. fold n.
  split; [done|]. split; [done|]. split.
  { rewrite bus_log_eq, Hf.
    replace (a - a mod 2 ^ bus_log) with (a / 2 ^ bus_log * 2 ^ bus_log) by lia.
    apply Z.mod_mul. lia. }
  split; [lia|]. split; [unfold lane_window; by rewrite length_fmap, length_seq|].
  split; [done|]. split.
  { unfold n, lane_count. rewrite Z2Nat.id by lia.
    pose proof (Z.div_mod a (burst_bytes p) ltac:(lia)).
    replace (a + (burst_bytes p - a mod burst_bytes p))
      with ((a / burst_bytes p + 1) * burst_bytes p) by lia.
    apply Z.mod_mul. lia. }
  split; [unfold n, lane_count; lia|].
  intros lane Hlane. rewrite lane_window_lookup by done. f_equal.
  bool_cases; simpl; lia || done.
Qed.

(** ** The 4 KiB rule *)
Definition page (a : Z) : Z := a / 4096.

Lemma page_shiftr (a : Z) : Z.shiftr a 12 = page a.
Proof. by rewrite Z.shiftr_div_pow2. Qed.

Lemma top_page (a : Z) : 2 ^ 64 - 4096 <= a < 2 ^ 64 -> page a = 2 ^ 52 - 1.
Proof.
  intros. symmetry. apply Z.div_unique with (a - 4096 * (2 ^ 52 - 1)); lia.
Qed.

Lemma page_mono (x y : Z) : x <= y -> page x <= page y.
Proof. intros. apply Z.div_le_mono; lia. Qed.

Lemma block_in_page (x y : Z) :
  x - x mod burst_bytes p <= y < x - x mod burst_bytes p + burst_bytes p ->
  page y = page x.
Proof.
  intros Hy. pose proof burst_bytes_bound. pose proof burst_size_bound.
  pose proof bus_log_bound.
  apply (same_block_coarser _ _ (burst_bytes p)); [lia | lia | | by apply same_block; [lia|]].
  apply (pow2_divide (ap_size p) 12). lia.
Qed.

Lemma lane_count_block (a : Z) :
  a + Z.of_nat (lane_count a) = a - a mod burst_bytes p + burst_bytes p.
Proof.
  pose proof burst_bytes_bound. pose proof (Z.mod_pos_bound a (burst_bytes p)).
  unfold lane_count. lia.
Qed.

Lemma beat_in_page_spec (pg a : Z) :
  fits 64 a ->
  beat_in_page pg (a - Z.of_nat (first_lane a)) (lane_mask_at (cursor_of p) a) = true <->
  a + Z.of_nat (lane_count a) = 2 ^ 64 \/ page a = pg.
Proof.
  intros Ha. pose proof (lane_count_top a Ha) as Htop.
  pose proof (bus_word_fits a Ha) as Hbus. pose proof (lane_window_bound a) as [Hc1 Hc2].
  unfold beat_in_page. rewrite forallb_forall.
  destruct (decide (a + Z.of_nat (lane_count a) = 2 ^ 64)) as [Heq|Hne].
  - rewrite lane_mask_at_top by done. split; [by left|]. intros _ i Hi.
    apply in_seq in Hi. by rewrite lookup_total_replicate_2 by lia.
  - rewrite lane_mask_at_window by (done || lia). split.
    + intros Hall. right. specialize (Hall (first_lane a)).
      rewrite in_seq, lane_window_lookup in Hall by lia.
      replace (a - Z.of_nat (first_lane a) + Z.of_nat (first_lane a)) with a in Hall by lia.
      rewrite u64_small, page_shiftr, nz_b2z in Hall by done.
      bool_cases; simpl in Hall; try done; try lia.
    + intros [?|<-]; [lia|]. intros i Hi. apply in_seq in Hi.
      rewrite lane_window_lookup, nz_b2z, u64_small, page_shiftr by (unfold fits; lia).
      bool_cases; simpl; try done. exfalso. pose proof (lane_count_block a).
      pose proof (Z.mod_pos_bound a (burst_bytes p)). pose proof burst_bytes_bound.
      pose proof (block_in_page a (a - Z.of_nat (first_lane a) + Z.of_nat i)).
      lia.
Qed.

(** What [validate_4k_boundary] checks of one beat. *)
Definition beat_in_burst_page (i : nat) : Prop :=
  let a := beat_address_spec p i in
  a < 2 ^ 64 /\ (a + Z.of_nat (lane_count a) = 2 ^ 64 \/ page a = page (ap_address p)).

Lemma validate_4k_beats_spec (todo : list nat) :
  Forall (fun i => (i < burst_beats p)%nat) todo ->
  (validate_4k_beats (cursor_of p) (page (ap_address p)) todo = Ok tt /\
   Forall beat_in_burst_page todo) \/
  ((exists why, validate_4k_beats (cursor_of p) (page (ap_address p)) todo
                = Throw (ProtocolError None why)) /\
   ~ Forall beat_in_burst_page todo).
Proof.
  induction 1 as [|i todo Hi _ IH]; [by left|]. simpl.
  unfold bus_word_address, lane_mask. rewrite beat_address_eq by done.
  pose proof (beat_address_spec_bound i Hi) as Hb.
  set (a := beat_address_spec p i) in *. unfold UINT64_MAX.
  destruct (Z.leb_spec a (2 ^ 64 - 1)) as [Ha|Ha]; simpl.
  2:{ right. split; [by eexists|]. rewrite Forall_cons. intros [[Hc _] _]. fold a in Hc. lia. }
  assert (fits 64 a) as Hf by (unfold fits; lia). rewrite bus_base_eq by done.
  pose proof (beat_in_page_spec (page (ap_address p)) a Hf) as Hp.
  destruct (beat_in_page _ _ _) eqn:E.
  - apply proj1 in Hp. specialize (Hp eq_refl).
    assert (beat_in_burst_page i) by (split; fold a; [lia | done]).
    destruct IH as [[-> ?]|[[why ->] Hn]]; [left|right].
    + split; [done|]. by constructor.
    + split; [by eexists|]. rewrite Forall_cons. tauto.
  - right. split; [by eexists|]. rewrite Forall_cons. intros [[_ Hc] _].
    by apply Hp in Hc.
Qed.

(** One past the last byte an INCR burst covers. *)
Definition incr_end : Z :=
  ap_address p - ap_address p mod burst_bytes p + (ap_length p + 1) * burst_bytes p.

Lemma incr_beat_bounds (i : nat) :
  ap_burst p = Increment -> (i < burst_beats p)%nat ->
  let a := beat_address_spec p i in
  ap_address p <= a /\ a + Z.of_nat (lane_count a) <= incr_end /\
  a - a mod burst_bytes p
    = ap_address p - ap_address p mod burst_bytes p + Z.of_nat i * burst_bytes p.
Proof.
  intros Hb Hi. cbv zeta. rewrite lane_count_block. unfold beat_address_spec, incr_end.
  rewrite Hb. pose proof burst_bytes_bound. pose proof burst_beats_Z.
  pose proof (Z.mod_pos_bound (ap_address p) (burst_bytes p)).
  destruct (Nat.eqb_spec i 0) as [->|Hne].
  - simpl. split; [lia|]. split; [|lia]. nia.
  - assert ((ap_address p - ap_address p mod burst_bytes p + Z.of_nat i * burst_bytes p)
            mod burst_bytes p = 0) as ->; [|nia].
    pose proof (Z.div_mod (ap_address p) (burst_bytes p)).
    replace (ap_address p - ap_address p mod burst_bytes p + Z.of_nat i * burst_bytes p)
      with ((ap_address p / burst_bytes p + Z.of_nat i) * burst_bytes p) by lia.
    apply Z.mod_mul. lia.
Qed.

Lemma incr_in_page :
  ap_burst p = Increment ->
  Forall beat_in_burst_page (seq 0 (burst_beats p)) <->
  page (incr_end - 1) = page (ap_address p).
Proof.
  intros Hb. pose proof burst_beats_bound as Hn. pose proof burst_beats_Z as HnZ.
  pose proof burst_bytes_bound as HB. destruct Hwf as (_ & [HA0 HA1] & _ & _).
  rewrite Forall_forall. setoid_rewrite list_elem_of_In. setoid_rewrite in_seq. split.
  - intros Hall. pose (i := (burst_beats p - 1)%nat).
    destruct (Hall i ltac:(lia)) as [Hlt Hor].
    pose proof (incr_beat_bounds i Hb ltac:(lia)) as (H1 & H2 & H3). cbv zeta in *.
    set (a := beat_address_spec p i) in *.
    pose proof (Z.mod_pos_bound a (burst_bytes p)).
    assert (incr_end = a - a mod burst_bytes p + burst_bytes p) as Hend.
    { unfold incr_end. rewrite H3. nia. }
    rewrite (block_in_page a (incr_end - 1)) by lia.
    destruct Hor as [Htop|]; [|done].
    rewrite lane_count_block in Htop.
    destruct (decide (i = 0%nat)) as [Hi0|Hi0].
    { unfold a, beat_address_spec. by rewrite Hb, Hi0. }
    destruct (Hall (i - 1)%nat ltac:(lia)) as [_ Hor'].
    pose proof (incr_beat_bounds (i - 1) Hb ltac:(lia)) as (G1 & G2 & G3). cbv zeta in *.
    set (a' := beat_address_spec p (i - 1)) in *.
    pose proof (Z.mod_pos_bound a' (burst_bytes p)).
    rewrite lane_count_block in Hor'.
    assert (a' - a' mod burst_bytes p = 2 ^ 64 - 2 * burst_bytes p) as Ha'.
    { rewrite G3, Nat2Z.inj_sub by lia. lia. }
    assert (page a' = page a) as <-; [|destruct Hor'; [lia|done]].
    rewrite !top_page by lia. done.
  - intros Hpg i Hi. pose proof (incr_beat_bounds i Hb ltac:(lia)) as (H1 & H2 & _).
    cbv zeta in *. pose proof (lane_window_bound (beat_address_spec p i)).
    set (a := beat_address_spec p i) in *.
    pose proof (page_mono (ap_address p) a ltac:(lia)).
    pose proof (page_mono a (incr_end - 1) ltac:(lia)).
    split; [|right; fold a; lia]. fold a.
    destruct (Z.lt_ge_cases a (2 ^ 64)) as [|Hge]; [done|].
    apply page_mono in Hge. pose proof (page_mono (ap_address p) (2 ^ 64 - 1) ltac:(lia)).
    rewrite (top_page (2 ^ 64 - 1)) in * by lia.
    change (page (2 ^ 64)) with (2 ^ 52) in Hge. lia.
Qed.

(** A WRAP burst stays in the page of its container. *)
Lemma wrap_in_page (i : nat) :
  ap_burst p = Wrap -> page (beat_address_spec p i) = page (ap_address p).
Proof.
  intros Hb. pose proof (beat_address_wrap_bound i Hb) as Hbd. cbv zeta in Hbd.
  destruct (wrap_container Hb) as (k & Hk & HW). rewrite HW in Hbd.
  pose proof burst_size_bound. pose proof bus_log_bound.
  pose proof (pow2_pos (k + ap_size p) ltac:(lia)).
  apply (same_block_coarser _ _ (2 ^ (k + ap_size p))); [done | lia | | ].
  - apply (pow2_divide (k + ap_size p) 12). lia.
  - apply same_block; [done | lia].
Qed.

Lemma validate_4k_boundary_spec :
  (validate_4k_boundary (cursor_of p) = Ok tt /\
   (ap_burst p = Increment -> page (incr_end - 1) = page (ap_address p))) \/
  ((exists why, validate_4k_boundary (cursor_of p) = Throw (ProtocolError None why)) /\
   ap_burst p = Increment /\ page (incr_end - 1) <> page (ap_address p)).
Proof.
  unfold validate_4k_boundary. simpl. rewrite page_shiftr.
  assert (ap_burst p <> Increment -> Forall beat_in_burst_page (seq 0 (burst_beats p))) as Hother.
  { intros Hni. apply Forall_forall. intros i Hi%elem_of_seq.
    pose proof (beat_address_spec_bound i ltac:(lia)). destruct Hwf as (_ & HA & _ & _).
    pose proof Hlegal as Hl. unfold legal_shape in Hl. unfold beat_in_burst_page.
    destruct (ap_burst p) eqn:Hb; try done.
    - unfold beat_address_spec. rewrite Hb. split; [apply HA | by right].
    - pose proof (beat_address_wrap_bound i Hb). cbv zeta in *. rewrite wrap_in_page by done.
      split; [lia | by right].
    - tauto. }
  destruct (validate_4k_beats_spec (seq 0 (burst_beats p))) as [[-> Hall]|[Hthrow Hn]].
  { apply Forall_forall. intros i Hi%elem_of_seq. lia. }
  - left. split; [done|]. intros Hb. by apply incr_in_page.
  - right. split; [done|]. destruct (decide (ap_burst p = Increment)) as [Hb|Hb]; [|tauto].
    split; [done|]. by rewrite <- incr_in_page.
Qed.

(** [validate_4k_boundary] accepts a legal burst exactly when it stays
    in one 4 KiB page: always for FIXED and WRAP bursts, and for an INCR
    burst exactly when its first and its last byte are in the same page.
    Otherwise it raises a protocol error (never an index error). *)
Theorem validate_4k_boundary_decides_page_crossing :
  (validate_4k_boundary (cursor_of p) = Ok tt /\
   (ap_burst p = Increment -> page (incr_end - 1) = page (ap_address p))) \/
  ((exists why, validate_4k_boundary (cursor_of p) = Throw (ProtocolError None why)) /\
   ap_burst p = Increment /\ page (incr_end - 1) <> page (ap_address p)).
Proof. apply validate_4k_boundary_spec. Qed.
(** What a burst the fabric lets through satisfies. *)
Definition in_one_page : Prop :=
  ap_burst p = Increment -> page (incr_end - 1) = page (ap_address p).

Lemma beat_page (i : nat) :
  in_one_page -> (i < burst_beats p)%nat ->
  page (beat_address_spec p i) = page (ap_address p).
Proof.
  intros Hpage Hi. destruct (ap_burst p) eqn:Hb.
  - unfold beat_address_spec. by rewrite Hb.
  - specialize (Hpage Hb).
    pose proof (incr_beat_bounds i Hb Hi) as (H1 & H2 & _). cbv zeta in *.
    pose proof (lane_window_bound (beat_address_spec p i)).
    pose proof (page_mono (ap_address p) (beat_address_spec p i) ltac:(lia)).
    pose proof (page_mono (beat_address_spec p i) (incr_end - 1) ltac:(lia)). lia.
  - by apply wrap_in_page.
  - pose proof Hlegal as Hl. unfold legal_shape in Hl. rewrite Hb in Hl. tauto.
Qed.

(** Every beat lies in the 64-bit address space; one that ends at its end has
    no lane. *)
Lemma beat_word_and_lanes (i : nat) :
  in_one_page -> (i < burst_beats p)%nat ->
  let a := beat_address_spec p i in
  bus_word_address (cursor_of p) i = Ok (a - Z.of_nat (first_lane a)) /\
  lane_mask (cursor_of p) i =
    Ok (if a + Z.of_nat (lane_count a) =? 2 ^ 64 then replicate DATA_BYTES 0
        else lane_window (first_lane a) (lane_count a)) /\
  0 <= a - Z.of_nat (first_lane a) /\ a - Z.of_nat (first_lane a) + Z.of_nat DATA_BYTES <= 2 ^ 64.
Proof.
  intros Hpage Hi a. pose proof (beat_address_spec_bound i Hi) as [H0 _]. fold a in H0.
  assert (fits 64 a) as Ha.
  { split; [done|]. destruct Hwf as (_ & [_ HA] & _ & _). destruct (Z.lt_ge_cases a (2 ^ 64)) as [|Hge]; [done|].
    pose proof (beat_page i Hpage Hi) as Hp. fold a in Hp. apply page_mono in Hge. rewrite Hp in Hge.
    pose proof (page_mono (ap_address p) (2 ^ 64 - 1) ltac:(lia)). rewrite (top_page (2 ^ 64 - 1)) in * by lia.
    change (page (2 ^ 64)) with (2 ^ 52) in Hge. lia. }
  pose proof (bus_word_fits a Ha). pose proof (lane_count_top a Ha).
  unfold bus_word_address, lane_mask. rewrite beat_address_eq by done. fold a. unfold UINT64_MAX.
  destruct (Z.leb_spec a (2 ^ 64 - 1)); [|destruct Ha; lia]. simpl rbind. rewrite bus_base_eq by done.
  split; [done|]. split; [|done]. f_equal. destruct (Z.eqb_spec (a + Z.of_nat (lane_count a)) (2 ^ 64)).
  - by apply lane_mask_at_top.
  - apply lane_mask_at_window; [done | lia].
Qed.

(** A beat of a burst that is not in the last page of the address space
    ends before that page. *)
Lemma beat_below_last_page (i : nat) :
  in_one_page -> (i < burst_beats p)%nat -> ap_address p < 2 ^ 64 - 4096 ->
  let a := beat_address_spec p i in
  0 <= a /\ a + Z.of_nat (lane_count a) <= 2 ^ 64 - 4096.
Proof.
  intros Hpage Hi Hlast a. pose proof (beat_address_spec_bound i Hi) as [H0 _].
  split; [done|]. pose proof (beat_page i Hpage Hi) as Hp. fold a in H0, Hp |- *.
  pose proof (lane_window_bound a) as [Hc _].
  assert (page (a + Z.of_nat (lane_count a) - 1) = page a) as Hq.
  { apply block_in_page. rewrite lane_count_block. pose proof burst_bytes_bound.
    pose proof (Z.mod_pos_bound a (burst_bytes p)). lia. }
  rewrite Hp in Hq. unfold page in Hq.
  assert (ap_address p / 4096 < 2 ^ 52 - 1) by (apply Z.div_lt_upper_bound; lia).
  pose proof (Z.div_mod (a + Z.of_nat (lane_count a) - 1) 4096 ltac:(lia)).
  pose proof (Z.mod_pos_bound (a + Z.of_nat (lane_count a) - 1) 4096 ltac:(lia)). lia.
Qed.

Lemma beat_word_and_mask (i : nat) :
  in_one_page -> (i < burst_beats p)%nat -> ap_address p < 2 ^ 64 - 4096 ->
  let a := beat_address_spec p i in
  bus_word_address (cursor_of p) i = Ok (a - Z.of_nat (first_lane a)) /\
  lane_mask (cursor_of p) i = Ok (lane_window (first_lane a) (lane_count a)) /\
  fits 64 a /\ 0 <= a - Z.of_nat (first_lane a).
Proof.
  intros Hpage Hi Hlast a. pose proof (beat_below_last_page i Hpage Hi Hlast) as Hb.
  cbv zeta in Hb. fold a in Hb. pose proof (lane_window_bound a).
  assert (fits 64 a) as Ha by (unfold fits; lia). pose proof (bus_word_fits a Ha).
  unfold bus_word_address, lane_mask. rewrite beat_address_eq by done. fold a.
  unfold UINT64_MAX. destruct (Z.leb_spec a (2 ^ 64 - 1)); [|lia]. simpl.
  rewrite bus_base_eq, lane_mask_at_window by (done || lia).
  split_and!; try done; lia.
Qed.
End Legal.
End BurstCursor.

#[export] Instance bus_width_32 : BusWidth 4.
Proof. apply (Build_BusWidth 4 2); by vm_compute. Defined.
#[export] Instance bus_width_64 : BusWidth 8.
Proof. apply (Build_BusWidth 8 3); by vm_compute. Defined.
#[export] Instance bus_width_128 : BusWidth 16.
Proof. apply (Build_BusWidth 16 4); by vm_compute. Defined.

(** ** Concrete bursts on a 32-bit bus *)
Definition example_burst (b : Burst) (a n s : Z) : AddressPayload :=
  {| ap_id := 3; ap_address := a; ap_length := n; ap_size := s; ap_burst := b;
     ap_lock := false; ap_cache := 0; ap_protection := 0 |}.

Lemma mk_cursor_accepts_legal_shapes_witness :
  payload_wf (example_burst Wrap 0x101c 3 2) /\
  mk_cursor 4 (example_burst Wrap 0x101c 3 2) = Ok (cursor_of (example_burst Wrap 0x101c 3 2)) /\
  exists why, mk_cursor 4 (example_burst Wrap 0x101c 4 2) = Throw (ProtocolError None why).
Proof.
  split; [repeat split; simpl; lia|]. split.
  - apply (mk_cursor_accepts_legal_shapes 4); [repeat split; simpl; lia|].
    split; [by vm_compute|]. simpl. split; [lia | done].
  - apply (mk_cursor_accepts_legal_shapes 4); [repeat split; simpl; lia|].
    intros [_ [H _]]. simpl in H. lia.
Defined.

Lemma beat_address_computes_axi_address_witness :
  (1 < burst_beats (example_burst Wrap 0x101c 3 2))%nat /\
  beat_address (cursor_of (example_burst Wrap 0x101c 3 2)) 1 = Ok 0x1010.
Proof.
  split; [vm_compute; lia|].
  apply (beat_address_computes_axi_address 4 (example_burst Wrap 0x101c 3 2)).
  - repeat split; simpl; lia.
  - split; [by vm_compute|]. simpl. split; [lia | done].
  - vm_compute. lia.
Defined.

Lemma lane_mask_enables_the_beat_bytes_witness :
  exists mask base,
    lane_mask 4 (cursor_of (example_burst Increment 0x1001 1 2)) 0 = Ok mask /\
    bus_word_address 4 (cursor_of (example_burst Increment 0x1001 1 2)) 0 = Ok base /\
    mask !!! 1%nat = 1 /\ mask !!! 0%nat = 0.
Proof.
  destruct (lane_mask_enables_the_beat_bytes 4 (example_burst Increment 0x1001 1 2)
    ltac:(repeat split; simpl; lia) ltac:(split; [by vm_compute | done]) 0
    ltac:(vm_compute; lia) ltac:(vm_compute; done))
    as (mask & base & H1 & H2 & _ & _ & _ & _ & _ & _ & Hl).
  exists mask, base. split; [done|]. split; [done|].
  vm_compute in H2. injection H2 as <-. rewrite !Hl by lia. done.
Defined.

Lemma validate_4k_boundary_decides_page_crossing_witness :
  validate_4k_boundary 4 (cursor_of (example_burst Increment 0xff8 1 2)) = Ok tt /\
  exists why, validate_4k_boundary 4 (cursor_of (example_burst Increment 0xff8 2 2))
              = Throw (ProtocolError None why).
Proof.
  split.
  - destruct (validate_4k_boundary_decides_page_crossing 4 (example_burst Increment 0xff8 1 2))
      as [[H _]|(_ & _ & H)]; [repeat split; simpl; lia | split; [by vm_compute | done] | done |].
    by destruct H.
  - destruct (validate_4k_boundary_decides_page_crossing 4 (example_burst Increment 0xff8 2 2))
      as [[_ H]|(H & _ & _)]; [repeat split; simpl; lia | split; [by vm_compute | done] | | done].
    specialize (H eq_refl). vm_compute in H. discriminate.
Defined.

(** The byte lanes vanish when a beat ends at 2^64. *)
Lemma top_of_address_space_has_no_lanes :
  lane_mask 8 (cursor_of (example_burst Increment (2 ^ 64 - 8) 0 3)) 0 = Ok (replicate 8 0).
Proof. by vm_compute. Qed.
