(* ===== verification/Device.v ===== *)
(** * Devices and the address space (src/device.hpp, src/devices.cpp)

    [class Device] is an interface with virtual methods, and mappings, routes
    and the platform hold [Device *].  Here the objects live in a heap of an
    abstract type [H]; a [Device *] is a [DevicePtr], and the virtual methods
    are the operations of the class [DeviceHeap], each a function of the pointer
    and the heap, so that a device mapped in two windows is one object.  The
    address space and the fabric are verified against this interface. *)
From stdpp Require Import sorting.
From S2P Require Import Prelude Axi.

Definition DevicePtr : Type := nat.

Class DeviceHeap (H : Type) := {
  read_impl : DevicePtr -> Z -> list Z -> list Z -> H -> Response * list Z * H;
  write_impl : DevicePtr -> Z -> list Z -> list Z -> H -> Response * H;
  load_impl : DevicePtr -> Z -> list Z -> H -> Response * H;
  loadable : H -> DevicePtr -> bool;
  can_load : H -> DevicePtr -> Z -> Z -> bool;
  supports_exclusive : H -> DevicePtr -> bool;
  supports_burst : H -> DevicePtr -> bool;
  is_exit : H -> DevicePtr -> bool;
  device_exit_code : H -> DevicePtr -> Z;
  device_reset : DevicePtr -> H -> H
}.

(** What the fabric relies on: a device fills the span it is given, it cannot
    change its length. *)
Class DeviceHeapLaws (H : Type) `{!DeviceHeap H} := {
  read_impl_length d off data en h :
    length (read_impl d off data en h).1.2 = length data
}.

Section Device.
Context {H : Type} `{!DeviceHeap H}.

(** [Device::read]: the common contract, then the virtual hook. *)
Definition device_read (d : DevicePtr) (offset : Z) (data enable : list Z)
  : M H (Response * list Z) :=
  if negb (length data =? length enable)%nat
  then throw (InvalidArgument "device read data/enable size mismatch")
  else
    let data := replicate (length data) 0 in
    if (length data =? 0)%nat then ret (Okay, data)
    else fun h => let '(r, data', h') := read_impl d offset data enable h in
                  (Ok (r, data'), h').

(** [Device::write] *)
Definition device_write (d : DevicePtr) (offset : Z) (data strobe : list Z)
  : M H Response :=
  if negb (length data =? length strobe)%nat
  then throw (InvalidArgument "device write data/strobe size mismatch")
  else if (length data =? 0)%nat then ret Okay
  else fun h => let '(r, h') := write_impl d offset data strobe h in (Ok r, h').

Definition device_load (d : DevicePtr) (offset : Z) (data : list Z) : M H Response :=
  fun h => let '(r, h') := load_impl d offset data h in (Ok r, h').

Lemma device_read_throws d off data en h e h' :
  device_read d off data en h = (Throw e, h') -> h' = h.
Proof.
  unfold device_read, throw, ret. repeat case_match; intros; inv_all; done.
Qed.

Lemma device_write_throws d off data st h e h' :
  device_write d off data st h = (Throw e, h') -> h' = h.
Proof.
  unfold device_write, throw, ret. repeat case_match; intros; inv_all; done.
Qed.

Lemma device_read_ok d off data en h :
  length data = length en -> data <> [] ->
  device_read d off data en h =
    let '(r, data', h') := read_impl d off (replicate (length data) 0) en h in
    (Ok (r, data'), h').
Proof.
  intros Hl Hne. unfold device_read. rewrite Hl, Nat.eqb_refl. simpl.
  rewrite length_replicate. destruct data, en; simpl in *; naive_solver.
Qed.

Lemma device_write_ok d off data st h :
  length data = length st -> data <> [] ->
  device_write d off data st h =
    let '(r, h') := write_impl d off data st h in (Ok r, h').
Proof.
  intros Hl Hne. unfold device_write. rewrite Hl, Nat.eqb_refl. simpl.
  destruct data, st; simpl in *; naive_solver.
Qed.
End Device.

(** ** AddressSpace *)
Record Mapping := {
  map_base : Z;
  map_size : Z;
  map_device : DevicePtr;
  map_name : string
}.
#[global] Instance Mapping_eq_dec : EqDecision Mapping.
Proof. solve_decision. Defined.

Definition map_end (m : Mapping) : Z := u64 (map_base m + map_size m).

Record AddressSpace := { mappings_ : list Mapping; frozen_ : bool }.

Definition empty_space : AddressSpace := {| mappings_ := []; frozen_ := false |}.

(** The index of the first element of a partitioned range for which [f] is
    false: [std::ranges::lower_bound]/[upper_bound] with a projection. *)
Fixpoint partition_point {A} (f : A -> bool) (l : list A) : nat :=
  match l with
  | [] => 0
  | x :: l' => if f x then S (partition_point f l') else 0
  end.

Definition lower_bound (l : list Mapping) (base : Z) : nat :=
  partition_point (fun m => map_base m <? base) l.
Definition upper_bound (l : list Mapping) (addr : Z) : nat :=
  partition_point (fun m => map_base m <=? addr) l.

(** [position != begin() && std::prev(position)->end() > base] *)
Definition overlaps_previous (l : list Mapping) (position : nat) (base : Z) : bool :=
  match position with
  | O => false
  | S prev => match l !! prev with
              | Some previous => base <? map_end previous
              | None => false
              end
  end.

(** [position != end() && end > position->base] *)
Definition overlaps_next (l : list Mapping) (position : nat) (end_ : Z) : bool :=
  match l !! position with
  | Some next => map_base next <? end_
  | None => false
  end.

Section AddressSpace.
Implicit Types (sp : AddressSpace) (m : Mapping).

Definition space_map (base size : Z) (device : DevicePtr) (name : string) sp
  : result AddressSpace :=
  guard negb (frozen_ sp) else LogicError "address space is frozen" in
  guard negb (size =? 0) else InvalidArgument "address-space mapping must not be empty" in
  guard negb (UINT64_MAX - base <? size)
    else InvalidArgument "address-space mapping overflows uint64_t" in
  let end_ := u64 (base + size) in
  let position := lower_bound (mappings_ sp) base in
  guard negb (overlaps_previous (mappings_ sp) position base)
    else InvalidArgument "address-space mappings overlap" in
  guard negb (overlaps_next (mappings_ sp) position end_)
    else InvalidArgument "address-space mappings overlap" in
  Ok {| mappings_ := take position (mappings_ sp)
                      ++ {| map_base := base; map_size := size;
                            map_device := device; map_name := name |}
                      :: drop position (mappings_ sp);
        frozen_ := frozen_ sp |}.

Definition space_freeze sp : AddressSpace :=
  {| mappings_ := mappings_ sp; frozen_ := true |}.

Definition space_resolve sp (address length : Z) : option Mapping :=
  if (length =? 0) || (match mappings_ sp with [] => true | _ => false end) then None
  else
    match upper_bound (mappings_ sp) address with
    | O => None
    | S position =>
        match mappings_ sp !! position with
        | None => None
        | Some m =>
            if (address <? map_base m) || (map_end m <=? address) then None
            else if u64 (map_end m - address) <? length then None
            else Some m
        end
    end.

Definition resolution_error sp (address length : Z) : Response :=
  match upper_bound (mappings_ sp) address with
  | O => DecodeError
  | S prev =>
      match mappings_ sp !! prev with
      | Some candidate =>
          if (map_base candidate <=? address) && (address <? map_end candidate)
          then SlaveError else DecodeError
      | None => DecodeError
      end
  end.

Context {H : Type} `{!DeviceHeap H}.

Definition space_read sp (address : Z) (data enable : list Z) : M H (Response * list Z) :=
  if negb (length data =? length enable)%nat
  then throw (InvalidArgument "address-space read data/enable size mismatch")
  else
    let data := replicate (length data) 0 in
    if (length data =? 0)%nat then ret (Okay, data)
    else match space_resolve sp address (Z.of_nat (length data)) with
         | None => ret (resolution_error sp address (Z.of_nat (length data)), data)
         | Some m => device_read (map_device m) (u64 (address - map_base m)) data enable
         end.

Definition space_write sp (address : Z) (data strobe : list Z) : M H Response :=
  if negb (length data =? length strobe)%nat
  then throw (InvalidArgument "address-space write data/strobe size mismatch")
  else if (length data =? 0)%nat then ret Okay
  else match space_resolve sp address (Z.of_nat (length data)) with
       | None => ret (resolution_error sp address (Z.of_nat (length data)))
       | Some m => device_write (map_device m) (u64 (address - map_base m)) data strobe
       end.

Definition space_load sp (address : Z) (data : list Z) : M H Response :=
  if (length data =? 0)%nat then ret Okay
  else match space_resolve sp address (Z.of_nat (length data)) with
       | None => ret (resolution_error sp address (Z.of_nat (length data)))
       | Some m =>
           do ok := gets (fun h => loadable h (map_device m)) in
           if negb ok then ret SlaveError
           else
             let offset := u64 (address - map_base m) in
             do fits := gets (fun h => can_load h (map_device m) offset (Z.of_nat (length data))) in
             if negb fits then ret SlaveError
             else device_load (map_device m) offset data
       end.

(** [AddressSpace::reset]: [index] runs over the mappings, [seen] are the
    devices of the mappings before it. *)
Fixpoint reset_mappings (seen : list DevicePtr) (l : list Mapping) (h : H) : H :=
  match l with
  | [] => h
  | m :: l' =>
      let already_reset := existsb (fun d => (d =? map_device m)%nat) seen in
      reset_mappings (seen ++ [map_device m]) l'
        (if already_reset then h else device_reset (map_device m) h)
  end.

Definition space_reset sp (h : H) : H := reset_mappings [] (mappings_ sp) h.
End AddressSpace.

(** ** Well-formed address spaces: sorted, disjoint windows below 2^64 *)
Definition mapping_wf (m : Mapping) : Prop :=
  0 <= map_base m /\ 0 < map_size m /\ map_base m + map_size m <= UINT64_MAX.

Definition before (m1 m2 : Mapping) : Prop :=
  map_base m1 + map_size m1 <= map_base m2.
Definition disjoint_windows (m1 m2 : Mapping) : Prop := before m1 m2 \/ before m2 m1.

Definition space_wf (sp : AddressSpace) : Prop :=
  Forall mapping_wf (mappings_ sp) /\ StronglySorted before (mappings_ sp).

(** [addr, addr + n) lies in the window. *)
Definition window_contains (m : Mapping) (addr n : Z) : Prop :=
  map_base m <= addr /\ addr + n <= map_base m + map_size m.

Lemma map_end_eq m : mapping_wf m -> map_end m = map_base m + map_size m.
Proof. intros (? & ? & ?). apply u64_small. unfold fits, UINT64_MAX in *. lia. Qed.

Lemma empty_space_wf : space_wf empty_space.
Proof. split; constructor. Qed.

Lemma partition_split {A} (f : A -> bool) (l : list A) :
  exists l1 l2, l = l1 ++ l2 /\ partition_point f l = length l1 /\
    Forall (fun x => f x = true) l1 /\
    match l2 with [] => True | x :: _ => f x = false end.
Proof.
  induction l as [|x l (l1 & l2 & -> & Hp & Ht & Hf)]; simpl.
  { by exists [], []. }
  destruct (f x) eqn:E.
  - exists (x :: l1), l2. simpl. rewrite Hp. auto.
  - by exists [], (x :: l1 ++ l2).
Qed.

(** The element before the partition point and the one at it. *)
Lemma split_last {A} (l : list A) : l = [] \/ exists l' x, l = l' ++ [x].
Proof. destruct l using rev_ind; eauto. Qed.

Lemma lookup_snoc_app {A} (l1 : list A) x l2 : ((l1 ++ [x]) ++ l2) !! length l1 = Some x.
Proof. rewrite <- app_assoc. by apply list_lookup_middle. Qed.

(** The comparison with the left neighbour decides whether every window
    before the insertion point ends before the new one, and symmetrically. *)
Lemma overlaps_previous_spec (l1 l2 : list Mapping) (n : Mapping) :
  Forall mapping_wf l1 -> StronglySorted before l1 ->
  overlaps_previous (l1 ++ l2) (length l1) (map_base n) = false <->
  Forall (fun m => before m n) l1.
Proof.
  intros Hw Hs. destruct (split_last l1) as [->|(l & x & ->)]; [done|].
  unfold overlaps_previous. rewrite length_app, Nat.add_1_r, lookup_snoc_app.
  apply Forall_app in Hw as [_ [Hx _]%Forall_cons]. rewrite map_end_eq by done.
  apply StronglySorted_app in Hs as (Ho & _ & _).
  rewrite Z.ltb_ge, Forall_app, Forall_singleton. unfold before at 2.
  split; [|tauto]. intros Hle. split; [|done]. apply Forall_forall. intros y Hy.
  specialize (Ho y x Hy ltac:(by left)). destruct Hx as (? & ? & ?). unfold before in *. lia.
Qed.

Lemma overlaps_next_spec (l1 l2 : list Mapping) (n : Mapping) :
  Forall mapping_wf l2 -> StronglySorted before l2 ->
  overlaps_next (l1 ++ l2) (length l1) (map_base n + map_size n) = false <->
  Forall (before n) l2.
Proof.
  intros Hw Hs. unfold overlaps_next. rewrite lookup_app_r, Nat.sub_diag by done.
  destruct l2 as [|y l2]; [done|]. simpl. rewrite Z.ltb_ge, Forall_cons. unfold before at 1.
  apply Forall_cons in Hw as [Hy _]. apply StronglySorted_cons in Hs as [Hall _].
  split; [|tauto]. intros Hle. split; [done|]. eapply Forall_impl; [exact Hall|].
  intros z Hz. destruct Hy as (? & ? & ?). unfold before in *. lia.
Qed.

(** Disjointness from all windows is disjointness on the proper side. *)
Lemma disjoint_from_all (l1 l2 : list Mapping) (n : Mapping) :
  Forall mapping_wf (l1 ++ l2) -> StronglySorted before (l1 ++ l2) -> mapping_wf n ->
  Forall (fun m => (map_base m <? map_base n) = true) l1 ->
  match l2 with [] => True | m :: _ => (map_base m <? map_base n) = false end ->
  Forall (disjoint_windows n) (l1 ++ l2) <->
  Forall (fun m => before m n) l1 /\ Forall (before n) l2.
Proof.
  intros Hwf Hs Hn Hl1 Hl2. rewrite Forall_app. split.
  - intros [Hd1 Hd2]. split.
    + apply Forall_forall. intros m Hm. rewrite Forall_forall in Hl1, Hd1.
      specialize (Hl1 _ Hm). apply Z.ltb_lt in Hl1. destruct (Hd1 _ Hm) as [Hb|]; [|done].
      unfold before in Hb. destruct Hn. lia.
    + destruct l2 as [|m l2]; [done|]. apply Z.ltb_ge in Hl2.
      apply StronglySorted_app in Hs as (_ & _ & [Hall _]%StronglySorted_cons).
      apply Forall_app in Hwf as [_ [Hm Hw]%Forall_cons]. apply Forall_cons in Hd2 as [Hd _].
      assert (before n m) by (destruct Hd, Hm as (? & ? & ?); unfold before in *; lia).
      constructor; [done|]. eapply Forall_impl; [exact Hall|].
      intros x Hx. destruct Hm as (? & ? & ?). unfold before in *. lia.
  - intros [H1 H2]. split; eapply Forall_impl; [exact H1 | | exact H2 |];
      unfold disjoint_windows; auto.
Qed.

Lemma insert_sorted (l1 l2 : list Mapping) (n : Mapping) :
  StronglySorted before (l1 ++ l2) ->
  Forall (fun m => before m n) l1 -> Forall (before n) l2 ->
  StronglySorted before (l1 ++ n :: l2).
Proof.
  intros (Hord & Hs1 & Hs2)%StronglySorted_app H1 H2. apply StronglySorted_app.
  split; [|split; [done | by apply SSorted_cons]].
  intros a c Ha [->|Hc]%elem_of_cons; [rewrite Forall_forall in H1; auto | auto].
Qed.

(** The conditions [map] documents. *)
Definition can_map (sp : AddressSpace) (n : Mapping) : Prop :=
  frozen_ sp = false /\ mapping_wf n /\ Forall (disjoint_windows n) (mappings_ sp).

Lemma space_map_spec sp base size device name :
  space_wf sp -> fits 64 base -> fits 64 size ->
  let n := {| map_base := base; map_size := size; map_device := device; map_name := name |} in
  match space_map base size device name sp with
  | Ok sp' => can_map sp n /\ space_wf sp' /\ mappings_ sp' ≡ₚ n :: mappings_ sp
              /\ frozen_ sp' = frozen_ sp
  | Throw _ => ~ can_map sp n
  end.
Proof.
  intros [Hwf Hs] Hb Hsz n. unfold space_map, lower_bound, can_map.
  destruct (frozen_ sp); simpl; [by intros (? & _)|].
  destruct (Z.eqb_spec size 0) as [->|Hs0]; simpl; [unfold n, mapping_wf; simpl; lia|].
  destruct (Z.ltb_spec (UINT64_MAX - base) size) as [Ho|Ho]; simpl;
    [unfold n, mapping_wf; simpl; lia|].
  assert (mapping_wf n) as Hn by (destruct Hb, Hsz; unfold n, mapping_wf; simpl; lia).
  destruct (partition_split (fun m => map_base m <? base) (mappings_ sp))
    as (l1 & l2 & Hl & -> & Hl1 & Hl2).
  rewrite Hl in *. rewrite take_app_length, drop_app_length.
  pose proof (disjoint_from_all l1 l2 n Hwf Hs Hn Hl1 Hl2) as Hd.
  change (u64 (base + size)) with (map_end n). rewrite map_end_eq by done.
  pose proof Hs as (_ & Hs1 & Hs2)%StronglySorted_app.
  pose proof Hwf as [Hw1 Hw2]%Forall_app.
  pose proof (overlaps_previous_spec l1 l2 n Hw1 Hs1) as Hp.
  pose proof (overlaps_next_spec l1 l2 n Hw2 Hs2) as Hx. change (map_base n) with base in *.
  destruct (overlaps_previous (l1 ++ l2) (length l1) base); cbn [negb];
    [by intros (_ & _ & [E%Hp _]%Hd)|].
  destruct (overlaps_next (l1 ++ l2) (length l1) (base + map_size n)); cbn [negb];
    [by intros (_ & _ & [_ E%Hx]%Hd)|].
  apply proj1 in Hp, Hx. specialize (Hp eq_refl). specialize (Hx eq_refl).
  split; [split_and!; [done | done | by apply Hd]|].
  split; [|split; [symmetry; apply Permutation_middle | done]].
  split; simpl; [apply Forall_app; auto | by apply insert_sorted].
Qed.

(** C35: [AddressSpace::map] accepts a window exactly when the map is not
    frozen, the window is not empty, does not overflow [uint64_t] and overlaps
    none of the existing windows (only the two neighbours are compared).  On
    success the window is added, all others are kept, and the map stays sorted
    and disjoint; otherwise it throws. *)
Theorem map_accepts_exactly_disjoint_windows sp base size device name :
  space_wf sp -> fits 64 base -> fits 64 size ->
  let n := {| map_base := base; map_size := size; map_device := device; map_name := name |} in
  match space_map base size device name sp with
  | Ok sp' => can_map sp n /\ space_wf sp' /\ mappings_ sp' ≡ₚ n :: mappings_ sp
              /\ frozen_ sp' = frozen_ sp
  | Throw _ => ~ can_map sp n
  end.
Proof. apply space_map_spec. Qed.

(** ** Decoding *)
Section Resolve.
Context (sp : AddressSpace) (Hsp : space_wf sp).

Lemma mapping_in_wf m : m ∈ mappings_ sp -> mapping_wf m.
Proof. intros Hm. destruct Hsp as [Hw _]. by eapply Forall_forall. Qed.

(** The last window that starts at or below an address is the only one that
    can hold it. *)
Lemma upper_bound_window (l1 l2 : list Mapping) (m : Mapping) addr :
  mappings_ sp = l1 ++ m :: l2 -> map_base m <= addr < map_base m + map_size m ->
  upper_bound (mappings_ sp) addr = S (length l1).
Proof.
  intros Hl Ha. destruct Hsp as [Hw Hs]. rewrite Hl in *. unfold upper_bound.
  apply StronglySorted_app in Hs as (Ho & _ & [Hn _]%StronglySorted_cons).
  apply Forall_app in Hw as [Hw1 _].
  assert (partition_point (fun m => map_base m <=? addr) (m :: l2) = 1%nat) as Htail.
  { simpl. destruct (Z.leb_spec (map_base m) addr); [|lia]. destruct l2 as [|x l2]; [done|].
    apply Forall_cons in Hn as [Hx _]. unfold before in Hx. simpl.
    destruct (Z.leb_spec (map_base x) addr); [lia|done]. }
  assert (Forall (fun x => map_base x <= addr) l1) as Hall.
  { apply Forall_forall. intros x Hx. specialize (Ho x m Hx ltac:(by left)).
    rewrite Forall_forall in Hw1. specialize (Hw1 _ Hx). destruct Hw1 as (? & ? & ?).
    unfold before in Ho. lia. }
  clear Hl Hw1 Ho. induction Hall as [|x l1 Hx _ IH]; [done|]. simpl.
  destruct (Z.leb_spec (map_base x) addr); [|lia]. by rewrite IH.
Qed.

Lemma upper_bound_lookup addr pos :
  upper_bound (mappings_ sp) addr = S pos -> exists m, mappings_ sp !! pos = Some m.
Proof.
  unfold upper_bound. intros Hp.
  destruct (partition_split (fun m => map_base m <=? addr) (mappings_ sp))
    as (l1 & l2 & Hl & Hlen & _).
  rewrite Hp in Hlen. rewrite Hl. destruct (split_last l1) as [->|(l & x & ->)]; [done|].
  rewrite length_app, Nat.add_1_r in Hlen. injection Hlen as ->.
  exists x. apply lookup_snoc_app.
Qed.

Lemma resolve_sound addr n m :
  0 <= n -> space_resolve sp addr n = Some m ->
  m ∈ mappings_ sp /\ n <> 0 /\ window_contains m addr n.
Proof.
  intros Hn. unfold space_resolve.
  destruct (Z.eqb_spec n 0); [done|]. simpl.
  destruct (mappings_ sp) as [|x l] eqn:Hl; [done|]. rewrite <- Hl.
  destruct (upper_bound _ addr) as [|pos] eqn:Hu; [done|].
  destruct (mappings_ sp !! pos) as [m'|] eqn:Hp; [|done].
  pose proof (list_elem_of_lookup_2 _ _ _ Hp) as Hin.
  pose proof (mapping_in_wf m' Hin) as Hw. rewrite map_end_eq by done.
  destruct Hw as (? & ? & ?). unfold UINT64_MAX, window_contains in *.
  destruct (Z.ltb_spec addr (map_base m')); [done|].
  destruct (Z.leb_spec (map_base m' + map_size m') addr); [done|]. simpl.
  rewrite u64_small by (unfold fits; lia).
  destruct (Z.ltb_spec (map_base m' + map_size m' - addr) n); [done|].
  intros; simplify_eq. split; [done|]. lia.
Qed.

Lemma resolve_complete addr n m :
  0 < n -> m ∈ mappings_ sp -> window_contains m addr n ->
  space_resolve sp addr n = Some m.
Proof.
  intros Hn Hm [Hb He]. pose proof (mapping_in_wf m Hm) as Hw.
  apply list_elem_of_split in Hm as (l1 & l2 & Hl).
  unfold space_resolve. rewrite (upper_bound_window l1 l2 m) by (done || lia).
  rewrite Hl, list_lookup_middle by done. rewrite map_end_eq by done.
  destruct Hw as (? & ? & ?). unfold UINT64_MAX in *.
  rewrite u64_small by (unfold fits; lia).
  destruct l1; simpl; bool_cases; simpl; lia || done.
Qed.
End Resolve.

(** [resolve] is sound and complete: it returns a window exactly when that
    window holds the whole non-empty range [addr, addr + n), and since windows
    are disjoint the window is unique. *)
Theorem resolve_finds_the_containing_window sp addr n m :
  space_wf sp -> fits 64 addr -> fits 64 n ->
  space_resolve sp addr n = Some m <->
  0 < n /\ m ∈ mappings_ sp /\ window_contains m addr n.
Proof.
  intros Hsp _ [Hn _]. split.
  - intros Hr. apply resolve_sound in Hr; [|done..]. destruct Hr as (? & ? & ?). split; [lia | done].
  - intros (? & ? & ?). by apply resolve_complete.
Qed.

Lemma resolve_some sp addr n m :
  space_wf sp -> 0 <= n -> space_resolve sp addr n = Some m ->
  mapping_wf m /\ window_contains m addr n.
Proof.
  intros Hsp Hn Hr. apply resolve_sound in Hr as (? & _ & ?); [|done..].
  split; [by eapply mapping_in_wf | done].
Qed.

(** A range that resolves to no window: an error that tells whether its first
    byte was decoded. *)
Theorem resolution_error_spec sp addr n :
  space_wf sp ->
  resolution_error sp addr n = SlaveError <->
  exists m, m ∈ mappings_ sp /\ window_contains m addr 1.
Proof.
  intros Hsp. unfold resolution_error. split.
  - destruct (upper_bound _ addr) as [|pos]; [done|].
    destruct (mappings_ sp !! pos) as [m|] eqn:Hp; [|done].
    pose proof (list_elem_of_lookup_2 _ _ _ Hp) as Hin.
    rewrite map_end_eq by by eapply mapping_in_wf. bool_cases; simpl; try done.
    intros _. exists m. split; [done|]. unfold window_contains. lia.
  - intros (m & Hin & Hb & He). pose proof (mapping_in_wf sp Hsp m Hin) as Hw.
    apply list_elem_of_split in Hin as (l1 & l2 & Hl).
    rewrite (upper_bound_window sp Hsp l1 l2 m) by (done || lia).
    rewrite Hl, list_lookup_middle, map_end_eq by done. bool_cases; simpl; lia || done.
Qed.

(** ** Reset *)

(** The devices of the map, each once, in the order of its first window. *)
Fixpoint distinct_devices (seen : list DevicePtr) (l : list Mapping) : list DevicePtr :=
  match l with
  | [] => []
  | m :: l' => if existsb (fun d => (d =? map_device m)%nat) seen
               then distinct_devices seen l'
               else map_device m :: distinct_devices (seen ++ [map_device m]) l'
  end.

Lemma existsb_elem d (seen : list nat) :
  existsb (fun x => (x =? d)%nat) seen = true <-> d ∈ seen.
Proof.
  rewrite existsb_exists. setoid_rewrite list_elem_of_In. split.
  - intros (x & Hx & ->%Nat.eqb_eq). done.
  - intros Hd. exists d. by rewrite Nat.eqb_refl.
Qed.

Lemma distinct_devices_spec seen l :
  NoDup (distinct_devices seen l) /\
  forall d, d ∈ distinct_devices seen l <-> (d ∉ seen) /\ d ∈ (map_device <$> l).
Proof.
  revert seen. induction l as [|m l IH]; intros seen; simpl.
  { split; [constructor|]. intros d. rewrite elem_of_nil. tauto. }
  destruct (existsb (fun d => (d =? map_device m)%nat) seen) eqn:E.
  - apply existsb_elem in E. destruct (IH seen) as [Hn Hd]. split; [done|].
    intros d. rewrite Hd, elem_of_cons. destruct (decide (d = map_device m)); naive_solver.
  - assert (map_device m ∉ seen) as Hns by (rewrite <- existsb_elem; by rewrite E).
    destruct (IH (seen ++ [map_device m])) as [Hn Hd]. split.
    + constructor; [|done]. rewrite Hd, elem_of_app, list_elem_of_singleton. tauto.
    + intros d. rewrite !elem_of_cons, Hd, elem_of_app, list_elem_of_singleton.
      destruct (decide (d = map_device m)); naive_solver.
Qed.

Section Reset.
Context {H : Type} `{!DeviceHeap H}.

Lemma reset_mappings_ext (seen seen' : list DevicePtr) (l : list Mapping) (h : H) :
  (forall d, d ∈ seen <-> d ∈ seen') ->
  reset_mappings seen l h = reset_mappings seen' l h.
Proof.
  revert seen seen' h. induction l as [|m l IH]; intros seen seen' h Heq; [done|]. simpl.
  assert (existsb (fun d => (d =? map_device m)%nat) seen
          = existsb (fun d => (d =? map_device m)%nat) seen') as ->.
  { apply eq_bool_prop_intro. rewrite !Is_true_true, !existsb_elem. apply Heq. }
  apply IH. intros d. rewrite !elem_of_app, Heq. done.
Qed.

(** [AddressSpace::reset] resets every mapped device exactly once, in the
    order of its first window, however many windows alias it. *)
Theorem reset_visits_each_device_once (sp : AddressSpace) (h : H) :
  let ds := distinct_devices [] (mappings_ sp) in
  NoDup ds /\ (forall d, d ∈ ds <-> d ∈ (map_device <$> mappings_ sp)) /\
  space_reset sp h = foldl (fun h d => device_reset d h) h ds.
Proof.
  simpl. destruct (distinct_devices_spec [] (mappings_ sp)) as [Hn Hd].
  split; [done|]. split; [intros d; rewrite Hd, elem_of_nil; tauto|].
  unfold space_reset. clear Hn Hd.
  generalize (@nil DevicePtr) as seen. revert h.
  induction (mappings_ sp) as [|m l IH]; intros h seen; [done|]. simpl.
  destruct (existsb (fun d => (d =? map_device m)%nat) seen) eqn:E.
  - apply existsb_elem in E. rewrite <- IH. apply reset_mappings_ext.
    intros d. rewrite elem_of_app, list_elem_of_singleton. naive_solver.
  - simpl. by rewrite <- IH.
Qed.
End Reset.

(** ** Examples *)
Definition two_windows : AddressSpace :=
  {| mappings_ := [{| map_base := 0x1000; map_size := 0x100; map_device := 0%nat; map_name := "rom" |};
                   {| map_base := 0x2000; map_size := 0x10; map_device := 1%nat; map_name := "uart" |}];
     frozen_ := false |}.

Lemma two_windows_wf : space_wf two_windows.
Proof.
  split; simpl.
  - repeat constructor; unfold mapping_wf, UINT64_MAX; simpl; lia.
  - repeat constructor. unfold before. simpl. lia.
Qed.

Lemma map_accepts_exactly_disjoint_windows_witness :
  ~ can_map two_windows {| map_base := 0x10ff; map_size := 2; map_device := 2%nat; map_name := "ram" |}.
Proof.
  exact (map_accepts_exactly_disjoint_windows two_windows 0x10ff 2 2%nat "ram" two_windows_wf
    ltac:(unfold fits; lia) ltac:(unfold fits; lia)).
Defined.

Lemma resolve_finds_the_containing_window_witness :
  exists m, space_resolve two_windows 0x200c 4 = Some m /\ window_contains m 0x200c 4.
Proof.
  exists {| map_base := 0x2000; map_size := 0x10; map_device := 1%nat; map_name := "uart" |}. split; [done|].
  apply (resolve_finds_the_containing_window two_windows 0x200c 4
    {| map_base := 0x2000; map_size := 0x10; map_device := 1%nat; map_name := "uart" |} two_windows_wf
    ltac:(unfold fits; lia) ltac:(unfold fits; lia)). done.
Defined.
