(* ===== verification/Memory.v ===== *)
(** * ROM, RAM and the Exit register (src/devices.cpp, src/devices.hpp)

    A memory is the vector of its bytes.  [RamDevice]'s storage (an anonymous
    mapping or the [fallback_] vector) is the same zero-filled byte array here;
    RamStorage.v tells them apart.  A constructor can fail for want of memory. *)
From S2P Require Import Prelude Axi.

(** ** The memory of the process

    [std::vector<std::byte>] gets a buffer of a size, or throws
    [std::length_error] or [std::bad_alloc]; [mmap] gives an anonymous mapping
    or fails.  The state [S] is the system's. *)
Inductive AllocationFailure := TooLong (message : string) | NoMemory (message : string).
Definition allocation_exn (failure : AllocationFailure) : exn :=
  match failure with TooLong message => LengthError message | NoMemory message => BadAlloc message end.

Class ProcessMemory (S : Type) := {
  allocate_vector : Z -> S -> option AllocationFailure * S;
  map_anonymous : Z -> S -> bool * S
}.

Section Allocation.
Context {S : Type} `{!ProcessMemory S}.

Definition vector_buffer (size : Z) : M S unit := fun s =>
  match allocate_vector size s with
  | (None, s) => (Ok tt, s)
  | (Some failure, s) => (Throw (allocation_exn failure), s)
  end.
Definition anonymous_mapping (size : Z) : M S bool := fun s =>
  let (mapped, s) := map_anonymous size s in (Ok mapped, s).
End Allocation.

Definition in_bounds (offset length capacity : Z) : bool :=
  (offset <=? capacity) && (length <=? capacity - offset).

Definition all_lanes_enabled (lanes : list Z) : bool := forallb nz lanes.

(** The read of [RomDevice] and [RamDevice]. *)
Definition memory_read (bytes : list Z) (offset : Z) (data enable : list Z)
  : Response * list Z :=
  if negb (in_bounds offset (Z.of_nat (length data)) (Z.of_nat (length bytes)))
  then (SlaveError, data)
  else
    let start := Z.to_nat offset in
    if all_lanes_enabled enable
    then (Okay, splice 0 (take (length data) (drop start bytes)) data)
    else (Okay, masked_copy (length data) (fun lane => nz (enable !!! lane)) 0
                  (fun lane => bytes !!! (start + lane)%nat) data).

Definition memory_load (bytes : list Z) (offset : Z) (data : list Z) : Response * list Z :=
  if negb (in_bounds offset (Z.of_nat (length data)) (Z.of_nat (length bytes)))
  then (SlaveError, bytes)
  else (Okay, splice (Z.to_nat offset) data bytes).

(** ** ROM *)
(** [bytes_] is allocated before the body of the constructor. *)
Definition mk_rom {S} `{!ProcessMemory S} (image : list Z) (size : Z) : M S (list Z) :=
  vector_buffer size ;;;
  if size =? 0 then throw (InvalidArgument "ROM size must not be zero")
  else if size <? Z.of_nat (length image) then throw (InvalidArgument "ROM image is larger than ROM")
  else ret (splice 0 image (replicate (Z.to_nat size) 0)).

Definition rom_read := memory_read.
Definition rom_write (bytes : list Z) (offset : Z) (data strobe : list Z) : Response * list Z :=
  if negb (in_bounds offset (Z.of_nat (length data)) (Z.of_nat (length bytes)))
  then (SlaveError, bytes)
  else (SlaveError, bytes).
Definition rom_load := memory_load.
Definition rom_can_load (bytes : list Z) (offset size : Z) : bool :=
  in_bounds offset size (Z.of_nat (length bytes)).

(** ** RAM *)
(** Only if there is no mapping, [fallback_] is resized. *)
Definition mk_ram {S} `{!ProcessMemory S} (size : Z) : M S (list Z) :=
  if size =? 0 then throw (InvalidArgument "RAM size must not be zero")
  else
    do mapped := anonymous_mapping size in
    (when (negb mapped) (vector_buffer size)) ;;;
    ret (replicate (Z.to_nat size) 0).

Definition ram_read := memory_read.
Definition ram_write (bytes : list Z) (offset : Z) (data strobe : list Z) : Response * list Z :=
  if negb (in_bounds offset (Z.of_nat (length data)) (Z.of_nat (length bytes)))
  then (SlaveError, bytes)
  else
    let start := Z.to_nat offset in
    if all_lanes_enabled strobe then (Okay, splice start data bytes)
    else (Okay, masked_copy (length data) (fun lane => nz (strobe !!! lane)) start
                  (fun lane => data !!! lane) bytes).
Definition ram_load := memory_load.
Definition ram_can_load := rom_can_load.

(** ** The Exit register *)
Record ExitDevice := { requested_ : bool; code_ : Z; generation_ : Z }.

Definition exit_init : ExitDevice := {| requested_ := false; code_ := 0; generation_ := 0 |}.

Definition exit_clear (e : ExitDevice) : ExitDevice :=
  {| requested_ := false; code_ := 0; generation_ := generation_ e |}.

Definition EXIT_REGISTER_SPAN : Z := 4.

Definition exit_read (e : ExitDevice) (offset : Z) (data enable : list Z)
  : Response * list Z :=
  if negb (in_bounds offset (Z.of_nat (length data)) EXIT_REGISTER_SPAN)
  then (SlaveError, data)
  else (Okay, masked_copy (length data) (fun lane => nz (enable !!! lane)) 0
                (fun lane => let shift := u32 ((offset + Z.of_nat lane) * 8) in
                             Z.land (Z.shiftr (code_ e) shift) 0xff) data).

Definition exit_write (e : ExitDevice) (offset : Z) (data strobe : list Z)
  : Response * ExitDevice :=
  if negb (offset =? 0) || negb (Z.of_nat (length data) =? EXIT_REGISTER_SPAN)
     || negb (forallb nz strobe)
  then (SlaveError, e)
  else (Okay,
        {| code_ := Z.lor (Z.lor (Z.lor (data !!! 0%nat) (Z.shiftl (data !!! 1%nat) 8))
                                 (Z.shiftl (data !!! 2%nat) 16))
                          (Z.shiftl (data !!! 3%nat) 24);
           requested_ := true;
           generation_ := u64 (generation_ e + 1) |}).

(** ** The fast paths *)
Lemma in_bounds_spec offset n capacity :
  in_bounds offset n capacity = true <-> offset + n <= capacity /\ offset <= capacity.
Proof. unfold in_bounds. bool_cases; simpl; split; intros; try done; lia. Qed.

Lemma all_lanes_enabled_lookup lanes i :
  all_lanes_enabled lanes = true -> (i < length lanes)%nat -> nz (lanes !!! i) = true.
Proof.
  unfold all_lanes_enabled. rewrite forallb_forall. intros Hall Hi. apply Hall.
  apply list_elem_of_In, list_elem_of_lookup. exists i. by apply lookup_total_lt.
Qed.

(** With every lane enabled the [memcpy] path does what the lane loop does. *)
Lemma memory_read_in_bounds bytes offset data enable :
  length data = length enable -> 0 <= offset ->
  offset + Z.of_nat (length data) <= Z.of_nat (length bytes) ->
  memory_read bytes offset data enable =
  (Okay, masked_copy (length data) (fun lane => nz (enable !!! lane)) 0
           (fun lane => bytes !!! (Z.to_nat offset + lane)%nat) data).
Proof.
  intros Hl Ho Hb. unfold memory_read.
  replace (in_bounds _ _ _) with true by (symmetry; apply in_bounds_spec; lia). simpl.
  destruct (all_lanes_enabled enable) eqn:Hen; [|done]. f_equal.
  set (v := take (length data) (drop (Z.to_nat offset) bytes)).
  assert (length v = length data) as Hv.
  { unfold v. rewrite length_take, length_drop. lia. }
  rewrite <- (masked_copy_all (fun lane => nz (enable !!! lane))).
  2:{ lia. } 2:{ intros i Hi. apply all_lanes_enabled_lookup; [done | lia]. }
  rewrite Hv. apply masked_copy_ext; [done|]. intros i Hi _.
  unfold v. by rewrite lookup_total_take_lt, lookup_total_drop by lia.
Qed.

Lemma ram_write_in_bounds bytes offset data strobe :
  length data = length strobe -> 0 <= offset ->
  offset + Z.of_nat (length data) <= Z.of_nat (length bytes) ->
  ram_write bytes offset data strobe =
  (Okay, masked_copy (length data) (fun lane => nz (strobe !!! lane)) (Z.to_nat offset)
           (fun lane => data !!! lane) bytes).
Proof.
  intros Hl Ho Hb. unfold ram_write.
  replace (in_bounds _ _ _) with true by (symmetry; apply in_bounds_spec; lia). simpl.
  destruct (all_lanes_enabled strobe) eqn:Hen; [|done]. f_equal.
  symmetry. apply masked_copy_all; [lia|].
  intros i Hi. apply all_lanes_enabled_lookup; [done | lia].
Qed.

Lemma out_of_bounds offset n capacity :
  0 <= n -> capacity < offset + n -> in_bounds offset n capacity = false.
Proof. intros. unfold in_bounds. bool_cases; simpl; lia || done. Qed.

Lemma memory_read_length bytes offset data enable :
  length (memory_read bytes offset data enable).2 = length data.
Proof.
  unfold memory_read. destruct (negb _); [done|]. destruct (all_lanes_enabled _); simpl.
  - apply splice_length. rewrite length_take. lia.
  - apply masked_copy_length.
Qed.

(** A write to RAM changes exactly the strobed bytes of the range, to the
    data given for them, whichever of the two copy paths is taken; an access
    that does not fit the device returns SLVERR and changes nothing. *)
Theorem ram_write_changes_exactly_the_strobed_bytes bytes offset data strobe :
  length data = length strobe -> 0 <= offset ->
  let (r, bytes') := ram_write bytes offset data strobe in
  length bytes' = length bytes /\
  if offset + Z.of_nat (length data) <=? Z.of_nat (length bytes) then
    r = Okay /\
    forall j, (j < length bytes)%nat ->
      bytes' !!! j =
        (if bool_decide (Z.to_nat offset <= j < Z.to_nat offset + length data)%nat
            && nz (strobe !!! (j - Z.to_nat offset)%nat)
         then data !!! (j - Z.to_nat offset)%nat else bytes !!! j)
  else r = SlaveError /\ bytes' = bytes.
Proof.
  intros Hl Ho.
  destruct (Z.leb_spec (offset + Z.of_nat (length data)) (Z.of_nat (length bytes))) as [Hb|Hb].
  - rewrite ram_write_in_bounds by done. split; [apply masked_copy_length|].
    split; [done|]. intros j Hj. by apply masked_copy_lookup.
  - unfold ram_write. rewrite out_of_bounds by lia. done.
Qed.

Lemma ram_write_changes_exactly_the_strobed_bytes_witness :
  length [9; 8] = length [1; 0] /\ 0 <= 1 /\
  ram_write [0; 1; 2; 3] 1 [9; 8] [1; 0] = (Okay, [0; 9; 2; 3]).
Proof.
  split; [done|]. split; [lia|].
  pose proof (ram_write_changes_exactly_the_strobed_bytes [0; 1; 2; 3] 1 [9; 8] [1; 0]
                eq_refl ltac:(lia)) as Hw.
  destruct (ram_write [0; 1; 2; 3] 1 [9; 8] [1; 0]) as [r b].
  destruct Hw as [Hl [-> Hb]]. f_equal. apply list_eq_total; [done|].
  rewrite Hl. intros j Hj. rewrite Hb by done.
  do 4 (destruct j as [|j]; [done|]). simpl in Hj. lia.
Defined.

(** C36: reading back what was written: after an in-range RAM write, a fully
    enabled read of the same range returns the written bytes on the strobed
    lanes and the previous contents on the others; a read never changes the
    memory, and reads of other ranges are not affected. *)
Theorem ram_read_after_write bytes offset data strobe :
  length data = length strobe -> 0 <= offset ->
  offset + Z.of_nat (length data) <= Z.of_nat (length bytes) ->
  let bytes' := (ram_write bytes offset data strobe).2 in
  let zeros := replicate (length data) 0 in
  let ones := replicate (length data) 1 in
  ram_read bytes' offset zeros ones =
    (Okay, (fun i => if nz (strobe !!! i) then data !!! i else bytes !!! (Z.to_nat offset + i)%nat)
             <$> seq 0 (length data)) /\
  forall offset' zeros' enable',
    length zeros' = length enable' -> 0 <= offset' ->
    offset' + Z.of_nat (length zeros') <= offset \/
    offset + Z.of_nat (length data) <= offset' ->
    ram_read bytes' offset' zeros' enable' = ram_read bytes offset' zeros' enable'.
Proof.
  intros Hl Ho Hb. cbv zeta. rewrite ram_write_in_bounds by done. cbn [snd]. split.
  - unfold ram_read. rewrite memory_read_in_bounds;
      rewrite ?length_replicate, ?masked_copy_length; try done. f_equal.
    apply list_eq_total; [by rewrite masked_copy_length, length_fmap, length_seq, length_replicate|].
    intros i Hi. rewrite masked_copy_length, length_replicate in Hi.
    rewrite masked_copy_lookup by (rewrite length_replicate; done).
    rewrite bool_decide_eq_true_2, Nat.sub_0_r, lookup_total_replicate_2 by lia. simpl.
    rewrite masked_copy_lookup by lia. rewrite bool_decide_eq_true_2 by lia.
    replace (Z.to_nat offset + i - Z.to_nat offset)%nat with i by lia. simpl.
    symmetry. apply list_lookup_total_correct.
    by rewrite list_lookup_fmap, seq_lookup_lt.
  - intros o z en Hz Ho' Hdis. unfold ram_read.
    destruct (Z.le_gt_cases (o + Z.of_nat (length z)) (Z.of_nat (length bytes))).
    + rewrite !memory_read_in_bounds by (rewrite ?masked_copy_length; lia). f_equal.
      apply masked_copy_ext; [done|]. intros i Hi _. rewrite masked_copy_lookup by lia.
      by rewrite bool_decide_eq_false_2 by lia.
    + unfold memory_read. rewrite masked_copy_length, !out_of_bounds by lia. done.
Qed.

Lemma ram_read_after_write_witness :
  ram_read (ram_write [0; 1; 2; 3] 1 [9; 8] [1; 0]).2 1 [0; 0] [1; 1] = (Okay, [9; 2]).
Proof.
  apply (ram_read_after_write [0; 1; 2; 3] 1 [9; 8] [1; 0]); [done | lia | simpl; lia].
Defined.

(** ROM is read-only on the bus, and its image can only be changed by [load]. *)
Lemma rom_write_rejected bytes offset data strobe :
  rom_write bytes offset data strobe = (SlaveError, bytes).
Proof. unfold rom_write. by destruct (negb _). Qed.

(** ** Loading *)
Lemma memory_load_spec bytes offset data :
  0 <= offset ->
  memory_load bytes offset data =
    if offset + Z.of_nat (length data) <=? Z.of_nat (length bytes)
    then (Okay, splice (Z.to_nat offset) data bytes) else (SlaveError, bytes).
Proof.
  intros Ho. unfold memory_load.
  destruct (Z.leb_spec (offset + Z.of_nat (length data)) (Z.of_nat (length bytes))).
  - replace (in_bounds _ _ _) with true by (symmetry; apply in_bounds_spec; lia). done.
  - by rewrite out_of_bounds by lia.
Qed.

(** ** The Exit register *)
Lemma land_0xff x : Z.land x 0xff = x mod 256.
Proof. apply (land_low x 8). lia. Qed.

Definition little_endian4 (b0 b1 b2 b3 : Z) : Z :=
  b0 + b1 * 2 ^ 8 + b2 * 2 ^ 16 + b3 * 2 ^ 24.

Lemma exit_code_little_endian b0 b1 b2 b3 :
  fits 8 b0 -> fits 8 b1 -> fits 8 b2 -> fits 8 b3 ->
  Z.lor (Z.lor (Z.lor b0 (Z.shiftl b1 8)) (Z.shiftl b2 16)) (Z.shiftl b3 24)
  = little_endian4 b0 b1 b2 b3.
Proof.
  unfold fits, little_endian4. intros.
  rewrite (lor_disjoint b0), (lor_disjoint _ b2), (lor_disjoint _ b3);
    [lia | lia | unfold fits; lia..].
Qed.

(** The Exit register accepts only an aligned, full-strobe 32-bit write;
    such a write records the request, holds the little-endian code, and reading
    the register returns the four bytes written.  Any other write returns
    SLVERR and leaves the register unchanged. *)
Theorem exit_register_round_trip e b0 b1 b2 b3 offset data strobe :
  fits 8 b0 -> fits 8 b1 -> fits 8 b2 -> fits 8 b3 ->
  let (r, e') := exit_write e 0 [b0; b1; b2; b3] [1; 1; 1; 1] in
  (r = Okay /\ requested_ e' = true /\ code_ e' = little_endian4 b0 b1 b2 b3 /\
   exit_read e' 0 [0; 0; 0; 0] [1; 1; 1; 1] = (Okay, [b0; b1; b2; b3])) /\
  (offset <> 0 \/ length data <> 4%nat \/ (exists i, strobe !! i = Some 0) ->
   exit_write e offset data strobe = (SlaveError, e)).
Proof.
  intros H0 H1 H2 H3. unfold exit_write at 1. simpl. rewrite exit_code_little_endian by done.
  split; [split; [done|]; split; [done|]; split; [done|]|].
  - unfold exit_read, masked_copy. simpl. rewrite !Z.shiftr_div_pow2, !land_0xff by done.
    unfold fits, little_endian4 in *. do 2 f_equal; [|f_equal; [|f_equal; [|f_equal]]].
    + change (2 ^ u32 ((0 + Z.of_nat 0) * 8)) with 1. zdiv.
    + change (2 ^ u32 ((0 + Z.of_nat 1) * 8)) with 256. zdiv.
    + change (2 ^ u32 ((0 + Z.of_nat 2) * 8)) with 65536. zdiv.
    + change (2 ^ u32 ((0 + Z.of_nat 3) * 8)) with 16777216. zdiv.
  - intros Hbad. unfold exit_write, EXIT_REGISTER_SPAN.
    destruct (Z.eqb_spec offset 0); [simpl|done].
    destruct (Z.eqb_spec (Z.of_nat (length data)) 4); [simpl|done].
    destruct Hbad as [?|[?|[i Hi]]]; [done | lia |].
    replace (forallb nz strobe) with false; [done|]. symmetry. apply not_true_iff_false.
    rewrite forallb_forall. intros Hall. specialize (Hall 0).
    assert (In 0 strobe) as Hin by (apply list_elem_of_In, list_elem_of_lookup; eauto).
    by specialize (Hall Hin).
Qed.

Lemma exit_register_round_trip_witness :
  exit_read (exit_write exit_init 0 [0x11; 0x22; 0; 0x80] [1; 1; 1; 1]).2 0 [0; 0; 0; 0] [1; 1; 1; 1]
  = (Okay, [0x11; 0x22; 0; 0x80]) /\
  exit_write exit_init 4 [0; 0; 0; 0] [1; 1; 1; 1] = (SlaveError, exit_init).
Proof.
  pose proof (exit_register_round_trip exit_init 0x11 0x22 0 0x80 4 [0; 0; 0; 0] [1; 1; 1; 1]
    ltac:(unfold fits; lia) ltac:(unfold fits; lia) ltac:(unfold fits; lia)
    ltac:(unfold fits; lia)) as H.
  destruct (exit_write exit_init 0 _ _) as [r e']. destruct H as [(_ & _ & _ & H) Hbad].
  split; [exact H | apply Hbad; left; lia].
Defined.
