(* ===== verification/RamStorage.v ===== *)
(** * The storage of a RAM (class [RamDevice] of src/devices.cpp)

    Memory.v has the contents of a RAM as a list of bytes.  Here is where the
    device keeps them: in an anonymous mapping of its own, or in a vector if
    [mmap] fails, handed on when a device is moved and given back when it is
    destroyed. *)
From S2P Require Import Prelude Memory.

(** ** The memory of the process *)
Inductive BlockKind := Mapping | Buffer.
Record Block := { block_kind : BlockKind; block_bytes : list Z }.
Notation HostMemory := (gmap Z Block).

#[export] Instance BlockKind_eq_dec : EqDecision BlockKind.
Proof. solve_decision. Defined.

(** Where the system puts an anonymous mapping ([None] for MAP_FAILED) and where
    the allocator puts the buffer of a vector, if it can. *)
Class Allocator := {
  place_mapping : Z -> HostMemory -> option Z;
  place_buffer : Z -> HostMemory -> AllocationFailure + Z
}.
Class AllocatorLaws `{!Allocator} : Prop := {
  mapping_fresh size m a : place_mapping size m = Some a -> m !! a = None;
  buffer_fresh size m a : place_buffer size m = inr a -> m !! a = None
}.

Definition zeros (size : Z) : list Z := replicate (Z.to_nat size) 0.

(** Giving back a whole block; giving back anything else is an error. *)
Definition give_back (kind : BlockKind) (a size : Z) : M HostMemory unit := fun m =>
  match m !! a with
  | Some block =>
      if bool_decide (block_kind block = kind) && (Z.of_nat (length (block_bytes block)) =? size)
      then (Ok tt, delete a m) else (Throw (LogicError "not the block that was given"), m)
  | None => (Throw (LogicError "no block at this address"), m)
  end.

(** [std::vector<std::byte>]: its buffer with the capacity, and its size. *)
Record Vector := mk_vector { buffer : option (Z * Z); count : Z }.
#[export] Instance Vector_eta : Eta Vector := fun v => mk_vector (buffer v) (count v).
Definition empty_vector : Vector := {| buffer := None; count := 0 |}.
Definition vector_data (v : Vector) : option Z := fst <$> buffer v.
Definition vector_clear (v : Vector) : Vector := v <| count := 0 |>.
Definition vector_free (v : Vector) : M HostMemory unit :=
  match buffer v with
  | Some (a, capacity) => give_back Buffer a capacity
  | None => ret tt
  end.

(** ** The device *)
Record RamDevice := mk_ram_device {
  size_ : Z;
  data_ : option Z;
  mapped_ : bool;
  fallback_ : Vector
}.

Section Ram.
Context `{!Allocator}.

Definition mmap (size : Z) : M HostMemory (option Z) := fun m =>
  match place_mapping size m with
  | Some a => (Ok (Some a), <[a := {| block_kind := Mapping; block_bytes := zeros size |}]> m)
  | None => (Ok None, m)
  end.

(** [resize] of an empty vector. *)
Definition vector_resize (size : Z) : M HostMemory Vector := fun m =>
  match place_buffer size m with
  | inl failure => (Throw (allocation_exn failure), m)
  | inr a => (Ok {| buffer := Some (a, size); count := size |},
              <[a := {| block_kind := Buffer; block_bytes := zeros size |}]> m)
  end.

Definition ram_construct (size : Z) : M HostMemory RamDevice :=
  if size =? 0 then throw (InvalidArgument "RAM size must not be zero")
  else
    do mapping := mmap size in
    match mapping with
    | Some a => ret {| size_ := size; data_ := Some a; mapped_ := true; fallback_ := empty_vector |}
    | None =>
        do fallback := vector_resize size in
        ret {| size_ := size; data_ := vector_data fallback; mapped_ := false; fallback_ := fallback |}
    end.

Definition ram_release (d : RamDevice) : M HostMemory RamDevice :=
  (match data_ d with
   | Some a => when (mapped_ d) (give_back Mapping a (size_ d))
   | None => ret tt
   end) ;;;
  ret {| size_ := 0; data_ := None; mapped_ := false; fallback_ := vector_clear (fallback_ d) |}.

(** The destructor, and then that of the vector. *)
Definition ram_destroy (d : RamDevice) : M HostMemory unit :=
  do d := ram_release d in vector_free (fallback_ d).

(** What a device that has been moved from is left as.  Its vector has handed its
    buffer on: moving one is constant time, and leaves it empty. *)
Definition moved_from : RamDevice :=
  {| size_ := 0; data_ := None; mapped_ := false; fallback_ := empty_vector |}.

(** The members taken from the other device. *)
Definition ram_take (other : RamDevice) : RamDevice := {|
  size_ := size_ other;
  data_ := if negb (mapped_ other) && negb (count (fallback_ other) =? 0)
           then vector_data (fallback_ other) else data_ other;
  mapped_ := mapped_ other;
  fallback_ := fallback_ other
|}.

(** Both give the device moved to and the one moved from. *)
Definition ram_move_construct (other : RamDevice) : RamDevice * RamDevice := (ram_take other, moved_from).

Definition ram_move_assign (d other : RamDevice) : M HostMemory (RamDevice * RamDevice) :=
  do d := ram_release d in vector_free (fallback_ d) ;;; ret (ram_take other, moved_from).

(** [bytes()] *)
Definition ram_bytes (m : HostMemory) (d : RamDevice) : list Z :=
  match data_ d ≫= fun a => m !! a with
  | Some block => take (Z.to_nat (size_ d)) (block_bytes block)
  | None => []
  end.

(** ** Objects and their lifetimes *)
Record Objects := mk_objects { memory : HostMemory; rams : gmap nat RamDevice }.
#[export] Instance Objects_eta : Eta Objects := fun w => mk_objects (memory w) (rams w).

Definition on_memory {A} (op : M HostMemory A) : M Objects A := fun w =>
  let '(r, m) := op (memory w) in (r, w <| memory := m |>).
Definition set_ram (i : nat) (d : RamDevice) : M Objects unit := modify (fun w => w <| rams ::= <[i := d]> |>).
Definition ram (i : nat) (w : Objects) : RamDevice := default moved_from (rams w !! i).

Inductive RamCall :=
| Construct (i : nat) (size : Z)
| MoveConstruct (i j : nat)
| MoveAssign (i j : nat)
| Destroy (i : nat).

(** The objects a call works on are alive, those it makes are new. *)
Definition call_ok (w : Objects) (c : RamCall) : Prop :=
  match c with
  | Construct i size => rams w !! i = None /\ 0 <= size
  | MoveConstruct i j => rams w !! i = None /\ is_Some (rams w !! j)
  | MoveAssign i j => is_Some (rams w !! i) /\ is_Some (rams w !! j)
  | Destroy i => is_Some (rams w !! i)
  end.

Definition ram_call (c : RamCall) : M Objects unit :=
  match c with
  | Construct i size => do d := on_memory (ram_construct size) in set_ram i d
  | MoveConstruct i j =>
      do other := gets (ram j) in
      let '(d, other) := ram_move_construct other in set_ram i d ;;; set_ram j other
  | MoveAssign i j =>
      if (i =? j)%nat then ret tt
      else
        do d := gets (ram i) in
        do other := gets (ram j) in
        do (d, other) := on_memory (ram_move_assign d other) in
        set_ram i d ;;; set_ram j other
  | Destroy i =>
      do d := gets (ram i) in
      on_memory (ram_destroy d) ;;; modify (fun w => w <| rams ::= delete i |>)
  end.
End Ram.

(** ** Ownership *)
Section Ownership.
Implicit Types (m : HostMemory) (d : RamDevice) (w : Objects).

(** The device owns nothing, or the block at [data_], which is all of it. *)
Inductive storage_ok m : RamDevice -> Prop :=
| storage_none : storage_ok m moved_from
| storage_mapping a bytes :
    m !! a = Some {| block_kind := Mapping; block_bytes := bytes |} ->
    storage_ok m {| size_ := Z.of_nat (length bytes); data_ := Some a; mapped_ := true; fallback_ := empty_vector |}
| storage_buffer a bytes :
    m !! a = Some {| block_kind := Buffer; block_bytes := bytes |} -> bytes <> [] ->
    storage_ok m {| size_ := Z.of_nat (length bytes); data_ := Some a; mapped_ := false;
                    fallback_ := {| buffer := Some (a, Z.of_nat (length bytes));
                                    count := Z.of_nat (length bytes) |} |}.

Definition owns w (i : nat) (a : Z) : Prop := data_ (ram i w) = Some a.

(** Every block has one owner. *)
Record owned w : Prop := {
  ow_storage i : storage_ok (memory w) (ram i w);
  ow_unique i j a : owns w i a -> owns w j a -> i = j;
  ow_all a : is_Some (memory w !! a) -> exists i, owns w i a
}.

Definition bytes_of w (i : nat) : list Z := ram_bytes (memory w) (ram i w).

Lemma storage_block m d a : storage_ok m d -> data_ d = Some a -> is_Some (m !! a).
Proof. intros [] [= <-]; eauto. Qed.

Lemma storage_ext m m' d :
  storage_ok m d -> (forall a, data_ d = Some a -> m' !! a = m !! a) ->
  storage_ok m' d /\ ram_bytes m' d = ram_bytes m d.
Proof.
  intros Hs Hm. split.
  - destruct Hs as [|a bytes E|a bytes E Hn]; constructor; try done; by rewrite Hm.
  - unfold ram_bytes. destruct (data_ d) as [a|]; [|done]. cbn. by rewrite Hm.
Qed.

Lemma take_storage m d : storage_ok m d -> ram_take d = d.
Proof.
  intros [|a bytes E|a bytes E Hn]; unfold ram_take; cbn; [done | done|].
  destruct (Z.eqb_spec (Z.of_nat (length bytes)) 0) as [Hz|]; [|done]. by destruct bytes.
Qed.

(** Without the block of a device. *)
Definition without (d : RamDevice) m : HostMemory :=
  match data_ d with Some a => delete a m | None => m end.

Lemma destroy_spec m d : storage_ok m d -> ram_destroy d m = (Ok tt, without d m).
Proof.
  intros [|a bytes E|a bytes E _]; unfold ram_destroy, ram_release, bind, vector_free, give_back, without;
    cbn; [done|..]; by rewrite E, Z.eqb_refl.
Qed.

Lemma without_other m d a : data_ d <> Some a -> without d m !! a = m !! a.
Proof.
  unfold without. destruct (data_ d) as [b|]; [|done]. intros Hne.
  rewrite lookup_delete_ne; [done | congruence].
Qed.

Lemma without_own m d a : data_ d = Some a -> without d m !! a = None.
Proof. unfold without. intros ->. apply lookup_delete_eq. Qed.

Lemma without_lookup m d a : is_Some (without d m !! a) -> data_ d <> Some a /\ is_Some (m !! a).
Proof.
  intros Hs. assert (data_ d <> Some a) as Hne.
  { intros E. rewrite (without_own _ _ _ E) in Hs. by destruct Hs. }
  by rewrite without_other in Hs.
Qed.

Lemma ram_insert i d w j :
  default moved_from (<[i := d]> (rams w) !! j) = if decide (i = j) then d else ram j w.
Proof. unfold ram. destruct (decide (i = j)) as [->|]; by rewrite ?lookup_insert_eq, ?lookup_insert_ne. Qed.

(** ** The operations *)

(** A new device with a block of its own. *)
Lemma construct_owned w i a d block :
  owned w -> rams w !! i = None -> memory w !! a = None -> data_ d = Some a ->
  storage_ok (<[a := block]> (memory w)) d ->
  let w' := mk_objects (<[a := block]> (memory w)) (<[i := d]> (rams w)) in
  owned w' /\ forall k, k <> i -> bytes_of w' k = bytes_of w k.
Proof.
  intros [Hs Hu Ha] Hi Hm Hd Hok w'.
  assert (forall k, ram k w' = if decide (i = k) then d else ram k w) as Hram by (intros; apply ram_insert).
  assert (forall k b, owns w k b -> b <> a) as Hne.
  { intros k b Hb ->. destruct (storage_block _ _ _ (Hs k) Hb). congruence. }
  assert (forall k, storage_ok (memory w') (ram k w) /\ ram_bytes (memory w') (ram k w) = bytes_of w k) as Hk.
  { intros k. apply storage_ext; [done|]. intros b Hb. cbn. rewrite lookup_insert_ne; [done|].
    intros <-. by eapply Hne. }
  assert (ram i w = moved_from) as Hri by (unfold ram; by rewrite Hi).
  split; [constructor|].
  - intros k. rewrite Hram. destruct (decide (i = k)); [done | apply Hk].
  - intros k l b. unfold owns. rewrite !Hram. destruct (decide (i = k)), (decide (i = l)); [congruence|..].
    + rewrite Hd. intros [= <-] Hl. by destruct (Hne l a Hl).
    + rewrite Hd. intros Hl [= <-]. by destruct (Hne k a Hl).
    + apply Hu.
  - intros b. cbn. destruct (decide (a = b)) as [<-|Hab].
    + intros _. exists i. unfold owns. by rewrite Hram, decide_True.
    + rewrite lookup_insert_ne by done. intros Hb. destruct (Ha b Hb) as [k Hk']. exists k.
      unfold owns. rewrite Hram. destruct (decide (i = k)) as [->|]; [|done].
      unfold owns in Hk'. by rewrite Hri in Hk'.
  - intros k Hne'. unfold bytes_of at 1. rewrite Hram, decide_False by congruence. apply Hk.
Qed.

(** The block of [i], if any, given back, and [i] given the device [d] with the
    block of [j], or none; [j] keeps nothing. *)
Lemma replace_owned w i j rams' :
  owned w ->
  (forall k, default moved_from (rams' !! k)
     = if decide (k = i) then (if decide (i = j) then moved_from else ram j w)
       else if decide (k = j) then moved_from else ram k w) ->
  let w' := mk_objects (without (ram i w) (memory w)) rams' in
  owned w' /\ (i <> j -> bytes_of w' i = bytes_of w j) /\ bytes_of w' j = [] /\
  (forall k, k <> i -> k <> j -> bytes_of w' k = bytes_of w k).
Proof.
  intros [Hs Hu Ha] Hrams w'. change (forall k, ram k w'
    = if decide (k = i) then (if decide (i = j) then moved_from else ram j w)
      else if decide (k = j) then moved_from else ram k w) in Hrams.
  assert (forall k, k <> i -> storage_ok (memory w') (ram k w) /\
            ram_bytes (memory w') (ram k w) = bytes_of w k) as Hk.
  { intros k Hne. apply storage_ext; [done|]. intros b Hb. apply without_other. intros Hi.
    by destruct Hne, (Hu k i b Hb Hi). }
  assert (forall k b, owns w' k b -> exists l, owns w l b /\ l <> i /\ k = if decide (l = j) then i else l) as Hown.
  { intros k b. unfold owns. rewrite Hrams. destruct (decide (k = i)) as [->|Hki].
    - destruct (decide (i = j)) as [|Hij]; [done|]. intros Hb. exists j. by rewrite decide_True.
    - destruct (decide (k = j)) as [|Hkj]; [done|]. intros Hb. exists k. by rewrite decide_False. }
  split; [constructor | split_and!].
  - intros k. rewrite Hrams. destruct (decide (k = i)); [destruct (decide (i = j)); [constructor | by apply Hk]|].
    destruct (decide (k = j)); [constructor | by apply Hk].
  - intros k l b Hb1 Hb2. destruct (Hown k b Hb1) as (k' & H1 & _ & ->), (Hown l b Hb2) as (l' & H2 & _ & ->).
    by rewrite (Hu k' l' b H1 H2).
  - intros b Hb. apply without_lookup in Hb as [Hni Hb]. destruct (Ha b Hb) as [k Hkb].
    assert (k <> i) as Hki by (by intros ->).
    exists (if decide (k = j) then i else k). unfold owns. rewrite Hrams.
    destruct (decide (k = j)) as [->|Hkj].
    + rewrite decide_True, decide_False by done. exact Hkb.
    + rewrite decide_False, decide_False by done. exact Hkb.
  - intros Hij. unfold bytes_of at 1. rewrite Hrams, decide_True, decide_False by done. by apply Hk.
  - unfold bytes_of. rewrite Hrams. destruct (decide (j = i)) as [->|]; by rewrite ?decide_True.
  - intros k Hki Hkj. unfold bytes_of at 1. rewrite Hrams, decide_False, decide_False by done. by apply Hk.
Qed.
End Ownership.

(** ** Any sequence of calls *)
Section Lifetimes.
Context `{!Allocator, !AllocatorLaws}.
Implicit Types (w : Objects) (c : RamCall).

Definition no_objects : Objects := {| memory := ∅; rams := ∅ |}.

(** What a call does to the contents of the objects. *)
Definition call_bytes w c w' : Prop :=
  match c with
  | Construct i size => bytes_of w' i = zeros size /\ forall k, k <> i -> bytes_of w' k = bytes_of w k
  | MoveConstruct i j | MoveAssign i j =>
      if decide (i = j) then w' = w
      else bytes_of w' i = bytes_of w j /\ bytes_of w' j = [] /\
           forall k, k <> i -> k <> j -> bytes_of w' k = bytes_of w k
  | Destroy i => rams w' !! i = None /\ forall k, k <> i -> bytes_of w' k = bytes_of w k
  end.

Inductive lifetime : Objects -> list RamCall -> Objects -> Prop :=
| lifetime_done w : lifetime w [] w
| lifetime_call w c w' l w'' :
    call_ok w c -> ram_call c w = (Ok tt, w') -> lifetime w' l w'' -> lifetime w (c :: l) w''.

Lemma no_objects_owned : owned no_objects.
Proof.
  assert (forall i, ram i no_objects = moved_from) as Hr by (intros; unfold ram; cbn; by rewrite lookup_empty).
  constructor.
  - intros i. rewrite Hr. constructor.
  - intros i j a. unfold owns. by rewrite Hr.
  - intros a [b Hb]. cbn in Hb. by rewrite lookup_empty in Hb.
Qed.

Lemma zeros_length size : 0 <= size -> Z.of_nat (length (zeros size)) = size.
Proof. intros. unfold zeros. rewrite length_replicate. lia. Qed.

(** Why a construction fails: for the size 0, or because there is neither a
    mapping nor a buffer. *)
Definition construction_error (size : Z) (m : HostMemory) (e : exn) : Prop :=
  (size = 0 /\ e = InvalidArgument "RAM size must not be zero") \/
  (place_mapping size m = None /\ exists failure, place_buffer size m = inl failure /\ e = allocation_exn failure).

Lemma construct_spec size m :
  0 <= size ->
  match ram_construct size m with
  | (Ok d, m') =>
      exists a block, m !! a = None /\ m' = <[a := block]> m /\ data_ d = Some a /\ storage_ok m' d /\
        ram_bytes m' d = zeros size
  | (Throw e, m') => m' = m /\ construction_error size m e
  end.
Proof.
  intros Hs. unfold ram_construct. destruct (Z.eqb_spec size 0) as [->|Hz]; [by split; [|left]|].
  assert (forall (a : Z) (block : Block), <[a := block]> m !! a = Some block) as Hl
    by (intros; apply lookup_insert_eq).
  pose proof (zeros_length size Hs) as Hlen.
  assert (take (Z.to_nat size) (zeros size) = zeros size) as Ht by (apply take_ge; lia).
  unfold bind, mmap. destruct (place_mapping size m) as [a|] eqn:Em; cbn.
  - set (block := {| block_kind := Mapping; block_bytes := zeros size |}).
    exists a, block. split; [by eapply mapping_fresh|]. split; [done|]. split; [done|].
    split; [|unfold ram_bytes; cbn; by rewrite Hl].
    pose proof (storage_mapping (<[a := block]> m) a (zeros size) (Hl a block)) as Hst. by rewrite Hlen in Hst.
  - unfold vector_resize. destruct (place_buffer size m) as [failure|a] eqn:Eb; cbn; [by split; [|right; eauto]|].
    set (block := {| block_kind := Buffer; block_bytes := zeros size |}).
    exists a, block. split; [by eapply buffer_fresh|]. split; [done|]. split; [done|].
    split; [|unfold ram_bytes; cbn; by rewrite Hl].
    pose proof (storage_buffer (<[a := block]> m) _ (zeros size) (Hl _ block)) as Hst.
    rewrite Hlen in Hst. apply Hst. intros E. rewrite E in Hlen. cbn in Hlen. lia.
Qed.

(** One call: it gives back nothing but whole blocks of its objects, and leaves
    every block with one owner. *)
Lemma ram_call_spec w c :
  owned w -> call_ok w c ->
  match ram_call c w with
  | (Ok _, w') => owned w' /\ call_bytes w c w'
  | (Throw e, w') => w' = w /\ exists i size, c = Construct i size /\ construction_error size (memory w) e
  end.
Proof.
  intros Ho Hok. destruct c as [i size|i j|i j|i]; cbn [ram_call call_ok call_bytes] in *.
  - destruct Hok as [Hi Hsize]. pose proof (construct_spec size (memory w) Hsize) as Hc.
    unfold bind, on_memory. destruct (ram_construct size (memory w)) as [[d|e] m'].
    + destruct Hc as (a & block & Hm & -> & Hd & Hst & Hb).
      destruct (construct_owned w i a d block Ho Hi Hm Hd Hst) as [Ho' Hk]. split; [exact Ho'|]. split; [|exact Hk].
      unfold bytes_of. rewrite <- Hb. f_equal. unfold ram. cbn. by rewrite lookup_insert_eq.
    + destruct Hc as (-> & He). split; [by destruct w | by exists i, size].
  - destruct Hok as [Hi Hj]. assert (i <> j) as Hij by (intros ->; rewrite Hi in Hj; by destruct Hj).
    unfold bind, gets. cbn. rewrite (decide_False (P := i = j)) by done.
    rewrite (take_storage (memory w)) by apply Ho.
    destruct (replace_owned w i j (<[j := moved_from]> (<[i := ram j w]> (rams w))) Ho) as (H1 & H2 & H3 & H4).
    { intros k. rewrite (decide_False (P := i = j)) by done. destruct (decide (k = j)) as [->|Hkj].
      - rewrite lookup_insert_eq. by rewrite decide_False by done.
      - rewrite lookup_insert_ne by done. destruct (decide (k = i)) as [->|]; by rewrite ?lookup_insert_eq, ?lookup_insert_ne. }
    assert (without (ram i w) (memory w) = memory w) as E by (unfold without, ram; by rewrite Hi).
    rewrite E in *. auto.
  - destruct (Nat.eqb_spec i j) as [->|Hij]; [by cbn; rewrite decide_True|].
    pose proof (destroy_spec (memory w) (ram i w) (ow_storage w Ho i)) as Hd. unfold ram_destroy in Hd.
    unfold bind, gets, on_memory, ram_move_assign, bind in *. cbn.
    destruct (ram_release (ram i w) (memory w)) as [[d|e] m1]; [|done]. rewrite Hd. cbn. rewrite (decide_False (P := i = j)) by done.
    rewrite (take_storage (memory w)) by apply Ho.
    destruct (replace_owned w i j (<[j := moved_from]> (<[i := ram j w]> (rams w))) Ho) as (H1 & H2 & H3 & H4).
    { intros k. rewrite (decide_False (P := i = j)) by done. destruct (decide (k = j)) as [->|Hkj].
      - rewrite lookup_insert_eq. by rewrite decide_False by done.
      - rewrite lookup_insert_ne by done. destruct (decide (k = i)) as [->|]; by rewrite ?lookup_insert_eq, ?lookup_insert_ne. }
    auto.
  - unfold bind, gets, on_memory. cbn. rewrite (destroy_spec (memory w)) by apply Ho. cbn.
    destruct (replace_owned w i i (delete i (rams w)) Ho) as (H1 & _ & _ & H4).
    { intros k. rewrite (decide_True (P := i = i)) by done.
      destruct (decide (k = i)) as [->|]; [by rewrite lookup_delete_eq | by rewrite lookup_delete_ne]. }
    split; [exact H1|]. split; [apply lookup_delete_eq | auto].
Qed.

Lemma lifetime_owned w l w' : owned w -> lifetime w l w' -> owned w'.
Proof.
  intros Ho Hl. induction Hl as [|w c w1 l w2 Hok Hc _ IH]; [done|].
  pose proof (ram_call_spec w c Ho Hok) as Hs. rewrite Hc in Hs. apply IH, Hs.
Qed.

(** The blocks of RAMs are given back exactly once.  Whatever is constructed,
    moved and destroyed, no call gives back anything but the whole block of an
    object it ends or overwrites; a construction fails only for the size 0 or
    for want of memory.  A moved device has the bytes of the one it was moved
    from, which is left empty, and no other device changes.  When every device
    has been destroyed, no block is left. *)
Theorem ram_blocks_are_given_back_once l w c :
  lifetime no_objects l w -> call_ok w c ->
  match ram_call c w with
  | (Ok _, w') => owned w' /\ call_bytes w c w' /\ (rams w' = ∅ -> memory w' = ∅)
  | (Throw e, w') => w' = w /\ exists i size, c = Construct i size /\ construction_error size (memory w) e
  end.
Proof.
  intros Hl Hok. pose proof (ram_call_spec w c (lifetime_owned _ _ _ no_objects_owned Hl) Hok) as Hs.
  destruct (ram_call c w) as [[u|e] w']; [|done]. destruct Hs as [Ho Hb]. split_and!; [done..|].
  intros Hr. apply map_eq. intros a. rewrite lookup_empty. apply eq_None_not_Some. intros Ha.
  destruct (ow_all w' Ho a Ha) as [i Hi]. unfold owns, ram in Hi. by rewrite Hr, lookup_empty in Hi.
Qed.
End Lifetimes.

(** ** An example: mappings up to a limit of 64 bytes *)
#[local] Instance small_host : Allocator := {
  place_mapping size m := if size <=? 64 then Some (fresh (dom m)) else None;
  place_buffer size m := if size <=? 4096 then inr (fresh (dom m)) else inl (NoMemory "std::bad_alloc")
}.
#[local] Instance small_host_laws : AllocatorLaws.
Proof.
  assert (forall m : HostMemory, m !! fresh (dom m) = None) as Hf
    by (intros m; apply not_elem_of_dom, is_fresh).
  constructor; intros; cbn in *; destruct (size <=? _); simplify_eq; apply Hf.
Qed.

(** A mapped device is moved over one in a vector, and moved on. *)
Definition moves : list RamCall := [Construct 0 16; Construct 1 100; MoveAssign 1 0; MoveConstruct 2 1].
Fixpoint run_calls (l : list RamCall) (w : Objects) : Objects :=
  match l with [] => w | c :: l' => run_calls l' (ram_call c w).2 end.

Example moves_leave_one_block :
  let w := run_calls moves no_objects in
  size (memory w) = 1%nat /\ length (bytes_of w 2) = 16%nat /\ bytes_of w 0 = [] /\ bytes_of w 1 = [].
Proof. by vm_compute. Qed.

Example all_destroyed : memory (run_calls (moves ++ [Destroy 0; Destroy 1; Destroy 2]) no_objects) = ∅.
Proof. by vm_compute. Qed.
