(* ===== verification/Uart.v ===== *)
(** * The 16550-compatible UART (src/devices.cpp, src/devices.hpp)

    [UartDevice] with its receive FIFO, line, modem and interrupt registers.
    The backend the device was bound to is a value of a class [UartBackend]:
    [BufferUartBackend] (byte queues) and [FileUartBackend] (host streams). *)
From S2P Require Import Prelude RingBuffer Axi Memory.

(** ** Backends *)
Class UartBackend (B : Type) := {
  backend_try_read : B -> option Z * B;
  backend_write : Z -> B -> B;
  backend_flush : B -> B
}.

Record BufferUartBackend := { input_ : list Z; output_ : list Z }.

Definition buffer_push_input (bytes : list Z) (b : BufferUartBackend) : BufferUartBackend :=
  {| input_ := input_ b ++ bytes; output_ := output_ b |}.

#[export] Instance buffer_backend : UartBackend BufferUartBackend := {
  backend_try_read b :=
    match input_ b with
    | [] => (None, b)
    | byte :: rest => (Some byte, {| input_ := rest; output_ := output_ b |})
    end;
  backend_write byte b := {| input_ := input_ b; output_ := output_ b ++ [byte] |};
  backend_flush b := b
}.

(** What the host answers to one non-blocking probe of an open input stream:
    [poll] reports nothing, [fgetc] hits the end, or a byte is read. *)
Inductive HostInput := NotReady | EndOfFile | HostByte (byte : Z).

Record FileUartBackend := {
  file_input_ : option (list HostInput);      (* null, or the answers to come *)
  file_descriptor_valid : bool;               (* [input_descriptor_ >= 0] *)
  file_output_ : option (list Z);             (* null, or the bytes written *)
  file_flushed_ : nat                         (* bytes handed to the host *)
}.

#[export] Instance file_backend : UartBackend FileUartBackend := {
  backend_try_read b :=
    match file_input_ b with
    | None => (None, b)
    | Some answers =>
        if negb (file_descriptor_valid b) then (None, b)
        else match answers with
             | [] => (None, b)
             | answer :: rest =>
                 (match answer with HostByte byte => Some (u8 byte) | _ => None end,
                  {| file_input_ := Some rest;
                     file_descriptor_valid := file_descriptor_valid b;
                     file_output_ := file_output_ b; file_flushed_ := file_flushed_ b |})
             end
    end;
  backend_write byte b :=
    {| file_input_ := file_input_ b; file_descriptor_valid := file_descriptor_valid b;
       file_output_ := (fun o => o ++ [byte]) <$> file_output_ b;
       file_flushed_ := file_flushed_ b |};
  backend_flush b :=
    {| file_input_ := file_input_ b; file_descriptor_valid := file_descriptor_valid b;
       file_output_ := file_output_ b;
       file_flushed_ := match file_output_ b with Some o => length o | None => file_flushed_ b end |}
}.

(** ** The device *)
Definition LSR_DATA_READY : Z := 1.
Definition LSR_THR_EMPTY : Z := Z.shiftl 1 5.
Definition LSR_TRANSMITTER_EMPTY : Z := Z.shiftl 1 6.
Definition LCR_DLAB : Z := Z.shiftl 1 7.
Definition UART_REGISTER_SPAN : Z := 8.

Record UartDevice (B : Type) := mk_uart_device {
  backend_context_ : B;
  receive_fifo_ : RingBuffer Z;
  divisor_low_ : Z;
  divisor_high_ : Z;
  interrupt_enable_ : Z;
  line_control_ : Z;
  modem_control_ : Z;
  scratch_ : Z;
  fifo_control_ : Z;
  irq_ : Z;
  character_cycles_ : Z;
  receive_idle_cycles_ : Z;
  input_poll_cycles_ : Z;
  input_poll_remaining_ : Z;
  thre_pending_ : bool;
  tx_pending_ : bool;
  overrun_ : bool;
  modem_status_ : Z;
  modem_delta_ : Z
}.
Arguments backend_context_ {B} _.
Arguments receive_fifo_ {B} _.
Arguments divisor_low_ {B} _.
Arguments divisor_high_ {B} _.
Arguments interrupt_enable_ {B} _.
Arguments line_control_ {B} _.
Arguments modem_control_ {B} _.
Arguments scratch_ {B} _.
Arguments fifo_control_ {B} _.
Arguments irq_ {B} _.
Arguments character_cycles_ {B} _.
Arguments receive_idle_cycles_ {B} _.
Arguments input_poll_cycles_ {B} _.
Arguments input_poll_remaining_ {B} _.
Arguments thre_pending_ {B} _.
Arguments tx_pending_ {B} _.
Arguments overrun_ {B} _.
Arguments modem_status_ {B} _.
Arguments modem_delta_ {B} _.

#[export] Instance UartDevice_eta B : Eta (UartDevice B) := fun u =>
  mk_uart_device B (backend_context_ u) (receive_fifo_ u) (divisor_low_ u) (divisor_high_ u)
    (interrupt_enable_ u) (line_control_ u) (modem_control_ u) (scratch_ u) (fifo_control_ u)
    (irq_ u) (character_cycles_ u) (receive_idle_cycles_ u) (input_poll_cycles_ u)
    (input_poll_remaining_ u) (thre_pending_ u) (tx_pending_ u) (overrun_ u) (modem_status_ u)
    (modem_delta_ u).

Abbreviation FIFO_CAPACITY := 16%nat.

Section Uart.
Context {B : Type} `{!UartBackend B}.
Implicit Type u : UartDevice B.

(** [reset()] *)
Definition uart_reset u : UartDevice B :=
  u <| receive_fifo_ ::= rb_clear |>
    <| divisor_low_ := 0 |>
    <| divisor_high_ := 0 |>
    <| interrupt_enable_ := 0 |>
    <| line_control_ := 0 |>
    <| modem_control_ := 0 |>
    <| scratch_ := 0 |>
    <| fifo_control_ := 0 |>
    <| irq_ := 0 |>
    <| receive_idle_cycles_ := 0 |>
    <| input_poll_remaining_ := 0 |>
    <| thre_pending_ := true |>
    <| tx_pending_ := false |>
    <| overrun_ := false |>
    <| modem_status_ := 0xb0 |>
    <| modem_delta_ := 0 |>.

(** The constructors: the default member initializers, then [reset()]. *)
Definition mk_uart (backend : B) : UartDevice B :=
  uart_reset
    {| backend_context_ := backend; receive_fifo_ := rb_init FIFO_CAPACITY;
       divisor_low_ := 0; divisor_high_ := 0; interrupt_enable_ := 0; line_control_ := 0;
       modem_control_ := 0; scratch_ := 0; fifo_control_ := 0; irq_ := 0;
       character_cycles_ := 16; receive_idle_cycles_ := 0; input_poll_cycles_ := 1;
       input_poll_remaining_ := 0; thre_pending_ := true; tx_pending_ := false;
       overrun_ := false; modem_status_ := 0xb0; modem_delta_ := 0 |}.

Definition set_character_cycles (cycles : Z) u : result (UartDevice B) :=
  guard negb ((cycles =? 0) || (UINT64_MAX / 4 <? cycles))
    else InvalidArgument "UART character cycles out of range" in
  Ok (u <| character_cycles_ := cycles |>).

Definition set_input_poll_cycles (cycles : Z) u : result (UartDevice B) :=
  guard negb (cycles =? 0)
    else InvalidArgument "UART input poll cycles must be positive" in
  Ok (u <| input_poll_cycles_ := cycles |> <| input_poll_remaining_ := 0 |>).

(** [fifo_control_ & 1] *)
Definition fifo_enabled u : bool := nz (Z.land (fifo_control_ u) 1).
Definition fifo_capacity u : nat := if fifo_enabled u then 16 else 1.

Definition interrupt_identification u : Z :=
  let fifo_bits := if fifo_enabled u then 0xc0 else 0 in
  if nz (Z.land (interrupt_enable_ u) 4) && overrun_ u then Z.lor fifo_bits 0x06
  else
    let trigger := if fifo_enabled u
                   then [1; 4; 8; 14]%nat !!! Z.to_nat (Z.shiftr (fifo_control_ u) 6)
                   else 1%nat in
    if nz (Z.land (interrupt_enable_ u) 1) && (trigger <=? size_ (receive_fifo_ u))%nat
    then Z.lor fifo_bits 0x04
    else if nz (Z.land (interrupt_enable_ u) 1) && negb (rb_empty (receive_fifo_ u))
            && fifo_enabled u
            && (u64 (4 * character_cycles_ u) <=? receive_idle_cycles_ u)
    then Z.lor fifo_bits 0x0c
    else if nz (Z.land (interrupt_enable_ u) 2) && thre_pending_ u
    then Z.lor fifo_bits 0x02
    else if nz (Z.land (interrupt_enable_ u) 8) && nz (modem_delta_ u)
    then Z.lor fifo_bits 0x00
    else Z.lor fifo_bits 0x01.

Definition uart_settle u : UartDevice B :=
  u <| irq_ := b2z (Z.land (interrupt_identification u) 1 =? 0) |>.

(** The [while] loop of [poll_input]: every round adds a byte, so [fuel] equal
    to the capacity is enough. *)
Fixpoint poll_loop (fuel : nat) (capacity : nat) u : UartDevice B :=
  match fuel with
  | O => u
  | S fuel =>
      if (size_ (receive_fifo_ u) <? capacity)%nat then
        match backend_try_read (backend_context_ u) with
        | (None, b') =>
            u <| backend_context_ := b' |>
              <| input_poll_remaining_ :=
                   if input_poll_cycles_ u =? 1 then 0 else input_poll_cycles_ u |>
        | (Some value, b') =>
            let u := u <| backend_context_ := b' |> in
            let (pushed, fifo) := rb_push FIFO_CAPACITY value (receive_fifo_ u) in
            let u := u <| receive_fifo_ := fifo |> in
            if negb pushed then u
            else poll_loop fuel capacity (u <| receive_idle_cycles_ := 0 |>)
        end
      else u
  end.

Definition poll_input u : UartDevice B :=
  if nz (Z.land (modem_control_ u) 0x10) || negb (input_poll_remaining_ u =? 0) then u
  else poll_loop (S FIFO_CAPACITY) (fifo_capacity u) u.

(** The counters at the start of [tick()]. *)
Definition uart_advance u : UartDevice B :=
  let u := if negb (input_poll_remaining_ u =? 0)
           then u <| input_poll_remaining_ ::= (fun n => n - 1) |> else u in
  let u := if tx_pending_ u
           then u <| tx_pending_ := false |> <| thre_pending_ := true |> else u in
  if negb (rb_empty (receive_fifo_ u))
     && (receive_idle_cycles_ u <? u64 (4 * character_cycles_ u))
  then u <| receive_idle_cycles_ ::= (fun n => u64 (n + 1)) |> else u.

Definition uart_tick u : UartDevice B := uart_settle (poll_input (uart_advance u)).

Definition uart_read_register (index : Z) u : Z * UartDevice B :=
  if index =? 0 then
    if nz (Z.land (line_control_ u) LCR_DLAB) then (divisor_low_ u, u)
    else match rb_front (receive_fifo_ u), rb_pop FIFO_CAPACITY (receive_fifo_ u) with
         | Ok value, Ok fifo =>
             (value, u <| receive_fifo_ := fifo |> <| receive_idle_cycles_ := 0 |>)
         | _, _ => (0, u)                     (* [receive_fifo_.empty()] *)
         end
  else if index =? 1 then
    (if nz (Z.land (line_control_ u) LCR_DLAB) then divisor_high_ u else interrupt_enable_ u, u)
  else if index =? 2 then
    let value := interrupt_identification u in
    (value, if Z.land value 0x0f =? 2 then u <| thre_pending_ := false |> else u)
  else if index =? 3 then (line_control_ u, u)
  else if index =? 4 then (modem_control_ u, u)
  else if index =? 5 then
    (Z.lor (Z.lor (if tx_pending_ u then 0 else Z.lor LSR_THR_EMPTY LSR_TRANSMITTER_EMPTY)
                  (if overrun_ u then 2 else 0))
           (if rb_empty (receive_fifo_ u) then 0 else LSR_DATA_READY),
     u <| overrun_ := false |>)
  else if index =? 6 then
    (Z.lor (modem_status_ u) (modem_delta_ u), u <| modem_delta_ := 0 |>)
  else if index =? 7 then (scratch_ u, u)
  else (0, u).

Definition transmit (value : Z) u : UartDevice B :=
  let u := u <| thre_pending_ := false |> <| tx_pending_ := true |> in
  if nz (Z.land (modem_control_ u) 0x10) then
    let u := if (fifo_capacity u <=? size_ (receive_fifo_ u))%nat
             then u <| overrun_ := true |>
             else u <| receive_fifo_ := (rb_push FIFO_CAPACITY value (receive_fifo_ u)).2 |> in
    u <| receive_idle_cycles_ := 0 |>
  else u <| backend_context_ := backend_flush (backend_write value (backend_context_ u)) |>.

Definition set_modem_control (value : Z) u : UartDevice B :=
  let previous := modem_status_ u in
  let status :=
    if Z.land value 0x10 =? 0 then 0xb0
    else Z.lor (Z.lor (Z.lor (Z.shiftl (Z.land value 2) 3) (Z.shiftl (Z.land value 1) 5))
                      (Z.shiftl (Z.land value 4) 4))
               (Z.shiftl (Z.land value 8) 4) in
  let changed := Z.shiftr (Z.lxor previous status) 4 in
  u <| modem_control_ := Z.land value 0x1f |>
    <| modem_status_ := status |>
    <| modem_delta_ ::= (fun d =>
         Z.lor d (Z.lor (Z.land changed 0x0b)
                        (if nz (Z.land previous 0x40) && negb (nz (Z.land status 0x40))
                         then 4 else 0))) |>.

Definition uart_write_register (index value : Z) u : UartDevice B :=
  if index =? 0 then
    if nz (Z.land (line_control_ u) LCR_DLAB) then u <| divisor_low_ := value |>
    else transmit value u
  else if index =? 1 then
    if nz (Z.land (line_control_ u) LCR_DLAB) then u <| divisor_high_ := value |>
    else
      let u := if nz (Z.land value 2) && (Z.land (interrupt_enable_ u) 2 =? 0)
                  && negb (tx_pending_ u)
               then u <| thre_pending_ := true |> else u in
      u <| interrupt_enable_ := Z.land value 0x0f |>
  else if index =? 2 then
    let u := if nz (Z.land value 0x02) || nz (Z.land (Z.lxor value (fifo_control_ u)) 1)
             then u <| receive_fifo_ ::= rb_clear |> <| receive_idle_cycles_ := 0 |> else u in
    let u := if nz (Z.land value 0x04)
             then u <| tx_pending_ := false |> <| thre_pending_ := true |> else u in
    u <| fifo_control_ := Z.land value 0xc9 |>
  else if index =? 3 then u <| line_control_ := value |>
  else if index =? 4 then set_modem_control value u
  else if (index =? 5) || (index =? 6) then u
  else if index =? 7 then u <| scratch_ := value |>
  else u.

(** The lane loops of [read_impl] and [write_impl]. *)
Fixpoint uart_read_lanes (lanes : list nat) (offset : Z) (enable : list Z) (data : list Z) u
  : list Z * UartDevice B :=
  match lanes with
  | [] => (data, u)
  | lane :: lanes' =>
      if nz (enable !!! lane) then
        let (value, u') := uart_read_register (offset + Z.of_nat lane) u in
        uart_read_lanes lanes' offset enable (<[lane := value]> data) u'
      else uart_read_lanes lanes' offset enable data u
  end.

Definition uart_read (offset : Z) (data enable : list Z) u : Response * list Z * UartDevice B :=
  if negb (in_bounds offset (Z.of_nat (length data)) UART_REGISTER_SPAN)
  then (SlaveError, data, u)
  else
    let '(data', u') := uart_read_lanes (seq 0 (length data)) offset enable data (poll_input u) in
    (Okay, data', uart_settle u').

Fixpoint uart_write_lanes (lanes : list nat) (offset : Z) (strobe data : list Z) u
  : UartDevice B :=
  match lanes with
  | [] => u
  | lane :: lanes' =>
      uart_write_lanes lanes' offset strobe data
        (if nz (strobe !!! lane)
         then uart_write_register (offset + Z.of_nat lane) (data !!! lane) u else u)
  end.

Definition uart_write (offset : Z) (data strobe : list Z) u : Response * UartDevice B :=
  if negb (in_bounds offset (Z.of_nat (length data)) UART_REGISTER_SPAN)
  then (SlaveError, u)
  else (Okay, uart_settle (uart_write_lanes (seq 0 (length data)) offset strobe data u)).
End Uart.

(** What the device relies on from its backend: bytes are bytes. *)
Class UartBackendLaws (B : Type) `{!UartBackend B} := {
  backend_ok : B -> Prop;
  try_read_ok b : backend_ok b ->
    backend_ok (backend_try_read b).2 /\
    match (backend_try_read b).1 with Some v => fits 8 v | None => True end;
  write_ok v b : backend_ok b -> fits 8 v -> backend_ok (backend_write v b);
  flush_ok b : backend_ok b -> backend_ok (backend_flush b)
}.

#[export] Instance buffer_backend_laws : UartBackendLaws BufferUartBackend.
Proof.
  refine {| backend_ok b := Forall (fits 8) (input_ b) |}.
  - intros [[|x i] o] Hok; simpl in *; [done|]. apply Forall_cons in Hok. naive_solver.
  - done.
  - done.
Defined.

#[export] Instance file_backend_laws : UartBackendLaws FileUartBackend.
Proof.
  refine {| backend_ok b := True |}.
  - intros [[answers|] [|] o f] _; simpl; try done.
    destruct answers as [|[| |x] rest]; simpl; try done. split; [done|]. by apply wrap_fits.
  - done.
  - done.
Defined.

Lemma land_mask_bound v m : 0 <= m -> 0 <= Z.land v m <= m.
Proof.
  intros Hm. rewrite Z.land_comm. split; [apply Z.land_nonneg; by left|].
  assert (Z.land (Z.ldiff m v) (Z.land m v) = 0) as Hd.
  { apply Z.bits_inj'. intros n _. rewrite !Z.land_spec, Z.ldiff_spec, Z.bits_0.
    by destruct (Z.testbit m n), (Z.testbit v n). }
  pose proof (Z.lor_ldiff_and m v) as Hl.
  rewrite <- Z.lxor_lor, <- Z.add_nocarry_lxor in Hl by done.
  assert (0 <= Z.ldiff m v) by (apply Z.ldiff_nonneg; by left). lia.
Qed.

Lemma land_one_lxor v w :
  nz (Z.land (Z.lxor v w) 1) = false -> nz (Z.land w 1) = nz (Z.land v 1).
Proof.
  rewrite !nz_false. intros Hx.
  assert (Z.testbit (Z.land (Z.lxor v w) 1) 0 = false) as Hb by (rewrite Hx; done).
  rewrite Z.land_spec, Z.lxor_spec in Hb. change (Z.testbit 1 0) with true in Hb.
  rewrite andb_true_r in Hb.
  unfold nz. f_equal. change 1 with (Z.ones 1). rewrite !Z.land_ones by lia.
  rewrite <- !Z.bit0_mod. destruct (Z.testbit v 0), (Z.testbit w 0); done.
Qed.

Lemma land_c9_bit0 v : nz (Z.land (Z.land v 0xc9) 1) = nz (Z.land v 1).
Proof. by rewrite <- Z.land_assoc. Qed.

Section UartFacts.
Context {B : Type} `{!UartBackend B} `{!UartBackendLaws B}.
Implicit Type u : UartDevice B.

(** ** The state invariant *)
Record uart_wf u : Prop := {
  wf_backend : backend_ok (backend_context_ u);
  wf_fifo : rb_wf FIFO_CAPACITY (receive_fifo_ u);
  wf_fifo_size : (size_ (receive_fifo_ u) <= fifo_capacity u)%nat;
  wf_fifo_bytes : Forall (fits 8) (rb_list FIFO_CAPACITY (receive_fifo_ u));
  wf_divisor_low : fits 8 (divisor_low_ u);
  wf_divisor_high : fits 8 (divisor_high_ u);
  wf_interrupt_enable : 0 <= interrupt_enable_ u <= 0x0f;
  wf_line_control : fits 8 (line_control_ u);
  wf_modem_control : 0 <= modem_control_ u <= 0x1f;
  wf_scratch : fits 8 (scratch_ u);
  wf_fifo_control : 0 <= fifo_control_ u <= 0xc9;
  wf_idle : fits 64 (receive_idle_cycles_ u);
  wf_remaining : fits 64 (input_poll_remaining_ u);
  wf_poll : 1 <= input_poll_cycles_ u <= UINT64_MAX
}.

(** The enabled and pending interrupt sources, in the order of priority. *)
Definition rx_trigger u : nat :=
  if fifo_enabled u then [1; 4; 8; 14]%nat !!! Z.to_nat (Z.shiftr (fifo_control_ u) 6) else 1%nat.
Definition irq_line_status u : bool := nz (Z.land (interrupt_enable_ u) 4) && overrun_ u.
Definition irq_rx_data u : bool :=
  nz (Z.land (interrupt_enable_ u) 1) && (rx_trigger u <=? size_ (receive_fifo_ u))%nat.
Definition irq_rx_timeout u : bool :=
  nz (Z.land (interrupt_enable_ u) 1) && negb (rb_empty (receive_fifo_ u)) && fifo_enabled u
  && (u64 (4 * character_cycles_ u) <=? receive_idle_cycles_ u).
Definition irq_thre u : bool := nz (Z.land (interrupt_enable_ u) 2) && thre_pending_ u.
Definition irq_modem u : bool := nz (Z.land (interrupt_enable_ u) 8) && nz (modem_delta_ u).
Definition irq_pending u : bool :=
  irq_line_status u || irq_rx_data u || irq_rx_timeout u || irq_thre u || irq_modem u.

(** The low nibble of IIR: the identification of the highest priority. *)
Definition iir_id u : Z :=
  if irq_line_status u then 6 else if irq_rx_data u then 4 else if irq_rx_timeout u then 12
  else if irq_thre u then 2 else if irq_modem u then 0 else 1.

Lemma interrupt_identification_eq u :
  interrupt_identification u = Z.lor (if fifo_enabled u then 0xc0 else 0) (iir_id u).
Proof.
  unfold interrupt_identification, iir_id, irq_line_status, irq_rx_data, irq_rx_timeout,
    irq_thre, irq_modem, rx_trigger.
  repeat (match goal with |- context [if ?c then _ else _] =>
    match c with context [nz _ && _] => destruct c end end; [done|]).
  done.
Qed.

Lemma settle_irq u : irq_ (uart_settle u) = b2z (irq_pending u).
Proof.
  unfold uart_settle. simpl. rewrite interrupt_identification_eq. unfold iir_id, irq_pending.
  destruct (irq_line_status u), (irq_rx_data u), (irq_rx_timeout u), (irq_thre u), (irq_modem u),
    (fifo_enabled u); done.
Qed.

(** The bits a settled device shows: irq follows the sources. *)
Definition irq_consistent u : Prop := irq_ u = b2z (irq_pending u).

Lemma settle_consistent u : irq_consistent (uart_settle u).
Proof. unfold irq_consistent. rewrite settle_irq. done. Qed.

(** ** Preservation *)
Lemma settle_wf u : uart_wf u -> uart_wf (uart_settle u).
Proof. intros []; by constructor. Qed.

Lemma reset_wf u :
  backend_ok (backend_context_ u) -> rb_wf FIFO_CAPACITY (receive_fifo_ u) ->
  1 <= input_poll_cycles_ u <= UINT64_MAX -> uart_wf (uart_reset u).
Proof.
  intros Hb Hf Hp. pose proof (rb_clear_spec FIFO_CAPACITY _ Hf) as [Hw Hl].
  constructor; simpl; try (unfold fits; lia); done.
Qed.

Lemma mk_uart_wf b : backend_ok b -> uart_wf (mk_uart b).
Proof.
  intros Hb. apply reset_wf; simpl; [done | | unfold UINT64_MAX; lia].
  by apply rb_init_spec; lia.
Qed.

(** Pushing a byte the capacity allows. *)
Lemma push_wf u v :
  uart_wf u -> fits 8 v -> (size_ (receive_fifo_ u) < fifo_capacity u)%nat ->
  exists fifo, rb_push FIFO_CAPACITY v (receive_fifo_ u) = (true, fifo) /\
    rb_list FIFO_CAPACITY fifo = rb_list FIFO_CAPACITY (receive_fifo_ u) ++ [v] /\
    size_ fifo = S (size_ (receive_fifo_ u)) /\
    uart_wf (u <| receive_fifo_ := fifo |>).
Proof.
  intros Hu Hv Hs. pose proof (rb_push_spec FIFO_CAPACITY (receive_fifo_ u) v (wf_fifo u Hu)) as Hp.
  assert (fifo_capacity u <= 16)%nat by (unfold fifo_capacity; destruct (fifo_enabled u); lia).
  assert (rb_full FIFO_CAPACITY (receive_fifo_ u) = false) as Hf.
  { unfold rb_full. apply Nat.eqb_neq. lia. }
  rewrite Hf in Hp. destruct (rb_push _ v _) as [ok fifo]. destruct Hp as (Hw & -> & Hl).
  simpl in Hl. assert (size_ fifo = S (size_ (receive_fifo_ u))) as Hsz.
  { rewrite <- !(rb_list_length FIFO_CAPACITY), Hl, length_app. simpl. lia. }
  exists fifo. split; [done|]. split; [done|]. split; [done|].
  destruct Hu; constructor; simpl; try done.
  - unfold fifo_capacity, fifo_enabled in *. simpl. lia.
  - rewrite Hl. apply Forall_app. auto.
Qed.

(** Changes that leave the FIFO and its capacity alone. *)
Lemma set_backend_wf u b : uart_wf u -> backend_ok b -> uart_wf (u <| backend_context_ := b |>).
Proof. intros [] ?; by constructor. Qed.
Lemma set_idle_wf u n : uart_wf u -> fits 64 n -> uart_wf (u <| receive_idle_cycles_ := n |>).
Proof. intros [] ?; by constructor. Qed.
Lemma set_remaining_wf u n : uart_wf u -> fits 64 n -> uart_wf (u <| input_poll_remaining_ := n |>).
Proof. intros [] ?; by constructor. Qed.

Lemma poll_loop_wf fuel u : uart_wf u -> uart_wf (poll_loop fuel (fifo_capacity u) u).
Proof.
  revert u. induction fuel as [|fuel IH]; intros u Hu; [done|]. cbn [poll_loop].
  destruct (Nat.ltb_spec (size_ (receive_fifo_ u)) (fifo_capacity u)) as [Hs|]; [|done].
  destruct (try_read_ok _ (wf_backend u Hu)) as [Hb Hv].
  destruct (backend_try_read (backend_context_ u)) as [[v|] b']; simpl in Hb, Hv.
  - apply (set_backend_wf u b') in Hu; [|done].
    destruct (push_wf _ v Hu Hv Hs) as (fifo & Hpush & _ & _ & Hw).
    cbv zeta. rewrite Hpush. cbn [negb].
    apply (IH _ (set_idle_wf _ 0 Hw ltac:(unfold fits; lia))).
  - apply set_remaining_wf; [by apply set_backend_wf|].
    destruct Hu. unfold fits, UINT64_MAX in *. case_match; lia.
Qed.

Lemma poll_input_wf u : uart_wf u -> uart_wf (poll_input u).
Proof. intros Hu. unfold poll_input. case_match; [done | by apply poll_loop_wf]. Qed.

Lemma advance_wf u : uart_wf u -> uart_wf (uart_advance u).
Proof.
  intros Hu. unfold uart_advance.
  set (u1 := if negb (input_poll_remaining_ u =? 0) then _ else u).
  assert (uart_wf u1) as H1.
  { unfold u1. destruct (Z.eqb_spec (input_poll_remaining_ u) 0); [done|].
    apply (set_remaining_wf u); [done|]. destruct Hu. unfold fits in *. lia. }
  set (u2 := if tx_pending_ u1 then _ else u1).
  assert (uart_wf u2) as H2 by (unfold u2; case_match; [destruct H1; by constructor | done]).
  cbv zeta. case_match; [|done]. apply (set_idle_wf u2); [done|]. apply u64_fits.
Qed.

Lemma advance_frame u :
  exists idle tx thre,
    uart_advance u =
    u <| input_poll_remaining_ := if input_poll_remaining_ u =? 0 then 0
                                  else input_poll_remaining_ u - 1 |>
      <| tx_pending_ := tx |> <| thre_pending_ := thre |> <| receive_idle_cycles_ := idle |>.
Proof.
  unfold uart_advance. destruct u; simpl.
  destruct (Z.eqb_spec input_poll_remaining_0 0) as [->|]; simpl; destruct tx_pending_0; simpl;
    destruct (negb _ && _); simpl; eexists _, _, _; reflexivity.
Qed.

Lemma tick_wf u : uart_wf u -> uart_wf (uart_tick u).
Proof. intros Hu. by apply settle_wf, poll_input_wf, advance_wf. Qed.

Lemma read_register_wf i u :
  uart_wf u -> uart_wf (uart_read_register i u).2.
Proof.
  intros Hu. unfold uart_read_register.
  repeat (case_match; simpl; try done); try (destruct Hu; by constructor).
  - pose proof (rb_pop_spec FIFO_CAPACITY _ (wf_fifo u Hu)) as Hp.
    destruct (rb_list FIFO_CAPACITY (receive_fifo_ u)) as [|v q] eqn:Hq; [congruence|].
    destruct Hp as (rb & Hrb & Hw & Hl).
    assert (rb = a0) as -> by congruence. subst q.
    pose proof (wf_fifo_bytes u Hu) as Hby. rewrite Hq in Hby. apply Forall_cons in Hby as [_ Hby].
    pose proof (f_equal length Hq) as Hlen. simpl in Hlen. rewrite !rb_list_length in Hlen.
    destruct Hu; constructor; simpl; try done.
    unfold fifo_capacity, fifo_enabled in *. simpl. lia.
Qed.

Lemma transmit_wf v u : uart_wf u -> fits 8 v -> uart_wf (transmit v u).
Proof.
  intros Hu Hv. unfold transmit.
  set (u1 := u <| thre_pending_ := false |> <| tx_pending_ := true |>).
  assert (uart_wf u1) as H1 by (destruct Hu; by constructor).
  case_match.
  - apply set_idle_wf; [|by unfold fits].
    destruct (Nat.leb_spec (fifo_capacity u1) (size_ (receive_fifo_ u1))).
    + destruct H1; by constructor.
    + destruct (push_wf u1 v) as (fifo & -> & _ & _ & Hw); done.
  - apply set_backend_wf; [done|]. apply flush_ok, write_ok; [|done]. by apply wf_backend.
Qed.

Lemma fifo_control_wf v u :
  uart_wf u -> fits 8 v -> uart_wf (uart_write_register 2 v u).
Proof.
  intros Hu Hv. unfold uart_write_register. cbn [Z.eqb].
  set (u1 := if nz (Z.land v 2) || _ then _ else u).
  set (u2 := if nz (Z.land v 4) then _ else u1).
  assert (uart_wf u1 /\ (nz (Z.land v 1) <> fifo_enabled u -> size_ (receive_fifo_ u1) = 0%nat)
          /\ fifo_control_ u1 = fifo_control_ u) as (H1 & Hs & Hc).
  { unfold u1. destruct (nz (Z.land v 2) || _) eqn:E.
    - split; [|done]. destruct (rb_clear_spec FIFO_CAPACITY _ (wf_fifo u Hu)) as [Hw Hl].
      destruct Hu; constructor; simpl; try done; lia.
    - split; [done|]. split; [|done]. apply orb_false_iff in E as [_ E].
      apply land_one_lxor in E. unfold fifo_enabled. congruence. }
  assert (uart_wf u2 /\ receive_fifo_ u2 = receive_fifo_ u1 /\ fifo_control_ u2 = fifo_control_ u)
    as (H2 & Hr & Hc2).
  { unfold u2. case_match; [|done]. split; [destruct H1; by constructor | done]. }
  pose proof (wf_fifo_size u2 H2) as Hsz.
  destruct H2; constructor; simpl; try done; [|apply land_mask_bound; lia].
  unfold fifo_capacity, fifo_enabled in *. simpl. rewrite land_c9_bit0, Hc2 in *.
  rewrite Hr in *. destruct (nz (Z.land v 1)), (nz (Z.land (fifo_control_ u) 1)); try done.
  - lia.
  - rewrite Hs by done. lia.
Qed.

Lemma write_register_wf i v u :
  uart_wf u -> fits 8 v -> uart_wf (uart_write_register i v u).
Proof.
  intros Hu Hv. destruct (Z.eqb_spec i 2) as [->|Hne]; [by apply fifo_control_wf|].
  unfold uart_write_register.
  repeat (case_match; simpl; try done); try lia; try (by apply transmit_wf);
    try (destruct Hu; constructor; simpl; try done; apply land_mask_bound; lia).
Qed.

Lemma read_lanes_wf lanes off en data u :
  uart_wf u -> uart_wf (uart_read_lanes lanes off en data u).2.
Proof.
  revert data u. induction lanes as [|lane lanes IH]; intros data u Hu; [done|]. simpl.
  case_match; [|by apply IH].
  pose proof (read_register_wf (off + Z.of_nat lane) u Hu) as Hr.
  destruct (uart_read_register _ u) as [v u']. by apply IH.
Qed.

Lemma write_lanes_wf lanes off st data u :
  uart_wf u -> Forall (fits 8) data -> uart_wf (uart_write_lanes lanes off st data u).
Proof.
  intros Hu Hd. revert u Hu. induction lanes as [|lane lanes IH]; intros u Hu; [done|]. simpl.
  apply IH. case_match; [|done]. apply write_register_wf; [done|].
  destruct (data !! lane) as [v|] eqn:E.
  - rewrite (list_lookup_total_correct _ _ _ E). by eapply Forall_lookup.
  - rewrite list_lookup_total_alt, E. by unfold fits.
Qed.

(** ** Runs of the device *)
Inductive uart_step : UartDevice B -> UartDevice B -> Prop :=
| step_tick u : uart_step u (uart_tick u)
| step_settle u : uart_step u (uart_settle u)
| step_reset u : uart_step u (uart_reset u)
| step_read u off data en : uart_step u (uart_read off data en u).2
| step_write u off data st :
    Forall (fits 8) data -> uart_step u (uart_write off data st u).2.

Lemma uart_step_invariant u u' :
  uart_wf u /\ irq_consistent u -> uart_step u u' -> uart_wf u' /\ irq_consistent u'.
Proof.
  intros [Hu Hi] Hs. destruct Hs.
  - split; [by apply tick_wf | apply settle_consistent].
  - split; [by apply settle_wf | apply settle_consistent].
  - split; [apply reset_wf; apply Hu | done].
  - unfold uart_read. destruct (in_bounds _ _ _); [cbn [negb]|done].
    pose proof (read_lanes_wf (seq 0 (length data)) off en data _ (poll_input_wf _ Hu)) as Hw.
    destruct (uart_read_lanes _ _ _ _ _) as [d v]. simpl.
    split; [by apply settle_wf | apply settle_consistent].
  - unfold uart_write. destruct (in_bounds _ _ _); [cbn [negb]|done].
    split; [by apply settle_wf, write_lanes_wf | apply settle_consistent].
Qed.

(** C37: in every state a UART can reach from construction through ticks,
    settles, resets and bus reads and writes of bytes, the registers stay in
    range, the receive FIFO is a well-formed ring that never holds more than
    its configured capacity (16 bytes with FIFOs enabled, 1 without) and the
    [irq] output is high exactly when an enabled interrupt source is pending. *)
Theorem uart_reachable_invariant (b : B) u :
  backend_ok b -> rtc uart_step (mk_uart b) u -> uart_wf u /\ irq_consistent u.
Proof.
  intros Hb. apply (rtc_invariant _ (fun u => uart_wf u /\ irq_consistent u)).
  - apply uart_step_invariant.
  - split; [by apply mk_uart_wf | done].
Qed.

(** The interrupt identification register reports the pending source of
    the highest priority (overrun, receive data, receive timeout, transmitter
    empty, modem status, in this order) and 1 when none is pending, with the
    two FIFO bits set exactly when FIFOs are enabled; reading it acknowledges
    the transmitter interrupt exactly when it is the source reported. *)
Theorem iir_reports_highest_priority u :
  let '(v, u') := uart_read_register 2 u in
  v = (if fifo_enabled u then 0xc0 else 0) + iir_id u /\
  (Z.land v 1 = 0 <-> irq_pending u = true) /\
  u' = (if iir_id u =? 2 then u <| thre_pending_ := false |> else u).
Proof.
  simpl. rewrite interrupt_identification_eq. unfold iir_id, irq_pending.
  destruct (irq_line_status u), (irq_rx_data u), (irq_rx_timeout u), (irq_thre u), (irq_modem u),
    (fifo_enabled u); done.
Qed.

(** ** Polling *)
Lemma poll_loop_frame fuel c u :
  exists b fifo idle rem,
    poll_loop fuel c u =
    u <| backend_context_ := b |> <| receive_fifo_ := fifo |>
      <| receive_idle_cycles_ := idle |> <| input_poll_remaining_ := rem |>.
Proof.
  revert u. induction fuel as [|fuel IH]; intros u.
  { destruct u. simpl. eexists _, _, _, _. reflexivity. }
  cbn [poll_loop]. destruct (_ <? c)%nat.
  2:{ destruct u. simpl. eexists _, _, _, _. reflexivity. }
  destruct (backend_try_read _) as [[v|] b].
  2:{ destruct u. simpl. eexists _, _, _, _. reflexivity. }
  cbv zeta. destruct (rb_push _ v _) as [[|] fifo]; cbn [negb].
  - edestruct IH as (? & ? & ? & ? & ->). destruct u. simpl. eexists _, _, _, _. reflexivity.
  - destruct u. simpl. eexists _, _, _, _. reflexivity.
Qed.

(** Any two amounts of fuel beyond the free room give the same result. *)
Lemma poll_loop_fuel f1 f2 c u :
  uart_wf u -> (c <= FIFO_CAPACITY)%nat ->
  (c - size_ (receive_fifo_ u) < f1)%nat -> (c - size_ (receive_fifo_ u) < f2)%nat ->
  poll_loop f1 c u = poll_loop f2 c u.
Proof.
  intros Hu Hc. pose proof (wf_fifo u Hu) as Hw. clear Hu. revert f2 u Hw.
  induction f1 as [|f1 IH]; intros [|f2] u Hw H1 H2; try lia. cbn [poll_loop].
  destruct (Nat.ltb_spec (size_ (receive_fifo_ u)) c); [|done].
  destruct (backend_try_read _) as [[v|] b]; [|done]. cbv zeta. cbn [receive_fifo_ update].
  pose proof (rb_push_spec FIFO_CAPACITY _ v Hw) as Hp.
  destruct (rb_push _ v _) as [[|] fifo]; [|done]. destruct Hp as (Hw' & _ & Hl).
  assert (size_ fifo = S (size_ (receive_fifo_ u))) as Hsz.
  { rewrite <- !(rb_list_length FIFO_CAPACITY), Hl, length_app. simpl. lia. }
  cbn [negb]. apply IH; simpl; [done | lia..].
Qed.

Lemma poll_input_waits u : input_poll_remaining_ u <> 0 -> poll_input u = u.
Proof.
  intros Hr. unfold poll_input. destruct (Z.eqb_spec (input_poll_remaining_ u) 0); [done|].
  by rewrite orb_true_r.
Qed.

Lemma tick_waits u :
  1 < input_poll_remaining_ u ->
  backend_context_ (uart_tick u) = backend_context_ u /\
  input_poll_remaining_ (uart_tick u) = input_poll_remaining_ u - 1.
Proof.
  intros Hr. unfold uart_tick. destruct (advance_frame u) as (idle & tx & thre & ->).
  destruct (Z.eqb_spec (input_poll_remaining_ u) 0); [lia|].
  by rewrite poll_input_waits by (simpl; lia).
Qed.

Lemma read_register_backend i u :
  backend_context_ (uart_read_register i u).2 = backend_context_ u.
Proof. unfold uart_read_register. repeat (case_match; simpl; try done). Qed.

Lemma read_lanes_backend lanes off en data u :
  backend_context_ (uart_read_lanes lanes off en data u).2 = backend_context_ u.
Proof.
  revert data u. induction lanes as [|lane lanes IH]; intros data u; [done|]. simpl.
  case_match; [|apply IH].
  pose proof (read_register_backend (off + Z.of_nat lane) u) as Hc.
  destruct (uart_read_register _ u) as [v u']. simpl in Hc. rewrite <- Hc. apply IH.
Qed.

(** Back-off.  After an empty host read the device waits
    [input_poll_cycles_] active cycles (unless that is 1, immediate polling):
    no tick before the last one of the wait, and no guest read during it,
    asks the backend for input. *)
Theorem uart_backs_off_empty_input u k off data en :
  input_poll_remaining_ u = input_poll_cycles_ u ->
  Z.of_nat k < input_poll_cycles_ u ->
  let v := Nat.iter k uart_tick u in
  backend_context_ v = backend_context_ u /\
  input_poll_remaining_ v = input_poll_cycles_ u - Z.of_nat k /\
  backend_context_ (uart_read off data en v).2 = backend_context_ u.
Proof.
  intros Hr Hk v.
  assert (backend_context_ v = backend_context_ u /\
          input_poll_remaining_ v = input_poll_cycles_ u - Z.of_nat k) as [Hb Hrem].
  { unfold v. clear v. induction k as [|k IH]; [simpl; split; [done | lia]|].
    destruct IH as [IHb IHr]; [lia|]. simpl Nat.iter.
    destruct (tick_waits (Nat.iter k uart_tick u)) as [-> ->]; [lia|]. split; [done | lia]. }
  split; [done|]. split; [done|]. rewrite <- Hb. unfold uart_read.
  rewrite poll_input_waits by lia. case_match; [done|].
  pose proof (read_lanes_backend (seq 0 (length data)) off en data v) as Hl.
  by destruct (uart_read_lanes _ _ _ _ v).
Qed.
End UartFacts.

(** ** Reception over a byte-queue backend *)
Section Reception.
Implicit Type u : UartDevice BufferUartBackend.

(** The bytes the guest has still to see, oldest first. *)
Definition pending_rx u : list Z :=
  rb_list FIFO_CAPACITY (receive_fifo_ u) ++ input_ (backend_context_ u).

Lemma poll_loop_pending fuel u :
  uart_wf u -> pending_rx (poll_loop fuel (fifo_capacity u) u) = pending_rx u.
Proof.
  revert u. induction fuel as [|fuel IH]; intros u Hu; [done|]. cbn [poll_loop].
  destruct (Nat.ltb_spec (size_ (receive_fifo_ u)) (fifo_capacity u)) as [Hs|]; [|done].
  pose proof (wf_backend u Hu) as Hb. simpl in Hb.
  cbn [backend_try_read buffer_backend].
  destruct (input_ (backend_context_ u)) as [|v rest] eqn:Hin; [done|].
  apply Forall_cons in Hb as [Hv Hrest]. cbv zeta.
  set (b' := {| input_ := rest; output_ := output_ (backend_context_ u) |}).
  assert (uart_wf (u <| backend_context_ := b' |>)) as Hu' by by apply set_backend_wf.
  destruct (push_wf _ v Hu' Hv Hs) as (fifo & Hpush & Hl & _ & Hw).
  rewrite Hpush. cbn [negb].
  assert (uart_wf (u <| backend_context_ := b' |> <| receive_fifo_ := fifo |>
                     <| receive_idle_cycles_ := 0 |>)) as Hw0
    by (apply (set_idle_wf _ 0 Hw); by unfold fits).
  etransitivity; [exact (IH _ Hw0)|]. unfold pending_rx. simpl. rewrite Hin. simpl in Hl.
  by rewrite Hl, <- app_assoc.
Qed.

Lemma poll_loop_grows fuel u :
  uart_wf u -> exists l, rb_list FIFO_CAPACITY (receive_fifo_ (poll_loop fuel (fifo_capacity u) u))
                         = rb_list FIFO_CAPACITY (receive_fifo_ u) ++ l.
Proof.
  revert u. induction fuel as [|fuel IH]; intros u Hu; [exists []; by rewrite app_nil_r|].
  cbn [poll_loop].
  destruct (Nat.ltb_spec (size_ (receive_fifo_ u)) (fifo_capacity u)) as [Hs|];
    [|exists []; by rewrite app_nil_r].
  destruct (try_read_ok _ (wf_backend u Hu)) as [Hb Hv].
  destruct (backend_try_read (backend_context_ u)) as [[v|] b']; simpl in Hv;
    [|exists []; by rewrite app_nil_r].
  assert (uart_wf (u <| backend_context_ := b' |>)) as Hu' by by apply set_backend_wf.
  destruct (push_wf _ v Hu' Hv Hs) as (fifo & Hpush & Hl & _ & Hw). cbv zeta.
  rewrite Hpush. cbn [negb].
  destruct (IH _ (set_idle_wf _ 0 Hw ltac:(by unfold fits))) as [l Hlist].
  exists (v :: l). etransitivity; [exact Hlist|]. simpl in *. by rewrite Hl, <- app_assoc.
Qed.

Lemma poll_input_nonempty u :
  uart_wf u -> rb_list FIFO_CAPACITY (receive_fifo_ u) <> [] ->
  rb_list FIFO_CAPACITY (receive_fifo_ (poll_input u)) <> [].
Proof.
  intros Hu Hne. unfold poll_input. case_match; [done|].
  destruct (poll_loop_grows (S FIFO_CAPACITY) u Hu) as [l ->].
  by destruct (rb_list FIFO_CAPACITY (receive_fifo_ u)).
Qed.

Lemma poll_input_pending u : uart_wf u -> pending_rx (poll_input u) = pending_rx u.
Proof. intros. unfold poll_input. case_match; [done | by apply poll_loop_pending]. Qed.

Lemma tick_pending u : uart_wf u -> pending_rx (uart_tick u) = pending_rx u.
Proof.
  intros Hu. change (pending_rx (uart_tick u)) with (pending_rx (poll_input (uart_advance u))).
  rewrite poll_input_pending by by apply advance_wf.
  by destruct (advance_frame u) as (? & ? & ? & ->).
Qed.

Lemma poll_input_line_control u : line_control_ (poll_input u) = line_control_ u.
Proof.
  unfold poll_input. case_match; [done|].
  destruct (poll_loop_frame (S FIFO_CAPACITY) (fifo_capacity u) u) as (? & ? & ? & ? & ->). done.
Qed.

(** One byte-wide access to a register. *)
Definition read_byte (i : Z) u : Z * UartDevice BufferUartBackend :=
  let '(_, data, u') := uart_read i [0] [1] u in (data !!! 0%nat, u').

Lemma read_byte_eq i u :
  0 <= i < 8 ->
  read_byte i u =
    let '(v, u') := uart_read_register i (poll_input u) in (v, uart_settle u').
Proof.
  intros Hi. unfold read_byte, uart_read.
  replace (in_bounds i _ UART_REGISTER_SPAN) with true
    by (symmetry; apply in_bounds_spec; unfold UART_REGISTER_SPAN; simpl; lia).
  simpl. rewrite Z.add_0_r. by destruct (uart_read_register i (poll_input u)).
Qed.

(** A polling driver: let the device tick, or read LSR and, when DR is set,
    the receive register. *)
Inductive driver_op := DriverTick | DriverPoll.

Definition driver_step (op : driver_op) u : list Z * UartDevice BufferUartBackend :=
  match op with
  | DriverTick => ([], uart_tick u)
  | DriverPoll =>
      let (lsr, u') := read_byte 5 u in
      if nz (Z.land lsr LSR_DATA_READY) then let (v, u'') := read_byte 0 u' in ([v], u'')
      else ([], u')
  end.

Fixpoint driver_run (ops : list driver_op) u : list Z * UartDevice BufferUartBackend :=
  match ops with
  | [] => ([], u)
  | op :: ops' => let (v, u') := driver_step op u in
                  let (vs, u'') := driver_run ops' u' in (v ++ vs, u'')
  end.

Definition dlab_clear u : Prop := nz (Z.land (line_control_ u) LCR_DLAB) = false.

Lemma lsr_data_ready u :
  nz (Z.land (uart_read_register 5 u).1 LSR_DATA_READY) = negb (rb_empty (receive_fifo_ u)).
Proof. simpl. by destruct (tx_pending_ u), (overrun_ u), (rb_empty (receive_fifo_ u)). Qed.

(** Reading LSR polls the input and tells whether a byte is in the FIFO. *)
Lemma read_lsr u :
  uart_wf u -> dlab_clear u ->
  exists lsr u1, read_byte 5 u = (lsr, u1) /\ uart_wf u1 /\ dlab_clear u1 /\
    pending_rx u1 = pending_rx u /\
    (nz (Z.land lsr LSR_DATA_READY) = true -> rb_list FIFO_CAPACITY (receive_fifo_ u1) <> []).
Proof.
  intros Hu Hd. pose proof (lsr_data_ready (poll_input u)) as Hdr.
  pose proof (read_register_wf 5 _ (poll_input_wf _ Hu)) as Hw.
  eexists _, _. split; [by rewrite read_byte_eq by lia|]. split; [by apply settle_wf|].
  unfold dlab_clear in *. simpl in *. rewrite poll_input_line_control. split; [done|].
  split; [by apply poll_input_pending|]. rewrite Hdr, <- rb_empty_spec.
  by destruct (rb_empty _).
Qed.

(** Reading the receive register takes the oldest byte. *)
Lemma read_rbr u :
  uart_wf u -> dlab_clear u -> rb_list FIFO_CAPACITY (receive_fifo_ u) <> [] ->
  exists v u', read_byte 0 u = (v, u') /\ uart_wf u' /\ dlab_clear u' /\
    v :: pending_rx u' = pending_rx u.
Proof.
  intros Hu Hd Hne. rewrite read_byte_eq by lia.
  pose proof (poll_input_wf _ Hu) as Hw. pose proof (poll_input_pending _ Hu) as Hp.
  apply (poll_input_nonempty _ Hu) in Hne.
  assert (dlab_clear (poll_input u)) as Hd2
    by (unfold dlab_clear; by rewrite poll_input_line_control).
  generalize dependent (poll_input u). intros u2 Hne Hw Hp Hd2.
  pose proof (read_register_wf 0 u2 Hw) as Hw3.
  assert (exists v fifo, rb_list FIFO_CAPACITY (receive_fifo_ u2) = v :: rb_list FIFO_CAPACITY fifo /\
    uart_read_register 0 u2 = (v, u2 <| receive_fifo_ := fifo |> <| receive_idle_cycles_ := 0 |>))
    as (v & fifo & Hl & Hr).
  { pose proof (rb_front_spec FIFO_CAPACITY _ (wf_fifo u2 Hw)) as Hfr.
    pose proof (rb_pop_spec FIFO_CAPACITY _ (wf_fifo u2 Hw)) as Hpo.
    destruct (rb_list FIFO_CAPACITY (receive_fifo_ u2)) as [|v q] eqn:Hq; [done|].
    destruct Hpo as (fifo & Hpo & _ & <-). exists v, fifo. split; [done|].
    unfold uart_read_register, dlab_clear in *. cbn [Z.eqb]. by rewrite Hd2, Hfr, Hpo. }
  rewrite Hr in *. simpl in Hw3. eexists _, _. split; [done|].
  split; [by apply settle_wf|]. split; [done|].
  rewrite <- Hp. unfold pending_rx. simpl. by rewrite Hl.
Qed.

Lemma driver_step_receives op u :
  uart_wf u -> dlab_clear u ->
  let (v, u') := driver_step op u in
  uart_wf u' /\ dlab_clear u' /\ v ++ pending_rx u' = pending_rx u.
Proof.
  intros Hu Hd. destruct op; unfold driver_step.
  - split; [by apply tick_wf|]. split; [|by apply tick_pending]. unfold dlab_clear, uart_tick.
    simpl. rewrite poll_input_line_control. by destruct (advance_frame u) as (? & ? & ? & ->).
  - destruct (read_lsr u Hu Hd) as (lsr & u1 & -> & Hw1 & Hd1 & Hp1 & Hne).
    destruct (nz _); [|done].
    destruct (read_rbr u1 Hw1 Hd1 (Hne eq_refl)) as (v & u2 & -> & Hw2 & Hd2 & Hp2).
    split; [done|]. split; [done|]. by rewrite <- Hp1, <- Hp2.
Qed.

(** C38: no received byte is lost, duplicated or reordered.  Whatever the
    order of ticks and polls, the bytes a polling driver has read followed by
    those still in the FIFO and the host queue are the bytes that were
    pending at the start, with or without FIFOs and for any polling
    interval. *)
Theorem uart_receives_in_order (ops : list driver_op) u :
  uart_wf u -> dlab_clear u ->
  let (received, u') := driver_run ops u in
  received ++ pending_rx u' = pending_rx u.
Proof.
  revert u. induction ops as [|op ops IH]; intros u Hu Hd; [done|]. simpl.
  pose proof (driver_step_receives op u Hu Hd) as Hs.
  destruct (driver_step op u) as [v u1]. destruct Hs as (Hu1 & Hd1 & Hp).
  specialize (IH u1 Hu1 Hd1). destruct (driver_run ops u1) as [vs u2].
  by rewrite <- app_assoc, IH.
Qed.
End Reception.

(** Three bytes through the one-byte holding register. *)
Definition uart_with_input (bytes : list Z) : UartDevice BufferUartBackend :=
  mk_uart {| input_ := bytes; output_ := [] |}.

Lemma uart_with_input_wf bytes : Forall (fits 8) bytes -> uart_wf (uart_with_input bytes).
Proof. intros Hb. exact (mk_uart_wf {| input_ := bytes; output_ := [] |} Hb). Qed.

Lemma uart_reachable_invariant_witness :
  uart_wf (uart_tick (uart_write 1 [5] [1] (uart_with_input [0x41])).2) /\
  irq_consistent (uart_tick (uart_write 1 [5] [1] (uart_with_input [0x41])).2) /\
  irq_ (uart_tick (uart_write 1 [5] [1] (uart_with_input [0x41])).2) = 1.
Proof.
  apply and_assoc. split; [|by vm_compute].
  apply (uart_reachable_invariant {| input_ := [0x41]; output_ := [] |}).
  - repeat constructor; done.
  - eapply rtc_l; [apply (step_write _ 1 [5] [1]); repeat constructor; done|].
    eapply rtc_l; [apply step_tick | apply rtc_refl].
Defined.

Lemma uart_backs_off_empty_input_witness :
  let u := uart_with_input [] <| input_poll_cycles_ := 3 |> <| input_poll_remaining_ := 3 |> in
  backend_context_ (Nat.iter 2 uart_tick u) = backend_context_ u /\
  input_poll_remaining_ (Nat.iter 2 uart_tick u) = 1 /\
  backend_context_ (uart_read 0 [0] [1] (Nat.iter 2 uart_tick u)).2 = backend_context_ u.
Proof.
  intros u. assert (input_poll_cycles_ u = 3) as Hc by done.
  destruct (uart_backs_off_empty_input u 2 0 [0] [1]) as (H1 & H2 & H3);
    [done | rewrite Hc; lia |].
  split; [exact H1|]. split; [rewrite H2, Hc; lia | exact H3].
Defined.

Lemma uart_receives_in_order_witness :
  (driver_run [DriverPoll; DriverTick; DriverPoll] (uart_with_input [1; 2; 3])).1 = [1; 2] /\
  let (received, u') := driver_run [DriverPoll; DriverTick; DriverPoll] (uart_with_input [1; 2; 3]) in
  received ++ pending_rx u' = pending_rx (uart_with_input [1; 2; 3]).
Proof.
  split; [by vm_compute|].
  apply uart_receives_in_order; [|done].
  apply uart_with_input_wf. repeat constructor; done.
Defined.
