(* ===== verification/Interrupts.v ===== *)
(** * CLINT and PLIC of the Fuxi platform (examples/fuxi/sim/interrupt_devices.cpp)

    Both devices decode a bus beat into one aligned word access ([access]) and
    act on a register.  The input signals of the PLIC are wired to outputs of
    other devices, so its operations take the levels of the inputs as an
    argument [level]. *)
From S2P Require Import Prelude Axi Memory.

(** ** Word accesses *)
Record Access := { acc_address : Z; acc_lane : nat; acc_size : nat }.

(** [while (lanes[end - 1] == 0) --end;] for lanes with an enabled lane. *)
Fixpoint last_enabled (lanes : list Z) (end_ : nat) : nat :=
  match end_ with
  | O => O
  | S e => if nz (lanes !!! e) then end_ else last_enabled lanes e
  end.

Fixpoint first_enabled (lanes : list Z) : option nat :=
  match lanes with
  | [] => None
  | l :: lanes' => if nz l then Some 0%nat else S <$> first_enabled lanes'
  end.

Definition access (offset : Z) (lanes : list Z) : option Access :=
  match first_enabled lanes with
  | None => Some {| acc_address := offset; acc_lane := 0; acc_size := 0 |}
  | Some start =>
      let end_ := last_enabled lanes (length lanes) in
      let size := (end_ - start)%nat in
      if (negb (size =? 4)%nat && negb (size =? 8)%nat)
         || (UINT64_MAX - Z.of_nat start <? offset)
         || nz (u64 (offset + Z.of_nat start) mod Z.of_nat size)
      then None
      else if forallb (fun i => nz (lanes !!! i)) (seq start (end_ - start))
      then Some {| acc_address := u64 (offset + Z.of_nat start); acc_lane := start; acc_size := size |}
      else None
  end.

(** The loops of [get] and [put] over the bytes of the access. *)
Definition get_word (data : list Z) (a : Access) : Z :=
  foldl (fun value i => Z.lor value (u64 (Z.shiftl (data !!! (acc_lane a + i)%nat) (Z.of_nat i * 8))))
    0 (seq 0 (acc_size a)).

Definition put_word (data : list Z) (a : Access) (value : Z) : list Z :=
  masked_copy (acc_size a) (fun _ => true) (acc_lane a)
    (fun i => Z.land (Z.shiftr value (Z.of_nat i * 8)) 0xff) data.

(** ** CLINT *)
Record Clint := mk_clint_state {
  divider_ : Z;
  phase_ : Z;
  compare_ : Z;
  time_ : Z;
  timer_ : Z;
  software_ : Z
}.
#[export] Instance Clint_eta : Eta Clint := fun c =>
  mk_clint_state (divider_ c) (phase_ c) (compare_ c) (time_ c) (timer_ c) (software_ c).

Definition timer_register (address : Z) (size : nat) : bool :=
  (address =? 0x4000) || (address =? 0xbff8) ||
  ((size =? 4)%nat && ((address =? 0x4004) || (address =? 0xbffc))).

(** [a->address & 4U] *)
Definition high_half (address : Z) : bool := nz (Z.land address 4).

Section Clint.
Implicit Types c : Clint.

Definition clint_reset c : Clint :=
  c <| phase_ := 0 |> <| compare_ := UINT64_MAX |>
    <| time_ := 0 |> <| timer_ := 0 |> <| software_ := 0 |>.

Definition mk_clint (divider : Z) : result Clint :=
  guard nz divider else InvalidArgument "CLINT divider must be positive" in
  Ok (clint_reset {| divider_ := divider; phase_ := 0; compare_ := UINT64_MAX;
                     time_ := 0; timer_ := 0; software_ := 0 |}).

Definition clint_settle c : Clint := c <| timer_ := b2z (compare_ c <=? time_ c) |>.

Definition clint_tick c : Clint :=
  let c := c <| phase_ := u64 (phase_ c + 1) |> in
  clint_settle
    (if phase_ c =? divider_ c
     then c <| phase_ := 0 |> <| time_ := u64 (time_ c + 1) |> else c).

Definition clint_read (offset : Z) (data lanes : list Z) c : Response * list Z :=
  match access offset lanes with
  | None => (SlaveError, data)
  | Some a =>
      if (acc_size a =? 0)%nat then (Okay, data)
      else if (acc_address a =? 0) && (acc_size a =? 4)%nat
      then (Okay, put_word data a (software_ c))
      else if timer_register (acc_address a) (acc_size a) then
        let value := if acc_address a <? 0x8000 then compare_ c else time_ c in
        (Okay, put_word data a (Z.shiftr value (if high_half (acc_address a) then 32 else 0)))
      else (SlaveError, data)
  end.

(** [target = (target & ~(0xffffffff << shift)) | (value << shift)] *)
Definition set_half (target value shift : Z) : Z :=
  Z.lor (Z.land target (u64 (Z.lnot (u64 (Z.shiftl 0xffffffff shift)))))
        (u64 (Z.shiftl value shift)).

Definition clint_write (offset : Z) (data lanes : list Z) c : Response * Clint :=
  match access offset lanes with
  | None => (SlaveError, c)
  | Some a =>
      if (acc_size a =? 0)%nat then (Okay, c)
      else
        let value := get_word data a in
        if (acc_address a =? 0) && (acc_size a =? 4)%nat
        then (Okay, clint_settle (c <| software_ := Z.land value 1 |>))
        else if timer_register (acc_address a) (acc_size a) then
          let update target :=
            if (acc_size a =? 8)%nat then value
            else set_half target value (if high_half (acc_address a) then 32 else 0) in
          (Okay, clint_settle
            (if acc_address a <? 0x8000 then c <| compare_ ::= update |>
             else c <| time_ ::= update |>))
        else (SlaveError, c)
  end.
End Clint.

(** ** PLIC *)
Record Plic := mk_plic_state {
  sources_ : nat;
  contexts_ : nat;
  irqs_ : list Z;
  priority_ : list Z;
  threshold_ : list Z;
  enables_ : list (list Z);
  pending_ : list bool;
  busy_ : list bool
}.
#[export] Instance Plic_eta : Eta Plic := fun p =>
  mk_plic_state (sources_ p) (contexts_ p) (irqs_ p) (priority_ p) (threshold_ p)
    (enables_ p) (pending_ p) (busy_ p).

Section Plic.
Implicit Types p : Plic.

Definition plic_reset p : Plic :=
  p <| priority_ ::= List.map (fun _ => 0) |> <| threshold_ ::= List.map (fun _ => 0) |>
    <| pending_ ::= List.map (fun _ => false) |> <| busy_ ::= List.map (fun _ => false) |>
    <| enables_ ::= List.map (List.map (fun _ => 0)) |> <| irqs_ ::= List.map (fun _ => 0) |>.

Definition mk_plic (sources contexts : nat) : result Plic :=
  guard negb ((sources =? 0) || (1023 <? sources) || (contexts =? 0) || (64 <? contexts))%nat
    else InvalidArgument "PLIC requires 1..1023 sources and 1..64 contexts" in
  Ok (plic_reset
    {| sources_ := sources; contexts_ := contexts;
       irqs_ := replicate contexts 0; priority_ := replicate (sources + 1) 0;
       threshold_ := replicate contexts 0; enables_ := replicate contexts (replicate 32 0);
       pending_ := replicate (sources + 1) false; busy_ := replicate (sources + 1) false |}).

Definition enabled p (context source : nat) : bool :=
  nz (Z.land (enables_ p !!! context !!! (source / 32)%nat)
             (Z.shiftl 1 (Z.of_nat (source mod 32)))).

Definition best p (context : nat) : nat :=
  foldl (fun selected i =>
           if (pending_ p !!! i) && enabled p context i
              && (priority_ p !!! selected <? priority_ p !!! i)
           then i else selected)
        0%nat (seq 1 (sources_ p)).

Definition plic_notify p : Plic :=
  p <| irqs_ := (fun c => b2z (threshold_ p !!! c <? priority_ p !!! best p c))
                  <$> seq 0 (contexts_ p) |>.

(** The gateway loop of [settle]. *)
Definition gateway (level : nat -> Z) p (i : nat) : Plic :=
  if nz (level i) && negb (busy_ p !!! i)
  then p <| pending_ ::= <[i := true]> |> <| busy_ ::= <[i := true]> |>
  else p.

Definition plic_settle (level : nat -> Z) p : Plic :=
  plic_notify (foldl (gateway level) p (seq 1 (sources_ p))).

(** [offset - base] in a bank of [contexts_] blocks of [stride] bytes. *)
Definition in_bank p (offset base stride : Z) : bool :=
  (base <=? offset) && (offset <? base + Z.of_nat (contexts_ p) * stride).

Definition pending_word p (base : nat) : Z :=
  foldl (fun value bit =>
           if (base + bit <=? sources_ p)%nat && (pending_ p !!! (base + bit)%nat)
           then Z.lor value (Z.shiftl 1 (Z.of_nat bit)) else value)
        0 (seq 0 32).

Definition plic_claim p (c : nat) : Z * Plic :=
  let id := best p c in
  let p := if (id =? 0)%nat then p else p <| pending_ ::= <[id := false]> |> in
  (Z.of_nat id, plic_notify p).

Definition plic_read_register (offset : Z) p : Z * Plic :=
  if offset <? 0x1000 then
    (if offset / 4 <=? Z.of_nat (sources_ p) then priority_ p !!! Z.to_nat (offset / 4) else 0, p)
  else if offset <? 0x1080 then
    (pending_word p (Z.to_nat ((offset - 0x1000) / 4) * 32), p)
  else if in_bank p offset 0x2000 0x80 then
    (enables_ p !!! Z.to_nat ((offset - 0x2000) / 0x80) !!! Z.to_nat (offset mod 0x80 / 4), p)
  else if in_bank p offset 0x200000 0x1000 then
    let c := Z.to_nat ((offset - 0x200000) / 0x1000) in
    if offset mod 0x1000 =? 0 then (threshold_ p !!! c, p)
    else if offset mod 0x1000 =? 4 then plic_claim p c
    else (0, p)
  else (0, p).

Definition enable_mask p (word : nat) : Z :=
  foldl (fun mask bit =>
           let id := (word * 32 + bit)%nat in
           if negb (id =? 0)%nat && (id <=? sources_ p)%nat
           then Z.lor mask (Z.shiftl 1 (Z.of_nat bit)) else mask)
        0 (seq 0 32).

Definition plic_complete p (c : nat) (value : Z) : Plic :=
  if nz value && (value <=? Z.of_nat (sources_ p)) && enabled p c (Z.to_nat value)
  then p <| busy_ ::= <[Z.to_nat value := false]> |> else p.

Definition plic_write_register (level : nat -> Z) (offset value : Z) p : Plic :=
  plic_settle level
    (if (0 <? offset) && (offset <? 0x1000) && (offset / 4 <=? Z.of_nat (sources_ p)) then
       p <| priority_ ::= <[Z.to_nat (offset / 4) := Z.land value 7]> |>
     else if in_bank p offset 0x2000 0x80 then
       let c := Z.to_nat ((offset - 0x2000) / 0x80) in
       let word := Z.to_nat (offset mod 0x80 / 4) in
       p <| enables_ ::= alter <[word := Z.land value (enable_mask p word)]> c |>
     else if in_bank p offset 0x200000 0x1000 then
       let c := Z.to_nat ((offset - 0x200000) / 0x1000) in
       if offset mod 0x1000 =? 0 then p <| threshold_ ::= <[c := Z.land value 7]> |>
       else if offset mod 0x1000 =? 4 then plic_complete p c value
       else p
     else p).

Definition plic_read (offset : Z) (data lanes : list Z) p : Response * list Z * Plic :=
  match access offset lanes with
  | None => (SlaveError, data, p)
  | Some a =>
      if (acc_size a =? 8)%nat || (0x4000000 <=? acc_address a) then (SlaveError, data, p)
      else if (acc_size a =? 0)%nat then (Okay, data, p)
      else let (v, p') := plic_read_register (acc_address a) p in (Okay, put_word data a v, p')
  end.

Definition plic_write (level : nat -> Z) (offset : Z) (data lanes : list Z) p
  : Response * Plic :=
  match access offset lanes with
  | None => (SlaveError, p)
  | Some a =>
      if (acc_size a =? 8)%nat || (0x4000000 <=? acc_address a) then (SlaveError, p)
      else if (acc_size a =? 0)%nat then (Okay, p)
      else (Okay, plic_write_register level (acc_address a) (u32 (get_word data a)) p)
  end.
End Plic.
