(* ===== verification/InterruptTheorems.v ===== *)
(** * Correctness of the CLINT and the PLIC

    Word accesses decode exactly the aligned runs of enabled lanes; the timer
    interrupt of the CLINT is up exactly when [mtime >= mtimecmp] and time
    advances once per [divider] ticks; the PLIC always offers the enabled pending
    source of highest priority and lowest identifier, and a claimed source stays
    masked until it is completed. *)
From S2P Require Import Prelude Axi Memory Interrupts.

(** ** Word accesses *)
Section Access.
Implicit Types (lanes data : list Z) (a : Access).

Lemma first_enabled_some lanes s :
  first_enabled lanes = Some s <->
  (s < length lanes)%nat /\ nz (lanes !!! s) = true /\ forall j, (j < s)%nat -> nz (lanes !!! j) = false.
Proof.
  revert s. induction lanes as [|l lanes IH]; intros s; simpl; [split; [done | lia]|].
  destruct (nz l) eqn:E.
  - split; [intros [= <-]; split_and!; [lia | done | lia]|]. intros (_ & _ & Hj).
    destruct s as [|s]; [done|]. specialize (Hj 0%nat ltac:(lia)). simpl in Hj. congruence.
  - rewrite fmap_Some. split.
    + intros (s' & (H1 & H2 & H3)%IH & ->). split_and!; [lia | done|].
      intros [|j] Hj; [done|]. apply H3. lia.
    + intros (H1 & H2 & H3). destruct s as [|s]; [simpl in H2; congruence|].
      exists s. split; [|done]. apply IH. split_and!; [lia | done|]. intros j Hj.
      apply (H3 (S j)). lia.
Qed.

Lemma first_enabled_none lanes :
  first_enabled lanes = None <-> forall j, (j < length lanes)%nat -> nz (lanes !!! j) = false.
Proof.
  split.
  - intros Hn j. revert j. induction lanes as [|l lanes IH]; intros j Hj; simpl in *; [lia|].
    destruct (nz l) eqn:E; [done|]. apply fmap_None in Hn. destruct j as [|j]; [done|]. apply IH; [done | lia].
  - intros Hall. destruct (first_enabled lanes) as [s|] eqn:E; [|done].
    apply first_enabled_some in E as (Hl & Hn & _). by rewrite Hall in Hn.
Qed.

Lemma last_enabled_spec lanes e r :
  (0 < r <= e)%nat -> nz (lanes !!! (r - 1)%nat) = true ->
  (forall j, (r <= j < e)%nat -> nz (lanes !!! j) = false) -> last_enabled lanes e = r.
Proof.
  intros Hr Hn. induction e as [|e IH]; intros Hj; simpl; [lia|].
  destruct (decide (r = S e)) as [->|].
  - replace (S e - 1)%nat with e in Hn by lia. by rewrite Hn.
  - rewrite (Hj e) by lia. apply IH; [lia|]. intros j ?. apply Hj. lia.
Qed.

Lemma last_enabled_inv lanes e s :
  (s < e)%nat -> nz (lanes !!! s) = true ->
  let r := last_enabled lanes e in
  (s < r <= e)%nat /\ nz (lanes !!! (r - 1)%nat) = true /\ forall j, (r <= j < e)%nat -> nz (lanes !!! j) = false.
Proof.
  intros Hs Hn. induction e as [|e IH]; [lia|]. simpl. destruct (nz (lanes !!! e)) eqn:E.
  - split_and!; [lia.. | |lia]. by replace (S e - 1)%nat with e by lia.
  - destruct (decide (s = e)) as [->|]; [congruence|]. destruct (IH ltac:(lia)) as (H1 & H2 & H3).
    split; [lia|]. split; [done|]. intros j Hj. destruct (decide (j = e)) as [->|]; [done|]. apply H3. lia.
Qed.

(** The enabled lanes are exactly those of the access. *)
Definition enables_exactly lanes a : Prop :=
  (acc_lane a + acc_size a <= length lanes)%nat /\
  forall i, (i < length lanes)%nat ->
    nz (lanes !!! i) = true <-> (acc_lane a <= i < acc_lane a + acc_size a)%nat.

Definition aligned_word offset lanes a : Prop :=
  (acc_size a = 4%nat \/ acc_size a = 8%nat) /\ acc_address a = offset + Z.of_nat (acc_lane a) /\
  acc_address a < 2 ^ 64 /\ acc_address a mod Z.of_nat (acc_size a) = 0 /\ enables_exactly lanes a.

Lemma enables_first lanes a :
  (0 < acc_size a)%nat -> enables_exactly lanes a ->
  first_enabled lanes = Some (acc_lane a) /\
  last_enabled lanes (length lanes) = (acc_lane a + acc_size a)%nat.
Proof.
  intros Hs [Hl Hen]. split.
  - apply first_enabled_some. split_and!; [lia | apply Hen; lia|].
    intros j Hj. apply not_true_is_false. intros Ht. apply Hen in Ht; lia.
  - apply last_enabled_spec; [lia | apply Hen; lia|].
    intros j Hj. apply not_true_is_false. intros Ht. apply Hen in Ht; lia.
Qed.

Lemma access_spec offset lanes a :
  fits 64 offset ->
  access offset lanes = Some a <->
  ((forall i, (i < length lanes)%nat -> nz (lanes !!! i) = false) /\
     a = {| acc_address := offset; acc_lane := 0; acc_size := 0 |}) \/
  aligned_word offset lanes a.
Proof.
  unfold fits. intros Ho. unfold access. split.
  - destruct (first_enabled lanes) as [s|] eqn:Hf.
    2:{ intros [= <-]. left. split; [by apply first_enabled_none | done]. }
    pose proof Hf as (Hs & Hn & Hbefore)%first_enabled_some.
    destruct (last_enabled_inv lanes _ s Hs Hn) as (Hr & Hn' & Hafter).
    set (r := last_enabled lanes (length lanes)) in *.
    destruct (_ || _ || _) eqn:E1; [done|]. destruct (forallb _ _) eqn:E2; [|done]. intros [= <-]. right.
    rewrite !orb_false_iff, andb_false_iff, !negb_false_iff, !Nat.eqb_eq, Z.ltb_ge, nz_false in E1.
    destruct E1 as [[Hsize Hover] Hmod]. unfold UINT64_MAX in Hover.
    rewrite u64_small in Hmod |- * by (unfold fits; lia).
    unfold aligned_word, enables_exactly. simpl. split_and!; try done; try lia.
    intros i Hi. rewrite forallb_forall in E2. split.
    + intros Ht. destruct (decide (i < s)%nat); [by rewrite Hbefore in Ht|].
      destruct (decide (r <= i)%nat); [by rewrite Hafter in Ht|]. lia.
    + intros Hsi. apply E2, in_seq. lia.
  - intros [[Hnone ->]|(Hsize & Ha & Hlt & Hmod & Hen)].
    { by rewrite (proj2 (first_enabled_none lanes) Hnone). }
    destruct (enables_first lanes a ltac:(lia) Hen) as [-> ->].
    replace (acc_lane a + acc_size a - acc_lane a)%nat with (acc_size a) by lia.
    rewrite <- Ha, u64_small by (unfold fits; lia). rewrite Hmod.
    assert (UINT64_MAX - Z.of_nat (acc_lane a) <? offset = false) as -> by (apply Z.ltb_ge; unfold UINT64_MAX; lia).
    assert (forallb (fun i => nz (lanes !!! i)) (seq (acc_lane a) (acc_size a)) = true) as ->.
    { apply forallb_forall. intros i Hi%in_seq. destruct Hen as [? Hen]. apply Hen; lia. }
    destruct a as [addr lane size]. simpl in *. by destruct Hsize as [-> | ->].
Qed.

(** Whatever the offset, an access that is not empty is an aligned word. *)
Lemma access_aligned offset lanes a :
  access offset lanes = Some a -> acc_size a <> 0%nat ->
  (acc_size a = 4%nat \/ acc_size a = 8%nat) /\ acc_address a mod Z.of_nat (acc_size a) = 0.
Proof.
  unfold access. destruct (first_enabled lanes) as [s|]; [|by intros [= <-] ].
  destruct (_ || _ || _) eqn:E; [done|]. destruct (forallb _ _); [|done]. intros [= <-] _. cbn [acc_size acc_address].
  rewrite !orb_false_iff, andb_false_iff, !negb_false_iff, !Nat.eqb_eq, nz_false in E. tauto.
Qed.

(** ** Words on the bus *)
Lemma get_word_bytes n (data : list Z) lane v :
  (n <= 8)%nat -> 0 <= v ->
  (forall i, (i < n)%nat -> data !!! (lane + i)%nat = v / 2 ^ (8 * Z.of_nat i) mod 256) ->
  foldl (fun value i => Z.lor value (u64 (Z.shiftl (data !!! (lane + i)%nat) (Z.of_nat i * 8)))) 0 (seq 0 n)
    = v mod 2 ^ (8 * Z.of_nat n).
Proof.
  intros Hn Hv Hb. apply little_endian_loop; [done|]. intros i Hi.
  rewrite Hb, (Z.mul_comm (Z.of_nat i)) by done. apply u64_small. set (k := 8 * Z.of_nat i).
  pose proof (Z.mod_pos_bound (v / 2 ^ k) 256 ltac:(lia)). assert (0 < 2 ^ k) by (apply pow2_pos; lia).
  unfold fits. rewrite Z.shiftl_mul_pow2 by lia. split; [lia|].
  assert (2 ^ k * 256 <= 2 ^ 64)
    by (change 256 with (2 ^ 8); rewrite <- Z.pow_add_r by lia; apply Z.pow_le_mono_r; lia).
  nia.
Qed.

Lemma get_put_word data a v :
  (acc_size a <= 8)%nat -> (acc_lane a + acc_size a <= length data)%nat -> 0 <= v ->
  get_word (put_word data a v) a = v mod 2 ^ (8 * Z.of_nat (acc_size a)).
Proof.
  intros Hs Hl Hv. unfold get_word. apply get_word_bytes; [done..|]. intros i Hi. unfold put_word.
  rewrite masked_copy_lookup by lia. rewrite bool_decide_true by lia. simpl.
  rewrite land_0xff, Z.shiftr_div_pow2 by lia. replace (acc_lane a + i - acc_lane a)%nat with i by lia. by rewrite Z.mul_comm.
Qed.

(** The devices accept exactly one naturally aligned 32-bit or 64-bit word
    per access, wherever it lies on the bus: the enabled lanes must be the
    bytes of the word and nothing else (no enabled lane is an empty access).
    What is put on those lanes is what is got from them, little-endian, and
    the other lanes keep their bytes. *)
Theorem access_accepts_exactly_aligned_words offset lanes a data v :
  fits 64 offset -> length data = length lanes -> 0 <= v ->
  (access offset lanes = Some a <->
     ((forall i, (i < length lanes)%nat -> nz (lanes !!! i) = false) /\
        a = {| acc_address := offset; acc_lane := 0; acc_size := 0 |}) \/
     aligned_word offset lanes a) /\
  (aligned_word offset lanes a ->
     get_word (put_word data a v) a = v mod 2 ^ (8 * Z.of_nat (acc_size a)) /\
     forall i, (i < length data)%nat -> nz (lanes !!! i) = false -> put_word data a v !!! i = data !!! i).
Proof.
  intros Ho Hl Hv. split; [by apply access_spec|]. intros (Hs & _ & _ & _ & He & Hen).
  split; [apply get_put_word; lia|]. intros i Hi Hn. unfold put_word.
  rewrite masked_copy_lookup by done. case_bool_decide as Hb; [|done].
  apply Hen in Hb; [congruence | lia].
Qed.
End Access.

(** ** The CLINT *)
Section ClintTheorems.
Implicit Types c : Clint.

Lemma set_half_low t v : fits 64 t -> fits 32 v -> set_half t v 0 = v + t / 2 ^ 32 * 2 ^ 32.
Proof.
  intros Ht Hv. unfold set_half. rewrite !Z.shiftl_0_r.
  rewrite (u64_small v), (u64_small 0xffffffff) by (unfold fits in *; lia).
  change 0xffffffff with (2 ^ 32 - 1). rewrite u64_align by done.
  replace (t - t mod 2 ^ 32) with (Z.shiftl (t / 2 ^ 32) 32)
    by (rewrite Z.shiftl_mul_pow2 by lia; pose proof (Z.div_mod t (2 ^ 32)); lia).
  by rewrite Z.lor_comm, lor_disjoint.
Qed.

Lemma set_half_high t v : fits 64 t -> fits 32 v -> set_half t v 32 = t mod 2 ^ 32 + v * 2 ^ 32.
Proof.
  intros Ht Hv. unfold set_half.
  assert (u64 (Z.lnot (u64 (Z.shiftl 0xffffffff 32))) = Z.ones 32) as -> by done.
  rewrite Z.land_ones by lia. rewrite u64_small by (unfold fits in *; rewrite Z.shiftl_mul_pow2; lia).
  apply lor_disjoint; [lia|]. unfold fits. apply Z.mod_pos_bound. lia.
Qed.

(** The registers hold machine words and the interrupt lines are up to date:
    [mtip] is raised exactly when [mtime >= mtimecmp]. *)
Record clint_wf c : Prop := {
  cl_divider : 0 < divider_ c < 2 ^ 64;
  cl_phase : 0 <= phase_ c < divider_ c;
  cl_compare : fits 64 (compare_ c);
  cl_time : fits 64 (time_ c);
  cl_timer : timer_ c = b2z (compare_ c <=? time_ c);
  cl_software : software_ c = 0 \/ software_ c = 1
}.

Inductive clint_op :=
| ClintReset
| ClintTick
| ClintWrite (offset : Z) (data lanes : list Z).

Definition clint_exec (op : clint_op) c : Clint :=
  match op with
  | ClintReset => clint_reset c
  | ClintTick => clint_tick c
  | ClintWrite offset data lanes => (clint_write offset data lanes c).2
  end.

Lemma clint_settle_wf c :
  0 < divider_ c < 2 ^ 64 -> 0 <= phase_ c < divider_ c -> fits 64 (compare_ c) -> fits 64 (time_ c) ->
  software_ c = 0 \/ software_ c = 1 -> clint_wf (clint_settle c).
Proof. intros. by constructor. Qed.

Lemma clint_reset_wf c : 0 < divider_ c < 2 ^ 64 -> clint_wf (clint_reset c).
Proof. intros. constructor; simpl; auto; unfold fits, UINT64_MAX; lia. Qed.

Lemma clint_tick_spec c :
  clint_wf c ->
  clint_wf (clint_tick c) /\ divider_ (clint_tick c) = divider_ c /\
  phase_ (clint_tick c) = (phase_ c + 1) mod divider_ c /\
  time_ (clint_tick c) = u64 (time_ c + (phase_ c + 1) / divider_ c).
Proof.
  intros [Hd Hp Hc Ht _ Hs]. unfold clint_tick. simpl.
  rewrite (u64_small (phase_ c + 1)) by (unfold fits; lia).
  destruct (Z.eqb_spec (phase_ c + 1) (divider_ c)) as [E|E]; simpl.
  - split; [apply clint_settle_wf; simpl; auto using u64_fits; lia|]. rewrite E.
    rewrite Z.mod_same, Z.div_same by lia. done.
  - split; [apply clint_settle_wf; simpl; auto; lia|].
    rewrite Z.mod_small, Z.div_small, Z.add_0_r, u64_small by (done || lia). done.
Qed.

(** Time advances by one every [divider] ticks: after [n] ticks the counter
    and the prescaler hold the quotient and the remainder, with the wrap-around
    of the 64-bit counter. *)
Theorem clint_time_advances_once_per_divider n c :
  clint_wf c ->
  let c' := Nat.iter n clint_tick c in
  clint_wf c' /\ divider_ c' = divider_ c /\
  phase_ c' = (phase_ c + Z.of_nat n) mod divider_ c /\
  time_ c' = u64 (time_ c + (phase_ c + Z.of_nat n) / divider_ c).
Proof.
  intros Hw. pose proof (cl_divider c Hw) as Hd. pose proof (cl_phase c Hw) as Hp.
  induction n as [|n IH]; cbv zeta.
  { simpl. rewrite Z.add_0_r, Z.mod_small, Z.div_small, Z.add_0_r, u64_small by (apply Hw || lia). done. }
  destruct IH as (Hw1 & Hd1 & Hp1 & Ht1). simpl Nat.iter. set (c1 := Nat.iter n clint_tick c) in *.
  destruct (clint_tick_spec c1 Hw1) as (Hw2 & Hd2 & Hp2 & Ht2). split; [done|]. split; [congruence|].
  rewrite Hp2, Ht2, Hd1, Hp1, Ht1. set (x := phase_ c + Z.of_nat n).
  replace (phase_ c + Z.of_nat (S n)) with (x + 1) by lia. split.
  - by rewrite Zplus_mod_idemp_l.
  - unfold u64, wrap. rewrite Zplus_mod_idemp_l. f_equal.
    replace (x + 1) with (x mod divider_ c + 1 + x / divider_ c * divider_ c)
      by (pose proof (Z.div_mod x (divider_ c)); lia).
    rewrite Z.div_add by lia. lia.
Qed.
(** ** Register writes *)
Lemma fits_lor n a b : 0 <= n -> fits n a -> fits n b -> fits n (Z.lor a b).
Proof.
  unfold fits. intros Hn Ha Hb. split; [apply Z.lor_nonneg; lia|].
  destruct (Z.eq_dec (Z.lor a b) 0) as [->|Hne]; [lia|].
  assert (0 <= Z.lor a b) by (apply Z.lor_nonneg; lia).
  apply Z.log2_lt_pow2; [lia|]. rewrite Z.log2_lor by lia.
  assert (n <> 0) as Hn0 by (intros ->; destruct Hne; replace a with 0 by lia; by replace b with 0 by lia).
  assert (forall x, 0 <= x < 2 ^ n -> Z.log2 x < n) as Hlog.
  { intros x Hx. destruct (Z.eq_dec x 0) as [->|]; [simpl; lia|]. apply Z.log2_lt_pow2; lia. }
  apply Z.max_lub_lt; auto.
Qed.

Lemma get_word_u64 data a : fits 64 (get_word data a).
Proof.
  unfold get_word. assert (forall l v, fits 64 v -> fits 64 (foldl (fun value i =>
    Z.lor value (u64 (Z.shiftl (data !!! (acc_lane a + i)%nat) (Z.of_nat i * 8)))) v l)) as Hind.
  { induction l as [|i l IH]; intros v Hv; [done|]. simpl. apply IH, fits_lor; [done..|]. apply u64_fits. }
  apply Hind. unfold fits. lia.
Qed.

Lemma set_half_u64 t v s : fits 64 t -> fits 64 (set_half t v s).
Proof.
  intros Ht. unfold set_half. apply fits_lor; [done | | apply u64_fits]. unfold fits in *.
  pose proof (u64_fits (Z.lnot (u64 (Z.shiftl 0xffffffff s)))) as Hm. unfold fits in Hm.
  set (m := u64 _) in *. clearbody m. split; [apply Z.land_nonneg; lia|].
  destruct (Z.eq_dec (Z.land t m) 0) as [->|]; [lia|]. destruct (Z.eq_dec t 0) as [->|]; [by rewrite Z.land_0_l|].
  assert (0 <= Z.land t m) by (apply Z.land_nonneg; lia).
  apply Z.log2_lt_pow2; [lia|]. eapply Z.le_lt_trans; [apply Z.log2_land; lia|].
  eapply Z.le_lt_trans; [apply Z.le_min_l|]. apply Z.log2_lt_pow2; lia.
Qed.

Lemma land_1 v : Z.land v 1 = 0 \/ Z.land v 1 = 1.
Proof.
  pose proof (Z.land_ones v 1 ltac:(lia)) as E. change (Z.ones 1) with 1 in E. rewrite E.
  pose proof (Z.mod_pos_bound v (2 ^ 1)). lia.
Qed.

Lemma clint_write_wf offset data lanes c : clint_wf c -> clint_wf (clint_write offset data lanes c).2.
Proof.
  intros Hw. pose proof Hw as [Hd Hp Hc Ht _ Hs]. unfold clint_write.
  destruct (access offset lanes) as [a|]; [|done]. destruct (acc_size a =? 0)%nat; [done|].
  pose proof (get_word_u64 data a) as Hv. destruct ((acc_address a =? 0) && _).
  { apply clint_settle_wf; try done. apply land_1. }
  destruct (timer_register _ _); [|done].
  assert (forall t, fits 64 t -> fits 64 (if (acc_size a =? 8)%nat then get_word data a
    else set_half t (get_word data a) (if high_half (acc_address a) then 32 else 0))) as Hu.
  { intros t Hft. destruct (acc_size a =? 8)%nat; [done | by apply set_half_u64]. }
  destruct (acc_address a <? 0x8000); apply clint_settle_wf; simpl; auto.
Qed.

Lemma clint_exec_wf op c : clint_wf c -> clint_wf (clint_exec op c).
Proof.
  intros Hw. destruct op as [| |offset data lanes]; simpl.
  - apply clint_reset_wf, Hw.
  - by apply clint_tick_spec.
  - by apply clint_write_wf.
Qed.

(** Whatever is done to a CLINT, its timer interrupt is raised exactly when
    [mtime >= mtimecmp], its registers are 64-bit words, [msip] is a bit and the
    prescaler stays below the divider; the divider 0 is rejected. *)
Theorem clint_timer_interrupt_is_up_to_date divider ops :
  fits 64 divider ->
  match mk_clint divider with
  | Ok c =>
      let c' := foldl (fun c op => clint_exec op c) c ops in
      timer_ c' = b2z (compare_ c' <=? time_ c') /\ clint_wf c'
  | Throw e => divider = 0 /\ e = InvalidArgument "CLINT divider must be positive"
  end.
Proof.
  unfold fits. intros Hd. unfold mk_clint. destruct (nz divider) eqn:E; simpl; [|by apply nz_false in E].
  apply nz_true in E. match goal with |- context [foldl _ ?c0 ops] => assert (clint_wf c0) as Hw; [|revert Hw; generalize c0] end.
  { apply clint_reset_wf. simpl. lia. }
  induction ops as [|op ops IH]; intros c Hw; simpl.
  - split; [apply Hw | done].
  - by apply IH, clint_exec_wf.
Qed.

(** ** Timer registers *)
Lemma get_word_fits data a :
  (acc_size a <= 8)%nat -> (acc_lane a + acc_size a <= length data)%nat -> Forall (fits 8) data ->
  fits (8 * Z.of_nat (acc_size a)) (get_word data a).
Proof.
  intros Hs Hl Hb. unfold get_word. assert (forall n, (n <= acc_size a)%nat ->
    fits (8 * Z.of_nat n) (foldl (fun value i => Z.lor value
      (u64 (Z.shiftl (data !!! (acc_lane a + i)%nat) (Z.of_nat i * 8)))) 0 (seq 0 n))) as Hind; [|by apply Hind].
  induction n as [|n IH]; intros Hn; [unfold fits; simpl; lia|]. rewrite seq_S, foldl_app. simpl foldl.
  specialize (IH ltac:(lia)). set (v := foldl _ 0 (seq 0 n)) in *. clearbody v.
  assert (fits 8 (data !!! (acc_lane a + n)%nat)) as Hby.
  { apply (Forall_lookup_1 _ data (acc_lane a + n)); [done|]. apply lookup_total_lt. lia. }
  unfold fits in *. set (b := data !!! _) in *. clearbody b. set (k := 8 * Z.of_nat n) in *.
  replace (Z.of_nat n * 8) with k by lia. replace (8 * Z.of_nat (S n)) with (k + 8) by lia.
  assert (0 < 2 ^ k) by (apply Z.pow_pos_nonneg; lia).
  assert (2 ^ k * 256 <= 2 ^ 64) by (change 256 with (2 ^ 8); rewrite <- Z.pow_add_r by lia; apply Z.pow_le_mono_r; lia).
  rewrite u64_small by (unfold fits; rewrite Z.shiftl_mul_pow2 by lia; change (2 ^ 8) with 256 in *; nia).
  rewrite lor_disjoint by (lia || done). rewrite Z.pow_add_r by lia. change (2 ^ 8) with 256 in *. nia.
Qed.

(** The 64-bit timer register an address belongs to. *)
Definition timer_value (address : Z) c : Z := if address <? 0x8000 then compare_ c else time_ c.

(** The word of a register that an access reads. *)
Definition word_of (register : Z) a : Z :=
  if (acc_size a =? 8)%nat then register
  else if high_half (acc_address a) then register / 2 ^ 32 else register mod 2 ^ 32.
Definition other_half (register : Z) a : Z :=
  if high_half (acc_address a) then register mod 2 ^ 32 else register / 2 ^ 32.

Lemma timer_update_word old value a :
  (acc_size a = 4%nat \/ acc_size a = 8%nat) -> fits 64 old -> fits (8 * Z.of_nat (acc_size a)) value ->
  let new := if (acc_size a =? 8)%nat then value
             else set_half old value (if high_half (acc_address a) then 32 else 0) in
  fits 64 new /\ word_of new a = value /\ (acc_size a = 4%nat -> other_half new a = other_half old a).
Proof.
  intros Hs Ho Hv. unfold word_of, other_half. destruct Hs as [E|E]; rewrite E in *; simpl; [|done].
  change (8 * Z.of_nat 4) with 32 in Hv. unfold fits in Hv. destruct (high_half (acc_address a)).
  - rewrite set_half_high by done. pose proof (Z.mod_pos_bound old (2 ^ 32) ltac:(lia)).
    rewrite Z.div_add, Z.mod_add, Z.div_small, Z.mod_mod by lia. unfold fits. split_and!; lia.
  - rewrite set_half_low by done. unfold fits in *.
    pose proof (Z.div_lt_upper_bound old (2 ^ 32) (2 ^ 32)). pose proof (Z.div_pos old (2 ^ 32)).
    rewrite Z.div_add, Z.mod_add, (Z.div_small value), (Z.mod_small value) by lia. split_and!; lia.
Qed.
Lemma land_half x : 0 <= x -> Z.shiftr x 32 = x / 2 ^ 32.
Proof. intros. by rewrite Z.shiftr_div_pow2. Qed.

(** What a read of a timer register puts on the bus. *)
Lemma timer_word_read register a :
  (acc_size a = 4%nat \/ acc_size a = 8%nat) -> fits 64 register ->
  (acc_size a = 8%nat -> high_half (acc_address a) = false) ->
  Z.shiftr register (if high_half (acc_address a) then 32 else 0) mod 2 ^ (8 * Z.of_nat (acc_size a))
    = word_of register a.
Proof.
  unfold fits, word_of. intros Hs Hr Hh. destruct Hs as [E|E]; rewrite E in *; simpl Nat.eqb; cbv iota.
  - change (8 * Z.of_nat 4) with 32. destruct (high_half _).
    + rewrite land_half by lia. apply Z.mod_small. split; [apply Z.div_pos; lia|].
      apply Z.div_lt_upper_bound; lia.
    + by rewrite Z.shiftr_0_r.
  - rewrite Hh by done. rewrite Z.shiftr_0_r. apply Z.mod_small. done.
Qed.

Lemma timer_register_cases address size :
  timer_register address size = true ->
  (address =? 0) = false /\ (size = 8%nat -> address mod 8 = 0 -> high_half address = false).
Proof.
  unfold timer_register. rewrite !orb_true_iff, andb_true_iff, orb_true_iff, !Z.eqb_eq, Nat.eqb_eq.
  intros [[-> | ->]|[-> [-> | ->]]]; done.
Qed.

(** The timer registers of the CLINT read back what was written, as one 64-bit
    word or as two 32-bit halves: a write of an aligned word at [mtimecmp] or
    [mtime] answers OKAY, a read at the same place returns the word, and a
    32-bit write leaves the other half of the register alone. *)
Theorem clint_timer_registers_read_back offset lanes a data data' c :
  clint_wf c -> fits 64 offset -> aligned_word offset lanes a ->
  timer_register (acc_address a) (acc_size a) = true ->
  Forall (fits 8) data -> length data = length lanes -> length data' = length lanes ->
  let (r, c') := clint_write offset data lanes c in
  let (r', out) := clint_read offset data' lanes c' in
  r = Okay /\ r' = Okay /\ get_word out a = get_word data a /\
  (acc_size a = 4%nat ->
     other_half (timer_value (acc_address a) c') a = other_half (timer_value (acc_address a) c) a).
Proof.
  intros Hw Ho Ha Ht Hb Hl Hl'. pose proof Ha as (Hs & _ & _ & Hmod & He & _).
  pose proof (proj2 (access_spec offset lanes a Ho) (or_intror Ha)) as Hacc.
  destruct (timer_register_cases _ _ Ht) as [Hz Hh]. unfold clint_write. rewrite Hacc, Hz, Ht.
  assert ((acc_size a =? 0)%nat = false) as Hsz by (apply Nat.eqb_neq; lia). rewrite Hsz.
  cbn [andb]. set (v := get_word data a). set (new := fun t => if (acc_size a =? 8)%nat then v else _).
  assert (fits (8 * Z.of_nat (acc_size a)) v) as Hv by (apply get_word_fits; (lia || done)).
  set (c1 := clint_settle _). unfold clint_read. rewrite Hacc, Hsz, Hz, Ht. cbn [andb].
  fold (timer_value (acc_address a) c1).
  assert (timer_value (acc_address a) c1 = new (timer_value (acc_address a) c)) as Hnew.
  { unfold timer_value, c1. by destruct (acc_address a <? 0x8000). }
  assert (fits 64 (timer_value (acc_address a) c)) as Hold.
  { unfold timer_value. destruct (_ <? _); apply Hw. }
  destruct (timer_update_word _ v a Hs Hold Hv) as (Hn1 & Hn2 & Hn3). fold (new (timer_value (acc_address a) c)) in *.
  rewrite <- Hnew in *. split_and!; [done | done | | done].
  rewrite get_put_word by (try lia; apply Z.shiftr_nonneg; unfold fits in Hn1; lia).
  rewrite timer_word_read; [done | done | done|]. intros E. apply Hh; [done|]. by rewrite E in Hmod.
Qed.
End ClintTheorems.

(** ** The PLIC's choice *)
Section Best.
Implicit Types p : Plic.

(** A source the context can be interrupted by. *)
Definition eligible p (c i : nat) : Prop :=
  (1 <= i <= sources_ p)%nat /\ pending_ p !!! i = true /\ enabled p c i = true /\ 0 < priority_ p !!! i.
Definition outranks p (i j : nat) : Prop :=
  priority_ p !!! j < priority_ p !!! i \/ (priority_ p !!! j = priority_ p !!! i /\ (i <= j)%nat).
Definition chosen p (c i : nat) : Prop :=
  (i = 0%nat /\ forall j, ~ eligible p c j) \/
  (eligible p c i /\ forall j, eligible p c j -> outranks p i j).

Lemma best_spec p c : priority_ p !!! 0%nat = 0 -> chosen p c (best p c).
Proof.
  intros H0. unfold best.
  set (pick := fun (selected i : nat) =>
    if (pending_ p !!! i) && enabled p c i && (priority_ p !!! selected <? priority_ p !!! i)
    then i else selected).
  assert (forall n, (n <= sources_ p)%nat ->
    let s := foldl pick 0%nat (seq 1 n) in
    (s = 0%nat /\ forall j, (j <= n)%nat -> ~ eligible p c j) \/
    (eligible p c s /\ (s <= n)%nat /\ forall j, (j <= n)%nat -> eligible p c j -> outranks p s j)) as Hn.
  { induction n as [|n IH]; intros Hn; cbv zeta.
    { left. split; [done|]. intros j Hj [? _]. lia. }
    specialize (IH ltac:(lia)). rewrite seq_S, foldl_app. simpl foldl. set (s := foldl pick 0%nat (seq 1 n)) in *.
    unfold pick. destruct (pending_ p !!! S n) eqn:Hp, (enabled p c (S n)) eqn:He; simpl;
      try (assert (~ eligible p c (S n)) as Hne by (unfold eligible; rewrite ?Hp, ?He; naive_solver);
           assert (forall j, (j <= S n)%nat -> eligible p c j -> (j <= n)%nat) as Hle
             by (intros j Hj Hej; destruct (decide (j = S n)) as [->|]; [done | lia]);
           destruct IH as [[-> IH]|(Hs & Hsn & IH)]; [left | right]; naive_solver lia).
    destruct (Z.ltb_spec (priority_ p !!! s) (priority_ p !!! S n)) as [Hlt|Hge].
    - right. destruct IH as [[-> IH]|(Hs & Hsn & IH)].
      + rewrite H0 in Hlt. split; [split_and!; (done || lia)|]. split; [lia|]. intros j Hj Hej.
        destruct (decide (j = S n)) as [->|]; [right; lia|]. destruct (IH j ltac:(lia) Hej).
      + pose proof Hs as (_ & _ & _ & Hpos). split; [split_and!; (done || lia)|]. split; [lia|].
        intros j Hj Hej. destruct (decide (j = S n)) as [->|]; [right; lia|].
        destruct (IH j ltac:(lia) Hej) as [?|[? _]]; left; lia.
    - destruct IH as [[-> IH]|(Hs & Hsn & IH)]; [left | right].
      + split; [done|]. intros j Hj Hej. destruct (decide (j = S n)) as [->|].
        * destruct Hej as (_ & _ & _ & ?). lia.
        * by apply (IH j ltac:(lia)).
      + split; [done|]. split; [lia|]. intros j Hj Hej. destruct (decide (j = S n)) as [->|]; [|apply IH; (done || lia)].
        unfold outranks. destruct (decide (priority_ p !!! S n = priority_ p !!! s)); [right; split; (done || lia) | left; lia]. }
  destruct (Hn (sources_ p) ltac:(lia)) as [[Hz Hnone]|(He & _ & Hbest)]; [left | right]; (split; [done|]).
  - intros j Hj. apply (Hnone j); [apply Hj | done].
  - intros j Hj. apply Hbest; [apply Hj | done].
Qed.

Lemma chosen_unique p c i j : chosen p c i -> chosen p c j -> i = j.
Proof.
  intros [[-> Hi]|[Hi Hbi]] [[-> Hj]|[Hj Hbj]]; [done | by destruct (Hi j) | by destruct (Hj i) |].
  destruct (Hbi j Hj), (Hbj i Hi); lia.
Qed.
End Best.

(** ** The invariant of the PLIC *)
Section PlicInvariant.
Implicit Types p : Plic.

Record plic_wf p : Prop := {
  pl_sources : (1 <= sources_ p <= 1023)%nat;
  pl_contexts : (1 <= contexts_ p <= 64)%nat;
  pl_priority : length (priority_ p) = S (sources_ p) /\ Forall (fun x => 0 <= x <= 7) (priority_ p);
  pl_zero : priority_ p !!! 0%nat = 0;
  pl_threshold : length (threshold_ p) = contexts_ p /\ Forall (fun x => 0 <= x <= 7) (threshold_ p);
  pl_enables : length (enables_ p) = contexts_ p /\ Forall (fun l => length l = 32%nat) (enables_ p);
  pl_pending : length (pending_ p) = S (sources_ p);
  pl_busy : length (busy_ p) = S (sources_ p);
  pl_irqs : length (irqs_ p) = contexts_ p
}.

(** The interrupt lines show what the registers say. *)
Definition notified p : Prop :=
  irqs_ p = (fun c => b2z (threshold_ p !!! c <? priority_ p !!! best p c)) <$> seq 0 (contexts_ p).

(** What [plic_notify] and the gateways leave alone. *)
Definition same_config p p' : Prop :=
  sources_ p' = sources_ p /\ contexts_ p' = contexts_ p /\ priority_ p' = priority_ p /\
  threshold_ p' = threshold_ p /\ enables_ p' = enables_ p.

Lemma plic_wf_gateways p pending busy :
  plic_wf p -> length pending = length (pending_ p) -> length busy = length (busy_ p) ->
  plic_wf (p <| pending_ := pending |> <| busy_ := busy |>).
Proof. intros [] Hl1 Hl2. constructor; simpl; (done || congruence). Qed.

Lemma notify_wf p : plic_wf p -> plic_wf (plic_notify p) /\ notified (plic_notify p).
Proof.
  intros []. split; [|done]. constructor; try done. simpl. by rewrite length_fmap, length_seq.
Qed.

Lemma lookup_total_insert_cases {A} `{!Inhabited A} (l : list A) i j x :
  (i < length l)%nat -> <[i := x]> l !!! j = if decide (i = j) then x else l !!! j.
Proof.
  intros Hi. case_decide as E; [subst; by apply list_lookup_total_insert_eq | by apply list_lookup_total_insert_ne].
Qed.

(** What the gateways do to source [j]: a raised level is latched once. *)
Lemma gateway_wf level p i :
  plic_wf p -> (i <= sources_ p)%nat ->
  let p' := gateway level p i in
  plic_wf p' /\ same_config p p' /\
  forall j, pending_ p' !!! j = (pending_ p !!! j || (bool_decide (j = i) && nz (level j) && negb (busy_ p !!! j))) /\
            busy_ p' !!! j = (busy_ p !!! j || (bool_decide (j = i) && nz (level j))).
Proof.
  intros Hw Hi p'. subst p'. unfold gateway. pose proof (pl_pending p Hw) as Hlp. pose proof (pl_busy p Hw) as Hlb.
  destruct (nz (level i)) eqn:Hl; [destruct (busy_ p !!! i) eqn:Hb|]; cbn [andb negb].
  - split; [done|]. split; [done|]. intros j. case_bool_decide as E; [subst; rewrite Hl, Hb|];
      rewrite ?orb_false_r; simpl; rewrite ?orb_false_r; done.
  - split; [|split; [done|]].
    + apply (plic_wf_gateways p (<[i := true]> (pending_ p)) (<[i := true]> (busy_ p)) Hw);
        apply length_insert.
    + intros j. change (pending_ (p <| pending_ ::= <[i := true]> |> <| busy_ ::= <[i := true]> |>))
        with (<[i := true]> (pending_ p)).
      change (busy_ (p <| pending_ ::= <[i := true]> |> <| busy_ ::= <[i := true]> |>))
        with (<[i := true]> (busy_ p)).
      rewrite !lookup_total_insert_cases by lia.
      case_bool_decide as E; case_decide; subst; try done; rewrite ?Hl, ?Hb; simpl;
        rewrite ?orb_true_r, ?orb_false_r; done.
  - split; [done|]. split; [done|]. intros j. case_bool_decide as E; [subst; rewrite Hl|];
      simpl; rewrite ?orb_false_r; done.
Qed.

Lemma same_config_trans p1 p2 p3 : same_config p1 p2 -> same_config p2 p3 -> same_config p1 p3.
Proof. intros (A1 & A2 & A3 & A4 & A5) (B1 & B2 & B3 & B4 & B5). unfold same_config. split_and!; congruence. Qed.

Lemma gateways_wf level p n :
  plic_wf p -> (n <= sources_ p)%nat ->
  let p' := foldl (gateway level) p (seq 1 n) in
  plic_wf p' /\ same_config p p' /\
  forall j, pending_ p' !!! j =
              (pending_ p !!! j || (bool_decide (1 <= j <= n)%nat && nz (level j) && negb (busy_ p !!! j))) /\
            busy_ p' !!! j = (busy_ p !!! j || (bool_decide (1 <= j <= n)%nat && nz (level j))).
Proof.
  intros Hw. induction n as [|n IH]; intros Hn; cbv zeta.
  { split; [done|]. split; [done|]. intros j. rewrite bool_decide_false by lia. simpl. by rewrite !orb_false_r. }
  destruct (IH ltac:(lia)) as (Hw1 & Hs1 & Hg1). rewrite seq_S, foldl_app. simpl foldl.
  set (p1 := foldl (gateway level) p (seq 1 n)) in *.
  destruct (gateway_wf level p1 (S n) Hw1) as (Hw2 & Hs2 & Hg2); [destruct Hs1 as (-> & _); lia|].
  split; [done|]. split; [by eapply same_config_trans|]. intros j.
  destruct (Hg2 j) as [-> ->], (Hg1 j) as [-> ->].
  destruct (decide (j = S n)) as [->|Hne].
  - rewrite (bool_decide_true (S n = S n)), (bool_decide_false (1 <= S n <= n)%nat),
      (bool_decide_true (1 <= S n <= S n)%nat) by lia.
    simpl. by rewrite !orb_false_r.
  - rewrite (bool_decide_false (j = S n)) by done. simpl. rewrite !orb_false_r.
    by rewrite (bool_decide_ext (1 <= j <= S n)%nat (1 <= j <= n)%nat) by lia.
Qed.

(** The level of an input is latched once per completion. *)
Definition latched level p j : bool * bool :=
  (pending_ p !!! j || (bool_decide (1 <= j <= sources_ p)%nat && nz (level j) && negb (busy_ p !!! j)),
   busy_ p !!! j || (bool_decide (1 <= j <= sources_ p)%nat && nz (level j))).

Lemma plic_settle_spec level p :
  plic_wf p ->
  let p' := plic_settle level p in
  plic_wf p' /\ notified p' /\ same_config p p' /\
  forall j, (pending_ p' !!! j, busy_ p' !!! j) = latched level p j.
Proof.
  intros Hw p'. destruct (gateways_wf level p (sources_ p) Hw ltac:(lia)) as (Hw1 & Hs1 & Hg1).
  destruct (notify_wf _ Hw1) as [Hw2 Hn]. split; [done|]. split; [done|]. split; [exact Hs1|].
  intros j. unfold latched. destruct (Hg1 j) as [<- <-]. done.
Qed.

(** ** Register writes *)
Definition write_update (offset value : Z) p : Plic :=
  if (0 <? offset) && (offset <? 0x1000) && (offset / 4 <=? Z.of_nat (sources_ p)) then
    p <| priority_ ::= <[Z.to_nat (offset / 4) := Z.land value 7]> |>
  else if in_bank p offset 0x2000 0x80 then
    p <| enables_ ::= alter <[Z.to_nat (offset mod 0x80 / 4) := Z.land value (enable_mask p (Z.to_nat (offset mod 0x80 / 4)))]>
           (Z.to_nat ((offset - 0x2000) / 0x80)) |>
  else if in_bank p offset 0x200000 0x1000 then
    let c := Z.to_nat ((offset - 0x200000) / 0x1000) in
    if offset mod 0x1000 =? 0 then p <| threshold_ ::= <[c := Z.land value 7]> |>
    else if offset mod 0x1000 =? 4 then plic_complete p c value
    else p
  else p.

Lemma write_register_update level offset value p :
  plic_write_register level offset value p = plic_settle level (write_update offset value p).
Proof. done. Qed.

Lemma land_7 v : 0 <= Z.land v 7 <= 7.
Proof. change 7 with (Z.ones 3) at 1 2. rewrite Z.land_ones by lia. pose proof (Z.mod_pos_bound v (2 ^ 3)). lia. Qed.

Lemma Forall_insert_any {A} (P : A -> Prop) (l : list A) i x : Forall P l -> P x -> Forall P (<[i := x]> l).
Proof. intros Hl Hx. by apply Forall_insert. Qed.

Lemma plic_wf_registers p priority threshold enables :
  plic_wf p -> length priority = length (priority_ p) -> Forall (fun x => 0 <= x <= 7) priority ->
  priority !!! 0%nat = 0 -> length threshold = length (threshold_ p) ->
  Forall (fun x => 0 <= x <= 7) threshold -> length enables = length (enables_ p) ->
  Forall (fun l => length l = 32%nat) enables ->
  plic_wf (p <| priority_ := priority |> <| threshold_ := threshold |> <| enables_ := enables |>).
Proof. intros [? ? [] ? [] [] ? ? ?] ???????. constructor; simpl; try done; split; (done || congruence). Qed.

Lemma write_update_wf offset value p :
  plic_wf p -> offset mod 4 = 0 -> plic_wf (write_update offset value p).
Proof.
  intros Hw Hal. pose proof Hw as [_ _ [_ Hp2] H0 [_ Ht2] [_ He2] _ _ _]. unfold write_update.
  destruct (_ && _ && _) eqn:E1.
  { apply andb_true_iff in E1 as [[Hpos%Z.ltb_lt _]%andb_true_iff _].
    pose proof (plic_wf_registers p (<[Z.to_nat (offset / 4) := Z.land value 7]> (priority_ p))
      (threshold_ p) (enables_ p) Hw) as Hreg. rewrite length_insert in Hreg. apply Hreg; try done.
    - by apply Forall_insert_any, land_7.
    - rewrite list_lookup_total_insert_ne; [done|]. pose proof (Z.div_mod offset 4). lia. }
  destruct (in_bank p offset 0x2000 0x80).
  { set (word := Z.to_nat (offset mod 0x80 / 4)). set (c := Z.to_nat ((offset - 0x2000) / 0x80)).
    pose proof (plic_wf_registers p (priority_ p) (threshold_ p)
      (alter <[word := Z.land value (enable_mask p word)]> c (enables_ p)) Hw) as Hreg.
    rewrite length_alter in Hreg. apply Hreg; try done.
    apply Forall_alter; [done|]. intros l _ Hl. by rewrite length_insert. }
  destruct (in_bank p offset 0x200000 0x1000); [|done].
  destruct (offset mod 0x1000 =? 0).
  { pose proof (plic_wf_registers p (priority_ p)
      (<[Z.to_nat ((offset - 0x200000) / 0x1000) := Z.land value 7]> (threshold_ p)) (enables_ p) Hw) as Hreg.
    rewrite length_insert in Hreg. apply Hreg; try done. by apply Forall_insert_any, land_7. }
  destruct (offset mod 0x1000 =? 4); [|done]. unfold plic_complete. clear E1. destruct (_ && _ && _); [|done].
  apply (plic_wf_gateways p (pending_ p) (<[Z.to_nat value := false]> (busy_ p)) Hw); (done || apply length_insert).
Qed.

(** ** Operations and reachable states *)
Inductive plic_op :=
| PlicReset
| PlicSettle (level : nat -> Z)
| PlicRead (offset : Z) (data lanes : list Z)
| PlicWrite (level : nat -> Z) (offset : Z) (data lanes : list Z).

Definition plic_exec (op : plic_op) p : Plic :=
  match op with
  | PlicReset => plic_reset p
  | PlicSettle level => plic_settle level p
  | PlicRead offset data lanes => (plic_read offset data lanes p).2
  | PlicWrite level offset data lanes => (plic_write level offset data lanes p).2
  end.
Lemma map_const_lookup {A B} `{!Inhabited B} (l : list A) (x : B) i :
  (i < length l)%nat -> List.map (fun _ => x) l !!! i = x.
Proof.
  intros Hx. apply list_lookup_total_correct. change (List.map (fun _ => x) l) with ((fun _ => x) <$> l).
  rewrite list_lookup_fmap. by destruct (lookup_lt_is_Some_2 l i Hx) as [y ->].
Qed.

Lemma Forall_map_const {A B} (P : B -> Prop) (l : list A) x : P x -> Forall P (List.map (fun _ => x) l).
Proof. intros Hx. induction l; constructor; done. Qed.

Lemma plic_reset_wf p : plic_wf p -> plic_wf (plic_reset p) /\ notified (plic_reset p).
Proof.
  intros [Hso Hco [Hp1 Hp2] H0 [Ht1 Ht2] [He1 He2] Hpe Hbu Hi]. split.
  - constructor; simpl; rewrite ?length_map; try done.
    + split; [done|]. apply Forall_map_const. lia.
    + apply map_const_lookup. lia.
    + split; [done|]. apply Forall_map_const. lia.
    + split; [done|]. change (List.map (List.map (fun _ : Z => 0)) (enables_ p)) with
        (List.map (fun _ : Z => 0) <$> enables_ p).
      apply Forall_fmap. eapply Forall_impl; [exact He2|]. intros l Hl. simpl. by rewrite length_map.
  - assert (forall c, best (plic_reset p) c = 0%nat) as Hbest.
    { intros c. destruct (best_spec (plic_reset p) c) as [[? _]|[(Hr & Hpend & _) _]]; [|done|].
      - simpl. apply map_const_lookup. lia.
      - simpl in Hpend, Hr. rewrite map_const_lookup in Hpend by lia. done. }
    unfold notified. apply list_eq_total; [simpl; by rewrite length_map, length_fmap, length_seq|].
    intros c Hc. simpl in Hc. rewrite length_map in Hc. symmetry.
    change (irqs_ (plic_reset p)) with (List.map (fun _ => 0) (irqs_ p)). rewrite map_const_lookup by done.
    apply list_lookup_total_correct. rewrite list_lookup_fmap, lookup_seq_lt by (simpl; lia).
    simpl fmap. rewrite Hbest. simpl. rewrite !map_const_lookup by lia. done.
Qed.

Lemma plic_claim_wf p c :
  plic_wf p -> plic_wf (plic_claim p c).2 /\ notified (plic_claim p c).2.
Proof.
  intros Hw. unfold plic_claim. simpl. apply notify_wf. destruct (best p c =? 0)%nat; [done|].
  apply (plic_wf_gateways p (<[best p c := false]> (pending_ p)) (busy_ p) Hw); (apply length_insert || done).
Qed.

Lemma plic_read_wf offset data lanes p :
  plic_wf p -> notified p ->
  plic_wf (plic_read offset data lanes p).2 /\ notified (plic_read offset data lanes p).2.
Proof.
  intros Hw Hn. unfold plic_read. destruct (access offset lanes) as [a|]; [|done].
  destruct (_ || _); [done|]. destruct (_ =? _)%nat; [done|].
  assert (plic_wf (plic_read_register (acc_address a) p).2 /\ notified (plic_read_register (acc_address a) p).2) as Hr.
  { unfold plic_read_register. repeat case_match; try done. by apply plic_claim_wf. }
  by destruct (plic_read_register _ _).
Qed.

Lemma plic_write_wf level offset data lanes p :
  plic_wf p -> notified p ->
  plic_wf (plic_write level offset data lanes p).2 /\ notified (plic_write level offset data lanes p).2.
Proof.
  intros Hw Hn. unfold plic_write. destruct (access offset lanes) as [a|] eqn:Ha; [|done].
  destruct (_ || _) eqn:E; [done|]. destruct (acc_size a =? 0)%nat eqn:Ez; [done|].
  apply orb_false_iff in E as [E8 _]. apply Nat.eqb_neq in E8, Ez.
  destruct (access_aligned offset lanes a Ha) as [Hs Hmod]; [done|].
  assert (acc_size a = 4%nat) as E4 by lia. rewrite E4 in Hmod. simpl snd. rewrite write_register_update.
  split; apply plic_settle_spec, write_update_wf; done.
Qed.

Definition plic_op_wf (op : plic_op) : Prop :=
  match op with
  | PlicReset | PlicSettle _ => True
  | PlicRead offset _ _ | PlicWrite _ offset _ _ => fits 64 offset
  end.

Lemma plic_exec_wf op p :
  plic_op_wf op -> plic_wf p -> notified p -> plic_wf (plic_exec op p) /\ notified (plic_exec op p).
Proof.
  intros Ho Hw Hn. destruct op as [|level|offset data lanes|level offset data lanes]; simpl.
  - by apply plic_reset_wf.
  - split; by apply plic_settle_spec.
  - by apply plic_read_wf.
  - by apply plic_write_wf.
Qed.

Lemma mk_plic_spec sources contexts :
  match mk_plic sources contexts with
  | Ok p => plic_wf p /\ notified p
  | Throw e => ~ ((1 <= sources <= 1023)%nat /\ (1 <= contexts <= 64)%nat)
  end.
Proof.
  unfold mk_plic. destruct (_ || _ || _ || _) eqn:E; simpl.
  - rewrite !orb_true_iff, !Nat.eqb_eq, !Nat.ltb_lt in E. lia.
  - rewrite !orb_false_iff, !Nat.eqb_neq, !Nat.ltb_ge in E. apply plic_reset_wf.
    constructor; simpl; rewrite ?length_replicate; try lia; try (split; [done|]); try done.
    + split; [lia|]. apply Forall_replicate. lia.
    + apply lookup_total_replicate_2. lia.
    + apply Forall_replicate. lia.
    + by apply Forall_replicate.
Qed.

(** Whatever is done to a PLIC, the interrupt line of every context is raised
    exactly when the best pending enabled source has a priority above the
    context's threshold; priorities and thresholds stay in 0..7 and source 0
    never interrupts. *)
Theorem plic_lines_are_up_to_date sources contexts ops p :
  mk_plic sources contexts = Ok p -> Forall plic_op_wf ops ->
  let p' := foldl (fun p op => plic_exec op p) p ops in
  plic_wf p' /\
  forall c, (c < contexts_ p')%nat ->
    exists i, chosen p' c i /\ irqs_ p' !!! c = b2z (threshold_ p' !!! c <? priority_ p' !!! i).
Proof.
  intros Hp Hops. pose proof (mk_plic_spec sources contexts) as Hmk. rewrite Hp in Hmk. clear Hp.
  assert (plic_wf (foldl (fun p op => plic_exec op p) p ops) /\ notified (foldl (fun p op => plic_exec op p) p ops)) as [Hw Hn].
  { destruct Hmk as [Hw Hn]. revert p Hw Hn. induction Hops as [|op ops Ho _ IH]; intros p Hw Hn; [done|].
    simpl. destruct (plic_exec_wf op p Ho Hw Hn). by apply IH. }
  split; [done|]. intros c Hc. exists (best (foldl (fun p op => plic_exec op p) p ops) c).
  split; [apply best_spec, Hw|]. rewrite Hn at 1. apply list_lookup_total_correct.
  by rewrite list_lookup_fmap, lookup_seq_lt.
Qed.
(** ** Claims and completions *)

(** C39: a claim returns the pending enabled source of highest priority (the lowest
    identifier among equals, 0 if there is none), takes away its pending bit and
    nothing else, and brings the interrupt lines up to date; no context can claim
    that source again before its gateway lets the next request through. *)
Theorem plic_claim_takes_the_best_source p c :
  plic_wf p ->
  let (id, p') := plic_claim p c in
  exists i, id = Z.of_nat i /\ chosen p c i /\ notified p' /\ same_config p p' /\ busy_ p' = busy_ p /\
    (forall j, pending_ p' !!! j = if decide (i <> 0%nat /\ j = i) then false else pending_ p !!! j) /\
    forall c', i <> 0%nat -> best p' c' <> i.
Proof.
  intros Hw. pose proof (plic_claim_wf p c Hw) as [Hw' Hn]. unfold plic_claim in *. cbv zeta in *. cbn [snd] in Hw', Hn.
  pose proof (best_spec p c (pl_zero p Hw)) as Hc. exists (best p c). split; [done|]. split; [done|]. split; [done|].
  set (p1 := if (best p c =? 0)%nat then p else p <| pending_ ::= <[best p c := false]> |>) in *.
  assert (forall j, pending_ p1 !!! j = if decide (best p c <> 0%nat /\ j = best p c) then false else pending_ p !!! j) as Hp.
  { intros j. unfold p1. destruct (Nat.eqb_spec (best p c) 0) as [E|E]; [by rewrite decide_False by naive_solver|].
    destruct Hc as [[? _]|[(Hr & _) _]]; [done|].
    change (pending_ (p <| pending_ ::= <[best p c := false]> |>)) with (<[best p c := false]> (pending_ p)).
    rewrite lookup_total_insert_cases by (rewrite (pl_pending p Hw); lia).
    repeat case_decide; naive_solver. }
  split; [unfold p1; by destruct (_ =? _)%nat|]. split; [unfold p1; by destruct (_ =? _)%nat|].
  split; [exact Hp|]. intros c' Hi Hb.
  destruct (best_spec (plic_notify p1) c' (pl_zero _ Hw')) as [[E _]|[(_ & Hpend & _) _]]; [congruence|].
  rewrite Hb in Hpend. change (pending_ (plic_notify p1)) with (pending_ p1) in Hpend.
  by rewrite Hp, decide_True in Hpend.
Qed.

(** A source in service: claimed and not completed. *)
Definition in_service p (i : nat) : Prop := pending_ p !!! i = false /\ busy_ p !!! i = true.

(** A write that completes source [i], for whichever context. *)
Definition completes (op : plic_op) (i : nat) : Prop :=
  match op with
  | PlicWrite _ offset data lanes =>
      exists a, access offset lanes = Some a /\ acc_address a mod 0x1000 = 4 /\ u32 (get_word data a) = Z.of_nat i
  | _ => False
  end.

Lemma settle_in_service level p i : plic_wf p -> in_service p i -> in_service (plic_settle level p) i.
Proof.
  intros Hw [Hp Hb]. destruct (plic_settle_spec level p Hw) as (_ & _ & _ & Hl). specialize (Hl i).
  unfold latched in Hl. rewrite Hp, Hb in Hl. simpl in Hl. rewrite andb_false_r in Hl. by injection Hl.
Qed.

Lemma write_update_in_service offset value p i :
  plic_wf p -> 0 <= value -> in_service p i -> ~ (offset mod 0x1000 = 4 /\ value = Z.of_nat i) ->
  in_service (write_update offset value p) i.
Proof.
  intros Hw Hv Hs Hn. unfold write_update. destruct (_ && _ && _); [done|]. destruct (in_bank _ _ _ _); [done|].
  destruct (in_bank _ _ _ _); [|done]. destruct (_ =? 0); [done|].
  destruct (Z.eqb_spec (offset mod 0x1000) 4) as [E|]; [|done]. unfold plic_complete.
  destruct (_ && _ && _) eqn:Ec; [|done]. rewrite !andb_true_iff, Z.leb_le in Ec. destruct Ec as [[_ Hle] _].
  destruct Hs as [Hp Hb]. split; [done|].
  change (busy_ (p <| busy_ ::= <[Z.to_nat value := false]> |>)) with (<[Z.to_nat value := false]> (busy_ p)).
  rewrite lookup_total_insert_cases by (rewrite (pl_busy p Hw); lia). case_decide; [|done]. subst i.
  destruct Hn. split; [done|]. lia.
Qed.

Lemma plic_exec_in_service op p i :
  plic_op_wf op -> op <> PlicReset -> ~ completes op i -> plic_wf p -> in_service p i -> in_service (plic_exec op p) i.
Proof.
  intros Ho Hr Hc Hw Hs. destruct op as [|level|offset data lanes|level offset data lanes]; simpl; [done | | |].
  - by apply settle_in_service.
  - unfold plic_read. destruct (access offset lanes) as [a|]; [|done]. destruct (_ || _); [done|].
    destruct (_ =? _)%nat; [done|].
    assert (in_service (plic_read_register (acc_address a) p).2 i) as Hi; [|by destruct (plic_read_register _ _)].
    unfold plic_read_register. repeat case_match; try done. unfold plic_claim. simpl.
    destruct (_ =? 0)%nat; [done|]. destruct Hs as [Hp Hb]. split; [|done].
    change (pending_ (plic_notify ?q)) with (pending_ q). simpl.
    destruct (decide (best p (Z.to_nat ((acc_address a - 2097152) / 4096)) = i)) as [->|].
    + destruct (decide (i < length (pending_ p))%nat); [by apply list_lookup_total_insert_eq|].
      by rewrite list_insert_ge by lia.
    + by rewrite list_lookup_total_insert_ne.
  - unfold plic_write. destruct (access offset lanes) as [a|] eqn:Ha; [|done].
    destruct (_ || _) eqn:E; [done|]. destruct (acc_size a =? 0)%nat eqn:Ez; [done|]. simpl.
    apply orb_false_iff in E as [E8 _]. apply Nat.eqb_neq in E8, Ez.
    pose proof Ha as [[_ ->]|(Hsz & _ & _ & Hmod & _)]%access_spec; [done | | done].
    assert (acc_size a = 4%nat) as E4 by lia. rewrite E4 in Hmod. rewrite write_register_update.
    apply settle_in_service; [by apply write_update_wf|].
    apply write_update_in_service; [done | by apply Z.mod_pos_bound | done|]. intros [H4 Hv]. apply Hc. exists a. by split_and!.
Qed.

(** The gateway of a source stays closed while the source is in service:
    whatever levels the inputs show and whatever is read and written, a claimed
    source is offered to no context before it is completed (or the PLIC reset). *)
Theorem plic_source_in_service_is_masked p i ops :
  plic_wf p -> notified p -> in_service p i ->
  Forall (fun op => plic_op_wf op /\ op <> PlicReset /\ ~ completes op i) ops ->
  let p' := foldl (fun p op => plic_exec op p) p ops in
  in_service p' i /\ forall c, i <> 0%nat -> best p' c <> i.
Proof.
  intros Hw Hn Hs Hops. cbv zeta.
  assert (plic_wf (foldl (fun p op => plic_exec op p) p ops) /\ in_service (foldl (fun p op => plic_exec op p) p ops) i)
    as [Hw' Hs'].
  { revert p Hw Hn Hs. induction Hops as [|op ops (Ho & Hr & Hc) _ IH]; intros p Hw Hn Hs; [done|]. simpl.
    destruct (plic_exec_wf op p Ho Hw Hn). apply IH; [done | done | by apply plic_exec_in_service]. }
  split; [done|]. intros c Hi Hb. destruct Hs' as [Hp _].
  destruct (best_spec _ c (pl_zero _ Hw')) as [[E _]|[(_ & Hpend & _) _]]; congruence.
Qed.
End PlicInvariant.

(** ** Examples *)
Definition word_lanes : list Z := [1; 1; 1; 1].
Definition high_word_lanes : list Z := [0; 0; 0; 0; 1; 1; 1; 1].

Lemma access_accepts_exactly_aligned_words_witness :
  get_word (put_word [9; 9; 9; 9; 9; 9; 9; 9] {| acc_address := 0x4004; acc_lane := 4; acc_size := 4 |} 0x1_2345_6789)
    {| acc_address := 0x4004; acc_lane := 4; acc_size := 4 |} = 0x2345_6789.
Proof.
  set (a := {| acc_address := 0x4004; acc_lane := 4; acc_size := 4 |}).
  destruct (access_accepts_exactly_aligned_words 0x4000 high_word_lanes a [9; 9; 9; 9; 9; 9; 9; 9] 0x1_2345_6789)
    as [Ha Hw]; [unfold fits; lia | done | lia|].
  assert (access 0x4000 high_word_lanes = Some a) as E by done.
  apply Ha in E as [[_ E]|E]; [discriminate E|]. apply Hw in E as [E _]. exact E.
Defined.

Lemma clint_time_advances_once_per_divider_witness :
  time_ (Nat.iter 7 clint_tick {| divider_ := 3; phase_ := 0; compare_ := 5; time_ := 0; timer_ := 0; software_ := 0 |}) = 2.
Proof.
  destruct (clint_time_advances_once_per_divider 7
    {| divider_ := 3; phase_ := 0; compare_ := 5; time_ := 0; timer_ := 0; software_ := 0 |}) as (_ & _ & _ & Ht).
  - constructor; simpl; unfold fits; (lia || auto).
  - exact Ht.
Defined.

Lemma clint_timer_interrupt_is_up_to_date_witness :
  timer_ (foldl (fun c op => clint_exec op c)
    (clint_reset {| divider_ := 2; phase_ := 0; compare_ := UINT64_MAX; time_ := 0; timer_ := 0; software_ := 0 |})
    [ClintWrite 0x4000 [1; 0; 0; 0; 0; 0; 0; 0] [1; 1; 1; 1; 1; 1; 1; 1]; ClintTick; ClintTick]) = 1.
Proof.
  pose proof (clint_timer_interrupt_is_up_to_date 2
    [ClintWrite 0x4000 [1; 0; 0; 0; 0; 0; 0; 0] [1; 1; 1; 1; 1; 1; 1; 1]; ClintTick; ClintTick]
    ltac:(unfold fits; lia)) as [H _]. exact H.
Defined.

Lemma clint_timer_registers_read_back_witness :
  get_word (clint_read 0x4000 [0; 0; 0; 0; 0; 0; 0; 0] high_word_lanes
    (clint_write 0x4000 [0; 0; 0; 0; 7; 0; 0; 0] high_word_lanes
      (clint_reset {| divider_ := 2; phase_ := 0; compare_ := 0; time_ := 0; timer_ := 0; software_ := 0 |})).2).2
    {| acc_address := 0x4004; acc_lane := 4; acc_size := 4 |} = 7.
Proof.
  set (a := {| acc_address := 0x4004; acc_lane := 4; acc_size := 4 |}).
  assert (aligned_word 0x4000 high_word_lanes a) as Ha.
  { destruct (proj1 (access_spec 0x4000 high_word_lanes a ltac:(unfold fits; lia))) as [[_ E]|E]; [done | discriminate E | exact E]. }
  pose proof (clint_timer_registers_read_back 0x4000 high_word_lanes a [0; 0; 0; 0; 7; 0; 0; 0] [0; 0; 0; 0; 0; 0; 0; 0]
    (clint_reset {| divider_ := 2; phase_ := 0; compare_ := 0; time_ := 0; timer_ := 0; software_ := 0 |})
    ltac:(apply clint_reset_wf; simpl; lia) ltac:(unfold fits; lia) Ha eq_refl
    ltac:(repeat constructor; unfold fits; lia) eq_refl eq_refl) as H.
  destruct (clint_write _ _ _ _) as [r c'] eqn:E. cbn [snd]. destruct (clint_read _ _ _ c') as [r' out].
  destruct H as (_ & _ & H & _). exact H.
Defined.

(** A PLIC of two sources whose second one has the higher priority. *)
Definition plic_example_ops : list plic_op :=
  [PlicWrite (fun _ => 0) 4 [1; 0; 0; 0] word_lanes; PlicWrite (fun _ => 0) 8 [3; 0; 0; 0] word_lanes;
   PlicWrite (fun _ => 0) 0x2000 [6; 0; 0; 0] word_lanes; PlicSettle (fun _ => 1)].
Definition plic_example : Plic :=
  match mk_plic 2 1 with Ok p => foldl (fun p op => plic_exec op p) p plic_example_ops | Throw _ => plic_reset (mk_plic_state 0 0 [] [] [] [] [] []) end.

Lemma plic_example_wf : plic_wf plic_example /\ notified plic_example.
Proof.
  unfold plic_example. pose proof (mk_plic_spec 2 1) as Hmk. destruct (mk_plic 2 1) as [p|e] eqn:E; [|discriminate E].
  destruct Hmk as [Hw Hn]. clear E. assert (Forall plic_op_wf plic_example_ops) as Hops
    by (repeat constructor; unfold plic_op_wf, fits; lia).
  revert p Hw Hn. induction Hops as [|op ops Ho _ IH]; intros p Hw Hn; [done|].
  simpl. destruct (plic_exec_wf op p Ho Hw Hn). by apply IH.
Qed.

Lemma plic_lines_are_up_to_date_witness :
  exists i, chosen plic_example 0 i /\ irqs_ plic_example !!! 0%nat = b2z (0 <? priority_ plic_example !!! i).
Proof.
  destruct (mk_plic 2 1) as [p|e] eqn:E; [|discriminate E].
  destruct (plic_lines_are_up_to_date 2 1 plic_example_ops p E) as [_ Hl].
  - repeat constructor; unfold plic_op_wf, fits; lia.
  - unfold plic_example. rewrite E. injection E as <-. apply (Hl 0%nat). vm_compute. lia.
Defined.

Lemma plic_claim_takes_the_best_source_witness :
  exists i, 2 = Z.of_nat i /\ chosen plic_example 0 i.
Proof.
  pose proof (plic_claim_takes_the_best_source plic_example 0 (proj1 plic_example_wf)) as H.
  destruct (plic_claim plic_example 0) as [id p'] eqn:E. destruct H as (i & Hid & Hc & _).
  exists i. split; [|exact Hc]. rewrite <- Hid. assert (id = (plic_claim plic_example 0).1) as -> by (rewrite E; reflexivity).
  vm_compute. reflexivity.
Defined.

Lemma plic_source_in_service_is_masked_witness :
  best (plic_exec (PlicSettle (fun _ => 1)) (plic_claim plic_example 0).2) 0 <> 2%nat.
Proof.
  destruct (plic_claim_wf plic_example 0 (proj1 plic_example_wf)) as [Hw Hn].
  destruct (plic_source_in_service_is_masked (plic_claim plic_example 0).2 2 [PlicSettle (fun _ => 1)] Hw Hn) as [_ H].
  - split; vm_compute; reflexivity.
  - repeat constructor; [discriminate | intros []].
  - apply (H 0%nat). discriminate.
Defined.
