(* ===== verification/Heap.v ===== *)
(** * The device objects (src/devices.hpp, src/device.hpp, interrupt_devices.cpp)

    The concrete heap: the list of the device objects of a platform, a
    [Device *] being an index.  [AnyDevice] is the closed set of classes derived
    from [Device] in the repository; the virtual methods dispatch on it.  A
    sideband [InputSignal] holds a pointer to a [Signal] of another object, here
    the object and the name of the output, and reads it in the current heap. *)
From S2P Require Import Prelude Text Axi Device Memory Uart Interrupts.

Record Signal := { sig_width : Z; sig_value : Z }.
Definition SignalRef : Type := DevicePtr * string.

Inductive AnyDevice (B : Type) :=
| DevRom (bytes : list Z)
| DevRam (bytes : list Z)
| DevUart (u : UartDevice B)
| DevExit (e : ExitDevice)
| DevClint (c : Clint)
| DevPlic (p : Plic) (inputs : list (option SignalRef)).
Arguments DevRom {B} bytes.
Arguments DevRam {B} bytes.
Arguments DevUart {B} u.
Arguments DevExit {B} e.
Arguments DevClint {B} c.
Arguments DevPlic {B} p inputs.

(** [index] of interrupt_devices.cpp: a name [prefix]N with N below [limit]. *)
Definition port_index (name prefix : string) (limit : nat) : option nat :=
  match strip_prefix prefix name with
  | None => None
  | Some digits =>
      match from_all_chars 32 10 digits with
      | Some v => if v <? Z.of_nat limit then Some (Z.to_nat v) else None
      | None => None
      end
  end.

Section Heap.
Context {B : Type} `{!UartBackend B}.

Definition Heap : Type := list (AnyDevice B).

Definition device_output (dev : AnyDevice B) (name : string) : option Signal :=
  match dev with
  | DevUart u => if bool_decide (name = "irq") then Some {| sig_width := 1; sig_value := irq_ u |}
                 else None
  | DevClint c =>
      if bool_decide (name = "mtime") then Some {| sig_width := 64; sig_value := time_ c |}
      else if bool_decide (name = "mtip") then Some {| sig_width := 1; sig_value := timer_ c |}
      else if bool_decide (name = "msip") then Some {| sig_width := 1; sig_value := software_ c |}
      else None
  | DevPlic p _ =>
      (fun i => {| sig_width := 1; sig_value := irqs_ p !!! i |}) <$> port_index name "context" (contexts_ p)
  | _ => None
  end.

(** The index of the [InputSignal] a name denotes. *)
Definition device_input (dev : AnyDevice B) (name : string) : option nat :=
  match dev with
  | DevPlic p _ =>
      match port_index name "source" (sources_ p + 1) with
      | Some (S i) => Some (S i)
      | _ => None
      end
  | _ => None
  end.

(** [InputSignal::value] *)
Definition signal_value (h : Heap) (source : option SignalRef) : Z :=
  match source with
  | None => 0
  | Some (d, name) =>
      match h !! d with
      | Some dev => match device_output dev name with Some s => sig_value s | None => 0 end
      | None => 0
      end
  end.

Definition input_level (h : Heap) (inputs : list (option SignalRef)) (i : nat) : Z :=
  signal_value h (mjoin (inputs !! i)).

Definition heap_read (d : DevicePtr) (offset : Z) (data enable : list Z) (h : Heap)
  : Response * list Z * Heap :=
  match h !! d with
  | Some (DevRom bytes) => (rom_read bytes offset data enable, h)
  | Some (DevRam bytes) => (ram_read bytes offset data enable, h)
  | Some (DevUart u) =>
      let '(r, data', u') := uart_read offset data enable u in (r, data', <[d := DevUart u']> h)
  | Some (DevExit e) => (exit_read e offset data enable, h)
  | Some (DevClint c) => (clint_read offset data enable c, h)
  | Some (DevPlic p inputs) =>
      let '(r, data', p') := plic_read offset data enable p in
      (r, data', <[d := DevPlic p' inputs]> h)
  | None => (SlaveError, data, h)
  end.

Definition heap_write (d : DevicePtr) (offset : Z) (data strobe : list Z) (h : Heap)
  : Response * Heap :=
  match h !! d with
  | Some (DevRom bytes) =>
      let '(r, bytes') := rom_write bytes offset data strobe in (r, <[d := DevRom bytes']> h)
  | Some (DevRam bytes) =>
      let '(r, bytes') := ram_write bytes offset data strobe in (r, <[d := DevRam bytes']> h)
  | Some (DevUart u) =>
      let '(r, u') := uart_write offset data strobe u in (r, <[d := DevUart u']> h)
  | Some (DevExit e) =>
      let '(r, e') := exit_write e offset data strobe in (r, <[d := DevExit e']> h)
  | Some (DevClint c) =>
      let '(r, c') := clint_write offset data strobe c in (r, <[d := DevClint c']> h)
  | Some (DevPlic p inputs) =>
      let '(r, p') := plic_write (input_level h inputs) offset data strobe p in
      (r, <[d := DevPlic p' inputs]> h)
  | None => (SlaveError, h)
  end.

Definition heap_load (d : DevicePtr) (offset : Z) (data : list Z) (h : Heap) : Response * Heap :=
  match h !! d with
  | Some (DevRom bytes) =>
      let '(r, bytes') := rom_load bytes offset data in (r, <[d := DevRom bytes']> h)
  | Some (DevRam bytes) =>
      let '(r, bytes') := ram_load bytes offset data in (r, <[d := DevRam bytes']> h)
  | _ => (SlaveError, h)
  end.

Definition is_memory (h : Heap) (d : DevicePtr) : bool :=
  match h !! d with Some (DevRom _) | Some (DevRam _) => true | _ => false end.
Definition is_ram (h : Heap) (d : DevicePtr) : bool :=
  match h !! d with Some (DevRam _) => true | _ => false end.
Definition is_exit_device (h : Heap) (d : DevicePtr) : bool :=
  match h !! d with Some (DevExit _) => true | _ => false end.

Definition reset_device (h : Heap) (dev : AnyDevice B) : AnyDevice B :=
  match dev with
  | DevUart u => DevUart (uart_reset u)
  | DevExit e => DevExit (exit_clear e)
  | DevClint c => DevClint (clint_reset c)
  | DevPlic p inputs => DevPlic (plic_reset p) inputs
  | dev => dev
  end.
Definition tick_device (h : Heap) (dev : AnyDevice B) : AnyDevice B :=
  match dev with
  | DevUart u => DevUart (uart_tick u)
  | DevClint c => DevClint (clint_tick c)
  | dev => dev
  end.
Definition settle_device (h : Heap) (dev : AnyDevice B) : AnyDevice B :=
  match dev with
  | DevUart u => DevUart (uart_settle u)
  | DevClint c => DevClint (clint_settle c)
  | DevPlic p inputs => DevPlic (plic_settle (input_level h inputs) p) inputs
  | dev => dev
  end.
Definition heap_call (method : Heap -> AnyDevice B -> AnyDevice B) (d : DevicePtr) (h : Heap) : Heap :=
  alter (method h) d h.

#[export] Instance heap_devices : DeviceHeap Heap := {|
  read_impl := heap_read;
  write_impl := heap_write;
  load_impl := heap_load;
  loadable := is_memory;
  can_load h d offset size :=
    match h !! d with
    | Some (DevRom bytes) => rom_can_load bytes offset size
    | Some (DevRam bytes) => ram_can_load bytes offset size
    | _ => false
    end;
  supports_exclusive := is_ram;
  supports_burst := is_memory;
  is_exit := is_exit_device;
  device_exit_code h d := match h !! d with Some (DevExit e) => code_ e | _ => 0 end;
  device_reset := heap_call reset_device
|}.

Lemma uart_read_length offset data enable (u : UartDevice B) :
  length (uart_read offset data enable u).1.2 = length data.
Proof.
  unfold uart_read. destruct (negb _); [done|].
  assert (forall lanes data (u : UartDevice B),
    length (uart_read_lanes lanes offset enable data u).1 = length data) as Hl.
  { induction lanes as [|l lanes IH]; intros data0 u0; [done|]. simpl.
    destruct (nz _); [|apply IH]. destruct (uart_read_register _ _) as [v u'].
    by rewrite IH, length_insert. }
  specialize (Hl (seq 0 (length data)) data (poll_input u)).
  by destruct (uart_read_lanes _ _ _ _ _).
Qed.

#[export] Instance heap_laws : DeviceHeapLaws Heap.
Proof.
  constructor. intros d off data en h. simpl. unfold heap_read.
  destruct (h !! d) as [[bytes|bytes|u|e|c|p inputs]|] eqn:E; simpl; try done.
  - by apply memory_read_length.
  - by apply memory_read_length.
  - pose proof (uart_read_length off data en u). by destruct (uart_read _ _ _ _) as [[??]?].
  - unfold exit_read. destruct (in_bounds _ _ _); simpl; by rewrite ?masked_copy_length.
  - unfold clint_read, put_word. repeat case_match; simpl; by rewrite ?masked_copy_length.
  - unfold plic_read, put_word. destruct (access off en) as [a|]; [|done].
    destruct (_ || _); [done|]. destruct (acc_size a =? 0)%nat; [done|].
    destruct (plic_read_register _ _). simpl. by rewrite masked_copy_length.
Qed.
End Heap.
Arguments Heap : clear implicits.
