(* ===== verification/HeapLines.v ===== *)
(** * Output signals and the accesses of a bus

    Whatever is called on the devices, an object keeps the outputs it has had
    from the start, and the CLINTs and PLICs keep their invariants.  A signal
    that has been bound once can be read for ever. *)
From S2P Require Import Prelude Text Axi Device Memory Uart Interrupts InterruptTheorems Heap.

Section Lines.
Context {B : Type} `{!UartBackend B}.
Implicit Types (h : Heap B) (d : DevicePtr) (dev : AnyDevice B).

Definition device_wf dev : Prop :=
  match dev with
  | DevClint c => clint_wf c
  | DevPlic p _ => plic_wf p /\ notified p
  | _ => True
  end.

(** The names and widths of the outputs. *)
Definition output_width dev (name : string) : option Z := sig_width <$> device_output dev name.

Record keeps_lines dev dev' : Prop := {
  kl_width name : output_width dev' name = output_width dev name;
  kl_wf : device_wf dev -> device_wf dev'
}.

#[export] Instance keeps_lines_preorder : PreOrder keeps_lines.
Proof. split; [done|]. intros x y z [H1 H2] [H3 H4]. split; [intros; by rewrite H3 | auto]. Qed.

Definition heap_lines : Heap B -> Heap B -> Prop := Forall2 keeps_lines.

#[export] Instance heap_lines_preorder : PreOrder heap_lines.
Proof. unfold heap_lines. split; apply _. Qed.

Lemma heap_lines_lookup h h' d dev :
  heap_lines h h' -> h !! d = Some dev -> exists dev', h' !! d = Some dev' /\ keeps_lines dev dev'.
Proof. intros Hh Hd. by eapply Forall2_lookup_l. Qed.

Lemma heap_lines_wf h h' : heap_lines h h' -> Forall device_wf h -> Forall device_wf h'.
Proof.
  intros Hh Hw. apply Forall_lookup. intros d dev' Hd.
  destruct (Forall2_lookup_r _ _ _ _ _ Hh Hd) as (dev & Hd0 & Hk). apply Hk. by eapply Forall_lookup_1.
Qed.

Lemma heap_lines_insert h d dev dev' :
  h !! d = Some dev -> keeps_lines dev dev' -> heap_lines h (<[d := dev']> h).
Proof.
  intros Hd Hk. assert (h = <[d := dev]> h) as E.
  { unfold Heap, DevicePtr in *. symmetry. by apply list_insert_id. }
  rewrite E at 1. apply Forall2_insert; [apply (reflexivity (R := heap_lines)) | done].
Qed.

(** ** The registers of the devices *)
Lemma clint_lines (c c' : Clint) : (clint_wf c -> clint_wf c') -> keeps_lines (DevClint c) (DevClint c').
Proof.
  intros Hw. split; [|done]. intros name. unfold output_width. cbn. by repeat case_bool_decide.
Qed.

Lemma plic_lines (p p' : Plic) inputs inputs' :
  contexts_ p' = contexts_ p -> (plic_wf p /\ notified p -> plic_wf p' /\ notified p') ->
  keeps_lines (DevPlic p inputs) (DevPlic p' inputs').
Proof.
  intros Hc Hw. split; [|done]. intros name. unfold output_width. cbn. rewrite Hc. by destruct (port_index _ _ _).
Qed.

Lemma uart_lines (u u' : UartDevice B) : keeps_lines (DevUart u) (DevUart u').
Proof. split; [|done]. intros name. unfold output_width. cbn. by case_bool_decide. Qed.

(** Devices without outputs. *)
Definition no_output dev : bool :=
  match dev with DevRom _ | DevRam _ | DevExit _ => true | _ => false end.
Lemma no_output_lines dev dev' : no_output dev = true -> no_output dev' = true -> keeps_lines dev dev'.
Proof. intros. split; destruct dev, dev'; done. Qed.

Lemma gateway_contexts level p i : contexts_ (gateway level p i) = contexts_ p.
Proof. unfold gateway. by destruct (_ && _). Qed.

Lemma plic_settle_contexts level p : contexts_ (plic_settle level p) = contexts_ p.
Proof.
  unfold plic_settle. change (contexts_ (plic_notify ?q)) with (contexts_ q).
  generalize (seq 1 (sources_ p)) as l. intros l. revert p. induction l as [|i l IH]; intros p; [done|].
  cbn [foldl]. by rewrite IH, gateway_contexts.
Qed.

Lemma write_update_contexts offset value p : contexts_ (write_update offset value p) = contexts_ p.
Proof. unfold write_update, plic_complete. by repeat case_match. Qed.

Lemma plic_write_contexts level offset data lanes p :
  contexts_ (plic_write level offset data lanes p).2 = contexts_ p.
Proof.
  unfold plic_write. destruct (access _ _); [|done]. destruct (_ || _); [done|]. destruct (_ =? _)%nat; [done|].
  cbn [snd]. by rewrite write_register_update, plic_settle_contexts, write_update_contexts.
Qed.

Lemma plic_read_contexts offset data lanes p :
  contexts_ (plic_read offset data lanes p).2 = contexts_ p.
Proof.
  unfold plic_read. destruct (access _ _) as [a|]; [|done]. destruct (_ || _); [done|]. destruct (_ =? _)%nat; [done|].
  assert (contexts_ (plic_read_register (acc_address a) p).2 = contexts_ p) as Hr.
  { unfold plic_read_register, plic_claim. repeat case_match; done. }
  by destruct (plic_read_register _ _).
Qed.

(** ** The methods of the devices *)
Definition method_lines (method : Heap B -> AnyDevice B -> AnyDevice B) : Prop :=
  forall h dev, keeps_lines dev (method h dev).

Lemma reset_lines : method_lines reset_device.
Proof.
  intros h [ | |u|e|c|p inputs]; try by apply no_output_lines.
  - apply uart_lines.
  - apply clint_lines. intros Hw. apply clint_reset_wf, Hw.
  - apply plic_lines; [done|]. intros [Hw _]. by apply plic_reset_wf.
Qed.

Lemma tick_lines : method_lines tick_device.
Proof.
  intros h [ | |u|e|c|p inputs]; try by apply no_output_lines.
  - apply uart_lines.
  - apply clint_lines. intros Hw. by apply clint_tick_spec.
  - by apply plic_lines.
Qed.

Lemma settle_lines : method_lines settle_device.
Proof.
  intros h [ | |u|e|c|p inputs]; try by apply no_output_lines.
  - apply uart_lines.
  - apply clint_lines. intros []. by apply clint_settle_wf.
  - apply plic_lines; [apply plic_settle_contexts|]. intros [Hw _]. by destruct (plic_settle_spec (input_level h inputs) p Hw) as (? & ? & _).
Qed.

Lemma heap_call_lines method d h : method_lines method -> heap_lines h (heap_call method d h).
Proof.
  intros Hm. unfold heap_lines, heap_call, Heap, DevicePtr in *.
  apply Forall2_same_length_lookup_2; [by rewrite length_alter|]. intros i dev dev' Hd.
  destruct (decide (d = i)) as [->|].
  - rewrite list_lookup_alter_eq, Hd. intros [= <-]. apply Hm.
  - rewrite list_lookup_alter_ne, Hd by done. by intros [= <-].
Qed.

Lemma foldl_lines method order h :
  method_lines method -> heap_lines h (foldl (fun h d => heap_call method d h) h order).
Proof.
  intros Hm. revert h. induction order as [|d order IH]; intros h; [apply (reflexivity (R := heap_lines))|].
  cbn [foldl]. transitivity (heap_call method d h); [by apply heap_call_lines | apply IH].
Qed.

Lemma heap_read_lines d offset data enable h : heap_lines h (heap_read d offset data enable h).2.
Proof.
  unfold heap_read. destruct (h !! d) as [ [ | |u|e|c|p inputs]|] eqn:E; try apply (reflexivity (R := heap_lines)).
  - destruct (uart_read _ _ _ _) as [ [? ?] ?]. eapply heap_lines_insert; [exact E | apply uart_lines].
  - pose proof (plic_read_contexts offset data enable p) as Hc.
    pose proof (plic_read_wf offset data enable p) as Hw.
    destruct (plic_read _ _ _ _) as [ [? ?] p']. eapply heap_lines_insert; [exact E|].
    apply plic_lines; [exact Hc|]. intros [? ?]. by apply Hw.
Qed.

Lemma heap_write_lines d offset data strobe h : heap_lines h (heap_write d offset data strobe h).2.
Proof.
  unfold heap_write. destruct (h !! d) as [ [ | |u|e|c|p inputs]|] eqn:E; try apply (reflexivity (R := heap_lines)).
  - destruct (rom_write _ _ _ _). eapply heap_lines_insert; [exact E | by apply no_output_lines].
  - destruct (ram_write _ _ _ _). eapply heap_lines_insert; [exact E | by apply no_output_lines].
  - destruct (uart_write _ _ _ _). eapply heap_lines_insert; [exact E | apply uart_lines].
  - destruct (exit_write _ _ _ _). eapply heap_lines_insert; [exact E | by apply no_output_lines].
  - pose proof (clint_write_wf offset data strobe c) as Hw. destruct (clint_write _ _ _ _) as [? c'].
    eapply heap_lines_insert; [exact E | by apply clint_lines].
  - pose proof (plic_write_contexts (input_level h inputs) offset data strobe p) as Hc.
    pose proof (plic_write_wf (input_level h inputs) offset data strobe p) as Hw.
    destruct (plic_write _ _ _ _ _) as [? p']. eapply heap_lines_insert; [exact E|].
    apply plic_lines; [exact Hc|]. intros [? ?]. by apply Hw.
Qed.
End Lines.
