(* ===== verification/Host.v ===== *)
(** * Host services (struct [HostServices::State] of src/platform.cpp)

    The files a platform opens for its UARTs and the terminals it switches to
    raw mode, with their restoration when the platform is destroyed.  The
    operating system is a parameter: its state, its files and the functions of
    <stdio.h> and <termios.h> the code calls. *)
From S2P Require Import Prelude Memory.

Record Termios := mk_termios {
  c_iflag : Z; c_oflag : Z; c_cflag : Z; c_lflag : Z;
  c_cc : list Z
}.
#[export] Instance Termios_eta : Eta Termios := fun t =>
  mk_termios (c_iflag t) (c_oflag t) (c_cflag t) (c_lflag t) (c_cc t).

(** The calls of the code, with what they return and the state they leave.
    [tcsetattr] is the call with [TCSANOW]; [setvbuf] the one with [_IONBF];
    [open_error] is [std::strerror(errno)] after a failed [fopen].  Memory is
    the system's as well. *)
Class HostSystem := {
  Os : Type;
  File : Type;
  stdin : File;
  stdout : File;
  fopen : string -> string -> Os -> option File * Os;
  open_error : Os -> string;
  fclose : File -> Os -> Os;
  setvbuf : File -> Os -> Os;
  fileno : File -> Z;
  isatty : Z -> Os -> bool;
  tcgetattr : Z -> Os -> option Termios;
  tcsetattr : Z -> Termios -> Os -> bool * Os;
  os_memory :: ProcessMemory Os;
  ICANON : Z; ECHO : Z;
  VMIN : nat; VTIME : nat
}.

Section Host.
Context `{!HostSystem}.

Record Terminal := { descriptor : Z; original : Termios }.

(** The members of the state, and the system it acts on. *)
Record HostState := mk_host_state {
  files : list File;
  terminals : list Terminal;
  os : Os
}.
#[export] Instance HostState_eta : Eta HostState := fun s =>
  mk_host_state (files s) (terminals s) (os s).

Definition fresh_host (system : Os) : HostState :=
  {| files := []; terminals := []; os := system |}.

#[export] Instance host_memory : ProcessMemory HostState := {
  allocate_vector size s := let '(failure, system) := allocate_vector size (os s) in (failure, s <| os := system |>);
  map_anonymous size s := let '(mapped, system) := map_anonymous size (os s) in (mapped, s <| os := system |>)
}.

Definition raw_mode (original : Termios) : Termios :=
  original <| c_lflag ::= fun flags => Z.land flags (Z.lnot (Z.lor ICANON ECHO)) |>
           <| c_cc ::= fun cc => <[VTIME := 0]> (<[VMIN := 0]> cc) |>.

Definition open_file (path : string) (input : bool) : M HostState File := fun s =>
  let '(file, system) := fopen path (if input then "rb" else "wb") (os s) in
  match file with
  | None => (Throw (RuntimeError ("cannot open '" +:+ path +:+ "': " +:+ open_error system)),
             s <| os := system |>)
  | Some file => (Ok file, s <| os := system |> <| files ::= fun l => l ++ [file] |>)
  end.

Definition guarded (fd : Z) (s : HostState) : bool :=
  existsb (fun t => descriptor t =? fd) (terminals s).

Definition guard_terminal (fd : Z) (s : HostState) : HostState :=
  if negb (guarded fd s) && isatty fd (os s) then
    match tcgetattr fd (os s) with
    | Some original =>
        let s := s <| terminals ::= fun l => l ++ [{| descriptor := fd; original := original |}] |> in
        let '(success, system) := tcsetattr fd (raw_mode original) (os s) in
        let s := s <| os := system |> in
        if success then s
        else s <| terminals ::= fun l => take (length l - 1) l |>
    | None => s
    end
  else s.

Definition open (path : string) (input : bool) : M HostState File :=
  do file := if bool_decide (path = "-") then ret (if input then stdin else stdout)
             else open_file path input in
  (when input (modify (fun s => guard_terminal (fileno file) (s <| os ::= setvbuf file |>)))) ;;;
  ret file.

Definition open_input (path : string) : M HostState File := open path true.
Definition open_output (path : string) : M HostState File := open path false.

(** [~State]: the terminals, then the members. *)
Definition restore_terminals (s : HostState) : HostState :=
  s <| os ::= fun system =>
         foldl (fun system t => (tcsetattr (descriptor t) (original t) system).2) system (terminals s) |>.
Definition close_host (s : HostState) : Os :=
  foldl (fun system file => fclose file system) (os (restore_terminals s)) (files s).

(** ** What the system promises

    A terminal has one set of attributes, whichever descriptor it is reached by. *)
Class HostLaws := {
  Tty : Type;
  Tty_eq_dec :: EqDecision Tty;
  tty_of : Z -> Os -> option Tty;
  attributes : Tty -> Os -> Termios;
  tcgetattr_reads fd system t :
    tcgetattr fd system = Some t -> exists tty, tty_of fd system = Some tty /\ t = attributes tty system;
  tcsetattr_writes fd t system tty :
    tty_of fd system = Some tty ->
    let '(success, system') := tcsetattr fd t system in
    (forall fd', tty_of fd' system' = tty_of fd' system) /\
    forall tty', attributes tty' system' =
      if decide (tty' = tty) then if (success : bool) then t else attributes tty system
      else attributes tty' system;
  (** Attributes that were read from a terminal can be set again. *)
  tcsetattr_restores fd t before system tty :
    tty_of fd before = Some tty -> tcgetattr fd before = Some t -> tty_of fd system = Some tty ->
    (tcsetattr fd t system).1 = true;
  fopen_keeps path mode system :
    (forall tty, attributes tty (fopen path mode system).2 = attributes tty system) /\
    (forall fd tty, tty_of fd system = Some tty -> tty_of fd (fopen path mode system).2 = Some tty);
  setvbuf_keeps file system :
    (forall tty, attributes tty (setvbuf file system) = attributes tty system) /\
    (forall fd, tty_of fd (setvbuf file system) = tty_of fd system);
  fclose_keeps file system tty : attributes tty (fclose file system) = attributes tty system;
  allocate_keeps size system :
    (forall tty, attributes tty (allocate_vector size system).2 = attributes tty system) /\
    (forall fd, tty_of fd (allocate_vector size system).2 = tty_of fd system);
  map_keeps size system :
    (forall tty, attributes tty (map_anonymous size system).2 = attributes tty system) /\
    (forall fd, tty_of fd (map_anonymous size system).2 = tty_of fd system)
}.
End Host.
Arguments HostState {_}.

Section Theorems.
Context `{!HostSystem, !HostLaws}.
Implicit Types (s : HostState) (system : Os) (tty : Tty) (l : list Terminal).

(** The terminal an entry guards, in a given state of the system. *)
Definition guards system tty (t : Terminal) : Prop := tty_of (descriptor t) system = Some tty.
#[export] Instance guards_dec system tty t : Decision (guards system tty t).
Proof. unfold guards. solve_decision. Defined.

(** The first attributes a list of entries has saved of a terminal, and the last. *)
Definition first_saved system tty l : option Termios :=
  original <$> head (filter (guards system tty) l).
Definition last_saved system tty l : option Termios :=
  original <$> last (filter (guards system tty) l).

(** What a state has done to the system it started on: the first entry of a
    terminal has what it was, and terminals without an entry are unchanged. *)
Record host_ok (start : Os) s : Prop := {
  ho_guards : forall t, t ∈ terminals s -> is_Some (tty_of (descriptor t) (os s));
  ho_saved : forall t, t ∈ terminals s -> exists before tty,
    tty_of (descriptor t) before = Some tty /\ tty_of (descriptor t) (os s) = Some tty /\
    tcgetattr (descriptor t) before = Some (original t);
  ho_first : forall tty, attributes tty start
    = default (attributes tty (os s)) (first_saved (os s) tty (terminals s))
}.

Lemma fresh_host_ok system : host_ok system (fresh_host system).
Proof. by constructor; [intros t ?%elem_of_nil | intros t ?%elem_of_nil |]. Qed.

Lemma filter_guards_ext system system' tty l :
  (forall t, t ∈ l -> tty_of (descriptor t) system' = tty_of (descriptor t) system) ->
  filter (guards system' tty) l = filter (guards system tty) l.
Proof.
  induction l as [|t l IH]; intros Hl; [done|]. rewrite !filter_cons.
  rewrite IH by (intros t' ?; apply Hl; by right).
  assert (guards system' tty t <-> guards system tty t) as Hg
    by (unfold guards; by rewrite (Hl t) by (by left)).
  destruct (decide (guards system' tty t)), (decide (guards system tty t)); tauto || done.
Qed.

(** A call that changes no attributes and keeps the descriptors in use. *)
Lemma host_ok_quiet start s s' :
  host_ok start s -> terminals s' = terminals s ->
  (forall tty, attributes tty (os s') = attributes tty (os s)) ->
  (forall fd tty, tty_of fd (os s) = Some tty -> tty_of fd (os s') = Some tty) ->
  host_ok start s'.
Proof.
  intros [Hg Hs Hf] Ht Ha Hd. constructor; rewrite Ht.
  - intros t Hin. destruct (Hg t Hin) as [tty Hy]. eauto.
  - intros t Hin. destruct (Hs t Hin) as (before & tty & ? & ? & ?). eauto 10.
  - intros tty. rewrite Hf, Ha. unfold first_saved. do 3 f_equal. symmetry.
    apply filter_guards_ext. intros t Hin. destruct (Hg t Hin) as [y Hy]. rewrite Hy. eauto.
Qed.

Lemma first_saved_app system tty l t :
  first_saved system tty (l ++ [t])
    = match first_saved system tty l with
      | Some saved => Some saved
      | None => if decide (guards system tty t) then Some (original t) else None
      end.
Proof.
  unfold first_saved. rewrite filter_app, filter_cons, filter_nil.
  destruct (filter _ l); cbn; [by destruct (decide _)|done].
Qed.

Lemma guard_terminal_ok start fd s : host_ok start s -> host_ok start (guard_terminal fd s).
Proof.
  intros Hok. unfold guard_terminal. destruct (negb _ && _); [|done].
  destruct (tcgetattr fd (os s)) as [saved|] eqn:Eg; [|done].
  destruct (tcgetattr_reads fd (os s) saved Eg) as (tty & Hty & ->).
  pose proof (tcsetattr_writes fd (raw_mode (attributes tty (os s))) (os s) tty Hty) as Hw. cbn.
  destruct (tcsetattr fd _ (os s)) as [success system]. destruct Hw as [Hd Ha].
  destruct success; cbn.
  - destruct Hok as [Hg Hs Hf]. constructor; cbn.
    + intros t [Hin | ->%list_elem_of_singleton]%elem_of_app; rewrite Hd; [by apply Hg | by exists tty].
    + intros t [Hin | ->%list_elem_of_singleton]%elem_of_app.
      * destruct (Hs t Hin) as (before & y & ? & ? & ?). exists before, y. by rewrite Hd.
      * exists (os s), tty. cbn. by rewrite Hd.
    + intros y. rewrite Hf, first_saved_app, Ha.
      assert (first_saved system y (terminals s) = first_saved (os s) y (terminals s)) as ->.
      { unfold first_saved. f_equal. f_equal. by apply filter_guards_ext. }
      destruct (first_saved (os s) y (terminals s)); [done|].
      destruct (decide (guards system y _)) as [Hy|Hy]; unfold guards in Hy; cbn in Hy;
        rewrite Hd, Hty in Hy; by destruct (decide (y = tty)) as [->|]; simplify_eq.
  - apply (host_ok_quiet start s); [done | | |]; cbn.
    + rewrite length_app. cbn. by rewrite Nat.add_sub, take_app_length.
    + intros y. rewrite Ha. by destruct (decide _) as [->|].
    + intros fd' y Hy. by rewrite Hd.
Qed.

Lemma open_ok start path input s :
  host_ok start s -> wp (open path input) (fun _ => host_ok start) (fun _ => host_ok start) s.
Proof.
  intros Hok. unfold open. eapply wp_seq with (R := fun _ => host_ok start).
  - destruct (bool_decide _); [by apply wp_ret|]. unfold wp, open_file.
    destruct (fopen_keeps path (if input then "rb" else "wb") (os s)) as [Ha Hd].
    destruct (fopen _ _ _) as [[file|] system]; by apply (host_ok_quiet start s).
  - intros file s' Hok'. destruct input; cbn; wp_steps; [|done].
    apply guard_terminal_ok, (host_ok_quiet start s'); try done; destruct (setvbuf_keeps file (os s')) as [Ha Hd]; [done|].
    intros fd tty Hf. cbn. by rewrite Hd.
Qed.

(** Taking memory is quiet. *)
Lemma vector_buffer_ok start size s : host_ok start s -> host_ok start (vector_buffer size s).2.
Proof.
  intros Hok. destruct (allocate_keeps size (os s)) as [Ha Hd]. unfold vector_buffer. cbn.
  destruct (allocate_vector size (os s)) as [[failure|] system]; cbn in *;
    (apply (host_ok_quiet start s); [done | done | exact Ha | intros fd tty <-; apply Hd]).
Qed.

Lemma anonymous_mapping_ok start size s : host_ok start s -> host_ok start (anonymous_mapping size s).2.
Proof.
  intros Hok. destruct (map_keeps size (os s)) as [Ha Hd]. unfold anonymous_mapping. cbn.
  destruct (map_anonymous size (os s)) as [mapped system]; cbn in *.
  apply (host_ok_quiet start s); [done | done | exact Ha | intros fd tty <-; apply Hd].
Qed.

(** Restoring in the order of opening leaves each terminal with the attributes
    its last entry has saved. *)
Lemma restore_spec l system :
  (forall t, t ∈ l -> exists before tty, tty_of (descriptor t) before = Some tty /\
     tty_of (descriptor t) system = Some tty /\ tcgetattr (descriptor t) before = Some (original t)) ->
  forall tty, attributes tty
    (foldl (fun system t => (tcsetattr (descriptor t) (original t) system).2) system l)
    = default (attributes tty system) (last_saved system tty l).
Proof.
  revert system. induction l as [|t l IH]; intros system Hl tty; [done|]. cbn [foldl].
  destruct (Hl t ltac:(by left)) as (before & y & Hb & Hy & Hg).
  pose proof (tcsetattr_writes _ (original t) _ _ Hy) as Hw.
  pose proof (tcsetattr_restores _ _ _ _ _ Hb Hg Hy) as Hs.
  destruct (tcsetattr (descriptor t) (original t) system) as [success system']. cbn [fst snd] in *.
  subst success. destruct Hw as [Hd Ha]. rewrite IH.
  - unfold last_saved. rewrite filter_cons, (filter_guards_ext system system' tty l) by done.
    rewrite Ha. destruct (decide (guards system tty t)) as [He|He]; unfold guards in He; rewrite Hy in He;
      destruct (decide (tty = y)) as [->|Hne]; simplify_eq; try done.
    rewrite last_cons. by destruct (last _).
  - intros t' Hin. destruct (Hl t' ltac:(by right)) as (b & z & ? & ? & ?). exists b, z. by rewrite Hd.
Qed.

(** Every terminal is guarded through one descriptor. *)
Definition one_descriptor s : Prop :=
  forall tty, (length (filter (guards (os s) tty) (terminals s)) <= 1)%nat.

Lemma close_host_attributes start s tty :
  host_ok start s ->
  attributes tty (close_host s)
    = default (attributes tty (os s)) (last_saved (os s) tty (terminals s)).
Proof.
  intros [_ Hs _]. unfold close_host. cbn [files restore_terminals os].
  rewrite <- (restore_spec (terminals s) (os s) Hs tty).
  generalize (files s) as l. intros l. change (os (restore_terminals s)) with
    (foldl (fun system t => (tcsetattr (descriptor t) (original t) system).2) (os s) (terminals s)).
  generalize (foldl (fun system t => (tcsetattr (descriptor t) (original t) system).2) (os s) (terminals s)).
  induction l as [|file l IH]; intros system; [done|]. cbn [foldl]. by rewrite IH, fclose_keeps.
Qed.

Lemma close_host_restores start s tty :
  host_ok start s -> one_descriptor s -> attributes tty (close_host s) = attributes tty start.
Proof.
  intros Hok Hone. rewrite (close_host_attributes start) by done. rewrite (ho_first start s Hok).
  unfold first_saved, last_saved. specialize (Hone tty).
  destruct (filter _ _) as [|t [|t' l]]; [done | done | cbn in Hone; lia].
Qed.
End Theorems.
