(* ===== verification/HostExamples.v ===== *)
(** * A host with two terminals

    Descriptors 0 and 1 and the device file /dev/tty are one terminal; /dev/ttyS1
    is another.  The laws of [Host.v] hold of it, and one terminal behind two
    descriptors shows what the order of restoration matters for. *)
From S2P Require Import Prelude Memory Host.

(** Attributes per terminal, and the terminal of each open descriptor. *)
Record DemoOs := mk_demo_os { modes : nat -> Termios; opened : list (option nat) }.

Definition demo_path (path : string) : option (option nat) :=
  if bool_decide (path = "/dev/tty") then Some (Some 0%nat)
  else if bool_decide (path = "/dev/ttyS1") then Some (Some 1%nat)
  else if bool_decide (path = "/missing") then None
  else Some None.

Definition demo_tty (fd : Z) (system : DemoOs) : option nat :=
  if fd <? 0 then None else mjoin (opened system !! Z.to_nat fd).

Definition set_mode (tty : nat) (t : Termios) (f : nat -> Termios) (tty' : nat) : Termios :=
  if decide (tty' = tty) then t else f tty'.

(** Vectors of at most 2^20 bytes, and no mappings. *)
#[export] Instance demo_memory : ProcessMemory DemoOs := {
  allocate_vector size system := (if size <=? 2 ^ 20 then None else Some (NoMemory "std::bad_alloc"), system);
  map_anonymous _ system := (false, system)
}.

#[export] Instance demo_host : HostSystem := {
  Os := DemoOs;
  File := Z;
  stdin := 0;
  stdout := 1;
  fopen path mode system :=
    match demo_path path with
    | None => (None, system)
    | Some tty => (Some (Z.of_nat (length (opened system))),
                   mk_demo_os (modes system) (opened system ++ [tty]))
    end;
  open_error _ := "No such file or directory";
  fclose _ system := system;
  setvbuf _ system := system;
  fileno file := file;
  isatty fd system := bool_decide (is_Some (demo_tty fd system));
  tcgetattr fd system := (fun tty => modes system tty) <$> demo_tty fd system;
  tcsetattr fd t system :=
    match demo_tty fd system with
    | Some tty => (true, mk_demo_os (set_mode tty t (modes system)) (opened system))
    | None => (false, system)
    end;
  os_memory := demo_memory;
  ICANON := 2; ECHO := 8; VMIN := 6; VTIME := 5
}.

#[export] Instance demo_host_laws : HostLaws.
Proof.
  refine {| Tty := nat; tty_of := demo_tty : Z -> Os -> option nat;
            attributes := fun tty (system : Os) => modes system tty |}.
  - intros fd system t. cbn. destruct (demo_tty fd system) as [tty|]; [|done]. cbn. intros [= <-].
    by exists tty.
  - intros fd t system tty. cbn. intros Hy. rewrite Hy. split; [done|]. intros tty'. cbn. unfold set_mode.
    by destruct (decide (tty' = tty)).
  - intros fd t before system tty. cbn. intros _ _ Hy. by rewrite Hy.
  - intros path mode system. cbn. destruct (demo_path path) as [y|]; [|done]. split; [done|].
    intros fd tty. cbn. unfold demo_tty. cbn. destruct (fd <? 0); [done|].
    destruct (opened system !! Z.to_nat fd) as [z|] eqn:E; [|done]. by rewrite (lookup_app_l_Some _ _ _ _ E).
  - done.
  - done.
  - done.
  - done.
Defined.

(** The usual settings of a terminal: ICANON and ECHO among the local flags,
    VMIN 1. *)
Definition cooked : Termios := mk_termios 0x500 5 0xbf 0x8a3b [3; 28; 127; 21; 4; 0; 1].
Definition demo_system : Os := mk_demo_os (fun _ => cooked) [Some 0%nat; Some 0%nat].

Definition after_opening (paths : list string) : HostState :=
  (for_each paths (fun path => open_input path ;;; ret tt) (fresh_host demo_system)).2.
Definition left_behind (paths : list string) : Os := close_host (after_opening paths).

(** While the platform exists its terminal is raw; afterwards it is as before. *)
Example input_is_raw : modes (os (after_opening ["-"])) 0 = raw_mode cooked.
Proof. by vm_compute. Qed.
Example raw_flags : c_lflag (raw_mode cooked) = 0x8a31 /\ c_cc (raw_mode cooked) !!! 6%nat = 0.
Proof. by vm_compute. Qed.
Example stdin_is_restored : modes (left_behind ["-"; "uart.log"; "-"]) 0 = cooked.
Proof. by vm_compute. Qed.

(** The standard input and /dev/tty are one terminal.  The second entry saves the
    attributes the first one has set, and they are restored last: the terminal
    is left in raw mode.  Restoring in reverse order would not do that. *)
Lemma two_descriptors_leave_raw_mode :
  modes (left_behind ["-"; "/dev/tty"]) 0 = raw_mode cooked /\ raw_mode cooked <> cooked.
Proof. by vm_compute. Qed.
