(* ===== verification/Fabric.v ===== *)
(** * The AXI fabric (src/fabric.hpp)

    [AxiFabric]: per-port ring buffers for the five channels, the stability
    watches, round-robin arbitration of the address channels into ordered write
    and read routes, staged write bursts, exclusive monitors, and the exit
    snapshot.  One clock cycle is [drive] (the outputs the DUT sees) followed by
    [commit] (the handshakes of the cycle and one step of the routes).  All of
    it runs in the state-and-exception monad over [Fabric], which holds the
    device heap, so that the effects of a cycle that throws are visible. *)
From Stdlib Require Import SpecFloat.
From S2P Require Import Prelude RingBuffer Axi Device.

(** A C++ [double] is an IEEE-754 binary64 number. *)
Definition double : Type := spec_float.
Definition double_zero : double := S754_zero false.
Definition double_one : double := S754_finite false (2 ^ 52) (-52).
Definition double_2p64 : double := S754_finite false (2 ^ 52) 12.

(** [std::isfinite] *)
Definition isfinite (x : double) : bool :=
  match x with S754_zero _ | S754_finite _ _ _ => true | _ => false end.

(** [static_cast<std::uint64_t>] of a non-negative double below 2^64: truncation. *)
Definition double_to_u64 (x : double) : Z :=
  match x with
  | S754_finite false m e => Z.shiftl (Zpos m) e
  | _ => 0
  end.

Record AddressWatch := { aw_blocked : bool; aw_payload : AddressPayload }.
Record WriteWatch := { ww_blocked : bool; ww_payload : WriteDataPayload }.

Record PortState := mk_port_state {
  p_aw : RingBuffer AddressPayload;
  p_w : RingBuffer WriteDataPayload;
  p_ar : RingBuffer AddressPayload;
  p_b : RingBuffer WriteResponsePayload;
  p_r : RingBuffer ReadDataPayload;
  p_aw_watch : AddressWatch;
  p_w_watch : WriteWatch;
  p_ar_watch : AddressWatch
}.
#[export] Instance PortState_eta : Eta PortState := fun p =>
  mk_port_state (p_aw p) (p_w p) (p_ar p) (p_b p) (p_r p) (p_aw_watch p) (p_w_watch p)
    (p_ar_watch p).

(** [RouteBase] / [ReadRoute] *)
Record Route := mk_route {
  rt_port : nat;
  rt_payload : AddressPayload;
  rt_beat : nat;
  rt_mapping : option Mapping;
  rt_forced_response : Response;
  rt_exclusive : bool
}.
#[export] Instance Route_eta : Eta Route := fun r =>
  mk_route (rt_port r) (rt_payload r) (rt_beat r) (rt_mapping r) (rt_forced_response r)
    (rt_exclusive r).

Record WriteRoute := mk_write_route {
  wt_route : Route;
  wt_response : Response;
  wt_exit_response : bool;
  wt_exit_code : Z;
  wt_commit_beat : nat;
  wt_data_complete : bool;
  wt_staged_data : list (list Z);
  wt_staged_strobe : list (list Z)
}.
#[export] Instance WriteRoute_eta : Eta WriteRoute := fun r =>
  mk_write_route (wt_route r) (wt_response r) (wt_exit_response r) (wt_exit_code r)
    (wt_commit_beat r) (wt_data_complete r) (wt_staged_data r) (wt_staged_strobe r).

Record ExclusiveMonitor := mk_monitor {
  mon_valid : bool;
  mon_port : nat;
  mon_id : Z;
  mon_payload : AddressPayload;
  mon_first : Z;
  mon_last : Z
}.
#[export] Instance ExclusiveMonitor_eta : Eta ExclusiveMonitor := fun m =>
  mk_monitor (mon_valid m) (mon_port m) (mon_id m) (mon_payload m) (mon_first m) (mon_last m).
#[export] Instance ExclusiveMonitor_inhabited : Inhabited ExclusiveMonitor :=
  populate (mk_monitor false 0 0 inhabitant 0 0).

#[export] Instance Route_inhabited : Inhabited Route :=
  populate (mk_route 0 inhabitant 0 None Okay false).

Record Fabric (H : Type) := mk_fabric {
  f_heap : H;
  address_space_ : AddressSpace;
  reset_devices_ : bool;
  ports_ : list PortState;
  outputs_ : list SlaveSignals;
  read_routes_ : RingBuffer Route;
  write_routes_ : RingBuffer WriteRoute;
  monitors_ : list ExclusiveMonitor;
  next_aw_port_ : nat;
  next_ar_port_ : nat;
  cycle_ : Z;
  random_state_ : Z;
  stall_probability_ : double;
  was_reset_ : bool;
  suppress_read_this_cycle_ : bool;
  exit_completed_ : bool;
  exit_code_ : Z
}.
Arguments f_heap {H} _.
Arguments address_space_ {H} _.
Arguments reset_devices_ {H} _.
Arguments ports_ {H} _.
Arguments outputs_ {H} _.
Arguments read_routes_ {H} _.
Arguments write_routes_ {H} _.
Arguments monitors_ {H} _.
Arguments next_aw_port_ {H} _.
Arguments next_ar_port_ {H} _.
Arguments cycle_ {H} _.
Arguments random_state_ {H} _.
Arguments stall_probability_ {H} _.
Arguments was_reset_ {H} _.
Arguments suppress_read_this_cycle_ {H} _.
Arguments exit_completed_ {H} _.
Arguments exit_code_ {H} _.
#[export] Instance Fabric_eta H : Eta (Fabric H) := fun f =>
  mk_fabric H (f_heap f) (address_space_ f) (reset_devices_ f) (ports_ f) (outputs_ f)
    (read_routes_ f) (write_routes_ f) (monitors_ f) (next_aw_port_ f) (next_ar_port_ f)
    (cycle_ f) (random_state_ f) (stall_probability_ f) (was_reset_ f)
    (suppress_read_this_cycle_ f) (exit_completed_ f) (exit_code_ f).

(** [for (auto &x : l) if (f(x)) return &x;] *)
Fixpoint find_index {A} (f : A -> bool) (l : list A) : option nat :=
  match l with
  | [] => None
  | x :: l' => if f x then Some 0%nat else S <$> find_index f l'
  end.

Definition MAX_BURST_BEATS : nat := 256.
Definition MAX_EXCLUSIVE_BEATS : nat := 16.
Definition MAX_EXCLUSIVE_BYTES : nat := 128.

(** The template parameters ([DATA_BYTES] is [DataBits / 8]; [IdBits] only
    bounds the identifiers the binding produces). *)
Class FabricConfig := {
  NumPorts : nat;
  AddressBits : Z;
  DATA_BYTES : nat;
  AddressDepth : nat;
  WriteDataDepth : nat;
  ResponseDepth : nat;
  RouteDepth : nat
}.

(** The [static_assert]s of the templates. *)
Class FabricConfigOk (cfg : FabricConfig) := {
  NumPorts_pos : (0 < NumPorts)%nat;
  AddressBits_ok : AddressBits = 32 \/ AddressBits = 64;
  DataBits_ok :: BusWidth DATA_BYTES;
  AddressDepth_pos : (0 < AddressDepth)%nat;
  WriteDataDepth_pos : (0 < WriteDataDepth)%nat;
  ResponseDepth_pos : (0 < ResponseDepth)%nat;
  RouteDepth_pos : (0 < RouteDepth)%nat
}.

Section Fabric.
Context {cfg : FabricConfig} {H : Type} `{!DeviceHeap H}.

(** ** Value-initialised objects *)
Definition zero_lanes : list Z := replicate DATA_BYTES 0.

#[export] Instance WriteDataPayload_inhabited : Inhabited WriteDataPayload :=
  populate {| wd_data := zero_lanes; wd_strobe := zero_lanes; wd_last := false |}.
#[export] Instance ReadDataPayload_inhabited : Inhabited ReadDataPayload :=
  populate {| rd_id := 0; rd_data := zero_lanes; rd_response := Okay; rd_last := false |}.
#[export] Instance MasterSignals_inhabited : Inhabited MasterSignals :=
  populate {| m_aw_valid := false; m_aw := inhabitant; m_w_valid := false; m_w := inhabitant;
              m_b_ready := false; m_ar_valid := false; m_ar := inhabitant; m_r_ready := false |}.
#[export] Instance SlaveSignals_inhabited : Inhabited SlaveSignals :=
  populate {| s_aw_ready := false; s_w_ready := false; s_b_valid := false; s_b := inhabitant;
              s_ar_ready := false; s_r_valid := false; s_r := inhabitant |}.
#[export] Instance AddressWatch_inhabited : Inhabited AddressWatch :=
  populate {| aw_blocked := false; aw_payload := inhabitant |}.
#[export] Instance WriteWatch_inhabited : Inhabited WriteWatch :=
  populate {| ww_blocked := false; ww_payload := inhabitant |}.
#[export] Instance WriteRoute_inhabited : Inhabited WriteRoute :=
  populate (mk_write_route inhabitant Okay false 0 0 false
              (replicate MAX_BURST_BEATS zero_lanes) (replicate MAX_BURST_BEATS zero_lanes)).

Definition port_init : PortState :=
  {| p_aw := rb_init AddressDepth; p_w := rb_init WriteDataDepth; p_ar := rb_init AddressDepth;
     p_b := rb_init ResponseDepth; p_r := rb_init ResponseDepth;
     p_aw_watch := inhabitant; p_w_watch := inhabitant; p_ar_watch := inhabitant |}.
#[export] Instance PortState_inhabited : Inhabited PortState := populate port_init.

Definition fabric_init (h : H) (space : AddressSpace) (reset_devices : bool) : Fabric H :=
  {| f_heap := h; address_space_ := space; reset_devices_ := reset_devices;
     ports_ := replicate NumPorts port_init;
     outputs_ := replicate NumPorts inhabitant;
     read_routes_ := rb_init RouteDepth; write_routes_ := rb_init RouteDepth;
     monitors_ := replicate RouteDepth inhabitant;
     next_aw_port_ := 0; next_ar_port_ := 0; cycle_ := 0;
     random_state_ := 0x9e3779b97f4a7c15; stall_probability_ := double_zero;
     was_reset_ := false; suppress_read_this_cycle_ := false;
     exit_completed_ := false; exit_code_ := 0 |}.

Abbreviation F := (M (Fabric H)).

Definition set_seed (seed : Z) (f : Fabric H) : Fabric H :=
  f <| random_state_ := if seed =? 0 then 0x9e3779b97f4a7c15 else seed |>.

Definition set_stall_probability (p : double) : F unit :=
  if negb (isfinite p) || SFltb p double_zero || SFltb double_one p
  then throw (InvalidArgument "stall probability must be in [0, 1]")
  else modify (fun f => f <| stall_probability_ := p |>).

(** ** Access to the parts of the state *)
Definition port_of (f : Fabric H) (port : nat) : PortState := ports_ f !!! port.
Definition output_of (f : Fabric H) (port : nat) : SlaveSignals := outputs_ f !!! port.
Definition on_port (port : nat) (g : PortState -> PortState) : F unit :=
  modify (fun f => f <| ports_ ::= alter g port |>).
(** Run device code on the heap. *)
Definition on_heap {A} (c : M H A) : F A :=
  fun f => let (r, h) := c (f_heap f) in (r, f <| f_heap := h |>).

Definition protocol_error {A} (port : nat) (channel detail : string)
    (payload : option AddressPayload) : F A :=
  fun f => (Throw (ProtocolError
    (Some {| ec_cycle := cycle_ f; ec_port := port; ec_channel := channel;
             ec_id_address := (fun p => (ap_id p, ap_address p)) <$> payload |}) detail), f).

(** ** drive *)
Definition xorshift (s : Z) : Z :=
  let s := Z.lxor s (u64 (Z.shiftl s 13)) in
  let s := Z.lxor s (Z.shiftr s 7) in
  Z.lxor s (u64 (Z.shiftl s 17)).

Definition stall_threshold (p : double) : Z :=
  u64 (double_to_u64 (SFmul 53 1024 p double_2p64)).

Definition allow_ready : F bool :=
  fun f =>
    if SFleb (stall_probability_ f) double_zero then (Ok true, f)
    else if SFleb double_one (stall_probability_ f) then (Ok false, f)
    else
      let s := xorshift (random_state_ f) in
      (Ok (stall_threshold (stall_probability_ f) <=? s), f <| random_state_ := s |>).

(** [!full && allow_ready()] *)
Definition ready_unless (full : bool) : F bool :=
  if full then ret false else allow_ready.

Definition drive_port (port : nat) : F unit :=
  do state := gets (fun f => port_of f port) in
  do awr := ready_unless (rb_full AddressDepth (p_aw state)) in
  do wr := ready_unless (rb_full WriteDataDepth (p_w state)) in
  do arr := ready_unless (rb_full AddressDepth (p_ar state)) in
  let bv := negb (rb_empty (p_b state)) in
  let rv := negb (rb_empty (p_r state)) in
  do b := if bv then lift (rb_front (p_b state)) else ret inhabitant in
  do r := if rv then lift (rb_front (p_r state)) else ret inhabitant in
  modify (fun f => f <| outputs_ ::= <[port :=
    {| s_aw_ready := awr; s_w_ready := wr; s_b_valid := bv; s_b := b;
       s_ar_ready := arr; s_r_valid := rv; s_r := r |}]> |>).

Definition drive (reset_active : bool) : F (list SlaveSignals) :=
  modify (fun f => f <| outputs_ := replicate NumPorts inhabitant |>) ;;;
  when (negb reset_active) (for_each (seq 0 NumPorts) drive_port) ;;;
  gets outputs_.

(** ** The stages of commit *)
Definition check_address_watch (port : nat) (channel : string) (watch : AddressWatch)
    (valid ready : bool) (payload : AddressPayload) : F AddressWatch :=
  if aw_blocked watch && (negb valid || negb (bool_decide (payload = aw_payload watch)))
  then protocol_error port channel "VALID or payload changed while stalled"
         (Some (aw_payload watch))
  else
    let blocked := valid && negb ready in
    ret {| aw_blocked := blocked;
           aw_payload := if blocked then payload else aw_payload watch |}.

Definition check_stability_port (inputs : list MasterSignals) (port : nat) : F unit :=
  let input := inputs !!! port in
  do state := gets (fun f => port_of f port) in
  do out := gets (fun f => output_of f port) in
  do watch := check_address_watch port "AW" (p_aw_watch state) (m_aw_valid input)
                (s_aw_ready out) (m_aw input) in
  on_port port (fun p => p <| p_aw_watch := watch |>) ;;;
  let ww := p_w_watch state in
  (if ww_blocked ww && (negb (m_w_valid input) || negb (bool_decide (m_w input = ww_payload ww)))
   then protocol_error port "W" "VALID or payload changed while stalled" None
   else ret tt) ;;;
  let blocked := m_w_valid input && negb (s_w_ready out) in
  on_port port (fun p => p <| p_w_watch :=
    {| ww_blocked := blocked; ww_payload := if blocked then m_w input else ww_payload ww |} |>) ;;;
  do watch := check_address_watch port "AR" (p_ar_watch state) (m_ar_valid input)
                (s_ar_ready out) (m_ar input) in
  on_port port (fun p => p <| p_ar_watch := watch |>).

Definition check_stability (inputs : list MasterSignals) : F unit :=
  for_each (seq 0 NumPorts) (check_stability_port inputs).

(** The B and R handshakes of [retire_responses]. *)
Definition retire_b (port : nat) : F unit :=
  do f := get in
  do front := lift (rb_front (p_b (port_of f port))) in
  (when (wr_exit_response front && negb (exit_completed_ f))
    (modify (fun f => f <| exit_completed_ := true |> <| exit_code_ := wr_exit_code front |>))) ;;;
  do popped := lift (rb_pop ResponseDepth (p_b (port_of f port))) in
  on_port port (fun p => p <| p_b := popped |>).

Definition retire_r (port : nat) : F unit :=
  do f := get in
  do popped := lift (rb_pop ResponseDepth (p_r (port_of f port))) in
  on_port port (fun p => p <| p_r := popped |>).

Definition retire_port (inputs : list MasterSignals) (port : nat) : F unit :=
  do out := gets (fun f => output_of f port) in
  let input := inputs !!! port in
  (when (s_b_valid out && m_b_ready input) (retire_b port)) ;;;
  when (s_r_valid out && m_r_ready input) (retire_r port).

Definition retire_responses (inputs : list MasterSignals) : F unit :=
  for_each (seq 0 NumPorts) (retire_port inputs).

(** The AW, W and AR handshakes of [accept_ingress]. *)
Definition accept_aw (port : nat) (payload : AddressPayload) : F unit :=
  do f := get in
  let (pushed, aw) := rb_push AddressDepth payload (p_aw (port_of f port)) in
  if pushed then on_port port (fun p => p <| p_aw := aw |>)
  else protocol_error port "AW" "internal address FIFO overflow" (Some payload).

Definition accept_w (port : nat) (beat : WriteDataPayload) : F unit :=
  do f := get in
  let (pushed, w) := rb_push WriteDataDepth beat (p_w (port_of f port)) in
  if pushed then on_port port (fun p => p <| p_w := w |>)
  else protocol_error port "W" "internal write-data FIFO overflow" None.

Definition accept_ar (port : nat) (payload : AddressPayload) : F unit :=
  do f := get in
  let (pushed, ar) := rb_push AddressDepth payload (p_ar (port_of f port)) in
  if pushed then on_port port (fun p => p <| p_ar := ar |>)
  else protocol_error port "AR" "internal address FIFO overflow" (Some payload).

Definition accept_port (inputs : list MasterSignals) (port : nat) : F unit :=
  let input := inputs !!! port in
  do out := gets (fun f => output_of f port) in
  (when (m_aw_valid input && s_aw_ready out) (accept_aw port (m_aw input))) ;;;
  (when (m_w_valid input && s_w_ready out) (accept_w port (m_w input))) ;;;
  when (m_ar_valid input && s_ar_ready out) (accept_ar port (m_ar input)).

Definition accept_ingress (inputs : list MasterSignals) : F unit :=
  for_each (seq 0 NumPorts) (accept_port inputs).

(** [make_cursor]: the errors of the cursor get the context of the fabric. *)
Definition make_cursor (port : nat) (channel : string) (payload : AddressPayload)
    : F BurstCursor :=
  match (try cursor := mk_cursor DATA_BYTES payload in
         try _ := validate_4k_boundary DATA_BYTES cursor in Ok cursor) with
  | Ok cursor => ret cursor
  | Throw (ProtocolError _ detail) => protocol_error port channel detail (Some payload)
  | Throw e => throw e
  end.

Definition address_limit : Z :=
  if AddressBits <? 64 then 2 ^ AddressBits - 1 else UINT64_MAX.

(** The decoding of one byte: the mapping found so far and [decode_error].
    Windows are disjoint, so comparing them by value is comparing the
    pointers. *)
Definition scan_byte (current : option Mapping) (acc : option Mapping * bool)
    : option Mapping * bool :=
  let (mapping, decode_error) := acc in
  match current, mapping with
  | None, _ => (mapping, true)
  | Some c, Some m => (mapping, if bool_decide (c = m) then decode_error else true)
  | Some c, None => (Some c, decode_error)
  end.

Fixpoint scan_lanes (port : nat) (channel : string) (payload : AddressPayload) (base : Z)
    (mask : list Z) (lanes : list nat) (acc : option Mapping * bool)
    : F (option Mapping * bool) :=
  match lanes with
  | [] => ret acc
  | lane :: lanes' =>
      if mask !!! lane =? 0 then scan_lanes port channel payload base mask lanes' acc
      else if (address_limit <? base) || (address_limit - base <? Z.of_nat lane)
      then protocol_error port channel "address overflows configured width" (Some payload)
      else
        do space := gets address_space_ in
        let current := space_resolve space (u64 (base + Z.of_nat lane)) 1 in
        scan_lanes port channel payload base mask lanes' (scan_byte current acc)
  end.

Fixpoint scan_beats (port : nat) (channel : string) (payload : AddressPayload)
    (cursor : BurstCursor) (beats : list nat) (acc : option Mapping * bool)
    : F (option Mapping * bool) :=
  match beats with
  | [] => ret acc
  | beat :: beats' =>
      do base := lift (bus_word_address DATA_BYTES cursor beat) in
      do mask := lift (lane_mask DATA_BYTES cursor beat) in
      do acc' := scan_lanes port channel payload base mask (seq 0 DATA_BYTES) acc in
      scan_beats port channel payload cursor beats' acc'
  end.

Definition exclusive_shape_ok (payload : AddressPayload) (cursor : BurstCursor) : bool :=
  let total := Z.of_nat (beats_ cursor) * beat_bytes_ cursor in
  negb (negb (bool_decide (ap_burst payload = Increment))
        || (MAX_EXCLUSIVE_BEATS <? beats_ cursor)%nat || (total =? 0) || (128 <? total)
        || nz (Z.land total (total - 1)) || nz (Z.land (ap_address payload) (total - 1))).

Definition validate_exclusive (port : nat) (channel : string) (payload : AddressPayload)
    (cursor : BurstCursor) : F unit :=
  if exclusive_shape_ok payload cursor then ret tt
  else protocol_error port channel "illegal AXI exclusive transfer shape" (Some payload).

(** [mapping->device->supports_*()] behind a null check. *)
Definition supports (capability : H -> DevicePtr -> bool) (mapping : option Mapping) (f : Fabric H)
    : bool :=
  match mapping with
  | Some m => capability (f_heap f) (map_device m)
  | None => false
  end.

Definition initialize_route (port : nat) (payload : AddressPayload) (channel : string)
    : F Route :=
  do cursor := make_cursor port channel payload in
  do scanned := scan_beats port channel payload cursor (seq 0 (beats_ cursor)) (None, false) in
  let (mapping, decode_error) := scanned in
  do burst_ok := gets (supports supports_burst mapping) in
  let decoded := bool_decide (is_Some mapping) && negb decode_error in
  let route :=
    {| rt_port := port; rt_payload := payload; rt_beat := 0;
       rt_mapping := if decoded then mapping else None;
       rt_forced_response :=
         if negb decoded then DecodeError
         else if (1 <? beats_ cursor)%nat && negb burst_ok then SlaveError
         else Okay;
       rt_exclusive := ap_lock payload |} in
  if ap_lock payload then
    validate_exclusive port channel payload cursor ;;;
    do exclusive_ok := gets (supports supports_exclusive (rt_mapping route)) in
    ret (if exclusive_ok then route else route <| rt_forced_response := SlaveError |>)
  else ret route.

(** The first requesting port at or after [next], in cyclic order. *)
Definition find_requester (requests : nat -> bool) (next : nat) : option nat :=
  head (filter (fun port => requests port)
          ((fun offset => (next + offset) mod NumPorts)%nat <$> seq 0 NumPorts)).

Definition arbitrate_aw : F unit :=
  do f := get in
  if rb_full RouteDepth (write_routes_ f) then ret tt
  else
    match find_requester (fun port => negb (rb_empty (p_aw (port_of f port))))
            (next_aw_port_ f) with
    | None => ret tt
    | Some port =>
        do payload := lift (rb_front (p_aw (port_of f port))) in
        do route := initialize_route port payload "AW" in
        do popped := lift (rb_pop AddressDepth (p_aw (port_of f port))) in
        on_port port (fun p => p <| p_aw := popped |>) ;;;
        modify (fun f => f <| write_routes_ ::=
          fun q => (rb_push RouteDepth
            (inhabitant <| wt_route := route |>) q).2 |>) ;;;
        modify (fun f => f <| next_aw_port_ := ((port + 1) mod NumPorts)%nat |>)
    end.

Definition arbitrate_ar : F unit :=
  do f := get in
  if rb_full RouteDepth (read_routes_ f) then ret tt
  else
    match find_requester (fun port => negb (rb_empty (p_ar (port_of f port))))
            (next_ar_port_ f) with
    | None => ret tt
    | Some port =>
        do payload := lift (rb_front (p_ar (port_of f port))) in
        do route := initialize_route port payload "AR" in
        do popped := lift (rb_pop AddressDepth (p_ar (port_of f port))) in
        on_port port (fun p => p <| p_ar := popped |>) ;;;
        modify (fun f => f <| read_routes_ ::= fun q => (rb_push RouteDepth route q).2 |>) ;;;
        modify (fun f => f <| next_ar_port_ := ((port + 1) mod NumPorts)%nat |>)
    end.

Definition arbitrate_addresses : F unit := arbitrate_aw ;;; arbitrate_ar.

(** ** Exclusive monitors *)
Definition monitor_matches (port : nat) (id : Z) (m : ExclusiveMonitor) : bool :=
  mon_valid m && (mon_port m =? port)%nat && (mon_id m =? id).

(** [find_monitor]: the index of the monitor, [nullptr] is [None]. *)
Definition find_monitor (f : Fabric H) (port : nat) (id : Z) : option nat :=
  find_index (monitor_matches port id) (monitors_ f).

Definition clear_monitor (port : nat) (id : Z) : F unit :=
  modify (fun f =>
    match find_monitor f port id with
    | Some slot => f <| monitors_ ::= alter (fun m => m <| mon_valid := false |>) slot |>
    | None => f
    end).

Definition monitor_covers (byte_address : Z) (m : ExclusiveMonitor) : bool :=
  mon_valid m && (mon_first m <=? byte_address) && (byte_address <? mon_last m).

Definition invalidate_monitors (byte_address : Z) : F unit :=
  modify (fun f => f <| monitors_ ::= fmap (fun m =>
    if monitor_covers byte_address m then m <| mon_valid := false |> else m) |>).

Definition establish_monitor (route : Route) : F unit :=
  let payload := rt_payload route in
  do cursor := lift (mk_cursor DATA_BYTES payload) in
  let total := Z.of_nat (beats_ cursor) * beat_bytes_ cursor in
  do f := get in
  let slot :=
    match find_monitor f (rt_port route) (ap_id payload) with
    | Some slot => Some slot
    | None => find_index (fun m => negb (mon_valid m)) (monitors_ f)
    end in
  match slot with
  | None => protocol_error (rt_port route) "AR" "exclusive monitor table exhausted" (Some payload)
  | Some slot =>
      modify (fun f => f <| monitors_ ::= <[slot :=
        {| mon_valid := true; mon_port := rt_port route; mon_id := ap_id payload;
           mon_payload := payload; mon_first := ap_address payload;
           mon_last := u64 (ap_address payload + total) |}]> |>)
  end.

(** ** Reads *)

(** The half-open range of enabled lanes, as (first, count). *)
Definition enabled_extent (mask : list Z) : nat * nat :=
  let '(first, last) :=
    foldl (fun '(first, last) index =>
             if nz (mask !!! index) then (Nat.min first index, S index) else (first, last))
          (length mask, 0%nat) (seq 0 (length mask)) in
  if (first =? length mask)%nat then (0, 0)%nat else (first, last - first)%nat.

(** [span.subspan(first, count)] *)
Definition subspan (first count : nat) (l : list Z) : list Z := take count (drop first l).

Definition read_response (route : Route) (cursor : BurstCursor) : F ReadDataPayload :=
  let last := (rt_beat route + 1 =? beats_ cursor)%nat in
  let id := ap_id (rt_payload route) in
  match rt_forced_response route, rt_mapping route with
  | Okay, Some mapping =>
      do mask := lift (lane_mask DATA_BYTES cursor (rt_beat route)) in
      do base := lift (bus_word_address DATA_BYTES cursor (rt_beat route)) in
      let (first, count) := enabled_extent mask in
      do result :=
        (if (count =? 0)%nat then ret (Okay, zero_lanes)
         else
           let device_offset := u64 (base + Z.of_nat first - map_base mapping) in
           do answer := on_heap (device_read (map_device mapping) device_offset
                          (subspan first count zero_lanes) (subspan first count mask)) in
           ret (answer.1, splice first answer.2 zero_lanes)) in
      let (response, data) := result in
      ret {| rd_id := id; rd_data := data;
             rd_response := if rt_exclusive route && bool_decide (response = Okay)
                            then ExclusiveOkay else response;
             rd_last := last |}
  | forced, _ =>
      ret {| rd_id := id; rd_data := zero_lanes; rd_response := forced; rd_last := last |}
  end.

Definition push_r (port : nat) (response : ReadDataPayload) : F unit :=
  on_port port (fun p => p <| p_r ::= fun r => (rb_push ResponseDepth response r).2 |>).
Definition push_b (port : nat) (response : WriteResponsePayload) : F unit :=
  on_port port (fun p => p <| p_b ::= fun b => (rb_push ResponseDepth response b).2 |>).

Definition pop_read_route : F unit :=
  do f := get in
  do popped := lift (rb_pop RouteDepth (read_routes_ f)) in
  modify (fun f => f <| read_routes_ := popped |>).
Definition pop_write_route : F unit :=
  do f := get in
  do popped := lift (rb_pop RouteDepth (write_routes_ f)) in
  modify (fun f => f <| write_routes_ := popped |>).

Definition process_read_beat : F unit :=
  do f := get in
  if rb_empty (read_routes_ f) then ret tt
  else
    do route := lift (rb_front (read_routes_ f)) in
    if rb_full ResponseDepth (p_r (port_of f (rt_port route))) then ret tt
    else
      do cursor := lift (mk_cursor DATA_BYTES (rt_payload route)) in
      (when (rt_exclusive route && (rt_beat route =? 0)%nat
             && bool_decide (rt_forced_response route = Okay))
        (establish_monitor route)) ;;;
      do response := read_response route cursor in
      push_r (rt_port route) response ;;;
      let route := route <| rt_beat ::= S |> in
      modify (fun f => f <| read_routes_ ::= rb_set_front route |>) ;;;
      when (rt_beat route =? beats_ cursor)%nat pop_read_route.

(** ** Writes

    [route] is a reference to the front of [write_routes_]. *)
Definition set_write_route (route : WriteRoute) : F unit :=
  modify (fun f => f <| write_routes_ ::= rb_set_front route |>).

Definition complete_write_route (route : WriteRoute) : F unit :=
  push_b (rt_port (wt_route route))
    {| wr_id := ap_id (rt_payload (wt_route route)); wr_response := wt_response route;
       wr_exit_response := wt_exit_response route; wr_exit_code := wt_exit_code route |} ;;;
  pop_write_route.

(** Returns the response together with the route as it leaves it. *)
Definition write_device_beat (route : WriteRoute) (mapping : Mapping) (cursor : BurstCursor)
    (beat_index : nat) (data strobe : list Z) : F (Response * WriteRoute) :=
  do base := lift (bus_word_address DATA_BYTES cursor beat_index) in
  do lanes := lift (lane_mask DATA_BYTES cursor beat_index) in
  let effective := (fun lane => b2z (nz (lanes !!! lane) && nz (strobe !!! lane)))
                     <$> seq 0 DATA_BYTES in
  let (first, count) := enabled_extent lanes in
  if (count =? 0)%nat then ret (Okay, route)
  else
    let device_offset := u64 (base + Z.of_nat first - map_base mapping) in
    do response := on_heap (device_write (map_device mapping) device_offset
                     (subspan first count data) (subspan first count effective)) in
    if response_is_success response then
      for_each (seq first count) (fun lane =>
        when (nz (effective !!! lane)) (invalidate_monitors (u64 (base + Z.of_nat lane)))) ;;;
      do f := get in
      if is_exit (f_heap f) (map_device mapping) then
        let route := route <| wt_exit_response := true |>
                           <| wt_exit_code := device_exit_code (f_heap f) (map_device mapping) |> in
        set_write_route route ;;; ret (response, route)
      else ret (response, route)
    else ret (response, route).

(** The bytes and strobes of an exclusive burst, gathered by address. *)
Definition gather_beat (route : WriteRoute) (base : Z) (lanes : list Z) (beat : nat)
    (acc : list Z * list Z) : list Z * list Z :=
  foldl (fun '(data, strobe) lane =>
    if lanes !!! lane =? 0 then (data, strobe)
    else
      let index := Z.to_nat (u64 (base + Z.of_nat lane - ap_address (rt_payload (wt_route route)))) in
      (<[index := (wt_staged_data route !!! beat) !!! lane]> data,
       <[index := b2z (nz ((wt_staged_strobe route !!! beat) !!! lane))]> strobe))
    acc (seq 0 DATA_BYTES).

Fixpoint gather_beats (route : WriteRoute) (cursor : BurstCursor) (beats : list nat)
    (acc : list Z * list Z) : result (list Z * list Z) :=
  match beats with
  | [] => Ok acc
  | beat :: beats' =>
      try base := bus_word_address DATA_BYTES cursor beat in
      try lanes := lane_mask DATA_BYTES cursor beat in
      gather_beats route cursor beats' (gather_beat route base lanes beat acc)
  end.

(** The part of [finish_exclusive_write] behind the monitor check. *)
Definition perform_exclusive_write (wr : WriteRoute) (mapping : Mapping) (cursor : BurstCursor)
    : F WriteRoute :=
  let payload := rt_payload (wt_route wr) in
  let total := Z.to_nat (Z.of_nat (beats_ cursor) * beat_bytes_ cursor) in
  do gathered := lift (gather_beats wr cursor (seq 0 (beats_ cursor))
    (replicate MAX_EXCLUSIVE_BYTES 0, replicate MAX_EXCLUSIVE_BYTES 0)) in
  let (atomic_data, atomic_strobe) := gathered in
  do response := on_heap (device_write (map_device mapping)
    (u64 (ap_address payload - map_base mapping))
    (take total atomic_data) (take total atomic_strobe)) in
  let ok := response_is_success response in
  let wr := wr <| wt_response := if ok then ExclusiveOkay else response |> in
  set_write_route wr ;;;
  (when ok (for_each (seq 0 total) (fun index =>
    when (nz (atomic_strobe !!! index))
      (invalidate_monitors (u64 (ap_address payload + Z.of_nat index)))))) ;;;
  ret wr.

Definition finish_exclusive_write (wr : WriteRoute) (cursor : BurstCursor) : F WriteRoute :=
  let route := wt_route wr in
  let payload := rt_payload route in
  let finish wr := set_write_route wr ;;; clear_monitor (rt_port route) (ap_id payload) ;;; ret wr in
  match rt_forced_response route, rt_mapping route with
  | Okay, Some mapping =>
      do f := get in
      match find_monitor f (rt_port route) (ap_id payload) with
      | Some slot =>
          if bool_decide (mon_payload (monitors_ f !!! slot) = payload) then
            do wr := perform_exclusive_write wr mapping cursor in
            finish wr
          else finish (wr <| wt_response := Okay |>)
      | None => finish (wr <| wt_response := Okay |>)
      end
  | forced, _ => finish (wr <| wt_response := forced |>)
  end.

Definition suppress_read : F unit := modify (fun f => f <| suppress_read_this_cycle_ := true |>).

Definition process_write_commit (wr : WriteRoute) (cursor : BurstCursor) : F unit :=
  let route := wt_route wr in
  do f := get in
  if rb_full ResponseDepth (p_b (port_of f (rt_port route))) then ret tt
  else if rt_exclusive route then
    suppress_read ;;;
    do wr := finish_exclusive_write wr cursor in
    complete_write_route wr
  else
    match rt_forced_response route, rt_mapping route with
    | Okay, Some mapping =>
        suppress_read ;;;
        let beat := wt_commit_beat wr in
        do answer := write_device_beat wr mapping cursor beat
                       (wt_staged_data wr !!! beat) (wt_staged_strobe wr !!! beat) in
        let (response, wr) := answer in
        let wr := wr <| wt_response ::= fun r => combine_response r response |>
                     <| wt_commit_beat := if response_is_success response then S beat
                                          else beats_ cursor |> in
        set_write_route wr ;;;
        when (wt_commit_beat wr =? beats_ cursor)%nat (complete_write_route wr)
    | forced, _ =>
        let wr := wr <| wt_response ::= fun r => combine_response r forced |> in
        set_write_route wr ;;; complete_write_route wr
    end.

Definition strobe_is_legal (strobe lanes : list Z) : bool :=
  forallb (fun lane => negb (nz (strobe !!! lane) && negb (nz (lanes !!! lane)))) (seq 0 DATA_BYTES).

(** The end of [process_write_beat], once the beat was checked. *)
Definition stage_write_beat (wr : WriteRoute) (beat : WriteDataPayload) (final : bool)
    (cursor : BurstCursor) : F unit :=
  let route := wt_route wr in
  let wr := wr <| wt_staged_data ::= <[rt_beat route := wd_data beat]> |>
               <| wt_staged_strobe ::= <[rt_beat route := wd_strobe beat]> |> in
  set_write_route wr ;;;
  do f := get in
  do popped := lift (rb_pop WriteDataDepth (p_w (port_of f (rt_port route)))) in
  on_port (rt_port route) (fun p => p <| p_w := popped |>) ;;;
  let wr := wr <| wt_route := route <| rt_beat ::= S |> |> in
  set_write_route wr ;;;
  if final then
    let wr := wr <| wt_data_complete := true |> in
    set_write_route wr ;;; process_write_commit wr cursor
  else ret tt.

Definition process_write_beat : F unit :=
  do f := get in
  if rb_empty (write_routes_ f) then ret tt
  else
    do wr := lift (rb_front (write_routes_ f)) in
    let route := wt_route wr in
    do cursor := lift (mk_cursor DATA_BYTES (rt_payload route)) in
    if wt_data_complete wr then process_write_commit wr cursor
    else
      let final := (rt_beat route + 1 =? beats_ cursor)%nat in
      let source := p_w (port_of f (rt_port route)) in
      if rb_empty source then ret tt
      else
        do beat := lift (rb_front source) in
        if negb (eqb (wd_last beat) final) then
          protocol_error (rt_port route) "W"
            (if final then "WLAST missing on final beat" else "WLAST asserted before final beat")
            (Some (rt_payload route))
        else
          do lanes := lift (lane_mask DATA_BYTES cursor (rt_beat route)) in
          if negb (strobe_is_legal (wd_strobe beat) lanes) then
            protocol_error (rt_port route) "W" "WSTRB selects an illegal byte lane"
              (Some (rt_payload route))
          else
            stage_write_beat wr beat final cursor.

(** ** commit *)
Definition reset_port (p : PortState) : PortState :=
  {| p_aw := rb_clear (p_aw p); p_w := rb_clear (p_w p); p_ar := rb_clear (p_ar p);
     p_b := rb_clear (p_b p); p_r := rb_clear (p_r p);
     p_aw_watch := inhabitant; p_w_watch := inhabitant; p_ar_watch := inhabitant |}.

Definition reset_state (f : Fabric H) : Fabric H :=
  f <| ports_ ::= fmap reset_port |>
    <| read_routes_ ::= rb_clear |> <| write_routes_ ::= rb_clear |>
    <| monitors_ ::= fmap (fun _ => inhabitant) |>
    <| next_aw_port_ := 0%nat |> <| next_ar_port_ := 0%nat |>
    <| suppress_read_this_cycle_ := false |>
    <| exit_completed_ := false |> <| exit_code_ := 0 |>.

Definition end_cycle : F unit := modify (fun f => f <| cycle_ ::= fun c => u64 (c + 1) |>).

Definition commit (inputs : list MasterSignals) (reset_active : bool) : F unit :=
  if reset_active then
    do f := get in
    (when (negb (was_reset_ f))
      (modify reset_state ;;;
       when (reset_devices_ f)
         (modify (fun f => f <| f_heap ::= space_reset (address_space_ f) |>)))) ;;;
    modify (fun f => f <| was_reset_ := true |>) ;;;
    end_cycle
  else
    modify (fun f => f <| was_reset_ := false |>) ;;;
    check_stability inputs ;;;
    retire_responses inputs ;;;
    accept_ingress inputs ;;;
    arbitrate_addresses ;;;
    modify (fun f => f <| suppress_read_this_cycle_ := false |>) ;;;
    process_write_beat ;;;
    do suppressed := gets suppress_read_this_cycle_ in
    (when (negb suppressed) process_read_beat) ;;;
    end_cycle.

Definition clear_exit_completed (f : Fabric H) : Fabric H :=
  f <| exit_completed_ := false |> <| exit_code_ := 0 |>.

Definition idle (f : Fabric H) : bool :=
  rb_empty (read_routes_ f) && rb_empty (write_routes_ f) &&
  forallb (fun p => rb_empty (p_aw p) && rb_empty (p_w p) && rb_empty (p_ar p)
                    && rb_empty (p_b p) && rb_empty (p_r p)) (ports_ f).

(** One clock cycle: the DUT answers to the outputs it is driven with. *)
Definition cycle (dut : list SlaveSignals -> list MasterSignals) (reset_active : bool) : F unit :=
  do outputs := drive reset_active in
  commit (dut outputs) reset_active.
End Fabric.
