(* ===== verification/FabricSpec.v ===== *)
(** * The abstract fabric

    What [AxiFabric] promises, as a labelled transition system on queues: the
    state ([View]) holds plain lists where the code has ring buffers, and each
    transition is one observable or internal action of a cycle, a handshake
    accepted from or delivered to a port, a burst entering the route queue, a
    write beat staged, a device access.  Addresses and lanes are those of the
    AXI rules ([beat_address_spec]), not the bit arithmetic of the cursor. *)
From S2P Require Import Prelude RingBuffer Axi Device Fabric.

Record PortView := mk_port_view {
  q_aw : list AddressPayload;
  q_w : list WriteDataPayload;
  q_ar : list AddressPayload;
  q_b : list WriteResponsePayload;
  q_r : list ReadDataPayload
}.
#[export] Instance PortView_eta : Eta PortView := fun p =>
  mk_port_view (q_aw p) (q_w p) (q_ar p) (q_b p) (q_r p).
#[export] Instance PortView_inhabited : Inhabited PortView :=
  populate (mk_port_view [] [] [] [] []).

Record View (H : Type) := mk_view {
  v_heap : H;
  v_ports : list PortView;
  v_reads : list Route;
  v_writes : list WriteRoute;
  v_monitors : list ExclusiveMonitor;
  v_exit : bool * Z
}.
Arguments v_heap {H} _.
Arguments v_ports {H} _.
Arguments v_reads {H} _.
Arguments v_writes {H} _.
Arguments v_monitors {H} _.
Arguments v_exit {H} _.
#[export] Instance View_eta H : Eta (View H) := fun v =>
  mk_view H (v_heap v) (v_ports v) (v_reads v) (v_writes v) (v_monitors v) (v_exit v).

(** Filters by a boolean test. *)
Lemma filter_yes {A} (P : A -> bool) x l :
  P x = true -> filter (fun e => P e) (x :: l) = x :: filter (fun e => P e) l.
Proof. intros Hx. apply filter_cons_True. cbv beta. by rewrite Hx. Qed.
Lemma filter_no {A} (P : A -> bool) x l :
  P x = false -> filter (fun e => P e) (x :: l) = filter (fun e => P e) l.
Proof. intros Hx. apply filter_cons_False. cbv beta. rewrite Hx. tauto. Qed.
Lemma elem_of_filter_bool {A} (P : A -> bool) x (l : list A) :
  x ∈ filter (fun e => P e) l <-> P x = true /\ x ∈ l.
Proof. rewrite list_elem_of_filter. cbv beta. destruct (P x); naive_solver. Qed.

(** The actions of a cycle. *)
Inductive event :=
| AcceptAW (port : nat) (p : AddressPayload)
| AcceptW (port : nat) (w : WriteDataPayload)
| AcceptAR (port : nat) (p : AddressPayload)
| RetireB (port : nat) (b : WriteResponsePayload)
| RetireR (port : nat) (r : ReadDataPayload)
| GrantAW (port : nat)
| GrantAR (port : nat)
| StageW (port : nat)
| WriteDevice (port : nat)
| WriteRejected (port : nat)
| WriteExclusive (port : nat)
| ReadBeat (port : nat).

Section Spec.
Context {cfg : FabricConfig} {H : Type} `{!DeviceHeap H}.
Implicit Types (h : H) (v : View H) (f : Fabric H) (p : AddressPayload) (r : Route)
  (wr : WriteRoute) (m : Mapping).

(** ** The view of a fabric *)
Definition port_view (s : PortState) : PortView :=
  {| q_aw := rb_list AddressDepth (p_aw s); q_w := rb_list WriteDataDepth (p_w s);
     q_ar := rb_list AddressDepth (p_ar s); q_b := rb_list ResponseDepth (p_b s);
     q_r := rb_list ResponseDepth (p_r s) |}.

Definition view f : View H :=
  {| v_heap := f_heap f; v_ports := port_view <$> ports_ f;
     v_reads := rb_list RouteDepth (read_routes_ f);
     v_writes := rb_list RouteDepth (write_routes_ f);
     v_monitors := monitors_ f; v_exit := (exit_completed_ f, exit_code_ f) |}.

Definition pv v (port : nat) : PortView := v_ports v !!! port.
Definition on_pv (port : nat) (g : PortView -> PortView) v : View H :=
  v <| v_ports ::= alter g port |>.

(** ** Bursts *)

(** The requests the theorems are about: fields of the width of their C++
    types, and not in the last 4 KiB of the 64-bit address space, where
    [lane_mask] loses the lanes of the last beat. *)
Definition request_wf p : Prop := payload_wf p /\ ap_address p < 2 ^ 64 - 4096.

Definition write_beat_wf (w : WriteDataPayload) : Prop :=
  length (wd_data w) = DATA_BYTES /\ length (wd_strobe w) = DATA_BYTES.

Definition beat_at p (i : nat) : Z := beat_address_spec p i.
Definition beat_first p (i : nat) : nat := first_lane DATA_BYTES (beat_at p i).
Definition beat_count p (i : nat) : nat := lane_count p (beat_at p i).

(** Every byte of the burst lies in the window. *)
Definition covers m p : Prop :=
  forall i, (i < burst_beats p)%nat -> window_contains m (beat_at p i) (Z.of_nat (beat_count p i)).

(** The beats that have lanes: [lane_mask] loses a beat that ends at 2^64.  The
    window holds every byte of these beats, of which there is one. *)
Definition beat_has_lanes p (i : nat) : Prop :=
  (i < burst_beats p)%nat /\ beat_at p i + Z.of_nat (beat_count p i) <> 2 ^ 64.
Definition covers_lanes m p : Prop :=
  (exists i, beat_has_lanes p i) /\
  forall i, beat_has_lanes p i -> window_contains m (beat_at p i) (Z.of_nat (beat_count p i)).

Definition burst_total p : Z := Z.of_nat (burst_beats p) * burst_bytes p.

(** The legal exclusive bursts: INCR, at most 16 beats and 128 bytes, a power
    of two, aligned to the whole transfer. *)
Definition exclusive_shape p : Prop :=
  ap_burst p = Increment /\ (burst_beats p <= 16)%nat /\ burst_total p <= 128 /\
  (exists k, 0 <= k /\ burst_total p = 2 ^ k) /\ ap_address p mod burst_total p = 0.

(** The bursts the fabric accepts; it reports every other one as a violation. *)
Definition beat_byte p (i : nat) (x : Z) : Prop :=
  beat_at p i <= x < beat_at p i + Z.of_nat (beat_count p i).
Definition in_width p : Prop :=
  forall i x, (i < burst_beats p)%nat -> beat_byte p i x -> x <= address_limit.
Definition decodable p : Prop :=
  legal_shape DATA_BYTES p /\ in_one_page p /\ in_width p /\ (ap_lock p = true -> exclusive_shape p).

(** ** Routes *)

(** What is fixed when a burst is decoded. *)
Record route_static (sp : AddressSpace) r : Prop := {
  rs_port : (rt_port r < NumPorts)%nat;
  rs_payload : request_wf (rt_payload r);
  rs_shape : legal_shape DATA_BYTES (rt_payload r);
  rs_page : in_one_page (rt_payload r);
  rs_lock : rt_exclusive r = ap_lock (rt_payload r);
  rs_exclusive : rt_exclusive r = true -> exclusive_shape (rt_payload r);
  rs_forced : rt_forced_response r <> ExclusiveOkay;
  rs_mapping : match rt_mapping r with
               | Some m => m ∈ mappings_ sp /\ covers m (rt_payload r)
               | None => rt_forced_response r <> Okay
               end
}.

(** The error response of a burst that cannot be served. *)
Definition forced_by h r : Response :=
  match rt_mapping r with
  | None => if rt_exclusive r then SlaveError else DecodeError
  | Some m =>
      if rt_exclusive r && negb (supports_exclusive h (map_device m)) then SlaveError
      else if (1 <? burst_beats (rt_payload r))%nat && negb (supports_burst h (map_device m))
      then SlaveError else Okay
  end.

(** The outcome of decoding: the window that holds the whole burst, if there
    is one, and the error response if the burst cannot be served. *)
Definition decoded (sp : AddressSpace) h r : Prop :=
  (forall m, rt_mapping r = Some m <-> m ∈ mappings_ sp /\ covers m (rt_payload r)) /\
  rt_forced_response r = forced_by h r.

(** In the last page of the 64-bit address space: decoding goes by the beats
    that have lanes. *)
Definition decoded_by_lanes (sp : AddressSpace) h r : Prop :=
  (forall m, rt_mapping r = Some m <-> m ∈ mappings_ sp /\ covers_lanes m (rt_payload r)) /\
  rt_forced_response r = forced_by h r.

Record fresh_route (sp : AddressSpace) h (port : nat) p r : Prop := {
  fr_static : route_static sp r;
  fr_port : rt_port r = port;
  fr_payload : rt_payload r = p;
  fr_beat : rt_beat r = 0%nat;
  fr_decoded : decoded sp h r
}.

Definition new_write r : WriteRoute := inhabitant <| wt_route := r |>.

(** ** Device accesses *)

(** The address, the bytes and the strobes of one write beat. *)
Definition beat_bytes (l : list Z) p (i : nat) : list Z :=
  subspan (beat_first p i) (beat_count p i) l.
Definition beat_strobes (l : list Z) p (i : nat) : list Z :=
  (fun x => b2z (nz x)) <$> beat_bytes l p i.

Definition served r : option Mapping :=
  match rt_forced_response r with Okay => rt_mapping r | _ => None end.

Definition read_data (r : Route) (resp : Response) (data : list Z) : ReadDataPayload :=
  {| rd_id := ap_id (rt_payload r); rd_data := data; rd_response := resp;
     rd_last := (S (rt_beat r) =? burst_beats (rt_payload r))%nat |}.

Definition read_beat r h : ReadDataPayload * H :=
  let p := rt_payload r in
  let i := rt_beat r in
  match served r with
  | Some m =>
      let '(resp, data, h') :=
        read_impl (map_device m) (beat_at p i - map_base m)
          (replicate (beat_count p i) 0) (replicate (beat_count p i) 1) h in
      (read_data r (if rt_exclusive r && bool_decide (resp = Okay) then ExclusiveOkay else resp)
         (splice (beat_first p i) data zero_lanes), h')
  | None => (read_data r (rt_forced_response r) zero_lanes, h)
  end.

Definition invalidate (a : Z) (ms : list ExclusiveMonitor) : list ExclusiveMonitor :=
  (fun mon => if monitor_covers a mon then mon <| mon_valid := false |> else mon) <$> ms.

(** The successful write of [bytes] with [strobes] at [a]. *)
Definition invalidate_bytes (a : Z) (strobes : list Z) (ms : list ExclusiveMonitor)
    : list ExclusiveMonitor :=
  foldl (fun ms i => if nz (strobes !!! i) then invalidate (a + Z.of_nat i) ms else ms)
    ms (seq 0 (length strobes)).

(** The beat [wt_commit_beat] of a complete write burst reaches its device. *)
Definition write_beat wr m v : WriteRoute * View H :=
  let p := rt_payload (wt_route wr) in
  let i := wt_commit_beat wr in
  let strobes := beat_strobes (wt_staged_strobe wr !!! i) p i in
  let '(resp, h') :=
    write_impl (map_device m) (beat_at p i - map_base m)
      (beat_bytes (wt_staged_data wr !!! i) p i) strobes (v_heap v) in
  let ok := response_is_success resp in
  let exits := ok && is_exit h' (map_device m) in
  ((if exits then wr <| wt_exit_response := true |>
                     <| wt_exit_code := device_exit_code h' (map_device m) |> else wr)
     <| wt_response ::= fun x => combine_response x resp |>
     <| wt_commit_beat := if ok then S i else burst_beats p |>,
   v <| v_heap := h' |>
     <| v_monitors ::= fun ms => if ok then invalidate_bytes (beat_at p i) strobes ms else ms |>).

Definition write_response wr : WriteResponsePayload :=
  {| wr_id := ap_id (rt_payload (wt_route wr)); wr_response := wt_response wr;
     wr_exit_response := wt_exit_response wr; wr_exit_code := wt_exit_code wr |}.

(** The front write is answered on B. *)
Definition complete wr (ws : list WriteRoute) v : View H :=
  on_pv (rt_port (wt_route wr)) (fun q => q <| q_b ::= fun l => l ++ [write_response wr] |>)
    (v <| v_writes := ws |>).

(** The burst goes on, or is complete after its last (or failed) beat. *)
Definition advance wr (ws : list WriteRoute) v : View H :=
  if (wt_commit_beat wr =? burst_beats (rt_payload (wt_route wr)))%nat
  then complete wr ws v else v <| v_writes := wr :: ws |>.

(** The monitor of (port, id), and its release. *)
Definition monitor_of (ms : list ExclusiveMonitor) (port : nat) (id : Z) : option ExclusiveMonitor :=
  find_index (monitor_matches port id) ms ≫= fun i => ms !! i.
Definition release (port : nat) (id : Z) (ms : list ExclusiveMonitor) : list ExclusiveMonitor :=
  match find_index (monitor_matches port id) ms with
  | Some i => alter (fun mon => mon <| mon_valid := false |>) i ms
  | None => ms
  end.

Definition reservation r : ExclusiveMonitor :=
  let p := rt_payload r in
  {| mon_valid := true; mon_port := rt_port r; mon_id := ap_id p; mon_payload := p;
     mon_first := ap_address p; mon_last := ap_address p + burst_total p |}.

(** The slot an exclusive read takes: its own, or the first free one. *)
Definition reserve r (ms : list ExclusiveMonitor) : option (list ExclusiveMonitor) :=
  let slot := match find_index (monitor_matches (rt_port r) (ap_id (rt_payload r))) ms with
              | Some i => Some i
              | None => find_index (fun mon => negb (mon_valid mon)) ms
              end in
  (fun i => <[i := reservation r]> ms) <$> slot.

(** Byte [k] of a staged exclusive burst: its beats lie side by side. *)
Definition staged_byte (staged : list (list Z)) p (k : nat) : Z :=
  let a := ap_address p + Z.of_nat k in
  (staged !!! Z.to_nat (Z.of_nat k / burst_bytes p)) !!! Z.to_nat (a mod Z.of_nat DATA_BYTES).
Definition exclusive_bytes wr : list Z :=
  staged_byte (wt_staged_data wr) (rt_payload (wt_route wr))
    <$> seq 0 (Z.to_nat (burst_total (rt_payload (wt_route wr)))).
Definition exclusive_strobes wr : list Z :=
  (fun k => b2z (nz (staged_byte (wt_staged_strobe wr) (rt_payload (wt_route wr)) k)))
    <$> seq 0 (Z.to_nat (burst_total (rt_payload (wt_route wr)))).

(** An exclusive write: it is performed, as one access, only if the monitor of
    its port and identifier was set by the same burst; the monitor is
    released in any case. *)
Definition write_exclusive wr v : WriteRoute * View H :=
  let r := wt_route wr in
  let p := rt_payload r in
  let done resp v :=
    (wr <| wt_response := resp |>, v <| v_monitors ::= release (rt_port r) (ap_id p) |>) in
  match served r with
  | None => done (rt_forced_response r) v
  | Some m =>
      match monitor_of (v_monitors v) (rt_port r) (ap_id p) with
      | Some mon =>
          if bool_decide (mon_payload mon = p) then
            let '(resp, h') := write_impl (map_device m) (ap_address p - map_base m)
                                 (exclusive_bytes wr) (exclusive_strobes wr) (v_heap v) in
            let ok := response_is_success resp in
            done (if ok then ExclusiveOkay else resp)
              (v <| v_heap := h' |>
                 <| v_monitors ::= fun ms =>
                      if ok then invalidate_bytes (ap_address p) (exclusive_strobes wr) ms else ms |>)
          else done Okay v
      | None => done Okay v
      end
  end.

(** ** The transitions *)
Definition latch_exit (b : WriteResponsePayload) (e : bool * Z) : bool * Z :=
  if wr_exit_response b && negb e.1 then (true, wr_exit_code b) else e.

Definition legal_strobes p (i : nat) (strobe : list Z) : Prop :=
  forall lane, (lane < DATA_BYTES)%nat -> nz (strobe !!! lane) = true ->
    (beat_first p i <= lane < beat_first p i + beat_count p i)%nat.

Definition stage wr (w : WriteDataPayload) : WriteRoute :=
  let r := wt_route wr in
  wr <| wt_staged_data ::= <[rt_beat r := wd_data w]> |>
     <| wt_staged_strobe ::= <[rt_beat r := wd_strobe w]> |>
     <| wt_route := r <| rt_beat ::= S |> |>
     <| wt_data_complete := wd_last w |>.

Definition after_read r (rs : list Route) : list Route :=
  if (S (rt_beat r) =? burst_beats (rt_payload r))%nat then rs
  else r <| rt_beat ::= S |> :: rs.

Definition needs_monitor r : bool :=
  rt_exclusive r && (rt_beat r =? 0)%nat && bool_decide (rt_forced_response r = Okay).

Inductive step (sp : AddressSpace) : View H -> event -> View H -> Prop :=
| step_accept_aw v port p :
    (port < NumPorts)%nat -> request_wf p -> (length (q_aw (pv v port)) < AddressDepth)%nat ->
    step sp v (AcceptAW port p) (on_pv port (fun q => q <| q_aw ::= fun l => l ++ [p] |>) v)
| step_accept_w v port w :
    (port < NumPorts)%nat -> write_beat_wf w -> (length (q_w (pv v port)) < WriteDataDepth)%nat ->
    step sp v (AcceptW port w) (on_pv port (fun q => q <| q_w ::= fun l => l ++ [w] |>) v)
| step_accept_ar v port p :
    (port < NumPorts)%nat -> request_wf p -> (length (q_ar (pv v port)) < AddressDepth)%nat ->
    step sp v (AcceptAR port p) (on_pv port (fun q => q <| q_ar ::= fun l => l ++ [p] |>) v)
| step_retire_b v port b rest :
    (port < NumPorts)%nat -> q_b (pv v port) = b :: rest ->
    step sp v (RetireB port b)
      (on_pv port (fun q => q <| q_b := rest |>) (v <| v_exit ::= latch_exit b |>))
| step_retire_r v port b rest :
    (port < NumPorts)%nat -> q_r (pv v port) = b :: rest ->
    step sp v (RetireR port b) (on_pv port (fun q => q <| q_r := rest |>) v)
| step_grant_aw v port p rest r :
    (port < NumPorts)%nat -> q_aw (pv v port) = p :: rest ->
    (length (v_writes v) < RouteDepth)%nat -> fresh_route sp (v_heap v) port p r ->
    step sp v (GrantAW port)
      (on_pv port (fun q => q <| q_aw := rest |>) (v <| v_writes ::= fun l => l ++ [new_write r] |>))
| step_grant_ar v port p rest r :
    (port < NumPorts)%nat -> q_ar (pv v port) = p :: rest ->
    (length (v_reads v) < RouteDepth)%nat -> fresh_route sp (v_heap v) port p r ->
    step sp v (GrantAR port)
      (on_pv port (fun q => q <| q_ar := rest |>) (v <| v_reads ::= fun l => l ++ [r] |>))
| step_stage_w v wr ws w rest :
    let r := wt_route wr in
    v_writes v = wr :: ws -> wt_data_complete wr = false ->
    q_w (pv v (rt_port r)) = w :: rest ->
    wd_last w = (S (rt_beat r) =? burst_beats (rt_payload r))%nat ->
    legal_strobes (rt_payload r) (rt_beat r) (wd_strobe w) ->
    step sp v (StageW (rt_port r))
      (on_pv (rt_port r) (fun q => q <| q_w := rest |>) (v <| v_writes := stage wr w :: ws |>))
| step_write_device v wr ws m :
    let r := wt_route wr in
    v_writes v = wr :: ws -> wt_data_complete wr = true -> rt_exclusive r = false ->
    served r = Some m -> (length (q_b (pv v (rt_port r))) < ResponseDepth)%nat ->
    step sp v (WriteDevice (rt_port r)) (let '(wr', v') := write_beat wr m v in advance wr' ws v')
| step_write_rejected v wr ws :
    let r := wt_route wr in
    v_writes v = wr :: ws -> wt_data_complete wr = true -> rt_exclusive r = false ->
    served r = None -> (length (q_b (pv v (rt_port r))) < ResponseDepth)%nat ->
    step sp v (WriteRejected (rt_port r))
      (complete (wr <| wt_response ::= fun x => combine_response x (rt_forced_response r) |>) ws v)
| step_write_exclusive v wr ws :
    let r := wt_route wr in
    v_writes v = wr :: ws -> wt_data_complete wr = true -> rt_exclusive r = true ->
    (length (q_b (pv v (rt_port r))) < ResponseDepth)%nat ->
    step sp v (WriteExclusive (rt_port r))
      (let '(wr', v') := write_exclusive wr v in complete wr' ws v')
| step_read v r rs ms :
    v_reads v = r :: rs -> (length (q_r (pv v (rt_port r))) < ResponseDepth)%nat ->
    (if needs_monitor r then reserve r (v_monitors v) = Some ms else ms = v_monitors v) ->
    step sp v (ReadBeat (rt_port r))
      (let (beat, h') := read_beat r (v_heap v) in
       on_pv (rt_port r) (fun q => q <| q_r ::= fun l => l ++ [beat] |>)
         (v <| v_heap := h' |> <| v_reads := after_read r rs |> <| v_monitors := ms |>)).

(** ** Frames: an action touches only the queues of its port *)
Definition event_port (e : event) : nat :=
  match e with
  | AcceptAW port _ | AcceptW port _ | AcceptAR port _ | RetireB port _ | RetireR port _
  | GrantAW port | GrantAR port | StageW port | WriteDevice port | WriteRejected port
  | WriteExclusive port | ReadBeat port => port
  end.

(** The handshakes with the DUT, as opposed to the fabric's own progress. *)
Definition external (e : event) : bool :=
  match e with
  | AcceptAW _ _ | AcceptW _ _ | AcceptAR _ _ | RetireB _ _ | RetireR _ _ => true
  | _ => false
  end.
Definition retirement (e : event) : bool :=
  match e with RetireB _ _ | RetireR _ _ => true | _ => false end.

Lemma pv_on_pv_ne port port' g v : port <> port' -> pv (on_pv port g v) port' = pv v port'.
Proof. intros. unfold pv, on_pv. simpl. by rewrite !list_lookup_total_alt, list_lookup_alter_ne. Qed.

Lemma pv_on_pv_eq port g v :
  (port < length (v_ports v))%nat -> pv (on_pv port g v) port = g (pv v port).
Proof.
  intros Hp. unfold pv, on_pv. simpl. apply list_lookup_total_correct.
  by rewrite list_lookup_alter_eq, lookup_total_lt.
Qed.

(** A change of a port that keeps a projection keeps it everywhere. *)
Lemma pv_on_pv_proj {A} (proj : PortView -> A) port port' g v :
  (forall q, proj (g q) = proj q) -> proj (pv (on_pv port g v) port') = proj (pv v port').
Proof.
  intros Hg. destruct (decide (port = port')) as [->|Hne]; [|by rewrite pv_on_pv_ne].
  destruct (decide (port' < length (v_ports v))%nat).
  - by rewrite pv_on_pv_eq, Hg.
  - unfold pv, on_pv. simpl. rewrite !list_lookup_total_alt, list_lookup_alter_eq.
    by rewrite lookup_ge_None_2 by lia.
Qed.

(** Only the ports of a view decide what [pv] shows. *)
Lemma pv_ports v v' port : v_ports v' = v_ports v -> pv v' port = pv v port.
Proof. unfold pv. by intros ->. Qed.

Lemma advance_ports wr ws v port :
  rt_port (wt_route wr) <> port -> pv (advance wr ws v) port = pv v port.
Proof.
  intros. unfold advance, complete. destruct (_ =? _)%nat; [|done]. by rewrite pv_on_pv_ne.
Qed.

Lemma write_beat_ports wr m v :
  v_ports (write_beat wr m v).2 = v_ports v /\
  rt_port (wt_route (write_beat wr m v).1) = rt_port (wt_route wr).
Proof. unfold write_beat. destruct (write_impl _ _ _ _ _). simpl. by destruct (_ && _). Qed.

Lemma write_exclusive_ports wr v :
  v_ports (write_exclusive wr v).2 = v_ports v /\
  wt_route (write_exclusive wr v).1 = wt_route wr.
Proof.
  unfold write_exclusive. destruct (served _); [|done]. destruct (monitor_of _ _ _); [|done].
  case_bool_decide; [|done]. by destruct (write_impl _ _ _ _ _).
Qed.

Lemma step_other_port sp v e v' port :
  step sp v e v' -> event_port e <> port -> pv v' port = pv v port.
Proof.
  destruct 1; simpl; intros Hne; try (by rewrite pv_on_pv_ne).
  - subst r. pose proof (write_beat_ports wr m v) as [Hp Hr]. destruct (write_beat wr m v) as [wr' v'].
    simpl in *. rewrite advance_ports by congruence. by apply pv_ports.
  - unfold complete. by rewrite pv_on_pv_ne.
  - subst r. pose proof (write_exclusive_ports wr v) as [Hp Hr]. destruct (write_exclusive wr v) as [wr' v'].
    simpl in *. unfold complete. rewrite pv_on_pv_ne by congruence. by apply pv_ports.
  - destruct (read_beat r (v_heap v)). by rewrite pv_on_pv_ne.
Qed.

Lemma step_retirement sp v e v' port :
  step sp v e v' -> retirement e = true ->
  v_heap v' = v_heap v /\ q_aw (pv v' port) = q_aw (pv v port) /\
  q_w (pv v' port) = q_w (pv v port) /\ q_ar (pv v' port) = q_ar (pv v port).
Proof.
  destruct 1; simpl; intros Hr; try discriminate Hr; (split; [done|]).
  - by rewrite (pv_on_pv_proj q_aw), (pv_on_pv_proj q_w), (pv_on_pv_proj q_ar).
  - by rewrite (pv_on_pv_proj q_aw), (pv_on_pv_proj q_w), (pv_on_pv_proj q_ar).
Qed.

(** The actions that call a device. *)
Definition device_event (e : event) : bool :=
  match e with WriteDevice _ | WriteExclusive _ | ReadBeat _ => true | _ => false end.

Lemma step_quiet_heap sp v e v' : step sp v e v' -> device_event e = false -> v_heap v' = v_heap v.
Proof. destruct 1; simpl; intros Hx; try discriminate Hx; done. Qed.

(** Sequences of actions. *)
Inductive steps (sp : AddressSpace) : View H -> list event -> View H -> Prop :=
| steps_nil v : steps sp v [] v
| steps_cons v e v' es v'' : step sp v e v' -> steps sp v' es v'' -> steps sp v (e :: es) v''.

Lemma steps_app sp v es v' es' v'' :
  steps sp v es v' -> steps sp v' es' v'' -> steps sp v (es ++ es') v''.
Proof. induction 1; intros; simpl; [done | econstructor; eauto]. Qed.

Lemma steps_nil_inv sp v v' : steps sp v [] v' -> v' = v.
Proof. by inversion 1. Qed.

Lemma steps_other_port sp v es v' port :
  steps sp v es v' -> Forall (fun e => event_port e <> port) es -> pv v' port = pv v port.
Proof.
  induction 1 as [|v e v' es v'' Hs _ IH]; [done|]. intros [He Hes]%Forall_cons.
  rewrite IH by done. by eapply step_other_port.
Qed.

Lemma steps_retirement sp v es v' port :
  steps sp v es v' -> Forall (fun e => retirement e = true) es ->
  v_heap v' = v_heap v /\ q_aw (pv v' port) = q_aw (pv v port) /\
  q_w (pv v' port) = q_w (pv v port) /\ q_ar (pv v' port) = q_ar (pv v port).
Proof.
  induction 1 as [|v e v' es v'' Hs _ IH]; [done|]. intros [He Hes]%Forall_cons.
  destruct (step_retirement sp v e v' port Hs He) as (<- & <- & <- & <-). auto.
Qed.

Lemma steps_quiet_heap sp v es v' :
  steps sp v es v' -> Forall (fun e => device_event e = false) es -> v_heap v' = v_heap v.
Proof.
  induction 1 as [|v e v' es v'' Hs _ IH]; [done|]. intros [He Hes]%Forall_cons.
  rewrite IH by done. by eapply step_quiet_heap.
Qed.

Lemma steps_one sp v e v' : step sp v e v' -> steps sp v [e] v'.
Proof. intros. econstructor; [done | constructor]. Qed.

(** ** States without progress

    When the fabric itself cannot act: a write waits for its data or for room
    on B, a read for room on R, the address queues for a route. *)
Definition write_blocked v : Prop :=
  match v_writes v with
  | [] => True
  | wr :: _ =>
      let q := pv v (rt_port (wt_route wr)) in
      if wt_data_complete wr then (ResponseDepth <= length (q_b q))%nat else q_w q = []
  end.
Definition read_blocked v : Prop :=
  match v_reads v with
  | [] => True
  | r :: _ => (ResponseDepth <= length (q_r (pv v (rt_port r))))%nat
  end.
Definition arbitration_blocked v : Prop :=
  ((RouteDepth <= length (v_writes v))%nat \/ forall port, (port < NumPorts)%nat -> q_aw (pv v port) = []) /\
  ((RouteDepth <= length (v_reads v))%nat \/ forall port, (port < NumPorts)%nat -> q_ar (pv v port) = []).
Definition blocked v : Prop := write_blocked v /\ read_blocked v /\ arbitration_blocked v.
End Spec.
