(* ===== verification/FabricPorts.v ===== *)
(** * drive, check_stability, retire_responses and accept_ingress

    The invariant of the fabric, and the stages of a cycle that deal with the
    handshakes: [drive] offers READY and VALID in agreement with the queues,
    and the first three stages of [commit] perform exactly the handshakes of
    the cycle as transitions of FabricSpec.v.  The only errors are protocol
    violations of the DUT, raised before any device was accessed. *)
From S2P Require Import Prelude RingBuffer Axi Device Fabric FabricSpec.

Section Ports.
Context {cfg : FabricConfig} `{!FabricConfigOk cfg} {H : Type} `{!DeviceHeap H, !DeviceHeapLaws H}.
Implicit Types (f : Fabric H) (v : View H) (sp : AddressSpace).

(** ** Well-formed states *)
Record port_wf (s : PortState) : Prop := {
  pw_aw : rb_wf AddressDepth (p_aw s);
  pw_w : rb_wf WriteDataDepth (p_w s);
  pw_ar : rb_wf AddressDepth (p_ar s);
  pw_b : rb_wf ResponseDepth (p_b s);
  pw_r : rb_wf ResponseDepth (p_r s)
}.

Record shape f : Prop := {
  sh_length : length (ports_ f) = NumPorts;
  sh_ports : Forall port_wf (ports_ f);
  sh_outputs : length (outputs_ f) = NumPorts;
  sh_reads : rb_wf RouteDepth (read_routes_ f);
  sh_writes : rb_wf RouteDepth (write_routes_ f)
}.

(** The invariant of the abstract state. *)
Definition read_wf sp (r : Route) : Prop :=
  route_static sp r /\ (rt_beat r < burst_beats (rt_payload r))%nat.

Record write_wf sp (wr : WriteRoute) : Prop := {
  ww_static : route_static sp (wt_route wr);
  ww_beat : if wt_data_complete wr
            then rt_beat (wt_route wr) = burst_beats (rt_payload (wt_route wr))
            else (rt_beat (wt_route wr) < burst_beats (rt_payload (wt_route wr)))%nat;
  ww_commit : (wt_commit_beat wr < burst_beats (rt_payload (wt_route wr)))%nat;
  ww_data : length (wt_staged_data wr) = MAX_BURST_BEATS /\
            Forall (fun l => length l = DATA_BYTES) (wt_staged_data wr);
  ww_strobe : length (wt_staged_strobe wr) = MAX_BURST_BEATS /\
              Forall (fun l => length l = DATA_BYTES) (wt_staged_strobe wr)
}.

Record port_view_wf (q : PortView) : Prop := {
  qw_aw : Forall request_wf (q_aw q) /\ (length (q_aw q) <= AddressDepth)%nat;
  qw_w : Forall write_beat_wf (q_w q) /\ (length (q_w q) <= WriteDataDepth)%nat;
  qw_ar : Forall request_wf (q_ar q) /\ (length (q_ar q) <= AddressDepth)%nat;
  qw_b : (length (q_b q) <= ResponseDepth)%nat;
  qw_r : (length (q_r q) <= ResponseDepth)%nat
}.

Record view_wf sp v : Prop := {
  vw_length : length (v_ports v) = NumPorts;
  vw_ports : Forall port_view_wf (v_ports v);
  vw_reads : Forall (read_wf sp) (v_reads v) /\ (length (v_reads v) <= RouteDepth)%nat;
  vw_writes : Forall (write_wf sp) (v_writes v) /\ (length (v_writes v) <= RouteDepth)%nat;
  vw_monitors : length (v_monitors v) = RouteDepth
}.

Record fabric_wf f : Prop := {
  fw_space : space_wf (address_space_ f);
  fw_shape : shape f;
  fw_view : view_wf (address_space_ f) (view f)
}.

(** ** Access to one port *)
Lemma port_of_lookup f port :
  shape f -> (port < NumPorts)%nat -> ports_ f !! port = Some (port_of f port).
Proof. intros Hs Hp. apply lookup_total_lt. by rewrite (sh_length f Hs). Qed.

Lemma port_of_wf f port : shape f -> (port < NumPorts)%nat -> port_wf (port_of f port).
Proof.
  intros Hs Hp. eapply Forall_lookup_1; [apply (sh_ports f Hs) | by apply port_of_lookup].
Qed.

Lemma pv_view f port :
  shape f -> (port < NumPorts)%nat -> pv (view f) port = port_view (port_of f port).
Proof.
  intros Hs Hp. apply list_lookup_total_correct. simpl.
  by rewrite list_lookup_fmap, port_of_lookup.
Qed.

Lemma pv_wf sp v port : view_wf sp v -> (port < NumPorts)%nat -> port_view_wf (pv v port).
Proof.
  intros Hv Hp. eapply Forall_lookup_1; [apply (vw_ports sp v Hv)|].
  apply lookup_total_lt. by rewrite (vw_length sp v Hv).
Qed.

(** Changing one port of the state changes one port of the view. *)
Lemma view_on_port f port g g' :
  shape f -> (port < NumPorts)%nat ->
  port_view (g (port_of f port)) = g' (port_view (port_of f port)) ->
  view (f <| ports_ ::= alter g port |>) = on_pv port g' (view f).
Proof.
  intros Hs Hp Hg. unfold view, on_pv. simpl. f_equal.
  apply list_eq. intros i. rewrite list_lookup_fmap.
  destruct (decide (i = port)) as [->|Hne].
  - rewrite !list_lookup_alter_eq, list_lookup_fmap, port_of_lookup by done. simpl. by rewrite Hg.
  - rewrite !list_lookup_alter_ne by done. by rewrite list_lookup_fmap.
Qed.

Lemma view_on_port_same f port g :
  (forall s, port_view (g s) = port_view s) ->
  view (f <| ports_ ::= alter g port |>) = view f.
Proof.
  intros Hg. unfold view. simpl. f_equal. apply list_eq. intros i. rewrite !list_lookup_fmap.
  destruct (decide (i = port)) as [->|Hne].
  - rewrite list_lookup_alter_eq. destruct (ports_ f !! port); simpl; [by rewrite Hg | done].
  - by rewrite list_lookup_alter_ne.
Qed.

Lemma shape_on_port f port g :
  shape f -> (port_wf (port_of f port) -> port_wf (g (port_of f port))) ->
  shape (f <| ports_ ::= alter g port |>).
Proof.
  intros Hs Hg. destruct (decide (port < NumPorts)%nat) as [Hp|Hp].
  - pose proof (port_of_wf f port Hs Hp) as Hw. destruct Hs as [Hl Hps Ho Hr Hwr].
    constructor; simpl; try done; [by rewrite length_alter|].
    apply Forall_lookup. intros i s Hi. destruct (decide (i = port)) as [->|Hne].
    + rewrite list_lookup_alter_eq in Hi. apply fmap_Some in Hi as (s0 & Hs0 & ->).
      unfold port_of in *. rewrite (list_lookup_total_correct _ _ _ Hs0) in *. auto.
    + rewrite list_lookup_alter_ne in Hi by done. by eapply Forall_lookup_1.
  - destruct Hs as [Hl Hps Ho Hr Hwr].
    assert (alter g port (ports_ f) = ports_ f) as Heq.
    { apply list_eq. intros i. destruct (decide (i = port)) as [->|Hne].
      - rewrite list_lookup_alter_eq, lookup_ge_None_2 by lia. done.
      - by rewrite list_lookup_alter_ne. }
    constructor; simpl; rewrite ?Heq; done.
Qed.

(** ** Stages *)

(** [f'] is reached from [f] in the course of a cycle, by the actions [es]. *)
Record reaches (es : list event) f f' : Prop := {
  st_space : address_space_ f' = address_space_ f;
  st_outputs : outputs_ f' = outputs_ f;
  st_cycle : cycle_ f' = cycle_ f;
  st_shape : shape f';
  st_steps : steps (address_space_ f) (view f) es (view f');
  st_reset : reset_devices_ f' = reset_devices_ f
}.

Lemma reaches_refl f : shape f -> reaches [] f f.
Proof. intros. constructor; auto. constructor. Qed.

Lemma reaches_trans es1 es2 f f1 f2 : reaches es1 f f1 -> reaches es2 f1 f2 -> reaches (es1 ++ es2) f f2.
Proof.
  intros [Ha1 Hb1 Hc1 Hd1 He1 Hf1] [Ha2 Hb2 Hc2 Hd2 He2 Hf2]. rewrite Ha1 in He2.
  constructor; [congruence.. | done | by eapply steps_app | congruence].
Qed.

(** Only parts of the state that the view does not show have changed. *)
Lemma reaches_silent f f' :
  shape f' -> address_space_ f' = address_space_ f -> outputs_ f' = outputs_ f ->
  cycle_ f' = cycle_ f -> reset_devices_ f' = reset_devices_ f -> view f' = view f -> reaches [] f f'.
Proof. intros Hs Ha Hb Hc Hd Hv. constructor; auto. rewrite Hv. constructor. Qed.

(** ** Errors *)
Definition protocol_details : list string :=
  cursor_errors ++
  ["VALID or payload changed while stalled"; "address overflows configured width";
   "illegal AXI exclusive transfer shape"; "exclusive monitor table exhausted";
   "WLAST missing on final beat"; "WLAST asserted before final beat";
   "WSTRB selects an illegal byte lane"].

(** A protocol violation of the DUT: one of the documented messages, with the
    cycle and a port of the fabric; the devices are as they were. *)
Definition violation f (e : exn) f' : Prop :=
  (exists ctx why, e = ProtocolError (Some ctx) why /\ why ∈ protocol_details /\
     ec_cycle ctx = cycle_ f /\ (ec_port ctx < NumPorts)%nat) /\
  f_heap f' = f_heap f.

Lemma wp_protocol_error {A} f0 port channel why payload (Q : A -> Fabric H -> Prop) f :
  (port < NumPorts)%nat -> cycle_ f = cycle_ f0 -> f_heap f = f_heap f0 ->
  why ∈ protocol_details ->
  wp (protocol_error port channel why payload) Q (violation f0) f.
Proof.
  intros Hp Hc Hh Hw. unfold wp, protocol_error. split; [|done].
  eexists _, _. split; [done|]. simpl. auto.
Qed.

(** Membership in the list of messages, by computation. *)
(** The same with a reason why the request was rejected. *)
Lemma wp_reject {A} (P : Prop) f0 port channel why payload (Q : A -> Fabric H -> Prop) f :
  (port < NumPorts)%nat -> cycle_ f = cycle_ f0 -> f_heap f = f_heap f0 -> why ∈ protocol_details -> P ->
  wp (protocol_error port channel why payload) Q (fun e f' => violation f0 e f' /\ P) f.
Proof.
  intros. eapply (wp_mono _ Q _ (violation f0)); [by apply wp_protocol_error | done | done].
Qed.

Lemma detail_intro why : bool_decide (why ∈ protocol_details) = true -> why ∈ protocol_details.
Proof. apply bool_decide_eq_true. Qed.

(** ** check_stability *)
Lemma check_address_watch_spec f port channel watch valid ready payload :
  (port < NumPorts)%nat ->
  wp (check_address_watch port channel watch valid ready payload) (fun _ f' => f' = f)
    (violation f) f.
Proof.
  intros Hp. unfold check_address_watch. destruct (_ && _).
  - by apply wp_protocol_error, detail_intro.
  - by apply wp_ret.
Qed.

Lemma violation_trans f f1 e f' :
  cycle_ f1 = cycle_ f -> f_heap f1 = f_heap f -> violation f1 e f' -> violation f e f'.
Proof. intros Hc Hh [Hd He]. unfold violation. by rewrite <- Hc, <- Hh. Qed.

Lemma reaches_nil_view f f' : reaches [] f f' -> view f' = view f.
Proof. intros [_ _ _ _ Hst]. by apply steps_nil_inv in Hst. Qed.

Lemma view_heap f f' : view f' = view f -> f_heap f' = f_heap f.
Proof. exact (f_equal v_heap (x := view f') (y := view f)). Qed.

(** A later part of the cycle, while the devices are untouched. *)
Lemma wp_later {A} (c : M (Fabric H) A) Q f f1 :
  cycle_ f1 = cycle_ f -> f_heap f1 = f_heap f ->
  wp c Q (violation f1) f1 -> wp c Q (violation f) f1.
Proof.
  intros Hc Hh Hw. eapply wp_mono; [exact Hw | done |].
  intros e f' Hv. by eapply violation_trans.
Qed.

Lemma reaches_silent_port f port g :
  shape f -> (forall s, port_view (g s) = port_view s) ->
  (forall s, port_wf s -> port_wf (g s)) ->
  reaches [] f (f <| ports_ ::= alter g port |>).
Proof.
  intros Hs Hg Hw. apply reaches_silent; try done.
  - apply shape_on_port; auto.
  - by apply view_on_port_same.
Qed.

Ltac silent_port :=
  apply reaches_silent_port; [eauto using st_shape | done | by intros s []].

Lemma check_stability_port_spec inputs f port :
  shape f -> (port < NumPorts)%nat ->
  wp (check_stability_port inputs port) (fun _ f' => reaches [] f f') (violation f) f.
Proof.
  intros Hs Hp. unfold check_stability_port, on_port. wp_steps.
  eapply wp_mono; [by apply check_address_watch_spec | | done]. intros w1 ? ->. wp_steps.
  match goal with |- wp _ _ _ ?f' => assert (reaches [] f f') as Hr1 by silent_port; set (f1 := f') in *; clearbody f1 end.
  wp_if E.
  { apply wp_protocol_error; [done | apply Hr1 | by apply view_heap, reaches_nil_view |].
    by apply detail_intro. }
  wp_steps.
  match goal with |- wp _ _ _ ?f' => assert (reaches [] f1 f') as Hr2 by silent_port; set (f2 := f') in *; clearbody f2 end.
  pose proof (reaches_trans [] [] _ _ _ Hr1 Hr2) as Hr12.
  apply wp_later; [apply Hr12 | by apply view_heap, reaches_nil_view |].
  eapply wp_mono; [by apply check_address_watch_spec | | done]. intros w3 ? ->. wp_steps.
  apply (reaches_trans [] [] _ f2); [done | silent_port].
Qed.

Lemma check_stability_spec inputs f :
  shape f ->
  wp (check_stability inputs) (fun _ f' => reaches [] f f') (violation f) f.
Proof.
  intros Hs. apply wp_for_each_inv; [by apply reaches_refl|].
  intros port f1 Hp%elem_of_seq Hr.
  apply wp_later; [apply Hr | by apply view_heap, reaches_nil_view |].
  eapply wp_mono; [apply check_stability_port_spec; [apply Hr | lia] | | done].
  intros ? f2 Hr2. by apply (reaches_trans [] [] _ f1).
Qed.

(** ** drive *)

(** The outputs of a port agree with its queues: READY only with room, VALID
    only with the front of the queue as payload. *)
Definition driven_port (out : SlaveSignals) (q : PortView) : Prop :=
  (s_aw_ready out = true -> (length (q_aw q) < AddressDepth)%nat) /\
  (s_w_ready out = true -> (length (q_w q) < WriteDataDepth)%nat) /\
  (s_ar_ready out = true -> (length (q_ar q) < AddressDepth)%nat) /\
  (s_b_valid out = true -> exists rest, q_b q = s_b out :: rest) /\
  (s_r_valid out = true -> exists rest, q_r q = s_r out :: rest).

(** The other direction, while reset is inactive: a waiting response is shown. *)
Definition presents (out : SlaveSignals) (q : PortView) : Prop :=
  (s_b_valid out = false -> q_b q = []) /\ (s_r_valid out = false -> q_r q = []).

Definition driven f : Prop :=
  forall port, (port < NumPorts)%nat -> driven_port (output_of f port) (pv (view f) port).

Definition no_error {S} (_ : exn) (_ : S) : Prop := False.

(** A computation that does not throw, inside any other. *)
Lemma wp_safe {A} (c : M (Fabric H) A) (Q Q' : A -> Fabric H -> Prop) E f :
  wp c Q no_error f -> (forall a f', Q a f' -> Q' a f') -> wp c Q' E f.
Proof. intros Hc HQ. eapply wp_mono; [exact Hc | exact HQ | by intros e f' ?]. Qed.

Lemma ready_unless_spec full f :
  wp (ready_unless full)
    (fun b f' => (b = true -> full = false) /\ exists rs, f' = f <| random_state_ := rs |>)
    no_error f.
Proof.
  assert (exists rs, f = f <| random_state_ := rs |>) as Hsame.
  { exists (random_state_ f). by destruct f. }
  unfold ready_unless. destruct full; [by apply wp_ret|].
  unfold wp, allow_ready. repeat case_match; simplify_eq; split; eauto; done.
Qed.

Lemma rb_not_full {T} `{!Inhabited T} C (rb : RingBuffer T) :
  rb_wf C rb -> rb_full C rb = false -> (length (rb_list C rb) < C)%nat.
Proof. intros Hw Hf. by apply rb_full_spec. Qed.

Lemma rb_is_full {T} `{!Inhabited T} C (rb : RingBuffer T) :
  rb_wf C rb -> rb_full C rb = true -> (C <= length (rb_list C rb))%nat.
Proof.
  intros Hw Hf. destruct (decide (length (rb_list C rb) < C)%nat) as [Hl|]; [|lia].
  apply rb_full_spec in Hl; [congruence | done].
Qed.

Lemma rb_front_cases {T} `{!Inhabited T} C (rb : RingBuffer T) :
  rb_wf C rb -> rb_empty rb = false ->
  exists x q, rb_list C rb = x :: q /\ rb_front rb = Ok x.
Proof.
  intros Hw He. rewrite (rb_front_spec C) by done.
  destruct (rb_list C rb) as [|x q] eqn:E; [|by exists x, q].
  apply rb_empty_spec in E. congruence.
Qed.

Lemma wp_front_if {T} `{!Inhabited T} C (rb : RingBuffer T) Q f :
  rb_wf C rb ->
  (forall x, (negb (rb_empty rb) = true -> exists rest, rb_list C rb = x :: rest) -> Q x f) ->
  wp (if negb (rb_empty rb) then lift (rb_front rb) else ret inhabitant) Q no_error f.
Proof.
  intros Hw HQ. destruct (rb_empty rb) eqn:He; simpl; [by apply wp_ret, HQ|].
  destruct (rb_front_cases _ _ Hw He) as (x & q & Hl & ->). apply HQ. rewrite Hl. eauto.
Qed.

Lemma drive_port_spec f port :
  shape f -> (port < NumPorts)%nat ->
  wp (drive_port port)
    (fun _ f' => exists rs out, f' = f <| random_state_ := rs |> <| outputs_ ::= <[port := out]> |>
                   /\ driven_port out (pv (view f) port) /\ presents out (pv (view f) port))
    no_error f.
Proof.
  intros Hs Hp. rewrite pv_view by done. pose proof (port_of_wf f port Hs Hp) as [Haw Hw Har Hb Hr].
  unfold drive_port. wp_steps.
  eapply wp_mono; [apply ready_unless_spec | | done]. intros awr f1 [H1 [rs1 ->]]. wp_steps.
  eapply wp_mono; [apply ready_unless_spec | | done]. intros wr f2 [H2 [rs2 ->]]. wp_steps.
  eapply wp_mono; [apply ready_unless_spec | | done]. intros arr f3 [H3 [rs3 ->]]. wp_steps.
  set (s := port_of f port) in *.
  apply (wp_front_if ResponseDepth); [done|]. intros b Hbq. wp_steps.
  apply (wp_front_if ResponseDepth); [done|]. intros r Hrq. wp_steps.
  eexists rs3, _. split; [done|]. unfold driven_port, presents. simpl.
  split_and!; intros Ht; eauto using rb_not_full; try (by apply rb_empty_spec, negb_false_iff);
    (by apply Hbq) || by apply Hrq.
Qed.

Lemma driven_reset_port (q : PortView) : driven_port inhabitant q.
Proof. unfold driven_port. simpl. split_and!; discriminate. Qed.

Lemma shape_outputs f outs rs :
  shape f -> length outs = NumPorts ->
  shape (f <| random_state_ := rs |> <| outputs_ := outs |>).
Proof. intros [Hl Hps Ho Hr Hwr] Hn. by constructor. Qed.

Lemma drive_spec f reset_active :
  shape f ->
  wp (drive reset_active)
    (fun outs f' => outputs_ f' = outs /\ driven f' /\ shape f' /\
       (exists rs, f' = f <| random_state_ := rs |> <| outputs_ := outs |>) /\
       (reset_active = false ->
          forall port, (port < NumPorts)%nat -> presents (outs !!! port) (pv (view f) port)))
    no_error f.
Proof.
  intros Hs. unfold drive.
  set (I (l : list nat) f' := exists rs outs, f' = f <| random_state_ := rs |> <| outputs_ := outs |> /\
         length outs = NumPorts /\
         forall port, (port < NumPorts)%nat -> port ∉ l -> driven_port (outs !!! port) (pv (view f) port) /\
           (reset_active = false -> presents (outs !!! port) (pv (view f) port))).
  assert (I (if reset_active then [] else seq 0 NumPorts)
            (f <| outputs_ := replicate NumPorts inhabitant |>)) as HI.
  { exists (random_state_ f), (replicate NumPorts inhabitant). split; [by destruct f|].
    split; [by rewrite length_replicate|]. intros port Hp Hn.
    rewrite lookup_total_replicate_2 by done. split; [apply driven_reset_port|].
    intros ->. destruct Hn. apply elem_of_seq. lia. }
  wp_steps. apply (wp_mono _ (fun _ => I []) _ no_error).
  - destruct reset_active; simpl; [by apply wp_ret|].
    apply wp_for_each; [done|]. clear HI.
    intros port l f1 Hp%elem_of_seq (rs & outs & -> & Hl & Hd).
    eapply wp_mono; [apply drive_port_spec; [by apply shape_outputs | lia] | | done].
    intros _ f2 (rs2 & out & -> & Ho & Hpr). exists rs2, (<[port := out]> outs).
    split; [done|]. split; [by rewrite length_insert|]. intros i Hi Hni.
    destruct (decide (i = port)) as [->|Hne].
    + rewrite list_lookup_total_insert_eq by lia. auto.
    + rewrite list_lookup_total_insert_ne by done. apply Hd; [done|].
      rewrite elem_of_cons. tauto.
  - intros _ f1 (rs & outs & -> & Hl & Hd). wp_steps. split; [done|].
    split; [|split; [by apply shape_outputs | split; [by exists rs|]]].
    + intros port Hp. apply Hd; [done|]. by apply not_elem_of_nil.
    + intros Hr port Hp. apply Hd; [done | by apply not_elem_of_nil | done].
  - done.
Qed.

(** ** retire_responses *)
Definition retire_events (outs : list SlaveSignals) (inputs : list MasterSignals) (port : nat)
    : list event :=
  let out := outs !!! port in
  let input := inputs !!! port in
  (if s_b_valid out && m_b_ready input then [RetireB port (s_b out)] else []) ++
  (if s_r_valid out && m_r_ready input then [RetireR port (s_r out)] else []).

Definition accept_events (outs : list SlaveSignals) (inputs : list MasterSignals) (port : nat)
    : list event :=
  let out := outs !!! port in
  let input := inputs !!! port in
  (if m_aw_valid input && s_aw_ready out then [AcceptAW port (m_aw input)] else []) ++
  (if m_w_valid input && s_w_ready out then [AcceptW port (m_w input)] else []) ++
  (if m_ar_valid input && s_ar_ready out then [AcceptAR port (m_ar input)] else []).

(** The pop of a queue whose front is known. *)
Lemma rb_pop_cases {T} `{!Inhabited T} C (rb : RingBuffer T) x q :
  rb_wf C rb -> rb_list C rb = x :: q ->
  rb_front rb = Ok x /\ exists rb', rb_pop C rb = Ok rb' /\ rb_wf C rb' /\ rb_list C rb' = q.
Proof.
  intros Hw Hl. pose proof (rb_pop_spec C rb Hw) as Hp. rewrite (rb_front_spec C) by done.
  rewrite Hl in *. done.
Qed.

Lemma rb_push_cases {T} `{!Inhabited T} C (rb : RingBuffer T) x :
  rb_wf C rb -> (length (rb_list C rb) < C)%nat ->
  exists rb', rb_push C x rb = (true, rb') /\ rb_wf C rb' /\ rb_list C rb' = rb_list C rb ++ [x].
Proof.
  intros Hw Hl. pose proof (rb_push_spec C rb x Hw) as Hp. apply rb_full_spec in Hl; [|done].
  destruct (rb_push C x rb) as [b rb']. rewrite Hl in Hp. destruct Hp as (? & -> & ?).
  by exists rb'.
Qed.

(** One action of a port, given the concrete change and its view. *)
Lemma reaches_port e f0 f port g g' v0 :
  shape f -> (port < NumPorts)%nat ->
  address_space_ f = address_space_ f0 -> outputs_ f = outputs_ f0 -> cycle_ f = cycle_ f0 ->
  reset_devices_ f = reset_devices_ f0 -> view f = v0 ->
  port_view (g (port_of f port)) = g' (port_view (port_of f port)) ->
  (port_wf (port_of f port) -> port_wf (g (port_of f port))) ->
  step (address_space_ f0) (view f0) e (on_pv port g' v0) ->
  reaches [e] f0 (f <| ports_ ::= alter g port |>).
Proof.
  intros Hs Hp Ha Ho Hc Hd Hv Hg Hw Hst. constructor; try done.
  - by apply shape_on_port.
  - apply steps_one. erewrite view_on_port by done. by rewrite Hv.
Qed.

Lemma retire_b_spec f port b rest :
  shape f -> (port < NumPorts)%nat -> q_b (pv (view f) port) = b :: rest ->
  wp (retire_b port) (fun _ f' => reaches [RetireB port b] f f') no_error f.
Proof.
  intros Hs Hp Hq. pose proof Hq as Hq'. rewrite pv_view in Hq' by done. simpl in Hq'.
  pose proof (port_of_wf f port Hs Hp) as Hw.
  destruct (rb_pop_cases _ _ _ _ (pw_b _ Hw) Hq') as (Hf & rb' & Hpop & Hwf' & Hl').
  unfold retire_b, on_port. wp_steps. eapply wp_lift_ok; [exact Hf|]. wp_steps.
  set (f1 := if wr_exit_response b && negb (exit_completed_ f)
             then f <| exit_completed_ := true |> <| exit_code_ := wr_exit_code b |> else f).
  apply (wp_mono _ (fun _ f' => f' = f1) _ no_error); [| |done].
  { unfold f1. destruct (_ && _); [by apply wp_modify | by apply wp_ret]. }
  intros _ ? ->. wp_steps. eapply wp_lift_ok; [exact Hpop|]. wp_steps.
  assert (ports_ f1 = ports_ f) as Hpf by (unfold f1; by destruct (_ && _)).
  eapply (reaches_port _ _ f1 port _ (fun q => q <| q_b := rest |>)
            ((view f) <| v_exit ::= latch_exit b |>)); try (unfold f1; by destruct (_ && _)).
  - unfold f1; destruct (_ && _); [|done]. by destruct Hs.
  - unfold f1, view, latch_exit. simpl. destruct (wr_exit_response b && negb (exit_completed_ f)); done.
  - unfold port_of. rewrite Hpf. unfold port_view. simpl. by rewrite Hl'.
  - intros []. by constructor.
  - by econstructor.
Qed.

Lemma retire_r_spec f port b rest :
  shape f -> (port < NumPorts)%nat -> q_r (pv (view f) port) = b :: rest ->
  wp (retire_r port) (fun _ f' => reaches [RetireR port b] f f') no_error f.
Proof.
  intros Hs Hp Hq. pose proof Hq as Hq'. rewrite pv_view in Hq' by done. simpl in Hq'.
  pose proof (port_of_wf f port Hs Hp) as Hw.
  destruct (rb_pop_cases _ _ _ _ (pw_r _ Hw) Hq') as (Hf & rb' & Hpop & Hwf' & Hl').
  unfold retire_r, on_port. wp_steps. eapply wp_lift_ok; [exact Hpop|]. wp_steps.
  eapply (reaches_port _ _ f port _ (fun q => q <| q_r := rest |>) (view f)); try done.
  - unfold port_view. simpl. by rewrite Hl'.
  - intros []. by constructor.
  - by econstructor.
Qed.

(** A handshake that may or may not take place. *)
Lemma wp_when (b : bool) (c : M (Fabric H) unit) es f :
  shape f -> (b = true -> wp c (fun _ f' => reaches es f f') no_error f) ->
  wp (when b c) (fun _ f' => reaches (if b then es else []) f f') no_error f.
Proof. intros Hs Hc. destruct b; [by apply Hc | by apply wp_ret, reaches_refl]. Qed.

Lemma retire_port_spec inputs f port :
  shape f -> (port < NumPorts)%nat -> driven_port (output_of f port) (pv (view f) port) ->
  wp (retire_port inputs port) (fun _ f' => reaches (retire_events (outputs_ f) inputs port) f f')
    no_error f.
Proof.
  intros Hs Hp (_ & _ & _ & Hb & Hr). unfold retire_port. wp_steps.
  eapply wp_mono; [apply (wp_when _ _ [RetireB port (s_b (output_of f port))]); [done|] | | done].
  { intros [Hv _]%andb_true_iff. destruct (Hb Hv) as [rest Hq]. by eapply retire_b_spec. }
  intros ? f1 Hr1.
  assert (q_r (pv (view f1) port) = q_r (pv (view f) port)) as Hq.
  { destruct Hr1 as [_ _ _ _ Hst]. revert Hst. destruct (_ && _); [|by intros ->%steps_nil_inv].
    intros Hst. inversion Hst as [|? ? ? ? ? H1 H2]; subst. apply steps_nil_inv in H2 as ->.
    inversion H1; subst. by rewrite (pv_on_pv_proj q_r). }
  eapply wp_mono; [apply (wp_when _ _ [RetireR port (s_r (output_of f port))]); [apply Hr1|] | | done].
  { intros [Hv _]%andb_true_iff. destruct (Hr Hv) as [rest Hq']. rewrite <- Hq in Hq'.
    eapply retire_r_spec; [apply Hr1 | done | done]. }
  intros ? f2 Hr2. exact (reaches_trans _ _ _ _ _ Hr1 Hr2).
Qed.

(** A loop over the ports in which each port does its own actions. *)
Lemma ports_loop (body : nat -> M (Fabric H) unit) (ev : nat -> list event)
    (ready : PortView -> nat -> Prop) f :
  shape f ->
  (forall port f1, (port < NumPorts)%nat -> shape f1 -> outputs_ f1 = outputs_ f ->
     ready (pv (view f1) port) port ->
     wp (body port) (fun _ f' => reaches (ev port) f1 f') no_error f1) ->
  (forall port, Forall (fun e => event_port e = port) (ev port)) ->
  (forall port, (port < NumPorts)%nat -> ready (pv (view f) port) port) ->
  wp (for_each (seq 0 NumPorts) body) (fun _ f' => reaches (seq 0 NumPorts ≫= ev) f f') no_error f.
Proof.
  intros Hs Hbody Hev Hready.
  set (I (l : list nat) f' := exists done, seq 0 NumPorts = done ++ l /\ reaches (done ≫= ev) f f').
  apply (wp_mono _ (fun _ => I []) _ no_error); [| |done].
  - apply wp_for_each; [exists []; split; [done | by apply reaches_refl]|].
    intros port l f1 Hp%elem_of_seq (done & Hl & Hr).
    assert (pv (view f1) port = pv (view f) port) as Hpv.
    { eapply steps_other_port; [apply Hr|]. apply Forall_forall.
      intros e (x & He & Hx)%list_elem_of_bind. pose proof (Hev x) as Hex.
      rewrite Forall_forall in Hex. rewrite (Hex e He). intros ->.
      pose proof (NoDup_seq 0 NumPorts) as Hnd. rewrite Hl in Hnd.
      apply NoDup_app in Hnd as (_ & Hnd & _). apply (Hnd _ Hx). by left. }
    eapply wp_mono; [apply Hbody | | done]; [lia | apply Hr | apply Hr | rewrite Hpv; apply Hready; lia |].
    intros ? f2 Hr2. exists (done ++ [port]). split; [by rewrite <- app_assoc|].
    rewrite bind_app. cbn [mbind list_bind]. rewrite app_nil_r. by eapply reaches_trans.
  - intros ? f' (done & Hl & Hr). by rewrite Hl, app_nil_r.
Qed.

Lemma retire_events_port outs inputs port :
  Forall (fun e => event_port e = port) (retire_events outs inputs port) /\
  Forall (fun e => retirement e = true) (retire_events outs inputs port).
Proof. unfold retire_events. destruct (_ && _), (_ && _); simpl; auto using Forall_cons_2. Qed.

Lemma retire_responses_spec inputs f :
  shape f -> driven f ->
  wp (retire_responses inputs)
    (fun _ f' => reaches (seq 0 NumPorts ≫= retire_events (outputs_ f) inputs) f f') no_error f.
Proof.
  intros Hs Hd.
  apply (ports_loop _ _ (fun q port => driven_port (output_of f port) q)); [done | | | done].
  - intros port f1 Hp Hs1 Ho Hdp. rewrite <- Ho. apply retire_port_spec; [done..|].
    unfold output_of in *. by rewrite Ho.
  - intros port. apply retire_events_port.
Qed.

(** ** accept_ingress *)
Definition master_wf (input : MasterSignals) : Prop :=
  (m_aw_valid input = true -> request_wf (m_aw input)) /\
  (m_w_valid input = true -> write_beat_wf (m_w input)) /\
  (m_ar_valid input = true -> request_wf (m_ar input)).
Definition inputs_wf (inputs : list MasterSignals) : Prop :=
  forall port, (port < NumPorts)%nat -> master_wf (inputs !!! port).

Lemma accept_aw_spec f port p :
  shape f -> (port < NumPorts)%nat -> request_wf p ->
  (length (q_aw (pv (view f) port)) < AddressDepth)%nat ->
  wp (accept_aw port p) (fun _ f' => reaches [AcceptAW port p] f f') no_error f.
Proof.
  intros Hs Hp Hr Hl. pose proof Hl as Hl'. rewrite pv_view in Hl' by done.
  pose proof (port_of_wf f port Hs Hp) as Hw.
  destruct (rb_push_cases _ _ p (pw_aw _ Hw) Hl') as (rb' & Hpush & Hwf' & Hlist).
  unfold accept_aw, on_port. wp_steps. rewrite Hpush. wp_steps.
  eapply (reaches_port _ _ f port _ (fun q => q <| q_aw ::= fun l => l ++ [p] |>) (view f)); try done.
  - unfold port_view. simpl. by rewrite Hlist.
  - intros []. by constructor.
  - by constructor.
Qed.

Lemma accept_w_spec f port w :
  shape f -> (port < NumPorts)%nat -> write_beat_wf w ->
  (length (q_w (pv (view f) port)) < WriteDataDepth)%nat ->
  wp (accept_w port w) (fun _ f' => reaches [AcceptW port w] f f') no_error f.
Proof.
  intros Hs Hp Hr Hl. pose proof Hl as Hl'. rewrite pv_view in Hl' by done.
  pose proof (port_of_wf f port Hs Hp) as Hw.
  destruct (rb_push_cases _ _ w (pw_w _ Hw) Hl') as (rb' & Hpush & Hwf' & Hlist).
  unfold accept_w, on_port. wp_steps. rewrite Hpush. wp_steps.
  eapply (reaches_port _ _ f port _ (fun q => q <| q_w ::= fun l => l ++ [w] |>) (view f)); try done.
  - unfold port_view. simpl. by rewrite Hlist.
  - intros []. by constructor.
  - by constructor.
Qed.

Lemma accept_ar_spec f port p :
  shape f -> (port < NumPorts)%nat -> request_wf p ->
  (length (q_ar (pv (view f) port)) < AddressDepth)%nat ->
  wp (accept_ar port p) (fun _ f' => reaches [AcceptAR port p] f f') no_error f.
Proof.
  intros Hs Hp Hr Hl. pose proof Hl as Hl'. rewrite pv_view in Hl' by done.
  pose proof (port_of_wf f port Hs Hp) as Hw.
  destruct (rb_push_cases _ _ p (pw_ar _ Hw) Hl') as (rb' & Hpush & Hwf' & Hlist).
  unfold accept_ar, on_port. wp_steps. rewrite Hpush. wp_steps.
  eapply (reaches_port _ _ f port _ (fun q => q <| q_ar ::= fun l => l ++ [p] |>) (view f)); try done.
  - unfold port_view. simpl. by rewrite Hlist.
  - intros []. by constructor.
  - by constructor.
Qed.

(** Queues that an accepted beat of another channel leaves alone. *)
Lemma step_accept_w_frame sp v (b : bool) port w v' :
  steps sp v (if b then [AcceptW port w] else []) v' -> q_ar (pv v' port) = q_ar (pv v port).
Proof.
  destruct b; [|by intros ->%steps_nil_inv]. intros Hst.
  inversion Hst as [|? ? ? ? ? H1 H2]; subst. apply steps_nil_inv in H2 as ->.
  inversion H1; subst. by rewrite (pv_on_pv_proj q_ar).
Qed.

Lemma step_accept_aw_frame sp v (b : bool) port p v' :
  steps sp v (if b then [AcceptAW port p] else []) v' ->
  q_w (pv v' port) = q_w (pv v port) /\ q_ar (pv v' port) = q_ar (pv v port).
Proof.
  destruct b; [|by intros ->%steps_nil_inv]. intros Hst.
  inversion Hst as [|? ? ? ? ? H1 H2]; subst. apply steps_nil_inv in H2 as ->.
  inversion H1; subst. by rewrite (pv_on_pv_proj q_ar), (pv_on_pv_proj q_w).
Qed.

Definition ingress_ready (out : SlaveSignals) (q : PortView) : Prop :=
  (s_aw_ready out = true -> (length (q_aw q) < AddressDepth)%nat) /\
  (s_w_ready out = true -> (length (q_w q) < WriteDataDepth)%nat) /\
  (s_ar_ready out = true -> (length (q_ar q) < AddressDepth)%nat).

Lemma accept_port_spec inputs f port :
  shape f -> (port < NumPorts)%nat -> master_wf (inputs !!! port) ->
  ingress_ready (output_of f port) (pv (view f) port) ->
  wp (accept_port inputs port) (fun _ f' => reaches (accept_events (outputs_ f) inputs port) f f')
    no_error f.
Proof.
  intros Hs Hp (Hiaw & Hiw & Hiar) (Haw & Hw & Har). unfold accept_port. wp_steps.
  eapply wp_mono; [apply (wp_when _ _ [AcceptAW port (m_aw (inputs !!! port))]); [done|] | | done].
  { intros [Hv Hy]%andb_true_iff. apply accept_aw_spec; auto. }
  intros ? f1 Hr1. destruct (step_accept_aw_frame _ _ _ _ _ _ (st_steps _ _ _ Hr1)) as [Ew Ear].
  wp_steps.
  eapply wp_mono; [apply (wp_when _ _ [AcceptW port (m_w (inputs !!! port))]); [apply Hr1|] | | done].
  { intros [Hv Hy]%andb_true_iff. apply accept_w_spec; [apply Hr1 | done | auto |]. rewrite Ew. auto. }
  intros ? f2 Hr2. pose proof (step_accept_w_frame _ _ _ _ _ _ (st_steps _ _ _ Hr2)) as Ear2.
  eapply wp_mono; [apply (wp_when _ _ [AcceptAR port (m_ar (inputs !!! port))]); [apply Hr2|] | | done].
  { intros [Hv Hy]%andb_true_iff. apply accept_ar_spec; [apply Hr2 | done | auto |].
    rewrite Ear2, Ear. auto. }
  intros ? f3 Hr3.
  exact (reaches_trans _ _ _ _ _ Hr1 (reaches_trans _ _ _ _ _ Hr2 Hr3)).
Qed.

Lemma accept_events_port outs inputs port :
  Forall (fun e => event_port e = port) (accept_events outs inputs port).
Proof. unfold accept_events. destruct (_ && _), (_ && _), (_ && _); simpl; auto using Forall_cons_2. Qed.

Lemma accept_ingress_spec inputs f :
  shape f -> inputs_wf inputs ->
  (forall port, (port < NumPorts)%nat -> ingress_ready (output_of f port) (pv (view f) port)) ->
  wp (accept_ingress inputs)
    (fun _ f' => reaches (seq 0 NumPorts ≫= accept_events (outputs_ f) inputs) f f') no_error f.
Proof.
  intros Hs Hi Hd.
  apply (ports_loop _ _ (fun q port => ingress_ready (output_of f port) q)); [done | | | done].
  - intros port f1 Hp Hs1 Ho Hdp. rewrite <- Ho. apply accept_port_spec; [done | done | auto |].
    unfold output_of in *. by rewrite Ho.
  - intros port. apply accept_events_port.
Qed.
End Ports.
