(* ===== verification/FabricInv.v ===== *)
(** * Invariants of the abstract fabric

    Rule induction over the transitions of FabricSpec.v: the well-formedness
    invariant, and the conservation laws of the read and write channels. *)
From S2P Require Import Prelude RingBuffer Axi Device Fabric FabricSpec FabricPorts.

Section Inv.
Context {cfg : FabricConfig} `{!FabricConfigOk cfg} {H : Type} `{!DeviceHeap H, !DeviceHeapLaws H}.
Implicit Types (v : View H) (sp : AddressSpace) (p : AddressPayload).

(** ** Well-formedness *)
Lemma on_pv_wf sp v port g :
  view_wf sp v -> (port < NumPorts)%nat ->
  (port_view_wf (pv v port) -> port_view_wf (g (pv v port))) ->
  view_wf sp (on_pv port g v).
Proof.
  intros Hv Hp Hg. pose proof (pv_wf sp v port Hv Hp) as Hq. destruct Hv as [Hl Hps Hr Hw Hm].
  constructor; simpl; try done; [by rewrite length_alter|].
  apply Forall_lookup. intros i q Hi. destruct (decide (i = port)) as [->|Hne].
  - rewrite list_lookup_alter_eq in Hi. apply fmap_Some in Hi as (q0 & Hq0 & ->).
    unfold pv in *. rewrite (list_lookup_total_correct _ _ _ Hq0) in *. auto.
  - rewrite list_lookup_alter_ne in Hi by done. by eapply Forall_lookup_1.
Qed.

Lemma invalidate_length a ms : length (invalidate a ms) = length ms.
Proof. apply length_fmap. Qed.

Lemma invalidate_bytes_length a strobes ms : length (invalidate_bytes a strobes ms) = length ms.
Proof.
  unfold invalidate_bytes. generalize (seq 0 (length strobes)) as l. intros l. revert ms.
  induction l as [|i l IH]; intros ms; [done|]. simpl. rewrite IH.
  destruct (nz _); [apply invalidate_length | done].
Qed.

Lemma release_length port id ms : length (release port id ms) = length ms.
Proof. unfold release. destruct (find_index _ _); [apply length_alter | done]. Qed.

Lemma reserve_length r ms ms' : reserve r ms = Some ms' -> length ms' = length ms.
Proof. unfold reserve. intros (i & _ & ->)%fmap_Some. apply length_insert. Qed.

Lemma rings_wf sp v heap reads writes monitors exit :
  view_wf sp v ->
  Forall (read_wf sp) reads /\ (length reads <= RouteDepth)%nat ->
  Forall (write_wf sp) writes /\ (length writes <= RouteDepth)%nat ->
  length monitors = RouteDepth ->
  view_wf sp (mk_view H heap (v_ports v) reads writes monitors exit).
Proof. intros [Hl Hps Hr Hw Hm] Hr' Hw' Hm'. by constructor. Qed.

Lemma staging_wf :
  length (replicate MAX_BURST_BEATS zero_lanes) = MAX_BURST_BEATS /\
  Forall (fun l : list Z => length l = DATA_BYTES) (replicate MAX_BURST_BEATS zero_lanes).
Proof. split; [apply length_replicate|]. apply Forall_replicate, length_replicate. Qed.

Lemma new_write_wf sp r :
  route_static sp r -> rt_beat r = 0%nat -> write_wf sp (new_write r).
Proof.
  intros Hr Hb. destruct (rs_payload sp r Hr) as [Hw _].
  pose proof (burst_beats_bound (rt_payload r) Hw).
  constructor; [done | | | apply staging_wf | apply staging_wf]; simpl; lia.
Qed.

Lemma fresh_read_wf sp h port p r : fresh_route sp h port p r -> read_wf sp r.
Proof.
  intros [Hst _ _ Hb _]. split; [done|]. rewrite Hb. destruct (rs_payload sp r Hst) as [Hw _].
  pose proof (burst_beats_bound (rt_payload r) Hw). lia.
Qed.

Lemma static_beat sp r n : route_static sp r -> route_static sp (r <| rt_beat := n |>).
Proof. intros []. by constructor. Qed.

Lemma stage_wf sp wr w :
  write_wf sp wr -> wt_data_complete wr = false -> write_beat_wf w ->
  wd_last w = (S (rt_beat (wt_route wr)) =? burst_beats (rt_payload (wt_route wr)))%nat ->
  write_wf sp (stage wr w).
Proof.
  intros [Hst Hb Hc [Hd1 Hd2] [Hs1 Hs2]] Hinc [Hw1 Hw2] Hlast. rewrite Hinc in Hb.
  constructor; simpl; rewrite ?length_insert; auto.
  - by apply static_beat.
  - rewrite Hlast. destruct (Nat.eqb_spec (S (rt_beat (wt_route wr))) (burst_beats (rt_payload (wt_route wr)))); lia.
  - split; [done|]. by apply Forall_insert.
  - split; [done|]. by apply Forall_insert.
Qed.

Lemma pushed_b_wf q b : (length (q_b q) < ResponseDepth)%nat ->
  port_view_wf q -> port_view_wf (q <| q_b ::= fun l => l ++ [b] |>).
Proof. intros Hl [? ? ? ? ?]. constructor; simpl; try done. rewrite length_app. simpl. lia. Qed.

Lemma complete_wf sp wr ws v :
  view_wf sp v -> Forall (write_wf sp) ws /\ (length ws <= RouteDepth)%nat ->
  (rt_port (wt_route wr) < NumPorts)%nat ->
  (length (q_b (pv v (rt_port (wt_route wr)))) < ResponseDepth)%nat ->
  view_wf sp (complete wr ws v).
Proof.
  intros Hv Hws Hp Hl. unfold complete. apply on_pv_wf; [|done|by apply pushed_b_wf].
  destruct v. by apply (rings_wf sp _ _ _ _ _ _ Hv); [apply Hv | | apply Hv].
Qed.

(** What a device write leaves of the route. *)
Lemma write_beat_route wr m v :
  let wr' := (write_beat wr m v).1 in
  wt_route wr' = wt_route wr /\ wt_data_complete wr' = wt_data_complete wr /\
  wt_staged_data wr' = wt_staged_data wr /\ wt_staged_strobe wr' = wt_staged_strobe wr /\
  (wt_commit_beat wr' = S (wt_commit_beat wr) \/
   wt_commit_beat wr' = burst_beats (rt_payload (wt_route wr))).
Proof.
  unfold write_beat. destruct (write_impl _ _ _ _ _) as [resp h']. simpl.
  destruct (response_is_success resp), (is_exit h' (map_device m)); simpl; auto 10.
Qed.

Lemma write_beat_view_wf sp wr m v : view_wf sp v -> view_wf sp (write_beat wr m v).2.
Proof.
  intros Hv. unfold write_beat. destruct (write_impl _ _ _ _ _) as [resp h']. simpl.
  destruct v. apply (rings_wf sp _ _ _ _ _ _ Hv); try apply Hv. simpl.
  destruct (response_is_success resp); rewrite ?invalidate_bytes_length; apply Hv.
Qed.

Lemma write_exclusive_view_wf sp wr v : view_wf sp v -> view_wf sp (write_exclusive wr v).2.
Proof.
  intros Hv. pose proof (vw_monitors sp v Hv) as Hm. destruct v. simpl in Hm.
  unfold write_exclusive. simpl. repeat case_match; simpl; apply (rings_wf sp _ _ _ _ _ _ Hv); try apply Hv;
    rewrite release_length, ?invalidate_bytes_length; done.
Qed.

(** The queue an arriving element is appended to, or the front leaves. *)
Lemma snoc_wf {A} (P : A -> Prop) l x n :
  Forall P l /\ (length l <= n)%nat -> P x -> (length l < n)%nat ->
  Forall P (l ++ [x]) /\ (length (l ++ [x]) <= n)%nat.
Proof. intros [Hl _] Hx Hn. rewrite length_app. simpl. split; [by apply Forall_app_2; auto | lia]. Qed.

Lemma tail_wf {A} (P : A -> Prop) l x rest n :
  Forall P l /\ (length l <= n)%nat -> l = x :: rest -> Forall P rest /\ (length rest <= n)%nat.
Proof. intros [Hl Hn] ->. simpl in Hn. split; [by inversion Hl | lia]. Qed.

Lemma front_write sp v wr ws :
  view_wf sp v -> v_writes v = wr :: ws ->
  write_wf sp wr /\ (rt_port (wt_route wr) < NumPorts)%nat /\
  Forall (write_wf sp) ws /\ (S (length ws) <= RouteDepth)%nat.
Proof.
  intros Hv Hw. destruct (vw_writes sp v Hv) as [Hall Hn]. rewrite Hw in Hall, Hn.
  apply Forall_cons in Hall as [Hwr Hall]. split; [done|]. split; [apply Hwr | done].
Qed.

Lemma front_read sp v r rs :
  view_wf sp v -> v_reads v = r :: rs ->
  read_wf sp r /\ Forall (read_wf sp) rs /\ (S (length rs) <= RouteDepth)%nat.
Proof.
  intros Hv Hr. destruct (vw_reads sp v Hv) as [Hall Hn]. rewrite Hr in Hall, Hn.
  by apply Forall_cons in Hall as [Hwr Hall].
Qed.

Lemma stage_step_wf sp v wr ws w rest :
  let r := wt_route wr in
  view_wf sp v -> v_writes v = wr :: ws -> wt_data_complete wr = false ->
  q_w (pv v (rt_port r)) = w :: rest ->
  wd_last w = (S (rt_beat r) =? burst_beats (rt_payload r))%nat ->
  view_wf sp (on_pv (rt_port r) (fun q => q <| q_w := rest |>) (v <| v_writes := stage wr w :: ws |>)).
Proof.
  intros r Hv Hw Hinc Hq Hlast. subst r. destruct (front_write sp v wr ws Hv Hw) as (Hwr & Hp & Hws & Hn).
  pose proof (pv_wf sp v _ Hv Hp) as [? Hqw ? ? ?].
  assert (write_beat_wf w) by (destruct Hqw as [Hqa _]; rewrite Hq in Hqa; by inversion Hqa).
  apply on_pv_wf; [|done|].
  - destruct v. apply (rings_wf sp _ _ _ _ _ _ Hv); try apply Hv. split; [|done].
    constructor; [by apply stage_wf | done].
  - intros _. change (pv (v <| v_writes := stage wr w :: ws |>)) with (pv v).
    constructor; simpl; eauto using tail_wf.
Qed.

Lemma write_device_step_wf sp v wr ws m :
  view_wf sp v -> v_writes v = wr :: ws ->
  (length (q_b (pv v (rt_port (wt_route wr)))) < ResponseDepth)%nat ->
  view_wf sp (let '(wr', v') := write_beat wr m v in advance wr' ws v').
Proof.
  intros Hv Hw Hl. destruct (front_write sp v wr ws Hv Hw) as (Hwr & Hp & Hws & Hn).
  pose proof (write_beat_view_wf sp wr m v Hv) as Hv'.
  pose proof (write_beat_route wr m v) as (Er & Ec & Ed & Es & Eb).
  pose proof (write_beat_ports wr m v) as [Ep _].
  destruct (write_beat wr m v) as [wr' v']. simpl in *. unfold advance.
  destruct (Nat.eqb_spec (wt_commit_beat wr') (burst_beats (rt_payload (wt_route wr')))) as [He|He].
  - apply complete_wf; rewrite ?Er; [done | split; [done | lia] | done |]. by rewrite (pv_ports v v').
  - destruct v'. apply (rings_wf sp _ _ _ _ _ _ Hv'); try apply Hv'. split; [|done].
    constructor; [|done]. destruct Hwr as [Hst Hb Hcm Hd Hs].
    constructor; rewrite ?Er, ?Ec, ?Ed, ?Es; try done. rewrite Er in He. lia.
Qed.

Lemma write_exclusive_step_wf sp v wr ws :
  view_wf sp v -> v_writes v = wr :: ws ->
  (length (q_b (pv v (rt_port (wt_route wr)))) < ResponseDepth)%nat ->
  view_wf sp (let '(wr', v') := write_exclusive wr v in complete wr' ws v').
Proof.
  intros Hv Hw Hl. destruct (front_write sp v wr ws Hv Hw) as (Hwr & Hp & Hws & Hn).
  pose proof (write_exclusive_view_wf sp wr v Hv) as Hv'.
  pose proof (write_exclusive_ports wr v) as [Ep Er].
  destruct (write_exclusive wr v) as [wr' v']. simpl in *.
  apply complete_wf; rewrite ?Er; [done | split; [done | lia] | done |]. by rewrite (pv_ports v v').
Qed.

Lemma read_step_wf sp v r rs ms beat h' :
  view_wf sp v -> v_reads v = r :: rs ->
  (length (q_r (pv v (rt_port r))) < ResponseDepth)%nat ->
  (if needs_monitor r then reserve r (v_monitors v) = Some ms else ms = v_monitors v) ->
  view_wf sp (on_pv (rt_port r) (fun q => q <| q_r ::= fun l => l ++ [beat] |>)
    (v <| v_heap := h' |> <| v_reads := after_read r rs |> <| v_monitors := ms |>)).
Proof.
  intros Hv Hr Hl Hms. destruct (front_read sp v r rs Hv Hr) as ([Hst Hb] & Hall & Hn).
  pose proof (rs_port _ _ Hst) as Hp. pose proof (pv_wf sp v _ Hv Hp) as Hq.
  assert (length ms = RouteDepth) as Hml.
  { rewrite <- (vw_monitors sp v Hv). destruct (needs_monitor r); [by eapply reserve_length | by subst]. }
  apply on_pv_wf; [|done|].
  - destruct v. apply (rings_wf sp _ _ _ _ _ _ Hv); try apply Hv; [|done].
    unfold after_read. destruct (Nat.eqb_spec (S (rt_beat r)) (burst_beats (rt_payload r))).
    + split; [done | simpl; lia].
    + split; [|simpl; lia]. constructor; [|done]. split; [by apply static_beat | simpl; lia].
  - intros _. unfold pv in *. simpl. destruct Hq. constructor; simpl; try done. rewrite length_app. simpl. lia.
Qed.

Lemma step_wf sp v e v' : view_wf sp v -> step sp v e v' -> view_wf sp v'.
Proof.
  intros Hv Hst. pose proof (vw_reads sp v Hv) as Hrs. pose proof (vw_writes sp v Hv) as Hws.
  pose proof (fun port => pv_wf sp v port Hv) as Hpv.
  destruct Hst as [v port p Hp Hr Hl|v port w Hp Hr Hl|v port p Hp Hr Hl|v port b rest Hp Hq
    |v port b rest Hp Hq|v port p rest r Hp Hq Hl Hr|v port p rest r Hp Hq Hl Hr
    |v wr ws w rest r Hw Hinc Hq Hlast Hstr|v wr ws m r Hw Hc Hx Hm Hl|v wr ws r Hw Hc Hx Hm Hl
    |v wr ws r Hw Hc Hx Hl|v r rs ms Hr Hl Hms].
  - apply on_pv_wf; [done..|]. intros []. constructor; simpl; auto using snoc_wf.
  - apply on_pv_wf; [done..|]. intros []. constructor; simpl; auto using snoc_wf.
  - apply on_pv_wf; [done..|]. intros []. constructor; simpl; auto using snoc_wf.
  - apply on_pv_wf; [by destruct Hv | done |]. intros _. destruct (Hpv port Hp) as [? ? ? Hb ?].
    rewrite Hq in Hb. simpl in Hb. constructor; simpl; try done. lia.
  - apply on_pv_wf; [by destruct Hv | done |]. intros _. destruct (Hpv port Hp) as [? ? ? ? Hb].
    rewrite Hq in Hb. simpl in Hb. constructor; simpl; try done. lia.
  - apply on_pv_wf; [|done|].
    + destruct v. apply (rings_wf sp _ _ _ _ _ _ Hv); try apply Hv.
      destruct Hr. by apply snoc_wf; [|apply new_write_wf|].
    + intros _. destruct (Hpv port Hp). constructor; simpl; eauto using tail_wf.
  - apply on_pv_wf; [|done|].
    + destruct v. apply (rings_wf sp _ _ _ _ _ _ Hv); try apply Hv.
      apply snoc_wf; [done | by eapply fresh_read_wf | done].
    + intros _. destruct (Hpv port Hp). constructor; simpl; eauto using tail_wf.
  - by apply stage_step_wf.
  - by apply write_device_step_wf.
  - destruct (front_write sp v wr ws Hv Hw) as (Hwr & Hp & Hws' & Hn).
    apply complete_wf; [done | split; [done | lia] | done | done].
  - by apply write_exclusive_step_wf.
  - destruct (read_beat r (v_heap v)) as [beat h']. by apply read_step_wf.
Qed.

Lemma steps_wf sp v es v' : view_wf sp v -> steps sp v es v' -> view_wf sp v'.
Proof. intros Hv Hs. induction Hs; [done|]. eauto using step_wf. Qed.

(** ** Conservation of read data *)

(** The (RID, RLAST) pairs a read burst is owed, and those still owed to a
    route. *)
Definition burst_tags p : list (Z * bool) :=
  (fun i => (ap_id p, (S i =? burst_beats p)%nat)) <$> seq 0 (burst_beats p).
Definition remaining_tags (r : Route) : list (Z * bool) := drop (rt_beat r) (burst_tags (rt_payload r)).
Definition read_tag (b : ReadDataPayload) : Z * bool := (rd_id b, rd_last b).

Definition routes_of (port : nat) (rs : list Route) : list Route :=
  filter (fun r => rt_port r = port) rs.

(** What the fabric owes a port on R: buffered beats, then the beats of routed
    bursts, then the bursts waiting in the AR queue. *)
Definition r_pending v (port : nat) : list (Z * bool) :=
  (read_tag <$> q_r (pv v port)) ++ (routes_of port (v_reads v) ≫= remaining_tags) ++
  (q_ar (pv v port) ≫= burst_tags).

Definition r_accepted (port : nat) (e : event) : list (Z * bool) :=
  match e with
  | AcceptAR port' p => if decide (port' = port) then burst_tags p else []
  | _ => []
  end.
Definition r_delivered (port : nat) (e : event) : list (Z * bool) :=
  match e with
  | RetireR port' b => if decide (port' = port) then [read_tag b] else []
  | _ => []
  end.

Lemma r_pending_same v v' port :
  v_reads v' = v_reads v -> q_r (pv v' port) = q_r (pv v port) ->
  q_ar (pv v' port) = q_ar (pv v port) -> r_pending v' port = r_pending v port.
Proof. unfold r_pending. by intros -> -> ->. Qed.

Lemma routes_of_app port rs rs' : routes_of port (rs ++ rs') = routes_of port rs ++ routes_of port rs'.
Proof. apply filter_app. Qed.

Lemma routes_of_cons port r rs :
  routes_of port (r :: rs) = if decide (rt_port r = port) then r :: routes_of port rs else routes_of port rs.
Proof. unfold routes_of. by rewrite filter_cons. Qed.

Lemma burst_tags_length p : length (burst_tags p) = burst_beats p.
Proof. unfold burst_tags. by rewrite length_fmap, length_seq. Qed.

(** The next owed beat is the one [read_beat] produces. *)
Lemma remaining_tags_next r :
  (rt_beat r < burst_beats (rt_payload r))%nat ->
  remaining_tags r = (ap_id (rt_payload r), (S (rt_beat r) =? burst_beats (rt_payload r))%nat)
                     :: drop (S (rt_beat r)) (burst_tags (rt_payload r)).
Proof.
  intros Hb. unfold remaining_tags. apply drop_S. unfold burst_tags.
  by rewrite list_lookup_fmap, seq_lookup_lt.
Qed.

Lemma after_read_tags port r rs :
  (rt_beat r < burst_beats (rt_payload r))%nat -> rt_port r = port ->
  (routes_of port (after_read r rs) ≫= remaining_tags)
    = drop (S (rt_beat r)) (burst_tags (rt_payload r)) ++ (routes_of port rs ≫= remaining_tags).
Proof.
  intros Hb Hp. unfold after_read.
  destruct (Nat.eqb_spec (S (rt_beat r)) (burst_beats (rt_payload r))) as [He|He].
  - by rewrite He, drop_ge by (rewrite burst_tags_length; lia).
  - rewrite routes_of_cons. simpl. by rewrite decide_True by done.
Qed.

Lemma after_read_other port r rs :
  rt_port r <> port -> routes_of port (after_read r rs) = routes_of port rs.
Proof.
  intros Hp. unfold after_read. destruct (_ =? _)%nat; [done|].
  rewrite routes_of_cons. simpl. by rewrite decide_False.
Qed.

Lemma read_beat_tag r h :
  read_tag (read_beat r h).1 = (ap_id (rt_payload r), (S (rt_beat r) =? burst_beats (rt_payload r))%nat).
Proof. unfold read_beat. destruct (served r); [|done]. by destruct (read_impl _ _ _ _ _) as [[??]?]. Qed.

(** Writes leave the read side alone. *)
Lemma complete_reads wr ws v port :
  r_pending (complete wr ws v) port = r_pending v port.
Proof.
  unfold complete. apply r_pending_same; simpl; [done | |].
  - by rewrite (pv_on_pv_proj q_r).
  - by rewrite (pv_on_pv_proj q_ar).
Qed.

Lemma write_beat_reads wr m v port :
  r_pending (write_beat wr m v).2 port = r_pending v port.
Proof. unfold write_beat. by destruct (write_impl _ _ _ _ _). Qed.

Lemma write_exclusive_reads wr v port :
  r_pending (write_exclusive wr v).2 port = r_pending v port.
Proof.
  unfold write_exclusive. destruct (served _); [|done]. destruct (monitor_of _ _ _); [|done].
  case_bool_decide; [|done]. by destruct (write_impl _ _ _ _ _).
Qed.

Lemma grant_ar_pending sp v port port' p rest r :
  (port' < length (v_ports v))%nat -> q_ar (pv v port') = p :: rest ->
  fresh_route sp (v_heap v) port' p r ->
  r_pending (on_pv port' (fun q => q <| q_ar := rest |>) (v <| v_reads ::= fun l => l ++ [r] |>)) port
    = r_pending v port.
Proof.
  intros Hp Hq [_ Hrp Hrpl Hrb _]. unfold r_pending. simpl v_reads.
  rewrite (pv_on_pv_proj q_r) by done. rewrite routes_of_app, bind_app.
  change (q_r (pv (v <| v_reads ::= fun l => l ++ [r] |>) port)) with (q_r (pv v port)). f_equal.
  rewrite <- app_assoc. f_equal. rewrite routes_of_cons. destruct (decide (rt_port r = port)) as [He|He].
  - subst port. rewrite <- Hrp in *. rewrite pv_on_pv_eq by done. simpl.
    rewrite Hq. simpl. rewrite app_nil_r. unfold remaining_tags. by rewrite Hrb, Hrpl.
  - rewrite pv_on_pv_ne by congruence. done.
Qed.

Lemma read_pending v port r rs ms :
  (rt_port r < length (v_ports v))%nat -> v_reads v = r :: rs ->
  (rt_beat r < burst_beats (rt_payload r))%nat ->
  r_pending (let (beat, h') := read_beat r (v_heap v) in
     on_pv (rt_port r) (fun q => q <| q_r ::= fun l => l ++ [beat] |>)
       (v <| v_heap := h' |> <| v_reads := after_read r rs |> <| v_monitors := ms |>)) port
    = r_pending v port.
Proof.
  intros Hp Hr Hb. pose proof (read_beat_tag r (v_heap v)) as Ht.
  destruct (read_beat r (v_heap v)) as [beat h']. simpl in Ht. unfold r_pending. simpl v_reads.
  rewrite (pv_on_pv_proj q_ar) by done. rewrite Hr.
  destruct (decide (rt_port r = port)) as [He|He].
  - rewrite after_read_tags by done. subst port. rewrite pv_on_pv_eq by done. simpl.
    rewrite routes_of_cons, decide_True by done. simpl.
    rewrite remaining_tags_next, fmap_app by done. simpl. rewrite Ht, <- !app_assoc. done.
  - rewrite after_read_other, routes_of_cons, decide_False by done. by rewrite pv_on_pv_ne.
Qed.

Lemma step_r_conserved sp v e v' port :
  view_wf sp v -> step sp v e v' ->
  r_pending v port ++ r_accepted port e = r_delivered port e ++ r_pending v' port.
Proof.
  intros Hv Hst. pose proof (vw_length sp v Hv) as Hlen.
  destruct Hst as [v port' p Hp Hr Hl|v port' w Hp Hr Hl|v port' p Hp Hr Hl|v port' b rest Hp Hq
    |v port' b rest Hp Hq|v port' p rest r Hp Hq Hl Hr|v port' p rest r Hp Hq Hl Hr
    |v wr ws w rest r Hw Hinc Hq Hlast Hstr|v wr ws m r Hw Hc Hx Hm Hl|v wr ws r Hw Hc Hx Hm Hl
    |v wr ws r Hw Hc Hx Hl|v r rs ms Hr Hl Hms]; simpl; rewrite ?app_nil_r;
    try (symmetry; apply r_pending_same; simpl; [done | |];
         rewrite ?(pv_on_pv_proj q_r), ?(pv_on_pv_proj q_ar); done).
  - destruct (decide (port' = port)) as [<-|Hne].
    + unfold r_pending. simpl v_reads. rewrite pv_on_pv_eq by (by rewrite Hlen). simpl.
      rewrite bind_app. simpl. by rewrite app_nil_r, <- !app_assoc.
    + rewrite app_nil_r. unfold r_pending. simpl v_reads. by rewrite pv_on_pv_ne.
  - destruct (decide (port' = port)) as [<-|Hne].
    + unfold r_pending. simpl v_reads. rewrite pv_on_pv_eq by (by rewrite Hlen). simpl. by rewrite Hq.
    + unfold r_pending. simpl v_reads. by rewrite pv_on_pv_ne.
  - symmetry. apply (grant_ar_pending sp v port port' p); [by rewrite Hlen | done..].
  - pose proof (write_beat_reads wr m v port) as E. destruct (write_beat wr m v) as [wr' v'].
    simpl in E. unfold advance. destruct (_ =? _)%nat; [by rewrite complete_reads|]. by rewrite <- E.
  - by rewrite complete_reads.
  - pose proof (write_exclusive_reads wr v port) as E. destruct (write_exclusive wr v) as [wr' v'].
    by rewrite complete_reads.
  - destruct (front_read sp v r rs Hv Hr) as ([Hst Hb] & _).
    symmetry. apply read_pending; [|done..]. rewrite Hlen. apply Hst.
Qed.

Lemma steps_r_conserved sp v es v' port :
  view_wf sp v -> steps sp v es v' ->
  r_pending v port ++ (es ≫= r_accepted port) = (es ≫= r_delivered port) ++ r_pending v' port.
Proof.
  intros Hv Hs. induction Hs as [v|v e v1 es v2 Hst _ IH]; simpl; [by rewrite app_nil_r|].
  rewrite app_assoc, (step_r_conserved sp v e v1 port Hv Hst), <- !app_assoc.
  f_equal. apply IH. by eapply step_wf.
Qed.

(** ** Conservation of write responses *)
Definition write_id (wr : WriteRoute) : Z := ap_id (rt_payload (wt_route wr)).
Definition writes_of (port : nat) (ws : list WriteRoute) : list WriteRoute :=
  filter (fun wr => rt_port (wt_route wr) = port) ws.

(** The BIDs the fabric owes a port: buffered responses, then routed bursts,
    then the bursts waiting in the AW queue. *)
Definition b_pending v (port : nat) : list Z :=
  (wr_id <$> q_b (pv v port)) ++ (write_id <$> writes_of port (v_writes v)) ++
  (ap_id <$> q_aw (pv v port)).

Definition b_accepted (port : nat) (e : event) : list Z :=
  match e with
  | AcceptAW port' p => if decide (port' = port) then [ap_id p] else []
  | _ => []
  end.
Definition b_delivered (port : nat) (e : event) : list Z :=
  match e with
  | RetireB port' b => if decide (port' = port) then [wr_id b] else []
  | _ => []
  end.

Lemma b_pending_same v v' port :
  write_id <$> writes_of port (v_writes v') = write_id <$> writes_of port (v_writes v) ->
  q_b (pv v' port) = q_b (pv v port) ->
  q_aw (pv v' port) = q_aw (pv v port) -> b_pending v' port = b_pending v port.
Proof. unfold b_pending. by intros -> -> ->. Qed.

Lemma writes_of_cons port wr ws :
  writes_of port (wr :: ws)
    = if decide (rt_port (wt_route wr) = port) then wr :: writes_of port ws else writes_of port ws.
Proof. unfold writes_of. by rewrite filter_cons. Qed.

(** Completing the front write turns its obligation into a response. *)
Lemma complete_pending wr wr' ws v v' port :
  (rt_port (wt_route wr) < length (v_ports v))%nat -> v_writes v = wr :: ws ->
  wt_route wr' = wt_route wr -> v_ports v' = v_ports v ->
  b_pending (complete wr' ws v') port = b_pending v port.
Proof.
  intros Hp Hw Hr Hv. unfold b_pending, complete. simpl v_writes.
  rewrite (pv_on_pv_proj q_aw) by done. rewrite Hw, writes_of_cons.
  rewrite (pv_ports v (v' <| v_writes := ws |>)) by done. rewrite Hr.
  destruct (decide (rt_port (wt_route wr) = port)) as [He|He].
  - subst port. rewrite pv_on_pv_eq by (simpl; by rewrite Hv).
    rewrite (pv_ports v (v' <| v_writes := ws |>)) by done. simpl.
    rewrite fmap_app, <- app_assoc. simpl. unfold write_id at 2. by rewrite Hr.
  - rewrite pv_on_pv_ne by done. by rewrite (pv_ports v (v' <| v_writes := ws |>)).
Qed.

Lemma replace_front_pending wr wr' ws v v' port :
  v_writes v = wr :: ws -> rt_port (wt_route wr') = rt_port (wt_route wr) ->
  write_id wr' = write_id wr -> v_ports v' = v_ports v ->
  b_pending (v' <| v_writes := wr' :: ws |>) port = b_pending v port.
Proof.
  intros Hw Hr Hi Hv. apply b_pending_same.
  - simpl. rewrite Hw, !writes_of_cons, Hr. destruct (decide _); [|done]. simpl. by rewrite Hi.
  - by rewrite (pv_ports v (v' <| v_writes := wr' :: ws |>)).
  - by rewrite (pv_ports v (v' <| v_writes := wr' :: ws |>)).
Qed.

Lemma grant_aw_pending sp v port port' p rest r :
  (port' < length (v_ports v))%nat -> q_aw (pv v port') = p :: rest ->
  fresh_route sp (v_heap v) port' p r ->
  b_pending (on_pv port' (fun q => q <| q_aw := rest |>)
               (v <| v_writes ::= fun l => l ++ [new_write r] |>)) port
    = b_pending v port.
Proof.
  intros Hp Hq [_ Hrp Hrpl Hrb _]. unfold b_pending. simpl v_writes.
  rewrite (pv_on_pv_proj q_b) by done. unfold writes_of. rewrite filter_app, fmap_app.
  change (pv (v <| v_writes ::= fun l => l ++ [new_write r] |>)) with (pv v). f_equal.
  rewrite <- app_assoc. f_equal. fold (writes_of port [new_write r]). rewrite writes_of_cons.
  simpl rt_port. destruct (decide (rt_port r = port)) as [He|He].
  - subst port. rewrite <- Hrp in *. rewrite pv_on_pv_eq by done. simpl.
    change (q_aw (pv (v <| v_writes ::= fun l => l ++ [new_write r] |>) (rt_port r)))
      with (q_aw (pv v (rt_port r))).
    rewrite Hq. simpl. unfold write_id. simpl. by rewrite Hrpl.
  - rewrite pv_on_pv_ne by congruence. done.
Qed.

Lemma step_b_conserved sp v e v' port :
  view_wf sp v -> step sp v e v' ->
  b_pending v port ++ b_accepted port e = b_delivered port e ++ b_pending v' port.
Proof.
  intros Hv Hst. pose proof (vw_length sp v Hv) as Hlen.
  destruct Hst as [v port' p Hp Hr Hl|v port' w Hp Hr Hl|v port' p Hp Hr Hl|v port' b rest Hp Hq
    |v port' b rest Hp Hq|v port' p rest r Hp Hq Hl Hr|v port' p rest r Hp Hq Hl Hr
    |v wr ws w rest r Hw Hinc Hq Hlast Hstr|v wr ws m r Hw Hc Hx Hm Hl|v wr ws r Hw Hc Hx Hm Hl
    |v wr ws r Hw Hc Hx Hl|v r rs ms Hr Hl Hms]; simpl; rewrite ?app_nil_r;
    try (symmetry; apply b_pending_same; simpl; [done | |];
         rewrite ?(pv_on_pv_proj q_b), ?(pv_on_pv_proj q_aw); done);
    try (destruct (front_write sp v wr ws Hv Hw) as (_ & Hp & _); rewrite <- Hlen in Hp).
  - destruct (decide (port' = port)) as [<-|Hne].
    + unfold b_pending. simpl v_writes. rewrite pv_on_pv_eq by (by rewrite Hlen). simpl.
      rewrite fmap_app. simpl. by rewrite <- !app_assoc.
    + rewrite app_nil_r. unfold b_pending. simpl v_writes. by rewrite pv_on_pv_ne.
  - destruct (decide (port' = port)) as [<-|Hne].
    + unfold b_pending. simpl v_writes. rewrite pv_on_pv_eq by (simpl; by rewrite Hlen). simpl.
      change (pv (v <| v_exit ::= latch_exit b |>)) with (pv v). by rewrite Hq.
    + unfold b_pending. simpl v_writes. by rewrite pv_on_pv_ne.
  - symmetry. apply (grant_aw_pending sp v port port' p); [by rewrite Hlen | done..].
  - symmetry. subst r. unfold b_pending at 1. rewrite (pv_on_pv_proj q_b), (pv_on_pv_proj q_aw) by done.
    by apply (replace_front_pending wr (stage wr w) ws v v).
  - pose proof (write_beat_ports wr m v) as [Ep _]. pose proof (write_beat_route wr m v) as (Er & _).
    destruct (write_beat wr m v) as [wr' v']. simpl in *. symmetry. unfold advance.
    destruct (_ =? _)%nat; [by eapply complete_pending|].
    eapply (replace_front_pending wr); unfold write_id; by rewrite ?Er.
  - symmetry. by eapply complete_pending.
  - pose proof (write_exclusive_ports wr v) as [Ep Er].
    destruct (write_exclusive wr v) as [wr' v']. simpl in *. symmetry. by eapply complete_pending.
  - destruct (read_beat r (v_heap v)). symmetry. apply b_pending_same; [done | |].
    + by rewrite (pv_on_pv_proj q_b).
    + by rewrite (pv_on_pv_proj q_aw).
Qed.

Lemma steps_b_conserved sp v es v' port :
  view_wf sp v -> steps sp v es v' ->
  b_pending v port ++ (es ≫= b_accepted port) = (es ≫= b_delivered port) ++ b_pending v' port.
Proof.
  intros Hv Hs. induction Hs as [v|v e v1 es v2 Hst _ IH]; simpl; [by rewrite app_nil_r|].
  rewrite app_assoc, (step_b_conserved sp v e v1 port Hv Hst), <- !app_assoc.
  f_equal. apply IH. by eapply step_wf.
Qed.

(** ** The exit latch *)

(** The exit state is the first delivered response that carries an exit code. *)
Definition exit_after (e : event) (x : bool * Z) : bool * Z :=
  match e with RetireB _ b => latch_exit b x | _ => x end.

Lemma step_exit sp v e v' : step sp v e v' -> v_exit v' = exit_after e (v_exit v).
Proof.
  destruct 1; simpl; try done.
  - unfold write_beat. destruct (write_impl _ _ _ _ _). unfold advance, complete. by destruct (_ =? _)%nat.
  - unfold write_exclusive, complete. repeat case_match; simplify_eq; done.
  - by destruct (read_beat r (v_heap v)).
Qed.

Lemma steps_exit sp v es v' :
  steps sp v es v' -> v_exit v' = foldl (fun x e => exit_after e x) (v_exit v) es.
Proof.
  induction 1 as [|v e v1 es v2 Hst _ IH]; [done|]. simpl. rewrite IH. by rewrite (step_exit sp v e v1).
Qed.

(** ** Exclusive monitors *)

(** A port holds at most one reservation per identifier. *)
Definition same_owner (m1 m2 : ExclusiveMonitor) : Prop :=
  mon_port m1 = mon_port m2 /\ mon_id m1 = mon_id m2.
Definition monitors_unique (ms : list ExclusiveMonitor) : Prop :=
  forall i j m1 m2, ms !! i = Some m1 -> ms !! j = Some m2 ->
    mon_valid m1 = true -> mon_valid m2 = true -> same_owner m1 m2 -> i = j.

(** [ms'] has the monitors of [ms], some of them no longer valid. *)
Definition weakened (ms ms' : list ExclusiveMonitor) : Prop :=
  forall i m', ms' !! i = Some m' -> mon_valid m' = true -> ms !! i = Some m'.

Lemma weakened_refl ms : weakened ms ms.
Proof. by intros i m'. Qed.

Lemma weakened_trans ms1 ms2 ms3 : weakened ms1 ms2 -> weakened ms2 ms3 -> weakened ms1 ms3.
Proof. intros H12 H23 i m' Hi Hv. apply H12; [by apply H23 | done]. Qed.

Lemma weakened_unique ms ms' : weakened ms ms' -> monitors_unique ms -> monitors_unique ms'.
Proof. intros Hw Hu i j m1 m2 Hi Hj H1 H2. apply Hu; auto. Qed.

Lemma invalidate_weakened a ms : weakened ms (invalidate a ms).
Proof.
  intros i m' Hi Hv. unfold invalidate in Hi. rewrite list_lookup_fmap in Hi.
  apply fmap_Some in Hi as (m & Hm & ->). by destruct (monitor_covers a m).
Qed.

Lemma invalidate_bytes_weakened a strobes ms : weakened ms (invalidate_bytes a strobes ms).
Proof.
  unfold invalidate_bytes. generalize (seq 0 (length strobes)) as l. intros l. revert ms.
  induction l as [|i l IH]; intros ms; [apply weakened_refl|]. simpl.
  eapply weakened_trans; [|apply IH]. destruct (nz _); [apply invalidate_weakened | apply weakened_refl].
Qed.

Lemma release_weakened port id ms : weakened ms (release port id ms).
Proof.
  unfold release. destruct (find_index _ _) as [k|]; [|apply weakened_refl].
  intros i m' Hi Hv. destruct (decide (i = k)) as [->|Hne].
  - rewrite list_lookup_alter_eq in Hi. by apply fmap_Some in Hi as (m & Hm & ->).
  - by rewrite list_lookup_alter_ne in Hi.
Qed.

Lemma find_index_some {A} (g : A -> bool) l i :
  find_index g l = Some i -> exists x, l !! i = Some x /\ g x = true.
Proof.
  revert i. induction l as [|x l IH]; intros i; simpl; [done|].
  destruct (g x) eqn:E; [intros [= <-]; by exists x|]. intros (j & Hj & ->)%fmap_Some. by apply IH.
Qed.

Lemma find_index_none {A} (g : A -> bool) l i x :
  find_index g l = None -> l !! i = Some x -> g x = false.
Proof.
  revert i. induction l as [|y l IH]; intros i; simpl; [done|].
  destruct (g y) eqn:E; [done|]. intros Hn%fmap_None. destruct i as [|i]; simpl; [congruence|]. by apply IH.
Qed.

Lemma monitor_matches_spec port id m :
  monitor_matches port id m = true <-> mon_valid m = true /\ mon_port m = port /\ mon_id m = id.
Proof. unfold monitor_matches. rewrite !andb_true_iff, Nat.eqb_eq, Z.eqb_eq. tauto. Qed.

Lemma reserve_unique r ms ms' :
  monitors_unique ms -> reserve r ms = Some ms' -> monitors_unique ms'.
Proof.
  intros Hu. unfold reserve. intros (k & Hk & ->)%fmap_Some.
  assert (forall i m, i <> k -> ms !! i = Some m -> mon_valid m = true -> ~ same_owner (reservation r) m) as Hother.
  { intros i m Hne Hi Hv [Hp Hid]. simpl in Hp, Hid.
    assert (monitor_matches (rt_port r) (ap_id (rt_payload r)) m = true) as Hmm
      by (apply monitor_matches_spec; auto).
    destruct (find_index (monitor_matches _ _) ms) as [k'|] eqn:Hf.
    - simplify_eq. apply find_index_some in Hf as (m' & Hm' & (Hv' & Hp' & Hid')%monitor_matches_spec).
      apply Hne. apply (Hu i k m m'); try done. unfold same_owner. split; congruence.
    - by rewrite (find_index_none _ _ _ _ Hf Hi) in Hmm. }
  intros i j m1 m2 Hi Hj H1 H2 Hsame.
  apply list_lookup_insert_Some in Hi as [(<- & <- & _)|[Hni Hi]],
    Hj as [(<- & <- & _)|[Hnj Hj]]; try done.
  - by destruct (Hother j m2 ltac:(done) Hj H2).
  - destruct (Hother i m1 ltac:(done) Hi H1). destruct Hsame. by split.
  - by apply (Hu i j m1 m2).
Qed.

Lemma step_monitors sp v e v' :
  step sp v e v' -> monitors_unique (v_monitors v) -> monitors_unique (v_monitors v').
Proof.
  destruct 1; simpl; try done; intros Hu.
  - unfold write_beat. destruct (write_impl _ _ _ _ _) as [resp h']. unfold advance, complete.
    destruct (_ =? _)%nat; simpl; (destruct (response_is_success resp); [|done]);
      eapply weakened_unique; try done; apply invalidate_bytes_weakened.
  - unfold write_exclusive, complete. repeat case_match; simplify_eq; simpl;
      (eapply weakened_unique; [|exact Hu]); try apply release_weakened;
      (eapply weakened_trans; [|apply release_weakened]); apply invalidate_bytes_weakened.
  - destruct (read_beat r (v_heap v)). simpl.
    destruct (needs_monitor r); [by eapply reserve_unique | by subst].
Qed.

Lemma steps_monitors sp v es v' :
  steps sp v es v' -> monitors_unique (v_monitors v) -> monitors_unique (v_monitors v').
Proof. induction 1; eauto using step_monitors. Qed.

(** After [release] the port has no reservation for the identifier. *)
Lemma release_clears port id ms :
  monitors_unique ms -> monitor_of (release port id ms) port id = None.
Proof.
  intros Hu. unfold monitor_of. destruct (find_index _ (release port id ms)) as [i|] eqn:Hf; [|done].
  apply find_index_some in Hf as (m & Hm & Hmm). exfalso.
  pose proof Hmm as (Hv & Hp & Hid)%monitor_matches_spec.
  pose proof (release_weakened port id ms i m Hm Hv) as Hm0. unfold release in Hm.
  destruct (find_index (monitor_matches port id) ms) as [k|] eqn:Hk.
  - apply find_index_some in Hk as (m' & Hm' & (Hv' & Hp' & Hid')%monitor_matches_spec).
    assert (i = k) as -> by (apply (Hu i k m m'); try done; split; congruence).
    rewrite list_lookup_alter_eq, Hm' in Hm. by simplify_eq/=.
  - by rewrite (find_index_none _ _ _ _ Hk Hm) in Hmm.
Qed.

(** After a write that strobed byte [a + k] no reservation covers it. *)
Lemma invalidate_bytes_breaks a strobes ms k :
  (k < length strobes)%nat -> nz (strobes !!! k) = true ->
  Forall (fun m => monitor_covers (a + Z.of_nat k) m = false) (invalidate_bytes a strobes ms).
Proof.
  intros Hk Hnz. unfold invalidate_bytes.
  assert (forall l ms, Forall (fun m => monitor_covers (a + Z.of_nat k) m = false) ms ->
    Forall (fun m => monitor_covers (a + Z.of_nat k) m = false)
      (foldl (fun ms i => if nz (strobes !!! i) then invalidate (a + Z.of_nat i) ms else ms) ms l)) as Hkeep.
  { induction l as [|i l IH]; intros ms0 Hall; [done|]. simpl. apply IH. destruct (nz (strobes !!! i)); [|done].
    unfold invalidate. apply Forall_fmap. eapply Forall_impl; [exact Hall|]. intros m Hm. simpl.
    by destruct (monitor_covers _ m). }
  assert (seq 0 (length strobes) = seq 0 k ++ k :: seq (S k) (length strobes - S k)) as ->.
  { replace (length strobes) with (k + S (length strobes - S k))%nat at 1 by lia. by rewrite seq_app. }
  rewrite foldl_app. simpl. apply Hkeep. rewrite Hnz. unfold invalidate. apply Forall_fmap, Forall_true.
  intros m. simpl. by destruct (monitor_covers _ m) eqn:E.
Qed.
End Inv.
