(* ===== verification/FabricRoutes.v ===== *)
(** * Decoding and arbitration of bursts ([initialize_route], [arbitrate_addresses])

    A burst becomes a route when its port is granted: the cursor checks its
    shape, every byte is decoded, and the outcome is the single window that
    holds all of them, or an error response. *)
From S2P Require Import Prelude RingBuffer Axi Device Fabric FabricSpec FabricPorts.

Section Routes.
Context {cfg : FabricConfig} `{!FabricConfigOk cfg} {H : Type} `{!DeviceHeap H, !DeviceHeapLaws H}.
Implicit Types (f : Fabric H) (v : View H) (sp : AddressSpace) (p : AddressPayload).

(** ** The cursor *)
Lemma make_cursor_spec f port channel p :
  (port < NumPorts)%nat -> payload_wf p ->
  wp (make_cursor port channel p)
    (fun c f' => f' = f /\ c = cursor_of p /\ legal_shape DATA_BYTES p /\ in_one_page p)
    (fun e f' => violation f e f' /\ ~ decodable p) f.
Proof.
  intros Hp Hw. unfold make_cursor.
  assert (forall e, cursor_error e -> ~ decodable p ->
    wp (match e with ProtocolError _ detail => protocol_error port channel detail (Some p)
        | _ => throw e end)
      (fun c f' => f' = f /\ c = cursor_of p /\ legal_shape DATA_BYTES p /\ in_one_page p)
      (fun e f' => violation f e f' /\ ~ decodable p) f) as Herr.
  { intros e (why & -> & Hin) Hn. apply wp_reject; try done.
    unfold protocol_details. rewrite elem_of_app. by left. }
  destruct (mk_cursor DATA_BYTES p) as [c|e] eqn:E; simpl.
  - apply mk_cursor_ok_inv in E as [-> Hlegal]; [|done].
    destruct (validate_4k_boundary_spec DATA_BYTES p Hw Hlegal) as [[Hv Hpg]|[[why Hv] Hpg]].
    + rewrite Hv. by apply wp_ret.
    + apply validate_4k_error in Hv as He. rewrite Hv. simpl.
      apply (Herr (ProtocolError None why)); [done|]. destruct Hpg as [Hi Hpg]. intros (_ & Hp' & _). by apply Hpg, Hp'.
  - apply mk_cursor_error in E as He. apply (Herr e He). intros (Hlegal & _).
    by rewrite (proj1 (mk_cursor_spec DATA_BYTES p Hw) Hlegal) in E.
Qed.

(** ** Decoding *)
Section Decode.
Context (sp : AddressSpace) (Hsp : space_wf sp).

(** The state of the scan after the bytes [B] were decoded. *)
Definition scanned (B : Z -> Prop) (acc : option Mapping * bool) : Prop :=
  match acc.1 with
  | None => (acc.2 = true <-> exists x, B x) /\ forall x, B x -> space_resolve sp x 1 = None
  | Some m => (exists x, B x /\ space_resolve sp x 1 = Some m) /\
              (acc.2 = false <-> forall x, B x -> space_resolve sp x 1 = Some m)
  end.

Lemma scanned_start : scanned (fun _ => False) (None, false).
Proof. split; [|done]. split; [done | by intros []]. Qed.

Lemma scanned_ext (B B' : Z -> Prop) acc :
  (forall x, B x <-> B' x) -> scanned B acc -> scanned B' acc.
Proof. intros HB. unfold scanned. destruct acc.1; by setoid_rewrite HB. Qed.

Lemma scanned_byte (B : Z -> Prop) acc y :
  scanned B acc -> scanned (fun x => B x \/ x = y) (scan_byte (space_resolve sp y 1) acc).
Proof.
  destruct acc as [[m|] err]; unfold scanned; simpl.
  - intros [(x & Hx & Hm) Herr]. destruct (space_resolve sp y 1) as [c|] eqn:Ey; simpl.
    + split; [by exists x; auto|]. case_bool_decide as Hc.
      * subst c. rewrite Herr. split; [|auto]. intros Hall z [Hz| ->]; auto.
      * split; [done|]. intros Hall. specialize (Hall y (or_intror eq_refl)). congruence.
    + split; [by exists x; auto|]. split; [done|].
      intros Hall. specialize (Hall y (or_intror eq_refl)). congruence.
  - intros [Herr Hall]. destruct (space_resolve sp y 1) as [c|] eqn:Ey; simpl.
    + split; [exists y; auto|]. destruct err.
      * split; [done|]. intros Hc. destruct (proj1 Herr eq_refl) as [z Hz].
        specialize (Hall z Hz). specialize (Hc z (or_introl Hz)). congruence.
      * split; [|done]. intros _ z [Hz| ->]; [|done].
        by assert (false = true) by (apply Herr; eauto).
    + split; [split; [eauto | done]|]. intros z [Hz| ->]; auto.
Qed.

(** The lanes of one beat. *)
Lemma scan_lanes_spec f port channel p base mask lanes B acc :
  address_space_ f = sp -> (port < NumPorts)%nat -> 0 <= base ->
  Forall (fun lane => base + Z.of_nat lane < 2 ^ 64) lanes ->
  scanned B acc ->
  wp (scan_lanes port channel p base mask lanes acc)
    (fun acc' f' => f' = f /\
       (forall lane, lane ∈ lanes -> nz (mask !!! lane) = true -> base + Z.of_nat lane <= address_limit) /\
       scanned (fun x => B x \/ exists lane, lane ∈ lanes /\ nz (mask !!! lane) = true /\
                                  x = base + Z.of_nat lane) acc')
    (fun e f' => violation f e f' /\
       exists lane, lane ∈ lanes /\ nz (mask !!! lane) = true /\ address_limit < base + Z.of_nat lane) f.
Proof.
  intros Hf Hp Hb Hl. revert B acc.
  induction Hl as [|lane lanes Hlane _ IH]; intros B acc Hsc; simpl.
  { apply wp_ret. split; [done|]. split; [by intros lane Hin%elem_of_nil|].
    eapply scanned_ext; [|exact Hsc]. intros x. split; [auto|]. intros [?|(? & []%elem_of_nil & _)]; done. }
  destruct (Z.eqb_spec (mask !!! lane) 0) as [Hz|Hz].
  - eapply wp_mono; [by apply IH | |].
    + intros acc' f' (-> & Hlim & Hsc'). split; [done|]. split.
      { intros l [->|Hl]%elem_of_cons Hn; [by apply nz_true in Hn | auto]. }
      eapply scanned_ext; [|exact Hsc']. intros x. setoid_rewrite elem_of_cons.
      split; [naive_solver|]. intros [?|(l & [->|?] & Hn & ?)]; [auto| |eauto 10].
      by apply nz_true in Hn.
    + intros e f' [Hv (l & Hl & Hn & Hlim)]. split; [done|]. exists l. split; [by right | done].
  - apply nz_true in Hz. wp_if E.
    { apply wp_reject; try done; [by apply detail_intro|]. exists lane. split; [left|]. split; [done|].
      apply orb_true_iff in E as [E%Z.ltb_lt|E%Z.ltb_lt]; lia. }
    wp_steps. rewrite Hf. rewrite u64_small by (unfold fits; lia).
    eapply wp_mono; [apply IH, scanned_byte, Hsc | |].
    + intros acc' f' (-> & Hlim & Hsc'). split; [done|]. split.
      { intros l [->|Hl]%elem_of_cons Hn; [lia | auto]. }
      eapply scanned_ext; [|exact Hsc']. intros x. setoid_rewrite elem_of_cons. naive_solver.
    + intros e f' [Hv (l & Hl & Hn & Hlim)]. split; [done|]. exists l. split; [by right | done].
Qed.

Lemma beat_facts p i :
  request_wf p -> legal_shape DATA_BYTES p -> in_one_page p -> (i < burst_beats p)%nat ->
  bus_word_address DATA_BYTES (cursor_of p) i = Ok (beat_at p i - Z.of_nat (beat_first p i)) /\
  lane_mask DATA_BYTES (cursor_of p) i
    = Ok (lane_window DATA_BYTES (beat_first p i) (beat_count p i)) /\
  0 <= beat_at p i - Z.of_nat (beat_first p i) /\
  beat_at p i + Z.of_nat (beat_count p i) <= 2 ^ 64 - 4096 /\
  (1 <= beat_count p i)%nat /\ (beat_first p i + beat_count p i <= DATA_BYTES)%nat.
Proof.
  intros [Hpw Hlast] Hlegal Hpage Hi.
  pose proof (beat_word_and_mask DATA_BYTES p Hpw Hlegal i Hpage Hi Hlast) as (H1 & H2 & _ & H3).
  pose proof (beat_below_last_page DATA_BYTES p Hpw Hlegal i Hpage Hi Hlast) as [_ H4].
  pose proof (lane_window_bound DATA_BYTES p Hpw Hlegal (beat_at p i)) as [H5 H6].
  unfold beat_first, beat_count, beat_at in *. done.
Qed.

(** Every beat of a request below the last page has lanes. *)
Lemma request_has_lanes p i :
  request_wf p -> legal_shape DATA_BYTES p -> in_one_page p -> (i < burst_beats p)%nat -> beat_has_lanes p i.
Proof.
  intros Hw Hlegal Hpage Hi. destruct (beat_facts p i Hw Hlegal Hpage Hi) as (_ & _ & _ & ? & _).
  split; [done | lia].
Qed.

Section Burst.
Context (p : AddressPayload) (Hw : payload_wf p) (Hlegal : legal_shape DATA_BYTES p)
  (Hpage : in_one_page p).

(** The mask of a beat. *)
Definition beat_mask i : list Z :=
  if beat_at p i + Z.of_nat (beat_count p i) =? 2 ^ 64 then replicate DATA_BYTES 0
  else lane_window DATA_BYTES (beat_first p i) (beat_count p i).

Lemma lane_facts i :
  (i < burst_beats p)%nat ->
  bus_word_address DATA_BYTES (cursor_of p) i = Ok (beat_at p i - Z.of_nat (beat_first p i)) /\
  lane_mask DATA_BYTES (cursor_of p) i = Ok (beat_mask i) /\
  0 <= beat_at p i - Z.of_nat (beat_first p i) /\
  beat_at p i - Z.of_nat (beat_first p i) + Z.of_nat DATA_BYTES <= 2 ^ 64 /\
  (1 <= beat_count p i)%nat /\ (beat_first p i + beat_count p i <= DATA_BYTES)%nat.
Proof.
  intros Hi. pose proof (beat_word_and_lanes DATA_BYTES p Hw Hlegal i Hpage Hi) as (H1 & H2 & H3 & H4).
  pose proof (lane_window_bound DATA_BYTES p Hw Hlegal (beat_at p i)) as [H5 H6].
  unfold beat_mask, beat_first, beat_count, beat_at in *. done.
Qed.

Lemma bus_bound : (DATA_BYTES <= 128)%nat.
Proof.
  pose proof (bus_log_bound DATA_BYTES). pose proof (bus_log_eq DATA_BYTES).
  assert (2 ^ bus_log DATA_BYTES <= 2 ^ 7) by (apply Z.pow_le_mono_r; lia). lia.
Qed.

(** The enabled lanes of a beat are its bytes. *)
Lemma enabled_lane i lane :
  (i < burst_beats p)%nat -> (lane < DATA_BYTES)%nat -> nz (beat_mask i !!! lane) = true ->
  beat_has_lanes p i /\ beat_byte p i (beat_at p i - Z.of_nat (beat_first p i) + Z.of_nat lane).
Proof.
  intros Hi Hl. unfold beat_mask. destruct (Z.eqb_spec (beat_at p i + Z.of_nat (beat_count p i)) (2 ^ 64)).
  { by rewrite lookup_total_replicate_2. }
  intros Hnz. rewrite lane_window_lookup, nz_b2z in Hnz by lia.
  apply andb_true_iff in Hnz as [?%Nat.leb_le ?%Nat.ltb_lt]. split; [done|]. unfold beat_byte. lia.
Qed.

Lemma byte_lane i x :
  beat_has_lanes p i -> beat_byte p i x ->
  exists lane, (lane < DATA_BYTES)%nat /\ nz (beat_mask i !!! lane) = true /\
    x = beat_at p i - Z.of_nat (beat_first p i) + Z.of_nat lane.
Proof.
  intros [Hi Htop] Hx. destruct (lane_facts i Hi) as (_ & _ & _ & _ & _ & Hd). unfold beat_byte in Hx.
  unfold beat_mask. apply Z.eqb_neq in Htop. rewrite Htop.
  exists (Z.to_nat (x - beat_at p i) + beat_first p i)%nat. split; [lia|].
  rewrite lane_window_lookup, nz_b2z by lia. split; [|lia].
  apply andb_true_iff. rewrite Nat.leb_le, Nat.ltb_lt. lia.
Qed.

Lemma scan_beats_spec f port channel beats B acc :
  address_space_ f = sp -> (port < NumPorts)%nat ->
  Forall (fun i => (i < burst_beats p)%nat) beats -> scanned B acc ->
  wp (scan_beats port channel p (cursor_of p) beats acc)
    (fun acc' f' => f' = f /\
       (forall i x, i ∈ beats -> beat_has_lanes p i -> beat_byte p i x -> x <= address_limit) /\
       scanned (fun x => B x \/ exists i, i ∈ beats /\ beat_has_lanes p i /\ beat_byte p i x) acc')
    (fun e f' => violation f e f' /\ ~ decodable p) f.
Proof.
  intros Hf Hp Hl. revert B acc.
  induction Hl as [|i beats Hi _ IH]; intros B acc Hsc; simpl.
  { apply wp_ret. split; [done|]. split; [by intros i x Hin%elem_of_nil|].
    eapply scanned_ext; [|exact Hsc]. intros x. split; [auto|]. intros [?|(? & []%elem_of_nil & _)]; done. }
  destruct (lane_facts i Hi) as (Hbase & Hmask & H0 & Htop & Hc & Hd).
  wp_steps. eapply wp_lift_ok; [exact Hbase|]. wp_steps.
  eapply wp_lift_ok; [exact Hmask|]. wp_steps.
  pose proof bus_bound.
  eapply wp_mono; [apply (scan_lanes_spec _ _ _ _ _ _ _ B) | |]; [done | done | done | | done | |].
  { apply Forall_forall. intros lane Hlane%elem_of_seq. lia. }
  2:{ intros e f' [Hv (lane & Hlane%elem_of_seq & Hnz & Hlim)]. split; [done|].
      apply enabled_lane in Hnz as [_ Hnz]; [|lia..]. intros (_ & _ & Hwidth & _).
      specialize (Hwidth i _ Hi Hnz). lia. }
  intros acc' f' (-> & Hlim & Hsc').
  eapply wp_mono; [by apply IH, Hsc' | | done]. intros acc'' f'' (-> & Hlim' & Hsc'').
  split; [done|]. split.
  { intros j x [->|Hj]%elem_of_cons Hhl Hx; [|by eapply Hlim'].
    destruct (byte_lane i x Hhl Hx) as (lane & Hlane & Hnz & ->).
    apply Hlim; [apply elem_of_seq; lia | done]. }
  eapply scanned_ext; [|exact Hsc'']. intros x. setoid_rewrite elem_of_cons. split.
  - intros [[?|(lane & Hlane%elem_of_seq & Hnz & ->)]|(j & Hj & Hx)]; [auto| |eauto].
    right. exists i. split; [auto|]. apply enabled_lane; (done || lia).
  - intros [?|(j & [->|Hj] & Hhl & Hx)]; [auto| |eauto]. left. right.
    destruct (byte_lane i x Hhl Hx) as (lane & Hlane & ?). exists lane. split; [apply elem_of_seq; lia | done].
Qed.

Definition burst_byte (x : Z) : Prop := exists i, beat_has_lanes p i /\ beat_byte p i x.

Lemma covers_resolve m :
  m ∈ mappings_ sp ->
  (forall i, beat_has_lanes p i -> window_contains m (beat_at p i) (Z.of_nat (beat_count p i))) <->
  forall x, burst_byte x -> space_resolve sp x 1 = Some m.
Proof.
  intros Hm. split.
  - intros Hc x (i & Hi & Hx). apply resolve_complete; [done | lia | done |].
    specialize (Hc i Hi). unfold window_contains, beat_byte in *. lia.
  - intros Hall i Hi. destruct (lane_facts i (proj1 Hi)) as (_ & _ & _ & _ & ? & _).
    assert (forall x, beat_byte p i x -> window_contains m x 1) as Hx.
    { intros x Hx. specialize (Hall x (ex_intro _ i (conj Hi Hx))).
      apply resolve_sound in Hall; [|done..]. tauto. }
    pose proof (Hx (beat_at p i)) as Ha.
    pose proof (Hx (beat_at p i + Z.of_nat (beat_count p i) - 1)) as Hb.
    unfold window_contains, beat_byte in *. lia.
Qed.

Lemma burst_byte_exists i : beat_has_lanes p i -> exists x, burst_byte x.
Proof.
  intros Hi. destruct (lane_facts i (proj1 Hi)) as (_ & _ & _ & _ & ? & _).
  exists (beat_at p i), i. split; [done|]. unfold beat_byte. lia.
Qed.

(** The mapping the scan leaves with no decode error is the window that
    holds the whole burst. *)
Lemma scanned_covers acc :
  scanned burst_byte acc ->
  forall m, (if bool_decide (is_Some acc.1) && negb acc.2 then acc.1 else None) = Some m <->
            m ∈ mappings_ sp /\ covers_lanes m p.
Proof.
  intros Hsc m. unfold covers_lanes.
  destruct acc as [[c|] err]; unfold scanned in Hsc; simpl in *.
  - destruct Hsc as [(x & Hx & Hr) Herr].
    assert (c ∈ mappings_ sp) as Hc by (apply resolve_sound in Hr; [tauto | done | lia]).
    destruct err; simpl.
    + split; [done|]. intros (Hm & _ & Hcov). exfalso. rewrite (covers_resolve m Hm) in Hcov.
      assert (forall y, burst_byte y -> space_resolve sp y 1 = Some c); [|by assert (true = false) by by apply Herr].
      intros y Hy. rewrite Hcov in Hr by done. rewrite <- Hr. by apply Hcov.
    + pose proof (proj1 Herr eq_refl) as Hall. split.
      * intros [= <-]. split; [done|]. split; [|by apply covers_resolve].
        destruct Hx as (i & Hi & _). by exists i.
      * intros (Hm & _ & Hcov). rewrite (covers_resolve m Hm) in Hcov. rewrite Hcov in Hr by done. congruence.
  - destruct Hsc as [_ Hall].
    split; [done|]. intros (Hm & [i Hi] & Hcov). destruct (burst_byte_exists i Hi) as [x Hx].
    rewrite (covers_resolve m Hm) in Hcov. specialize (Hall x Hx). by rewrite Hcov in Hall.
Qed.
End Burst.

(** ** Exclusive shapes *)
Lemma land_pred_pow2 (t : Z) :
  1 <= t <= 128 -> Z.land t (t - 1) = 0 -> exists k, 0 <= k /\ t = 2 ^ k.
Proof.
  intros Ht Hz.
  assert (Forall (fun n => Z.land (Z.of_nat n) (Z.of_nat n - 1) = 0 ->
            n = 0%nat \/ exists k, (k < 8)%nat /\ Z.of_nat n = 2 ^ Z.of_nat k) (seq 0 129)) as Hall.
  { apply Forall_forall. intros n Hn.
    assert (forallb (fun n => negb (Z.land (Z.of_nat n) (Z.of_nat n - 1) =? 0) || (n =? 0)%nat ||
              existsb (fun k => Z.of_nat n =? 2 ^ Z.of_nat k) (seq 0 8)) (seq 0 129) = true) as Hb
      by by vm_compute.
    rewrite forallb_forall in Hb. apply list_elem_of_In in Hn. specialize (Hb n Hn). intros Hl.
    rewrite Hl in Hb. simpl in Hb. apply orb_true_iff in Hb as [->%Nat.eqb_eq|Hex]; [auto|].
    right. change (existsb (fun k => Z.of_nat n =? 2 ^ Z.of_nat k) (seq 0 8) = true) in Hex.
    apply existsb_exists in Hex as (k & Hk%in_seq & ?%Z.eqb_eq). exists k. split; [lia | done]. }
  rewrite Forall_forall in Hall. specialize (Hall (Z.to_nat t)).
  rewrite elem_of_seq, Z2Nat.id in Hall by lia.
  destruct (Hall ltac:(lia) Hz) as [?|(k & _ & Hk)]; [lia|]. exists (Z.of_nat k). split; [lia | done].
Qed.

Lemma pow2_land_pred (k : Z) : 0 <= k -> Z.land (2 ^ k) (2 ^ k - 1) = 0.
Proof. intros. rewrite land_low by done. apply Z.mod_same. pose proof (pow2_pos k). lia. Qed.

Lemma exclusive_shape_spec p :
  payload_wf p -> legal_shape DATA_BYTES p ->
  exclusive_shape_ok p (cursor_of p) = true <-> exclusive_shape p.
Proof.
  intros Hw Hlegal. unfold exclusive_shape_ok, exclusive_shape. simpl. fold (burst_total p).
  pose proof (burst_beats_bound p Hw). pose proof (burst_bytes_bound DATA_BYTES p Hw Hlegal).
  assert (1 <= burst_total p) by (unfold burst_total; nia).
  rewrite negb_true_iff, !orb_false_iff, negb_false_iff, bool_decide_eq_true.
  rewrite Nat.ltb_ge, Z.eqb_neq, Z.ltb_ge, !nz_false. unfold MAX_EXCLUSIVE_BEATS. split.
  - intros (((((Hb & Hn) & _) & Ht) & Hp2) & Ha).
    destruct (land_pred_pow2 (burst_total p) ltac:(lia) Hp2) as (k & Hk & Hk2).
    rewrite Hk2, land_low, <- Hk2 in Ha by done. split_and!; eauto.
  - intros (Hb & Hn & Ht & (k & Hk & Hk2) & Ha).
    rewrite Hk2 in Ha |- *. rewrite (land_low (ap_address p)), pow2_land_pred by done.
    rewrite <- Hk2 in *. split_and!; (done || lia).
Qed.
End Decode.

(** ** initialize_route *)

(** The requests a port can make: those whose address has the width of the
    bus; and, whatever the width, those below the last page of 2^64. *)
Definition addressable p : Prop := ap_address p <= address_limit \/ ap_address p < 2 ^ 64 - 4096.

(** The width is checked of every byte of an addressable request: a beat
    without lanes is within it. *)
Lemma checked_width p :
  payload_wf p -> addressable p -> legal_shape DATA_BYTES p -> in_one_page p ->
  (forall i x, beat_has_lanes p i -> beat_byte p i x -> x <= address_limit) -> in_width p.
Proof.
  intros Hw Ha Hlegal Hpage Hlim i x Hi Hx.
  destruct (Z.eq_dec (beat_at p i + Z.of_nat (beat_count p i)) (2 ^ 64)) as [Htop|Htop].
  2:{ apply (Hlim i x); [by split | done]. }
  unfold address_limit, addressable, address_limit, UINT64_MAX in *. unfold beat_byte in Hx.
  destruct AddressBits_ok as [Eb|Eb]; rewrite Eb in *; [|simpl; lia]. exfalso.
  assert (ap_address p < 2 ^ 64 - 4096) as Hlast by (simpl in Ha; lia).
  destruct (beat_facts p i (conj Hw Hlast) Hlegal Hpage Hi) as (_ & _ & _ & ? & _). lia.
Qed.

Record initialized (sp : AddressSpace) h (port : nat) p r : Prop := {
  in_port : rt_port r = port;
  in_payload : rt_payload r = p;
  in_beat : rt_beat r = 0%nat;
  in_lock : rt_exclusive r = ap_lock p;
  in_decoded : decoded_by_lanes sp h r
}.

Lemma initialize_route_lanes f port p channel :
  space_wf (address_space_ f) -> (port < NumPorts)%nat -> payload_wf p -> addressable p ->
  wp (initialize_route port p channel)
    (fun r f' => f' = f /\ decodable p /\ initialized (address_space_ f) (f_heap f) port p r)
    (fun e f' => violation f e f' /\ ~ decodable p) f.
Proof.
  intros Hsp Hp Hw Hadr. unfold initialize_route. wp_steps.
  eapply wp_mono; [apply make_cursor_spec; [done | apply Hw] | | done].
  intros c ? (-> & -> & Hlegal & Hpage). wp_steps.
  eapply wp_mono; [apply (scan_beats_spec (address_space_ f) p Hw Hlegal Hpage) | | done];
    [done | done | | apply scanned_start |].
  { apply Forall_forall. simpl. intros i Hi%elem_of_seq. lia. }
  intros acc ? (-> & Hlim & Hsc).
  assert (in_width p) as Hwidth.
  { apply checked_width; try done. intros i x Hi Hx. apply (Hlim i x); [|done..].
    destruct Hi. apply elem_of_seq; simpl; lia. }
  assert (scanned (address_space_ f) (burst_byte p) acc) as Hsc'.
  { eapply scanned_ext; [|exact Hsc]. intros x. unfold burst_byte. setoid_rewrite elem_of_seq. simpl.
    split; [intros [[]|(i & _ & ? & ?)]; by exists i | intros (i & Hi & ?); right; exists i].
    split_and!; try done; destruct Hi; lia. }
  pose proof (scanned_covers (address_space_ f) Hsp p Hw Hlegal Hpage acc Hsc') as Hcov. clear Hsc Hsc'.
  destruct acc as [mapping err]. wp_steps. simpl in Hcov.
  set (decoded_ := bool_decide (is_Some mapping) && negb err) in *.
  set (forced := if negb decoded_ then DecodeError else _).
  assert (forced = match (if decoded_ then mapping else None) with
                   | None => DecodeError
                   | Some m => if (1 <? burst_beats p)%nat && negb (supports_burst (f_heap f) (map_device m))
                               then SlaveError else Okay end) as Hforced.
  { unfold forced, decoded_, supports. by destruct mapping, err. }
  clearbody forced. set (mp := if decoded_ then mapping else None) in *. clearbody mp.
  clear mapping err decoded_.
  set (route forced' := {| rt_port := port; rt_payload := p; rt_beat := 0; rt_mapping := mp;
                           rt_forced_response := forced'; rt_exclusive := ap_lock p |}).
  assert (forall forced', forced' = forced_by (f_heap f) (route forced') ->
    initialized (address_space_ f) (f_heap f) port p (route forced')) as Hfresh by (intros; by constructor).
  unfold route, forced_by in Hfresh. clear Hcov route. destruct (ap_lock p) eqn:Hlock; simpl in Hfresh.
  - wp_steps. unfold validate_exclusive.
    destruct (exclusive_shape_ok p (cursor_of p)) eqn:Hshape.
    2:{ apply wp_reject; try done; [by apply detail_intro|]. intros (_ & _ & _ & Hex).
        apply exclusive_shape_spec in Hex; [congruence | apply Hw | done | done]. }
    apply exclusive_shape_spec in Hshape; [|apply Hw | done]. wp_steps. split; [done|].
    split; [by split_and!|]. unfold supports. simpl. destruct mp as [m|]; [|by apply Hfresh].
    destruct (supports_exclusive (f_heap f) (map_device m)) eqn:Es; by apply Hfresh.
  - apply wp_ret. split; [done|]. split; [split_and!; by rewrite ?Hlock | by apply Hfresh].
Qed.

(** Where every beat has lanes, the window holds every byte of the burst. *)
Lemma decoded_lanes sp h r :
  (forall i, (i < burst_beats (rt_payload r))%nat -> beat_has_lanes (rt_payload r) i) ->
  payload_wf (rt_payload r) -> decoded_by_lanes sp h r -> decoded sp h r.
Proof.
  intros Hl Hw [Hm Hf]. split; [|done]. intros m. rewrite Hm. unfold covers_lanes, covers.
  pose proof (burst_beats_bound _ Hw). split.
  - intros (Hin & _ & Hc). split; [done|]. auto.
  - intros (Hin & Hc). split; [done|]. split; [exists 0%nat; apply Hl; lia|].
    intros i [Hi _]. auto.
Qed.

Lemma initialize_route_spec f port p channel :
  space_wf (address_space_ f) -> (port < NumPorts)%nat -> request_wf p ->
  wp (initialize_route port p channel)
    (fun r f' => f' = f /\ decodable p /\ fresh_route (address_space_ f) (f_heap f) port p r)
    (fun e f' => violation f e f' /\ ~ decodable p) f.
Proof.
  intros Hsp Hp Hw. eapply wp_mono; [apply initialize_route_lanes; try done; [apply Hw | right; apply Hw] | | done].
  intros r f' (-> & Hd & [Hpo Hpl Hb Hlock Hdec]). split; [done|]. split; [done|].
  destruct Hd as (Hlegal & Hpage & _ & Hex).
  apply decoded_lanes in Hdec; [|rewrite Hpl; intros; by apply request_has_lanes | rewrite Hpl; apply Hw].
  constructor; try done. destruct Hdec as [Hm Hf].
  constructor; rewrite ?Hpl, ?Hpo, ?Hlock; try done; rewrite ?Hf; unfold forced_by.
  - by repeat case_match.
  - destruct (rt_mapping r) as [m|]; [rewrite <- Hpl; by apply Hm|]. by destruct (rt_exclusive r).
Qed.

(** ** Arbitration *)

(** How many ports are asked before [port] when the pointer is at [next]. *)
Definition wait (next port : nat) : nat := ((port + (NumPorts - next mod NumPorts)) mod NumPorts)%nat.

Lemma wait_spec next port :
  (port < NumPorts)%nat -> (wait next port < NumPorts)%nat /\ ((next + wait next port) mod NumPorts = port)%nat.
Proof.
  intros Hp. unfold wait. pose proof (Nat.mod_upper_bound next NumPorts) as Hm.
  split; [apply Nat.mod_upper_bound; lia|].
  rewrite Nat.Div0.add_mod_idemp_r, <- (Nat.Div0.add_mod_idemp_l next).
  replace (next mod NumPorts + (port + (NumPorts - next mod NumPorts)))%nat with (port + 1 * NumPorts)%nat by lia.
  rewrite Nat.Div0.mod_add. by apply Nat.mod_small.
Qed.

(** Every port is asked in a round. *)
Lemma elem_of_round next port :
  (port < NumPorts)%nat -> port ∈ (fun offset => (next + offset) mod NumPorts)%nat <$> seq 0 NumPorts.
Proof.
  intros Hp. destruct (wait_spec next port Hp) as [Hw He]. apply list_elem_of_fmap.
  exists (wait next port). split; [done|]. apply elem_of_seq. lia.
Qed.
Lemma find_requester_some requests next port :
  find_requester requests next = Some port ->
  (port < NumPorts)%nat /\ requests port = true.
Proof.
  unfold find_requester. intros Hh. apply head_Some_elem_of in Hh.
  apply list_elem_of_filter in Hh as [Hr (o & -> & Ho)%list_elem_of_fmap].
  split; [|by apply Is_true_true]. apply Nat.mod_upper_bound. pose proof NumPorts_pos. lia.
Qed.

Lemma head_filter {A} (P : A -> bool) (l : list A) x :
  head (filter (fun y => P y) l) = Some x ->
  exists k, l !! k = Some x /\ P x = true /\ forall j y, (j < k)%nat -> l !! j = Some y -> P y = false.
Proof.
  induction l as [|y l IH]; [done|]. destruct (P y) eqn:E.
  - rewrite filter_yes by done. intros [= <-]. exists 0%nat. split_and!; [done..|]. intros j y'. lia.
  - rewrite filter_no by done. intros (k & Hk & Hx & Hlt)%IH. exists (S k). split_and!; [done..|].
    intros [|j] y' Hj; simpl; [congruence|]. apply Hlt. lia.
Qed.

Lemma wait_unique next port k :
  (k < NumPorts)%nat -> ((next + k) mod NumPorts = port)%nat -> wait next port = k.
Proof.
  intros Hk <-. unfold wait. pose proof (Nat.mod_upper_bound next NumPorts) as Hm.
  rewrite Nat.Div0.add_mod_idemp_l, <- Nat.add_assoc, <- (Nat.Div0.add_mod_idemp_l next).
  replace (next mod NumPorts + (k + (NumPorts - next mod NumPorts)))%nat with (k + 1 * NumPorts)%nat by lia.
  rewrite Nat.Div0.mod_add. by apply Nat.mod_small.
Qed.

(** A grant to another port brings a requesting port closer. *)
Lemma find_requester_fair requests next granted port :
  find_requester requests next = Some granted -> (port < NumPorts)%nat -> requests port = true ->
  granted = port \/ (wait ((granted + 1) mod NumPorts) port < wait next port)%nat.
Proof.
  intros (k & Hk & Hr & Hlt)%head_filter Hp Hreq. destruct (decide (granted = port)) as [|Hne]; [by left|].
  right. apply list_lookup_fmap_Some in Hk as (k' & -> & Hk). apply lookup_seq in Hk as [-> Hk]. simpl in *.
  destruct (wait_spec next port Hp) as [Hw He]. set (w := wait next port) in *.
  assert (k < w)%nat as Hkw.
  { destruct (decide (k < w)%nat); [done|]. destruct (decide (w = k)) as [->|]; [done|].
    specialize (Hlt w port ltac:(lia)). rewrite list_lookup_fmap, lookup_seq_lt in Hlt by done.
    simpl in Hlt. rewrite He in Hlt. rewrite Hlt in Hreq; done. }
  rewrite (wait_unique _ port (w - S k)); [lia.. |].
  rewrite Nat.Div0.add_mod_idemp_l, <- Nat.add_assoc, Nat.Div0.add_mod_idemp_l, <- He at 1.
  f_equal. lia.
Qed.

Lemma find_requester_none requests next port :
  find_requester requests next = None -> (port < NumPorts)%nat -> requests port = false.
Proof.
  unfold find_requester. intros Hh Hp. apply not_true_is_false. intros Hr.
  assert (port ∈ filter (fun port => requests port)
    ((fun offset => (next + offset) mod NumPorts)%nat <$> seq 0 NumPorts)) as Hin.
  { apply elem_of_filter_bool. split; [done|]. by apply elem_of_round. }
  destruct (filter _ _); [by apply not_elem_of_nil in Hin | done].
Qed.

(** What arbitration of one address channel does: nothing, or one grant to the
    first requesting port at or after the pointer, which moves past it. *)
Definition arbitrated (e : nat -> event) (full : bool) (requests : nat -> bool) (next next' : nat)
    (es : list event) : Prop :=
  (es = [] /\ next' = next /\ (full = true \/ find_requester requests next = None)) \/
  exists port, es = [e port] /\ find_requester requests next = Some port /\
    next' = ((port + 1) mod NumPorts)%nat.

Definition aw_requests f (port : nat) : bool := negb (rb_empty (p_aw (port_of f port))).
Definition ar_requests f (port : nat) : bool := negb (rb_empty (p_ar (port_of f port))).

Lemma arbitrate_aw_spec f :
  fabric_wf f ->
  wp arbitrate_aw (fun _ f' => exists es, reaches es f f' /\ f_heap f' = f_heap f /\
       arbitrated GrantAW (rb_full RouteDepth (write_routes_ f)) (aw_requests f) (next_aw_port_ f) (next_aw_port_ f') es /\
       next_ar_port_ f' = next_ar_port_ f)
    (violation f) f.
Proof.
  intros [Hsp Hs Hv]. unfold arbitrate_aw. wp_steps.
  destruct (rb_full RouteDepth (write_routes_ f)) eqn:Hfull.
  { apply wp_ret. exists []. split; [by apply reaches_refl|]. split_and!; try done. left. auto. }
  change (fun port => negb (rb_empty (p_aw (port_of f port)))) with (aw_requests f).
  destruct (find_requester (aw_requests f) (next_aw_port_ f)) as [port|] eqn:Hfind.
  2:{ apply wp_ret. exists []. split; [by apply reaches_refl|]. split_and!; try done. left. auto. }
  pose proof Hfind as [Hp Hreq%negb_true_iff]%find_requester_some.
  pose proof (port_of_wf f port Hs Hp) as Hw.
  destruct (rb_front_cases _ _ (pw_aw _ Hw) Hreq) as (p & rest & Hq & Hfront).
  destruct (rb_pop_cases _ _ _ _ (pw_aw _ Hw) Hq) as (_ & rb' & Hpop & Hwf' & Hl').
  wp_steps. eapply wp_lift_ok; [exact Hfront|]. wp_steps.
  assert (q_aw (pv (view f) port) = p :: rest) as Hqv by by rewrite pv_view.
  assert (request_wf p) as Hrw.
  { destruct (qw_aw _ (pv_wf _ _ _ Hv Hp)) as [Hall _]. rewrite Hqv in Hall. by inversion Hall. }
  eapply wp_mono; [by apply initialize_route_spec | | by intros ?? []]. intros r ? (-> & _ & Hr). wp_steps.
  eapply wp_lift_ok; [exact Hpop|]. unfold on_port. wp_steps.
  apply rb_not_full in Hfull as Hroom; [|apply Hs].
  destruct (rb_push_cases _ _ (new_write r) (sh_writes f Hs) Hroom) as (wq & Hpush & Hwq & Hwl).
  apply (f_equal snd) in Hpush. simpl in Hpush. subst wq.
  exists [GrantAW port]. split; [|by repeat split; right; exists port].
  set (f1 := f <| write_routes_ ::= fun q => (rb_push RouteDepth (new_write r) q).2 |> <| next_aw_port_ := ((port + 1) mod NumPorts)%nat |>).
  change (reaches [GrantAW port] f (f1 <| ports_ ::= alter (fun s => s <| p_aw := rb' |>) port |>)).
  eapply (reaches_port _ f f1 port _ (fun q => q <| q_aw := rest |>)
    ((view f) <| v_writes ::= fun l => l ++ [new_write r] |>)); try done.
  - destruct Hs. by constructor.
  - unfold view. simpl. by rewrite Hwl.
  - unfold port_view. simpl. by rewrite Hl'.
  - intros []. by constructor.
  - by econstructor.
Qed.

Lemma arbitrate_ar_spec f :
  fabric_wf f ->
  wp arbitrate_ar (fun _ f' => exists es, reaches es f f' /\ f_heap f' = f_heap f /\
       arbitrated GrantAR (rb_full RouteDepth (read_routes_ f)) (ar_requests f) (next_ar_port_ f) (next_ar_port_ f') es /\
       next_aw_port_ f' = next_aw_port_ f)
    (violation f) f.
Proof.
  intros [Hsp Hs Hv]. unfold arbitrate_ar. wp_steps.
  destruct (rb_full RouteDepth (read_routes_ f)) eqn:Hfull.
  { apply wp_ret. exists []. split; [by apply reaches_refl|]. split_and!; try done. left. auto. }
  change (fun port => negb (rb_empty (p_ar (port_of f port)))) with (ar_requests f).
  destruct (find_requester (ar_requests f) (next_ar_port_ f)) as [port|] eqn:Hfind.
  2:{ apply wp_ret. exists []. split; [by apply reaches_refl|]. split_and!; try done. left. auto. }
  pose proof Hfind as [Hp Hreq%negb_true_iff]%find_requester_some.
  pose proof (port_of_wf f port Hs Hp) as Hw.
  destruct (rb_front_cases _ _ (pw_ar _ Hw) Hreq) as (p & rest & Hq & Hfront).
  destruct (rb_pop_cases _ _ _ _ (pw_ar _ Hw) Hq) as (_ & rb' & Hpop & Hwf' & Hl').
  wp_steps. eapply wp_lift_ok; [exact Hfront|]. wp_steps.
  assert (q_ar (pv (view f) port) = p :: rest) as Hqv by by rewrite pv_view.
  assert (request_wf p) as Hrw.
  { destruct (qw_ar _ (pv_wf _ _ _ Hv Hp)) as [Hall _]. rewrite Hqv in Hall. by inversion Hall. }
  eapply wp_mono; [by apply initialize_route_spec | | by intros ?? []]. intros r ? (-> & _ & Hr). wp_steps.
  eapply wp_lift_ok; [exact Hpop|]. unfold on_port. wp_steps.
  apply rb_not_full in Hfull as Hroom; [|apply Hs].
  destruct (rb_push_cases _ _ r (sh_reads f Hs) Hroom) as (rq & Hpush & Hrq & Hrl).
  apply (f_equal snd) in Hpush. simpl in Hpush. subst rq.
  exists [GrantAR port]. split; [|by repeat split; right; exists port].
  set (f1 := f <| read_routes_ ::= fun q => (rb_push RouteDepth r q).2 |> <| next_ar_port_ := ((port + 1) mod NumPorts)%nat |>).
  change (reaches [GrantAR port] f (f1 <| ports_ ::= alter (fun s => s <| p_ar := rb' |>) port |>)).
  eapply (reaches_port _ f f1 port _ (fun q => q <| q_ar := rest |>)
    ((view f) <| v_reads ::= fun l => l ++ [r] |>)); try done.
  - destruct Hs. by constructor.
  - unfold view. simpl. by rewrite Hrl.
  - unfold port_view. simpl. by rewrite Hl'.
  - intros []. by constructor.
  - by econstructor.
Qed.
End Routes.
