(* ===== verification/FabricBeats.v ===== *)
(** * Read beats and write beats ([process_read_beat], [process_write_beat])

    The routes at the front of the queues make progress: a beat is read from
    its device, a write beat is staged, and a complete write burst is committed
    beat by beat, or as one access when it is exclusive.  The device is called
    with the offset, bytes and strobes the AXI rules give. *)
From S2P Require Import Prelude RingBuffer Axi Device Fabric FabricSpec FabricPorts FabricRoutes FabricInv.

Section Beats.
Context {cfg : FabricConfig} `{!FabricConfigOk cfg} {H : Type} `{!DeviceHeap H, !DeviceHeapLaws H}.
Implicit Types (f : Fabric H) (v : View H) (sp : AddressSpace) (p : AddressPayload).

(** ** Lanes *)
Lemma enabled_extent_window first count :
  (1 <= count)%nat -> (first + count <= DATA_BYTES)%nat ->
  enabled_extent (lane_window DATA_BYTES first count) = (first, count).
Proof.
  intros Hc Hd. unfold enabled_extent.
  assert (length (lane_window DATA_BYTES first count) = DATA_BYTES) as Hlen.
  { unfold lane_window. by rewrite length_fmap, length_seq. }
  rewrite Hlen.
  assert (forall k, (k <= DATA_BYTES)%nat ->
    foldl (fun '(fst, lst) i => if nz (lane_window DATA_BYTES first count !!! i)
             then (Nat.min fst i, S i) else (fst, lst)) (DATA_BYTES, 0%nat) (seq 0 k)
    = if (k <=? first)%nat then (DATA_BYTES, 0%nat) else (first, Nat.min k (first + count))) as Hfold.
  { induction k as [|k IH]; intros Hk; [done|]. rewrite seq_S, foldl_app, IH by lia. cbn [foldl Nat.add].
    destruct (Nat.leb_spec k first); cbv beta iota; rewrite lane_window_lookup, nz_b2z by lia;
      destruct (Nat.leb_spec (S k) first), (Nat.leb_spec first k),
        (Nat.ltb_spec k (first + count)); cbn [andb]; try lia; f_equal; lia. }
  rewrite Hfold by lia. destruct (Nat.leb_spec DATA_BYTES first); [lia|].
  destruct (Nat.eqb_spec first DATA_BYTES); [lia|]. f_equal. lia.
Qed.

Lemma subspan_replicate first count (x : Z) :
  (first + count <= DATA_BYTES)%nat ->
  subspan first count (replicate DATA_BYTES x) = replicate count x.
Proof.
  intros. unfold subspan. rewrite drop_replicate, take_replicate. f_equal. lia.
Qed.

Lemma subspan_length first count (l : list Z) :
  (first + count <= length l)%nat -> length (subspan first count l) = count.
Proof. intros. unfold subspan. rewrite length_take, length_drop. lia. Qed.

Lemma subspan_lookup first count (l : list Z) i :
  (i < count)%nat -> (first + count <= length l)%nat ->
  subspan first count l !!! i = l !!! (first + i)%nat.
Proof. intros. unfold subspan. by rewrite lookup_total_take_lt, lookup_total_drop. Qed.

Lemma subspan_window first count :
  (first + count <= DATA_BYTES)%nat ->
  subspan first count (lane_window DATA_BYTES first count) = replicate count 1.
Proof.
  intros Hd. assert (length (lane_window DATA_BYTES first count) = DATA_BYTES) as Hlen.
  { unfold lane_window. by rewrite length_fmap, length_seq. }
  apply list_eq_total; rewrite subspan_length by lia; [by rewrite length_replicate|].
  intros i Hi. rewrite subspan_lookup, lane_window_lookup, lookup_total_replicate_2 by lia.
  destruct (Nat.leb_spec first (first + i)), (Nat.ltb_spec (first + i) (first + count)); try lia; done.
Qed.

(** ** Device offsets *)
Lemma device_offset sp m a n :
  space_wf sp -> m ∈ mappings_ sp -> window_contains m a n -> 0 <= n ->
  u64 (a - map_base m) = a - map_base m.
Proof.
  intros Hsp Hm [Hb He] Hn. pose proof (mapping_in_wf sp Hsp m Hm) as (? & ? & ?).
  apply u64_small. unfold fits, UINT64_MAX in *. lia.
Qed.

Lemma static_cursor sp r :
  route_static sp r -> mk_cursor DATA_BYTES (rt_payload r) = Ok (cursor_of (rt_payload r)).
Proof.
  intros [Hp [Hw _] Hs _ _ _ _ _]. by apply (mk_cursor_spec DATA_BYTES).
Qed.

Lemma static_beat_facts sp r i :
  route_static sp r -> (i < burst_beats (rt_payload r))%nat ->
  let p := rt_payload r in
  bus_word_address DATA_BYTES (cursor_of p) i = Ok (beat_at p i - Z.of_nat (beat_first p i)) /\
  lane_mask DATA_BYTES (cursor_of p) i
    = Ok (lane_window DATA_BYTES (beat_first p i) (beat_count p i)) /\
  0 <= beat_at p i - Z.of_nat (beat_first p i) /\
  beat_at p i + Z.of_nat (beat_count p i) <= 2 ^ 64 - 4096 /\
  (1 <= beat_count p i)%nat /\ (beat_first p i + beat_count p i <= DATA_BYTES)%nat.
Proof. intros [Hp Hw Hs Hpg _ _ _ _] Hi. by apply beat_facts. Qed.

(** ** Reads *)
Lemma read_response_spec sp f r :
  space_wf sp -> read_wf sp r ->
  wp (read_response r (cursor_of (rt_payload r)))
    (fun beat f' => f' = f <| f_heap := (read_beat r (f_heap f)).2 |> /\
                    beat = (read_beat r (f_heap f)).1)
    no_error f.
Proof.
  intros Hsp [Hst Hb]. unfold read_response, read_beat, served, read_data. simpl.
  rewrite Nat.add_1_r. assert (f = f <| f_heap := f_heap f |>) as Hsame by by destruct f.
  pose proof (rs_mapping sp r Hst) as Hmap.
  destruct (rt_forced_response r); try by apply wp_ret.
  destruct (rt_mapping r) as [m|]; [|by apply wp_ret]. destruct Hmap as [Hm Hcov].
  destruct (static_beat_facts sp r (rt_beat r) Hst Hb) as (Hbase & Hmask & H0 & Htop & Hc & Hd).
  set (p := rt_payload r) in *. set (i := rt_beat r) in *.
  wp_steps. eapply wp_lift_ok; [exact Hmask|]. wp_steps. eapply wp_lift_ok; [exact Hbase|].
  rewrite enabled_extent_window by done.
  destruct (Nat.eqb_spec (beat_count p i) 0); [lia|]. wp_steps.
  rewrite subspan_window by done. unfold zero_lanes at 1. rewrite subspan_replicate by done.
  replace (beat_at p i - Z.of_nat (beat_first p i) + Z.of_nat (beat_first p i)) with (beat_at p i) by lia.
  rewrite (device_offset sp m _ (Z.of_nat (beat_count p i))) by (auto; lia).
  unfold on_heap, wp. rewrite device_read_ok.
  2:{ by rewrite !length_replicate. } 2:{ destruct (beat_count p i); [lia | done]. }
  rewrite length_replicate. destruct (read_impl _ _ _ _ _) as [[resp data] h']. simpl. done.
Qed.

Lemma establish_monitor_spec sp f r :
  read_wf sp r -> rt_exclusive r = true ->
  wp (establish_monitor r)
    (fun _ f' => exists ms, reserve r (monitors_ f) = Some ms /\ f' = f <| monitors_ := ms |>)
    (fun e f' => violation f e f' /\ reserve r (monitors_ f) = None) f.
Proof.
  intros [Hst Hb] Hx. unfold establish_monitor. wp_steps.
  eapply wp_lift_ok; [by eapply static_cursor|]. wp_steps.
  destruct (rs_exclusive sp r Hst Hx) as (_ & _ & Htot & _ & _).
  destruct (rs_payload sp r Hst) as [(_ & [Ha _] & _) Hlast].
  destruct (rs_payload sp r Hst) as [Hw _].
  pose proof (burst_beats_bound (rt_payload r) Hw).
  pose proof (burst_bytes_bound DATA_BYTES (rt_payload r) Hw (rs_shape sp r Hst)).
  unfold reserve, find_monitor, reservation.
  destruct (match find_index _ _ with Some _ => _ | None => _ end) as [slot|].
  - wp_steps. eexists. split; [done|]. simpl. fold (burst_total (rt_payload r)).
    assert (0 <= burst_total (rt_payload r)) by (unfold burst_total; nia).
    rewrite u64_small by (unfold fits; lia). done.
  - eapply wp_mono; [apply (wp_protocol_error f _ _ _ _ (fun _ _ => False)); [apply Hst | done | done | by apply detail_intro] | done | done].
Qed.

(** The front of a route queue. *)
Lemma front_route {T} `{!Inhabited T} (q : RingBuffer T) :
  rb_wf RouteDepth q -> rb_empty q = false ->
  exists r rs, rb_list RouteDepth q = r :: rs /\ rb_front q = Ok r /\
    (forall r', rb_wf RouteDepth (rb_set_front r' q) /\
                rb_list RouteDepth (rb_set_front r' q) = r' :: rs) /\
    (forall r', exists q', rb_pop RouteDepth (rb_set_front r' q) = Ok q' /\
                rb_wf RouteDepth q' /\ rb_list RouteDepth q' = rs).
Proof.
  intros Hw He. destruct (rb_front_cases RouteDepth q Hw He) as (r & rs & Hl & Hf).
  assert (forall r', rb_wf RouteDepth (rb_set_front r' q) /\
            rb_list RouteDepth (rb_set_front r' q) = r' :: rs) as Hset.
  { intros r'. pose proof (rb_set_front_spec RouteDepth q r' Hw) as [Hw' Hl']. by rewrite Hl in Hl'. }
  exists r, rs. split_and!; try done. intros r'. destruct (Hset r') as [Hw' Hl'].
  by destruct (rb_pop_cases RouteDepth _ r' rs Hw' Hl') as (_ & q' & ? & ? & ?); exists q'.
Qed.

(** The state after a read beat, whatever is left of the route queue. *)
Lemma read_beat_reaches f r rs ms q :
  shape f -> read_wf (address_space_ f) r -> rb_list RouteDepth (read_routes_ f) = r :: rs ->
  (length (q_r (pv (view f) (rt_port r))) < ResponseDepth)%nat ->
  (if needs_monitor r then reserve r (monitors_ f) = Some ms else ms = monitors_ f) ->
  rb_wf RouteDepth q -> rb_list RouteDepth q = after_read r rs ->
  let beat := (read_beat r (f_heap f)).1 in
  reaches [ReadBeat (rt_port r)] f
    (f <| monitors_ := ms |> <| f_heap := (read_beat r (f_heap f)).2 |>
       <| ports_ ::= alter (fun s => s <| p_r ::= fun b => (rb_push ResponseDepth beat b).2 |>) (rt_port r) |>
       <| read_routes_ := q |>).
Proof.
  intros Hs [Hst Hb] Hq Hl Hms Hwq Hlq beat. pose proof (rs_port _ _ Hst) as Hp.
  pose proof (port_of_wf f _ Hs Hp) as Hw. rewrite pv_view in Hl by done.
  destruct (rb_push_cases ResponseDepth _ beat (pw_r _ Hw) Hl) as (rb' & Hpush & Hwf' & Hlist).
  set (f1 := f <| monitors_ := ms |> <| f_heap := (read_beat r (f_heap f)).2 |> <| read_routes_ := q |>).
  change (reaches [ReadBeat (rt_port r)] f (f1 <| ports_ ::=
    alter (fun s => s <| p_r ::= fun b => (rb_push ResponseDepth beat b).2 |>) (rt_port r) |>)).
  eapply (reaches_port _ f f1 (rt_port r) _ (fun q => q <| q_r ::= fun l => l ++ [beat] |>)
    ((view f) <| v_heap := (read_beat r (f_heap f)).2 |> <| v_reads := after_read r rs |>
              <| v_monitors := ms |>)); try done.
  - destruct Hs. by constructor.
  - unfold view. simpl. by rewrite Hlq.
  - change (port_of f1 (rt_port r)) with (port_of f (rt_port r)). unfold port_view. simpl.
    rewrite Hpush. simpl. by rewrite Hlist.
  - change (port_of f1 (rt_port r)) with (port_of f (rt_port r)). intros []. constructor; simpl; try done.
    by rewrite Hpush.
  - pose proof (step_read (address_space_ f) (view f) r rs ms) as Hstep.
    unfold beat. simpl in Hstep. destruct (read_beat r (f_heap f)) as [b h'].
    apply Hstep; [done | | done]. by rewrite pv_view.
Qed.

Lemma process_read_beat_spec f :
  fabric_wf f ->
  wp process_read_beat
    (fun _ f' => (reaches [] f f' /\ read_blocked (view f)) \/ exists port, reaches [ReadBeat port] f f')
    (violation f) f.
Proof.
  intros [Hsp Hs Hv]. unfold process_read_beat. wp_steps.
  destruct (rb_empty (read_routes_ f)) eqn:He.
  { apply wp_ret. left. split; [by apply reaches_refl|]. apply (rb_empty_spec RouteDepth) in He.
    unfold read_blocked. simpl. by rewrite He. }
  destruct (front_route _ (sh_reads f Hs) He) as (r & rs & Hq & Hfront & Hset & Hpop).
  wp_steps. eapply wp_lift_ok; [exact Hfront|].
  destruct (front_read _ _ r rs Hv Hq) as (Hr & _). pose proof Hr as [Hst Hb].
  pose proof (rs_port _ _ Hst) as Hp.
  destruct (rb_full ResponseDepth (p_r (port_of f (rt_port r)))) eqn:Hfull.
  { apply wp_ret. left. split; [by apply reaches_refl|]. unfold read_blocked. simpl v_reads.
    rewrite Hq, pv_view by done. apply rb_is_full; [by apply port_of_wf | done]. }
  apply rb_not_full in Hfull as Hroom; [|by apply port_of_wf].
  wp_steps. eapply wp_lift_ok; [by eapply static_cursor|]. wp_steps.
  apply (wp_mono _ (fun _ f1 => exists ms, f1 = f <| monitors_ := ms |> /\
    (if needs_monitor r then reserve r (monitors_ f) = Some ms else ms = monitors_ f)) _ (violation f)); [| |done].
  { unfold needs_monitor. destruct (rt_exclusive r) eqn:Hx; simpl;
      [|by apply wp_ret; exists (monitors_ f); destruct f].
    destruct (_ && _); [|by apply wp_ret; exists (monitors_ f); destruct f].
    eapply wp_mono; [by eapply establish_monitor_spec | | by intros ?? []]. intros _ f' (ms & ? & ->). eauto. }
  intros _ f1 (ms & -> & Hms). wp_steps.
  eapply wp_safe; [by eapply read_response_spec|]. intros beat f2 [-> ->].
  unfold push_r, on_port. wp_steps.
  destruct (Hset (r <| rt_beat ::= S |>)) as [Hw1 Hl1].
  destruct (Hpop (r <| rt_beat ::= S |>)) as (q' & Hpop' & Hw2 & Hl2).
  change (beats_ (cursor_of (rt_payload r))) with (burst_beats (rt_payload r)).
  change (rt_beat (r <| rt_beat ::= S |>)) with (S (rt_beat r)).
  assert (length (q_r (pv (view f) (rt_port r))) < ResponseDepth)%nat by by rewrite pv_view.
  assert (after_read r rs = if (S (rt_beat r) =? burst_beats (rt_payload r))%nat then rs
                            else r <| rt_beat ::= S |> :: rs) as Hafter by done.
  destruct (S (rt_beat r) =? burst_beats (rt_payload r))%nat.
  - unfold pop_read_route. wp_steps. eapply wp_lift_ok; [exact Hpop'|]. wp_steps.
    right. exists (rt_port r). apply (read_beat_reaches f r rs ms q'); try done. by rewrite Hafter.
  - wp_steps. right. exists (rt_port r).
    apply (read_beat_reaches f r rs ms (rb_set_front (r <| rt_beat ::= S |>) (read_routes_ f))); try done.
    by rewrite Hafter.
Qed.

(** ** Loops over lanes *)

(** A fold that skips the disabled lanes of a window folds over the window. *)
Lemma foldl_window {A} (g : A -> nat -> A) first count acc :
  (first + count <= DATA_BYTES)%nat ->
  foldl (fun acc lane => if lane_window DATA_BYTES first count !!! lane =? 0 then acc else g acc lane)
    acc (seq 0 DATA_BYTES) = foldl g acc (seq first count).
Proof.
  intros Hd. set (g' := fun acc lane => _).
  assert (forall l acc, Forall (fun lane => (lane < DATA_BYTES)%nat /\
            ~ (first <= lane < first + count)%nat) l -> foldl g' acc l = acc) as Hskip.
  { intros l acc0 Hall. induction Hall as [|lane l [Hlt Hout] _ IH]; [done|]. simpl.
    unfold g' at 2. rewrite lane_window_lookup by done.
    destruct (Nat.leb_spec first lane), (Nat.ltb_spec lane (first + count)); simpl; (apply IH || lia). }
  assert (forall l acc, Forall (fun lane => (first <= lane < first + count)%nat) l ->
            foldl g' acc l = foldl g acc l) as Hkeep.
  { intros l. induction l as [|lane l IH]; intros acc0; [done|]. intros [Hin Hall]%Forall_cons. simpl.
    rewrite IH by done. unfold g'. rewrite lane_window_lookup by lia.
    destruct (Nat.leb_spec first lane), (Nat.ltb_spec lane (first + count)); simpl; try done; lia. }
  replace (seq 0 DATA_BYTES) with
    (seq 0 first ++ seq first count ++ seq (first + count) (DATA_BYTES - first - count)).
  2:{ rewrite <- !seq_app. f_equal. lia. }
  rewrite !foldl_app, (Hskip (seq 0 first)), (Hkeep (seq first count)), Hskip; [done | ..];
    apply Forall_forall; intros lane Hlane%elem_of_seq; lia.
Qed.

Lemma foldl_ext_in {A B} (g g' : A -> B -> A) l acc :
  (forall acc x, x ∈ l -> g acc x = g' acc x) -> foldl g acc l = foldl g' acc l.
Proof.
  revert acc. induction l as [|x l IH]; intros acc Heq; [done|]. simpl.
  rewrite Heq by by left. apply IH. intros acc' y Hy. apply Heq. by right.
Qed.

Lemma foldl_shift {A} (g : A -> nat -> A) acc first count :
  foldl g acc (seq first count) = foldl (fun acc k => g acc (first + k)%nat) acc (seq 0 count).
Proof.
  revert g first acc. induction count as [|count IH]; intros g first acc; [done|]. simpl.
  rewrite (IH g (S first)), (IH (fun acc k => g acc (first + k)%nat) 1%nat), Nat.add_0_r. apply foldl_ext_in. intros acc' k _.
  f_equal. lia.
Qed.

Lemma invalidate_loop f (l : list nat) (cond : nat -> bool) (addr : nat -> Z) :
  wp (for_each l (fun x => when (cond x) (invalidate_monitors (addr x))))
    (fun _ f' => f' = f <| monitors_ ::= fun ms =>
       foldl (fun ms x => if cond x then invalidate (addr x) ms else ms) ms l |>) no_error f.
Proof.
  revert f. induction l as [|x l IH]; intros f; simpl; [apply wp_ret; by destruct f|].
  apply wp_bind. destruct (cond x); [unfold invalidate_monitors|]; wp_steps;
    (eapply wp_safe; [apply IH|]); by intros ? f' ->.
Qed.

(** ** Write beats *)
Lemma effective_strobes p i strobe :
  (beat_first p i + beat_count p i <= DATA_BYTES)%nat -> length strobe = DATA_BYTES ->
  let lanes := lane_window DATA_BYTES (beat_first p i) (beat_count p i) in
  let effective := (fun lane => b2z (nz (lanes !!! lane) && nz (strobe !!! lane))) <$> seq 0 DATA_BYTES in
  subspan (beat_first p i) (beat_count p i) effective = beat_strobes strobe p i /\
  forall k, (k < beat_count p i)%nat ->
    nz (effective !!! (beat_first p i + k)%nat) = nz (beat_strobes strobe p i !!! k).
Proof.
  intros Hd Hl lanes effective.
  assert (length effective = DATA_BYTES) as Hel by (unfold effective; by rewrite length_fmap, length_seq).
  assert (forall k, (k < beat_count p i)%nat ->
    effective !!! (beat_first p i + k)%nat = b2z (nz (strobe !!! (beat_first p i + k)%nat))) as Heff.
  { intros k Hk. apply list_lookup_total_correct. unfold effective.
    rewrite list_lookup_fmap, seq_lookup_lt by lia. unfold lanes. cbn [fmap option_fmap option_map].
    f_equal. rewrite lane_window_lookup, nz_b2z by lia.
    destruct (Nat.leb_spec (beat_first p i) (beat_first p i + k)),
      (Nat.ltb_spec (beat_first p i + k) (beat_first p i + beat_count p i)); try lia. done. }
  assert (forall k, (k < beat_count p i)%nat ->
    beat_strobes strobe p i !!! k = b2z (nz (strobe !!! (beat_first p i + k)%nat))) as Hbs.
  { intros k Hk. apply list_lookup_total_correct. unfold beat_strobes, beat_bytes.
    rewrite list_lookup_fmap, lookup_total_lt by (rewrite subspan_length; lia).
    by rewrite subspan_lookup by lia. }
  split; [|intros k Hk; by rewrite Heff, Hbs].
  apply list_eq_total.
  - unfold beat_strobes, beat_bytes. rewrite length_fmap, !subspan_length by lia. done.
  - intros k Hk. rewrite subspan_length in Hk by lia. by rewrite subspan_lookup, Heff, Hbs by lia.
Qed.

(** The route as [write_device_beat] leaves it. *)
Definition exit_marked (wr : WriteRoute) (m : Mapping) (resp : Response) (h' : H) : WriteRoute :=
  if response_is_success resp && is_exit h' (map_device m)
  then wr <| wt_exit_response := true |> <| wt_exit_code := device_exit_code h' (map_device m) |> else wr.

Lemma write_device_beat_spec sp f wr ws m :
  space_wf sp -> write_wf sp wr -> m ∈ mappings_ sp -> covers m (rt_payload (wt_route wr)) ->
  rb_wf RouteDepth (write_routes_ f) -> rb_list RouteDepth (write_routes_ f) = wr :: ws ->
  let p := rt_payload (wt_route wr) in
  let i := wt_commit_beat wr in
  let strobes := beat_strobes (wt_staged_strobe wr !!! i) p i in
  let '(resp, h') := write_impl (map_device m) (beat_at p i - map_base m)
      (beat_bytes (wt_staged_data wr !!! i) p i) strobes (f_heap f) in
  wp (write_device_beat wr m (cursor_of p) i (wt_staged_data wr !!! i) (wt_staged_strobe wr !!! i))
    (fun answer f' => answer = (resp, exit_marked wr m resp h') /\
       exists q x, rb_wf RouteDepth q /\ rb_list RouteDepth q = x :: ws /\
       f' = f <| f_heap := h' |>
              <| monitors_ ::= fun ms => if response_is_success resp
                                         then invalidate_bytes (beat_at p i) strobes ms else ms |>
              <| write_routes_ := q |>)
    no_error f.
Proof.
  intros Hsp Hwr Hm Hcov Hq Hl p i strobes.
  destruct (write_impl _ _ _ _ _) as [resp h'] eqn:Hwi.
  pose proof (ww_static _ _ Hwr) as Hst. pose proof (ww_commit _ _ Hwr) as Hi. fold i p in Hi.
  destruct (static_beat_facts sp _ i Hst Hi) as (Hbase & Hmask & H0 & Htop & Hc & Hd).
  fold p in Hbase, Hmask, H0, Htop, Hc, Hd.
  assert (i < MAX_BURST_BEATS)%nat as Hi256.
  { destruct (rs_payload _ _ Hst) as [Hpw _]. pose proof (burst_beats_bound p Hpw).
    unfold MAX_BURST_BEATS. lia. }
  assert (length (wt_staged_data wr !!! i) = DATA_BYTES /\ length (wt_staged_strobe wr !!! i) = DATA_BYTES)
    as [Hld Hls].
  { destruct (ww_data _ _ Hwr) as [Hn1 Ha1], (ww_strobe _ _ Hwr) as [Hn2 Ha2]. split.
    - apply (Forall_lookup_1 _ _ i _ Ha1), lookup_total_lt. by rewrite Hn1.
    - apply (Forall_lookup_1 _ _ i _ Ha2), lookup_total_lt. by rewrite Hn2. }
  destruct (effective_strobes p i _ Hd Hls) as [Hsub Hnz].
  unfold write_device_beat. wp_steps. eapply wp_lift_ok; [exact Hbase|]. wp_steps.
  eapply wp_lift_ok; [exact Hmask|]. rewrite enabled_extent_window by done.
  destruct (Nat.eqb_spec (beat_count p i) 0); [lia|]. rewrite Hsub. wp_steps.
  replace (beat_at p i - Z.of_nat (beat_first p i) + Z.of_nat (beat_first p i)) with (beat_at p i) by lia.
  rewrite (device_offset sp m _ (Z.of_nat (beat_count p i))) by (auto; lia).
  set (eff := fmap _ (seq 0 DATA_BYTES)) in *. fold strobes.
  fold (beat_bytes (wt_staged_data wr !!! i) p i).
  assert (length (beat_bytes (wt_staged_data wr !!! i) p i) = beat_count p i) as Hlb
    by (unfold beat_bytes; apply subspan_length; lia).
  assert (length strobes = beat_count p i) as Hlst.
  { unfold strobes, beat_strobes, beat_bytes. rewrite length_fmap. apply subspan_length. lia. }
  unfold on_heap at 1. unfold wp at 1. rewrite device_write_ok.
  2:{ by rewrite Hlb, Hlst. } 2:{ intros E. rewrite E in Hlb. simpl in Hlb. lia. }
  rewrite Hwi. unfold exit_marked. destruct (response_is_success resp) eqn:Hok.
  2:{ wp_steps. split; [done|]. exists (write_routes_ f), wr. split_and!; try done. }
  wp_steps. eapply wp_mono; [apply invalidate_loop | | done]. intros _ f1 ->.
  assert (foldl (fun ms lane => if nz (eff !!! lane)
      then invalidate (u64 (beat_at p i - Z.of_nat (beat_first p i) + Z.of_nat lane)) ms else ms)
      (monitors_ f) (seq (beat_first p i) (beat_count p i))
    = invalidate_bytes (beat_at p i) strobes (monitors_ f)) as Hfold.
  { rewrite foldl_shift. unfold invalidate_bytes. rewrite Hlst. apply foldl_ext_in.
    intros ms k Hk%elem_of_seq. rewrite Hnz by lia. destruct (nz _); [|done]. f_equal.
    rewrite u64_small; [lia | unfold fits; lia]. }
  wp_steps. cbn zeta. repeat match goal with |- context [f_heap ?g] => progress change (f_heap g) with h' end.
  destruct (is_exit h' (map_device m)); cbn [andb].
  - unfold set_write_route. wp_steps. split; [done|].
    destruct (rb_set_front_spec RouteDepth (write_routes_ f)
      (wr <| wt_exit_response := true |> <| wt_exit_code := device_exit_code h' (map_device m) |>) Hq)
      as [Hw' Hl']. rewrite Hl in Hl'.
    eexists _, _. split; [exact Hw'|]. split; [exact Hl'|]. simpl. by rewrite Hfold.
  - wp_steps. split; [done|]. exists (write_routes_ f), wr. split_and!; try done. simpl. by rewrite Hfold.
Qed.
End Beats.
