(* ===== verification/FabricWrites.v ===== *)
(** * Write bursts ([process_write_commit], [finish_exclusive_write], [process_write_beat]) *)
From S2P Require Import Prelude RingBuffer Axi Device Fabric FabricSpec FabricPorts FabricRoutes.
From S2P Require Import FabricInv FabricBeats.

Section Writes.
Context {cfg : FabricConfig} `{!FabricConfigOk cfg} {H : Type} `{!DeviceHeap H, !DeviceHeapLaws H}.
Implicit Types (f : Fabric H) (v : View H) (sp : AddressSpace) (p : AddressPayload).

(** ** The bytes of an exclusive burst *)
Section Gather.
Context (sp : AddressSpace) (wr : WriteRoute) (Hwr : write_wf sp wr)
  (Hx : rt_exclusive (wt_route wr) = true).
Local Abbreviation p := (rt_payload (wt_route wr)).

(** A burst aligned to its size is made of whole beats, side by side. *)
Lemma exclusive_beat i :
  (i < burst_beats p)%nat ->
  beat_at p i = ap_address p + Z.of_nat i * burst_bytes p /\
  Z.of_nat (beat_count p i) = burst_bytes p.
Proof.
  intros Hi. pose proof (ww_static _ _ Hwr) as Hst.
  destruct (rs_exclusive _ _ Hst Hx) as (Hb & _ & _ & _ & Ha).
  destruct (rs_payload _ _ Hst) as [Hpw _].
  pose proof (burst_bytes_bound DATA_BYTES p Hpw (rs_shape _ _ Hst)) as HB.
  assert (ap_address p mod burst_bytes p = 0) as Ha'.
  { apply Z.mod_divide; [lia|]. apply Z.mod_divide in Ha.
    - apply Z.divide_trans with (burst_total p); [|done]. unfold burst_total. apply Z.divide_factor_r.
    - unfold burst_total. pose proof (burst_beats_bound p Hpw). nia. }
  assert (beat_at p i = ap_address p + Z.of_nat i * burst_bytes p) as Hat.
  { unfold beat_at, beat_address_spec. rewrite Hb, Ha'.
    destruct (Nat.eqb_spec i 0) as [->|]; lia. }
  split; [done|]. unfold beat_count, lane_count. rewrite Hat, Z.mod_add, Ha' by lia. lia.
Qed.

Lemma exclusive_total : Z.to_nat (burst_total p) = (burst_beats p * Z.to_nat (burst_bytes p))%nat.
Proof.
  destruct (rs_payload _ _ (ww_static _ _ Hwr)) as [Hpw _].
  pose proof (burst_bytes_bound DATA_BYTES p Hpw (rs_shape _ _ (ww_static _ _ Hwr))).
  unfold burst_total. rewrite Z2Nat.inj_mul, Nat2Z.id by lia. done.
Qed.

(** The byte [k] of beat [i] is byte [i * bytes + k] of the burst. *)
Lemma staged_byte_of_beat staged i k :
  (i < burst_beats p)%nat -> (k < beat_count p i)%nat ->
  staged_byte staged p (i * Z.to_nat (burst_bytes p) + k)
    = (staged !!! i) !!! (beat_first p i + k)%nat.
Proof.
  intros Hi Hk. destruct (exclusive_beat i Hi) as [Hat Hc].
  destruct (static_beat_facts sp _ i (ww_static _ _ Hwr) Hi) as (_ & _ & H0 & _ & Hc1 & Hd).
  unfold staged_byte.
  assert (Z.of_nat (i * Z.to_nat (burst_bytes p) + k) = Z.of_nat i * burst_bytes p + Z.of_nat k) as Hz by lia.
  rewrite Hz, Z.div_add_l, (Z.div_small (Z.of_nat k)), Z.add_0_r, Nat2Z.id by lia.
  replace (ap_address p + (Z.of_nat i * burst_bytes p + Z.of_nat k)) with (beat_at p i + Z.of_nat k) by lia.
  assert (Z.of_nat (beat_first p i) = beat_at p i mod Z.of_nat DATA_BYTES) as Hf.
  { unfold beat_first, first_lane. pose proof (Z.mod_pos_bound (beat_at p i) (Z.of_nat DATA_BYTES)). lia. }
  rewrite <- Z.add_mod_idemp_l, <- Hf, Z.mod_small by lia. f_equal. lia.
Qed.

Lemma gather_beat_eq i d s :
  (i < burst_beats p)%nat ->
  gather_beat wr (beat_at p i - Z.of_nat (beat_first p i))
    (lane_window DATA_BYTES (beat_first p i) (beat_count p i)) i (d, s) =
  (masked_copy (beat_count p i) (fun _ => true) (i * Z.to_nat (burst_bytes p))
     (fun k => staged_byte (wt_staged_data wr) p (i * Z.to_nat (burst_bytes p) + k)) d,
   masked_copy (beat_count p i) (fun _ => true) (i * Z.to_nat (burst_bytes p))
     (fun k => b2z (nz (staged_byte (wt_staged_strobe wr) p (i * Z.to_nat (burst_bytes p) + k)))) s).
Proof.
  intros Hi. destruct (exclusive_beat i Hi) as [Hat Hc].
  destruct (static_beat_facts sp _ i (ww_static _ _ Hwr) Hi) as (_ & _ & H0 & Htop & Hc1 & Hd).
  unfold gather_beat.
  set (put := fun (acc : list Z * list Z) (lane : nat) =>
    let index := Z.to_nat (u64 (beat_at p i - Z.of_nat (beat_first p i) + Z.of_nat lane - ap_address p)) in
    (<[index := (wt_staged_data wr !!! i) !!! lane]> acc.1,
     <[index := b2z (nz ((wt_staged_strobe wr !!! i) !!! lane))]> acc.2)).
  transitivity (foldl (fun acc lane =>
    if lane_window DATA_BYTES (beat_first p i) (beat_count p i) !!! lane =? 0 then acc else put acc lane)
    (d, s) (seq 0 DATA_BYTES)).
  { apply foldl_ext_in. intros [d' s'] lane _. by destruct (_ =? 0). }
  rewrite foldl_window, foldl_shift by done. unfold masked_copy.
  assert (forall l, Forall (fun k => (k < beat_count p i)%nat) l -> forall d s,
    foldl (fun acc k => put acc (beat_first p i + k)%nat) (d, s) l =
    (foldl (fun a k => <[(i * Z.to_nat (burst_bytes p) + k)%nat :=
       staged_byte (wt_staged_data wr) p (i * Z.to_nat (burst_bytes p) + k)]> a) d l,
     foldl (fun a k => <[(i * Z.to_nat (burst_bytes p) + k)%nat :=
       b2z (nz (staged_byte (wt_staged_strobe wr) p (i * Z.to_nat (burst_bytes p) + k)))]> a) s l)) as Hall.
  { induction 1 as [|k l Hk _ IH]; intros d' s'; [done|]. simpl. rewrite <- IH. f_equal. unfold put.
    rewrite !staged_byte_of_beat by done. cbn [fst snd].
    replace (beat_at p i - Z.of_nat (beat_first p i) + Z.of_nat (beat_first p i + k) - ap_address p)
      with (Z.of_nat (i * Z.to_nat (burst_bytes p) + k)) by lia.
    rewrite u64_small, Nat2Z.id; [done|].
    destruct (rs_payload _ _ (ww_static _ _ Hwr)) as [(_ & [Ha _] & _) _].
    unfold fits. lia. }
  apply Hall, Forall_forall. intros k Hk%elem_of_seq. lia.
Qed.

(** The first [n] beats have been gathered. *)
Definition gathered (n : nat) (val : nat -> Z) (l : list Z) : Prop :=
  length l = MAX_EXCLUSIVE_BYTES /\
  forall j, (j < n * Z.to_nat (burst_bytes p))%nat -> l !!! j = val j.

Lemma gathered_step n val l :
  (n < burst_beats p)%nat -> gathered n val l ->
  gathered (S n) val (masked_copy (beat_count p n) (fun _ => true) (n * Z.to_nat (burst_bytes p))
    (fun k => val (n * Z.to_nat (burst_bytes p) + k)%nat) l).
Proof.
  intros Hn [Hl Hval]. split; [by rewrite masked_copy_length|]. intros j Hj.
  destruct (exclusive_beat n Hn) as [_ Hc].
  pose proof (ww_static _ _ Hwr) as Hst. destruct (rs_exclusive _ _ Hst Hx) as (_ & _ & Ht & _).
  assert (Z.to_nat (burst_total p) <= MAX_EXCLUSIVE_BYTES)%nat as Ht'
    by (unfold MAX_EXCLUSIVE_BYTES; lia).
  rewrite exclusive_total in Ht'.
  assert (S n * Z.to_nat (burst_bytes p) <= burst_beats p * Z.to_nat (burst_bytes p))%nat by nia.
  rewrite masked_copy_lookup by (rewrite Hl; lia). rewrite andb_true_r.
  case_bool_decide as Hin; [f_equal; lia|]. apply Hval. simpl in Hj. lia.
Qed.

Lemma gather_beats_spec :
  exists d s, gather_beats wr (cursor_of p) (seq 0 (burst_beats p))
                (replicate MAX_EXCLUSIVE_BYTES 0, replicate MAX_EXCLUSIVE_BYTES 0) = Ok (d, s) /\
    gathered (burst_beats p) (staged_byte (wt_staged_data wr) p) d /\
    gathered (burst_beats p) (fun k => b2z (nz (staged_byte (wt_staged_strobe wr) p k))) s.
Proof.
  assert (forall m n d s, (n + m = burst_beats p)%nat ->
    gathered n (staged_byte (wt_staged_data wr) p) d ->
    gathered n (fun k => b2z (nz (staged_byte (wt_staged_strobe wr) p k))) s ->
    exists d' s', gather_beats wr (cursor_of p) (seq n m) (d, s) = Ok (d', s') /\
      gathered (burst_beats p) (staged_byte (wt_staged_data wr) p) d' /\
      gathered (burst_beats p) (fun k => b2z (nz (staged_byte (wt_staged_strobe wr) p k))) s') as Hind.
  { induction m as [|m IH]; intros n d s Hn Hd Hs.
    - rewrite Nat.add_0_r in Hn. subst n. by exists d, s.
    - destruct (static_beat_facts sp _ n (ww_static _ _ Hwr)) as (Hbase & Hmask & _); [lia|].
      cbn [seq gather_beats]. rewrite Hbase, Hmask. cbn [rbind].
      rewrite gather_beat_eq by lia. apply IH; [lia | by apply gathered_step; [lia|]..]. }
  apply Hind; [done | |]; (split; [by rewrite length_replicate | simpl; lia]).
Qed.

Lemma gathered_take val l :
  gathered (burst_beats p) val l ->
  take (Z.to_nat (burst_total p)) l = val <$> seq 0 (Z.to_nat (burst_total p)).
Proof.
  intros [Hl Hval]. pose proof (ww_static _ _ Hwr) as Hst.
  destruct (rs_exclusive _ _ Hst Hx) as (_ & _ & Ht & _).
  assert (Z.to_nat (burst_total p) <= MAX_EXCLUSIVE_BYTES)%nat by (unfold MAX_EXCLUSIVE_BYTES; lia).
  apply list_eq_total; rewrite length_take, ?length_fmap, ?length_seq; [lia|].
  intros j Hj. rewrite lookup_total_take_lt by lia. rewrite Hval by (rewrite <- exclusive_total; lia).
  symmetry. apply list_lookup_total_correct. by rewrite list_lookup_fmap, seq_lookup_lt by lia.
Qed.
End Gather.

(** ** Exclusive writes *)
Lemma find_index_lookup {A} `{!Inhabited A} (g : A -> bool) l i :
  find_index g l = Some i -> l !! i = Some (l !!! i).
Proof.
  revert i. induction l as [|x l IH]; intros i; simpl; [done|].
  destruct (g x); [by intros [= <-]|]. intros (j & Hj & ->)%fmap_Some. by apply IH.
Qed.

(** The states that differ from [f] in the heap, the monitors and the write
    routes, whose front is being replaced. *)
Definition rewritten f (ws : list WriteRoute) (h' : H) (ms : list ExclusiveMonitor) f' : Prop :=
  exists q x, rb_wf RouteDepth q /\ rb_list RouteDepth q = x :: ws /\
    f' = f <| f_heap := h' |> <| monitors_ := ms |> <| write_routes_ := q |>.

Lemma set_write_route_spec f ws h' ms wr f1 :
  rewritten f ws h' ms f1 ->
  wp (set_write_route wr) (fun _ f' => exists q, rb_wf RouteDepth q /\ rb_list RouteDepth q = wr :: ws /\
    f' = f <| f_heap := h' |> <| monitors_ := ms |> <| write_routes_ := q |>) no_error f1.
Proof.
  intros (q & x & Hq & Hl & ->). unfold set_write_route. wp_steps.
  destruct (rb_set_front_spec RouteDepth q wr Hq) as [Hq' Hl']. rewrite Hl in Hl'.
  eexists. split; [exact Hq'|]. split; [exact Hl' | done].
Qed.

Lemma finish_spec f ws h' ms wr f1 port id :
  rewritten f ws h' ms f1 ->
  wp (set_write_route wr ;;; clear_monitor port id ;;; ret wr)
    (fun wr' f' => wr' = wr /\ rewritten f ws h' (release port id ms) f') no_error f1.
Proof.
  intros Hf. wp_steps. eapply wp_mono; [by apply set_write_route_spec | | done].
  intros _ f2 (q & Hq & Hl & ->). unfold clear_monitor. wp_steps. split; [done|].
  exists q, wr. split; [done|]. split; [done|]. unfold find_monitor, release. simpl.
  by destruct (find_index _ ms).
Qed.

Lemma rewritten_refl f wr ws :
  rb_wf RouteDepth (write_routes_ f) -> rb_list RouteDepth (write_routes_ f) = wr :: ws ->
  rewritten f ws (f_heap f) (monitors_ f) f.
Proof. intros Hq Hl. exists (write_routes_ f), wr. split_and!; try done. by destruct f. Qed.

Lemma perform_exclusive_write_spec sp f wr ws m :
  space_wf sp -> write_wf sp wr -> rt_exclusive (wt_route wr) = true ->
  m ∈ mappings_ sp -> covers m (rt_payload (wt_route wr)) ->
  rb_wf RouteDepth (write_routes_ f) -> rb_list RouteDepth (write_routes_ f) = wr :: ws ->
  let p := rt_payload (wt_route wr) in
  let '(resp, h') := write_impl (map_device m) (ap_address p - map_base m)
                       (exclusive_bytes wr) (exclusive_strobes wr) (f_heap f) in
  wp (perform_exclusive_write wr m (cursor_of p))
    (fun wr' f' =>
       wr' = wr <| wt_response := if response_is_success resp then ExclusiveOkay else resp |> /\
       rewritten f ws h' (if response_is_success resp
         then invalidate_bytes (ap_address p) (exclusive_strobes wr) (monitors_ f) else monitors_ f) f')
    no_error f.
Proof.
  intros Hsp Hwr Hx Hm Hcov Hq Hl. cbv zeta. destruct (write_impl _ _ _ _ _) as [resp h'] eqn:Hwi.
  pose proof (ww_static _ _ Hwr) as Hst. destruct (rs_payload _ _ Hst) as [Hpw Hlast].
  pose proof (burst_beats_bound _ Hpw).
  destruct (exclusive_beat sp wr Hwr Hx 0 ltac:(lia)) as [Hat Hc]. rewrite Z.mul_0_l, Z.add_0_r in Hat.
  assert (1 <= burst_total (rt_payload (wt_route wr)) <= 128) as Htot.
  { pose proof (burst_bytes_bound DATA_BYTES _ Hpw (rs_shape _ _ Hst)).
    destruct (rs_exclusive _ _ Hst Hx) as (_ & _ & Ht & _). unfold burst_total in *. nia. }
  destruct (gather_beats_spec sp wr Hwr Hx) as (d & s & Hg & Hgd & Hgs).
  pose proof (gathered_take sp wr Hwr Hx _ _ Hgd) as Htd.
  pose proof (gathered_take sp wr Hwr Hx _ _ Hgs) as Hts.
  unfold perform_exclusive_write. wp_steps. eapply wp_lift_ok; [exact Hg|].
  cbv beta iota zeta. wp_steps.
  change (Z.of_nat (beats_ (cursor_of (rt_payload (wt_route wr)))) *
    beat_bytes_ (cursor_of (rt_payload (wt_route wr)))) with (burst_total (rt_payload (wt_route wr))).
  rewrite Htd, Hts. fold (exclusive_bytes wr) (exclusive_strobes wr).
  assert (u64 (ap_address (rt_payload (wt_route wr)) - map_base m)
          = ap_address (rt_payload (wt_route wr)) - map_base m) as ->.
  { rewrite <- Hat. apply (device_offset sp m _ (Z.of_nat (beat_count (rt_payload (wt_route wr)) 0)));
      try done; [apply Hcov|]; lia. }
  assert (length (exclusive_bytes wr) = Z.to_nat (burst_total (rt_payload (wt_route wr))) /\
          length (exclusive_strobes wr) = Z.to_nat (burst_total (rt_payload (wt_route wr)))) as [Hl1 Hl2].
  { unfold exclusive_bytes, exclusive_strobes. by rewrite !length_fmap, !length_seq. }
  unfold on_heap at 1, wp at 1. rewrite device_write_ok.
  2:{ by rewrite Hl1, Hl2. } 2:{ intros E. rewrite E in Hl1. simpl in Hl1. lia. }
  rewrite Hwi. wp_steps.
  eapply wp_mono; [apply (set_write_route_spec f ws h' (monitors_ f)) | | done].
  { exists (write_routes_ f), wr. by split_and!. }
  intros _ f1 (q & Hq1 & Hl1' & ->). wp_steps.
  destruct (response_is_success resp).
  2:{ wp_steps. split; [done|]. by eexists _, _. }
  eapply wp_mono; [apply invalidate_loop | | done]. intros _ f2 ->. wp_steps. split; [done|].
  exists q, (wr <| wt_response := ExclusiveOkay |>). split; [done|]. split; [done|].
  simpl. f_equal. unfold invalidate_bytes. rewrite Hl2. apply foldl_ext_in. intros ms k Hk%elem_of_seq.
  destruct Hgs as [_ Hgs]. rewrite Hgs by (rewrite <- (exclusive_total sp wr Hwr); lia).
  assert (exclusive_strobes wr !!! k
          = b2z (nz (staged_byte (wt_staged_strobe wr) (rt_payload (wt_route wr)) k))) as ->.
  { apply list_lookup_total_correct. unfold exclusive_strobes. by rewrite list_lookup_fmap, seq_lookup_lt by lia. }
  destruct (nz _); [|done]. f_equal. destruct Hpw as (_ & [Ha _] & _).
  apply u64_small. unfold fits. lia.
Qed.

Lemma finish_exclusive_write_spec sp f wr ws :
  space_wf sp -> write_wf sp wr -> rt_exclusive (wt_route wr) = true ->
  rb_wf RouteDepth (write_routes_ f) -> rb_list RouteDepth (write_routes_ f) = wr :: ws ->
  wp (finish_exclusive_write wr (cursor_of (rt_payload (wt_route wr))))
    (fun wr' f' => wr' = (write_exclusive wr (view f)).1 /\
       rewritten f ws (v_heap (write_exclusive wr (view f)).2) (v_monitors (write_exclusive wr (view f)).2) f')
    no_error f.
Proof.
  intros Hsp Hwr Hx Hq Hl. pose proof (rewritten_refl f wr ws Hq Hl) as Hf.
  pose proof (rs_mapping _ _ (ww_static _ _ Hwr)) as Hmap.
  unfold finish_exclusive_write, write_exclusive, served. simpl v_monitors. simpl v_heap.
  destruct (rt_forced_response (wt_route wr)); try by apply finish_spec.
  destruct (rt_mapping (wt_route wr)) as [m|]; [|by apply finish_spec]. destruct Hmap as [Hm Hcov].
  wp_steps. unfold monitor_of, find_monitor.
  destruct (find_index _ (monitors_ f)) as [slot|] eqn:Hfind; simpl; [|by apply finish_spec].
  rewrite (find_index_lookup _ _ _ Hfind). case_bool_decide; [|by apply finish_spec].
  wp_steps. pose proof (perform_exclusive_write_spec sp f wr ws m Hsp Hwr Hx Hm Hcov Hq Hl) as Hw.
  cbv zeta in Hw. destruct (write_impl _ _ _ _ _) as [resp h'].
  eapply wp_mono; [exact Hw | | done]. intros wr' f1 [-> Hr]. by apply finish_spec.
Qed.

(** ** process_write_commit *)

(** The B response of a completed burst. *)
Lemma complete_write_route_spec e f wr ws h' ms f1 b :
  shape f -> (rt_port (wt_route wr) < NumPorts)%nat ->
  (length (q_b (pv (view f) (rt_port (wt_route wr)))) < ResponseDepth)%nat ->
  rewritten (f <| suppress_read_this_cycle_ := b |>) ws h' ms f1 ->
  step (address_space_ f) (view f) e
    (complete wr ws ((view f) <| v_heap := h' |> <| v_monitors := ms |>)) ->
  wp (complete_write_route wr) (fun _ f' => reaches [e] f f' /\ suppress_read_this_cycle_ f' = b /\ f_heap f' = h')
    no_error f1.
Proof.
  intros Hs Hp Hl (q & x & Hq & Hlq & ->) Hst. rewrite pv_view in Hl by done.
  pose proof (port_of_wf f _ Hs Hp) as Hw.
  destruct (rb_push_cases ResponseDepth _ (write_response wr) (pw_b _ Hw) Hl) as (rb' & Hpush & Hwf' & Hlist).
  destruct (rb_pop_cases RouteDepth q x ws Hq Hlq) as (_ & q' & Hpop & Hq' & Hlq').
  unfold complete_write_route, push_b, pop_write_route, on_port. wp_steps.
  eapply wp_lift_ok; [exact Hpop|]. wp_steps. split; [|done]. fold (write_response wr).
  set (f1 := f <| suppress_read_this_cycle_ := b |> <| f_heap := h' |> <| monitors_ := ms |>
               <| write_routes_ := q' |>).
  change (reaches [e] f (f1 <| ports_ ::= alter (fun s => s <| p_b ::=
    fun l => (rb_push ResponseDepth (write_response wr) l).2 |>) (rt_port (wt_route wr)) |>)).
  eapply (reaches_port _ f f1 (rt_port (wt_route wr)) _
    (fun q => q <| q_b ::= fun l => l ++ [write_response wr] |>)
    ((view f) <| v_heap := h' |> <| v_monitors := ms |> <| v_writes := ws |>)); try done.
  - destruct Hs. by constructor.
  - unfold view. simpl. by rewrite Hlq'.
  - change (port_of f1) with (port_of f). unfold port_view. simpl. rewrite Hpush. simpl. by rewrite Hlist.
  - change (port_of f1) with (port_of f). intros []. constructor; simpl; try done. by rewrite Hpush.
Qed.

(** A burst that goes on. *)
Lemma keep_write_route e f wr ws h' ms q b :
  shape f -> rb_wf RouteDepth q -> rb_list RouteDepth q = wr :: ws ->
  step (address_space_ f) (view f) e
    ((view f) <| v_heap := h' |> <| v_monitors := ms |> <| v_writes := wr :: ws |>) ->
  reaches [e] f (f <| suppress_read_this_cycle_ := b |> <| f_heap := h' |> <| monitors_ := ms |>
                   <| write_routes_ := q |>).
Proof.
  intros Hs Hq Hl Hst. constructor; try done; [by destruct Hs; constructor|].
  apply steps_one. unfold view at 2. simpl. by rewrite Hl.
Qed.

(** What a cycle does with a write burst: actions of the fabric's own, at most
    one of them a device access, and none if reads are not suppressed. *)
Definition write_outcome f f' : Prop :=
  exists es, reaches es f f' /\ Forall (fun e => external e = false) es /\
    (length (filter (fun e => device_event e) es) <= 1)%nat /\
    (suppress_read_this_cycle_ f' = false -> Forall (fun e => device_event e = false) es) /\
    (es = [] -> write_blocked (view f) /\ suppress_read_this_cycle_ f' = suppress_read_this_cycle_ f).

Lemma write_outcome_refl f : shape f -> write_blocked (view f) -> write_outcome f f.
Proof.
  intros Hs Hb. exists []. split; [by apply reaches_refl|]. split_and!; [done | simpl; lia | done..].
Qed.

Lemma write_outcome_one f e f' :
  reaches [e] f f' -> external e = false ->
  suppress_read_this_cycle_ f' = true \/ device_event e = false -> write_outcome f f'.
Proof.
  intros Hr He Hsup. exists [e]. split; [done|]. split; [by constructor|]. split.
  - rewrite filter_cons. destruct (decide _); simpl; lia.
  - split; [|done]. destruct Hsup as [->|]; [done|]. by constructor.
Qed.

Lemma write_exclusive_frame wr v :
  (write_exclusive wr v).2 = v <| v_heap := v_heap (write_exclusive wr v).2 |>
                               <| v_monitors := v_monitors (write_exclusive wr v).2 |>.
Proof. destruct v. unfold write_exclusive. by repeat case_match. Qed.

Section Commit.
Context (f : Fabric H) (Hf : fabric_wf f) (wr : WriteRoute) (ws : list WriteRoute)
  (Hl : rb_list RouteDepth (write_routes_ f) = wr :: ws) (Hc : wt_data_complete wr = true)
  (Hroom : (length (q_b (pv (view f) (rt_port (wt_route wr)))) < ResponseDepth)%nat).

Lemma commit_front : write_wf (address_space_ f) wr /\ (rt_port (wt_route wr) < NumPorts)%nat.
Proof. destruct (front_write _ _ wr ws (fw_view f Hf) Hl) as (? & ? & _). done. Qed.

Lemma commit_exclusive :
  rt_exclusive (wt_route wr) = true ->
  wp (suppress_read ;;; do wr := finish_exclusive_write wr (cursor_of (rt_payload (wt_route wr))) in
      complete_write_route wr) (fun _ f' => write_outcome f f') no_error f.
Proof.
  intros Hx. destruct commit_front as [Hwr Hp]. destruct Hf as [Hsp Hs Hv].
  unfold suppress_read. wp_steps. set (f0 := f <| suppress_read_this_cycle_ := true |>).
  eapply wp_mono; [apply (finish_exclusive_write_spec (address_space_ f) f0 wr ws); try done; apply Hs | | done].
  change (view f0) with (view f). intros wr' f1 [-> Hr].
  pose proof (write_exclusive_ports wr (view f)) as [_ Er].
  pose proof (step_write_exclusive (address_space_ f) (view f) wr ws Hl Hc Hx Hroom) as Hstep.
  pose proof (write_exclusive_frame wr (view f)) as Ev. destruct (write_exclusive wr (view f)) as [wr' v']. simpl fst in *. simpl snd in *.
  eapply wp_mono; [eapply (complete_write_route_spec _ f wr' ws) | | done];
    rewrite ?Er; [done | done | done | exact Hr | by rewrite <- Ev |].
  intros _ f2 (Hr2 & Hsup & _). eapply write_outcome_one; [exact Hr2 | done | auto].
Qed.

Lemma commit_rejected wr' :
  rt_exclusive (wt_route wr) = false -> served (wt_route wr) = None ->
  wr' = wr <| wt_response ::= fun x => combine_response x (rt_forced_response (wt_route wr)) |> ->
  wp (set_write_route wr' ;;; complete_write_route wr') (fun _ f' => write_outcome f f') no_error f.
Proof.
  intros Hx Hserved ->. destruct commit_front as [Hwr Hp]. destruct Hf as [Hsp Hs Hv].
  wp_steps. eapply wp_mono; [eapply set_write_route_spec, rewritten_refl; [apply Hs | exact Hl] | | done].
  intros _ f1 (q & Hq1 & Hl1 & ->).
  pose proof (step_write_rejected (address_space_ f) (view f) wr ws Hl Hc Hx Hserved Hroom) as Hstep.
  eapply wp_mono; [eapply (complete_write_route_spec _ f _ ws (f_heap f) (monitors_ f) _
    (suppress_read_this_cycle_ f)); [done | done | done | | exact Hstep] | | done].
  { eexists q, _. split; [done|]. split; [exact Hl1 | done]. }
  intros _ f2 (Hr2 & _ & Hh). eapply write_outcome_one; [exact Hr2 | done | auto].
Qed.

Lemma commit_device m :
  rt_exclusive (wt_route wr) = false -> served (wt_route wr) = Some m ->
  let p := rt_payload (wt_route wr) in
  let beat := wt_commit_beat wr in
  wp (suppress_read ;;;
      do answer := write_device_beat wr m (cursor_of p) beat
                     (wt_staged_data wr !!! beat) (wt_staged_strobe wr !!! beat) in
      let (response, wr) := answer in
      let wr := wr <| wt_response ::= fun x => combine_response x response |>
                   <| wt_commit_beat := if response_is_success response then S beat
                                        else beats_ (cursor_of p) |> in
      set_write_route wr ;;;
      when (wt_commit_beat wr =? beats_ (cursor_of p))%nat (complete_write_route wr))
    (fun _ f' => write_outcome f f') no_error f.
Proof.
  intros Hx Hserved p beat. destruct commit_front as [Hwr Hp]. destruct Hf as [Hsp Hs Hv].
  assert (m ∈ mappings_ (address_space_ f) /\ covers m p) as [Hm Hcov].
  { pose proof (rs_mapping _ _ (ww_static _ _ Hwr)) as Hmap. unfold served in Hserved.
    destruct (rt_forced_response (wt_route wr)); try done. by rewrite Hserved in Hmap. }
  unfold suppress_read. wp_steps. set (f0 := f <| suppress_read_this_cycle_ := true |>).
  pose proof (step_write_device (address_space_ f) (view f) wr ws m Hl Hc Hx Hserved Hroom) as Hstep.
  pose proof (write_device_beat_spec (address_space_ f) f0 wr ws m Hsp Hwr Hm Hcov (sh_writes f Hs) Hl) as Hw.
  unfold write_beat in Hstep. cbv zeta in Hw, Hstep. fold p beat in Hw, Hstep.
  change (f_heap f0) with (f_heap f) in Hw. change (v_heap (view f)) with (f_heap f) in Hstep.
  destruct (write_impl _ _ _ _ _) as [resp h']. fold (exit_marked wr m resp h') in Hstep.
  eapply wp_mono; [exact Hw | | done]. clear Hw.
  intros answer f1 [-> (q & x & Hq & Hlq & ->)]. cbv beta iota zeta.
  set (ms := if response_is_success resp
    then invalidate_bytes (beat_at p beat) (beat_strobes (wt_staged_strobe wr !!! beat) p beat) (monitors_ f)
    else monitors_ f).
  change (beats_ (cursor_of p)) with (burst_beats p).
  set (wr' := update wt_commit_beat _ _) in *.
  assert (wt_route wr' = wt_route wr) as Er by (unfold wr', exit_marked; by destruct (_ && _)).
  wp_steps. eapply wp_mono; [eapply (set_write_route_spec f0 ws h' ms) | | done].
  { exists q, x. split; [done|]. split; [done|]. unfold ms. done. }
  intros _ f2 (q' & Hq' & Hl' & ->).
  match type of Hstep with step _ _ _ (advance _ _ ?v') =>
    change v' with ((view f) <| v_heap := h' |> <| v_monitors := ms |>) in Hstep end.
  unfold advance in Hstep. rewrite Er in Hstep. fold p in Hstep.
  destruct (wt_commit_beat wr' =? burst_beats p)%nat.
  - eapply wp_mono; [eapply (complete_write_route_spec _ f wr' ws h' ms _ true) | | done];
      rewrite ?Er; [done | done | done | by exists q', wr' | exact Hstep |].
    intros _ f3 (Hr2 & Hsup & _). eapply write_outcome_one; [exact Hr2 | done | auto].
  - apply wp_ret. eapply write_outcome_one; [by eapply (keep_write_route _ f wr' ws h' ms q' true) | done | auto].
Qed.
End Commit.

Lemma process_write_commit_spec f wr ws :
  fabric_wf f -> rb_list RouteDepth (write_routes_ f) = wr :: ws -> wt_data_complete wr = true ->
  wp (process_write_commit wr (cursor_of (rt_payload (wt_route wr))))
    (fun _ f' => write_outcome f f') no_error f.
Proof.
  intros Hf Hl Hc. destruct (commit_front f Hf wr ws Hl) as [Hwr Hp]. pose proof (fw_shape f Hf) as Hs.
  unfold process_write_commit. wp_steps.
  destruct (rb_full ResponseDepth (p_b (port_of f (rt_port (wt_route wr))))) eqn:Hfull.
  { apply wp_ret. apply write_outcome_refl; [done|]. unfold write_blocked. simpl v_writes.
    rewrite Hl, Hc, pv_view by done. apply rb_is_full; [by apply port_of_wf | done]. }
  apply rb_not_full in Hfull as Hroom; [|by apply port_of_wf].
  assert (length (q_b (pv (view f) (rt_port (wt_route wr)))) < ResponseDepth)%nat as Hroomv by by rewrite pv_view.
  destruct (rt_exclusive (wt_route wr)) eqn:Hx; [by eapply commit_exclusive|].
  destruct (rt_forced_response (wt_route wr)) eqn:Hforced;
    try (rewrite <- Hforced; eapply commit_rejected; try done; unfold served; by rewrite Hforced).
  destruct (rt_mapping (wt_route wr)) as [m|] eqn:Hm.
  - eapply commit_device; try done. unfold served. by rewrite Hforced.
  - rewrite <- Hforced. eapply commit_rejected; try done. unfold served. by rewrite Hforced.
Qed.

(** ** process_write_beat *)
Lemma strobe_is_legal_spec p i strobe :
  strobe_is_legal strobe (lane_window DATA_BYTES (beat_first p i) (beat_count p i)) = true ->
  legal_strobes p i strobe.
Proof.
  unfold strobe_is_legal. rewrite forallb_forall. intros Hall lane Hlane Hnz.
  specialize (Hall lane ltac:(apply in_seq; lia)). rewrite Hnz, lane_window_lookup, nz_b2z in Hall by done.
  simpl in Hall. destruct (Nat.leb_spec (beat_first p i) lane),
    (Nat.ltb_spec lane (beat_first p i + beat_count p i)); simpl in Hall; try done.
Qed.

(** The state after a W beat was taken: the front route is the staged one. *)
Lemma stage_reaches f wr ws w rest q wq :
  shape f -> (rt_port (wt_route wr) < NumPorts)%nat ->
  rb_list RouteDepth (write_routes_ f) = wr :: ws -> wt_data_complete wr = false ->
  q_w (pv (view f) (rt_port (wt_route wr))) = w :: rest ->
  wd_last w = (S (rt_beat (wt_route wr)) =? burst_beats (rt_payload (wt_route wr)))%nat ->
  legal_strobes (rt_payload (wt_route wr)) (rt_beat (wt_route wr)) (wd_strobe w) ->
  rb_wf RouteDepth q -> rb_list RouteDepth q = stage wr w :: ws ->
  rb_wf WriteDataDepth wq -> rb_list WriteDataDepth wq = rest ->
  reaches [StageW (rt_port (wt_route wr))] f
    (f <| write_routes_ := q |>
       <| ports_ ::= alter (fun s => s <| p_w := wq |>) (rt_port (wt_route wr)) |>).
Proof.
  intros Hs Hp Hl Hinc Hq Hlast Hstr Hwq Hlq Hww Hlw.
  eapply (reaches_port _ f (f <| write_routes_ := q |>) _ _ (fun q => q <| q_w := rest |>)
    ((view f) <| v_writes := stage wr w :: ws |>)); try done.
  - destruct Hs. by constructor.
  - unfold view. simpl. by rewrite Hlq.
  - unfold port_view. simpl. by rewrite Hlw.
  - intros []. by constructor.
  - by eapply step_stage_w.
Qed.

Lemma reaches_wf es f f' : fabric_wf f -> reaches es f f' -> fabric_wf f'.
Proof.
  intros [Hsp Hs Hv] [Ha Hb Hc Hd He _]. constructor; rewrite ?Ha; try done. by eapply steps_wf.
Qed.

Lemma write_outcome_after e f f1 f2 :
  reaches [e] f f1 -> external e = false -> device_event e = false ->
  write_outcome f1 f2 -> write_outcome f f2.
Proof.
  intros Hr He Hd (es & Hr2 & Hall & Hlen & Hsup & _). exists (e :: es).
  split; [exact (reaches_trans [e] es _ _ _ Hr Hr2)|]. split; [by constructor|].
  split; [by rewrite filter_no|]. split; [by intros ?; constructor; auto | done].
Qed.

Lemma set_front_list (q : RingBuffer WriteRoute) wr wr' ws :
  rb_wf RouteDepth q -> rb_list RouteDepth q = wr :: ws ->
  rb_wf RouteDepth (rb_set_front wr' q) /\ rb_list RouteDepth (rb_set_front wr' q) = wr' :: ws.
Proof. intros Hq Hl. pose proof (rb_set_front_spec RouteDepth q wr' Hq) as Hs. by rewrite Hl in Hs. Qed.

Lemma stage_write_beat_spec f wr ws w rest :
  fabric_wf f -> rb_list RouteDepth (write_routes_ f) = wr :: ws -> wt_data_complete wr = false ->
  rb_list WriteDataDepth (p_w (port_of f (rt_port (wt_route wr)))) = w :: rest ->
  wd_last w = (S (rt_beat (wt_route wr)) =? burst_beats (rt_payload (wt_route wr)))%nat ->
  legal_strobes (rt_payload (wt_route wr)) (rt_beat (wt_route wr)) (wd_strobe w) ->
  wp (stage_write_beat wr w (S (rt_beat (wt_route wr)) =? burst_beats (rt_payload (wt_route wr)))%nat
        (cursor_of (rt_payload (wt_route wr))))
    (fun _ f' => write_outcome f f') no_error f.
Proof.
  intros Hf Hl Hinc Hlw Hlast Hstr. destruct (commit_front f Hf wr ws Hl) as [Hwr Hp].
  pose proof (fw_shape f Hf) as Hs.
  destruct (rb_pop_cases _ _ _ _ (pw_w _ (port_of_wf f _ Hs Hp)) Hlw) as (_ & wq & Hpop & Hwq & Hlwq).
  assert (q_w (pv (view f) (rt_port (wt_route wr))) = w :: rest) as Hqv by by rewrite pv_view.
  set (wr1 := wr <| wt_staged_data ::= <[rt_beat (wt_route wr) := wd_data w]> |>
                 <| wt_staged_strobe ::= <[rt_beat (wt_route wr) := wd_strobe w]> |>).
  set (wr2 := wr1 <| wt_route := (wt_route wr) <| rt_beat ::= S |> |>).
  destruct (set_front_list _ wr wr1 ws (sh_writes f Hs) Hl) as [Hq1 Hl1].
  destruct (set_front_list _ wr1 wr2 ws Hq1 Hl1) as [Hq2 Hl2].
  unfold stage_write_beat, set_write_route, on_port. wp_steps. eapply wp_lift_ok; [exact Hpop|]. wp_steps.
  destruct (S (rt_beat (wt_route wr)) =? burst_beats (rt_payload (wt_route wr)))%nat eqn:Hfinal; wp_steps.
  - destruct (set_front_list _ wr2 (stage wr w) ws Hq2 Hl2) as [Hq3 Hl3].
    assert (wr2 <| wt_data_complete := true |> = stage wr w) as Hstage by (unfold stage; by rewrite Hlast).
    fold wr1 wr2. rewrite Hstage.
    set (f1 := f <| write_routes_ := rb_set_front (stage wr w) (rb_set_front wr2 (rb_set_front wr1 (write_routes_ f))) |>
                 <| ports_ ::= alter (fun s => s <| p_w := wq |>) (rt_port (wt_route wr)) |>).
    assert (reaches [StageW (rt_port (wt_route wr))] f f1) as Hr
      by (eapply stage_reaches; try done; by rewrite Hfinal).
    pose proof (process_write_commit_spec f1 (stage wr w) ws (reaches_wf _ _ _ Hf Hr) Hl3 Hlast) as Hpc.
    eapply wp_safe; [exact Hpc|]. intros ? f2 Ho. by eapply write_outcome_after.
  - assert (wr2 = stage wr w) as Hstage.
    { unfold stage. rewrite Hlast. unfold wr2, wr1. destruct wr. simpl in *. by subst. }
    eapply (write_outcome_one _ (StageW (rt_port (wt_route wr)))); [|done | by right].
    eapply (stage_reaches f wr ws w rest (rb_set_front wr2 (rb_set_front wr1 (write_routes_ f))) wq);
      try done; [by rewrite Hfinal | by rewrite <- Hstage].
Qed.

Lemma process_write_beat_spec f :
  fabric_wf f ->
  wp process_write_beat (fun _ f' => write_outcome f f') (violation f) f.
Proof.
  intros Hf. pose proof Hf as [Hsp Hs Hv]. unfold process_write_beat. wp_steps.
  destruct (rb_empty (write_routes_ f)) eqn:He.
  { apply wp_ret. apply write_outcome_refl; [done|]. apply (rb_empty_spec RouteDepth) in He.
    unfold write_blocked. simpl. by rewrite He. }
  destruct (front_route _ (sh_writes f Hs) He) as (wr & ws & Hl & Hfront & Hset & _).
  wp_steps. eapply wp_lift_ok; [exact Hfront|].
  destruct (commit_front f Hf wr ws Hl) as [Hwr Hp]. pose proof (ww_static _ _ Hwr) as Hst.
  wp_steps. eapply wp_lift_ok; [by eapply static_cursor|].
  destruct (wt_data_complete wr) eqn:Hc.
  { eapply wp_safe; [by eapply process_write_commit_spec|]. done. }
  pose proof (ww_beat _ _ Hwr) as Hb. rewrite Hc in Hb.
  destruct (rb_empty (p_w (port_of f (rt_port (wt_route wr))))) eqn:Hwe.
  { apply wp_ret. apply write_outcome_refl; [done|]. unfold write_blocked. simpl v_writes.
    rewrite Hl, Hc, pv_view by done. by apply rb_empty_spec. }
  pose proof (port_of_wf f _ Hs Hp) as Hpw.
  destruct (rb_front_cases _ _ (pw_w _ Hpw) Hwe) as (w & rest & Hlw & Hwf).
  destruct (rb_pop_cases _ _ _ _ (pw_w _ Hpw) Hlw) as (_ & wq & Hpop & Hwq & Hlwq).
  assert (q_w (pv (view f) (rt_port (wt_route wr))) = w :: rest) as Hqv by by rewrite pv_view.
  wp_steps. eapply wp_lift_ok; [exact Hwf|]. rewrite Nat.add_1_r.
  change (beats_ (cursor_of (rt_payload (wt_route wr)))) with (burst_beats (rt_payload (wt_route wr))).
  destruct (eqb (wd_last w) _) eqn:Hlast; simpl negb; cbv iota.
  2:{ apply wp_protocol_error; try done. apply detail_intro.
      by destruct (S (rt_beat (wt_route wr)) =? burst_beats (rt_payload (wt_route wr)))%nat. }
  apply eqb_prop in Hlast.
  destruct (static_beat_facts _ _ _ Hst Hb) as (_ & Hmask & _).
  wp_steps. eapply wp_lift_ok; [exact Hmask|].
  destruct (strobe_is_legal (wd_strobe w) _) eqn:Hstr; simpl negb; cbv iota.
  2:{ apply wp_protocol_error; try done. by apply detail_intro. }
  apply strobe_is_legal_spec in Hstr. eapply wp_safe; [by eapply stage_write_beat_spec | done].
Qed.
End Writes.
