(* ===== verification/FabricCommit.v ===== *)
(** * Cycles of the fabric: [commit], and the properties of whole runs

    The stages are put together: an active cycle performs the handshakes of the
    cycle and the fabric's own progress as transitions of FabricSpec.v, or stops
    with a protocol violation before it touched a device; a reset cycle empties
    the fabric.  The invariants of FabricInv.v then hold of every run. *)
From S2P Require Import Prelude RingBuffer Axi Device Fabric FabricSpec FabricPorts FabricInv.
From S2P Require Import FabricRoutes FabricBeats FabricWrites.

Section Commit.
Context {cfg : FabricConfig} `{!FabricConfigOk cfg} {H : Type} `{!DeviceHeap H, !DeviceHeapLaws H}.
Implicit Types (f : Fabric H) (v : View H) (sp : AddressSpace) (p : AddressPayload).

(** The handshakes of a cycle, in the order [commit] performs them. *)
Definition cycle_events (outs : list SlaveSignals) (inputs : list MasterSignals) : list event :=
  (seq 0 NumPorts ≫= retire_events outs inputs) ++ (seq 0 NumPorts ≫= accept_events outs inputs).

(** [f'] is the state after an active cycle that performed the actions [es]. *)
Record cycled (es : list event) (events : list event) f f' : Prop := {
  cy_wf : fabric_wf f';
  cy_space : address_space_ f' = address_space_ f;
  cy_cycle : cycle_ f' = u64 (cycle_ f + 1);
  cy_steps : steps (address_space_ f) (view f) es (view f');
  cy_events : filter (fun e => external e) es = events;
  cy_access : (length (filter (fun e => device_event e) es) <= 1)%nat;
  cy_progress : es = [] -> blocked (view f);
  cy_reset : reset_devices_ f' = reset_devices_ f
}.

(** ** Counting the actions of the stages *)
Lemma filter_none (P : event -> bool) es :
  Forall (fun e => P e = false) es -> filter (fun e => P e) es = [].
Proof.
  induction 1 as [|e es He _ IH]; [done|]. by rewrite filter_no.
Qed.

Lemma filter_every (P : event -> bool) es :
  Forall (fun e => P e = true) es -> filter (fun e => P e) es = es.
Proof.
  induction 1 as [|e es He _ IH]; [done|]. by rewrite filter_yes, IH.
Qed.

Lemma Forall_ports (P : event -> Prop) (ev : nat -> list event) l :
  (forall port, Forall P (ev port)) -> Forall P (l ≫= ev).
Proof. intros Hev. induction l as [|x l IH]; simpl; [constructor|]. by apply Forall_app_2. Qed.

Lemma retire_events_all outs inputs port :
  Forall (fun e => external e = true /\ device_event e = false /\ retirement e = true)
    (retire_events outs inputs port).
Proof. unfold retire_events. destruct (_ && _), (_ && _); simpl; auto using Forall_cons_2. Qed.

Lemma accept_events_all outs inputs port :
  Forall (fun e => external e = true /\ device_event e = false) (accept_events outs inputs port).
Proof. unfold accept_events. destruct (_ && _), (_ && _), (_ && _); simpl; auto using Forall_cons_2. Qed.

Lemma reaches_quiet es f f' :
  reaches es f f' -> Forall (fun e => device_event e = false) es -> f_heap f' = f_heap f.
Proof. intros Hr Hq. by apply (steps_quiet_heap _ _ _ _ (st_steps _ _ _ Hr)) in Hq. Qed.

Lemma retire_keeps_ready f f' inputs :
  driven f -> reaches (seq 0 NumPorts ≫= retire_events (outputs_ f) inputs) f f' ->
  forall port, (port < NumPorts)%nat -> ingress_ready (output_of f' port) (pv (view f') port).
Proof.
  intros Hd Hr port Hp. destruct (Hd port Hp) as (Haw & Hw & Har & _).
  destruct (steps_retirement _ _ _ _ port (st_steps _ _ _ Hr)) as (_ & Eaw & Ew & Ear).
  { apply Forall_ports. intros q. eapply Forall_impl; [apply retire_events_all|]. by intros e (_ & _ & ?). }
  unfold output_of in *. rewrite (st_outputs _ _ _ Hr). unfold ingress_ready. by rewrite Eaw, Ew, Ear.
Qed.

Definition grants (es : list event) : Prop :=
  Forall (fun e => external e = false /\ device_event e = false) es.

Lemma arbitrated_quiet (e : nat -> event) full requests next next' es :
  (forall port, external (e port) = false /\ device_event (e port) = false) ->
  arbitrated e full requests next next' es -> grants es.
Proof. intros He [[-> _]|(port & -> & _)]; unfold grants; auto using Forall_cons_2. Qed.

(** Without a grant the routes are full or nobody requests. *)
Lemma idle_arbiter (e : nat -> event) full requests next next' :
  arbitrated e full requests next next' [] ->
  full = true \/ forall port, (port < NumPorts)%nat -> requests port = false.
Proof.
  intros [(_ & _ & [Hf|Hn])|(port & [=] & _)]; [by left|]. right. intros port. by eapply find_requester_none.
Qed.

Lemma idle_aw f next' :
  fabric_wf f ->
  arbitrated GrantAW (rb_full RouteDepth (write_routes_ f)) (aw_requests f) (next_aw_port_ f) next' [] ->
  (RouteDepth <= length (v_writes (view f)))%nat \/
  forall port, (port < NumPorts)%nat -> q_aw (pv (view f) port) = [].
Proof.
  intros [_ Hs _] [Hf|Hn]%idle_arbiter; [left; apply rb_is_full; [apply Hs | done]|].
  right. intros port Hp. rewrite pv_view by done. apply rb_empty_spec.
  apply negb_false_iff. by apply Hn.
Qed.

Lemma idle_ar f next' :
  fabric_wf f ->
  arbitrated GrantAR (rb_full RouteDepth (read_routes_ f)) (ar_requests f) (next_ar_port_ f) next' [] ->
  (RouteDepth <= length (v_reads (view f)))%nat \/
  forall port, (port < NumPorts)%nat -> q_ar (pv (view f) port) = [].
Proof.
  intros [_ Hs _] [Hf|Hn]%idle_arbiter; [left; apply rb_is_full; [apply Hs | done]|].
  right. intros port Hp. rewrite pv_view by done. apply rb_empty_spec.
  apply negb_false_iff. by apply Hn.
Qed.

Lemma arbitrate_addresses_spec f :
  fabric_wf f ->
  wp arbitrate_addresses (fun _ f' => exists es, reaches es f f' /\ grants es /\
    (es = [] -> arbitration_blocked (view f))) (violation f) f.
Proof.
  intros Hf. unfold arbitrate_addresses. wp_steps.
  eapply wp_mono; [by apply arbitrate_aw_spec | | done].
  intros [] f1 (es1 & Hr1 & Hh1 & Ha1 & _).
  apply wp_later; [apply Hr1 | done |].
  eapply wp_mono; [apply arbitrate_ar_spec; by eapply reaches_wf | | done].
  intros [] f2 (es2 & Hr2 & _ & Ha2 & _). exists (es1 ++ es2). split; [by eapply reaches_trans|].
  split; [apply Forall_app_2; (eapply arbitrated_quiet; [|eassumption]); done|].
  intros [-> ->]%app_nil. split.
  - by apply (idle_aw f (next_aw_port_ f1)).
  - apply (idle_ar f1 (next_ar_port_ f2)) in Ha2; [|by eapply reaches_wf].
    by rewrite (reaches_nil_view _ _ Hr1) in Ha2.
Qed.

(** ** Active cycles *)

(** The first three stages: exactly the handshakes of the cycle. *)
Definition handshakes (inputs : list MasterSignals) : M (Fabric H) unit :=
  modify (fun f => f <| was_reset_ := false |>) ;;;
  check_stability inputs ;;; retire_responses inputs ;;; accept_ingress inputs.

(** The other stages: the fabric's own progress. *)
Definition progress : M (Fabric H) unit :=
  arbitrate_addresses ;;;
  modify (fun f => f <| suppress_read_this_cycle_ := false |>) ;;;
  process_write_beat ;;;
  do suppressed := gets suppress_read_this_cycle_ in
  when (negb suppressed) process_read_beat.

Lemma commit_stages inputs f :
  commit inputs false f = (handshakes inputs ;;; progress ;;; end_cycle) f.
Proof.
  unfold commit, handshakes, progress, bind, modify, gets.
  repeat (match goal with |- context [match ?c ?s with (_, _) => _ end] => destruct (c s) as [[?|?] ?] end;
          try done).
Qed.

Lemma handshakes_spec f inputs :
  fabric_wf f -> driven f -> inputs_wf inputs ->
  wp (handshakes inputs) (fun _ f' => reaches (cycle_events (outputs_ f) inputs) f f') (violation f) f.
Proof.
  intros Hf Hd Hin. unfold handshakes. wp_steps. set (f0 := f <| was_reset_ := false |>).
  assert (reaches [] f f0) as Hr0.
  { apply reaches_silent; try done. pose proof (fw_shape f Hf) as []. by constructor. }
  apply wp_later; [done | done |].
  eapply wp_mono; [apply check_stability_spec, Hr0 | | intros e f'; by apply violation_trans].
  intros [] f1 Hr1. pose proof (reaches_trans _ _ _ _ _ Hr0 Hr1) as Hr01. simpl in Hr01.
  assert (driven f1) as Hd1.
  { intros port Hp. unfold output_of. rewrite (st_outputs _ _ _ Hr01), (reaches_nil_view _ _ Hr01). by apply Hd. }
  wp_steps. eapply wp_safe; [apply (retire_responses_spec inputs); [apply Hr01 | done]|].
  intros [] f2 Hr2.
  eapply wp_safe; [apply (accept_ingress_spec inputs); [apply Hr2 | done | by eapply retire_keeps_ready]|].
  intros [] f3 Hr3. rewrite (st_outputs _ _ _ Hr2) in Hr3. rewrite (st_outputs _ _ _ Hr01) in Hr2, Hr3.
  exact (reaches_trans _ _ _ _ _ Hr01 (reaches_trans _ _ _ _ _ Hr2 Hr3)).
Qed.

(** At most one of the actions calls a device, and none is a handshake. *)
Definition own_actions (es : list event) : Prop :=
  Forall (fun e => external e = false) es /\
  (length (filter (fun e => device_event e) es) <= 1)%nat.

Lemma own_actions_app es es' :
  grants es -> own_actions es' -> own_actions (es ++ es').
Proof.
  intros Hg [Hx Hl]. split.
  - apply Forall_app_2; [|done]. eapply Forall_impl; [exact Hg|]. by intros e [? _].
  - rewrite filter_app, filter_none; [done|]. eapply Forall_impl; [exact Hg|]. by intros e [_ ?].
Qed.

Lemma progress_spec f :
  fabric_wf f ->
  wp progress (fun _ f' => exists es, reaches es f f' /\ own_actions es /\ (es = [] -> blocked (view f)))
    (violation f) f.
Proof.
  intros Hf. unfold progress. wp_steps.
  eapply wp_mono; [by apply arbitrate_addresses_spec | | done]. intros [] f1 (es1 & Hr1 & Hg1 & Hab).
  assert (f_heap f1 = f_heap f) as Hh1.
  { eapply reaches_quiet; [exact Hr1|]. eapply Forall_impl; [exact Hg1|]. by intros e [_ ?]. }
  wp_steps. set (f1' := f1 <| suppress_read_this_cycle_ := false |>).
  assert (reaches es1 f f1') as Hr1'.
  { rewrite <- (app_nil_r es1). eapply reaches_trans; [exact Hr1|]. apply reaches_silent; try done.
    pose proof (st_shape _ _ _ Hr1) as []. by constructor. }
  pose proof (reaches_wf _ _ _ Hf Hr1') as Hf1.
  apply wp_later; [apply Hr1' | done |].
  eapply wp_mono; [by apply process_write_beat_spec | | done].
  intros [] f2 (es2 & Hr2 & Hx2 & Hl2 & Hsup & Hwb). wp_steps.
  pose proof (reaches_trans _ _ _ _ _ Hr1' Hr2) as Hr12.
  destruct (suppress_read_this_cycle_ f2) eqn:Hs; simpl.
  { apply wp_ret. exists (es1 ++ es2). split; [done|]. split; [by apply own_actions_app|].
    intros [_ ->]%app_nil. destruct (Hwb eq_refl) as [_ E]. by rewrite E in Hs. }
  specialize (Hsup eq_refl).
  apply wp_later; [apply Hr12 | rewrite <- Hh1; by eapply (reaches_quiet es2 f1') |].
  eapply wp_mono; [apply process_read_beat_spec; by eapply reaches_wf | | done].
  intros [] f3 [[Hr3 Hrb]|[port Hr3]]; eexists; (split; [eapply reaches_trans; [exact Hr12 | exact Hr3]|]);
    rewrite <- app_assoc; (split; [apply own_actions_app; [done|]|]).
  - by rewrite app_nil_r.
  - rewrite app_nil_r. intros [-> ->]%app_nil. destruct (Hwb eq_refl) as [Hwb' _].
    rewrite (reaches_nil_view _ _ Hr12) in Hrb. rewrite (reaches_nil_view _ _ Hr1') in Hwb'.
    split_and!; auto.
  - split; [apply Forall_app_2; [done | by constructor]|].
    rewrite filter_app, length_app, filter_none by done. simpl. lia.
  - by intros [_ [_ [=]]%app_nil]%app_nil.
Qed.

Lemma commit_active_spec f inputs :
  fabric_wf f -> driven f -> inputs_wf inputs ->
  wp (commit inputs false)
    (fun _ f' => exists es, cycled es (cycle_events (outputs_ f) inputs) f f') (violation f) f.
Proof.
  intros Hf Hd Hin. unfold wp. rewrite commit_stages. apply wp_bind.
  eapply wp_mono; [by apply handshakes_spec | | done]. intros [] f1 Hr1.
  assert (Forall (fun e => external e = true /\ device_event e = false) (cycle_events (outputs_ f) inputs)) as Hev.
  { unfold cycle_events. apply Forall_app_2; apply Forall_ports; intros port.
    - eapply Forall_impl; [apply retire_events_all|]. by intros e (? & ? & _).
    - apply accept_events_all. }
  assert (Forall (fun e => device_event e = false) (cycle_events (outputs_ f) inputs)) as Hq.
  { eapply Forall_impl; [exact Hev|]. by intros e [_ ?]. }
  wp_steps. apply wp_later; [apply Hr1 | by eapply reaches_quiet |].
  eapply wp_mono; [apply progress_spec; by eapply reaches_wf | | done]. intros [] f2 (es & Hr2 & (Hx & Hl) & Hbl).
  unfold end_cycle. wp_steps. pose proof (reaches_trans _ _ _ _ _ Hr1 Hr2) as Hr.
  exists (cycle_events (outputs_ f) inputs ++ es). constructor.
  - pose proof (reaches_wf _ _ _ Hf Hr) as [Hsp Hsh Hv].
    constructor; [exact Hsp | by destruct Hsh; constructor | exact Hv].
  - apply Hr.
  - simpl. by rewrite (st_cycle _ _ _ Hr).
  - apply Hr.
  - rewrite filter_app, (filter_none external es Hx), app_nil_r. apply filter_every.
    eapply Forall_impl; [exact Hev|]. by intros e [? _].
  - by rewrite filter_app, (filter_none device_event _ Hq).
  - intros [E ->]%app_nil. rewrite E in Hr1. rewrite <- (reaches_nil_view _ _ Hr1). auto.
  - apply (st_reset _ _ _ Hr).
Qed.
End Commit.
