(* ===== verification/FabricTheorems.v ===== *)
(** * What the fabric guarantees

    The properties of [AxiFabric] for its users: a cycle refines the abstract
    fabric or reports a protocol violation with the devices untouched; device
    accesses stay in their windows; no response is lost, duplicated or reordered;
    bursts are decoded and arbitrated correctly; exclusive accesses are
    exclusive; the exit code is the first one acknowledged; reset empties the
    fabric. *)
From S2P Require Import Prelude RingBuffer Axi Device Fabric FabricSpec FabricPorts FabricInv.
From S2P Require Import FabricRoutes FabricBeats FabricWrites FabricCommit.

Section Theorems.
Context {cfg : FabricConfig} `{!FabricConfigOk cfg} {H : Type} `{!DeviceHeap H, !DeviceHeapLaws H}.
Implicit Types (f : Fabric H) (v : View H) (sp : AddressSpace) (p : AddressPayload).

(** A device under test: its signals as a function of what it is driven with. *)
Definition Dut : Type := list SlaveSignals -> list MasterSignals.
Definition dut_wf (dut : Dut) : Prop := forall outs, inputs_wf (dut outs).

Lemma cycle_spec dut f :
  fabric_wf f -> dut_wf dut ->
  exists outs rs, drive false f = (Ok outs, f <| random_state_ := rs |> <| outputs_ := outs |>) /\
    (forall port, (port < NumPorts)%nat -> presents (outs !!! port) (pv (view f) port)) /\
    match commit (dut outs) false (f <| random_state_ := rs |> <| outputs_ := outs |>) with
    | (Ok _, f') => exists es, cycled es (cycle_events outs (dut outs)) f f'
    | (Throw e, f') => violation f e f'
    end.
Proof.
  intros Hf Hdut. pose proof (drive_spec f false (fw_shape f Hf)) as Hd. unfold wp in Hd.
  destruct (drive false f) as [[outs|e] f1]; [|done].
  destruct Hd as (Ho & Hdr & Hs & [rs ->] & Hpr). exists outs, rs. split; [done|]. split; [auto|].
  assert (fabric_wf (f <| random_state_ := rs |> <| outputs_ := outs |>)) as Hf1.
  { destruct Hf as [Hsp _ Hv]. by constructor. }
  pose proof (commit_active_spec _ (dut outs) Hf1 Hdr (Hdut outs)) as Hc. unfold wp in Hc.
  destruct (commit _ _ _) as [[u|e] f2]; [|done].
  destruct Hc as [es []]. exists es. by constructor.
Qed.

(** C1: a clock cycle of the fabric with reset inactive is a sequence of
    transitions of the abstract fabric, and the handshakes among them are
    exactly those of the cycle (VALID and READY both set), in port order, with
    the payloads on the wires; the invariant is kept. *)
Theorem cycle_refines_abstract_fabric dut f u f' :
  fabric_wf f -> dut_wf dut -> cycle dut false f = (Ok u, f') ->
  fabric_wf f' /\
  exists outs es, outs = outputs_ (drive false f).2 /\
    steps (address_space_ f) (view f) es (view f') /\
    filter (fun e => external e) es = cycle_events outs (dut outs).
Proof.
  intros Hf Hdut. destruct (cycle_spec dut f Hf Hdut) as (outs & rs & Hd & _ & Hc).
  unfold cycle, bind. rewrite Hd. destruct (commit _ _ _) as [[?|?] ?]; intros Heq; [|done].
  injection Heq as _ <-. destruct Hc as [es Hcy]. split; [apply Hcy|]. exists outs, es.
  split; [done|]. split; apply Hcy.
Qed.

(** C2: [drive] never fails, and the only error of [commit] is a protocol
    violation of the DUT: one of the documented messages, with the number of
    the cycle and an existing port (never an overflow or underflow of an
    internal queue, an index error or a size mismatch).  No device has been
    accessed in a cycle that fails. *)
Theorem only_protocol_violations_stop_a_cycle dut f e f' :
  fabric_wf f -> dut_wf dut -> cycle dut false f = (Throw e, f') ->
  (exists ctx why, e = ProtocolError (Some ctx) why /\ why ∈ protocol_details /\
     ec_cycle ctx = cycle_ f /\ (ec_port ctx < NumPorts)%nat) /\
  f_heap f' = f_heap f.
Proof.
  intros Hf Hdut. destruct (cycle_spec dut f Hf Hdut) as (outs & rs & Hd & _ & Hc).
  unfold cycle, bind. rewrite Hd. destruct (commit _ _ _) as [[?|?] ?]; intros Heq; [done|].
  injection Heq as <- <-. exact Hc.
Qed.

(** ** Decoding *)

(** C15: decoding accepts exactly the legal bursts (legal size and length, inside
    one 4 KiB page, every byte within the address width, and for a locked burst
    the exclusive shape) and reports every other one as a protocol violation.
    An accepted burst is given the one window that contains all of its bytes, if
    there is one.  It is answered with DECERR when no window does, with SLVERR
    when its device lacks the capability to serve it, and not forced otherwise.
    Two cases differ from the documentation: a locked burst that no window
    contains is answered with SLVERR (README.md promises DECERR for unmapped
    accesses), and in the last page of the 64-bit address space a beat that ends
    at 2^64 has no lane and is not looked at: the window is that of the bytes of
    the other beats, and there is none if no other beat is left. *)
Theorem bursts_are_decoded_exactly f port p channel :
  space_wf (address_space_ f) -> (port < NumPorts)%nat -> payload_wf p -> addressable p ->
  match initialize_route port p channel f with
  | (Ok r, f') =>
      f' = f /\ decodable p /\ rt_port r = port /\ rt_payload r = p /\ rt_beat r = 0%nat /\
      rt_exclusive r = ap_lock p /\ decoded_by_lanes (address_space_ f) (f_heap f) r /\
      ((forall i, (i < burst_beats p)%nat -> beat_has_lanes p i) ->
       decoded (address_space_ f) (f_heap f) r)
  | (Throw e, f') => ~ decodable p /\ violation f e f'
  end.
Proof.
  intros Hsp Hp Hw Ha. pose proof (initialize_route_lanes f port p channel Hsp Hp Hw Ha) as Hi. unfold wp in Hi.
  destruct (initialize_route port p channel f) as [[r|e] f']; [|naive_solver].
  destruct Hi as (-> & Hd & [Hpo Hpl Hbe Hlock Hdec]). split_and!; try done.
  intros Hl. apply decoded_lanes; [by rewrite Hpl | by rewrite Hpl | done].
Qed.

(** ** Device accesses *)

(** A range of bytes, with a lane for each, inside a window. *)
Definition in_window m (off : Z) (data lanes : list Z) : Prop :=
  0 <= off /\ length data = length lanes /\ off + Z.of_nat (length data) <= map_size m.

(** The window a burst was decoded to. *)
Definition window_of sp r m : Prop :=
  rt_mapping r = Some m /\ rt_forced_response r = Okay /\ m ∈ mappings_ sp /\ covers m (rt_payload r).

Definition writes_window sp r m (a : Z) (data strobes : list Z) (h h' : H) : Prop :=
  window_of sp r m /\ in_window m (a - map_base m) data strobes /\
  h' = (write_impl (map_device m) (a - map_base m) data strobes h).2.
Definition reads_window sp r m (a : Z) (n : nat) (h h' : H) : Prop :=
  window_of sp r m /\ in_window m (a - map_base m) (replicate n 0) (replicate n 1) /\
  h' = (read_impl (map_device m) (a - map_base m) (replicate n 0) (replicate n 1) h).2.

(** The device call of an action: a beat of a write burst writes its bytes at
    its address, the beat of a read reads them, and an exclusive burst that
    has its reservation is written as a whole; a burst that is not served, or
    has no reservation, calls no device. *)
Definition device_call sp v (e : event) (h h' : H) : Prop :=
  match e with
  | WriteDevice port =>
      exists wr ws m, v_writes v = wr :: ws /\ rt_port (wt_route wr) = port /\
        let p := rt_payload (wt_route wr) in
        let i := wt_commit_beat wr in
        writes_window sp (wt_route wr) m (beat_at p i) (beat_bytes (wt_staged_data wr !!! i) p i)
          (beat_strobes (wt_staged_strobe wr !!! i) p i) h h'
  | WriteExclusive port =>
      exists wr ws, v_writes v = wr :: ws /\ rt_port (wt_route wr) = port /\
        let p := rt_payload (wt_route wr) in
        match served (wt_route wr), monitor_of (v_monitors v) port (ap_id p) with
        | Some m, Some mon =>
            if bool_decide (mon_payload mon = p)
            then writes_window sp (wt_route wr) m (ap_address p) (exclusive_bytes wr) (exclusive_strobes wr) h h'
            else h' = h
        | _, _ => h' = h
        end
  | ReadBeat port =>
      exists r rs, v_reads v = r :: rs /\ rt_port r = port /\
        match served r with
        | Some m => reads_window sp r m (beat_at (rt_payload r) (rt_beat r))
                      (beat_count (rt_payload r) (rt_beat r)) h h'
        | None => h' = h
        end
  | _ => h' = h
  end.

(** A call of a mapped device, for a range inside its window. *)
Definition window_access sp (h h' : H) : Prop :=
  exists m off data lanes, m ∈ mappings_ sp /\ in_window m off data lanes /\
    (h' = (read_impl (map_device m) off data lanes h).2 \/
     h' = (write_impl (map_device m) off data lanes h).2).

Lemma device_call_access sp v e h h' : device_call sp v e h h' -> h' = h \/ window_access sp h h'.
Proof.
  assert (forall r m a data strobes, writes_window sp r m a data strobes h h' -> window_access sp h h') as Hw.
  { intros r m a data strobes ((_ & _ & Hm & _) & Hin & Hh). exists m, (a - map_base m), data, strobes. auto. }
  destruct e; cbn; try tauto.
  - intros (wr & ws & m & _ & _ & Hc). right. by eapply Hw.
  - intros (wr & ws & _ & _ & Hc). destruct (served _); [|by left]. destruct (monitor_of _ _ _); [|by left].
    case_bool_decide; [|by left]. right. by eapply Hw.
  - intros (r & rs & _ & _ & Hc). destruct (served r) as [m|]; [|by left]. right.
    destruct Hc as ((_ & _ & Hm & _) & Hin & Hh). by eexists m, _, _, _; eauto.
Qed.

Lemma served_window sp r m : route_static sp r -> served r = Some m -> window_of sp r m.
Proof.
  intros Hst. pose proof (rs_mapping _ _ Hst) as Hm. unfold served, window_of.
  destruct (rt_forced_response r); try done. intros E. by rewrite E in Hm.
Qed.

Lemma in_window_intro m a (data lanes : list Z) :
  window_contains m a (Z.of_nat (length data)) -> length data = length lanes ->
  in_window m (a - map_base m) data lanes.
Proof. intros [Hb He] Hl. unfold in_window. split_and!; [lia | done | lia]. Qed.

Lemma beat_bytes_length sp r i l :
  route_static sp r -> (i < burst_beats (rt_payload r))%nat -> length l = DATA_BYTES ->
  length (beat_bytes l (rt_payload r) i) = beat_count (rt_payload r) i.
Proof.
  intros Hst Hi Hl. destruct (static_beat_facts sp r i Hst Hi) as (_ & _ & _ & _ & _ & Hd).
  unfold beat_bytes. apply subspan_length. lia.
Qed.

Lemma staged_lengths sp wr :
  write_wf sp wr ->
  length (wt_staged_data wr !!! wt_commit_beat wr) = DATA_BYTES /\
  length (wt_staged_strobe wr !!! wt_commit_beat wr) = DATA_BYTES.
Proof.
  intros Hwr. pose proof (ww_commit _ _ Hwr) as Hi.
  destruct (rs_payload _ _ (ww_static _ _ Hwr)) as [Hpw _]. pose proof (burst_beats_bound _ Hpw).
  destruct (ww_data _ _ Hwr) as [Hn1 Ha1], (ww_strobe _ _ Hwr) as [Hn2 Ha2]. unfold MAX_BURST_BEATS in *.
  split.
  - apply (Forall_lookup_1 _ _ (wt_commit_beat wr) _ Ha1), lookup_total_lt. lia.
  - apply (Forall_lookup_1 _ _ (wt_commit_beat wr) _ Ha2), lookup_total_lt. lia.
Qed.

Lemma write_device_call sp v wr ws m :
  view_wf sp v -> v_writes v = wr :: ws -> served (wt_route wr) = Some m ->
  device_call sp v (WriteDevice (rt_port (wt_route wr))) (v_heap v)
    (v_heap (let '(wr', v') := write_beat wr m v in advance wr' ws v')).
Proof.
  intros Hv Hw Hm. destruct (front_write sp v wr ws Hv Hw) as (Hwr & _).
  pose proof (ww_static _ _ Hwr) as Hst. pose proof (served_window sp _ m Hst Hm) as Hwin.
  destruct (staged_lengths sp wr Hwr) as [Hld Hls].
  pose proof (beat_bytes_length sp _ _ _ Hst (ww_commit _ _ Hwr) Hld) as Hbl.
  pose proof (beat_bytes_length sp _ _ _ Hst (ww_commit _ _ Hwr) Hls) as Hsl.
  exists wr, ws, m. split; [done|]. split; [done|]. split; [done|]. split.
  - apply in_window_intro.
    + rewrite Hbl. apply Hwin, Hwr.
    + unfold beat_strobes. by rewrite length_fmap, Hbl, Hsl.
  - unfold write_beat. destruct (write_impl _ _ _ _ _) as [resp h']. unfold advance, complete.
    by destruct (_ =? _)%nat.
Qed.

Lemma exclusive_window sp wr m :
  write_wf sp wr -> rt_exclusive (wt_route wr) = true -> covers m (rt_payload (wt_route wr)) ->
  window_contains m (ap_address (rt_payload (wt_route wr))) (burst_total (rt_payload (wt_route wr))).
Proof.
  intros Hwr Hx Hcov. destruct (rs_payload _ _ (ww_static _ _ Hwr)) as [Hpw _].
  pose proof (burst_beats_bound _ Hpw) as Hn.
  set (n := (burst_beats (rt_payload (wt_route wr)) - 1)%nat).
  destruct (exclusive_beat sp wr Hwr Hx 0 ltac:(lia)) as [Ha0 Hc0].
  destruct (exclusive_beat sp wr Hwr Hx n ltac:(lia)) as [Ha1 Hc1].
  destruct (Hcov 0%nat ltac:(lia)) as [Hb _]. destruct (Hcov n ltac:(lia)) as [_ He].
  unfold window_contains, burst_total in *. nia.
Qed.

Lemma write_exclusive_call sp v wr ws :
  view_wf sp v -> v_writes v = wr :: ws -> rt_exclusive (wt_route wr) = true ->
  device_call sp v (WriteExclusive (rt_port (wt_route wr))) (v_heap v)
    (v_heap (let '(wr', v') := write_exclusive wr v in complete wr' ws v')).
Proof.
  intros Hv Hw Hx. destruct (front_write sp v wr ws Hv Hw) as (Hwr & _).
  pose proof (ww_static _ _ Hwr) as Hst. exists wr, ws. split; [done|]. split; [done|].
  unfold write_exclusive, complete.
  destruct (served (wt_route wr)) as [m|] eqn:Hm; [|done].
  destruct (monitor_of _ _ _) as [mon|]; [|done]. case_bool_decide; [|done].
  pose proof (served_window sp _ m Hst Hm) as Hwin. split; [done|].
  pose proof (exclusive_window sp wr m Hwr Hx ltac:(apply Hwin)) as Hcon. split.
  - apply in_window_intro.
    + unfold exclusive_bytes. rewrite length_fmap, length_seq, Z2Nat.id; [done|].
      destruct (rs_payload _ _ Hst) as [Hpw _]. pose proof (burst_bytes_bound DATA_BYTES _ Hpw (rs_shape _ _ Hst)).
      unfold burst_total. nia.
    + unfold exclusive_bytes, exclusive_strobes. by rewrite !length_fmap.
  - by destruct (write_impl _ _ _ _ _).
Qed.

Lemma read_beat_call sp v r rs :
  view_wf sp v -> v_reads v = r :: rs ->
  device_call sp v (ReadBeat (rt_port r)) (v_heap v) (read_beat r (v_heap v)).2.
Proof.
  intros Hv Hr. destruct (front_read sp v r rs Hv Hr) as ([Hst Hb] & _). exists r, rs. split; [done|]. split; [done|].
  unfold read_beat. destruct (served r) as [m|] eqn:Hm; [|done].
  pose proof (served_window sp _ m Hst Hm) as Hwin. split; [done|]. split.
  - apply in_window_intro; rewrite length_replicate; [by apply Hwin | by rewrite length_replicate].
  - by destruct (read_impl _ _ _ _ _) as [[??]?].
Qed.

Lemma step_calls sp v e v' : view_wf sp v -> step sp v e v' -> device_call sp v e (v_heap v) (v_heap v').
Proof.
  intros Hv Hst. destruct Hst as [| | | | | | | |v wr ws m r Hw Hc Hx Hm Hl| |v wr ws r Hw Hc Hx Hl|v r rs ms Hr Hl Hms];
    try reflexivity.
  - by apply write_device_call.
  - by apply write_exclusive_call.
  - pose proof (read_beat_call sp v r rs Hv Hr) as Ha. by destruct (read_beat r (v_heap v)).
Qed.

(** At most one of the actions [es] calls a device. *)
Definition one_device_call sp v es v' : Prop :=
  match filter (fun e => device_event e) es with
  | [] => v_heap v' = v_heap v
  | [e] => exists es1 es2 v1 v2, es = es1 ++ e :: es2 /\
      steps sp v es1 v1 /\ step sp v1 e v2 /\ steps sp v2 es2 v' /\
      v_heap v1 = v_heap v /\ v_heap v2 = v_heap v' /\ device_call sp v1 e (v_heap v) (v_heap v')
  | _ => False
  end.

Lemma no_device_event es : filter (fun e => device_event e) es = [] -> Forall (fun e => device_event e = false) es.
Proof.
  intros Hf. apply Forall_forall. intros x Hx. destruct (device_event x) eqn:Hd; [|done]. exfalso.
  assert (x ∈ filter (fun e => device_event e) es) as Hin by by apply elem_of_filter_bool.
  rewrite Hf in Hin. by apply elem_of_nil in Hin.
Qed.

Lemma steps_one_call sp v es v' :
  view_wf sp v -> steps sp v es v' -> (length (filter (fun e => device_event e) es) <= 1)%nat ->
  one_device_call sp v es v'.
Proof.
  unfold one_device_call. intros Hv Hs. induction Hs as [v|v e v1 es v2 Hst Hs IH]; [done|].
  destruct (device_event e) eqn:Hde.
  - rewrite filter_yes by done. simpl. intros Hl.
    destruct (filter (fun e => device_event e) es) eqn:Hf; [|simpl in Hl; lia].
    apply no_device_event in Hf. pose proof (steps_quiet_heap _ _ _ _ Hs Hf) as Hh.
    exists [], es, v, v1. split_and!; try done; [constructor|]. rewrite Hh. by apply step_calls.
  - rewrite filter_no by done. intros Hl. specialize (IH (step_wf _ _ _ _ Hv Hst) Hl).
    pose proof (step_quiet_heap sp v e v1 Hst Hde) as Hh. rewrite Hh in IH.
    destruct (filter _ es) as [|e' [|] ]; [done | | done].
    destruct IH as (es1 & es2 & w1 & w2 & -> & H1 & H2 & H3 & H4 & H5).
    exists (e :: es1), es2, w1, w2.
    refine (conj eq_refl (conj _ (conj H2 (conj H3 (conj H4 H5))))). by econstructor.
Qed.

Lemma steps_access sp v es v' :
  view_wf sp v -> steps sp v es v' -> (length (filter (fun e => device_event e) es) <= 1)%nat ->
  v_heap v' = v_heap v \/ window_access sp (v_heap v) (v_heap v').
Proof.
  intros Hv Hs Hl. pose proof (steps_one_call sp v es v' Hv Hs Hl) as Hc. unfold one_device_call in Hc.
  destruct (filter _ es) as [|e [|] ]; [by left | | done].
  destruct Hc as (? & ? & v1 & ? & _ & _ & _ & _ & _ & _ & Hc). by eapply device_call_access.
Qed.

(** C3: a cycle makes at most one device call: of its actions at most one is the
    commit of a write beat, the commit of an exclusive write or a beat of a
    read, so that a committed write suppresses the read of its cycle.  The call
    is made for the burst at the front of its queue, to the device of the
    window that burst was decoded to and that contains all of its bytes, and
    reads or writes exactly the bytes of the present beat (of the whole burst,
    for an exclusive write), at their address relative to the window's base,
    inside the window.  A cycle without such an action touches no device. *)
Theorem device_accesses_stay_in_their_window dut f u f' :
  fabric_wf f -> dut_wf dut -> cycle dut false f = (Ok u, f') ->
  exists es, steps (address_space_ f) (view f) es (view f') /\
    filter (fun e => external e) es = cycle_events (outputs_ (drive false f).2) (dut (outputs_ (drive false f).2)) /\
    one_device_call (address_space_ f) (view f) es (view f').
Proof.
  intros Hf Hdut. destruct (cycle_spec dut f Hf Hdut) as (outs & rs & Hd & _ & Hc).
  unfold cycle, bind. rewrite Hd. destruct (commit _ _ _) as [[?|?] ?]; intros Heq; [|done].
  injection Heq as _ <-. destruct Hc as [es [_ _ _ Hst He Hl _]]. exists es. split; [exact Hst|]. split; [exact He|].
  by apply (steps_one_call _ _ _ _ (fw_view f Hf) Hst Hl).
Qed.
End Theorems.
