(* ===== verification/FabricRuns.v ===== *)
(** * Runs of the fabric

    A run is a sequence of clock cycles of [AxiFabric]; what the DUT observes of
    it are its handshakes.  Started from a new fabric, every run keeps the
    invariant; each port gets back, in order, exactly the read beats and write
    responses of the bursts it issued; the exit code is the first one
    acknowledged; a reset cycle brings the fabric back to its initial state. *)
From S2P Require Import Prelude RingBuffer Axi Device Fabric FabricSpec FabricPorts FabricInv.
From S2P Require Import FabricRoutes FabricBeats FabricWrites FabricCommit FabricTheorems.

Section Runs.
Context {cfg : FabricConfig} `{!FabricConfigOk cfg} {H : Type} `{!DeviceHeap H, !DeviceHeapLaws H}.
Implicit Types (f : Fabric H) (v : View H) (sp : AddressSpace) (p : AddressPayload).

(** ** The empty fabric *)
Definition empty_port : PortView := {| q_aw := []; q_w := []; q_ar := []; q_b := []; q_r := [] |}.
Definition empty_view (h : H) : View H :=
  {| v_heap := h; v_ports := replicate NumPorts empty_port; v_reads := []; v_writes := [];
     v_monitors := replicate RouteDepth inhabitant; v_exit := (false, 0) |}.

Lemma empty_view_wf sp h : view_wf sp (empty_view h).
Proof.
  constructor; simpl; rewrite ?length_replicate; try (split; [constructor | lia]); try done.
  apply Forall_replicate. constructor; simpl; try (split; [constructor | lia]); lia.
Qed.

Lemma port_init_spec : port_wf port_init /\ port_view port_init = empty_port.
Proof.
  pose proof AddressDepth_pos. pose proof WriteDataDepth_pos. pose proof ResponseDepth_pos.
  split.
  - constructor; simpl; by apply rb_init_spec.
  - unfold port_view, empty_port. simpl. f_equal; by apply rb_init_spec.
Qed.

Lemma fabric_init_wf h sp b :
  space_wf sp -> fabric_wf (fabric_init h sp b) /\ view (fabric_init h sp b) = empty_view h.
Proof.
  intros Hsp. pose proof RouteDepth_pos as Hrd. destruct port_init_spec as [Hpw Hpv].
  assert (view (fabric_init h sp b) = empty_view h) as Hv.
  { unfold view, empty_view. simpl. rewrite fmap_replicate, Hpv. f_equal; by apply rb_init_spec. }
  split; [|done]. constructor; [done | | rewrite Hv; apply empty_view_wf].
  constructor; simpl; rewrite ?length_replicate; try done; try (by apply rb_init_spec).
  by apply Forall_replicate.
Qed.

Lemma reset_port_spec s : port_wf s -> port_wf (reset_port s) /\ port_view (reset_port s) = empty_port.
Proof.
  intros []. split; [constructor; simpl; by eapply rb_clear_spec|].
  unfold port_view, empty_port. simpl. f_equal; by eapply rb_clear_spec.
Qed.

Lemma reset_state_spec f :
  fabric_wf f -> shape (reset_state f) /\ view (reset_state f) = empty_view (f_heap f).
Proof.
  intros [_ [Hl Hp Ho Hr Hw] Hv]. split.
  - constructor; simpl; rewrite ?length_fmap; try done; try (by eapply rb_clear_spec).
    apply Forall_fmap. eapply Forall_impl; [exact Hp|]. intros s Hs. by apply reset_port_spec.
  - pose proof (vw_monitors _ _ Hv) as Hm. simpl in Hm. unfold view, empty_view, reset_state. simpl. f_equal.
    + rewrite <- list_fmap_compose, <- Hl. clear -Hp.
      induction Hp as [|s l Hs _ IH]; [done|]. rewrite fmap_cons. cbn [length replicate].
      f_equal; first [exact IH | by apply reset_port_spec].
    + rewrite <- Hm. clear. induction (monitors_ f) as [|m l IH]; [done|].
      rewrite fmap_cons. cbn [length replicate]. f_equal. exact IH.
Qed.

Lemma port_empty_spec s :
  rb_empty (p_aw s) && rb_empty (p_w s) && rb_empty (p_ar s) && rb_empty (p_b s) && rb_empty (p_r s) = true
  <-> empty_port = port_view s.
Proof.
  rewrite !andb_true_iff, (rb_empty_spec AddressDepth (p_aw s)), (rb_empty_spec WriteDataDepth (p_w s)),
    (rb_empty_spec AddressDepth (p_ar s)), (rb_empty_spec ResponseDepth (p_b s)),
    (rb_empty_spec ResponseDepth (p_r s)).
  unfold port_view, empty_port. split; [intros [[[[-> ->] ->] ->] ->]; done | intros [=]].
  split_and!; by symmetry.
Qed.

Lemma idle_spec f :
  idle f = true <->
  v_reads (view f) = [] /\ v_writes (view f) = [] /\ Forall (eq empty_port) (v_ports (view f)).
Proof.
  unfold idle. rewrite !andb_true_iff, (rb_empty_spec RouteDepth (read_routes_ f)),
    (rb_empty_spec RouteDepth (write_routes_ f)).
  unfold view. simpl. rewrite Forall_fmap.
  assert (forall l, forallb (fun s => rb_empty (p_aw s) && rb_empty (p_w s) && rb_empty (p_ar s)
    && rb_empty (p_b s) && rb_empty (p_r s)) l = true <-> Forall (eq empty_port ∘ port_view) l) as ->; [|tauto].
  intros l. induction l as [|s l IH]; [by split; constructor|]. cbn [forallb].
  by rewrite andb_true_iff, port_empty_spec, IH, Forall_cons.
Qed.

(** ** Reset *)

Lemma commit_reset_spec inputs f :
  fabric_wf f ->
  exists f', commit inputs true f = (Ok tt, f') /\ fabric_wf f' /\ was_reset_ f' = true /\
    cycle_ f' = u64 (cycle_ f + 1) /\ address_space_ f' = address_space_ f /\
    reset_devices_ f' = reset_devices_ f /\
    if was_reset_ f then view f' = view f
    else idle f' = true /\
         view f' = empty_view (if reset_devices_ f then space_reset (address_space_ f) (f_heap f) else f_heap f).
Proof.
  intros Hf. pose proof Hf as [Hsp Hs Hv].
  assert (forall g : Fabric H, address_space_ g = address_space_ f -> shape g -> view_wf (address_space_ f) (view g) -> fabric_wf g)
    as Hwf by (intros g Ha Hg Hgv; constructor; by rewrite ?Ha).
  destruct (reset_state_spec f Hf) as [Hrs Hrv].
  unfold commit, bind, get, modify, end_cycle, ret.
  destruct (was_reset_ f) eqn:Hwas; simpl; [|destruct (reset_devices_ f) eqn:Hrd; simpl];
    eexists; (split; [done|]).
  - split_and!; try done. apply Hwf; [done | by destruct Hs; constructor | done].
  - set (h := space_reset (address_space_ f) (f_heap f)).
    match goal with |- fabric_wf ?g /\ _ => set (f' := g) end.
    assert (view f' = empty_view h) as Hv'.
    { change (view (reset_state f) <| v_heap := h |> = empty_view h). by rewrite Hrv. }
    split_and!; try done.
    + apply Hwf; [done | by destruct Hrs; constructor | rewrite Hv'; apply empty_view_wf].
    + apply idle_spec. rewrite Hv'. split_and!; try done. by apply Forall_replicate.
  - match goal with |- fabric_wf ?g /\ _ => set (f' := g) end.
    assert (view f' = empty_view (f_heap f)) as Hv' by (rewrite <- Hrv; done).
    split_and!; try done.
    + apply Hwf; [done | by destruct Hrs; constructor | rewrite Hv'; apply empty_view_wf].
    + apply idle_spec. rewrite Hv'. split_and!; try done. by apply Forall_replicate.
Qed.

(** C28: a cycle with reset active never fails.  The first one empties every
    queue, route and monitor, clears the exit state and resets the devices if
    the fabric was told to (and leaves them alone otherwise); the following
    ones only count the cycle. *)
Theorem reset_empties_the_fabric inputs f :
  fabric_wf f ->
  exists f', commit inputs true f = (Ok tt, f') /\ fabric_wf f' /\ was_reset_ f' = true /\
    cycle_ f' = u64 (cycle_ f + 1) /\ address_space_ f' = address_space_ f /\
    if was_reset_ f then view f' = view f
    else idle f' = true /\
         view f' = empty_view (if reset_devices_ f then space_reset (address_space_ f) (f_heap f) else f_heap f).
Proof.
  intros Hf. destruct (commit_reset_spec inputs f Hf) as (f' & ? & ? & ? & ? & ? & _ & ?). by exists f'.
Qed.

(** ** Runs *)

(** A sequence of active cycles, with the handshakes the DUT takes part in. *)
Fixpoint run (duts : list Dut) : M (Fabric H) (list event) :=
  match duts with
  | [] => ret []
  | dut :: duts' =>
      do outs := drive false in
      commit (dut outs) false ;;;
      do rest := run duts' in
      ret (cycle_events outs (dut outs) ++ rest)
  end.

Lemma run_spec duts f seen f' :
  fabric_wf f -> Forall dut_wf duts -> run duts f = (Ok seen, f') ->
  fabric_wf f' /\ address_space_ f' = address_space_ f /\
  exists es, steps (address_space_ f) (view f) es (view f') /\ filter (fun e => external e) es = seen.
Proof.
  intros Hf Hd. revert f seen Hf. induction Hd as [|dut duts Hdut _ IH]; intros f seen Hf; cbn [run].
  { intros [= <- <-]. split_and!; try done. exists []. split; [constructor | done]. }
  destruct (cycle_spec dut f Hf Hdut) as (outs & rs & Hdr & _ & Hc).
  unfold bind. rewrite Hdr.
  destruct (commit _ _ _) as [[u|e] f1]; [|done]. destruct Hc as [es [Hf1 Ha1 _ Hs1 He1 _ _]].
  destruct (run duts f1) as [[rest|e] f2] eqn:Hrun; [|done]. unfold ret. intros [= <- <-].
  destruct (IH f1 rest Hf1 Hrun) as (Hf2 & Ha2 & es' & Hs2 & He2). split; [done|].
  split; [congruence|]. exists (es ++ es'). rewrite Ha1 in Hs2. split; [by eapply steps_app|].
  by rewrite filter_app, He1, He2.
Qed.

(** The handshakes are the only actions an observation of the DUT depends on. *)
Lemma observed_bind {A} (g : event -> list A) es :
  (forall e, external e = false -> g e = []) -> filter (fun e => external e) es ≫= g = es ≫= g.
Proof.
  intros Hg. induction es as [|e es IH]; [done|]. destruct (external e) eqn:He.
  - rewrite filter_yes by done. by rewrite !bind_cons, IH.
  - rewrite filter_no by done. by rewrite bind_cons, Hg, IH.
Qed.

(** What an idle fabric owes: nothing. *)
Lemma idle_pending f port :
  (port < NumPorts)%nat -> fabric_wf f -> idle f = true ->
  r_pending (view f) port = [] /\ b_pending (view f) port = [].
Proof.
  intros Hp Hf (Hr & Hw & Hall)%idle_spec.
  assert (pv (view f) port = empty_port) as Hpv.
  { symmetry. apply (Forall_lookup_1 _ _ port _ Hall). apply lookup_total_lt.
    by rewrite (vw_length _ _ (fw_view f Hf)). }
  unfold r_pending, b_pending. by rewrite Hr, Hw, Hpv.
Qed.

(** A run of a new fabric, seen from outside. *)
Lemma run_from_init h sp b duts seen f' :
  space_wf sp -> Forall dut_wf duts -> run duts (fabric_init h sp b) = (Ok seen, f') ->
  fabric_wf f' /\
  exists es, steps sp (empty_view h) es (view f') /\ filter (fun e => external e) es = seen.
Proof.
  intros Hsp Hd Hrun. destruct (fabric_init_wf h sp b Hsp) as [Hwf Hv].
  destruct (run_spec _ _ _ _ Hwf Hd Hrun) as (Hf & _ & es & Hst & He). split; [done|].
  exists es. by rewrite Hv in Hst.
Qed.

(** C10: each port receives, in the order of its read requests, exactly the R
    beats of its bursts: one beat per transfer with the burst's identifier and
    RLAST on the last one only.  What has not been delivered yet is still
    pending in the fabric, and nothing is once the fabric is idle. *)
Theorem reads_are_answered_in_order h sp b duts seen f' port :
  space_wf sp -> Forall dut_wf duts -> (port < NumPorts)%nat ->
  run duts (fabric_init h sp b) = (Ok seen, f') ->
  seen ≫= r_accepted port = (seen ≫= r_delivered port) ++ r_pending (view f') port /\
  (idle f' = true -> seen ≫= r_accepted port = seen ≫= r_delivered port).
Proof.
  intros Hsp Hd Hp Hrun. destruct (run_from_init _ _ _ _ _ _ Hsp Hd Hrun) as (Hf & es & Hst & <-).
  pose proof (steps_r_conserved sp _ es _ port (empty_view_wf sp h) Hst) as Hc.
  assert (r_pending (empty_view h) port = []) as E0.
  { unfold r_pending, pv. simpl. by rewrite lookup_total_replicate_2. }
  rewrite E0 in Hc. rewrite !observed_bind by (by intros []). split; [exact Hc|].
  intros Hidle. destruct (idle_pending f' port Hp Hf Hidle) as [E _]. by rewrite E, app_nil_r in Hc.
Qed.

(** C11: each port receives exactly one B response per write burst, with the
    identifiers in the order of its write requests. *)
Theorem writes_are_answered_in_order h sp b duts seen f' port :
  space_wf sp -> Forall dut_wf duts -> (port < NumPorts)%nat ->
  run duts (fabric_init h sp b) = (Ok seen, f') ->
  seen ≫= b_accepted port = (seen ≫= b_delivered port) ++ b_pending (view f') port /\
  (idle f' = true -> seen ≫= b_accepted port = seen ≫= b_delivered port).
Proof.
  intros Hsp Hd Hp Hrun. destruct (run_from_init _ _ _ _ _ _ Hsp Hd Hrun) as (Hf & es & Hst & <-).
  pose proof (steps_b_conserved sp _ es _ port (empty_view_wf sp h) Hst) as Hc.
  assert (b_pending (empty_view h) port = []) as E0.
  { unfold b_pending, pv. simpl. by rewrite lookup_total_replicate_2. }
  rewrite E0 in Hc. rewrite !observed_bind by (by intros []). split; [exact Hc|].
  intros Hidle. destruct (idle_pending f' port Hp Hf Hidle) as [_ E]. by rewrite E, app_nil_r in Hc.
Qed.

(** ** The exit code *)

(** The exit codes among the write responses the DUT has acknowledged. *)
Definition exit_codes (seen : list event) : list Z :=
  seen ≫= fun e =>
    match e with RetireB _ b => if wr_exit_response b then [wr_exit_code b] else [] | _ => [] end.

Lemma exit_latched es x :
  foldl (fun x e => exit_after e x) x es =
    if x.1 then x else match exit_codes es with [] => x | c :: _ => (true, c) end.
Proof.
  revert x. induction es as [|e es IH]; intros x; simpl; [by destruct x as [[] ?]|].
  rewrite IH. unfold exit_codes. simpl. destruct e; simpl; try done.
  unfold latch_exit. destruct x as [[] c]; simpl; [by rewrite andb_false_r|].
  by destruct (wr_exit_response b).
Qed.

(** The exit state a run ends with is the code of the first acknowledged
    write response that carries one: the run is not over before the DUT has
    taken the response, and later exit writes do not change the code. *)
Theorem exit_code_is_the_first_acknowledged h sp b duts seen f' :
  space_wf sp -> Forall dut_wf duts -> run duts (fabric_init h sp b) = (Ok seen, f') ->
  (exit_completed_ f', exit_code_ f') =
    match exit_codes seen with [] => (false, 0) | code :: _ => (true, code) end.
Proof.
  intros Hsp Hd Hrun. destruct (run_from_init _ _ _ _ _ _ Hsp Hd Hrun) as (Hf & es & Hst & <-).
  pose proof (steps_exit _ _ _ _ Hst) as He. rewrite exit_latched in He. simpl in He.
  rewrite He.
  unfold exit_codes. rewrite observed_bind; [done|]. by intros [].
Qed.
End Runs.
