(* ===== verification/FabricLiveness.v ===== *)
(** * Progress of the fabric

    Round-robin arbitration starves no port, and the fabric does not deadlock:
    while the DUT only takes responses, every cycle does some of the work left
    (counted by [work]), until nothing is left or a write burst waits for data
    the DUT has not sent. *)
From S2P Require Import Prelude RingBuffer Axi Device Fabric FabricSpec FabricPorts FabricInv.
From S2P Require Import FabricRoutes FabricBeats FabricWrites FabricCommit FabricTheorems FabricRuns.

Section Liveness.
Context {cfg : FabricConfig} `{!FabricConfigOk cfg} {H : Type} `{!DeviceHeap H, !DeviceHeapLaws H}.
Implicit Types (f : Fabric H) (v : View H) (sp : AddressSpace) (p : AddressPayload).

(** ** Arbitration *)
Lemma requesting_not_full {T} `{!Inhabited T} C (rb : RingBuffer T) :
  rb_wf C rb -> (length (rb_list C rb) < C)%nat -> rb_full C rb = false.
Proof. intros Hw Hl. by apply rb_full_spec. Qed.

Lemma arbitrated_fair (e : nat -> event) full requests next next' es port :
  arbitrated e full requests next next' es -> full = false ->
  (port < NumPorts)%nat -> requests port = true ->
  exists granted, es = [e granted] /\
    (granted = port \/ (wait next' port < wait next port)%nat).
Proof.
  intros [(_ & _ & [Hf|Hn])|(granted & -> & Hg & ->)] Hfull Hp Hreq; [congruence| |].
  - by rewrite (find_requester_none _ _ _ Hn Hp) in Hreq.
  - exists granted. split; [done|]. by eapply find_requester_fair.
Qed.

Lemma aw_requests_spec f port :
  shape f -> (port < NumPorts)%nat -> q_aw (pv (view f) port) <> [] -> aw_requests f port = true.
Proof.
  intros Hs Hp Hq. rewrite pv_view in Hq by done. apply negb_true_iff, not_true_is_false.
  by intros He%(rb_empty_spec AddressDepth).
Qed.
Lemma ar_requests_spec f port :
  shape f -> (port < NumPorts)%nat -> q_ar (pv (view f) port) <> [] -> ar_requests f port = true.
Proof.
  intros Hs Hp Hq. rewrite pv_view in Hq by done. apply negb_true_iff, not_true_is_false.
  by intros He%(rb_empty_spec AddressDepth).
Qed.

(** The outcome of one arbitration for a port that requests. *)
Definition fair_outcome (e : nat -> event) (next : Fabric H -> nat) (port : nat) f
    (outcome : result unit * Fabric H) : Prop :=
  match outcome with
  | (Ok _, f') => exists granted, steps (address_space_ f) (view f) [e granted] (view f') /\
      (granted = port \/ (wait (next f') port < wait (next f) port)%nat)
  | (Throw e, f') => violation f e f'
  end.

(** C27: arbitration is work conserving and fair.  While a route is free and a
    port requests, each arbitration of AW (AR) grants some request; either
    that of the port, or the number of ports that are served before it
    strictly decreases (so it waits for fewer than [NumPorts] grants).  The
    only other outcome is a protocol violation of the granted request. *)
Theorem arbitration_is_fair f port :
  fabric_wf f -> (port < NumPorts)%nat ->
  (q_aw (pv (view f) port) <> [] -> (length (v_writes (view f)) < RouteDepth)%nat ->
     fair_outcome GrantAW next_aw_port_ port f (arbitrate_aw f)) /\
  (q_ar (pv (view f) port) <> [] -> (length (v_reads (view f)) < RouteDepth)%nat ->
     fair_outcome GrantAR next_ar_port_ port f (arbitrate_ar f)).
Proof.
  intros Hf Hp. pose proof (fw_shape f Hf) as Hs. unfold fair_outcome. split; intros Hq Hroom.
  - pose proof (arbitrate_aw_spec f Hf) as Ha. unfold wp in Ha.
    destruct (arbitrate_aw f) as [[u|e] f']; [|done]. destruct Ha as (es & Hr & _ & Ha & _).
    apply (arbitrated_fair _ _ _ _ _ _ port) in Ha as (g & -> & Hg); try done.
    + exists g. split; [apply Hr | done].
    + by apply requesting_not_full; [apply Hs|].
    + by apply aw_requests_spec.
  - pose proof (arbitrate_ar_spec f Hf) as Ha. unfold wp in Ha.
    destruct (arbitrate_ar f) as [[u|e] f']; [|done]. destruct Ha as (es & Hr & _ & Ha & _).
    apply (arbitrated_fair _ _ _ _ _ _ port) in Ha as (g & -> & Hg); try done.
    + exists g. split; [apply Hr | done].
    + by apply requesting_not_full; [apply Hs|].
    + by apply ar_requests_spec.
Qed.

(** ** The work left in a fabric *)
Definition read_work (r : Route) : nat := 2 * (burst_beats (rt_payload r) - rt_beat r).
Definition write_work (wr : WriteRoute) : nat :=
  2 + (burst_beats (rt_payload (wt_route wr)) - rt_beat (wt_route wr)) +
  (burst_beats (rt_payload (wt_route wr)) - wt_commit_beat wr).
Definition port_work (q : PortView) : nat :=
  sum_list_with (fun p => 3 + 2 * burst_beats p)%nat (q_aw q) +
  sum_list_with (fun p => 1 + 2 * burst_beats p)%nat (q_ar q) + length (q_b q) + length (q_r q).
Definition work v : nat :=
  sum_list_with port_work (v_ports v) + sum_list_with read_work (v_reads v) +
  sum_list_with write_work (v_writes v).

Lemma sum_list_alter {A} (w : A -> nat) (g : A -> A) l i x :
  l !! i = Some x -> (sum_list_with w (alter g i l) + w x = sum_list_with w l + w (g x))%nat.
Proof.
  revert i. induction l as [|y l IH]; intros [|i] Hi; try done.
  - injection Hi as ->. change (alter g 0%nat (x :: l)) with (g x :: l). simpl. lia.
  - specialize (IH i Hi). change (alter g (S i) (y :: l)) with (y :: alter g i l). cbn [sum_list_with]. lia.
Qed.

Lemma sum_list_snoc {A} (w : A -> nat) l x :
  sum_list_with w (l ++ [x]) = (sum_list_with w l + w x)%nat.
Proof. induction l as [|y l IH]; simpl; lia. Qed.

(** The work of a view after a change of one port. *)
Lemma work_on_pv v port g :
  (port < length (v_ports v))%nat ->
  (work (on_pv port g v) + port_work (pv v port) = work v + port_work (g (pv v port)))%nat.
Proof.
  intros Hp. unfold work, on_pv. simpl.
  pose proof (sum_list_alter port_work g (v_ports v) port (pv v port)) as Hs.
  specialize (Hs ltac:(by apply lookup_total_lt)). lia.
Qed.

(** ** Every action but an acceptance does work *)
Definition accepting (e : event) : bool :=
  match e with AcceptAW _ _ | AcceptW _ _ | AcceptAR _ _ => true | _ => false end.

Lemma complete_work wr wr' ws v v' :
  (rt_port (wt_route wr') < length (v_ports v))%nat ->
  v_writes v = wr :: ws -> v_ports v' = v_ports v -> v_reads v' = v_reads v ->
  (work (complete wr' ws v') < work v)%nat.
Proof.
  intros Hp Hw Hports Hreads. unfold complete. set (v1 := v' <| v_writes := ws |>).
  set (g := fun q => q <| q_b ::= _ |>).
  pose proof (work_on_pv v1 (rt_port (wt_route wr')) g) as E.
  change (v_ports v1) with (v_ports v') in E. rewrite Hports in E. specialize (E Hp).
  assert (port_work (g (pv v1 (rt_port (wt_route wr')))) = S (port_work (pv v1 (rt_port (wt_route wr'))))) as Eg.
  { unfold port_work, g. simpl. rewrite length_app. simpl. lia. }
  assert (work v1 + write_work wr = work v)%nat as E1.
  { unfold work, v1. simpl. rewrite Hports, Hreads, Hw. cbn [sum_list_with]. lia. }
  assert (2 <= write_work wr)%nat by (unfold write_work; lia). lia.
Qed.

Lemma write_beat_work wr m v :
  (wt_commit_beat wr < burst_beats (rt_payload (wt_route wr)))%nat ->
  (write_work (write_beat wr m v).1 < write_work wr)%nat /\
  v_ports (write_beat wr m v).2 = v_ports v /\ v_reads (write_beat wr m v).2 = v_reads v.
Proof.
  intros Hc. unfold write_beat, write_work. destruct (write_impl _ _ _ _ _) as [resp h']. simpl.
  destruct (response_is_success resp); simpl; [destruct (is_exit _ _)|]; simpl; split_and!; (done || lia).
Qed.

Lemma write_device_work sp v wr ws m :
  view_wf sp v -> v_writes v = wr :: ws ->
  (work (let '(wr', v') := write_beat wr m v in advance wr' ws v') < work v)%nat.
Proof.
  intros Hv Hw. destruct (front_write sp v wr ws Hv Hw) as (Hwr & _).
  pose proof (write_beat_ports wr m v) as [_ Hport].
  destruct (write_beat_work wr m v (ww_commit _ _ Hwr)) as (Hlt & Hp & Hr).
  destruct (write_beat wr m v) as [wr' v']. simpl in *. unfold advance. destruct (_ =? _)%nat.
  - eapply complete_work; try done. rewrite Hport, (vw_length _ _ Hv). apply Hwr.
  - unfold work. simpl. rewrite Hp, Hr, Hw. unfold write_work in *. simpl. lia.
Qed.

Lemma read_step_work sp v r rs ms :
  view_wf sp v -> v_reads v = r :: rs ->
  (work (let (beat, h') := read_beat r (v_heap v) in
       on_pv (rt_port r) (fun q => q <| q_r ::= fun l => l ++ [beat] |>)
         (v <| v_heap := h' |> <| v_reads := after_read r rs |> <| v_monitors := ms |>)) < work v)%nat.
Proof.
  intros Hv Hr. destruct (front_read sp v r rs Hv Hr) as ([Hst Hb] & _).
  destruct (read_beat r (v_heap v)) as [beat h']. set (v1 := v <| v_heap := h' |> <| v_reads := _ |> <| v_monitors := ms |>).
  set (g := fun q => q <| q_r ::= _ |>).
  pose proof (work_on_pv v1 (rt_port r) g) as E. change (v_ports v1) with (v_ports v) in E.
  rewrite (vw_length _ _ Hv) in E. specialize (E (rs_port _ _ Hst)).
  assert (port_work (g (pv v1 (rt_port r))) = S (port_work (pv v1 (rt_port r)))) as Eg.
  { unfold port_work, g. simpl. rewrite length_app. simpl. lia. }
  assert (work v1 + 2 = work v)%nat as E1; [|lia].
  unfold work. change (v_ports v1) with (v_ports v). change (v_writes v1) with (v_writes v).
  change (v_reads v1) with (after_read r rs). rewrite Hr. cbn [sum_list_with].
  assert (sum_list_with read_work (after_read r rs) + 2 = read_work r + sum_list_with read_work rs)%nat; [|lia].
  assert (read_work r = 2 * (burst_beats (rt_payload r) - rt_beat r))%nat by done.
  assert (read_work (r <| rt_beat ::= S |>) = 2 * (burst_beats (rt_payload r) - S (rt_beat r)))%nat by done.
  unfold after_read. destruct (Nat.eqb_spec (S (rt_beat r)) (burst_beats (rt_payload r)));
    cbn [sum_list_with]; lia.
Qed.

(** The fabric takes the front of a queue of a port. *)
Lemma taken_work v v1 port g n :
  (port < length (v_ports v))%nat -> v_ports v1 = v_ports v ->
  (port_work (g (pv v port)) + n = port_work (pv v port))%nat -> (work v1 < work v + n)%nat ->
  (work (on_pv port g v1) < work v)%nat.
Proof.
  intros Hp Hports Hn Hw. pose proof (work_on_pv v1 port g) as E. rewrite Hports in E. specialize (E Hp).
  rewrite (pv_ports v v1 port Hports) in E. lia.
Qed.

Lemma step_work sp v e v' :
  view_wf sp v -> step sp v e v' -> accepting e = false -> (work v' < work v)%nat.
Proof.
  intros Hv Hst Ha. pose proof (vw_length _ _ Hv) as Hlen.
  destruct Hst as [v port p Hp Hr Hl|v port w Hp Hr Hl|v port p Hp Hr Hl|v port b rest Hp Hq
    |v port b rest Hp Hq|v port p rest r Hp Hq Hl Hr|v port p rest r Hp Hq Hl Hr
    |v wr ws w rest r Hw Hinc Hq Hlast Hstr|v wr ws m r Hw Hc Hx Hm Hl|v wr ws r Hw Hc Hx Hm Hl
    |v wr ws r Hw Hc Hx Hl|v r rs ms Hr Hl Hms]; try discriminate Ha.
  - apply (taken_work v _ port _ 1); [lia | done | | unfold work; simpl; lia].
    unfold port_work. simpl. rewrite Hq. simpl. lia.
  - apply (taken_work v _ port _ 1); [lia | done | | lia].
    unfold port_work. simpl. rewrite Hq. simpl. lia.
  - apply (taken_work v _ port _ (3 + 2 * burst_beats p)); [lia | done | |].
    + unfold port_work. simpl. rewrite Hq. simpl. lia.
    + unfold work. simpl v_ports. simpl v_reads. simpl v_writes. rewrite sum_list_snoc.
      unfold write_work at 2. simpl wt_route. simpl wt_commit_beat. rewrite (fr_payload _ _ _ _ _ Hr). lia.
  - apply (taken_work v _ port _ (1 + 2 * burst_beats p)); [lia | done | |].
    + unfold port_work. simpl. rewrite Hq. simpl. lia.
    + unfold work. simpl v_ports. simpl v_reads. simpl v_writes. rewrite sum_list_snoc.
      unfold read_work at 2. rewrite (fr_payload _ _ _ _ _ Hr). lia.
  - destruct (front_write sp v wr ws Hv Hw) as (Hwr & _). pose proof (ww_beat _ _ Hwr) as Hb.
    rewrite Hinc in Hb. apply (taken_work v _ (rt_port r) _ 0); [|done| |].
    + rewrite Hlen. apply Hwr.
    + unfold port_work. simpl. lia.
    + unfold work. simpl. rewrite Hw. cbn [sum_list_with]. unfold write_work. simpl. lia.
  - by eapply write_device_work.
  - destruct (front_write sp v wr ws Hv Hw) as (Hwr & _). eapply complete_work; try done.
    simpl. rewrite Hlen. apply Hwr.
  - destruct (front_write sp v wr ws Hv Hw) as (Hwr & _). pose proof (write_exclusive_ports wr v) as [Hp Er].
    pose proof (write_exclusive_frame wr v) as Ef. destruct (write_exclusive wr v) as [wr' v']. simpl in *.
    eapply complete_work; try done; [rewrite Er, Hlen; apply Hwr | by rewrite Ef].
  - by eapply read_step_work.
Qed.

Lemma steps_work sp v es v' :
  view_wf sp v -> steps sp v es v' -> Forall (fun e => accepting e = false) es ->
  (work v' + length es <= work v)%nat.
Proof.
  intros Hv Hs. induction Hs as [v|v e v1 es v2 Hst _ IH]; simpl; [lia|]. intros [He Hes]%Forall_cons.
  pose proof (step_work sp v e v1 Hv Hst He). specialize (IH (step_wf sp v e v1 Hv Hst) Hes). lia.
Qed.

(** ** A DUT that only takes responses *)
Definition draining_input (input : MasterSignals) : Prop :=
  m_aw_valid input = false /\ m_w_valid input = false /\ m_ar_valid input = false /\
  m_b_ready input = true /\ m_r_ready input = true.
Definition draining (dut : Dut) : Prop :=
  forall outs port, (port < NumPorts)%nat -> draining_input (dut outs !!! port).

(** Nothing is left to do, or the front write burst waits for data the DUT
    owes.  Writes are carried out in the order in which they were granted, so
    that those behind it wait with it, and requests wait for a route if the
    queue of routes is full. *)
Definition drained v : Prop :=
  v_reads v = [] /\
  (forall port, (port < NumPorts)%nat ->
     q_ar (pv v port) = [] /\ q_b (pv v port) = [] /\ q_r (pv v port) = []) /\
  let no_requests := forall port, (port < NumPorts)%nat -> q_aw (pv v port) = [] in
  match v_writes v with
  | [] => no_requests
  | wr :: ws => wt_data_complete wr = false /\ q_w (pv v (rt_port (wt_route wr))) = [] /\
                ((RouteDepth <= length (wr :: ws))%nat \/ no_requests)
  end.

(** Every request has been carried out and answered. *)
Definition answered v : Prop :=
  v_reads v = [] /\ v_writes v = [] /\
  forall port, (port < NumPorts)%nat ->
    q_aw (pv v port) = [] /\ q_ar (pv v port) = [] /\ q_b (pv v port) = [] /\ q_r (pv v port) = [].

(** ** The write data of a port *)

(** The beats that the bursts of a port lack. *)
Definition missing_beats (wr : WriteRoute) : nat :=
  burst_beats (rt_payload (wt_route wr)) - rt_beat (wt_route wr).
Definition owed v (port : nat) : nat :=
  sum_list_with burst_beats (q_aw (pv v port)) + sum_list_with missing_beats (writes_of port (v_writes v)).

(** The DUT has sent the data of all its bursts. *)
Definition data_sent v : Prop :=
  forall port, (port < NumPorts)%nat -> (owed v port <= length (q_w (pv v port)))%nat.

(** The balance of a port, the same before and after an action. *)
Definition same_balance v v' (port : nat) : Prop :=
  (owed v' port + length (q_w (pv v port)) = owed v port + length (q_w (pv v' port)))%nat.

Lemma owed_same v v' port :
  sum_list_with missing_beats (writes_of port (v_writes v'))
    = sum_list_with missing_beats (writes_of port (v_writes v)) ->
  q_aw (pv v' port) = q_aw (pv v port) -> q_w (pv v' port) = q_w (pv v port) -> same_balance v v' port.
Proof. unfold same_balance, owed. intros -> -> ->. lia. Qed.

Lemma front_missing wr wr' ws port :
  wt_route wr' = wt_route wr ->
  sum_list_with missing_beats (writes_of port (wr' :: ws)) = sum_list_with missing_beats (writes_of port (wr :: ws)).
Proof. intros E. rewrite !writes_of_cons, E. destruct (decide _); [|done]. simpl. unfold missing_beats. by rewrite E. Qed.

Lemma complete_balance sp wr wr' ws v v' port :
  write_wf sp wr -> wt_data_complete wr = true -> v_writes v = wr :: ws -> v_ports v' = v_ports v ->
  same_balance v (complete wr' ws v') port.
Proof.
  intros Hwr Hc Hw Hp. apply owed_same.
  - unfold complete. simpl v_writes. rewrite Hw, writes_of_cons. destruct (decide _); [|done]. simpl.
    pose proof (ww_beat _ _ Hwr) as Hb. rewrite Hc in Hb. unfold missing_beats at 2. lia.
  - unfold complete. rewrite (pv_on_pv_proj q_aw) by done. by rewrite (pv_ports v (v' <| v_writes := ws |>)).
  - unfold complete. rewrite (pv_on_pv_proj q_w) by done. by rewrite (pv_ports v (v' <| v_writes := ws |>)).
Qed.

Lemma grant_balance v port port' p rest r :
  (port' < length (v_ports v))%nat -> q_aw (pv v port') = p :: rest ->
  rt_port r = port' -> rt_payload r = p -> rt_beat r = 0%nat ->
  same_balance v (on_pv port' (fun q => q <| q_aw := rest |>)
                    (v <| v_writes ::= fun l => l ++ [new_write r] |>)) port.
Proof.
  intros Hp Hq Hrp Hrpl Hrb. unfold same_balance, owed. rewrite (pv_on_pv_proj q_w) by done.
  change (q_w (pv (v <| v_writes ::= fun l => l ++ [new_write r] |>) port)) with (q_w (pv v port)).
  simpl v_writes. unfold writes_of at 1. rewrite filter_app, sum_list_with_app.
  fold (writes_of port (v_writes v)). fold (writes_of port [new_write r]). rewrite writes_of_cons.
  change (rt_port (wt_route (new_write r))) with (rt_port r). rewrite Hrp.
  destruct (decide (port' = port)) as [<-|Hne].
  - rewrite pv_on_pv_eq by done.
    change (q_aw (pv (v <| v_writes ::= fun l => l ++ [new_write r] |>) port')) with (q_aw (pv v port')).
    rewrite Hq. simpl. unfold missing_beats at 2. simpl. rewrite Hrpl, Hrb. lia.
  - rewrite pv_on_pv_ne by done.
    change (pv (v <| v_writes ::= fun l => l ++ [new_write r] |>) port) with (pv v port). simpl. lia.
Qed.

Lemma stage_balance sp v wr ws w rest port :
  write_wf sp wr -> wt_data_complete wr = false -> v_writes v = wr :: ws ->
  (rt_port (wt_route wr) < length (v_ports v))%nat -> q_w (pv v (rt_port (wt_route wr))) = w :: rest ->
  same_balance v (on_pv (rt_port (wt_route wr)) (fun q => q <| q_w := rest |>)
                    (v <| v_writes := stage wr w :: ws |>)) port.
Proof.
  intros Hwr Hc Hw Hp Hq. unfold same_balance, owed. rewrite (pv_on_pv_proj q_aw) by done.
  change (q_aw (pv (v <| v_writes := stage wr w :: ws |>) port)) with (q_aw (pv v port)).
  simpl v_writes. rewrite Hw, !writes_of_cons.
  change (rt_port (wt_route (stage wr w))) with (rt_port (wt_route wr)).
  destruct (decide (rt_port (wt_route wr) = port)) as [<-|Hne].
  - rewrite pv_on_pv_eq by done. rewrite Hq. simpl. unfold missing_beats at 1 3. simpl.
    pose proof (ww_beat _ _ Hwr) as Hb. rewrite Hc in Hb. lia.
  - rewrite pv_on_pv_ne by done. done.
Qed.

Lemma step_balance sp v e v' port :
  view_wf sp v -> step sp v e v' -> accepting e = false -> same_balance v v' port.
Proof.
  intros Hv Hst Ha. pose proof (vw_length sp v Hv) as Hlen.
  destruct Hst as [v port' p Hp Hr Hl|v port' w Hp Hr Hl|v port' p Hp Hr Hl|v port' b rest Hp Hq
    |v port' b rest Hp Hq|v port' p rest r Hp Hq Hl Hr|v port' p rest r Hp Hq Hl Hr
    |v wr ws w rest r Hw Hinc Hq Hlast Hstr|v wr ws m r Hw Hc Hx Hm Hl|v wr ws r Hw Hc Hx Hm Hl
    |v wr ws r Hw Hc Hx Hl|v r rs ms Hr Hl Hms]; try discriminate Ha;
    try (apply owed_same; [done | by rewrite (pv_on_pv_proj q_aw) | by rewrite (pv_on_pv_proj q_w)]);
    try (destruct (front_write sp v wr ws Hv Hw) as (Hwr & Hp & _); rewrite <- Hlen in Hp).
  - apply (grant_balance v port port' p); [by rewrite Hlen | done | apply Hr..].
  - by eapply stage_balance.
  - pose proof (write_beat_ports wr m v) as [Ep _]. pose proof (write_beat_route wr m v) as (Er & _).
    destruct (write_beat wr m v) as [wr' v']. simpl in *. unfold advance.
    destruct (_ =? _)%nat; [by eapply complete_balance|]. apply owed_same; [|by rewrite (pv_ports v)..].
    simpl v_writes. rewrite Hw. by apply front_missing.
  - by eapply complete_balance.
  - pose proof (write_exclusive_ports wr v) as [Ep Er].
    destruct (write_exclusive wr v) as [wr' v']. simpl in *. by eapply complete_balance.
  - destruct (read_beat r (v_heap v)).
    apply owed_same; [done | by rewrite (pv_on_pv_proj q_aw) | by rewrite (pv_on_pv_proj q_w)].
Qed.

Lemma steps_data_sent sp v es v' :
  view_wf sp v -> steps sp v es v' -> Forall (fun e => accepting e = false) es ->
  data_sent v -> data_sent v'.
Proof.
  intros Hv Hs. induction Hs as [v|v e v1 es v2 Hst _ IH]; [done|]. intros [He Hes]%Forall_cons Hd.
  apply IH; [by eapply step_wf | done|]. intros port Hp. pose proof (step_balance sp v e v1 port Hv Hst He) as Hb.
  specialize (Hd port Hp). unfold same_balance in Hb. lia.
Qed.

(** With all the data there, a drained fabric has answered every request. *)
Lemma drained_answered sp v : view_wf sp v -> drained v -> data_sent v -> answered v.
Proof.
  intros Hv (Hr & Hq & Hw) Hd. destruct (v_writes v) as [|wr ws] eqn:Ew.
  - split; [done|]. split; [done|]. intros port Hp. destruct (Hq port Hp) as (? & ? & ?). auto.
  - exfalso. destruct Hw as (Hinc & Hnil & _). destruct (front_write sp v wr ws Hv Ew) as (Hwr & Hp & _).
    specialize (Hd _ Hp). rewrite Hnil in Hd. unfold owed in Hd. rewrite Ew, writes_of_cons, decide_True in Hd by done.
    pose proof (ww_beat _ _ Hwr) as Hb. rewrite Hinc in Hb. simpl in Hd. unfold missing_beats in Hd. lia.
Qed.

Lemma draining_wf dut : draining dut -> dut_wf dut.
Proof. intros Hd outs port Hp. destruct (Hd outs port Hp) as (E1 & E2 & E3 & _). split_and!; congruence. Qed.

Lemma draining_events dut outs e :
  draining dut -> e ∈ cycle_events outs (dut outs) -> accepting e = false.
Proof.
  intros Hd. unfold cycle_events. intros [Hin|Hin]%elem_of_app;
    apply list_elem_of_bind in Hin as (port & Hin & Hp%elem_of_seq).
  - unfold retire_events in Hin. destruct (_ && _), (_ && _); simpl in Hin; set_solver.
  - destruct (Hd outs port ltac:(lia)) as (E1 & E2 & E3 & _). unfold accept_events in Hin.
    rewrite E1, E2, E3 in Hin. simpl in Hin. set_solver.
Qed.

Lemma draining_quiet dut outs :
  draining dut -> cycle_events outs (dut outs) = [] ->
  forall port, (port < NumPorts)%nat -> s_b_valid (outs !!! port) = false /\ s_r_valid (outs !!! port) = false.
Proof.
  intros Hd He port Hp. destruct (Hd outs port Hp) as (_ & _ & _ & E4 & E5).
  unfold cycle_events in He. apply app_nil in He as [He _].
  assert (retire_events outs (dut outs) port = []) as Hnil.
  { apply elem_of_nil_inv. intros e Hin. apply (not_elem_of_nil e). rewrite <- He.
    apply list_elem_of_bind. exists port. split; [done|]. apply elem_of_seq. lia. }
  unfold retire_events in Hnil. rewrite E4, E5, !andb_true_r in Hnil.
  by destruct (s_b_valid _), (s_r_valid _).
Qed.

(** A fabric with empty response queues that cannot act is drained. *)
Lemma blocked_drained v :
  blocked v ->
  (forall port, (port < NumPorts)%nat -> q_b (pv v port) = [] /\ q_r (pv v port) = []) ->
  (forall r, r ∈ v_reads v -> (rt_port r < NumPorts)%nat) ->
  (forall wr, wr ∈ v_writes v -> (rt_port (wt_route wr) < NumPorts)%nat) ->
  drained v.
Proof.
  intros (Hw & Hr & Haw & Har) Hq Hpr Hpw. pose proof ResponseDepth_pos. pose proof RouteDepth_pos.
  assert (v_reads v = []) as Er.
  { unfold read_blocked in Hr. destruct (v_reads v) as [|r rs]; [done|].
    destruct (Hq (rt_port r) (Hpr r ltac:(set_solver))) as [_ E]. rewrite E in Hr. simpl in Hr. lia. }
  split; [done|]. split.
  - intros port Hp. destruct (Hq port Hp) as [-> ->]. split_and!; try done.
    rewrite Er in Har. simpl in Har. destruct Har as [|Har]; [lia | by apply Har].
  - unfold write_blocked in Hw. destruct (v_writes v) as [|wr ws]; cbn zeta in *.
    + destruct Haw as [Haw|Haw]; [simpl in Haw; lia | done].
    + destruct (wt_data_complete wr); [exfalso | by split_and!].
      destruct (Hq (rt_port (wt_route wr)) (Hpw wr ltac:(set_solver))) as [E _].
      rewrite E in Hw. simpl in Hw. lia.
Qed.

Lemma draining_cycle dut f :
  fabric_wf f -> draining dut ->
  match cycle dut false f with
  | (Ok _, f') => fabric_wf f' /\ (data_sent (view f) -> data_sent (view f')) /\
      ((work (view f') < work (view f))%nat \/ (drained (view f) /\ view f' = view f))
  | (Throw e, f') => violation f e f'
  end.
Proof.
  intros Hf Hd. destruct (cycle_spec dut f Hf (draining_wf dut Hd)) as (outs & rs & Hdr & Hpr & Hc).
  unfold cycle, bind. rewrite Hdr. destruct (commit _ _ _) as [[u|e] f']; [|done].
  destruct Hc as [es [Hf' _ _ Hst Hev _ Hbl]]. split; [done|].
  pose proof (fw_view f Hf) as Hv. assert (Forall (fun e => accepting e = false) es) as Hna.
  { apply Forall_forall. intros e He. destruct (external e) eqn:Hx; [|by destruct e].
    apply (draining_events dut outs e Hd). rewrite <- Hev. by apply elem_of_filter_bool. }
  split; [by eapply steps_data_sent|]. pose proof (steps_work _ _ _ _ Hv Hst Hna) as Hwork.
  destruct es as [|e es]; [|left; simpl in Hwork; lia]. right. apply steps_nil_inv in Hst as E.
  split; [|done]. apply blocked_drained; [by apply Hbl | | |].
  - intros port Hp. destruct (draining_quiet dut outs Hd (eq_sym Hev) port Hp) as [Eb Er].
    destruct (Hpr port Hp) as [Hb Hr]. auto.
  - intros r Hr. destruct (vw_reads _ _ Hv) as [Hall _]. rewrite Forall_forall in Hall.
    destruct (Hall r Hr) as [Hs _]. apply Hs.
  - intros wr Hwr. destruct (vw_writes _ _ Hv) as [Hall _]. rewrite Forall_forall in Hall.
    apply (Hall wr Hwr).
Qed.

(** [n] cycles with the same DUT. *)
Fixpoint cycles (n : nat) (dut : Dut) : M (Fabric H) unit :=
  match n with O => ret tt | S n => cycle dut false ;;; cycles n dut end.

(** C16: the fabric does not deadlock.  A DUT that sends nothing new and takes
    every response sees it drain: after at most [work] cycles, a number
    computed from the queues and routes, every read has been carried out and
    answered, and so has every write burst up to the first one whose data the
    DUT has not sent.  That burst is then at the front of the write routes, and
    those granted after it wait for it, on whatever port.  If the data of all
    bursts has been sent, every request has been carried out and answered.  The
    only other outcome is that the DUT is told of a protocol violation. *)
Theorem fabric_drains dut f :
  fabric_wf f -> draining dut ->
  exists n, (n <= S (work (view f)))%nat /\
    match cycles n dut f with
    | (Ok _, f') => drained (view f') /\ (data_sent (view f) -> answered (view f'))
    | (Throw e, _) => exists ctx why, e = ProtocolError (Some ctx) why /\ why ∈ protocol_details
    end.
Proof.
  intros Hf Hd. remember (work (view f)) as w eqn:Hw. revert f Hf Hw.
  induction (lt_wf w) as [w _ IH]. intros f Hf ->. pose proof (draining_cycle dut f Hf Hd) as Hc.
  destruct (cycle dut false f) as [[u|e] f1] eqn:Ecy.
  - destruct Hc as (Hf1 & Hsent & [Hlt|[Hdr _]]).
    2:{ exists 0%nat. split; [lia|]. split; [done|]. by eapply drained_answered; [apply Hf|]. }
    destruct (IH _ Hlt f1 Hf1 eq_refl) as (n & Hn & Hout). exists (S n). split; [lia|].
    cbn [cycles]. unfold bind. rewrite Ecy. destruct (cycles n dut f1) as [[]?]; naive_solver.
  - exists 1%nat. split; [lia|]. cbn [cycles]. unfold bind. rewrite Ecy.
    destruct Hc as [(ctx & why & He & Hin & _) _]. eauto.
Qed.
End Liveness.
