(* ===== verification/FabricExclusive.v ===== *)
(** * Exclusive accesses

    What the exclusive monitors of [AxiFabric] promise: an exclusive read leaves
    its port one reservation for its identifier; a successful write breaks
    exactly the reservations of the bytes it wrote; an exclusive write reaches
    its device only with the reservation of the same burst, and uses it up. *)
From S2P Require Import Prelude RingBuffer Axi Device Fabric FabricSpec FabricPorts FabricInv.
From S2P Require Import FabricRoutes FabricBeats FabricWrites.

Section Exclusive.
Context {cfg : FabricConfig} `{!FabricConfigOk cfg} {H : Type} `{!DeviceHeap H, !DeviceHeapLaws H}.
Implicit Types (f : Fabric H) (v : View H) (sp : AddressSpace) (p : AddressPayload).

(** The monitors whose range holds no strobed byte stay as they are. *)
Definition untouched (a : Z) (strobes : list Z) (m : ExclusiveMonitor) : Prop :=
  forall k, (k < length strobes)%nat -> nz (strobes !!! k) = true -> monitor_covers (a + Z.of_nat k) m = false.

Lemma invalidate_bytes_keeps a strobes ms i m :
  ms !! i = Some m -> untouched a strobes m -> invalidate_bytes a strobes ms !! i = Some m.
Proof.
  intros Hi Hu. unfold invalidate_bytes.
  assert (forall l ms, (forall k, k ∈ l -> (k < length strobes)%nat) -> ms !! i = Some m ->
    foldl (fun ms k => if nz (strobes !!! k) then invalidate (a + Z.of_nat k) ms else ms) ms l !! i = Some m) as Hind.
  { induction l as [|k l IH]; intros ms0 Hl H0; [done|]. simpl. apply IH; [set_solver|].
    destruct (nz (strobes !!! k)) eqn:E; [|done]. unfold invalidate. rewrite list_lookup_fmap, H0. simpl.
    by rewrite (Hu k (Hl k ltac:(set_solver)) E). }
  apply Hind; [|done]. intros k Hk%elem_of_seq. lia.
Qed.

(** The reservations that hold after a successful write are those that held
    before it and cover no written byte. *)
Lemma reservations_after_write a strobes ms i m :
  mon_valid m = true ->
  invalidate_bytes a strobes ms !! i = Some m <-> ms !! i = Some m /\ untouched a strobes m.
Proof.
  intros Hv. split; [intros Hi|intros [Hi Hu]; by apply invalidate_bytes_keeps].
  split; [by apply (invalidate_bytes_weakened a strobes ms)|]. intros k Hk Hnz.
  pose proof (invalidate_bytes_breaks a strobes ms k Hk Hnz) as Hall. rewrite Forall_lookup in Hall. eauto.
Qed.

(** C25: a device write of the fabric takes away exactly the reservations that
    cover a byte it strobed, and none if the device reported an error. *)
Theorem writes_break_the_reservations_they_overlap sp f wr ws m :
  space_wf sp -> write_wf sp wr -> m ∈ mappings_ sp -> covers m (rt_payload (wt_route wr)) ->
  rb_wf RouteDepth (write_routes_ f) -> rb_list RouteDepth (write_routes_ f) = wr :: ws ->
  let p := rt_payload (wt_route wr) in
  let i := wt_commit_beat wr in
  exists resp wr' f',
    write_device_beat wr m (cursor_of p) i (wt_staged_data wr !!! i) (wt_staged_strobe wr !!! i) f
      = (Ok (resp, wr'), f') /\
    forall slot mon, mon_valid mon = true ->
      monitors_ f' !! slot = Some mon <->
        monitors_ f !! slot = Some mon /\
        (response_is_success resp = true ->
           untouched (beat_at p i) (beat_strobes (wt_staged_strobe wr !!! i) p i) mon).
Proof.
  intros Hsp Hwr Hm Hcov Hq Hl p i. pose proof (write_device_beat_spec sp f wr ws m Hsp Hwr Hm Hcov Hq Hl) as Hs.
  fold p i in Hs. cbv zeta in Hs. destruct (write_impl _ _ _ _ _) as [resp h'] eqn:Ew.
  unfold wp in Hs. destruct (write_device_beat _ _ _ _ _ _ _) as [[[resp' wr']|e] f'] eqn:Eb; [|done].
  destruct Hs as ([= -> _] & q & x & _ & _ & ->). eexists resp, wr', _. split; [done|].
  intros slot mon Hv. simpl. destruct (response_is_success resp).
  - rewrite reservations_after_write by done. naive_solver.
  - naive_solver.
Qed.

(** ** The reservation of a port and identifier *)
Lemma monitor_of_spec ms port id m :
  monitors_unique ms ->
  monitor_of ms port id = Some m <->
  exists i, ms !! i = Some m /\ mon_valid m = true /\ mon_port m = port /\ mon_id m = id.
Proof.
  intros Hu. unfold monitor_of. destruct (find_index _ ms) as [k|] eqn:Hf; simpl.
  - pose proof Hf as (m' & Hm' & Hmm)%find_index_some. pose proof Hmm as (Hv & Hp & Hid)%monitor_matches_spec.
    split; [intros E; exists k; by simplify_eq|]. intros (i & Hi & Hv2 & Hp2 & Hid2).
    assert (i = k) as ->; [|done]. apply (Hu i k m m'); try done. split; congruence.
  - split; [done|]. intros (i & Hi & Hm). exfalso.
    pose proof (find_index_none _ _ _ _ Hf Hi) as Hn. apply monitor_matches_spec in Hm. congruence.
Qed.

(** The slot [reserve] takes is the port's own or a free one. *)
Lemma reserve_slot r ms ms' :
  reserve r ms = Some ms' ->
  exists k old, ms !! k = Some old /\ ms' = <[k := reservation r]> ms /\
    (mon_valid old = true -> mon_port old = rt_port r /\ mon_id old = ap_id (rt_payload r)).
Proof.
  unfold reserve. intros (k & Hk & ->)%fmap_Some. exists k.
  destruct (find_index (monitor_matches _ _) ms) as [k'|] eqn:Hf; simplify_eq.
  - apply find_index_some in Hf as (old & Hold & (_ & Hp & Hid)%monitor_matches_spec). eauto.
  - apply find_index_some in Hk as (old & Hold & Hn%negb_true_iff). exists old. split_and!; congruence.
Qed.

Lemma reserve_spec r ms ms' :
  monitors_unique ms -> reserve r ms = Some ms' ->
  monitor_of ms' (rt_port r) (ap_id (rt_payload r)) = Some (reservation r) /\
  forall port id, (port, id) <> (rt_port r, ap_id (rt_payload r)) ->
    monitor_of ms' port id = monitor_of ms port id.
Proof.
  intros Hu Hr. pose proof (reserve_unique r ms ms' Hu Hr) as Hu'.
  apply reserve_slot in Hr as (k & old & Hold & -> & Hown).
  pose proof (lookup_lt_Some _ _ _ Hold) as Hlt. split.
  - apply monitor_of_spec; [done|]. exists k. split; [|done]. by rewrite list_lookup_insert_eq.
  - intros port id Hne. apply option_eq. intros m. rewrite !monitor_of_spec by done.
    split; intros (i & Hi & Hv & Hp & Hid); exists i; (split; [|done]).
    + destruct (decide (i = k)) as [->|]; [|by rewrite list_lookup_insert_ne in Hi].
      rewrite list_lookup_insert_eq in Hi by done. injection Hi as <-. destruct Hne. simpl in *. congruence.
    + rewrite list_lookup_insert_ne; [done|]. intros <-. simplify_eq.
      destruct (Hown Hv) as [E1 E2]. destruct Hne. congruence.
Qed.

Lemma reserve_none r ms :
  reserve r ms = None ->
  forall m, m ∈ ms -> mon_valid m = true /\ ~ (mon_port m = rt_port r /\ mon_id m = ap_id (rt_payload r)).
Proof.
  unfold reserve. intros Hn%fmap_None m (i & Hi)%list_elem_of_lookup.
  destruct (find_index (monitor_matches _ _) ms) eqn:Hf; [done|].
  pose proof (find_index_none _ _ _ _ Hf Hi) as Hm. pose proof (find_index_none _ _ _ _ Hn Hi) as Hv.
  apply negb_false_iff in Hv. split; [done|]. intros Ho.
  by rewrite (proj2 (monitor_matches_spec _ _ _) (conj Hv Ho)) in Hm.
Qed.

(** C26: an exclusive read gives its port the reservation of exactly its burst
    for its identifier and leaves those of all other (port, identifier) pairs
    alone; it can only fail when every monitor is held by another pair. *)
Theorem exclusive_read_reserves sp f r :
  read_wf sp r -> rt_exclusive r = true -> monitors_unique (monitors_ f) ->
  let owner := (rt_port r, ap_id (rt_payload r)) in
  match establish_monitor r f with
  | (Ok _, f') =>
      monitors_unique (monitors_ f') /\
      monitor_of (monitors_ f') owner.1 owner.2 = Some (reservation r) /\
      (forall port id, (port, id) <> owner ->
         monitor_of (monitors_ f') port id = monitor_of (monitors_ f) port id) /\
      f' = f <| monitors_ := monitors_ f' |>
  | (Throw e, f') =>
      (forall m, m ∈ monitors_ f -> mon_valid m = true /\ (mon_port m, mon_id m) <> owner) /\
      f_heap f' = f_heap f
  end.
Proof.
  intros Hr Hx Hu owner. pose proof (establish_monitor_spec sp f r Hr Hx) as He. unfold wp in He.
  destruct (establish_monitor r f) as [[u|e] f'].
  - destruct He as (ms & Hms & ->). simpl. split; [by eapply reserve_unique|].
    destruct (reserve_spec r _ _ Hu Hms) as [H1 H2]. by split_and!.
  - destruct He as [[_ Hh] Hn]. split; [|done]. intros m Hm.
    destruct (reserve_none _ _ Hn m Hm) as [Hv Ho]. split; [done|]. intros [= E1 E2]. by apply Ho.
Qed.

(** What an exclusive write answers and does to the devices. *)
Definition exclusive_outcome wr (ms : list ExclusiveMonitor) (h : H) (resp : Response) (h' : H) : Prop :=
  let r := wt_route wr in
  let p := rt_payload r in
  match served r with
  | None => resp = rt_forced_response r /\ h' = h
  | Some m =>
      if bool_decide (monitor_of ms (rt_port r) (ap_id p) ≫= (fun mon => Some (mon_payload mon)) = Some p) then
        let '(answer, h1) := write_impl (map_device m) (ap_address p - map_base m)
                               (exclusive_bytes wr) (exclusive_strobes wr) h in
        h' = h1 /\ resp = if response_is_success answer then ExclusiveOkay else answer
      else resp = Okay /\ h' = h
  end.

Lemma write_exclusive_outcome wr v :
  monitors_unique (v_monitors v) ->
  exclusive_outcome wr (v_monitors v) (v_heap v) (wt_response (write_exclusive wr v).1) (v_heap (write_exclusive wr v).2) /\
  monitor_of (v_monitors (write_exclusive wr v).2) (rt_port (wt_route wr)) (ap_id (rt_payload (wt_route wr))) = None.
Proof.
  intros Hu. unfold exclusive_outcome, write_exclusive.
  destruct (served _) as [m|]; [|simpl; auto using release_clears].
  destruct (monitor_of _ _ _) as [mon|]; simpl; [|auto using release_clears].
  rewrite (bool_decide_ext (Some (mon_payload mon) = Some (rt_payload (wt_route wr)))
    (mon_payload mon = rt_payload (wt_route wr))) by (split; congruence).
  case_bool_decide; simpl; [|auto using release_clears].
  destruct (write_impl _ _ _ _ _) as [answer h1]. simpl. split; [done|]. apply release_clears.
  destruct (response_is_success answer); [|done]. eapply weakened_unique; [|exact Hu].
  apply invalidate_bytes_weakened.
Qed.

(** C24: an exclusive write never fails inside the fabric.  It reaches the
    device, as one access with the bytes of all its beats, only if its port
    holds the reservation that an exclusive read of the same burst made; EXOKAY
    says that the device accepted it.  Without the reservation the answer is
    OKAY and no device is touched.  The reservation is used up in any case. *)
Theorem exclusive_write_needs_its_reservation sp f wr ws :
  space_wf sp -> write_wf sp wr -> rt_exclusive (wt_route wr) = true ->
  rb_wf RouteDepth (write_routes_ f) -> rb_list RouteDepth (write_routes_ f) = wr :: ws ->
  monitors_unique (monitors_ f) ->
  exists wr' f', finish_exclusive_write wr (cursor_of (rt_payload (wt_route wr))) f = (Ok wr', f') /\
    exclusive_outcome wr (monitors_ f) (f_heap f) (wt_response wr') (f_heap f') /\
    monitor_of (monitors_ f') (rt_port (wt_route wr)) (ap_id (rt_payload (wt_route wr))) = None.
Proof.
  intros Hsp Hwr Hx Hq Hl Hu. pose proof (finish_exclusive_write_spec sp f wr ws Hsp Hwr Hx Hq Hl) as Hs.
  unfold wp in Hs. destruct (finish_exclusive_write _ _ _) as [[wr'|e] f']; [|done].
  destruct Hs as (-> & q & x & _ & _ & ->). eexists _, _. split; [done|].
  by apply (write_exclusive_outcome wr (view f)).
Qed.
End Exclusive.
