(* ===== verification/FabricStall.v ===== *)
(** * Random stalls

    The generator behind [allow_ready]: a xorshift on a 64-bit state that
    permutes the non-zero states, so that no seed gets stuck, and the decision
    to stall. *)
From Stdlib Require Import SpecFloat Znumtheory Zpow_facts.
From S2P Require Import Prelude RingBuffer Axi Device Fabric.

(** ** The generator *)
Definition random_state (s : Z) : Prop := 0 < s < 2 ^ 64.

Definition xor_left (k s : Z) : Z := Z.lxor s (u64 (Z.shiftl s k)).
Definition xor_right (k s : Z) : Z := Z.lxor s (Z.shiftr s k).

Lemma xorshift_stages s : xorshift s = xor_left 17 (xor_right 7 (xor_left 13 s)).
Proof. done. Qed.

Lemma fits_lxor a b : fits 64 a -> fits 64 b -> fits 64 (Z.lxor a b).
Proof.
  unfold fits. intros Ha Hb. split; [apply Z.lxor_nonneg; lia|].
  destruct (Z.eq_dec (Z.lxor a b) 0) as [->|Hn]; [lia|].
  apply Z.log2_lt_pow2; [pose proof (proj2 (Z.lxor_nonneg a b)); lia|].
  eapply Z.le_lt_trans; [apply Z.log2_lxor; lia|].
  assert (forall x, 0 <= x < 2 ^ 64 -> Z.log2 x < 64) as Hlog.
  { intros x Hx. destruct (Z.eq_dec x 0) as [->|]; [done|]. apply Z.log2_lt_pow2; lia. }
  apply Z.max_lub_lt; auto.
Qed.

Lemma xor_left_fits k s : fits 64 s -> fits 64 (xor_left k s).
Proof. intros. by apply fits_lxor, u64_fits. Qed.
Lemma xor_right_fits k s : 0 <= k -> fits 64 s -> fits 64 (xor_right k s).
Proof.
  intros Hk Hs. apply fits_lxor; [done|]. unfold fits in *. rewrite Z.shiftr_div_pow2 by done.
  pose proof (Z.pow_pos_nonneg 2 k). split; [apply Z.div_pos; lia|].
  apply Z.div_lt_upper_bound; [lia|]. nia.
Qed.

(** Both stages are linear over GF(2) ... *)
Lemma u64_lxor a b : u64 (Z.lxor a b) = Z.lxor (u64 a) (u64 b).
Proof.
  unfold u64, wrap. apply Z.bits_inj'. intros n Hn. destruct (Z.lt_ge_cases n 64).
  - rewrite Z.lxor_spec, !Z.mod_pow2_bits_low by lia. by rewrite Z.lxor_spec.
  - rewrite Z.lxor_spec, !Z.mod_pow2_bits_high by lia. done.
Qed.

Lemma lxor_swap a b c d : Z.lxor (Z.lxor a b) (Z.lxor c d) = Z.lxor (Z.lxor a c) (Z.lxor b d).
Proof. rewrite <- !Z.lxor_assoc. f_equal. rewrite !Z.lxor_assoc. f_equal. apply Z.lxor_comm. Qed.

Lemma xor_left_linear k a b : xor_left k (Z.lxor a b) = Z.lxor (xor_left k a) (xor_left k b).
Proof. unfold xor_left. rewrite Z.shiftl_lxor, u64_lxor. apply lxor_swap. Qed.
Lemma xor_right_linear k a b : xor_right k (Z.lxor a b) = Z.lxor (xor_right k a) (xor_right k b).
Proof. unfold xor_right. rewrite Z.shiftr_lxor. apply lxor_swap. Qed.

(** ... with a trivial kernel. *)
Lemma xor_left_kernel k s : 0 < k -> fits 64 s -> xor_left k s = 0 -> s = 0.
Proof.
  unfold fits, xor_left. intros Hk Hs He%Z.lxor_eq. rewrite Z.shiftl_mul_pow2 in He by lia.
  unfold u64, wrap in He. assert ((2 ^ 64 | s * (2 ^ k - 1))) as Hd.
  { exists (s * 2 ^ k / 2 ^ 64). pose proof (Z.div_mod (s * 2 ^ k) (2 ^ 64)). lia. }
  rewrite Z.mul_comm in Hd. apply Gauss in Hd as [q Hq].
  - nia.
  - apply rel_prime_sym. apply rel_prime_Zpower_r; [lia|]. apply rel_prime_sym.
    apply Zgcd_1_rel_prime. rewrite Z.gcd_comm. apply Z.gcd_unique; [lia | ..].
    + apply Z.divide_1_l.
    + apply Z.divide_1_l.
    + intros q Hq1 Hq2. replace 1 with (2 * 2 ^ (k - 1) - (2 ^ k - 1)).
      * apply Z.divide_sub_r; [|done]. by apply Z.divide_mul_l.
      * rewrite <- Z.pow_succ_r by lia. replace (Z.succ (k - 1)) with k by lia. lia.
Qed.

Lemma xor_right_kernel k s : 0 < k -> fits 64 s -> xor_right k s = 0 -> s = 0.
Proof.
  unfold fits, xor_right. intros Hk Hs He%Z.lxor_eq. rewrite Z.shiftr_div_pow2 in He by lia.
  destruct (Z.eq_dec s 0); [done|]. assert (1 < 2 ^ k) by (apply Z.pow_gt_1; lia).
  pose proof (Z.div_lt s (2 ^ k)). lia.
Qed.

Lemma xorshift_fits s : fits 64 s -> fits 64 (xorshift s).
Proof.
  intros Hs. rewrite xorshift_stages. apply xor_left_fits, xor_right_fits; [done|]. by apply xor_left_fits.
Qed.

Lemma xorshift_linear a b : xorshift (Z.lxor a b) = Z.lxor (xorshift a) (xorshift b).
Proof. by rewrite !xorshift_stages, xor_left_linear, xor_right_linear, xor_left_linear. Qed.

Lemma xorshift_kernel s : fits 64 s -> xorshift s = 0 -> s = 0.
Proof.
  intros Hs. rewrite xorshift_stages. pose proof (xor_left_fits 13 s Hs) as H1.
  pose proof (xor_right_fits 7 _ ltac:(done) H1) as H2.
  intros E%xor_left_kernel; [|done..]. apply xor_right_kernel in E; [|done..]. by apply xor_left_kernel in E.
Qed.

Lemma random_state_fits s : random_state s <-> fits 64 s /\ s <> 0.
Proof. unfold random_state, fits. lia. Qed.

Lemma xorshift_random s : random_state s -> random_state (xorshift s).
Proof.
  rewrite !random_state_fits. intros [Hs Hn]. split; [by apply xorshift_fits|]. by intros E%xorshift_kernel.
Qed.

(** C40: the generator never reaches the state 0, from which it would not move,
    and never merges two states: every seed, the default for 0 included, keeps
    producing the decisions of a permutation of the non-zero 64-bit states. *)
Theorem xorshift_permutes_the_nonzero_states :
  (forall s, random_state s -> random_state (xorshift s)) /\
  (forall s t, random_state s -> random_state t -> xorshift s = xorshift t -> s = t) /\
  (forall {H} (f : Fabric H) seed, fits 64 seed -> random_state (random_state_ (set_seed seed f))).
Proof.
  split; [exact xorshift_random|]. split.
  - intros s t [Hs _]%random_state_fits [Ht _]%random_state_fits E. apply Z.lxor_eq, xorshift_kernel.
    + by apply fits_lxor.
    + by rewrite xorshift_linear, E, Z.lxor_nilpotent.
  - intros H f seed Hseed. unfold set_seed, random_state, fits in *. simpl.
    destruct (Z.eqb_spec seed 0); lia.
Qed.
