(* ===== verification/FabricData.v ===== *)
(** * The width of read data

    In the C++ code the data of a beat is an array of the width of the bus; in
    the model it is a list.  Every beat the fabric buffers, and every one it
    drives, has that width, so that the list stands for the array. *)
From S2P Require Import Prelude RingBuffer Axi Device Fabric FabricSpec FabricPorts FabricInv.
From S2P Require Import FabricRoutes FabricBeats FabricWrites FabricCommit FabricTheorems FabricRuns.

Section Data.
Context {cfg : FabricConfig} `{!FabricConfigOk cfg} {H : Type} `{!DeviceHeap H, !DeviceHeapLaws H}.
Implicit Types (f : Fabric H) (v : View H) (sp : AddressSpace) (q : PortView).

Definition bus_wide (b : ReadDataPayload) : Prop := length (rd_data b) = DATA_BYTES.
Definition sized v : Prop := Forall (fun q => Forall bus_wide (q_r q)) (v_ports v).

Lemma sized_ports v v' : v_ports v' = v_ports v -> sized v -> sized v'.
Proof. unfold sized. by intros ->. Qed.

Lemma sized_port sp v port :
  view_wf sp v -> sized v -> (port < NumPorts)%nat -> Forall bus_wide (q_r (pv v port)).
Proof.
  intros Hw Hv Hp. eapply (Forall_lookup_1 (fun q => Forall bus_wide (q_r q))); [exact Hv|].
  apply lookup_total_lt. by rewrite (vw_length sp v Hw).
Qed.

Lemma sized_on_pv port g v :
  (forall q, Forall bus_wide (q_r q) -> Forall bus_wide (q_r (g q))) ->
  sized v -> sized (on_pv port g v).
Proof.
  intros Hg Hv. unfold sized, on_pv. cbn. apply Forall_alter; [done|].
  intros q Hq Hin. by apply Hg.
Qed.

Lemma zero_lanes_wide : length zero_lanes = DATA_BYTES.
Proof. apply length_replicate. Qed.

Lemma read_beat_wide sp v r :
  read_wf sp r -> bus_wide (read_beat r (v_heap v)).1.
Proof.
  intros [Hst Hb]. unfold read_beat, bus_wide.
  destruct (served r) as [m|]; [|apply zero_lanes_wide].
  pose proof (read_impl_length (map_device m) (beat_at (rt_payload r) (rt_beat r) - map_base m)
    (replicate (beat_count (rt_payload r) (rt_beat r)) 0)
    (replicate (beat_count (rt_payload r) (rt_beat r)) 1) (v_heap v)) as Hl.
  destruct (read_impl _ _ _ _ _) as [[resp data] h']. cbn in *. rewrite length_replicate in Hl.
  destruct (static_beat_facts sp r (rt_beat r) Hst Hb) as (_ & _ & _ & _ & _ & Hd).
  rewrite splice_length; [apply zero_lanes_wide|]. by rewrite Hl, zero_lanes_wide.
Qed.

Lemma write_exclusive_sized wr v : sized v -> sized (write_exclusive wr v).2.
Proof. apply sized_ports, write_exclusive_ports. Qed.

Lemma complete_sized wr ws v : sized v -> sized (complete wr ws v).
Proof. intros Hv. by apply sized_on_pv. Qed.

Lemma advance_sized wr ws v : sized v -> sized (advance wr ws v).
Proof. intros Hv. unfold advance. destruct (_ =? _)%nat; [by apply complete_sized | done]. Qed.

Lemma step_sized sp v e v' : view_wf sp v -> sized v -> step sp v e v' -> sized v'.
Proof.
  intros Hw Hv Hst. destruct Hst; try (by apply sized_on_pv).
  - apply sized_on_pv; [|done]. cbn. intros q Hq.
    assert (Forall bus_wide (q_r (pv v port))) as Hf.
    { by apply (sized_port sp). }
    rewrite H1 in Hf. by apply Forall_cons in Hf as [_ ?].
  - pose proof (write_beat_ports wr m v) as [Ep _]. destruct (write_beat wr m v) as [wr' v'].
    apply advance_sized. by apply (sized_ports v).
  - pose proof (write_exclusive_ports wr v) as [Ep _]. destruct (write_exclusive wr v) as [wr' v'].
    apply complete_sized. by apply (sized_ports v).
  - pose proof (front_read sp v r rs Hw H0) as (Hr & _).
    pose proof (read_beat_wide sp v r Hr) as Hb. destruct (read_beat r (v_heap v)) as [beat h'].
    apply sized_on_pv; [|done]. cbn. intros q Hq. by apply Forall_app_2; [|constructor].
Qed.

Lemma steps_sized sp v es v' : view_wf sp v -> sized v -> steps sp v es v' -> sized v'.
Proof. intros Hw Hv Hs. induction Hs; [done|]. eauto using step_wf, step_sized. Qed.

Lemma wp_lift_any {A} (r : result A) (Q : A -> Fabric H -> Prop) f :
  match r with Ok a => Q a f | Throw _ => True end -> wp (lift r) Q (fun _ _ => True) f.
Proof. unfold wp, lift. by destruct r. Qed.

(** ** Outputs *)
Definition unused_data (out : SlaveSignals) : Prop := s_r_valid out = false -> s_r out = inhabitant.

Lemma drive_port_unused f port :
  Forall unused_data (outputs_ f) ->
  wp (drive_port port) (fun _ f' => Forall unused_data (outputs_ f')) (fun _ _ => True) f.
Proof.
  intros Hf. unfold drive_port. wp_step. wp_step. cbv beta.
  assert (forall full (g : Fabric H), Forall unused_data (outputs_ g) ->
    wp (ready_unless full) (fun _ g' => Forall unused_data (outputs_ g')) (fun _ _ => True) g) as Hready.
  { intros full g Hg. eapply wp_mono; [apply ready_unless_spec | | done]. by intros b g' [_ [rs ->]]. }
  eapply wp_seq; [by apply Hready|]. intros awr f1 H1.
  eapply wp_seq; [by apply Hready|]. intros wr f2 H2.
  eapply wp_seq; [by apply Hready|]. intros arr f3 H3. cbv beta.
  eapply (wp_seq _ _ (fun _ g => Forall unused_data (outputs_ g))).
  { destruct (negb _); [|by apply wp_ret]. apply wp_lift_any. by destruct (rb_front _). }
  intros b f4 H4. cbv beta.
  eapply (wp_seq _ _ (fun r g => Forall unused_data (outputs_ g) /\
    (negb (rb_empty (p_r (port_of f port))) = false -> r = inhabitant))).
  { destruct (negb _); [|by apply wp_ret]. apply wp_lift_any. by destruct (rb_front _). }
  intros r f5 [H5 Hr]. wp_steps. cbn. by apply Forall_insert.
Qed.

Lemma drive_unused f reset_active :
  wp (drive reset_active) (fun outs _ => Forall unused_data outs) (fun _ _ => True) f.
Proof.
  unfold drive. wp_steps. apply (wp_mono _ (fun _ g => Forall unused_data (outputs_ g)) _ (fun _ _ => True)); [| | done].
  - assert (Forall unused_data (replicate NumPorts inhabitant)) as Hi by by apply Forall_replicate.
    destruct reset_active; cbn [negb]; [by apply wp_ret|].
    apply wp_for_each_inv; [done|]. intros port g _ Hg. by apply drive_port_unused.
  - intros _ g Hg. exact Hg.
Qed.

(** Every beat that is driven has the width of the bus. *)
Lemma drive_wide f reset_active outs f' :
  fabric_wf f -> sized (view f) -> drive reset_active f = (Ok outs, f') ->
  forall port, (port < NumPorts)%nat -> bus_wide (s_r (outs !!! port)).
Proof.
  intros Hf Hv Hd port Hp.
  pose proof (wp_ok _ _ _ _ _ _ (drive_spec f reset_active (fw_shape f Hf)) Hd) as (Ho & Hdr & Hs & [rs ->] & _).
  pose proof (wp_ok _ _ _ _ _ _ (drive_unused f reset_active) Hd) as Hu.
  destruct (Hdr port Hp) as (_ & _ & _ & _ & Hr). unfold output_of in Hr. cbn in Hr.
  destruct (s_r_valid (outs !!! port)) eqn:Hrv.
  - destruct (Hr eq_refl) as [rest Hq].
    assert (Forall bus_wide (q_r (pv (view f) port))) as Hall.
    { by eapply sized_port; [apply Hf | |]. }
    change (q_r (pv (view f) port) = s_r (outs !!! port) :: rest) in Hq.
    rewrite Hq in Hall. by apply Forall_cons in Hall as [? _].
  - assert (unused_data (outs !!! port)) as Hn.
    { eapply (Forall_lookup_1 unused_data); [exact Hu|]. apply lookup_total_lt.
      pose proof (sh_outputs _ Hs) as Hlen. cbn in Hlen. by rewrite Hlen. }
    rewrite (Hn Hrv). apply zero_lanes_wide.
Qed.

Lemma fabric_init_sized h sp b : sized (view (fabric_init h sp b)).
Proof.
  unfold sized, view, fabric_init. cbn. rewrite fmap_replicate. by apply Forall_replicate.
Qed.
End Data.
