(* ===== verification/FabricExamples.v ===== *)
(** * A concrete fabric

    Two ports on a 32-bit bus with a RAM and an Exit register, driven through
    real traffic: the theorems of the fabric applied to states it reaches. *)
From S2P Require Import Prelude RingBuffer Axi Device Memory Uart Interrupts Heap.
From S2P Require Import Fabric FabricSpec FabricPorts FabricInv FabricRoutes FabricBeats FabricWrites.
From S2P Require Import FabricCommit FabricTheorems FabricRuns FabricLiveness FabricExclusive FabricStall.

#[export] Instance example_config : FabricConfig :=
  {| NumPorts := 2; AddressBits := 32; DATA_BYTES := 4; AddressDepth := 2; WriteDataDepth := 4;
     ResponseDepth := 2; RouteDepth := 4 |}.
#[export] Instance example_config_ok : FabricConfigOk example_config.
Proof. constructor; simpl; try lia. exact bus_width_32. Defined.

Definition ExampleHeap : Type := Heap BufferUartBackend.
Definition ram_window : Mapping := {| map_base := 0x1000; map_size := 64; map_device := 0%nat; map_name := "ram" |}.
Definition exit_window : Mapping := {| map_base := 0x2000; map_size := 4; map_device := 1%nat; map_name := "exit" |}.
Definition example_space : AddressSpace := {| mappings_ := [ram_window; exit_window]; frozen_ := true |}.
Definition example_heap : ExampleHeap := [DevRam (replicate 64 0); DevExit exit_init].
Definition example_fabric : Fabric ExampleHeap := fabric_init example_heap example_space true.

Lemma example_space_wf : space_wf example_space.
Proof.
  split; simpl.
  - repeat constructor; unfold mapping_wf, UINT64_MAX; simpl; lia.
  - repeat constructor. unfold before. simpl. lia.
Qed.

Lemma example_fabric_wf : fabric_wf example_fabric.
Proof. apply fabric_init_wf, example_space_wf. Qed.

(** ** Devices under test *)
Definition request (id address length : Z) (lock : bool) : AddressPayload :=
  {| ap_id := id; ap_address := address; ap_length := length; ap_size := 2; ap_burst := Increment;
     ap_lock := lock; ap_cache := 0; ap_protection := 0 |}.
Definition word_beat (bytes : list Z) (last : bool) : WriteDataPayload :=
  {| wd_data := bytes; wd_strobe := [1; 1; 1; 1]; wd_last := last |}.
Definition master (aw : option AddressPayload) (w : option WriteDataPayload) (ar : option AddressPayload)
    : MasterSignals :=
  {| m_aw_valid := bool_decide (is_Some aw); m_aw := default inhabitant aw;
     m_w_valid := bool_decide (is_Some w); m_w := default inhabitant w;
     m_b_ready := true;
     m_ar_valid := bool_decide (is_Some ar); m_ar := default inhabitant ar;
     m_r_ready := true |}.
Definition quiet : MasterSignals := master None None None.
Definition drives (inputs : list MasterSignals) : Dut := fun _ => inputs.

(** Whether a test drives well-formed payloads, decided by computation. *)
Definition request_ok (p : AddressPayload) : bool :=
  bool_decide (0 <= ap_id p < 2 ^ 64) && bool_decide (0 <= ap_address p < 2 ^ 64 - 4096) &&
  bool_decide (0 <= ap_length p < 2 ^ 8) && bool_decide (0 <= ap_size p < 2 ^ 8).
Definition master_ok (i : MasterSignals) : bool :=
  (negb (m_aw_valid i) || request_ok (m_aw i)) && (negb (m_ar_valid i) || request_ok (m_ar i)) &&
  (negb (m_w_valid i) || ((length (wd_data (m_w i)) =? 4)%nat && (length (wd_strobe (m_w i)) =? 4)%nat)).

Lemma request_ok_wf p : request_ok p = true -> request_wf p.
Proof.
  unfold request_ok. rewrite !andb_true_iff, !bool_decide_eq_true.
  unfold request_wf, payload_wf, fits. lia.
Qed.

Lemma master_ok_wf i : master_ok i = true -> master_wf i.
Proof.
  unfold master_ok. rewrite !andb_true_iff, !orb_true_iff, !andb_true_iff, !negb_true_iff, !Nat.eqb_eq.
  intros [[Haw Har] Hw]. split_and!; intros Hv; rewrite Hv in *.
  - destruct Haw as [[=]|]. by apply request_ok_wf.
  - destruct Hw as [[=]|]. done.
  - destruct Har as [[=]|]. by apply request_ok_wf.
Qed.

Lemma drives_wf inputs : length inputs = 2%nat -> forallb master_ok inputs = true -> dut_wf (drives inputs).
Proof.
  intros Hl Hall outs port Hp. simpl in Hp. apply master_ok_wf. rewrite forallb_forall in Hall. apply Hall.
  apply list_elem_of_In. apply list_elem_of_lookup_total_2. unfold drives. lia.
Qed.

Definition tests_ok (tests : list (list MasterSignals)) : bool :=
  forallb (fun inputs => (length inputs =? 2)%nat && forallb master_ok inputs) tests.

Lemma tests_wf tests : tests_ok tests = true -> Forall dut_wf (drives <$> tests).
Proof.
  intros Hall. apply Forall_fmap, Forall_forall. intros inputs Hin. unfold tests_ok in Hall.
  rewrite forallb_forall in Hall. apply list_elem_of_In in Hin. specialize (Hall inputs Hin).
  apply andb_true_iff in Hall as [Hl%Nat.eqb_eq Ha]. by apply drives_wf.
Qed.

Lemma port0 : (0 < NumPorts)%nat.
Proof. simpl. lia. Qed.
Lemma port1 : (1 < NumPorts)%nat.
Proof. simpl. lia. Qed.

(** The fabric after a test, and what the DUT saw. *)
Definition tested (tests : list (list MasterSignals)) : result (list event) * Fabric ExampleHeap :=
  run (drives <$> tests) example_fabric.

Lemma tested_ok tests seen :
  (tested tests).1 = Ok seen -> run (drives <$> tests) example_fabric = (Ok seen, (tested tests).2).
Proof. unfold tested. destruct (run _ _) as [r f]. simpl. by intros ->. Qed.

Lemma tested_wf tests seen :
  tests_ok tests = true -> (tested tests).1 = Ok seen ->
  fabric_wf (tested tests).2 /\ address_space_ (tested tests).2 = example_space /\
  monitors_unique (monitors_ (tested tests).2).
Proof.
  intros Ht Hr%tested_ok. destruct (run_spec _ _ _ _ example_fabric_wf (tests_wf _ Ht) Hr) as (Hf & Ha & es & Hst & _).
  split; [done|]. split; [done|]. eapply steps_monitors in Hst; [exact Hst|].
  intros i j m1 m2 Hi _ Hv. apply (lookup_replicate RouteDepth) in Hi as [-> _]. done.
Qed.

(** ** Traffic *)

(** Port 1 writes two words, port 0 reads four back, then ends the simulation. *)
Definition traffic : list (list MasterSignals) :=
  [[quiet; master (Some (request 5 0x1004 1 false)) (Some (word_beat [1; 2; 3; 4] false)) None];
   [quiet; master None (Some (word_beat [5; 6; 7; 8] true)) None];
   [master None None (Some (request 6 0x1000 3 false)); quiet];
   [quiet; quiet]; [quiet; quiet]; [quiet; quiet]; [quiet; quiet]; [quiet; quiet];
   [master (Some (request 7 0x2000 0 false)) (Some (word_beat [42; 0; 0; 0] true)) None; quiet];
   [quiet; quiet]; [quiet; quiet]].
Definition seen_traffic : list event := match (tested traffic).1 with Ok seen => seen | Throw _ => [] end.

Lemma traffic_ok : (tested traffic).1 = Ok seen_traffic.
Proof. vm_compute. reflexivity. Qed.

(** The first cycle of the traffic. *)
Definition first_cycle : Dut :=
  drives [quiet; master (Some (request 5 0x1004 1 false)) (Some (word_beat [1; 2; 3; 4] false)) None].
Lemma first_cycle_wf : dut_wf first_cycle.
Proof. by apply drives_wf. Qed.
Lemma first_cycle_ok :
  cycle first_cycle false example_fabric = (Ok tt, (cycle first_cycle false example_fabric).2).
Proof.
  assert ((cycle first_cycle false example_fabric).1 = Ok tt) as E by by vm_compute.
  destruct (cycle _ _ _) as [r f]. simpl in *. by rewrite E.
Qed.

Lemma cycle_refines_abstract_fabric_witness :
  exists es, steps example_space (view example_fabric) es (view (cycle first_cycle false example_fabric).2) /\
    filter (fun e => external e) es =
      [AcceptAW 1 (request 5 0x1004 1 false); AcceptW 1 (word_beat [1; 2; 3; 4] false)].
Proof.
  destruct (cycle_refines_abstract_fabric first_cycle example_fabric tt _ example_fabric_wf first_cycle_wf first_cycle_ok)
    as (_ & outs & es & -> & Hst & He).
  exists es. split; [exact Hst|]. rewrite He. vm_compute. reflexivity.
Defined.

(** A burst of eight-byte beats on a four-byte bus. *)
Definition illegal_request : AddressPayload := 
  {| ap_id := 1; ap_address := 0x1000; ap_length := 0; ap_size := 3; ap_burst := Increment;
     ap_lock := false; ap_cache := 0; ap_protection := 0 |}.
Definition illegal_cycle : Dut := drives [master None None (Some illegal_request); quiet].

Lemma only_protocol_violations_stop_a_cycle_witness :
  f_heap (cycle illegal_cycle false example_fabric).2 = example_heap.
Proof.
  destruct (cycle illegal_cycle false example_fabric) as [[u|e] f'] eqn:E.
  - apply (f_equal fst) in E. vm_compute in E. discriminate E.
  - destruct (only_protocol_violations_stop_a_cycle illegal_cycle example_fabric e f' example_fabric_wf
      ltac:(by apply drives_wf) E) as [_ H]. exact H.
Defined.

(** The next cycle of the traffic commits the second beat of the write, while a
    read is granted. *)
Definition committing : Fabric ExampleHeap := (tested (take 2 traffic)).2.
Definition committing_cycle : Dut := drives [master None None (Some (request 6 0x1000 3 false)); quiet].
Lemma committing_wf : fabric_wf committing /\ address_space_ committing = example_space.
Proof.
  destruct (tested_wf (take 2 traffic) (match (tested (take 2 traffic)).1 with Ok seen => seen | Throw _ => [] end)) as (H1 & H2 & _);
    [by vm_compute.. | by split].
Qed.
Lemma committing_ok :
  cycle committing_cycle false committing = (Ok tt, (cycle committing_cycle false committing).2).
Proof.
  assert ((cycle committing_cycle false committing).1 = Ok tt) as E by by vm_compute.
  destruct (cycle _ _ _) as [r f]. simpl in *. by rewrite E.
Qed.

(** It writes the second beat, four bytes, at offset 8 of the RAM, and the read waits. *)
Lemma device_accesses_stay_in_their_window_witness :
  f_heap committing = [DevRam (replicate 4 0 ++ [1; 2; 3; 4] ++ replicate 56 0); DevExit exit_init] /\
  f_heap (cycle committing_cycle false committing).2 =
    [DevRam (replicate 4 0 ++ [1; 2; 3; 4; 5; 6; 7; 8] ++ replicate 52 0); DevExit exit_init] /\
  exists es, length (filter (fun e => device_event e) es) = 1%nat /\
    one_device_call example_space (view committing) es (view (cycle committing_cycle false committing).2).
Proof.
  assert (f_heap committing = [DevRam (replicate 4 0 ++ [1; 2; 3; 4] ++ replicate 56 0); DevExit exit_init]) as E1
    by by vm_compute.
  assert (f_heap (cycle committing_cycle false committing).2 =
    [DevRam (replicate 4 0 ++ [1; 2; 3; 4; 5; 6; 7; 8] ++ replicate 52 0); DevExit exit_init]) as E2 by by vm_compute.
  split; [exact E1|]. split; [exact E2|]. destruct committing_wf as [Hf Ha].
  destruct (device_accesses_stay_in_their_window committing_cycle committing tt _ Hf
    ltac:(by apply drives_wf) committing_ok) as (es & _ & _ & Hc).
  rewrite Ha in Hc. exists es. split; [|exact Hc]. unfold one_device_call in Hc.
  destruct (filter _ es) as [|e [|] ]; [|reflexivity | destruct Hc].
  exfalso. unfold view in Hc. cbn [v_heap] in Hc. rewrite E1, E2 in Hc. discriminate Hc.
Defined.

(** Bursts without a window: an ordinary one is answered with DECERR, a locked
    one with SLVERR; a burst of the last word of the RAM is decoded to it. *)
Definition decoding_of (p : AddressPayload) : option (option Mapping * Response) :=
  match initialize_route 0 p "AR" example_fabric with
  | (Ok r, _) => Some (rt_mapping r, rt_forced_response r)
  | (Throw _, _) => None
  end.
Example decodings :
  decoding_of <$> [request 6 0x1000 3 false; request 6 0x103c 1 false; request 6 0x5000 0 false;
                   request 6 0x5000 0 true; request 6 0x1001 0 true]
  = [Some (Some ram_window, Okay); Some (None, DecodeError); Some (None, DecodeError);
     Some (None, SlaveError); None].
Proof. by vm_compute. Qed.

(** The locked one, by the theorem. *)
Lemma bursts_are_decoded_exactly_witness :
  decodable (request 6 0x5000 0 true) /\
  forall m, m ∈ mappings_ example_space -> ~ covers_lanes m (request 6 0x5000 0 true).
Proof.
  pose proof (bursts_are_decoded_exactly example_fabric 0 (request 6 0x5000 0 true) "AR" example_space_wf
    port0 ltac:(by apply request_ok_wf) ltac:(left; by vm_compute)) as H.
  destruct (initialize_route _ _ _ _) as [[r|e] f'] eqn:E.
  - destruct H as (_ & Hd & _ & Hp & _ & _ & [Hm _] & _). split; [exact Hd|]. intros m Hin Hc.
    assert (rt_mapping r = None) as En.
    { apply (f_equal (fun x => match x.1 with Ok r => rt_mapping r | Throw _ => Some ram_window end)) in E.
      simpl in E. rewrite <- E. by vm_compute. }
    rewrite Hp in Hm. rewrite (proj2 (Hm m) (conj Hin Hc)) in En. discriminate En.
  - apply (f_equal fst) in E. vm_compute in E. discriminate E.
Defined.

Lemma reads_are_answered_in_order_witness :
  seen_traffic ≫= r_delivered 0 = [(6, false); (6, false); (6, false); (6, true)].
Proof.
  destruct (reads_are_answered_in_order example_heap example_space true (drives <$> traffic) seen_traffic
    (tested traffic).2 0 example_space_wf (tests_wf traffic eq_refl) port0 (tested_ok traffic _ traffic_ok))
    as [_ H].
  rewrite <- H; vm_compute; reflexivity.
Defined.

Lemma writes_are_answered_in_order_witness :
  seen_traffic ≫= b_delivered 1 = [5].
Proof.
  destruct (writes_are_answered_in_order example_heap example_space true (drives <$> traffic) seen_traffic
    (tested traffic).2 1 example_space_wf (tests_wf traffic eq_refl) port1 (tested_ok traffic _ traffic_ok))
    as [_ H].
  rewrite <- H; vm_compute; reflexivity.
Defined.

Lemma exit_code_is_the_first_acknowledged_witness :
  (exit_completed_ (tested traffic).2, exit_code_ (tested traffic).2) = (true, 42).
Proof.
  rewrite (exit_code_is_the_first_acknowledged example_heap example_space true (drives <$> traffic) seen_traffic
    (tested traffic).2 example_space_wf (tests_wf traffic eq_refl) (tested_ok traffic _ traffic_ok)).
  vm_compute. reflexivity.
Defined.

(** ** States with work left *)

(** Both ports ask for a read in the same cycle; port 1 also starts a write. *)
Definition busy_tests : list (list MasterSignals) :=
  [[master None None (Some (request 1 0x1000 1 true));
    master (Some (request 2 0x1008 1 true)) (Some (word_beat [1; 2; 3; 4] false)) (Some (request 3 0x1010 1 false))]].
Definition busy : Fabric ExampleHeap := (tested busy_tests).2.
Definition seen_busy : list event := match (tested busy_tests).1 with Ok seen => seen | Throw _ => [] end.

Lemma busy_wf : fabric_wf busy /\ address_space_ busy = example_space /\ monitors_unique (monitors_ busy).
Proof. apply (tested_wf busy_tests seen_busy); by vm_compute. Qed.

Lemma reset_empties_the_fabric_witness :
  exists f', commit [quiet; quiet] true busy = (Ok tt, f') /\ idle f' = true.
Proof.
  destruct (reset_empties_the_fabric [quiet; quiet] busy (proj1 busy_wf)) as (f' & Hc & _ & _ & _ & _ & H).
  exists f'. split; [exact Hc|]. assert (was_reset_ busy = false) as E by by vm_compute. rewrite E in H.
  apply H.
Defined.

Lemma arbitration_is_fair_witness :
  fair_outcome GrantAR next_ar_port_ 1 busy (arbitrate_ar busy).
Proof.
  destruct (arbitration_is_fair busy 1 (proj1 busy_wf) port1) as [_ H].
  apply H; vm_compute; [discriminate | lia].
Defined.

Definition pausing : Dut := drives [quiet; quiet].
Lemma pausing_draining : draining pausing.
Proof. intros outs port Hp. destruct port as [|[|port]]; [done | done | simpl in Hp; lia]. Qed.

(** The write of [busy] lacks a beat; that of [committing] lacks none. *)
Lemma fabric_drains_witness :
  (exists n, (n <= S (work (view busy)))%nat /\
    match cycles n pausing busy with
    | (Ok _, f') => drained (view f')
    | (Throw e, _) => exists ctx why, e = ProtocolError (Some ctx) why /\ why ∈ protocol_details
    end) /\
  data_sent (view committing) /\
  (exists n, (n <= S (work (view committing)))%nat /\
    match cycles n pausing committing with
    | (Ok _, f') => answered (view f')
    | (Throw e, _) => exists ctx why, e = ProtocolError (Some ctx) why /\ why ∈ protocol_details
    end).
Proof.
  assert (data_sent (view committing)) as Hsent.
  { intros port Hp. destruct port as [|[|port]]; [vm_compute; lia | vm_compute; lia | simpl in Hp; lia]. }
  split; [|split; [exact Hsent|]].
  - destruct (fabric_drains pausing busy (proj1 busy_wf) pausing_draining) as (n & Hn & H).
    exists n. split; [exact Hn|]. destruct (cycles n pausing busy) as [[u|e] f']; [apply H | exact H].
  - destruct (fabric_drains pausing committing (proj1 committing_wf) pausing_draining) as (n & Hn & H).
    exists n. split; [exact Hn|]. destruct (cycles n pausing committing) as [[u|e] f']; [apply H, Hsent | exact H].
Defined.

(** ** Exclusive accesses *)
Definition busy_read : Route := default inhabitant (head (v_reads (view busy))).
Definition busy_write : WriteRoute := default inhabitant (head (v_writes (view busy))).

Lemma view_writes (f : Fabric ExampleHeap) : rb_list RouteDepth (write_routes_ f) = v_writes (view f).
Proof. reflexivity. Qed.

Lemma busy_fronts :
  read_wf example_space busy_read /\ write_wf example_space busy_write /\
  rb_wf RouteDepth (write_routes_ busy) /\ rb_list RouteDepth (write_routes_ busy) = [busy_write].
Proof.
  destruct busy_wf as (Hf & Ha & _). pose proof (fw_view busy Hf) as Hv. rewrite Ha in Hv.
  assert (v_reads (view busy) = busy_read :: tail (v_reads (view busy))) as Er by by vm_compute.
  assert (v_writes (view busy) = [busy_write]) as Ew by by vm_compute.
  destruct (front_read _ _ _ _ Hv Er) as (Hr & _). destruct (front_write _ _ _ _ Hv Ew) as (Hw & _).
  split; [exact Hr|]. split; [exact Hw|]. split; [apply (sh_writes busy), Hf|].
  rewrite view_writes. exact Ew.
Qed.

Lemma exclusive_read_reserves_witness :
  monitor_of (monitors_ (establish_monitor busy_read busy).2) 0 1 = Some (reservation busy_read).
Proof.
  destruct busy_wf as (_ & _ & Hu). destruct busy_fronts as (Hr & _).
  assert (rt_exclusive busy_read = true) as Hx by by vm_compute.
  pose proof (exclusive_read_reserves example_space busy busy_read Hr Hx Hu) as H.
  destruct (establish_monitor busy_read busy) as [[u|e] f'] eqn:E.
  - destruct H as (_ & H & _). exact H.
  - apply (f_equal fst) in E. vm_compute in E. discriminate E.
Defined.

Lemma busy_write_covers : ram_window ∈ mappings_ example_space /\ covers ram_window (rt_payload (wt_route busy_write)).
Proof.
  destruct busy_fronts as (_ & Hw & _). pose proof (rs_mapping _ _ (ww_static _ _ Hw)) as Hm.
  assert (rt_mapping (wt_route busy_write) = Some ram_window) as E by by vm_compute. by rewrite E in Hm.
Qed.

Lemma writes_break_the_reservations_they_overlap_witness :
  exists resp wr' f',
    write_device_beat busy_write ram_window (cursor_of (rt_payload (wt_route busy_write))) 0
      [1; 2; 3; 4] [1; 1; 1; 1] busy = (Ok (resp, wr'), f').
Proof.
  destruct busy_fronts as (_ & Hw & Hq & Hl). destruct busy_write_covers as [Hm Hc].
  destruct (writes_break_the_reservations_they_overlap example_space busy busy_write [] ram_window
    example_space_wf Hw Hm Hc Hq Hl) as (resp & wr' & f' & H & _).
  exists resp, wr', f'. exact H.
Defined.

Lemma exclusive_write_needs_its_reservation_witness :
  exists wr' f', finish_exclusive_write busy_write (cursor_of (rt_payload (wt_route busy_write))) busy = (Ok wr', f') /\
    exclusive_outcome busy_write (monitors_ busy) (f_heap busy) (wt_response wr') (f_heap f').
Proof.
  destruct busy_wf as (_ & _ & Hu). destruct busy_fronts as (_ & Hw & Hq & Hl).
  destruct (exclusive_write_needs_its_reservation example_space busy busy_write [] example_space_wf Hw
    ltac:(by vm_compute) Hq Hl Hu) as (wr' & f' & H & H' & _).
  exists wr', f'. split; [exact H | exact H'].
Defined.

Lemma xorshift_permutes_the_nonzero_states_witness :
  random_state (xorshift 1) /\ random_state (random_state_ (set_seed 0 example_fabric)).
Proof.
  destruct xorshift_permutes_the_nonzero_states as (H1 & _ & H3). split.
  - apply H1. unfold random_state. lia.
  - apply H3. unfold fits. lia.
Defined.
