(* ===== verification/Elf.v ===== *)
(** * Image loading (src/elf_loader.hpp, src/elf_loader.cpp)

    Parsing of ELF32/ELF64 program headers and the [ImageLoadPlan] that checks
    every range of every image before the first device is written.  An image is
    the list of its bytes; ImageFiles.v reads it from a file.  [ElfPlan.v] and
    [ElfParse.v] have the theorems. *)
From Stdlib Require Import Ascii.
From stdpp Require Import sorting.
From S2P Require Import Prelude Text Axi Device.

Definition PT_LOAD : Z := 1.
Definition ELF_CLASS_32 : Z := 1.
Definition ELF_CLASS_64 : Z := 2.
Definition ELF_DATA_LITTLE_ENDIAN : Z := 1.
Definition ELF_VERSION_CURRENT : Z := 1.

Record ElfSegment := {
  virtual_address : Z;
  physical_address : Z;
  load_address : Z;
  file_size : Z;
  memory_size : Z;
  flags : Z
}.

Record ElfLoadResult := {
  result_entry : Z;
  result_is_64_bit : bool;
  result_segments : list ElfSegment
}.

Record ParsedSegment := {
  public_segment : ElfSegment;
  file_offset : Z;
  alignment : Z;
  program_header_index : nat
}.

Record ParsedHeader := {
  entry : Z;
  program_header_offset : Z;
  program_header_size : Z;
  program_header_count : Z;
  is_64_bit : bool
}.

(** [stream << "0x" << std::hex << value] *)
Definition hexadecimal (value : Z) : string := "0x" +:+ to_hex value.

Definition elf_error {A} (message : string) : result A := Throw (ElfError message).

Definition require_range (offset length capacity : Z) (description : string) : result unit :=
  guard negb ((capacity <? offset) || (capacity - offset <? length))
    else ElfError ("ELF " +:+ description +:+ " is out of bounds") in
  Ok tt.

(** [read_little_endian<Integer>] with [n = sizeof(Integer)]. *)
Definition read_little_endian (n : nat) (image : list Z) (offset : Z) (description : string)
  : result Z :=
  try _ := require_range offset (Z.of_nat n) (Z.of_nat (length image)) description in
  Ok (wrap (8 * Z.of_nat n)
        (foldl (fun value byte =>
                  Z.lor value (Z.shiftl (image !!! (Z.to_nat offset + byte)%nat)
                                        (Z.of_nat byte * 8)))
               0 (seq 0 n))).

Definition checked_multiply (lhs rhs : Z) (description : string) : result Z :=
  guard negb (nz lhs && (UINT64_MAX / lhs <? rhs))
    else ElfError ("ELF " +:+ description +:+ " overflows") in
  Ok (u64 (lhs * rhs)).

Definition checked_add (lhs rhs : Z) (description : string) : result Z :=
  guard negb (UINT64_MAX - lhs <? rhs)
    else ElfError ("ELF " +:+ description +:+ " overflows") in
  Ok (u64 (lhs + rhs)).

(** ** The ELF header *)
Definition is_elf_magic (image : list Z) : bool :=
  (image !!! 0%nat =? 0x7f) && (image !!! 1%nat =? 0x45) &&
  (image !!! 2%nat =? 0x4c) && (image !!! 3%nat =? 0x46).

Definition parse_header (image : list Z) : result ParsedHeader :=
  let size := Z.of_nat (length image) in
  try _ := require_range 0 16 size "identification" in
  guard is_elf_magic image else ElfError "input is not an ELF image" in
  let elf_class := image !!! 4%nat in
  guard (elf_class =? ELF_CLASS_32) || (elf_class =? ELF_CLASS_64)
    else ElfError "unsupported ELF class (expected ELF32 or ELF64)" in
  guard image !!! 5%nat =? ELF_DATA_LITTLE_ENDIAN
    else ElfError "only little-endian ELF images are supported" in
  guard image !!! 6%nat =? ELF_VERSION_CURRENT
    else ElfError "unsupported ELF identification version" in
  let wide := elf_class =? ELF_CLASS_64 in
  let header_size := if wide then 64 else 52 in
  let required_program_header_size := if wide then 56 else 32 in
  try _ := require_range 0 header_size size "header" in
  try version := read_little_endian 4 image 20 "version" in
  guard version =? ELF_VERSION_CURRENT else ElfError "unsupported ELF header version" in
  try entry := if wide then read_little_endian 8 image 24 "entry point"
               else read_little_endian 4 image 24 "entry point" in
  try offset := if wide then read_little_endian 8 image 32 "program-header offset"
                else read_little_endian 4 image 28 "program-header offset" in
  try declared_header_size :=
    read_little_endian 2 image (if wide then 52 else 40) "header size" in
  try declared_program_header_size :=
    read_little_endian 2 image (if wide then 54 else 42) "program-header entry size" in
  try count := read_little_endian 2 image (if wide then 56 else 44) "program-header count" in
  guard negb (declared_header_size <? header_size)
    else ElfError "ELF header size is smaller than its class requires" in
  guard negb (count =? 0xffff)
    else ElfError "extended ELF program-header counts are not supported" in
  guard negb (nz count && (declared_program_header_size <? required_program_header_size))
    else ElfError "ELF program-header entry is smaller than its class requires" in
  try table_size := checked_multiply count declared_program_header_size
                      "program-header table size" in
  try _ := require_range offset table_size size "program-header table" in
  Ok {| entry := entry;
        program_header_offset := offset;
        program_header_size := declared_program_header_size;
        program_header_count := count;
        is_64_bit := wide |}.

(** ** Program headers *)
Definition pt_load (index : nat) (message : string) : exn :=
  ElfError ("PT_LOAD[" +:+ to_string (Z.of_nat index) +:+ "] " +:+ message).

Section Loader.
Context {H : Type} `{!DeviceHeap H} (address_space : AddressSpace).
Implicit Types (h : H) (image : list Z).

Definition validate_load_target h (segment : ElfSegment) (index : nat) : result unit :=
  match space_resolve address_space (load_address segment) (memory_size segment) with
  | None =>
      Throw (pt_load index
               ("range " +:+ hexadecimal (load_address segment) +:+ ".." +:+
                hexadecimal (u64 (load_address segment + memory_size segment)) +:+
                " does not fit one mapped device"))
  | Some mapping =>
      guard loadable h (map_device mapping)
        else pt_load index ("targets non-loadable device '" +:+ map_name mapping +:+ "'") in
      guard can_load h (map_device mapping) (u64 (load_address segment - map_base mapping))
              (memory_size segment)
        else pt_load index ("exceeds device '" +:+ map_name mapping +:+ "'") in
      Ok tt
  end.

(** The fields of a 56-byte and of a 32-byte program header. *)
Definition parse_fields (wide : bool) image (offset : Z) : result (ElfSegment * Z * Z) :=
  let at_ k := u64 (offset + k) in
  if wide then
    try flags := read_little_endian 4 image (at_ 4) "segment flags" in
    try file_offset := read_little_endian 8 image (at_ 8) "segment file offset" in
    try virtual := read_little_endian 8 image (at_ 16) "segment virtual address" in
    try physical := read_little_endian 8 image (at_ 24) "segment physical address" in
    try file_size := read_little_endian 8 image (at_ 32) "segment file size" in
    try memory_size := read_little_endian 8 image (at_ 40) "segment memory size" in
    try alignment := read_little_endian 8 image (at_ 48) "segment alignment" in
    Ok ({| virtual_address := virtual; physical_address := physical; load_address := 0;
           file_size := file_size; memory_size := memory_size; flags := flags |},
        file_offset, alignment)
  else
    try file_offset := read_little_endian 4 image (at_ 4) "segment file offset" in
    try virtual := read_little_endian 4 image (at_ 8) "segment virtual address" in
    try physical := read_little_endian 4 image (at_ 12) "segment physical address" in
    try file_size := read_little_endian 4 image (at_ 16) "segment file size" in
    try memory_size := read_little_endian 4 image (at_ 20) "segment memory size" in
    try flags := read_little_endian 4 image (at_ 24) "segment flags" in
    try alignment := read_little_endian 4 image (at_ 28) "segment alignment" in
    Ok ({| virtual_address := virtual; physical_address := physical; load_address := 0;
           file_size := file_size; memory_size := memory_size; flags := flags |},
        file_offset, alignment).

Definition with_load_address (s : ElfSegment) : ElfSegment :=
  {| virtual_address := virtual_address s; physical_address := physical_address s;
     load_address := if nz (physical_address s) then physical_address s else virtual_address s;
     file_size := file_size s; memory_size := memory_size s; flags := flags s |}.

(** The checks on a loadable segment, in the order of the code. *)
Definition check_segment image (index : nat) (s : ElfSegment) (offset align : Z) : result unit :=
  guard negb (memory_size s <? file_size s)
    else pt_load index "has p_filesz greater than p_memsz" in
  try _ := require_range offset (file_size s) (Z.of_nat (length image))
             "loadable segment data" in
  if 1 <? align then
    guard negb (nz (Z.land align (align - 1)))
      else pt_load index "alignment is not a power of two" in
    guard virtual_address s mod align =? offset mod align
      else pt_load index "virtual address and file offset are incongruent" in
    Ok tt
  else Ok tt.

Definition parse_program_header image h (header : ParsedHeader) (index : nat)
  : result (option ParsedSegment) :=
  try scaled := checked_multiply (Z.of_nat index) (program_header_size header)
                  "program-header offset" in
  try offset := checked_add (program_header_offset header) scaled "program-header offset" in
  try type := read_little_endian 4 image offset "segment type" in
  if negb (type =? PT_LOAD) then Ok None
  else
    try (s, file_offset, align) := parse_fields (is_64_bit header) image offset in
    try _ := check_segment image index s file_offset align in
    let s := with_load_address s in
    try _ := checked_add (load_address s) (memory_size s) "loadable segment address range" in
    if memory_size s =? 0 then Ok None
    else
      try _ := validate_load_target h s index in
      Ok (Some {| public_segment := s; file_offset := file_offset; alignment := align;
                  program_header_index := index |}).

Fixpoint parse_indices image h (header : ParsedHeader) (indices : list nat)
  : result (list ParsedSegment) :=
  match indices with
  | [] => Ok []
  | index :: rest =>
      try segment := parse_program_header image h header index in
      try segments := parse_indices image h header rest in
      Ok (option_list segment ++ segments)
  end.

Definition parse_load_segments image h (header : ParsedHeader) : result (list ParsedSegment) :=
  parse_indices image h header (seq 0 (Z.to_nat (program_header_count header))).

(** [validate_no_overlap]: the segments in the order of their load addresses,
    each compared with its predecessor.  ([std::ranges::sort] leaves the order
    of equal addresses open; it only affects which segment the message names.) *)
Definition address_le (s1 s2 : ParsedSegment) : Prop :=
  load_address (public_segment s1) <= load_address (public_segment s2).
#[export] Instance address_le_dec s1 s2 : Decision (address_le s1 s2).
Proof. unfold address_le. apply _. Defined.

Fixpoint check_neighbours (previous : ParsedSegment) (rest : list ParsedSegment) : result unit :=
  match rest with
  | [] => Ok tt
  | current :: rest' =>
      guard negb (load_address (public_segment current)
                  <? u64 (load_address (public_segment previous)
                          + memory_size (public_segment previous)))
        else pt_load (program_header_index current) "overlaps another loadable segment" in
      check_neighbours current rest'
  end.

Definition validate_no_overlap (segments : list ParsedSegment) : result unit :=
  match merge_sort address_le segments with
  | [] => Ok tt
  | first :: rest => check_neighbours first rest
  end.

(** ** [ImageLoadPlan]: the state is [chunks_]. *)
Record Chunk := { chunk_segment : ElfSegment; chunk_data : list Z }.

Definition chunk_of image (s : ParsedSegment) : Chunk :=
  {| chunk_segment := public_segment s;
     chunk_data := take (Z.to_nat (file_size (public_segment s)))
                        (drop (Z.to_nat (file_offset s)) image) |}.

Definition add_elf image h : M (list Chunk) ElfLoadResult :=
  do header := lift (parse_header image) in
  do segments := lift (parse_load_segments image h header) in
  do _ := lift (validate_no_overlap segments) in
  modify (fun chunks => chunks ++ map (chunk_of image) segments) ;;;
  ret {| result_entry := entry header;
         result_is_64_bit := is_64_bit header;
         result_segments := map public_segment segments |}.

Definition raw_segment image (address : Z) : ElfSegment :=
  {| virtual_address := 0; physical_address := 0; load_address := address;
     file_size := Z.of_nat (length image); memory_size := Z.of_nat (length image); flags := 0 |}.

Definition add_raw image (address : Z) h : M (list Chunk) unit :=
  if (length image =? 0)%nat then ret tt
  else
    do _ := lift (checked_add address (Z.of_nat (length image)) "raw image range") in
    do _ := lift (validate_load_target h (raw_segment image address) 0) in
    modify (fun chunks => chunks ++ [{| chunk_segment := raw_segment image address;
                                        chunk_data := image |}]).

(** A dereferenced null mapping is no behaviour of the program; the theorems
    show that it is never reached. *)
Definition resolve_target (s : ElfSegment) : result Mapping :=
  match space_resolve address_space (load_address s) (memory_size s) with
  | Some m => Ok m
  | None => Throw (LogicError "null mapping dereferenced")
  end.

Definition check_alias (a : ElfSegment) (ma : Mapping) (b : ElfSegment) : result unit :=
  try mb := resolve_target b in
  let ao := u64 (load_address a - map_base ma) in
  let bo := u64 (load_address b - map_base mb) in
  guard negb ((map_device ma =? map_device mb)%nat && (ao <? u64 (bo + memory_size b))
              && (bo <? u64 (ao + memory_size a)))
    else ElfError ("image ranges overlap (including BSS or device aliases) at " +:+
                   hexadecimal (load_address a)) in
  Ok tt.

Fixpoint check_aliases (a : ElfSegment) (ma : Mapping) (earlier : list Chunk) : result unit :=
  match earlier with
  | [] => Ok tt
  | c :: rest =>
      try _ := check_alias a ma (chunk_segment c) in check_aliases a ma rest
  end.

Fixpoint check_chunks h (earlier todo : list Chunk) : result unit :=
  match todo with
  | [] => Ok tt
  | c :: rest =>
      try _ := validate_load_target h (chunk_segment c) (length earlier) in
      try ma := resolve_target (chunk_segment c) in
      try _ := check_aliases (chunk_segment c) ma earlier in
      check_chunks h (earlier ++ [c]) rest
  end.

(** One call of [address_space.load] that must succeed. *)
Definition load_or_throw (address : Z) (data : list Z) (what : string) : M H unit :=
  do response := space_load address_space address data in
  when (negb (response_is_success response))
    throw (ElfError ("device rejected PT_LOAD " +:+ what +:+ " at " +:+ hexadecimal address)).

(** The BSS loop, in pieces of at most 4096 zero bytes. *)
Definition ZEROS : nat := 4096.

Fixpoint zero_fill (fuel : nat) (zero_address remaining : Z) : M H unit :=
  match fuel with
  | O => ret tt
  | S fuel' =>
      if remaining =? 0 then ret tt
      else
        let count := Z.to_nat (remaining `min` Z.of_nat ZEROS) in
        load_or_throw zero_address (replicate count 0) "BSS" ;;;
        zero_fill fuel' (u64 (zero_address + Z.of_nat count)) (remaining - Z.of_nat count)
  end.

Definition zero_fuel (remaining : Z) : nat := Z.to_nat (remaining / Z.of_nat ZEROS + 1).

Definition apply_segment image (s : ParsedSegment) : M H unit :=
  let info := public_segment s in
  when (negb (file_size info =? 0))
    (load_or_throw (load_address info)
       (take (Z.to_nat (file_size info)) (drop (Z.to_nat (file_offset s)) image)) "data") ;;;
  zero_fill (zero_fuel (memory_size info - file_size info))
    (u64 (load_address info + file_size info)) (memory_size info - file_size info).

Definition apply_chunk (c : Chunk) : M H unit :=
  apply_segment (chunk_data c)
    {| public_segment := chunk_segment c; file_offset := 0; alignment := 0;
       program_header_index := 0 |}.

Definition apply (chunks : list Chunk) : M H unit :=
  fun h => match check_chunks h [] chunks with
           | Ok _ => for_each chunks apply_chunk h
           | Throw e => (Throw e, h)
           end.

Definition load_elf image : M H ElfLoadResult :=
  fun h => match add_elf image h [] with
           | (Ok res, chunks) => (apply chunks ;;; ret res) h
           | (Throw e, _) => (Throw e, h)
           end.

Definition load_raw_image image (address : Z) : M H unit :=
  fun h => match add_raw image address h [] with
           | (Ok _, chunks) => apply chunks h
           | (Throw e, _) => (Throw e, h)
           end.
End Loader.
