(* ===== verification/ElfPlan.v ===== *)
(** * Image loading: theorems

    What [ImageLoadPlan::apply] promises is proved against the interface
    [LoadableLaws]: a view of the bytes of loadable devices, with the contract
    of [Device::can_load] and [Device::load].  [Heap.v]'s ROM and RAM discharge
    it. *)
From stdpp Require Import sorting.
From S2P Require Import Prelude Text Axi Device Memory Uart Interrupts Heap Elf.

(** ** The contract of loadable devices *)
Section Loads.
Context {H : Type} `{!DeviceHeap H} (bytes_of : H -> DevicePtr -> list Z).

(** [h'] is [h] with [data] written at offset [off] of device [d]. *)
Definition loads (d : DevicePtr) (off : Z) (data : list Z) (h h' : H) : Prop :=
  bytes_of h' d = splice (Z.to_nat off) data (bytes_of h d) /\
  (forall d', d' <> d -> bytes_of h' d' = bytes_of h d') /\
  (forall d', loadable h' d' = loadable h d').
End Loads.

Class LoadableLaws (H : Type) `{!DeviceHeap H} := {
  device_bytes : H -> DevicePtr -> list Z;
  can_load_bounds h d off n :
    loadable h d = true -> 0 <= off -> 0 <= n ->
    can_load h d off n = true <-> off + n <= Z.of_nat (length (device_bytes h d));
  load_in_bounds h d off data :
    loadable h d = true -> 0 <= off ->
    off + Z.of_nat (length data) <= Z.of_nat (length (device_bytes h d)) ->
    exists h', load_impl d off data h = (Okay, h') /\ loads device_bytes d off data h h'
}.

Section HeapLoadable.
Context {B : Type} `{!UartBackend B}.

Definition memory_bytes (dev : AnyDevice B) : list Z :=
  match dev with DevRom bytes | DevRam bytes => bytes | _ => [] end.
Definition heap_bytes (h : Heap B) (d : DevicePtr) : list Z :=
  match h !! d with Some dev => memory_bytes dev | None => [] end.

(** Replacing a memory by a memory. *)
Lemma heap_loads (h : Heap B) d off data dev dev' :
  h !! d = Some dev -> memory_bytes dev' = splice (Z.to_nat off) data (memory_bytes dev) ->
  (forall d', is_memory (<[d := dev']> h) d' = is_memory h d') ->
  loads heap_bytes d off data h (<[d := dev']> h).
Proof.
  intros Hd Hb Hm. unfold loads, heap_bytes, Heap in *. split_and!; [| |done].
  - rewrite list_lookup_insert_eq by (by eapply lookup_lt_Some). by rewrite Hd.
  - intros d' Hne. by rewrite list_lookup_insert_ne.
Qed.

#[export] Instance heap_loadable : LoadableLaws (Heap B).
Proof.
  refine {| device_bytes := heap_bytes |}.
  - intros h d off n Hl Ho Hn. cbn [loadable can_load heap_devices] in *.
    unfold is_memory, heap_bytes in *. destruct (h !! d) as [[]|]; try done;
      unfold ram_can_load, rom_can_load; rewrite in_bounds_spec; simpl; lia.
  - intros h d off data Hl Ho Hb. cbn [loadable load_impl heap_devices] in *.
    unfold is_memory, heap_bytes in Hl, Hb. unfold heap_load, rom_load, ram_load, memory_load.
    destruct (h !! d) as [[bytes|bytes| | | |]|] eqn:E; try done;
      replace (in_bounds _ _ _) with true by (symmetry; apply in_bounds_spec; simpl in Hb; lia);
      (eexists; split; [reflexivity|]; eapply heap_loads; [exact E | reflexivity |]);
      intros d'; unfold is_memory, Heap in *; destruct (decide (d' = d)) as [->|];
      [ by rewrite list_lookup_insert_eq, E by (by eapply lookup_lt_Some)
      | by rewrite list_lookup_insert_ne
      | by rewrite list_lookup_insert_eq, E by (by eapply lookup_lt_Some)
      | by rewrite list_lookup_insert_ne ].
Defined.
End HeapLoadable.

(** ** Writing pieces *)
Lemma splice_nil start (a : list Z) : splice start [] a = a.
Proof. unfold splice. simpl. rewrite Nat.add_0_r. apply take_drop. Qed.

Lemma splice_app start (v w a : list Z) :
  (start + length (v ++ w) <= length a)%nat ->
  splice (start + length v) w (splice start v a) = splice start (v ++ w) a.
Proof.
  rewrite length_app. intros Hl. apply list_eq_total.
  { rewrite !splice_length; rewrite ?splice_length, ?length_app; lia. }
  intros i Hi. rewrite !splice_length in Hi by (rewrite ?splice_length; lia).
  rewrite !splice_lookup by (rewrite ?splice_length, ?length_app; lia).
  rewrite length_app. repeat case_bool_decide; try lia; try done.
  - rewrite lookup_total_app_r by lia. f_equal. lia.
  - by rewrite lookup_total_app_l by lia.
Qed.

(** ** Segments and their targets *)
Definition segment_wf (s : ElfSegment) : Prop :=
  fits 64 (load_address s) /\ fits 64 (memory_size s) /\ 0 <= file_size s <= memory_size s.

Definition chunk_wf (c : Chunk) : Prop :=
  segment_wf (chunk_segment c) /\ Z.of_nat (length (chunk_data c)) = file_size (chunk_segment c).

(** The bytes of the memory image: the file data, then the BSS. *)
Definition chunk_bytes (c : Chunk) : list Z :=
  chunk_data c ++
  replicate (Z.to_nat (memory_size (chunk_segment c) - file_size (chunk_segment c))) 0.

Lemma chunk_bytes_length c :
  chunk_wf c -> Z.of_nat (length (chunk_bytes c)) = memory_size (chunk_segment c).
Proof.
  intros [(_ & _ & ?) Hl]. unfold chunk_bytes. rewrite length_app, length_replicate. lia.
Qed.

Section Plan.
Context {H : Type} `{!DeviceHeap H, !LoadableLaws H} (sp : AddressSpace) (Hsp : space_wf sp).
Implicit Types (h : H) (m : Mapping) (s : ElfSegment) (c : Chunk).

(** The offset of a segment in the device of its window. *)
Definition target_offset s m : Z := load_address s - map_base m.

(** [m] is a window that holds the whole segment, and its device takes it. *)
Definition target_ok h s m : Prop :=
  m ∈ mappings_ sp /\ 0 < memory_size s /\
  window_contains m (load_address s) (memory_size s) /\
  loadable h (map_device m) = true /\
  target_offset s m + memory_size s <= Z.of_nat (length (device_bytes h (map_device m))).

Definition only_elf_error (e : exn) : Prop := exists message, e = ElfError message.

Lemma resolve_segment s m :
  segment_wf s ->
  space_resolve sp (load_address s) (memory_size s) = Some m <->
  m ∈ mappings_ sp /\ 0 < memory_size s /\ window_contains m (load_address s) (memory_size s).
Proof.
  intros (_ & [Hm _] & _). split.
  - intros Hr. apply resolve_sound in Hr; [|done..]. destruct Hr as (? & ? & ?). split_and!; [done | lia | done].
  - intros (? & ? & ?). by apply resolve_complete.
Qed.

Lemma target_offset_u64 s m :
  m ∈ mappings_ sp -> window_contains m (load_address s) (memory_size s) -> 0 <= memory_size s ->
  u64 (load_address s - map_base m) = target_offset s m /\ 0 <= target_offset s m /\
  fits 64 (target_offset s m + memory_size s) /\
  target_offset s m + memory_size s <= map_size m.
Proof.
  intros Hm [Hb He] Hs. destruct (mapping_in_wf sp Hsp m Hm) as (? & ? & ?).
  unfold target_offset, fits, UINT64_MAX in *. rewrite u64_small by (unfold fits; lia). lia.
Qed.

Lemma validate_load_target_spec h s i :
  segment_wf s ->
  match validate_load_target sp h s i with
  | Ok _ => exists m, space_resolve sp (load_address s) (memory_size s) = Some m /\ target_ok h s m
  | Throw e => only_elf_error e /\ forall m, ~ target_ok h s m
  end.
Proof.
  intros Hs. unfold validate_load_target, target_ok.
  destruct (space_resolve sp (load_address s) (memory_size s)) as [m|] eqn:E.
  - pose proof (proj1 (resolve_segment s m Hs) E) as (Hm & Hpos & Hc).
    assert (forall m', m' ∈ mappings_ sp -> window_contains m' (load_address s) (memory_size s) ->
              m' = m) as Huniq.
    { intros m' Hm' Hc'. assert (space_resolve sp (load_address s) (memory_size s) = Some m')
        by (by apply resolve_segment). congruence. }
    destruct (target_offset_u64 s m Hm Hc ltac:(lia)) as (-> & Ho & _).
    destruct (loadable h (map_device m)) eqn:El.
    2:{ split; [by eexists|]. intros m' (? & ? & ? & ? & ?). rewrite (Huniq m') in * by done. congruence. }
    pose proof (can_load_bounds h (map_device m) (target_offset s m) (memory_size s) El Ho ltac:(lia)).
    destruct (can_load h _ _ _) eqn:Ec.
    + exists m. naive_solver.
    + split; [by eexists|]. intros m' (? & ? & ? & ? & ?). rewrite (Huniq m') in * by done. naive_solver.
  - split; [by eexists|]. intros m (? & ? & ? & _).
    assert (space_resolve sp (load_address s) (memory_size s) = Some m) by (by apply resolve_segment).
    congruence.
Qed.

(** ** Applying one chunk *)
Section Apply.
Context (m : Mapping) (Hm : m ∈ mappings_ sp).

Lemma load_or_throw_spec h a data what :
  data <> [] -> window_contains m a (Z.of_nat (length data)) ->
  loadable h (map_device m) = true ->
  a - map_base m + Z.of_nat (length data) <= Z.of_nat (length (device_bytes h (map_device m))) ->
  exists h', load_or_throw sp a data what h = (Ok tt, h') /\
             loads device_bytes (map_device m) (a - map_base m) data h h'.
Proof.
  intros Hne Hc Hl Hb. destruct (mapping_in_wf sp Hsp m Hm) as (? & ? & ?).
  assert (length data <> 0%nat) as Hlen by (by destruct data).
  destruct Hc as [Hc1 Hc2]. unfold UINT64_MAX in *.
  destruct (load_in_bounds h (map_device m) (a - map_base m) data Hl) as (h' & He & Hh'); [lia..|].
  exists h'. split; [|done].
  unfold load_or_throw, space_load, bind, gets. destruct (Nat.eqb_spec (length data) 0); [lia|].
  rewrite (resolve_complete sp Hsp a (Z.of_nat (length data)) m) by (done || lia).
  rewrite Hl. cbn [negb]. rewrite u64_small by (unfold fits; lia).
  replace (can_load h _ _ _) with true by (symmetry; apply can_load_bounds; done || lia).
  cbn [negb]. unfold device_load. by rewrite He.
Qed.

Lemma loads_refl d off h : loads device_bytes d off [] h h.
Proof. unfold loads. by rewrite splice_nil. Qed.

Lemma loads_trans d off (v w : list Z) h h1 h2 :
  0 <= off -> off + Z.of_nat (length (v ++ w)) <= Z.of_nat (length (device_bytes h d)) ->
  loads device_bytes d off v h h1 ->
  loads device_bytes d (off + Z.of_nat (length v)) w h1 h2 ->
  loads device_bytes d off (v ++ w) h h2.
Proof.
  intros Ho Hl (Hd & Hn & Hb) (Hd' & Hn' & Hb'). unfold loads. split_and!.
  - rewrite Hd', Hd, Z2Nat.inj_add, Nat2Z.id by lia. apply splice_app. lia.
  - intros d' Hne. rewrite Hn', Hn by done. done.
  - intros d'. by rewrite Hb', Hb.
Qed.

Lemma loads_length d off (v : list Z) h h' d' :
  0 <= off -> off + Z.of_nat (length v) <= Z.of_nat (length (device_bytes h d)) ->
  loads device_bytes d off v h h' ->
  length (device_bytes h' d') = length (device_bytes h d').
Proof.
  intros Ho Hl (Hd & Hn & _). destruct (decide (d' = d)) as [->|]; [|by rewrite Hn].
  rewrite Hd. apply splice_length. lia.
Qed.

Lemma zero_fill_spec fuel h a remaining :
  0 <= remaining <= Z.of_nat ZEROS * Z.of_nat fuel ->
  window_contains m a remaining ->
  loadable h (map_device m) = true ->
  a - map_base m + remaining <= Z.of_nat (length (device_bytes h (map_device m))) ->
  exists h', zero_fill sp fuel a remaining h = (Ok tt, h') /\
    loads device_bytes (map_device m) (a - map_base m)
          (replicate (Z.to_nat remaining) 0) h h'.
Proof.
  revert h a remaining. induction fuel as [|fuel IH]; intros h a rem Hr Hc Hl Hb.
  { replace rem with 0 by lia. exists h. split; [done | apply loads_refl]. }
  cbn [zero_fill]. change (Z.of_nat ZEROS) with 4096 in *.
  destruct (Z.eqb_spec rem 0) as [->|Hr0]; [exists h; split; [done | apply loads_refl]|].
  set (count := Z.to_nat (rem `min` 4096)).
  assert (Z.of_nat count = rem `min` 4096) as Hcount by lia.
  destruct (mapping_in_wf sp Hsp m Hm) as (? & ? & ?). destruct Hc as [Hc1 Hc2].
  unfold UINT64_MAX in *.
  destruct (load_or_throw_spec h a (replicate count 0) "BSS") as (h1 & E1 & Hh1).
  - destruct count; [lia | done].
  - rewrite length_replicate. unfold window_contains. lia.
  - done.
  - rewrite length_replicate. lia.
  - unfold bind. rewrite E1. rewrite u64_small by (unfold fits; lia).
    destruct (IH h1 (a + Z.of_nat count) (rem - Z.of_nat count)) as (h2 & E2 & Hh2).
    + lia.
    + unfold window_contains. lia.
    + destruct Hh1 as (_ & _ & ->). done.
    + erewrite loads_length; [|..|exact Hh1]; rewrite ?length_replicate; lia.
    + exists h2. split; [done|].
      replace (Z.to_nat rem) with (count + Z.to_nat (rem - Z.of_nat count))%nat by lia.
      rewrite replicate_add. apply (loads_trans _ _ _ _ _ h1); [lia | | done |].
      * rewrite length_app, !length_replicate. lia.
      * rewrite length_replicate. by replace (a - map_base m + Z.of_nat count)
          with (a + Z.of_nat count - map_base m) by lia.
Qed.

Lemma apply_chunk_spec h c :
  chunk_wf c -> target_ok h (chunk_segment c) m ->
  exists h', apply_chunk sp c h = (Ok tt, h') /\
    loads device_bytes (map_device m) (target_offset (chunk_segment c) m) (chunk_bytes c) h h'.
Proof.
  intros Hwf (_ & Hpos & Hc & Hl & Hb). pose proof Hwf as [(Ha & Hms & Hfs) Hd].
  set (s := chunk_segment c) in *.
  destruct (mapping_in_wf sp Hsp m Hm) as (? & ? & ?). destruct Hc as [Hc1 Hc2].
  unfold target_offset, UINT64_MAX in *. unfold apply_chunk, apply_segment. fold s.
  cbn [public_segment file_offset]. rewrite drop_0, take_ge by lia.
  assert (forall h1, loads device_bytes (map_device m) (load_address s - map_base m)
                       (chunk_data c) h h1 ->
    exists h', zero_fill sp (zero_fuel (memory_size s - file_size s))
                 (u64 (load_address s + file_size s)) (memory_size s - file_size s) h1 = (Ok tt, h') /\
      loads device_bytes (map_device m) (load_address s - map_base m) (chunk_bytes c) h h') as Hz.
  { intros h1 Hh1. rewrite u64_small by (unfold fits; lia).
    destruct (zero_fill_spec (zero_fuel (memory_size s - file_size s)) h1
                (load_address s + file_size s) (memory_size s - file_size s)) as (h2 & E2 & Hh2).
    - unfold zero_fuel. change (Z.of_nat ZEROS) with 4096. zdiv.
    - unfold window_contains. lia.
    - destruct Hh1 as (_ & _ & ->). done.
    - erewrite loads_length; [|..|exact Hh1]; lia.
    - exists h2. split; [done|]. apply (loads_trans _ _ _ _ _ h1); [lia | | done |].
      + fold (chunk_bytes c). rewrite chunk_bytes_length by done. fold s. lia.
      + rewrite Hd. fold s. by replace (load_address s - map_base m + file_size s)
          with (load_address s + file_size s - map_base m) by lia. }
  unfold bind. destruct (Z.eqb_spec (file_size s) 0) as [Hf0|Hf0]; cbn [negb].
  - apply Hz. destruct (chunk_data c); [apply loads_refl | simpl in Hd; lia].
  - destruct (load_or_throw_spec h (load_address s) (chunk_data c) "data") as (h1 & E1 & Hh1).
    + destruct (chunk_data c); [simpl in Hd; lia | done].
    + unfold window_contains. lia.
    + done.
    + lia.
    + rewrite E1. by apply Hz.
Qed.
End Apply.

(** ** The plan *)

(** The segment wants byte [off] of device [d]. *)
Definition covers s (d : DevicePtr) (off : Z) : Prop :=
  exists m, m ∈ mappings_ sp /\ window_contains m (load_address s) (memory_size s) /\
    map_device m = d /\ target_offset s m <= off < target_offset s m + memory_size s.

(** No byte of a device is wanted twice, whatever windows alias it. *)
Definition compatible c1 c2 : Prop :=
  forall d off, covers (chunk_segment c1) d off -> covers (chunk_segment c2) d off -> False.

Definition plan_ok h (chunks : list Chunk) : Prop :=
  Forall (fun c => exists m, target_ok h (chunk_segment c) m) chunks /\
  ForallOrdPairs compatible chunks.

Lemma covers_target h s m d off :
  target_ok h s m -> segment_wf s ->
  covers s d off <-> map_device m = d /\ target_offset s m <= off < target_offset s m + memory_size s.
Proof.
  intros (Hm & Hp & Hc & _) Hs. split; [|intros [<- ?]; by exists m].
  intros (m' & Hm' & Hc' & Hd & Ho).
  assert (space_resolve sp (load_address s) (memory_size s) = Some m) by (by apply resolve_segment).
  assert (space_resolve sp (load_address s) (memory_size s) = Some m') by (by apply resolve_segment).
  simplify_eq. done.
Qed.

Lemma resolve_target_spec h s m :
  segment_wf s -> target_ok h s m -> resolve_target sp s = Ok m.
Proof.
  intros Hs (? & ? & ? & _). unfold resolve_target.
  by rewrite (proj2 (resolve_segment s m Hs)).
Qed.

(** Two ranges of one device overlap exactly when each starts before the other
    ends. *)
Lemma compatible_targets h a b ma mb :
  chunk_wf a -> chunk_wf b ->
  target_ok h (chunk_segment a) ma -> target_ok h (chunk_segment b) mb ->
  let oa := target_offset (chunk_segment a) ma in
  let ob := target_offset (chunk_segment b) mb in
  compatible a b <->
  ~ (map_device ma = map_device mb /\ oa < ob + memory_size (chunk_segment b)
     /\ ob < oa + memory_size (chunk_segment a)).
Proof.
  intros [Ha _] [Hb _] Hta Htb oa ob. unfold compatible.
  pose proof (fun d off => covers_target h _ ma d off Hta Ha) as Hcova.
  pose proof (fun d off => covers_target h _ mb d off Htb Hb) as Hcovb.
  destruct Hta as (_ & Hpa & _), Htb as (_ & Hpb & _). fold oa ob in Hcova, Hcovb. split.
  - intros Hc (Hd & H1 & H2). apply (Hc (map_device mb) (oa `max` ob)).
    + apply Hcova. split; [done | lia].
    + apply Hcovb. split; [done | lia].
  - intros Hn d off [H1 ?]%Hcova [H2 ?]%Hcovb. apply Hn. split; [congruence | lia].
Qed.

Lemma check_alias_spec h a ma b mb :
  chunk_wf a -> chunk_wf b ->
  target_ok h (chunk_segment a) ma -> target_ok h (chunk_segment b) mb ->
  match check_alias sp (chunk_segment a) ma (chunk_segment b) with
  | Ok _ => compatible a b
  | Throw e => only_elf_error e /\ ~ compatible a b
  end.
Proof.
  intros Ha Hb Hta Htb. pose proof (compatible_targets h a b ma mb Ha Hb Hta Htb) as Hc.
  unfold check_alias. rewrite (resolve_target_spec h _ mb) by (done || apply Hb). cbn [rbind].
  destruct Hta as (Hma & Hpa & Hca & _), Htb as (Hmb & Hpb & Hcb & _).
  destruct (target_offset_u64 _ ma Hma Hca) as (-> & ? & ? & _); [lia|].
  destruct (target_offset_u64 _ mb Hmb Hcb) as (-> & ? & ? & _); [lia|].
  rewrite !u64_small by done. cbn zeta in Hc.
  destruct (Nat.eqb_spec (map_device ma) (map_device mb)) as [Hd|Hd]; cbn [negb andb];
    [|apply Hc; tauto].
  bool_cases; cbn [negb andb]; try (apply Hc; lia).
  split; [by eexists|]. intros Hno%Hc. apply Hno. split; [done | lia].
Qed.

Lemma check_aliases_spec h a ma earlier :
  chunk_wf a -> target_ok h (chunk_segment a) ma -> Forall chunk_wf earlier ->
  Forall (fun c => exists m, target_ok h (chunk_segment c) m) earlier ->
  match check_aliases sp (chunk_segment a) ma earlier with
  | Ok _ => Forall (compatible a) earlier
  | Throw e => only_elf_error e /\ ~ Forall (compatible a) earlier
  end.
Proof.
  intros Ha Hta Hw Ht. induction Ht as [|b earlier [mb Htb] _ IH]; [constructor|].
  apply Forall_cons in Hw as [Hb Hw]. cbn [check_aliases].
  pose proof (check_alias_spec h a ma b mb Ha Hb Hta Htb) as Hs.
  destruct (check_alias _ _ _ _) as [[]|e]; cbn [rbind].
  - specialize (IH Hw). destruct (check_aliases _ _ _ _) as [[]|e].
    + by constructor.
    + split; [tauto|]. intros [_ Hn]%Forall_cons. tauto.
  - split; [tauto|]. intros [Hn _]%Forall_cons. tauto.
Qed.

Lemma compatible_sym c1 c2 : compatible c1 c2 -> compatible c2 c1.
Proof. intros Hc d off H1 H2. by eapply Hc. Qed.

Lemma check_chunks_spec h earlier todo :
  Forall chunk_wf (earlier ++ todo) ->
  Forall (fun c => exists m, target_ok h (chunk_segment c) m) earlier ->
  match check_chunks sp h earlier todo with
  | Ok _ => plan_ok h todo /\ Forall (fun c => Forall (compatible c) earlier) todo
  | Throw e => only_elf_error e /\
      ~ (plan_ok h todo /\ Forall (fun c => Forall (compatible c) earlier) todo)
  end.
Proof.
  unfold plan_ok. revert earlier. induction todo as [|c todo IH]; intros earlier Hw Ht.
  { split; [split; constructor | constructor]. }
  cbn [check_chunks]. pose proof Hw as [Hwe [Hwc _]%Forall_cons]%Forall_app.
  pose proof (validate_load_target_spec h (chunk_segment c) (length earlier) (proj1 Hwc)) as Hv.
  destruct (validate_load_target _ _ _ _) as [[]|e]; cbn [rbind].
  2:{ split; [tauto|]. intros [[[[m Hm] _]%Forall_cons _] _]. by apply (proj2 Hv m). }
  destruct Hv as (m & Hr & Hm). rewrite (resolve_target_spec h _ m) by (done || apply Hwc).
  cbn [rbind]. pose proof (check_aliases_spec h c m earlier Hwc Hm Hwe Ht) as Ha.
  destruct (check_aliases _ _ _ _) as [[]|e]; cbn [rbind].
  2:{ split; [tauto|]. intros [_ [? _]%Forall_cons]. tauto. }
  specialize (IH (earlier ++ [c])). rewrite <- app_assoc in IH. specialize (IH Hw).
  assert (Forall (fun c' => Forall (compatible c') (earlier ++ [c])) todo <->
    Forall (fun c' => Forall (compatible c') earlier) todo /\ Forall (compatible c) todo) as Hsplit.
  { rewrite <- Forall_and. apply Forall_proper; [|done]. intros c'.
    rewrite Forall_app, Forall_singleton. split; intros [? ?]; split; auto using compatible_sym. }
  destruct (check_chunks _ _ _ _) as [[]|e].
  - destruct IH as [[? ?] [? ?]%Hsplit]; [apply Forall_app; eauto|]. split; [split|]; constructor; eauto.
  - destruct IH as [He Hn]; [apply Forall_app; eauto|]. split; [done|].
    intros [[[_ Htt]%Forall_cons Hp] [_ Hc]%Forall_cons]. apply Hn.
    inversion Hp; subst. split; [done|]. by apply Hsplit.
Qed.

(** ** Applying the plan *)
Definition loaded h h' (chunks : list Chunk) : Prop :=
  (forall d, length (device_bytes h' d) = length (device_bytes h d)) /\
  (forall c m k, c ∈ chunks -> target_ok h (chunk_segment c) m ->
     (k < length (chunk_bytes c))%nat ->
     device_bytes h' (map_device m) !!! (Z.to_nat (target_offset (chunk_segment c) m) + k)%nat
     = chunk_bytes c !!! k) /\
  (forall d k, (forall c, c ∈ chunks -> ~ covers (chunk_segment c) d (Z.of_nat k)) ->
     device_bytes h' d !!! k = device_bytes h d !!! k).

Lemma target_ok_ext h h' s m :
  (forall d, loadable h' d = loadable h d) ->
  (forall d, length (device_bytes h' d) = length (device_bytes h d)) ->
  target_ok h' s m <-> target_ok h s m.
Proof. intros Hl Hb. unfold target_ok. by rewrite Hl, Hb. Qed.

Lemma chunk_loads_spec h h' c m :
  chunk_wf c -> target_ok h (chunk_segment c) m ->
  loads device_bytes (map_device m) (target_offset (chunk_segment c) m) (chunk_bytes c) h h' ->
  loaded h h' [c].
Proof.
  intros Hw Ht Hl. pose proof (chunk_bytes_length c Hw) as Hlen.
  pose proof Ht as (Hm & Hp & Hc & _ & Hb).
  destruct (target_offset_u64 _ m Hm Hc) as (_ & Ho & _); [lia|].
  unfold loaded. split_and!.
  - intros d. eapply loads_length; [| |exact Hl]; lia.
  - intros c' m' k ->%list_elem_of_singleton Ht' Hk.
    assert (m' = m) as ->.
    { destruct Ht' as (? & ? & ? & _).
      assert (space_resolve sp (load_address (chunk_segment c)) (memory_size (chunk_segment c)) = Some m')
        by (by apply resolve_segment; [apply Hw|]).
      assert (space_resolve sp (load_address (chunk_segment c)) (memory_size (chunk_segment c)) = Some m)
        by (by apply resolve_segment; [apply Hw|]).
      congruence. }
    destruct Hl as (-> & _ & _). rewrite splice_lookup by lia.
    rewrite bool_decide_eq_true_2 by lia. f_equal. lia.
  - intros d k Hk. specialize (Hk c ltac:(by left)).
    rewrite (covers_target h _ m d _ Ht (proj1 Hw)) in Hk.
    destruct Hl as (Hd & Hn & _). destruct (decide (d = map_device m)) as [->|]; [|by rewrite Hn].
    rewrite Hd. destruct (decide (k < length (device_bytes h (map_device m)))%nat).
    + rewrite splice_lookup, bool_decide_eq_false_2 by lia. done.
    + by rewrite !list_lookup_total_alt, !lookup_ge_None_2 by (rewrite ?splice_length; lia).
Qed.

Lemma apply_chunks_spec chunks h :
  Forall chunk_wf chunks -> plan_ok h chunks ->
  exists h', for_each chunks (apply_chunk sp) h = (Ok tt, h') /\ loaded h h' chunks.
Proof.
  intros Hw [Ht Hp]. revert h Hw Ht. induction Hp as [|c chunks Hc Hp IH]; intros h Hw Ht.
  { exists h. split; [done|]. unfold loaded. split_and!; try done. by intros ??? ?%elem_of_nil. }
  apply Forall_cons in Hw as [Hwc Hw], Ht as [[m Hm] Ht]. cbn [for_each].
  destruct (apply_chunk_spec m (proj1 Hm) h c Hwc Hm) as (h1 & E1 & Hl1).
  pose proof (chunk_loads_spec h h1 c m Hwc Hm Hl1) as (Hlen1 & Hd1 & Hk1).
  assert (forall s m, target_ok h1 s m <-> target_ok h s m) as Hte.
  { intros. apply target_ok_ext; [apply Hl1 | done]. }
  destruct (IH h1 Hw) as (h' & E' & Hlen' & Hd' & Hk').
  { eapply Forall_impl; [exact Ht|]. intros c' [m' ?]. exists m'. by apply Hte. }
  exists h'. unfold bind. rewrite E1. split; [done|]. unfold loaded. split_and!.
  - intros d. by rewrite Hlen', Hlen1.
  - intros c' m' k [->|Hin]%elem_of_cons Ht' Hk; [|by apply Hd'; [done | apply Hte | done]].
    rewrite Hk'; [apply Hd1; [by left | done | done]|].
    intros c2 Hc2 Hcov. apply Forall_forall with (x := c2) in Hc; [|done].
    eapply Hc; [|exact Hcov]. apply (covers_target h _ m' _ _ Ht' (proj1 Hwc)). split; [done|].
    rewrite <- (chunk_bytes_length c) by done. destruct Ht' as (? & ? & ? & _).
    destruct (target_offset_u64 (chunk_segment c) m') as (_ & ? & _); [done..|lia|]. lia.
  - intros d k Hn. rewrite Hk', Hk1; [done | |].
    + intros c' ->%list_elem_of_singleton. apply Hn. by left.
    + intros c' Hc'. apply Hn. by right.
Qed.

Lemma apply_loads chunks h u h' :
  Forall chunk_wf chunks -> apply sp chunks h = (Ok u, h') -> plan_ok h chunks /\ loaded h h' chunks.
Proof.
  intros Hw. unfold apply. pose proof (check_chunks_spec h [] chunks Hw (Forall_nil_2 _)) as Hc.
  assert (Forall (fun c => Forall (compatible c) []) chunks) as Hnil by (apply Forall_true; constructor).
  destruct (check_chunks _ _ _ _) as [[]|e]; [|done]. destruct Hc as [Hok _].
  destruct (apply_chunks_spec chunks h Hw Hok) as (h1 & -> & Hl). intros Heq. by injection Heq as _ <-.
Qed.

(** C17: [apply] is all or nothing.  It succeeds exactly when every range of
    every image lies in one window of a loadable device that has the bytes, and
    no byte of a device is wanted twice (BSS and aliased windows included).
    Then each range holds its file bytes followed by zeros and every other byte
    of every device is what it was.  Otherwise it throws [ElfError] and no
    device has been touched. *)
Theorem apply_is_all_or_nothing chunks h :
  Forall chunk_wf chunks ->
  match apply sp chunks h with
  | (Ok _, h') => plan_ok h chunks /\ loaded h h' chunks
  | (Throw e, h') => ~ plan_ok h chunks /\ only_elf_error e /\ h' = h
  end.
Proof.
  intros Hw. unfold apply.
  pose proof (check_chunks_spec h [] chunks Hw (Forall_nil_2 _)) as Hc.
  assert (Forall (fun c => Forall (compatible c) []) chunks) as Hnil by (apply Forall_true; constructor).
  destruct (check_chunks _ _ _ _) as [[]|e].
  - destruct Hc as [Hok _]. destruct (apply_chunks_spec chunks h Hw Hok) as (h' & -> & Hl). done.
  - destruct Hc as [He Hn]. split_and!; [|done|done]. intros Hok. by apply Hn.
Qed.
End Plan.
