(* ===== verification/ElfLayout.v ===== *)
(** * The layout of ELF images

    The reference for the parser: the fields of an ELF image as little-endian
    numbers at their places in the file, the images that are valid, and the
    segments they load.  Each step of [parse_header] and
    [parse_program_header] (src/elf_loader.cpp) decides one of the conditions
    and computes one of the fields. *)
From S2P Require Import Prelude Text Axi Device Elf ElfPlan.

(** ** Fields *)
Fixpoint le_value (l : list Z) : Z :=
  match l with
  | [] => 0
  | byte :: rest => byte + 256 * le_value rest
  end.

(** The number in the [n] bytes at an offset. *)
Definition field (image : list Z) (offset : Z) (n : nat) : Z := le_value (take n (drop (Z.to_nat offset) image)).

Lemma le_value_bound l : Forall (fits 8) l -> fits (8 * Z.of_nat (length l)) (le_value l).
Proof.
  induction 1 as [|b l [Hb0 Hb1] _ [IH0 IH1]]; [done|]. cbn [le_value length]. unfold fits.
  replace (8 * Z.of_nat (S (length l))) with (8 + 8 * Z.of_nat (length l)) by lia.
  rewrite Z.pow_add_r by lia. change (2 ^ 8) with 256 in *. split; nia.
Qed.

(** The bytes of a number. *)
Lemma le_value_byte l i :
  Forall (fits 8) l -> (i < length l)%nat -> le_value l / 2 ^ (8 * Z.of_nat i) mod 256 = l !!! i.
Proof.
  intros Hl. revert i. induction Hl as [|b l [Hb0 Hb1] Hl IH]; intros i Hi; [simpl in Hi; lia|].
  change (2 ^ 8) with 256 in Hb1. pose proof (le_value_bound l Hl) as [Hv _]. cbn [le_value].
  destruct i as [|i].
  - rewrite Z.mul_0_r, Z.div_1_r, (Z.mul_comm 256), Z.mod_add by lia. by apply Z.mod_small.
  - replace (8 * Z.of_nat (S i)) with (8 + 8 * Z.of_nat i) by lia. rewrite Z.pow_add_r by lia.
    change (2 ^ 8) with 256. rewrite <- Z.div_div by lia.
    replace ((b + 256 * le_value l) / 256) with (le_value l).
    + rewrite IH by (simpl in Hi; lia). done.
    + rewrite (Z.mul_comm 256), Z.div_add, Z.div_small by lia. lia.
Qed.

(** ** Deciding a condition *)

(** A computation that returns [v] if [P] holds and throws [ElfError] if not. *)
Definition elf_decides {A} (r : result A) (P : Prop) (v : A) : Prop :=
  match r with Ok a => P /\ a = v | Throw e => only_elf_error e /\ ~ P end.

Lemma decides_ret {A} (v : A) : elf_decides (Ok v) True v.
Proof. done. Qed.

Lemma decides_bind {A B} (r : result A) (k : A -> result B) (P P' : Prop) v w :
  elf_decides r P v -> (P -> elf_decides (k v) P' w) -> elf_decides (rbind r k) (P /\ P') w.
Proof.
  unfold elf_decides. destruct r as [a|e]; cbn [rbind].
  - intros [HP ->] Hk. specialize (Hk HP). destruct (k v); tauto.
  - tauto.
Qed.

Lemma decides_guard {B} (b : bool) (message : string) (r : result B) (P P' : Prop) w :
  (b = true <-> P) -> (P -> elf_decides r P' w) ->
  elf_decides (guard b else ElfError message in r) (P /\ P') w.
Proof.
  intros Hb Hr. destruct b; cbn.
  - assert P as HP by tauto. specialize (Hr HP). unfold elf_decides in *. destruct r; tauto.
  - split; [by eexists|]. intros [HP _]. apply Hb in HP. done.
Qed.

Lemma decides_iff {A} (r : result A) (P P' : Prop) v :
  elf_decides r P v -> (P <-> P') -> elf_decides r P' v.
Proof. unfold elf_decides. destruct r; tauto. Qed.

(** A step that always succeeds. *)
Lemma decides_then {A B} (r : result A) (k : A -> result B) (P P' : Prop) v w :
  elf_decides r P v -> P -> elf_decides (k v) P' w -> elf_decides (rbind r k) P' w.
Proof. unfold elf_decides. destruct r as [a|e]; cbn [rbind]; [intros [_ ->] | ]; tauto. Qed.

Lemma decides_range offset n capacity d :
  0 <= offset -> 0 <= n -> elf_decides (require_range offset n capacity d) (offset + n <= capacity) tt.
Proof.
  intros Ho Hn. unfold require_range. eapply decides_iff; [apply decides_guard; [|intros _; apply decides_ret]|].
  - instantiate (1 := offset + n <= capacity). bool_cases; simpl; split; intros; (done || lia).
  - tauto.
Qed.

Lemma decides_read n image offset d :
  Forall (fits 8) image -> 0 <= offset ->
  elf_decides (read_little_endian n image offset d) (offset + Z.of_nat n <= Z.of_nat (length image))
    (field image offset n).
Proof.
  intros Hb Ho. unfold read_little_endian.
  eapply decides_iff; [eapply (decides_bind _ _ _ True); [apply decides_range; lia|] | tauto].
  intros Hr. split; [done|]. set (l := take n (drop (Z.to_nat offset) image)).
  assert (length l = n) as Hl by (unfold l; rewrite length_take, length_drop; lia).
  assert (Forall (fits 8) l) as Hlb by (by apply Forall_take, Forall_drop).
  pose proof (le_value_bound l Hlb) as Hv. rewrite Hl in Hv.
  rewrite (little_endian_loop n _ (le_value l)); [| apply Hv |].
  - unfold wrap, field. fold l. rewrite Z.mod_mod, Z.mod_small by (apply Hv || (pose proof (pow2_pos (8 * Z.of_nat n)); lia)).
    done.
  - intros i Hi. rewrite le_value_byte, (Z.mul_comm (Z.of_nat i)) by (done || lia). f_equal.
    unfold l. by rewrite !list_lookup_total_alt, lookup_take_lt, lookup_drop by done.
Qed.

Lemma decides_multiply a b d :
  fits 64 a -> fits 64 b -> elf_decides (checked_multiply a b d) (a * b <= UINT64_MAX) (a * b).
Proof.
  intros [Ha0 Ha1] [Hb0 Hb1]. unfold checked_multiply, UINT64_MAX.
  assert (negb (nz a && (UINT64_MAX / a <? b)) = true <-> a * b <= 2 ^ 64 - 1) as Hg.
  { rewrite negb_true_iff, andb_false_iff, nz_false, Z.ltb_ge. unfold UINT64_MAX.
    destruct (decide (a = 0)) as [->|Hne]; [split; [lia | by left]|]. split.
    - intros [?|Hb]; [done|]. pose proof (Z.mul_div_le (2 ^ 64 - 1) a ltac:(lia)). nia.
    - intros Hm. right. apply Z.div_le_lower_bound; lia. }
  unfold UINT64_MAX in Hg. destruct (negb _); cbn.
  - assert (a * b <= 2 ^ 64 - 1) as Hm by tauto. split; [done|]. apply u64_small. unfold fits. nia.
  - split; [by eexists|]. intros Hm. by apply Hg in Hm.
Qed.

Lemma decides_add a b d :
  fits 64 a -> fits 64 b -> elf_decides (checked_add a b d) (a + b <= UINT64_MAX) (a + b).
Proof.
  intros [Ha0 Ha1] [Hb0 Hb1]. unfold checked_add. destruct (Z.ltb_spec (UINT64_MAX - a) b); cbn.
  - split; [by eexists|]. lia.
  - split; [lia|]. apply u64_small. unfold fits, UINT64_MAX in *. lia.
Qed.

(** ** The header *)
Section Layout.
Context (image : list Z).

Definition file_length : Z := Z.of_nat (length image).
Definition elf_wide : bool := image !!! 4%nat =? ELF_CLASS_64.
(** A field that has 8 bytes in ELF64, 4 in ELF32. *)
Definition word (offset : Z) : Z := field image offset (if elf_wide then 8 else 4).

Definition entry_point : Z := word 24.
Definition table_offset : Z := word (if elf_wide then 32 else 28).
Definition declared_size : Z := field image (if elf_wide then 52 else 40) 2.
Definition entry_size : Z := field image (if elf_wide then 54 else 42) 2.
Definition entry_count : Z := field image (if elf_wide then 56 else 44) 2.

Definition valid_header : Prop :=
  16 <= file_length /\ take 4 image = [0x7f; 0x45; 0x4c; 0x46] /\
  (image !!! 4%nat = 1 \/ image !!! 4%nat = 2) /\ image !!! 5%nat = 1 /\ image !!! 6%nat = 1 /\
  (if elf_wide then 64 else 52) <= file_length /\ field image 20 4 = 1 /\
  (if elf_wide then 64 else 52) <= declared_size /\ entry_count <> 0xffff /\
  (entry_count = 0 \/ (if elf_wide then 56 else 32) <= entry_size) /\
  table_offset + entry_count * entry_size <= file_length.

(** ** Program headers *)
Definition header_at (i : nat) : Z := table_offset + Z.of_nat i * entry_size.
Definition loads (i : nat) : bool := field image (header_at i) 4 =? 1.
Definition phdr (i : nat) (offset64 offset32 : Z) : Z := word (header_at i + if elf_wide then offset64 else offset32).

Definition data_at (i : nat) : Z := phdr i 8 4.
Definition alignment_at (i : nat) : Z := phdr i 48 28.
Definition segment_at (i : nat) : ElfSegment := {|
  virtual_address := phdr i 16 8;
  physical_address := phdr i 24 12;
  load_address := if phdr i 24 12 =? 0 then phdr i 16 8 else phdr i 24 12;
  file_size := phdr i 32 16;
  memory_size := phdr i 40 20;
  flags := field image (header_at i + if elf_wide then 4 else 24) 4
|}.

(** The segments that are planned: those of type PT_LOAD that occupy memory, in
    the order of the table; and the chunk of each, with its bytes of the file. *)
Definition planned : list nat :=
  filter (fun i => loads i = true /\ memory_size (segment_at i) <> 0) (seq 0 (Z.to_nat entry_count)).
Definition chunk_at (i : nat) : Chunk := {|
  chunk_segment := segment_at i;
  chunk_data := take (Z.to_nat (file_size (segment_at i))) (drop (Z.to_nat (data_at i)) image)
|}.

Section Valid.
Context {H : Type} `{!DeviceHeap H, !LoadableLaws H} (sp : AddressSpace) (h : H).

(** A segment of type PT_LOAD: its data are in the file and not longer than its
    memory range; its alignment is a power of two, and its addresses agree; the
    range, unless empty, is in a window whose device can load it. *)
Definition valid_segment (i : nat) : Prop :=
  let s := segment_at i in
  loads i = true ->
  file_size s <= memory_size s /\ data_at i + file_size s <= file_length /\
  (1 < alignment_at i ->
     (exists k, 0 <= k /\ alignment_at i = 2 ^ k) /\
     virtual_address s mod alignment_at i = data_at i mod alignment_at i) /\
  load_address s + memory_size s <= UINT64_MAX /\
  (memory_size s <> 0 -> exists m, target_ok sp h s m).

Definition segments_apart (c1 c2 : Chunk) : Prop :=
  let s1 := chunk_segment c1 in let s2 := chunk_segment c2 in
  load_address s1 + memory_size s1 <= load_address s2 \/
  load_address s2 + memory_size s2 <= load_address s1.

Definition valid_elf : Prop :=
  valid_header /\ (forall i, (i < Z.to_nat entry_count)%nat -> valid_segment i) /\
  ForallOrdPairs segments_apart (chunk_at <$> planned).
End Valid.

(** ** The parser decides the header *)
Context (Hbytes : Forall (fits 8) image).

Lemma field_fits offset n : 0 <= field image offset n < 2 ^ (8 * Z.of_nat n).
Proof.
  unfold field. set (l := take _ _).
  destruct (le_value_bound l) as [H0 H1]; [by apply Forall_take, Forall_drop|]. split; [done|].
  eapply Z.lt_le_trans; [exact H1|]. apply Z.pow_le_mono_r; [lia|]. unfold l. rewrite length_take. lia.
Qed.

Lemma word_fits offset : fits 64 (word offset).
Proof.
  unfold word. destruct elf_wide; [apply (field_fits offset 8)|].
  pose proof (field_fits offset 4). unfold fits. change (2 ^ (8 * Z.of_nat 4)) with (2 ^ 32) in *. lia.
Qed.

Lemma entry_size_fits : 0 <= entry_size < 2 ^ 16.
Proof. apply (field_fits _ 2). Qed.
Lemma entry_count_fits : 0 <= entry_count < 2 ^ 16.
Proof. apply (field_fits _ 2). Qed.

Lemma decides_word offset d1 d2 :
  0 <= offset ->
  elf_decides (if elf_wide then read_little_endian 8 image offset d1 else read_little_endian 4 image offset d2)
    (offset + (if elf_wide then 8 else 4) <= file_length) (word offset).
Proof. intros Ho. unfold word. destruct elf_wide; by apply decides_read. Qed.

Lemma is_elf_magic_spec : 16 <= file_length -> is_elf_magic image = true <-> take 4 image = [0x7f; 0x45; 0x4c; 0x46].
Proof.
  unfold file_length, is_elf_magic. destruct image as [|a [|b [|c [|d l]]]]; cbn [length]; try lia. intros _. cbn.
  rewrite !andb_true_iff, !Z.eqb_eq. split; [by intros [[[-> ->] ->] ->] | by intros [= -> -> -> ->]].
Qed.

Definition parsed_header : ParsedHeader := {|
  entry := entry_point; program_header_offset := table_offset; program_header_size := entry_size;
  program_header_count := entry_count; is_64_bit := elf_wide
|}.

(** [parse_header] decides whether the header is valid, and finds its fields. *)
Lemma decides_header : elf_decides (parse_header image) valid_header parsed_header.
Proof.
  pose proof entry_size_fits. pose proof entry_count_fits. pose proof (word_fits (if elf_wide then 32 else 28)) as [Ht _].
  unfold parse_header. fold file_length elf_wide. unfold valid_header.
  eapply decides_iff.
  { eapply decides_bind; [apply decides_range; lia|]. intros H16.
    eapply decides_guard; [by apply is_elf_magic_spec|]. intros _.
    eapply decides_guard; [rewrite orb_true_iff, !Z.eqb_eq; reflexivity|]. intros _.
    eapply decides_guard; [apply Z.eqb_eq|]. intros _. eapply decides_guard; [apply Z.eqb_eq|]. intros _.
    eapply decides_bind; [apply decides_range; [lia | by destruct elf_wide]|]. intros Hsize.
    assert (52 <= file_length) as H52 by (destruct elf_wide; lia).
    eapply decides_then; [apply decides_read; [done | lia] | unfold file_length in *; lia |].
    eapply decides_guard; [apply Z.eqb_eq|]. intros _.
    eapply decides_then; [apply decides_word; lia | destruct elf_wide; lia |].
    eapply decides_then.
    { instantiate (1 := table_offset).
      instantiate (1 := (if elf_wide then 32 else 28) + (if elf_wide then 8 else 4) <= file_length).
      unfold table_offset, word. destruct elf_wide; apply decides_read; (done || lia). }
    { destruct elf_wide; lia. }
    eapply decides_then; [apply decides_read; [done | by destruct elf_wide] | unfold file_length in *; destruct elf_wide; lia |].
    eapply decides_then; [apply decides_read; [done | by destruct elf_wide] | unfold file_length in *; destruct elf_wide; lia |].
    eapply decides_then; [apply decides_read; [done | by destruct elf_wide] | unfold file_length in *; destruct elf_wide; lia |].
    fold declared_size entry_size entry_count.
    eapply decides_guard; [rewrite negb_true_iff; apply Z.ltb_ge|]. intros _.
    eapply decides_guard; [rewrite negb_true_iff; apply Z.eqb_neq|]. intros _.
    eapply (decides_guard _ _ _ (entry_count = 0 \/ (if elf_wide then 56 else 32) <= entry_size)).
    { rewrite negb_true_iff, andb_false_iff, nz_false, Z.ltb_ge. done. }
    intros _. eapply decides_then; [apply decides_multiply; unfold fits; lia | unfold UINT64_MAX; nia |].
    eapply decides_bind; [apply decides_range; [exact Ht | nia]|]. intros _. apply decides_ret. }
  assert (elf_wide = true <-> image !!! 4%nat = 2) by apply Z.eqb_eq.
  unfold declared_size, ELF_CLASS_32, ELF_DATA_LITTLE_ENDIAN, ELF_VERSION_CURRENT. rewrite !Z.add_0_l. tauto.
Qed.

(** ** The parser decides the segments *)

(** A program header of the table lies in the file. *)
Lemma header_room i :
  valid_header -> (i < Z.to_nat entry_count)%nat ->
  0 <= header_at i /\ header_at i + (if elf_wide then 56 else 32) <= file_length /\
  Z.of_nat i * entry_size <= file_length.
Proof.
  intros (_ & _ & _ & _ & _ & _ & _ & _ & _ & Hs & Ht) Hi. pose proof entry_size_fits. pose proof entry_count_fits.
  pose proof (word_fits (if elf_wide then 32 else 28)) as [Ho _]. fold table_offset in Ho.
  destruct Hs as [Hs|Hs]; [lia|]. unfold header_at.
  assert ((Z.of_nat i + 1) * entry_size <= entry_count * entry_size) by (apply Z.mul_le_mono_nonneg_r; lia).
  split; [nia|]. split; nia.
Qed.

Lemma decides_fields i :
  fits 64 file_length -> valid_header -> (i < Z.to_nat entry_count)%nat ->
  elf_decides (parse_fields elf_wide image (header_at i)) True
    ({| virtual_address := virtual_address (segment_at i); physical_address := physical_address (segment_at i);
        load_address := 0; file_size := file_size (segment_at i); memory_size := memory_size (segment_at i);
        flags := flags (segment_at i) |}, data_at i, alignment_at i).
Proof.
  intros [_ Hf] Hv Hi. destruct (header_room i Hv Hi) as (H0 & Hr & _).
  unfold parse_fields, segment_at, data_at, alignment_at, phdr, word. cbn [virtual_address physical_address file_size memory_size flags].
  unfold file_length in *.
  destruct elf_wide;
    repeat (rewrite u64_small by (unfold fits; lia);
            eapply decides_then; [apply decides_read; [done | lia] | lia |]);
    apply decides_ret.
Qed.

Lemma power_of_two a : 1 < a -> Z.land a (a - 1) = 0 <-> exists k, 0 <= k /\ a = 2 ^ k.
Proof.
  intros Ha. split.
  - intros Hl. exists (Z.log2 a). pose proof (Z.log2_spec a ltac:(lia)) as [Hlo Hhi].
    split; [apply Z.log2_nonneg|]. destruct (decide (a = 2 ^ Z.log2 a)) as [|Hne]; [done|]. exfalso.
    assert (Z.log2 (a - 1) = Z.log2 a) as El by (apply Z.log2_unique; [apply Z.log2_nonneg | lia]).
    assert (Z.testbit (Z.land a (a - 1)) (Z.log2 a) = true) as Hb.
    { rewrite Z.land_spec, Z.bit_log2 by lia. rewrite <- El at 1. by apply Z.bit_log2; lia. }
    by rewrite Hl, Z.bits_0 in Hb.
  - intros (k & Hk & ->). rewrite land_low by done. apply Z.mod_same. pose proof (pow2_pos k). lia.
Qed.

Lemma decides_check i (s : ElfSegment) offset align :
  0 <= offset -> 0 <= file_size s ->
  elf_decides (check_segment image i s offset align)
    (file_size s <= memory_size s /\ offset + file_size s <= file_length /\
     (1 < align -> (exists k, 0 <= k /\ align = 2 ^ k) /\
                   virtual_address s mod align = offset mod align)) tt.
Proof.
  intros Ho Hs. unfold check_segment, pt_load. eapply decides_guard; [rewrite negb_true_iff; apply Z.ltb_ge|].
  intros _. eapply decides_bind; [apply decides_range; lia|]. intros _.
  destruct (Z.ltb_spec 1 align) as [Ha|Ha].
  2:{ eapply decides_iff; [apply decides_ret | split; [lia | done] ]. }
  eapply decides_iff; [eapply decides_guard; [|intros _; eapply decides_guard; [apply Z.eqb_eq | intros _; apply decides_ret]]|].
  - rewrite negb_true_iff, nz_false. by apply power_of_two.
  - tauto.
Qed.

(** What the parser makes of program header [i]. *)
Definition parsed_at (i : nat) : ParsedSegment := {|
  public_segment := segment_at i; file_offset := data_at i; alignment := alignment_at i;
  program_header_index := i
|}.

Section Segments.
Context {H : Type} `{!DeviceHeap H, !LoadableLaws H} (sp : AddressSpace) (Hsp : space_wf sp) (h : H).
Context (Hlength : fits 64 file_length) (Hheader : valid_header).

Lemma segment_fields_fit i :
  fits 64 (load_address (segment_at i)) /\ fits 64 (memory_size (segment_at i)) /\ 0 <= file_size (segment_at i).
Proof.
  unfold segment_at, phdr. cbn. pose proof (word_fits (header_at i + if elf_wide then 32 else 16)) as [? _].
  split; [destruct (_ =? 0); apply word_fits|]. split; [apply word_fits | done].
Qed.

Lemma with_load_address_at i :
  with_load_address {| virtual_address := virtual_address (segment_at i); physical_address := physical_address (segment_at i);
    load_address := 0; file_size := file_size (segment_at i); memory_size := memory_size (segment_at i);
    flags := flags (segment_at i) |} = segment_at i.
Proof. unfold with_load_address, segment_at, nz. cbn. by destruct (_ =? 0). Qed.

Lemma decides_target i :
  file_size (segment_at i) <= memory_size (segment_at i) ->
  elf_decides (validate_load_target sp h (segment_at i) i) (exists m, target_ok sp h (segment_at i) m) tt.
Proof.
  intros Hf. destruct (segment_fields_fit i) as (Hl & Hm & H0).
  assert (segment_wf (segment_at i)) as Hw by (split; [done | split; [done | lia]]).
  pose proof (validate_load_target_spec sp Hsp h (segment_at i) i Hw) as Hv.
  destruct (validate_load_target _ _ _ _) as [[]|e].
  - destruct Hv as (m & _ & Hm'). split; [by exists m | done].
  - destruct Hv as [He Hn]. split; [done|]. by intros [m ?%Hn].
Qed.

Lemma decides_program_header i :
  (i < Z.to_nat entry_count)%nat ->
  elf_decides (parse_program_header sp image h parsed_header i) (valid_segment sp h i)
    (if loads i && negb (memory_size (segment_at i) =? 0) then Some (parsed_at i) else None).
Proof.
  intros Hi. destruct (header_room i Hheader Hi) as (H0 & Hr & Hm). pose proof Hlength as [_ Hl].
  pose proof entry_size_fits. pose proof entry_count_fits. destruct (segment_fields_fit i) as (Hla & Hms & Hfs).
  unfold parse_program_header, valid_segment. cbn [program_header_size program_header_offset is_64_bit parsed_header].
  eapply decides_then; [apply decides_multiply; unfold fits; lia | unfold UINT64_MAX; lia |].
  eapply decides_then; [apply decides_add; [apply word_fits | unfold fits; nia]| |].
  { fold (header_at i). unfold UINT64_MAX. destruct elf_wide; lia. }
  fold (header_at i).
  eapply decides_then; [apply decides_read; [done | lia] | unfold file_length in *; destruct elf_wide; lia |].
  fold (loads i). unfold PT_LOAD. change (field image (header_at i) 4 =? 1) with (loads i).
  destruct (loads i); cbn [negb andb]; [|eapply decides_iff; [apply decides_ret | done]].
  eapply decides_then; [by apply decides_fields | done |]. cbn beta iota.
  eapply decides_iff.
  { eapply decides_bind; [apply decides_check; [apply word_fits | exact Hfs]|]. intros (Hfm & _ & _).
    rewrite with_load_address_at. eapply decides_bind; [by apply decides_add|]. intros _.
    instantiate (1 := memory_size (segment_at i) <> 0 -> exists m, target_ok sp h (segment_at i) m).
    destruct (Z.eqb_spec (memory_size (segment_at i)) 0) as [Hz|Hz]; cbn [negb].
    - eapply decides_iff; [apply decides_ret | done].
    - eapply decides_iff; [eapply decides_bind; [by apply decides_target | intros _; apply decides_ret] | naive_solver]. }
  cbn [virtual_address file_size memory_size]. naive_solver.
Qed.

Lemma decides_indices indices :
  Forall (fun i => (i < Z.to_nat entry_count)%nat) indices ->
  elf_decides (parse_indices sp image h parsed_header indices) (Forall (valid_segment sp h) indices)
    (parsed_at <$> filter (fun i => loads i = true /\ memory_size (segment_at i) <> 0) indices).
Proof.
  induction 1 as [|i indices Hi _ IH]; [by split|]. cbn [parse_indices].
  eapply decides_iff; [|symmetry; apply Forall_cons].
  eapply decides_bind; [by apply decides_program_header|]. intros _.
  eapply decides_iff; [eapply decides_bind; [exact IH | intros _]|].
  2:{ instantiate (1 := True). tauto. }
  split; [done|]. rewrite filter_cons.
  destruct (loads i), (Z.eqb_spec (memory_size (segment_at i)) 0); cbn [negb andb option_list app];
    case_decide; naive_solver.
Qed.

Lemma decides_load_segments :
  elf_decides (parse_load_segments sp image h parsed_header)
    (forall i, (i < Z.to_nat entry_count)%nat -> valid_segment sp h i) (parsed_at <$> planned).
Proof.
  unfold parse_load_segments. cbn [program_header_count parsed_header]. eapply decides_iff.
  - apply decides_indices, Forall_forall. intros i Hi%elem_of_seq. lia.
  - rewrite Forall_forall. setoid_rewrite elem_of_seq. split; intros Hv i; [intros; apply Hv; lia | intros [_ ?]; by apply Hv].
Qed.
End Segments.
End Layout.
