(* ===== verification/ElfParse.v ===== *)
(** * ELF parsing: theorems

    Whatever bytes are given, parsing ends in [ElfError] or in segments whose
    data lies in the file and whose ranges lie in windows of loadable devices. *)
From stdpp Require Import sorting.
From S2P Require Import Prelude Text Axi Device Memory Uart Interrupts Heap Elf ElfPlan ElfLayout.

(** A computation that returns a value in [Q] or throws [ElfError]. *)
Definition elf_spec {A} (r : result A) (Q : A -> Prop) : Prop :=
  match r with Ok a => Q a | Throw e => only_elf_error e end.

Lemma elf_bind {A B} (r : result A) (k : A -> result B) (P : A -> Prop) (Q : B -> Prop) :
  elf_spec r P -> (forall a, P a -> elf_spec (k a) Q) -> elf_spec (rbind r k) Q.
Proof. destruct r; simpl; auto. Qed.

Lemma elf_guard {B} (b : bool) (message : string) (r : result B) (Q : B -> Prop) :
  (b = true -> elf_spec r Q) -> elf_spec (guard b else ElfError message in r) Q.
Proof. destruct b; simpl; [auto|]. intros _. by eexists. Qed.

Lemma elf_mono {A} (r : result A) (P Q : A -> Prop) :
  elf_spec r P -> (forall a, P a -> Q a) -> elf_spec r Q.
Proof. destruct r; simpl; auto. Qed.

Lemma require_range_spec offset length capacity d :
  elf_spec (require_range offset length capacity d)
    (fun _ => offset <= capacity /\ offset + length <= capacity).
Proof.
  unfold require_range. apply elf_guard. bool_cases; try done. intros _. simpl. lia.
Qed.

Lemma read_little_endian_spec n image offset d :
  elf_spec (read_little_endian n image offset d)
    (fun v => fits (8 * Z.of_nat n) v /\ offset + Z.of_nat n <= Z.of_nat (length image)).
Proof.
  unfold read_little_endian. eapply elf_bind; [apply require_range_spec|].
  intros _ [_ ?]. split; [apply wrap_fits; lia | done].
Qed.

Lemma checked_add_spec a b d :
  fits 64 a -> fits 64 b ->
  elf_spec (checked_add a b d) (fun v => v = a + b /\ fits 64 v).
Proof.
  intros [? ?] [? ?]. unfold checked_add. apply elf_guard. intros Hb. apply negb_true_iff, Z.ltb_ge in Hb.
  unfold UINT64_MAX in Hb. cbn [elf_spec]. rewrite u64_small by (unfold fits; lia). unfold fits. lia.
Qed.

Lemma checked_multiply_spec a b d :
  fits 64 a -> fits 64 b ->
  elf_spec (checked_multiply a b d) (fun v => v = a * b /\ fits 64 v).
Proof.
  intros [? ?] [? ?]. unfold checked_multiply. apply elf_guard. intros Hb.
  apply negb_true_iff, andb_false_iff in Hb.
  assert (0 <= a * b < 2 ^ 64) as Hm.
  { split; [nia|]. destruct Hb as [Hb|Hb].
    - apply nz_false in Hb as ->. lia.
    - apply Z.ltb_ge in Hb. destruct (decide (a = 0)) as [->|]; [lia|].
      assert (a * b <= a * (UINT64_MAX / a)) by nia.
      pose proof (Z.mul_div_le UINT64_MAX a ltac:(lia)). unfold UINT64_MAX in *. lia. }
  cbn [elf_spec]. rewrite u64_small by done. done.
Qed.

(** ** The header *)
Definition header_ok (image : list Z) (hd : ParsedHeader) : Prop :=
  is_elf_magic image = true /\ fits 64 (entry hd) /\ fits 64 (program_header_offset hd) /\
  fits 16 (program_header_size hd) /\ 0 <= program_header_count hd < 0xffff /\
  program_header_offset hd + program_header_count hd * program_header_size hd
    <= Z.of_nat (length image) /\
  (program_header_count hd <> 0 ->
   (if is_64_bit hd then 56 else 32) <= program_header_size hd).

Lemma parse_header_spec image : elf_spec (parse_header image) (header_ok image).
Proof.
  unfold parse_header. eapply elf_bind; [apply require_range_spec|]. intros _ _.
  apply elf_guard. intros Hmagic. apply elf_guard. intros _. apply elf_guard. intros _.
  apply elf_guard. intros _. set (wide := image !!! 4%nat =? ELF_CLASS_64).
  eapply elf_bind; [apply require_range_spec|]. intros _ _.
  eapply elf_bind; [apply read_little_endian_spec|]. intros version _.
  apply elf_guard. intros _.
  assert (forall a b k1 k2, elf_spec (if wide then read_little_endian 8 image a k1
                                     else read_little_endian 4 image b k2) (fits 64)) as Hfield.
  { intros. destruct wide;
      (eapply elf_mono; [apply read_little_endian_spec|]); intros v [[? ?] _];
      unfold fits in *; simpl in *; lia. }
  eapply elf_bind; [apply Hfield|]. intros en Hen.
  eapply elf_bind; [apply Hfield|]. intros off Hoff.
  eapply elf_bind; [apply read_little_endian_spec|]. intros hs _.
  eapply elf_bind; [apply read_little_endian_spec|]. intros ps [Hps _].
  eapply elf_bind; [apply read_little_endian_spec|]. intros count [Hcount _].
  change (fits 16 ps) in Hps. change (fits 16 count) in Hcount.
  apply elf_guard. intros _. apply elf_guard. intros Hc%negb_true_iff%Z.eqb_neq.
  apply elf_guard. intros Hsize.
  eapply elf_bind; [apply checked_multiply_spec; unfold fits in *; lia|]. intros table [-> _].
  eapply elf_bind; [apply require_range_spec|]. intros _ [_ Ht].
  unfold header_ok. cbn. split_and!; try done.
  - apply Hcount.
  - unfold fits in Hcount. lia.
  - intros Hnz. apply negb_true_iff, andb_false_iff in Hsize as [Hz|Hz].
    + by apply nz_false in Hz.
    + by apply Z.ltb_ge in Hz.
Qed.

(** ** Segments *)
Section Segments.
Context {H : Type} `{!DeviceHeap H, !LoadableLaws H} (sp : AddressSpace) (Hsp : space_wf sp).
Context (image : list Z) (h : H).
Implicit Types (s : ElfSegment) (p : ParsedSegment).

Definition image_size : Z := Z.of_nat (length image).

(** What holds of every segment that is planned. *)
Definition parsed_ok p : Prop :=
  let s := public_segment p in
  segment_wf s /\ fits 64 (load_address s + memory_size s) /\
  0 <= file_offset p /\ file_offset p + file_size s <= image_size /\
  load_address s = (if nz (physical_address s) then physical_address s else virtual_address s) /\
  (1 < alignment p -> virtual_address s mod alignment p = file_offset p mod alignment p) /\
  exists m, target_ok sp h s m.

Lemma parse_fields_spec wide offset :
  elf_spec (parse_fields wide image offset) (fun '(s, off, align) =>
    fits 64 (virtual_address s) /\ fits 64 (physical_address s) /\ fits 64 (file_size s) /\
    fits 64 (memory_size s) /\ fits 64 off /\ fits 64 align).
Proof.
  unfold parse_fields. assert (forall v, fits (8 * Z.of_nat 4) v -> fits 64 v) as H4.
  { intros v. change (8 * Z.of_nat 4) with 32. unfold fits. lia. }
  destruct wide;
    repeat (eapply elf_bind; [apply read_little_endian_spec|]; intros ? [? _]);
    cbn; split_and!; auto.
Qed.

Lemma check_segment_spec index s offset align :
  elf_spec (check_segment image index s offset align) (fun _ =>
    file_size s <= memory_size s /\ offset + file_size s <= image_size /\
    (1 < align -> virtual_address s mod align = offset mod align)).
Proof.
  unfold check_segment. apply elf_guard. intros Hs%negb_true_iff%Z.ltb_ge.
  eapply elf_bind; [apply require_range_spec|]. intros _ [_ Hr].
  destruct (Z.ltb_spec 1 align).
  - apply elf_guard. intros _. apply elf_guard. intros Ha%Z.eqb_eq. done.
  - cbn. split_and!; [done | done | lia].
Qed.

Lemma parse_program_header_spec hd index :
  header_ok image hd -> fits 64 image_size -> Z.of_nat index < program_header_count hd ->
  elf_spec (parse_program_header sp image h hd index) (fun o =>
    match o with Some p => parsed_ok p /\ program_header_index p = index | None => True end).
Proof.
  intros (_ & _ & Ho & Hs & Hc & Ht & _) Hi Hidx. unfold parse_program_header.
  assert (fits 64 (Z.of_nat index)) by (unfold fits; lia).
  assert (fits 64 (program_header_size hd)) by (unfold fits in *; lia).
  eapply elf_bind; [by apply checked_multiply_spec|]. intros scaled [-> Hsc].
  eapply elf_bind; [by apply checked_add_spec|]. intros offset [-> Hoff].
  eapply elf_bind; [apply read_little_endian_spec|]. intros type _.
  destruct (negb _); [done|].
  eapply elf_bind; [apply parse_fields_spec|]. intros [[s off] align] (Hv & Hp & Hf & Hm & Hfo & _).
  eapply elf_bind; [apply check_segment_spec|]. intros _ (Hfm & Hfile & Hal).
  set (s' := with_load_address s).
  assert (fits 64 (load_address s')) as Hl by (unfold s'; cbn; by destruct (nz _)).
  assert (segment_wf s') as Hwf by (split; [done | split; [exact Hm | split; [apply Hf | exact Hfm]]]).
  eapply elf_bind; [by apply checked_add_spec|]. intros end_ [-> Hend].
  destruct (Z.eqb_spec (memory_size s') 0); [done|].
  pose proof (validate_load_target_spec sp Hsp h s' index Hwf) as Hval.
  destruct (validate_load_target _ _ _ _) as [[]|e]; [|apply Hval].
  destruct Hval as (m & _ & Ht'). cbn [rbind elf_spec]. split; [|done].
  unfold parsed_ok. cbn [public_segment file_offset alignment].
  split_and!; try done; try apply Hfo; try apply Hfile. by exists m.
Qed.

Lemma parse_indices_spec hd indices :
  header_ok image hd -> fits 64 image_size ->
  Forall (fun i => Z.of_nat i < program_header_count hd) indices ->
  elf_spec (parse_indices sp image h hd indices) (Forall parsed_ok).
Proof.
  intros Hhd Hi Hall. induction Hall as [|i indices Hlt _ IH]; [constructor|]. cbn [parse_indices].
  eapply elf_bind; [by apply parse_program_header_spec|]. intros o Ho.
  eapply elf_bind; [exact IH|]. intros ps Hps. cbn. apply Forall_app. split; [|done].
  destruct o as [p|]; cbn; [by constructor; [apply Ho|] | constructor].
Qed.

Lemma parse_load_segments_spec hd :
  header_ok image hd -> fits 64 image_size ->
  elf_spec (parse_load_segments sp image h hd) (Forall parsed_ok).
Proof.
  intros Hhd Hi. apply parse_indices_spec; [done..|]. apply Forall_forall.
  intros i [_ Hlt]%elem_of_seq. destruct Hhd as (_ & _ & _ & _ & Hc & _). lia.
Qed.
End Segments.

(** ** Overlap *)
Definition ends_before (p1 p2 : ParsedSegment) : Prop :=
  load_address (public_segment p1) + memory_size (public_segment p1)
    <= load_address (public_segment p2).
Definition apart (p1 p2 : ParsedSegment) : Prop := ends_before p1 p2 \/ ends_before p2 p1.

Lemma ord_pairs_cons {A} (R : A -> A -> Prop) x (l : list A) :
  ForallOrdPairs R (x :: l) <-> Forall (R x) l /\ ForallOrdPairs R l.
Proof. split; [inversion 1; by subst | intros []; by constructor]. Qed.

Lemma ord_pairs_map {A B} (f : A -> B) (R : B -> B -> Prop) (l : list A) :
  ForallOrdPairs R (map f l) <-> ForallOrdPairs (fun x y => R (f x) (f y)) l.
Proof.
  induction l as [|x l IH]; [split; constructor|]. cbn [map].
  by rewrite !ord_pairs_cons, IH, Forall_fmap.
Qed.

(** A symmetric relation that holds of all pairs of a list does so in any order. *)
Lemma ord_pairs_perm {A} (R : A -> A -> Prop) (l1 l2 : list A) :
  (forall x y, R x y -> R y x) -> l1 ≡ₚ l2 -> ForallOrdPairs R l1 -> ForallOrdPairs R l2.
Proof.
  intros Hsym Hp. induction Hp as [|x l1 l2 Hp IH|x y l|l1 l2 l3 _ IH1 _ IH2]; intros Ho; [done| | |auto].
  - apply ord_pairs_cons in Ho as [Hx Ho]. constructor; [by rewrite <- Hp | auto].
  - apply ord_pairs_cons in Ho as [[Hyx Hy]%Forall_cons [Hx Hl]%ord_pairs_cons].
    repeat constructor; auto.
Qed.

Definition range_ok (p : ParsedSegment) : Prop :=
  let s := public_segment p in
  0 <= load_address s /\ 0 < memory_size s /\ fits 64 (load_address s + memory_size s).

Lemma check_neighbours_spec p ps :
  Forall range_ok (p :: ps) -> StronglySorted address_le (p :: ps) ->
  match check_neighbours p ps with
  | Ok _ => StronglySorted ends_before (p :: ps)
  | Throw e => only_elf_error e /\ ~ ForallOrdPairs apart (p :: ps)
  end.
Proof.
  revert p. induction ps as [|q ps IH]; intros p Hr Hs; [repeat constructor|].
  cbn [check_neighbours]. apply Forall_cons in Hr as [Hp Hr].
  apply StronglySorted_cons in Hs as [[Hpq Hle]%Forall_cons Hs].
  pose proof Hr as [Hq _]%Forall_cons. destruct Hp as (? & ? & Hp), Hq as (? & ? & Hq).
  rewrite u64_small by done. unfold address_le in Hpq.
  destruct (Z.ltb_spec (load_address (public_segment q))
              (load_address (public_segment p) + memory_size (public_segment p))); cbn [negb].
  - split; [by eexists|]. intros [[Ha _]%Forall_cons _]%ord_pairs_cons.
    unfold apart, ends_before in Ha. lia.
  - specialize (IH q Hr Hs). destruct (check_neighbours q ps) as [[]|e].
    + apply SSorted_cons; [done|]. assert (ends_before p q) as Hb by (unfold ends_before; lia).
      constructor; [done|]. apply StronglySorted_cons in IH as [Hq' _].
      eapply Forall_impl; [exact Hq'|]. intros r Hqr. unfold ends_before in *. lia.
    + destruct IH as [He Hn]. split; [done|]. intros [_ Ho]%ord_pairs_cons. done.
Qed.

Lemma sorted_ord_pairs {A} (R S : A -> A -> Prop) (l : list A) :
  (forall x y, R x y -> S x y) -> StronglySorted R l -> ForallOrdPairs S l.
Proof.
  intros Hrs Hs. induction Hs as [|x l Hs IH Hx]; constructor; [|done].
  eapply Forall_impl; [exact Hx|auto].
Qed.

(** Sorting and comparing neighbours decides pairwise disjointness. *)
Lemma validate_no_overlap_spec ps :
  Forall range_ok ps ->
  match validate_no_overlap ps with
  | Ok _ => ForallOrdPairs apart ps
  | Throw e => only_elf_error e /\ ~ ForallOrdPairs apart ps
  end.
Proof.
  intros Hr. unfold validate_no_overlap.
  assert (Transitive address_le) as Htr by (intros x y z; unfold address_le; lia).
  assert (Total address_le) as Hto by (intros x y; unfold address_le; lia).
  pose proof (merge_sort_Permutation address_le ps) as Hp.
  pose proof (StronglySorted_merge_sort address_le ps) as Hs.
  assert (forall x y, apart x y -> apart y x) as Hsym by (unfold apart; tauto).
  destruct (merge_sort address_le ps) as [|q qs] eqn:E.
  - apply Permutation_nil_l in Hp as <-. constructor.
  - rewrite <- Hp in Hr. pose proof (check_neighbours_spec q qs Hr Hs) as Hc.
    destruct (check_neighbours q qs) as [[]|e].
    + apply (ord_pairs_perm _ (q :: qs)); [done..|].
      eapply sorted_ord_pairs; [|exact Hc]. by left.
    + split; [apply Hc|]. intros Ho. apply Hc. by apply (ord_pairs_perm _ ps).
Qed.

(** ** Adding an image *)
Section Add.
Context {H : Type} `{!DeviceHeap H, !LoadableLaws H} (sp : AddressSpace) (Hsp : space_wf sp).
Implicit Types (h : H) (image : list Z) (chunks : list Chunk).

Lemma parsed_chunk_wf image h p : parsed_ok sp image h p -> chunk_wf (chunk_of image p).
Proof.
  intros (Hw & _ & Ho & Hf & _). split; [done|]. unfold image_size in Hf. cbn.
  destruct Hw as (_ & _ & Hfs). rewrite length_take, length_drop. lia.
Qed.

Lemma parsed_range_ok image h p : parsed_ok sp image h p -> range_ok p.
Proof. intros ((Hl & _ & _) & ? & _ & _ & _ & _ & (m & _ & ? & _)). split_and!; try done. apply Hl. Qed.

(** [c] carries bytes of the image: the [file_size] bytes from some offset. *)
Definition from_image image (c : Chunk) : Prop :=
  exists off, (off + length (chunk_data c) <= length image)%nat /\
    chunk_data c = take (length (chunk_data c)) (drop off image).

Lemma chunk_of_from_image image h p :
  parsed_ok sp image h p -> from_image image (chunk_of image p).
Proof.
  intros Hp. destruct (parsed_chunk_wf image h p Hp) as [_ Hl].
  destruct Hp as (Hw & _ & Ho & Hf & _). unfold image_size in Hf.
  exists (Z.to_nat (file_offset p)). cbn in *. destruct Hw as (_ & _ & Hfs).
  split; [lia|]. f_equal. lia.
Qed.

(** C19: [add_elf] plans exactly the valid images.  Whatever bytes it is given, it
    succeeds if and only if the ELF header is valid, so is every program header
    of type PT_LOAD, and the ranges that are not empty are disjoint.  Then it
    adds a chunk for each of these headers that occupies memory, in the order
    of the table and with the fields and the bytes of the file that the header
    names, and returns the entry point, the class and these segments.  The data
    of a chunk are no longer than its memory range, which lies in one window
    whose device can load it.  Otherwise [ElfError] is thrown and the plan is as
    it was. *)
Theorem add_elf_plans_only_valid_segments image h chunks :
  fits 64 (Z.of_nat (length image)) -> Forall (fits 8) image ->
  match add_elf sp image h chunks with
  | (Ok res, chunks') =>
      let new := chunk_at image <$> planned image in
      valid_elf image sp h /\ chunks' = chunks ++ new /\
      result_entry res = entry_point image /\ result_is_64_bit res = elf_wide image /\
      result_segments res = segment_at image <$> planned image /\
      Forall chunk_wf new /\ Forall (from_image image) new /\
      Forall (fun c => exists m, target_ok sp h (chunk_segment c) m) new /\
      ForallOrdPairs segments_apart new
  | (Throw e, chunks') => ~ valid_elf image sp h /\ only_elf_error e /\ chunks' = chunks
  end.
Proof.
  intros Hi Hb. unfold add_elf, valid_elf, bind, lift, modify, ret.
  pose proof (parse_header_spec image) as Hh. pose proof (decides_header image Hb) as Dh.
  destruct (parse_header image) as [hd|e]; cbn [elf_decides] in Dh; [|tauto]. destruct Dh as [Hv ->].
  pose proof (parse_load_segments_spec sp Hsp image h _ Hh Hi) as Hs.
  pose proof (decides_load_segments image Hb sp Hsp h Hi Hv) as Ds.
  destruct (parse_load_segments sp image h _) as [ps|e]; cbn [elf_decides elf_spec] in Ds, Hs; [|tauto].
  destruct Ds as [Hseg ->].
  pose proof (validate_no_overlap_spec (parsed_at image <$> planned image)) as Ho.
  assert (Forall range_ok (parsed_at image <$> planned image)) as Hr
    by (eapply Forall_impl; [exact Hs|]; apply parsed_range_ok).
  specialize (Ho Hr). assert (ForallOrdPairs segments_apart (chunk_at image <$> planned image) <->
    ForallOrdPairs apart (parsed_at image <$> planned image)) as Hiff by (by rewrite !ord_pairs_map).
  destruct (validate_no_overlap _) as [[]|e]; [|tauto].
  assert (map (chunk_of image) (parsed_at image <$> planned image) = chunk_at image <$> planned image) as Hnew
    by (rewrite map_map; reflexivity).
  split; [tauto|]. split; [by rewrite Hnew|]. split; [done|]. split; [done|]. split; [cbn; by rewrite map_map|].
  assert (forall P : Chunk -> Prop, (forall p, parsed_ok sp image h p -> P (chunk_of image p)) ->
    Forall P (chunk_at image <$> planned image)) as Hall.
  { intros P HP. rewrite <- Hnew. clear -Hs HP. induction Hs; constructor; auto. }
  split; [by apply Hall, parsed_chunk_wf|]. split; [by apply Hall, chunk_of_from_image|]. split; [|tauto].
  apply Hall. intros p (_ & _ & _ & _ & _ & _ & Hm). done.
Qed.
End Add.
