(* ===== verification/ElfImage.v ===== *)
(** * Writing an ELF image and reading it back

    An encoder for executables of both classes (header, program header table,
    then the data of the segments) is the reference the parser is compared
    with: [ImageLoadPlan::add_elf] recovers exactly what was encoded. *)
From S2P Require Import Prelude Text Axi Device Memory Uart Interrupts Heap Elf ElfPlan ElfLayout ElfParse.

(** ** Little-endian fields *)
Definition le_bytes (n : nat) (v : Z) : list Z :=
  (fun i => v / 2 ^ (8 * Z.of_nat i) mod 256) <$> seq 0 n.

Lemma le_bytes_length n v : length (le_bytes n v) = n.
Proof. unfold le_bytes. by rewrite length_fmap, length_seq. Qed.

Lemma read_at n image off v d :
  (0 < n)%nat -> fits (8 * Z.of_nat n) v -> take n (drop off image) = le_bytes n v ->
  read_little_endian n image (Z.of_nat off) d = Ok v.
Proof.
  intros Hn Hv Ht. pose proof (f_equal length Ht) as Hl.
  rewrite le_bytes_length, length_take, length_drop in Hl. unfold read_little_endian, require_range.
  replace (Z.of_nat (length image) <? Z.of_nat off) with false by (symmetry; apply Z.ltb_ge; lia).
  replace (Z.of_nat (length image) - Z.of_nat off <? Z.of_nat n) with false
    by (symmetry; apply Z.ltb_ge; lia).
  cbn [orb negb rbind]. rewrite (little_endian_loop n _ v); [|apply Hv|].
  - unfold wrap. by rewrite Z.mod_mod, Z.mod_small by (apply Hv || (pose proof (pow2_pos (8 * Z.of_nat n)); lia)).
  - intros i Hi. rewrite Nat2Z.id, (Z.mul_comm (Z.of_nat i)). f_equal.
    transitivity (take n (drop off image) !!! i).
    + by rewrite !list_lookup_total_alt, lookup_take_lt, lookup_drop by done.
    + by rewrite Ht, list_lookup_total_alt; unfold le_bytes; rewrite list_lookup_fmap, lookup_seq_lt.
Qed.

(** A field of a block of the image. *)
Lemma read_block pre blk post n k v d :
  (0 < n)%nat -> (k + n <= length blk)%nat -> fits (8 * Z.of_nat n) v ->
  take n (drop k blk) = le_bytes n v ->
  read_little_endian n (pre ++ blk ++ post) (Z.of_nat (length pre + k)) d = Ok v.
Proof.
  intros Hn Hk Hv Ht. apply read_at; [done..|].
  rewrite drop_app_ge by lia. replace (length pre + k - length pre)%nat with k by lia.
  rewrite drop_app_le by lia. rewrite take_app_le by (rewrite length_drop; lia). done.
Qed.

(** ** The encoder *)
Record Segment := {
  seg_flags : Z;
  seg_virtual : Z;
  seg_physical : Z;
  seg_data : list Z;
  seg_memory : Z
}.

Definition header_bytes (wide : bool) : nat := if wide then 64 else 52.
Definition entry_bytes (wide : bool) : nat := if wide then 56 else 32.

Definition encode_header (wide : bool) (entry count : Z) : list Z :=
  [0x7f; 0x45; 0x4c; 0x46; (if wide then ELF_CLASS_64 else ELF_CLASS_32);
   ELF_DATA_LITTLE_ENDIAN; ELF_VERSION_CURRENT; 0] ++ replicate 8 0 ++
  le_bytes 2 2 ++ le_bytes 2 0xf3 ++ le_bytes 4 1 ++
  (if wide
   then le_bytes 8 entry ++ le_bytes 8 64 ++ le_bytes 8 0 ++ le_bytes 4 0 ++
        le_bytes 2 64 ++ le_bytes 2 56 ++ le_bytes 2 count
   else le_bytes 4 entry ++ le_bytes 4 52 ++ le_bytes 4 0 ++ le_bytes 4 0 ++
        le_bytes 2 52 ++ le_bytes 2 32 ++ le_bytes 2 count) ++
  le_bytes 2 0 ++ le_bytes 2 0 ++ le_bytes 2 0.

Definition encode_entry (wide : bool) (offset : Z) (s : Segment) : list Z :=
  let size := Z.of_nat (length (seg_data s)) in
  if wide
  then le_bytes 4 PT_LOAD ++ le_bytes 4 (seg_flags s) ++ le_bytes 8 offset ++
       le_bytes 8 (seg_virtual s) ++ le_bytes 8 (seg_physical s) ++ le_bytes 8 size ++
       le_bytes 8 (seg_memory s) ++ le_bytes 8 1
  else le_bytes 4 PT_LOAD ++ le_bytes 4 offset ++ le_bytes 4 (seg_virtual s) ++
       le_bytes 4 (seg_physical s) ++ le_bytes 4 size ++ le_bytes 4 (seg_memory s) ++
       le_bytes 4 (seg_flags s) ++ le_bytes 4 1.

Fixpoint encode_entries (wide : bool) (offset : Z) (ss : list Segment) : list Z :=
  match ss with
  | [] => []
  | s :: rest =>
      encode_entry wide offset s
      ++ encode_entries wide (offset + Z.of_nat (length (seg_data s))) rest
  end.

Definition data_offset (wide : bool) (count : nat) : nat :=
  (header_bytes wide + count * entry_bytes wide)%nat.

Definition encode (wide : bool) (entry : Z) (ss : list Segment) : list Z :=
  encode_header wide entry (Z.of_nat (length ss)) ++
  encode_entries wide (Z.of_nat (data_offset wide (length ss))) ss ++
  concat (map seg_data ss).

(** What the loader makes of a segment. *)
Definition elf_segment (s : Segment) : ElfSegment :=
  {| virtual_address := seg_virtual s; physical_address := seg_physical s;
     load_address := if nz (seg_physical s) then seg_physical s else seg_virtual s;
     file_size := Z.of_nat (length (seg_data s)); memory_size := seg_memory s;
     flags := seg_flags s |}.

Definition segment_chunk (s : Segment) : Chunk :=
  {| chunk_segment := elf_segment s; chunk_data := seg_data s |}.

Definition occupied (ss : list Segment) : list Segment := filter (fun s => seg_memory s <> 0) ss.

Definition class_bits (wide : bool) : Z := if wide then 64 else 32.

Definition segment_fits (wide : bool) (s : Segment) : Prop :=
  fits 32 (seg_flags s) /\ fits (class_bits wide) (seg_virtual s) /\
  fits (class_bits wide) (seg_physical s) /\ fits (class_bits wide) (seg_memory s) /\
  Z.of_nat (length (seg_data s)) <= seg_memory s.

Definition encodable (wide : bool) (entry : Z) (ss : list Segment) : Prop :=
  fits (class_bits wide) entry /\ Z.of_nat (length ss) < 0xffff /\
  fits (class_bits wide) (Z.of_nat (length (encode wide entry ss))) /\
  Forall (segment_fits wide) ss.

Lemma encode_header_length wide entry count :
  length (encode_header wide entry count) = header_bytes wide.
Proof. by destruct wide. Qed.

Lemma encode_entry_length wide offset s : length (encode_entry wide offset s) = entry_bytes wide.
Proof. by destruct wide. Qed.

Lemma encode_entries_length wide offset ss :
  length (encode_entries wide offset ss) = (length ss * entry_bytes wide)%nat.
Proof.
  revert offset. induction ss as [|s ss IH]; intros offset; [done|]. cbn [encode_entries length].
  rewrite length_app, encode_entry_length, IH. lia.
Qed.

Lemma checked_add_ok a b d : 0 <= a -> 0 <= b -> fits 64 (a + b) -> checked_add a b d = Ok (a + b).
Proof.
  intros Ha Hb [_ Hf]. unfold checked_add.
  replace (UINT64_MAX - a <? b) with false by (symmetry; apply Z.ltb_ge; unfold UINT64_MAX; lia).
  cbn [negb]. by rewrite u64_small by (unfold fits; lia).
Qed.

Lemma checked_multiply_ok a b d :
  0 <= a -> 0 <= b -> fits 64 (a * b) -> checked_multiply a b d = Ok (a * b).
Proof.
  intros Ha Hb [_ Hf]. unfold checked_multiply.
  replace (nz a && (UINT64_MAX / a <? b)) with false.
  - cbn [negb]. rewrite u64_small by (unfold fits; nia). done.
  - symmetry. apply andb_false_iff. destruct (nz a) eqn:E; [right | by left].
    apply nz_true in E. apply Z.ltb_ge, Z.div_le_lower_bound; unfold UINT64_MAX; lia.
Qed.

Lemma require_range_ok offset length capacity d :
  0 <= length -> offset + length <= capacity -> require_range offset length capacity d = Ok tt.
Proof. intros ??. unfold require_range. bool_cases; done || lia. Qed.

(** ** The header is read back *)
Lemma parse_encode_header wide entry ss :
  encodable wide entry ss ->
  parse_header (encode wide entry ss) =
  Ok {| Elf.entry := entry; program_header_offset := Z.of_nat (header_bytes wide);
        program_header_size := Z.of_nat (entry_bytes wide);
        program_header_count := Z.of_nat (length ss); is_64_bit := wide |}.
Proof.
  intros (He & Hc & Hlen & _).
  assert (Z.of_nat (length (encode wide entry ss)) =
          Z.of_nat (data_offset wide (length ss)) + Z.of_nat (length (concat (map seg_data ss)))) as Hl.
  { unfold encode, data_offset.
    rewrite !length_app, encode_header_length, encode_entries_length. lia. }
  unfold encode in *. set (rest := encode_entries _ _ _ ++ _) in *.
  set (count := Z.of_nat (length ss)) in *.
  assert (fits 16 count) as Hcount by (unfold fits; lia).
  set (image := encode_header wide entry count ++ rest) in *.
  assert (forall n k v d, (0 < n)%nat -> (k + n <= header_bytes wide)%nat ->
            fits (8 * Z.of_nat n) v ->
            take n (drop k (encode_header wide entry count)) = le_bytes n v ->
            read_little_endian n image (Z.of_nat k) d = Ok v) as Hread.
  { intros n k v d Hn Hk Hv Ht. apply (read_block [] (encode_header wide entry count) rest n k v d);
      [done | by rewrite encode_header_length | done | done]. }
  assert (forall k, (k < header_bytes wide)%nat ->
            image !!! k = encode_header wide entry count !!! k) as Hbyte.
  { intros k Hk. apply lookup_total_app_l. by rewrite encode_header_length. }
  unfold parse_header, is_elf_magic. unfold data_offset in Hl.
  rewrite !Hbyte by (destruct wide; cbn; lia). clear Hbyte.
  change (encode_header wide entry count !!! 0%nat) with 0x7f.
  change (encode_header wide entry count !!! 1%nat) with 0x45.
  change (encode_header wide entry count !!! 2%nat) with 0x4c.
  change (encode_header wide entry count !!! 3%nat) with 0x46.
  change (encode_header wide entry count !!! 4%nat)
    with (if wide then ELF_CLASS_64 else ELF_CLASS_32).
  change (encode_header wide entry count !!! 5%nat) with 1.
  change (encode_header wide entry count !!! 6%nat) with 1.
  set (header := encode_header wide entry count) in *.
  destruct wide; cbn [header_bytes entry_bytes class_bits] in *.
  all: clearbody image; rewrite require_range_ok by lia;
    cbn -[read_little_endian require_range checked_multiply Z.of_nat Z.mul Z.ltb];
    rewrite require_range_ok by lia; cbn [rbind];
    rewrite (Hread 4%nat 20%nat 1) by (done || lia);
    cbn [rbind Z.eqb Pos.eqb ELF_VERSION_CURRENT].
  - rewrite (Hread 8%nat 24%nat entry) by (done || lia). cbn [rbind].
    rewrite (Hread 8%nat 32%nat 64) by (done || lia). cbn [rbind].
    rewrite (Hread 2%nat 52%nat 64) by (done || lia). cbn [rbind].
    rewrite (Hread 2%nat 54%nat 56) by (done || lia). cbn [rbind].
    rewrite (Hread 2%nat 56%nat count) by (done || lia). cbn [rbind].
    replace (count =? 65535) with false by (symmetry; apply Z.eqb_neq; lia).
    rewrite andb_false_r. cbn [negb Z.ltb Z.compare Pos.compare Pos.compare_cont].
    rewrite checked_multiply_ok by (unfold fits in *; lia). cbn [rbind].
    by rewrite require_range_ok by lia.
  - rewrite (Hread 4%nat 24%nat entry) by (done || lia). cbn [rbind].
    rewrite (Hread 4%nat 28%nat 52) by (done || lia). cbn [rbind].
    rewrite (Hread 2%nat 40%nat 52) by (done || lia). cbn [rbind].
    rewrite (Hread 2%nat 42%nat 32) by (done || lia). cbn [rbind].
    rewrite (Hread 2%nat 44%nat count) by (done || lia). cbn [rbind].
    replace (count =? 65535) with false by (symmetry; apply Z.eqb_neq; lia).
    rewrite andb_false_r. cbn [negb Z.ltb Z.compare Pos.compare Pos.compare_cont].
    rewrite checked_multiply_ok by (unfold fits in *; lia). cbn [rbind].
    by rewrite require_range_ok by lia.
Qed.

(** ** The program headers are read back *)
Definition unplaced (s : Segment) : ElfSegment :=
  {| virtual_address := seg_virtual s; physical_address := seg_physical s; load_address := 0;
     file_size := Z.of_nat (length (seg_data s)); memory_size := seg_memory s;
     flags := seg_flags s |}.

Lemma read_entry wide pre offset s post n k v d :
  fits 64 (Z.of_nat (length pre + entry_bytes wide)) ->
  (0 < n)%nat -> (k + n <= entry_bytes wide)%nat -> fits (8 * Z.of_nat n) v ->
  take n (drop k (encode_entry wide offset s)) = le_bytes n v ->
  read_little_endian n (pre ++ encode_entry wide offset s ++ post)
    (u64 (Z.of_nat (length pre) + Z.of_nat k)) d = Ok v.
Proof.
  intros [_ Hp] Hn Hk Hv Ht. rewrite u64_small by (unfold fits; lia). rewrite <- Nat2Z.inj_add.
  apply read_block; [done | by rewrite encode_entry_length | done | done].
Qed.

Lemma parse_fields_encoded wide pre offset s post :
  fits 64 (Z.of_nat (length pre + entry_bytes wide)) ->
  segment_fits wide s -> fits (class_bits wide) offset ->
  parse_fields wide (pre ++ encode_entry wide offset s ++ post) (Z.of_nat (length pre))
  = Ok (unplaced s, offset, 1).
Proof.
  intros Hp (Hf & Hv & Hph & Hm & Hd) Ho. unfold parse_fields.
  assert (fits (class_bits wide) (Z.of_nat (length (seg_data s)))) as Hsz by (unfold fits in *; lia).
  destruct wide; cbn [class_bits] in *.
  - rewrite (read_entry true pre offset s post 4 4 (seg_flags s)) by (done || (cbn; lia)). cbn [rbind].
    rewrite (read_entry true pre offset s post 8 8 offset) by (done || (cbn; lia)). cbn [rbind].
    rewrite (read_entry true pre offset s post 8 16 (seg_virtual s)) by (done || (cbn; lia)). cbn [rbind].
    rewrite (read_entry true pre offset s post 8 24 (seg_physical s)) by (done || (cbn; lia)). cbn [rbind].
    rewrite (read_entry true pre offset s post 8 32 (Z.of_nat (length (seg_data s)))) by (done || (cbn; lia)). cbn [rbind].
    rewrite (read_entry true pre offset s post 8 40 (seg_memory s)) by (done || (cbn; lia)). cbn [rbind].
    by rewrite (read_entry true pre offset s post 8 48 1) by (done || (cbn; lia)).
  - rewrite (read_entry false pre offset s post 4 4 offset) by (done || (cbn; lia)). cbn [rbind].
    rewrite (read_entry false pre offset s post 4 8 (seg_virtual s)) by (done || (cbn; lia)). cbn [rbind].
    rewrite (read_entry false pre offset s post 4 12 (seg_physical s)) by (done || (cbn; lia)). cbn [rbind].
    rewrite (read_entry false pre offset s post 4 16 (Z.of_nat (length (seg_data s)))) by (done || (cbn; lia)). cbn [rbind].
    rewrite (read_entry false pre offset s post 4 20 (seg_memory s)) by (done || (cbn; lia)). cbn [rbind].
    rewrite (read_entry false pre offset s post 4 24 (seg_flags s)) by (done || (cbn; lia)). cbn [rbind].
    by rewrite (read_entry false pre offset s post 4 28 1) by (done || (cbn; lia)).
Qed.

Definition parsed_segment (index : nat) (offset : Z) (s : Segment) : ParsedSegment :=
  {| public_segment := elf_segment s; file_offset := offset; alignment := 1;
     program_header_index := index |}.

(** The parsed segments of a table that starts with entry [index]. *)
Fixpoint parsed_entries (index : nat) (offset : Z) (ss : list Segment) : list ParsedSegment :=
  match ss with
  | [] => []
  | s :: rest =>
      (if seg_memory s =? 0 then [] else [parsed_segment index offset s])
      ++ parsed_entries (S index) (offset + Z.of_nat (length (seg_data s))) rest
  end.

Section Decode.
Context {H : Type} `{!DeviceHeap H, !LoadableLaws H} (sp : AddressSpace) (Hsp : space_wf sp).
Context (wide : bool) (en : Z) (count : nat) (h : H).

Definition encoded_header : ParsedHeader :=
  {| Elf.entry := en; program_header_offset := Z.of_nat (header_bytes wide);
     program_header_size := Z.of_nat (entry_bytes wide);
     program_header_count := Z.of_nat count; is_64_bit := wide |}.

(** The target of a segment that occupies memory. *)
Definition placed (s : Segment) : Prop :=
  seg_memory s <> 0 -> exists m, target_ok sp h (elf_segment s) m.

Lemma elf_segment_wf s : segment_fits wide s -> segment_wf (elf_segment s).
Proof.
  intros (_ & Hv & Hp & Hm & Hd). assert (class_bits wide <= 64) by (by destruct wide).
  assert (2 ^ class_bits wide <= 2 ^ 64) by (apply Z.pow_le_mono_r; lia).
  unfold segment_wf. cbn. destruct (nz _); unfold fits in *; lia.
Qed.

Lemma parse_encoded_entry pre offset s post index image :
  image = pre ++ encode_entry wide offset s ++ post ->
  length pre = (header_bytes wide + index * entry_bytes wide)%nat ->
  fits (class_bits wide) (Z.of_nat (length image)) ->
  0 <= offset -> offset + Z.of_nat (length (seg_data s)) <= Z.of_nat (length image) ->
  segment_fits wide s -> placed s ->
  parse_program_header sp image h encoded_header index =
    Ok (if seg_memory s =? 0 then None else Some (parsed_segment index offset s)).
Proof.
  intros -> Hpre Hlen Ho Hend Hs Hpl. unfold parse_program_header, encoded_header.
  cbn [program_header_size program_header_offset is_64_bit].
  assert (class_bits wide <= 64) by (by destruct wide).
  assert (2 ^ class_bits wide <= 2 ^ 64) by (apply Z.pow_le_mono_r; lia).
  assert (4 <= entry_bytes wide)%nat by (destruct wide; cbn; lia).
  assert (fits 64 (Z.of_nat (length pre + entry_bytes wide))) as Hpl64.
  { rewrite !length_app, encode_entry_length in Hlen. unfold fits in *. lia. }
  rewrite checked_multiply_ok by (unfold fits in *; lia). cbn [rbind].
  rewrite checked_add_ok by (unfold fits in *; lia). cbn [rbind].
  replace (Z.of_nat (header_bytes wide) + _) with (Z.of_nat (length pre)) by lia.
  pose proof (read_entry wide pre offset s post 4 0 PT_LOAD "segment type" Hpl64) as Ht.
  rewrite Z.add_0_r, u64_small in Ht by (unfold fits in *; lia).
  rewrite Ht by (done || lia || by destruct wide). cbn [rbind negb Z.eqb Pos.eqb PT_LOAD].
  rewrite parse_fields_encoded by (done || unfold fits in *; lia). cbn [rbind].
  unfold check_segment. destruct Hs as (Hf & Hv & Hph & Hm & Hd).
  replace (memory_size (unplaced s) <? _) with false by (symmetry; by apply Z.ltb_ge). cbn [negb].
  rewrite require_range_ok by (cbn; lia). cbn [rbind Z.ltb Z.compare Pos.compare Pos.compare_cont].
  change (with_load_address (unplaced s)) with (elf_segment s).
  change (memory_size (elf_segment s)) with (seg_memory s).
  pose proof (elf_segment_wf s (conj Hf (conj Hv (conj Hph (conj Hm Hd))))) as ([Hl ?] & _ & _).
  destruct (Z.eqb_spec (seg_memory s) 0) as [Hz|Hz].
  - by rewrite checked_add_ok by (rewrite ?Hz; unfold fits; lia).
  - destruct (Hpl Hz) as [m Hm']. pose proof Hm' as (Hin & _ & [Hb He] & _).
    destruct (mapping_in_wf sp Hsp m Hin) as (? & ? & ?). unfold UINT64_MAX in *.
    rewrite checked_add_ok by (unfold fits in *; cbn in *; lia). cbn [rbind].
    pose proof (validate_load_target_spec sp Hsp h (elf_segment s) index) as Hval.
    destruct (validate_load_target _ _ _ _) as [[]|e]; [done|].
    exfalso. eapply Hval; [|exact Hm']. apply elf_segment_wf. by split_and!.
Qed.

Lemma parse_encoded_entries ss pre post dpre offset index image :
  image = pre ++ encode_entries wide offset ss ++ post ->
  image = dpre ++ concat (map seg_data ss) -> offset = Z.of_nat (length dpre) ->
  length pre = (header_bytes wide + index * entry_bytes wide)%nat ->
  fits (class_bits wide) (Z.of_nat (length image)) ->
  Forall (segment_fits wide) ss -> Forall placed ss ->
  parse_indices sp image h encoded_header (seq index (length ss)) =
    Ok (parsed_entries index offset ss).
Proof.
  revert pre dpre offset index. induction ss as [|s ss IH];
    intros pre dpre offset index Hi Hd Ho Hpre Hlen Hs Hp; [done|].
  apply Forall_cons in Hs as [Hs Hss], Hp as [Hp Hps].
  cbn [encode_entries map concat length seq parse_indices parsed_entries] in *.
  pose proof (f_equal length Hd) as Hdl. rewrite !length_app in Hdl.
  rewrite (parse_encoded_entry pre offset s
             (encode_entries wide (offset + Z.of_nat (length (seg_data s))) ss ++ post)); try done.
  - cbn [rbind].
    rewrite (IH (pre ++ encode_entry wide offset s) (dpre ++ seg_data s)
               (offset + Z.of_nat (length (seg_data s)))); try done.
    + cbn [rbind]. by destruct (seg_memory s =? 0).
    + by rewrite Hi, <- !app_assoc.
    + by rewrite Hd, <- app_assoc.
    + rewrite length_app. lia.
    + rewrite length_app, encode_entry_length. lia.
  - by rewrite Hi, <- !app_assoc.
  - lia.
  - lia.
Qed.
End Decode.

(** What the loader keeps of the parsed entries. *)
Lemma parsed_entries_segments index offset ss :
  map public_segment (parsed_entries index offset ss) = map elf_segment (occupied ss).
Proof.
  revert index offset. induction ss as [|s ss IH]; intros index offset; [done|].
  cbn [parsed_entries]. unfold occupied. rewrite filter_cons, map_app, IH.
  destruct (Z.eqb_spec (seg_memory s) 0); case_decide; done.
Qed.

Lemma parsed_entries_chunks ss dpre offset index image :
  image = dpre ++ concat (map seg_data ss) -> offset = Z.of_nat (length dpre) ->
  map (chunk_of image) (parsed_entries index offset ss) = map segment_chunk (occupied ss).
Proof.
  revert dpre offset index. induction ss as [|s ss IH]; intros dpre offset index Hd Ho; [done|].
  cbn [parsed_entries map concat] in *. unfold occupied. rewrite filter_cons, map_app.
  fold (occupied ss). rewrite (IH (dpre ++ seg_data s)).
  2:{ by rewrite Hd, <- app_assoc. } 2:{ rewrite length_app. lia. }
  destruct (Z.eqb_spec (seg_memory s) 0); case_decide; try done.
  cbn [map app]. f_equal. unfold chunk_of, parsed_segment, segment_chunk. cbn. f_equal.
  rewrite Hd, Ho, !Nat2Z.id, drop_app_length, take_app_length. done.
Qed.

Section RoundTrip.
Context {H : Type} `{!DeviceHeap H, !LoadableLaws H} (sp : AddressSpace).

Definition segment_range_ok (s : ElfSegment) : Prop :=
  0 <= load_address s /\ 0 < memory_size s /\ fits 64 (load_address s + memory_size s).

Lemma encode_split wide entry ss :
  exists dpre, encode wide entry ss = dpre ++ concat (map seg_data ss) /\
    length dpre = data_offset wide (length ss).
Proof.
  eexists (_ ++ _). unfold encode. rewrite app_assoc. split; [done|].
  by rewrite length_app, encode_header_length, encode_entries_length.
Qed.

Lemma parse_encoded_image wide entry ss h :
  space_wf sp -> encodable wide entry ss -> Forall (placed sp h) ss ->
  parse_load_segments sp (encode wide entry ss) h (encoded_header wide entry (length ss)) =
    Ok (parsed_entries 0 (Z.of_nat (data_offset wide (length ss))) ss).
Proof.
  intros Hsp (_ & _ & Hlen & Hs) Hp. destruct (encode_split wide entry ss) as (dpre & Hd & Hdl).
  unfold parse_load_segments. cbn [program_header_count encoded_header]. rewrite Nat2Z.id.
  apply (parse_encoded_entries sp Hsp wide entry (length ss) h ss
           (encode_header wide entry (Z.of_nat (length ss))) (concat (map seg_data ss)) dpre
           (Z.of_nat (data_offset wide (length ss))) 0 (encode wide entry ss)); try done.
  - by rewrite Hdl.
  - rewrite encode_header_length. lia.
Qed.

Lemma parsed_chunks wide entry ss :
  map (chunk_of (encode wide entry ss))
      (parsed_entries 0 (Z.of_nat (data_offset wide (length ss))) ss) = map segment_chunk (occupied ss).
Proof.
  destruct (encode_split wide entry ss) as (dpre & Hd & Hdl).
  apply (parsed_entries_chunks ss dpre); [done | by rewrite Hdl].
Qed.

(** C18: an image written by the reference encoder is read back exactly, for both
    ELF classes: every segment that occupies memory becomes a chunk with its
    bytes, its addresses (the physical one where it is set) and its sizes, and
    the entry point is returned, provided the segments have targets and their
    ranges are disjoint. *)
Theorem encoded_elf_is_read_back wide entry ss h chunks :
  space_wf sp -> encodable wide entry ss -> Forall (placed sp h) ss ->
  ForallOrdPairs segments_apart (map segment_chunk (occupied ss)) ->
  add_elf sp (encode wide entry ss) h chunks =
    (Ok {| result_entry := entry; result_is_64_bit := wide;
           result_segments := map elf_segment (occupied ss) |},
     chunks ++ map segment_chunk (occupied ss)).
Proof.
  intros Hsp He Hp Hap. unfold add_elf, bind, lift, modify, ret.
  rewrite parse_encode_header by done. fold (encoded_header wide entry (length ss)).
  rewrite parse_encoded_image by done.
  set (ps := parsed_entries 0 (Z.of_nat (data_offset wide (length ss))) ss).
  assert (map public_segment ps = map elf_segment (occupied ss)) as Hps
    by apply parsed_entries_segments.
  pose proof (validate_no_overlap_spec ps) as Hov.
  destruct (validate_no_overlap ps) as [[]|e].
  { rewrite Hps. unfold ps. by rewrite parsed_chunks. }
  exfalso. apply Hov.
  - assert (Forall segment_range_ok (public_segment <$> ps)) as Hr; [|exact (proj1 (Forall_fmap _ _ _) Hr)].
    change (public_segment <$> ps) with (map public_segment ps).
    rewrite Hps. apply Forall_fmap, Forall_forall. intros s [Hm Hin]%list_elem_of_filter.
    destruct He as (_ & _ & _ & Hs). rewrite Forall_forall in Hp, Hs.
    destruct (elf_segment_wf wide s (Hs s Hin)) as ([? ?] & _ & _).
    destruct (Hp s Hin Hm) as (m & Hin' & ? & [Hb ?] & _).
    destruct (mapping_in_wf sp Hsp m Hin') as (? & ? & ?).
    change (segment_range_ok (elf_segment s)). unfold segment_range_ok, fits, UINT64_MAX in *. lia.
  - apply (ord_pairs_map public_segment (fun s1 s2 =>
      load_address s1 + memory_size s1 <= load_address s2 \/
      load_address s2 + memory_size s2 <= load_address s1)).
    rewrite Hps. apply ord_pairs_map. exact (proj1 (ord_pairs_map _ _ _) Hap).
Qed.
End RoundTrip.

(** ** A platform with a RAM in two windows and a ROM *)
Definition boot_space : AddressSpace :=
  {| mappings_ := [ {| map_base := 0; map_size := 16; map_device := 1%nat; map_name := "rom" |};
                    {| map_base := 0x1000; map_size := 32; map_device := 0%nat; map_name := "ram" |};
                    {| map_base := 0x2000; map_size := 32; map_device := 0%nat; map_name := "alias" |} ];
     frozen_ := true |}.

Definition boot_heap : Heap BufferUartBackend :=
  [DevRam (replicate 32 0xaa); DevRom (replicate 16 0)].

Lemma boot_space_wf : space_wf boot_space.
Proof.
  split; repeat (constructor; [unfold mapping_wf, before, UINT64_MAX; simpl; lia || idtac|]);
    repeat constructor; unfold before; simpl; lia.
Qed.

(** Code at a physical address and a zero-filled segment behind it. *)
Definition boot_program : list Segment :=
  [ {| seg_flags := 5; seg_virtual := 0x80001004; seg_physical := 0x1004;
       seg_data := [0x13; 0; 0; 0]; seg_memory := 6 |};
    {| seg_flags := 6; seg_virtual := 0x2010; seg_physical := 0; seg_data := [];
       seg_memory := 8 |};
    {| seg_flags := 4; seg_virtual := 0; seg_physical := 0; seg_data := []; seg_memory := 0 |} ].

Lemma boot_placed : Forall (placed boot_space boot_heap) boot_program.
Proof.
  repeat constructor; intros Hm; try (by destruct Hm);
    [exists {| map_base := 0x1000; map_size := 32; map_device := 0%nat; map_name := "ram" |}
    |exists {| map_base := 0x2000; map_size := 32; map_device := 0%nat; map_name := "alias" |}];
    (split; [set_solver | split; [done | split; [split; simpl; lia | by split]]]).
Qed.

Lemma encoded_elf_is_read_back_witness :
  add_elf boot_space (encode true 0x80001004 boot_program) boot_heap [] =
    (Ok {| result_entry := 0x80001004; result_is_64_bit := true;
           result_segments := map elf_segment (occupied boot_program) |},
     map segment_chunk (occupied boot_program)).
Proof.
  apply (encoded_elf_is_read_back boot_space true 0x80001004 boot_program boot_heap []).
  - apply boot_space_wf.
  - split_and!; [done.. |]. repeat constructor; done.
  - apply boot_placed.
  - constructor; [|repeat constructor]. constructor; [|constructor].
    unfold segments_apart. simpl. lia.
Defined.

(** The image, and the one whose first program header has a file size greater
    than its memory size. *)
Definition boot_image : list Z := encode false 0x1004 boot_program.
Definition broken_image : list Z := <[72%nat := 1]> boot_image.

Lemma add_elf_plans_only_valid_segments_witness :
  (valid_elf boot_image boot_space boot_heap /\
   chunk_at boot_image <$> planned boot_image = map segment_chunk (occupied boot_program) /\
   exists res, add_elf boot_space boot_image boot_heap []
               = (Ok res, chunk_at boot_image <$> planned boot_image)) /\
  ~ valid_elf broken_image boot_space boot_heap.
Proof.
  split.
  - pose proof (add_elf_plans_only_valid_segments boot_space boot_space_wf boot_image boot_heap []
      ltac:(by vm_compute) ltac:(by repeat constructor)) as H.
    destruct (add_elf boot_space boot_image boot_heap []) as [[res|e] chunks'] eqn:E.
    + destruct H as (Hv & -> & _). split; [exact Hv|]. split; [by vm_compute | by exists res].
    + apply (f_equal fst) in E. vm_compute in E. discriminate E.
  - pose proof (add_elf_plans_only_valid_segments boot_space boot_space_wf broken_image boot_heap []
      ltac:(by vm_compute) ltac:(by repeat constructor)) as H.
    destruct (add_elf boot_space broken_image boot_heap []) as [[res|e] chunks'] eqn:E.
    + apply (f_equal fst) in E. vm_compute in E. discriminate E.
    + apply H.
Defined.

Lemma apply_is_all_or_nothing_witness :
  let chunks := map segment_chunk (occupied boot_program) in
  (match apply boot_space chunks boot_heap with
   | (Ok _, h') => plan_ok boot_space boot_heap chunks /\ loaded boot_space boot_heap h' chunks
   | (Throw e, h') => ~ plan_ok boot_space boot_heap chunks /\ only_elf_error e /\ h' = boot_heap
   end) /\
  apply boot_space chunks boot_heap =
    (Ok tt, [DevRam ([0xaa; 0xaa; 0xaa; 0xaa; 0x13; 0; 0; 0; 0; 0; 0xaa; 0xaa; 0xaa; 0xaa; 0xaa; 0xaa]
                     ++ replicate 8 0 ++ replicate 8 0xaa);
             DevRom (replicate 16 0)]).
Proof.
  intros chunks. split; [|by vm_compute].
  apply (apply_is_all_or_nothing boot_space boot_space_wf chunks boot_heap).
  repeat constructor; simpl; lia.
Defined.
