(* ===== verification/FabricMemory.v ===== *)
(** * The memory behind the fabric

    The device accesses of a run, in the order the fabric makes them, as a log
    of byte writes and read beats.  Whatever the ports do, the contents of the
    memories are those of the log replayed on a plain byte store, and a read
    beat returns what the store holds at its place in the log. *)
From S2P Require Import Prelude RingBuffer Axi Device Memory Uart Interrupts Heap ElfPlan.
From S2P Require Import Fabric FabricSpec FabricPorts FabricInv FabricBeats FabricWrites FabricTheorems.

(** ** The contract of memories on the bus *)
Class MemoryLaws (H : Type) `{!DeviceHeap H, !LoadableLaws H} := {
  write_bytes d off data strobe h :
    0 <= off -> length data = length strobe ->
    let '(resp, h') := write_impl d off data strobe h in
    forall d', length (device_bytes h' d') = length (device_bytes h d') /\
      forall k, (k < length (device_bytes h d'))%nat ->
        device_bytes h' d' !!! k =
          if bool_decide (d' = d) && response_is_success resp
             && bool_decide (Z.to_nat off <= k < Z.to_nat off + length data)%nat
             && nz (strobe !!! (k - Z.to_nat off)%nat)
          then data !!! (k - Z.to_nat off)%nat else device_bytes h d' !!! k;
  read_bytes d off data enable h :
    0 <= off -> length data = length enable ->
    let '(resp, data', h') := read_impl d off data enable h in
    (forall d', device_bytes h' d' = device_bytes h d') /\
    (response_is_success resp = true ->
     forall k, (k < length data)%nat -> nz (enable !!! k) = true ->
       (Z.to_nat off + k < length (device_bytes h d))%nat ->
       data' !!! k = device_bytes h d !!! (Z.to_nat off + k)%nat)
}.

Section HeapMemory.
Context {B : Type} `{!UartBackend B}.
Implicit Types (h : Heap B).

Lemma heap_bytes_at h d dev : h !! d = Some dev -> heap_bytes h d = memory_bytes dev.
Proof. unfold heap_bytes. by intros ->. Qed.

Lemma heap_bytes_insert h d dev dev' d' :
  h !! d = Some dev ->
  heap_bytes (<[d := dev']> h) d' = if decide (d' = d) then memory_bytes dev' else heap_bytes h d'.
Proof.
  intros Hd. unfold heap_bytes, Heap in *. destruct (decide (d' = d)) as [->|Hne].
  - by rewrite list_lookup_insert_eq by (by eapply lookup_lt_Some).
  - by rewrite list_lookup_insert_ne.
Qed.

(** A change of a device that keeps its bytes changes no memory. *)
Lemma heap_bytes_same h d dev dev' d' :
  h !! d = Some dev -> memory_bytes dev' = memory_bytes dev ->
  heap_bytes (<[d := dev']> h) d' = heap_bytes h d'.
Proof.
  intros Hd He. rewrite (heap_bytes_insert h d dev) by done. destruct (decide _) as [->|]; [|done].
  by rewrite (heap_bytes_at h d dev), He.
Qed.

(** The bytes of a memory before and after a write that is answered [resp]. *)
Definition written_to (d d' : DevicePtr) (off : Z) (data strobe : list Z) (resp : Response)
    (bytes bytes' : list Z) : Prop :=
  length bytes' = length bytes /\
  forall k, (k < length bytes)%nat ->
    bytes' !!! k =
      if bool_decide (d' = d) && response_is_success resp
         && bool_decide (Z.to_nat off <= k < Z.to_nat off + length data)%nat
         && nz (strobe !!! (k - Z.to_nat off)%nat)
      then data !!! (k - Z.to_nat off)%nat else bytes !!! k.

Lemma written_nothing d d' off data strobe resp bytes bytes' :
  bytes' = bytes -> d' <> d \/ response_is_success resp = false \/ bytes = [] ->
  written_to d d' off data strobe resp bytes bytes'.
Proof.
  intros -> Hc. split; [done|]. intros k Hk. destruct Hc as [Hne|Hc]; [|destruct Hc as [->|Hn] ].
  - by rewrite bool_decide_eq_false_2.
  - by rewrite andb_false_r.
  - rewrite Hn in Hk. simpl in Hk. lia.
Qed.

Lemma heap_write_bytes d off data strobe h :
  0 <= off -> length data = length strobe ->
  forall d', written_to d d' off data strobe (heap_write d off data strobe h).1
               (heap_bytes h d') (heap_bytes (heap_write d off data strobe h).2 d').
Proof.
  intros Ho Hl d'. unfold heap_write. destruct (h !! d) as [dev|] eqn:E; [|by apply written_nothing; auto].
  assert (forall dev' resp, memory_bytes dev' = memory_bytes dev ->
    response_is_success resp = false \/ memory_bytes dev = [] ->
    written_to d d' off data strobe resp (heap_bytes h d') (heap_bytes (<[d := dev']> h) d')) as Hsame.
  { intros dev' resp Hm Hor. apply written_nothing; [by eapply heap_bytes_same|].
    destruct (decide (d' = d)) as [->|]; [right | by left]. destruct Hor as [?|Hn]; [by left|]. right.
    by rewrite (heap_bytes_at h d dev). }
  destruct dev as [bytes|bytes|u|e|c|p inputs].
  - rewrite rom_write_rejected. cbn [fst snd]. apply Hsame; [done | by left].
  - pose proof (ram_write_changes_exactly_the_strobed_bytes bytes off data strobe Hl Ho) as Hw.
    destruct (ram_write bytes off data strobe) as [r bytes']. destruct Hw as (Hlen & Hw). cbn [fst snd].
    destruct (decide (d' = d)) as [->|Hne].
    + rewrite (heap_bytes_insert h d (DevRam bytes)), decide_True by done.
      rewrite (heap_bytes_at h d (DevRam bytes)) by done. cbn [memory_bytes].
      split; [done|]. intros k Hk. rewrite bool_decide_eq_true_2 by done. rewrite andb_true_l.
      destruct (_ <=? _); destruct Hw as [-> Hw]; [by apply Hw | by subst].
    + rewrite (heap_bytes_insert h d (DevRam bytes)), decide_False by done. by apply written_nothing; auto.
  - destruct (uart_write off data strobe u) as [r u']. apply Hsame; [done | by right].
  - destruct (exit_write e off data strobe) as [r e']. apply Hsame; [done | by right].
  - destruct (clint_write off data strobe c) as [r c']. apply Hsame; [done | by right].
  - destruct (plic_write (input_level h inputs) off data strobe p) as [r p'].
    apply Hsame; [done | by right].
Qed.

(** Reads change no memory: only the UART and the PLIC have read effects. *)
Lemma heap_read_keeps d off data enable h d' :
  heap_bytes (heap_read d off data enable h).2 d' = heap_bytes h d'.
Proof.
  unfold heap_read. destruct (h !! d) as [[bytes|bytes|u|e|c|p inputs]|] eqn:E; try done.
  - destruct (uart_read off data enable u) as [[r data'] u']. by eapply heap_bytes_same.
  - destruct (plic_read off data enable p) as [[r data'] p']. by eapply heap_bytes_same.
Qed.

Lemma memory_read_bytes (bytes : list Z) off data enable k :
  0 <= off -> length data = length enable ->
  response_is_success (memory_read bytes off data enable).1 = true ->
  (k < length data)%nat -> nz (enable !!! k) = true ->
  (memory_read bytes off data enable).2 !!! k = bytes !!! (Z.to_nat off + k)%nat.
Proof.
  intros Ho Hl. destruct (Z.le_gt_cases (off + Z.of_nat (length data)) (Z.of_nat (length bytes))) as [Hb|Hb].
  - rewrite memory_read_in_bounds by done. intros _ Hk Hnz. cbn [snd].
    rewrite masked_copy_lookup by lia. rewrite Nat.sub_0_r, bool_decide_eq_true_2 by lia. cbv beta. by rewrite Hnz.
  - unfold memory_read. by rewrite out_of_bounds by lia.
Qed.

#[export] Instance heap_memory : MemoryLaws (Heap B).
Proof.
  constructor.
  - intros d off data strobe h Ho Hl. cbn [write_impl heap_devices].
    pose proof (heap_write_bytes d off data strobe h Ho Hl) as Hw.
    by destruct (heap_write d off data strobe h) as [resp h'].
  - intros d off data enable h Ho Hl. cbn [read_impl heap_devices].
    pose proof (heap_read_keeps d off data enable h) as Hkeep.
    assert (response_is_success (heap_read d off data enable h).1.1 = true ->
      forall k, (k < length data)%nat -> nz (enable !!! k) = true ->
        (Z.to_nat off + k < length (heap_bytes h d))%nat ->
        (heap_read d off data enable h).1.2 !!! k = heap_bytes h d !!! (Z.to_nat off + k)%nat) as Hr.
    { unfold heap_read, heap_bytes. destruct (h !! d) as [[bytes|bytes|u|e|c|p inputs]|] eqn:E;
        cbn [memory_bytes length]; try (intros; lia); intros Hs k Hk Hnz _; by apply memory_read_bytes. }
    by destruct (heap_read d off data enable h) as [[resp data'] h'].
Qed.
End HeapMemory.

(** ** A byte store *)

(** The contents of the addresses that have any. *)
Definition Store : Type := Z -> option Z.

Section Store.
Context (sp : AddressSpace).

(** The byte of a device an address selects.  Two addresses of different
    windows can select the same one. *)
Definition locate (x : Z) : option (DevicePtr * nat) :=
  (fun m => (map_device m, Z.to_nat (x - map_base m))) <$> space_resolve sp x 1.

Definition store_byte (mem : Store) (w : Z * Z) : Store :=
  fun x => if decide (locate x = locate w.1) then (fun _ => w.2) <$> mem x else mem x.
Definition store_bytes (mem : Store) (ws : list (Z * Z)) : Store := foldl store_byte mem ws.

#[export] Instance store_byte_proper :
  Proper (pointwise_relation Z eq ==> eq ==> pointwise_relation Z eq) store_byte.
Proof. intros m m' Hm w ? <- x. unfold store_byte. by rewrite Hm. Qed.
#[export] Instance store_bytes_proper :
  Proper (pointwise_relation Z eq ==> eq ==> pointwise_relation Z eq) store_bytes.
Proof.
  intros m m' Hm ws ? <-. unfold store_bytes. revert m m' Hm.
  induction ws as [|w ws IH]; intros m m' Hm; [done|]. apply IH. by rewrite Hm.
Qed.

Lemma store_bytes_app mem ws ws' : store_bytes mem (ws ++ ws') = store_bytes (store_bytes mem ws) ws'.
Proof. apply foldl_app. Qed.
End Store.

(** The strobed bytes of a write at [a]. *)
Definition bytes_at (a : Z) (data strobe : list Z) : list (Z * Z) :=
  seq 0 (length data) ≫= fun k => if nz (strobe !!! k) then [(a + Z.of_nat k, data !!! k)] else [].

Section Contents.
Context {H : Type} `{!DeviceHeap H, !LoadableLaws H, !MemoryLaws H}.
Context (sp : AddressSpace) (Hsp : space_wf sp).
Implicit Types (h : H) (m : Mapping) (mem : Store).

(** What the memories of a platform hold. *)
Definition memory h : Store :=
  fun x => locate sp x ≫= fun '(d, k) => device_bytes h d !! k.

Lemma locate_in m a n k :
  m ∈ mappings_ sp -> window_contains m a n -> 0 <= k < n ->
  locate sp (a + k) = Some (map_device m, Z.to_nat (a - map_base m + k)).
Proof.
  intros Hm [Hb He] Hk. unfold locate.
  rewrite (resolve_complete sp Hsp (a + k) 1 m); [|lia | done | split; lia].
  cbn. do 2 f_equal. lia.
Qed.

(** The first [n] bytes of a write to one window. *)
Lemma store_bytes_lookup m a len (data strobe : list Z) mem n x :
  m ∈ mappings_ sp -> window_contains m a len -> (Z.of_nat n <= len) ->
  store_bytes sp mem
    (seq 0 n ≫= fun k => if nz (strobe !!! k) then [(a + Z.of_nat k, data !!! k)] else []) x =
  match locate sp x with
  | Some (d, k) =>
      if bool_decide (d = map_device m)
         && bool_decide (Z.to_nat (a - map_base m) <= k < Z.to_nat (a - map_base m) + n)%nat
         && nz (strobe !!! (k - Z.to_nat (a - map_base m))%nat)
      then (fun _ => data !!! (k - Z.to_nat (a - map_base m))%nat) <$> mem x else mem x
  | None => mem x
  end.
Proof.
  intros Hm Hw. set (o := Z.to_nat (a - map_base m)). induction n as [|n IH]; intros Hn.
  { destruct (locate sp x) as [[d k]|]; [|done]. rewrite (bool_decide_eq_false_2 (_ /\ _)) by lia.
    by rewrite andb_false_r. }
  rewrite seq_S, bind_app, store_bytes_app. cbn [mbind list_bind plus]. rewrite app_nil_r.
  assert (locate sp (a + Z.of_nat n) = Some (map_device m, (o + n)%nat)) as Hl.
  { rewrite (locate_in m a len) by (done || lia). do 2 f_equal. destruct Hw. lia. }
  destruct (nz (strobe !!! n)) eqn:Hs; cbn [store_bytes foldl]; unfold store_byte; cbn [fst snd].
  - rewrite IH, Hl by lia. destruct (locate sp x) as [[d k]|]; [|by rewrite decide_False].
    destruct (decide (Some (d, k) = Some (map_device m, (o + n)%nat))) as [[= -> ->]|Hne].
    + replace (o + n - o)%nat with n by lia. rewrite Hs, (bool_decide_eq_true_2 (map_device m = _)) by done.
      rewrite (bool_decide_eq_false_2 (o <= o + n < o + n)%nat), (bool_decide_eq_true_2 (o <= o + n < _)%nat) by lia.
      done.
    + destruct (bool_decide_reflect (d = map_device m)) as [->|]; [|done]. cbn [andb].
      assert (k <> (o + n)%nat) by congruence.
      rewrite (bool_decide_ext (o <= k < o + S n)%nat (o <= k < o + n)%nat) by lia. done.
  - rewrite IH by lia. destruct (locate sp x) as [[d k]|]; [|done].
    destruct (bool_decide_reflect (d = map_device m)) as [->|]; [|done]. cbn [andb].
    destruct (decide (k = (o + n)%nat)) as [->|].
    + replace (o + n - o)%nat with n by lia. by rewrite Hs, !andb_false_r.
    + rewrite (bool_decide_ext (o <= k < o + S n)%nat (o <= k < o + n)%nat) by lia. done.
Qed.

(** A device write inside a window does to the store what it does to the
    memory. *)
Lemma write_stores m a data strobe h :
  m ∈ mappings_ sp -> window_contains m a (Z.of_nat (length data)) -> length data = length strobe ->
  let '(resp, h') := write_impl (map_device m) (a - map_base m) data strobe h in
  pointwise_relation Z eq (memory h')
    (if response_is_success resp then store_bytes sp (memory h) (bytes_at a data strobe) else memory h).
Proof.
  intros Hm Hw Hl. pose proof Hw as [Hb _].
  pose proof (write_bytes (map_device m) (a - map_base m) data strobe h ltac:(lia) Hl) as Hwr.
  destruct (write_impl _ _ _ _ _) as [resp h']. intros x.
  assert ((if response_is_success resp then store_bytes sp (memory h) (bytes_at a data strobe) else memory h) x
    = match locate sp x with
      | Some (d, k) =>
          if bool_decide (d = map_device m) && response_is_success resp
             && bool_decide (Z.to_nat (a - map_base m) <= k < Z.to_nat (a - map_base m) + length data)%nat
             && nz (strobe !!! (k - Z.to_nat (a - map_base m))%nat)
          then (fun _ => data !!! (k - Z.to_nat (a - map_base m))%nat) <$> memory h x else memory h x
      | None => memory h x
      end) as E.
  { destruct (response_is_success resp).
    - unfold bytes_at. rewrite (store_bytes_lookup m a (Z.of_nat (length data))) by (done || lia).
      destruct (locate sp x) as [[d k]|]; [|done]. by rewrite andb_true_r.
    - destruct (locate sp x) as [[d k]|]; [|done]. by rewrite andb_false_r. }
  refine (eq_trans _ (eq_sym E)). clear E.
  unfold memory. destruct (locate sp x) as [[d k]|]; [|done]. cbn.
  destruct (Hwr d) as [Hlen Hbytes].
  destruct (decide (k < length (device_bytes h d))%nat) as [Hk|Hk].
  - rewrite (lookup_total_lt _ k) by (by rewrite Hlen). rewrite (lookup_total_lt (device_bytes h d) k) by done.
    rewrite (Hbytes k Hk). by destruct (_ && _ && _ && _).
  - rewrite !lookup_ge_None_2 by lia. by destruct (_ && _ && _ && _).
Qed.
End Contents.

(** ** The log of a run *)

(** [Wrote]: a device took these bytes; [Fetched]: beat [i] of a read burst was
    answered. *)
Inductive access :=
| Wrote (port : nat) (bytes : list (Z * Z))
| Fetched (port : nat) (p : AddressPayload) (i : nat) (beat : ReadDataPayload).

Section Log.
Context {cfg : FabricConfig} `{!FabricConfigOk cfg} {H : Type} `{!DeviceHeap H, !DeviceHeapLaws H}.
Context `{!LoadableLaws H, !MemoryLaws H} (sp : AddressSpace) (Hsp : space_wf sp).
Implicit Types (h : H) (v : View H) (m : Mapping) (r : Route) (wr : WriteRoute) (mem : Store).

(** A read beat agrees with the store on every byte of the beat the store has. *)
Definition beat_agrees mem p (i : nat) (beat : ReadDataPayload) : Prop :=
  response_is_success (rd_response beat) = true ->
  forall k b, (k < beat_count p i)%nat -> mem (beat_at p i + Z.of_nat k) = Some b ->
    rd_data beat !!! (beat_first p i + k)%nat = b.

Fixpoint consistent mem (log : list access) : Prop :=
  match log with
  | [] => True
  | Wrote _ bytes :: log' => consistent (store_bytes sp mem bytes) log'
  | Fetched _ p i beat :: log' => beat_agrees mem p i beat /\ consistent mem log'
  end.
Definition replay mem (log : list access) : Store :=
  foldl (fun mem a => match a with Wrote _ bytes => store_bytes sp mem bytes | _ => mem end) mem log.

#[export] Instance consistent_proper : Proper (pointwise_relation Z eq ==> eq ==> iff) consistent.
Proof.
  intros mem mem' Hm log ? <-. revert mem mem' Hm.
  induction log as [|[port bytes|port p i beat] log IH]; intros mem mem' Hm; cbn [consistent]; [done| |].
  - apply IH. by rewrite Hm.
  - unfold beat_agrees. rewrite (IH mem mem') by done. by setoid_rewrite Hm.
Qed.
#[export] Instance replay_proper :
  Proper (pointwise_relation Z eq ==> eq ==> pointwise_relation Z eq) replay.
Proof.
  intros mem mem' Hm log ? <-. revert mem mem' Hm.
  induction log as [|[port bytes|port p i beat] log IH]; intros mem mem' Hm; [done| |]; apply IH; [|done].
  by rewrite Hm.
Qed.

Lemma consistent_app mem log log' :
  consistent mem (log ++ log') <-> consistent mem log /\ consistent (replay mem log) log'.
Proof.
  revert mem. induction log as [|[port bytes|port p i beat] log IH]; intros mem; cbn [app consistent].
  - cbn. tauto.
  - apply IH.
  - rewrite IH. cbn. tauto.
Qed.

(** ** The accesses of a transition *)
Definition commit_access wr m h : list access :=
  let p := rt_payload (wt_route wr) in
  let i := wt_commit_beat wr in
  let data := beat_bytes (wt_staged_data wr !!! i) p i in
  let strobe := beat_strobes (wt_staged_strobe wr !!! i) p i in
  if response_is_success (write_impl (map_device m) (beat_at p i - map_base m) data strobe h).1
  then [Wrote (rt_port (wt_route wr)) (bytes_at (beat_at p i) data strobe)] else [].

(** The window an exclusive write is performed in, if it is. *)
Definition reserved wr v : option Mapping :=
  match served (wt_route wr),
    monitor_of (v_monitors v) (rt_port (wt_route wr)) (ap_id (rt_payload (wt_route wr))) with
  | Some m, Some mon => if bool_decide (mon_payload mon = rt_payload (wt_route wr)) then Some m else None
  | _, _ => None
  end.
Definition exclusive_succeeds wr v : bool :=
  match reserved wr v with
  | Some m =>
      response_is_success
        (write_impl (map_device m) (ap_address (rt_payload (wt_route wr)) - map_base m)
           (exclusive_bytes wr) (exclusive_strobes wr) (v_heap v)).1
  | None => false
  end.
Definition exclusive_access wr v : list access :=
  if exclusive_succeeds wr v
  then [Wrote (rt_port (wt_route wr))
          (bytes_at (ap_address (rt_payload (wt_route wr))) (exclusive_bytes wr) (exclusive_strobes wr))]
  else [].

Definition accesses v (e : event) : list access :=
  match e, v_writes v, v_reads v with
  | WriteDevice _, wr :: _, _ =>
      match served (wt_route wr) with Some m => commit_access wr m (v_heap v) | None => [] end
  | WriteExclusive _, wr :: _, _ => exclusive_access wr v
  | ReadBeat _, _, r :: _ =>
      [Fetched (rt_port r) (rt_payload r) (rt_beat r) (read_beat r (v_heap v)).1]
  | _, _, _ => []
  end.

(** A run of the abstract fabric with its log.  Between its transitions the
    devices can change by themselves, as long as the memories do not. *)
Inductive traced : View H -> list event -> list access -> View H -> Prop :=
| traced_nil v : traced v [] [] v
| traced_env v h es log v' :
    pointwise_relation Z eq (memory sp h) (memory sp (v_heap v)) ->
    traced (v <| v_heap := h |>) es log v' -> traced v es log v'
| traced_cons v e v1 es log v2 :
    step sp v e v1 -> traced v1 es log v2 -> traced v (e :: es) (accesses v e ++ log) v2.

Lemma steps_traced v es v' : steps sp v es v' -> exists log, traced v es log v'.
Proof.
  induction 1 as [v|v e v1 es v2 Hst _ [log Hlog]]; [by exists []; constructor|].
  exists (accesses v e ++ log). by econstructor.
Qed.

Lemma traced_app v es log v' es' log' v'' :
  traced v es log v' -> traced v' es' log' v'' -> traced v (es ++ es') (log ++ log') v''.
Proof.
  induction 1 as [v|v h es log v' Hh _ IH|v e v1 es log v2 Hst _ IH]; intros Ht; [done| |].
  - eapply traced_env; [exact Hh | by apply IH].
  - rewrite <- app_comm_cons, <- app_assoc. eapply traced_cons; [exact Hst | by apply IH].
Qed.

Lemma view_heap_wf v h : view_wf sp v -> view_wf sp (v <| v_heap := h |>).
Proof. intros []. by constructor. Qed.

Lemma accesses_quiet v e : device_event e = false -> accesses v e = [].
Proof. destruct e; try done; by destruct (v_writes v). Qed.

(** ** One transition *)

(** The memory after a transition is the replayed store. *)
Definition agrees v e v' : Prop :=
  consistent (memory sp (v_heap v)) (accesses v e) /\
  pointwise_relation Z eq (memory sp (v_heap v')) (replay (memory sp (v_heap v)) (accesses v e)).

Lemma commit_agrees v wr ws m :
  view_wf sp v -> v_writes v = wr :: ws -> served (wt_route wr) = Some m ->
  agrees v (WriteDevice (rt_port (wt_route wr))) (let '(wr', v') := write_beat wr m v in advance wr' ws v').
Proof.
  intros Hv Hw Hm. unfold agrees, accesses. rewrite Hw, Hm.
  destruct (front_write sp v wr ws Hv Hw) as (Hwr & _). pose proof (ww_static _ _ Hwr) as Hst.
  destruct (served_window sp _ m Hst Hm) as (_ & _ & Hin & Hcov). destruct (staged_lengths sp wr Hwr) as [Hld Hls].
  pose proof (beat_bytes_length sp _ _ _ Hst (ww_commit _ _ Hwr) Hld) as Hbl.
  pose proof (beat_bytes_length sp _ _ _ Hst (ww_commit _ _ Hwr) Hls) as Hsl.
  pose proof (write_stores sp Hsp m (beat_at (rt_payload (wt_route wr)) (wt_commit_beat wr))
    (beat_bytes (wt_staged_data wr !!! wt_commit_beat wr) (rt_payload (wt_route wr)) (wt_commit_beat wr))
    (beat_strobes (wt_staged_strobe wr !!! wt_commit_beat wr) (rt_payload (wt_route wr)) (wt_commit_beat wr))
    (v_heap v) Hin) as Hs.
  rewrite Hbl in Hs. specialize (Hs (Hcov _ (ww_commit _ _ Hwr))).
  unfold beat_strobes at 1 in Hs. rewrite length_fmap, Hsl in Hs. specialize (Hs eq_refl).
  unfold write_beat, commit_access. destruct (write_impl _ _ _ _ _) as [resp h'].
  assert (forall wr' v', v_heap (advance wr' ws v') = v_heap v') as Hadv
    by (intros; unfold advance; by destruct (_ =? _)%nat).
  rewrite Hadv. cbn [fst]. destruct (response_is_success resp); (split; [done|]); exact Hs.
Qed.

Lemma write_exclusive_heap wr v :
  v_heap (write_exclusive wr v).2 =
    match reserved wr v with
    | Some m => (write_impl (map_device m) (ap_address (rt_payload (wt_route wr)) - map_base m)
                   (exclusive_bytes wr) (exclusive_strobes wr) (v_heap v)).2
    | None => v_heap v
    end.
Proof.
  unfold write_exclusive, reserved. destruct (served _) as [m|]; [|done].
  destruct (monitor_of _ _ _) as [mon|]; [|done]. case_bool_decide; [|done].
  by destruct (write_impl _ _ _ _ _).
Qed.

Lemma exclusive_lengths sp' wr :
  write_wf sp' wr ->
  Z.of_nat (length (exclusive_bytes wr)) = burst_total (rt_payload (wt_route wr)) /\
  length (exclusive_bytes wr) = length (exclusive_strobes wr).
Proof.
  intros Hwr. pose proof (ww_static _ _ Hwr) as Hst. destruct (rs_payload _ _ Hst) as [Hpw _].
  pose proof (burst_bytes_bound DATA_BYTES _ Hpw (rs_shape _ _ Hst)).
  unfold exclusive_bytes, exclusive_strobes. rewrite !length_fmap, length_seq. split; [|done].
  rewrite Z2Nat.id; [done|]. unfold burst_total. nia.
Qed.

Lemma exclusive_agrees v wr ws :
  view_wf sp v -> v_writes v = wr :: ws -> rt_exclusive (wt_route wr) = true ->
  agrees v (WriteExclusive (rt_port (wt_route wr))) (let '(wr', v') := write_exclusive wr v in complete wr' ws v').
Proof.
  intros Hv Hw Hx. unfold agrees, accesses. rewrite Hw.
  destruct (front_write sp v wr ws Hv Hw) as (Hwr & _). pose proof (ww_static _ _ Hwr) as Hst.
  pose proof (write_exclusive_heap wr v) as Hh. destruct (write_exclusive wr v) as [wr' v'].
  cbn [snd] in Hh. change (v_heap (complete wr' ws v')) with (v_heap v'). rewrite Hh.
  unfold exclusive_access, exclusive_succeeds. destruct (reserved wr v) as [m|] eqn:Hr; [|done].
  unfold reserved in Hr. destruct (served _) as [m'|] eqn:Hm; [|done].
  assert (m' = m) as -> by (destruct (monitor_of _ _ _); [case_bool_decide; congruence | done]).
  destruct (served_window sp _ m Hst Hm) as (_ & _ & Hin & Hcov). destruct (exclusive_lengths sp wr Hwr) as [Hl1 Hl2].
  pose proof (write_stores sp Hsp m (ap_address (rt_payload (wt_route wr))) (exclusive_bytes wr)
    (exclusive_strobes wr) (v_heap v) Hin) as Hs.
  rewrite Hl1 in Hs. specialize (Hs (exclusive_window sp wr m Hwr Hx Hcov) Hl2).
  destruct (write_impl _ _ _ _ _) as [resp h']. cbn [fst snd].
  destruct (response_is_success resp); (split; [done|]); exact Hs.
Qed.

Lemma unserved_fails r :
  route_static sp r -> served r = None -> response_is_success (rt_forced_response r) = false.
Proof.
  intros Hst. pose proof (rs_mapping _ _ Hst) as Hm. pose proof (rs_forced _ _ Hst) as Hf.
  unfold served. destruct (rt_forced_response r); try done. intros E. by rewrite E in Hm.
Qed.

Lemma read_beat_agrees r h :
  read_wf sp r ->
  beat_agrees (memory sp h) (rt_payload r) (rt_beat r) (read_beat r h).1 /\
  pointwise_relation Z eq (memory sp (read_beat r h).2) (memory sp h).
Proof.
  intros [Hst Hb]. unfold read_beat. destruct (served r) as [m|] eqn:Hm.
  2:{ split; [|done]. intros Hs. cbn in Hs. by rewrite unserved_fails in Hs. }
  destruct (served_window sp r m Hst Hm) as (_ & _ & Hin & Hcov).
  set (p := rt_payload r) in *. set (i := rt_beat r) in *. pose proof (Hcov i Hb) as Hw.
  destruct (static_beat_facts sp r i Hst Hb) as (_ & _ & _ & _ & _ & Hlanes). fold p in Hlanes.
  pose proof (read_bytes (map_device m) (beat_at p i - map_base m) (replicate (beat_count p i) 0)
    (replicate (beat_count p i) 1) h ltac:(destruct Hw; lia) ltac:(by rewrite !length_replicate)) as Hr.
  pose proof (read_impl_length (map_device m) (beat_at p i - map_base m) (replicate (beat_count p i) 0)
    (replicate (beat_count p i) 1) h) as Hl.
  destruct (read_impl _ _ _ _ _) as [[resp data] h']. destruct Hr as [Hkeep Hdata]. cbn [fst snd] in *.
  rewrite length_replicate in Hl, Hdata. split.
  - intros Hs k b Hk Hmem. cbn [rd_data read_data] in *.
    assert (response_is_success resp = true) as Hok.
    { cbn in Hs. destruct (rt_exclusive r && bool_decide (resp = Okay)) eqn:E; [|done].
      apply andb_true_iff in E as [_ ->%bool_decide_eq_true]. done. }
    unfold memory in Hmem. rewrite (locate_in sp Hsp m _ _ _ Hin Hw) in Hmem by lia. cbn in Hmem.
    pose proof (lookup_lt_Some _ _ _ Hmem) as Hlt.
    rewrite splice_lookup by (unfold zero_lanes; rewrite ?length_replicate; lia).
    rewrite bool_decide_eq_true_2 by lia. replace (beat_first p i + k - beat_first p i)%nat with k by lia.
    assert (Z.to_nat (beat_at p i - map_base m + Z.of_nat k) = Z.to_nat (beat_at p i - map_base m) + k)%nat as E
      by (destruct Hw; lia).
    rewrite E in Hmem, Hlt.
    rewrite (Hdata Hok k Hk) by first [done | by rewrite lookup_total_replicate_2].
    by apply list_lookup_total_correct.
  - intros x. unfold memory. destruct (locate sp x) as [[d k]|]; [|done]. cbn. by rewrite Hkeep.
Qed.

Lemma step_agrees v e v' : view_wf sp v -> step sp v e v' -> agrees v e v'.
Proof.
  intros Hv Hst. destruct (device_event e) eqn:Hde.
  2:{ unfold agrees. rewrite accesses_quiet, (step_quiet_heap sp v e v') by done. done. }
  destruct Hst as [| | | | | | | |v wr ws m r Hw Hc Hx Hm Hl| |v wr ws r Hw Hc Hx Hl|v r rs ms Hr Hl Hms];
    try discriminate Hde; clear Hde.
  - by apply commit_agrees.
  - by apply exclusive_agrees.
  - destruct (front_read sp v r rs Hv Hr) as (Hwf & _).
    destruct (read_beat_agrees r (v_heap v) Hwf) as [Hb Hk]. unfold agrees, accesses. rewrite Hr.
    destruct (v_writes v); (split; [by split|]); by destruct (read_beat r (v_heap v)).
Qed.

(** A run is consistent with the store it starts with. *)
Lemma traced_agrees v es log v' :
  view_wf sp v -> traced v es log v' ->
  consistent (memory sp (v_heap v)) log /\
  pointwise_relation Z eq (memory sp (v_heap v')) (replay (memory sp (v_heap v)) log).
Proof.
  intros Hv Ht. induction Ht as [v|v h es log v' Hh _ IH|v e v1 es log v2 Hst _ IH]; [done| |].
  { destruct (IH (view_heap_wf v h Hv)) as [Hc Hm]. cbn [v_heap update] in *. split; [by rewrite <- Hh|].
    intros x. rewrite Hm. by apply replay_proper. }
  destruct (step_agrees v e v1 Hv Hst) as [Hc Hm]. destruct (IH (step_wf sp v e v1 Hv Hst)) as [Hcs Hms].
  split.
  - apply consistent_app. split; [done|]. by rewrite <- Hm.
  - unfold replay. rewrite foldl_app. fold (replay (memory sp (v_heap v)) (accesses v e)).
    intros x. rewrite Hms. symmetry. by apply replay_proper.
Qed.
End Log.
