(* ===== verification/FabricTraffic.v ===== *)
(** * The traffic of a port, and the memory it sees

    What a port sends and receives is put in relation with the log of device
    accesses of FabricMemory.v: the read beats it receives are the beats of its
    read bursts as they were fetched, and the bytes written for it are those of
    its write bursts, complete for every burst that was acknowledged. *)
From S2P Require Import Prelude RingBuffer Axi Device Memory Uart Interrupts Heap ElfPlan.
From S2P Require Import Fabric FabricSpec FabricPorts FabricInv FabricBeats FabricWrites.
From S2P Require Import FabricCommit FabricTheorems FabricRuns FabricExamples FabricMemory.

(** ** What is seen at a port, and in the log *)
Definition aw_accepted (port : nat) (e : event) : list AddressPayload :=
  match e with AcceptAW port' p => if decide (port' = port) then [p] else [] | _ => [] end.
Definition w_accepted (port : nat) (e : event) : list WriteDataPayload :=
  match e with AcceptW port' w => if decide (port' = port) then [w] else [] | _ => [] end.
Definition ar_accepted (port : nat) (e : event) : list AddressPayload :=
  match e with AcceptAR port' p => if decide (port' = port) then [p] else [] | _ => [] end.
Definition b_received (port : nat) (e : event) : list WriteResponsePayload :=
  match e with RetireB port' b => if decide (port' = port) then [b] else [] | _ => [] end.
Definition r_received (port : nat) (e : event) : list ReadDataPayload :=
  match e with RetireR port' b => if decide (port' = port) then [b] else [] | _ => [] end.

Definition wrote (port : nat) (a : access) : list (Z * Z) :=
  match a with Wrote port' bytes => if decide (port' = port) then bytes else [] | _ => [] end.
Definition fetched (port : nat) (a : access) : list (AddressPayload * nat * ReadDataPayload) :=
  match a with
  | Fetched port' p i beat => if decide (port' = port) then [(p, i, beat)] else []
  | _ => []
  end.

Lemma bind_ext_in {A B} (g g' : A -> list B) (l : list A) :
  (forall x, x ∈ l -> g x = g' x) -> l ≫= g = l ≫= g'.
Proof.
  intros Hg. induction l as [|x l IH]; [done|]. cbn. rewrite (Hg x) by by left.
  f_equal. apply IH. intros y Hy. apply Hg. by right.
Qed.

(** A list in [n] pieces of [m]. *)
Lemma bind_chunks {A} (g : nat -> list A) (n m : nat) :
  seq 0 (n * m) ≫= g = seq 0 n ≫= fun i => seq 0 m ≫= fun k => g (i * m + k)%nat.
Proof.
  induction n as [|n IH]; [done|].
  rewrite seq_S, bind_app, <- IH, Nat.mul_succ_l, seq_app, bind_app. f_equal. cbn. rewrite app_nil_r.
  rewrite <- (Nat.add_0_r (n * m)) at 1. rewrite <- fmap_add_seq, list_fmap_bind. done.
Qed.

Section Traffic.
Context {cfg : FabricConfig} `{!FabricConfigOk cfg} {H : Type} `{!DeviceHeap H, !DeviceHeapLaws H}.
Implicit Types (v : View H) (sp : AddressSpace) (p : AddressPayload) (r : Route) (wr : WriteRoute).

(** ** Actions of other ports *)
Lemma writes_of_same_port port wr wr' ws :
  rt_port (wt_route wr') = rt_port (wt_route wr) -> rt_port (wt_route wr) <> port ->
  writes_of port (wr' :: ws) = writes_of port (wr :: ws).
Proof. intros E Hne. by rewrite !writes_of_cons, E, !decide_False. Qed.

Lemma advance_writes wr ws v :
  v_writes (advance wr ws v) =
    if (wt_commit_beat wr =? burst_beats (rt_payload (wt_route wr)))%nat then ws else wr :: ws.
Proof. unfold advance. by destruct (_ =? _)%nat. Qed.

Lemma write_beat_keeps wr m v :
  v_reads (write_beat wr m v).2 = v_reads v /\ v_writes (write_beat wr m v).2 = v_writes v.
Proof. unfold write_beat. by destruct (write_impl _ _ _ _ _). Qed.

Lemma write_exclusive_keeps wr v :
  v_reads (write_exclusive wr v).2 = v_reads v /\ v_writes (write_exclusive wr v).2 = v_writes v.
Proof.
  unfold write_exclusive. destruct (served _); [|done]. destruct (monitor_of _ _ _); [|done].
  case_bool_decide; [|done]. by destruct (write_impl _ _ _ _ _).
Qed.

Lemma advance_reads wr ws v : v_reads (advance wr ws v) = v_reads v.
Proof. unfold advance. by destruct (_ =? _)%nat. Qed.

Lemma step_other_routes sp v e v' port :
  step sp v e v' -> event_port e <> port ->
  routes_of port (v_reads v') = routes_of port (v_reads v) /\
  writes_of port (v_writes v') = writes_of port (v_writes v).
Proof.
  destruct 1 as [v port' p Hp Hr Hl|v port' w Hp Hr Hl|v port' p Hp Hr Hl|v port' b rest Hp Hq
    |v port' b rest Hp Hq|v port' p rest r Hp Hq Hl Hr|v port' p rest r Hp Hq Hl Hr
    |v wr ws w rest r Hw Hinc Hq Hlast Hstr|v wr ws m r Hw Hc Hx Hm Hl|v wr ws r Hw Hc Hx Hm Hl
    |v wr ws r Hw Hc Hx Hl|v r rs ms Hr Hl Hms]; simpl; intros Hne; try done.
  - split; [done|]. unfold writes_of. rewrite filter_app. fold (writes_of port [new_write r]).
    destruct Hr as [_ <- _ _ _]. rewrite writes_of_cons. simpl. rewrite decide_False by done.
    apply app_nil_r.
  - split; [|done]. rewrite routes_of_app, routes_of_cons. destruct Hr as [_ <- _ _ _].
    rewrite decide_False by done. apply app_nil_r.
  - split; [done|]. rewrite Hw. by apply writes_of_same_port.
  - pose proof (write_beat_keeps wr m v) as [Er _]. pose proof (write_beat_ports wr m v) as [_ Ep].
    destruct (write_beat wr m v) as [wr' v']. simpl in *. rewrite advance_reads, advance_writes, Er.
    split; [done|]. rewrite Hw, writes_of_cons, decide_False by done. destruct (_ =? _)%nat; [done|].
    by rewrite writes_of_cons, Ep, decide_False.
  - split; [done|]. by rewrite Hw, writes_of_cons, decide_False.
  - pose proof (write_exclusive_keeps wr v) as [Er _]. destruct (write_exclusive wr v) as [wr' v']. simpl in *.
    rewrite Er. split; [done|]. by rewrite Hw, writes_of_cons, decide_False.
  - destruct (read_beat r (v_heap v)). simpl. rewrite after_read_other by done. split; [|done].
    by rewrite Hr, routes_of_cons, decide_False.
Qed.

Lemma other_traffic e port :
  event_port e <> port ->
  aw_accepted port e = [] /\ w_accepted port e = [] /\ ar_accepted port e = [] /\
  b_received port e = [] /\ r_received port e = [].
Proof. destruct e; simpl; intros Hne; by rewrite ?decide_False. Qed.

Lemma step_other_accesses sp v e v' port :
  step sp v e v' -> event_port e <> port ->
  accesses v e ≫= wrote port = [] /\ accesses v e ≫= fetched port = [].
Proof.
  destruct 1 as [| | | | | | | |v wr ws m r Hw Hc Hx Hm Hl|v wr ws r Hw Hc Hx Hm Hl
    |v wr ws r Hw Hc Hx Hl|v r rs ms Hr Hl Hms]; simpl; intros Hne;
    try (by destruct (v_writes v)).
  - rewrite Hw. subst r. rewrite Hm. unfold commit_access.
    destruct (response_is_success _); [|done]. simpl. by rewrite decide_False.
  - rewrite Hw. unfold exclusive_access. destruct (exclusive_succeeds wr v); [|done]. simpl.
    by rewrite decide_False.
  - rewrite Hr. destruct (v_writes v); simpl; by rewrite decide_False.
Qed.

(** ** Reads *)
Definition beats_of p : list (AddressPayload * nat) := (fun i => (p, i)) <$> seq 0 (burst_beats p).
Definition remaining_beats r : list (AddressPayload * nat) := drop (rt_beat r) (beats_of (rt_payload r)).

(** The beats a port is owed that have not been fetched. *)
Definition reads_due v (port : nat) : list (AddressPayload * nat) :=
  (routes_of port (v_reads v) ≫= remaining_beats) ++ (q_ar (pv v port) ≫= beats_of).

Lemma beats_of_length p : length (beats_of p) = burst_beats p.
Proof. unfold beats_of. by rewrite length_fmap, length_seq. Qed.

Lemma after_read_beats port r rs :
  (rt_beat r < burst_beats (rt_payload r))%nat -> rt_port r = port ->
  routes_of port (r :: rs) ≫= remaining_beats
    = (rt_payload r, rt_beat r) :: (routes_of port (after_read r rs) ≫= remaining_beats).
Proof.
  intros Hb Hp. rewrite routes_of_cons, decide_True by done. simpl.
  unfold remaining_beats at 1.
  rewrite (drop_S _ (rt_payload r, rt_beat r)) by (unfold beats_of; by rewrite list_lookup_fmap, seq_lookup_lt).
  simpl. f_equal. unfold after_read.
  destruct (Nat.eqb_spec (S (rt_beat r)) (burst_beats (rt_payload r))) as [He|He].
  - by rewrite He, drop_ge by (rewrite beats_of_length; lia).
  - rewrite routes_of_cons. simpl. by rewrite decide_True by done.
Qed.

(** The read side of a transition that fetches nothing. *)
Definition same_reads port e v v' : Prop :=
  reads_due v port ++ (ar_accepted port e ≫= beats_of) = reads_due v' port /\
  q_r (pv v port) = r_received port e ++ q_r (pv v' port).

Lemma reads_kept port e v v' :
  routes_of port (v_reads v') = routes_of port (v_reads v) ->
  q_r (pv v' port) = q_r (pv v port) -> q_ar (pv v' port) = q_ar (pv v port) ->
  ar_accepted port e = [] -> r_received port e = [] -> same_reads port e v v'.
Proof. unfold same_reads, reads_due. intros -> -> -> -> ->. simpl. by rewrite app_nil_r. Qed.

(** Only the B queue of a port changes when a write goes on or is completed. *)
Lemma complete_proj {A} (proj : PortView -> A) wr ws v v' port :
  (forall q l, proj (q <| q_b := l |>) = proj q) -> v_ports v' = v_ports v ->
  proj (pv (complete wr ws v') port) = proj (pv v port).
Proof.
  intros Hproj Hv. unfold complete. rewrite (pv_on_pv_proj proj) by (intros q; apply (Hproj q)).
  by rewrite (pv_ports v).
Qed.
Lemma advance_proj {A} (proj : PortView -> A) wr ws v v' port :
  (forall q l, proj (q <| q_b := l |>) = proj q) -> v_ports v' = v_ports v ->
  proj (pv (advance wr ws v') port) = proj (pv v port).
Proof.
  intros Hproj Hv. unfold advance. destruct (_ =? _)%nat; [by apply complete_proj|]. by rewrite (pv_ports v).
Qed.

Lemma step_same_reads sp v e v' port :
  view_wf sp v -> step sp v e v' -> event_port e = port -> (forall q, e <> ReadBeat q) ->
  same_reads port e v v'.
Proof.
  intros Hv Hst He Hnr. pose proof (vw_length sp v Hv) as Hlen.
  destruct Hst as [v port' p Hp Hr Hl|v port' w Hp Hr Hl|v port' p Hp Hr Hl|v port' b rest Hp Hq
    |v port' b rest Hp Hq|v port' p rest r Hp Hq Hl Hr|v port' p rest r Hp Hq Hl Hr
    |v wr ws w rest r Hw Hinc Hq Hlast Hstr|v wr ws m r Hw Hc Hx Hm Hl|v wr ws r Hw Hc Hx Hm Hl
    |v wr ws r Hw Hc Hx Hl|v r rs ms Hr Hl Hms]; simpl in He; try subst port';
    try (apply reads_kept; simpl; rewrite ?(pv_on_pv_proj q_r), ?(pv_on_pv_proj q_ar); done).
  - unfold same_reads, reads_due. simpl. rewrite decide_True, pv_on_pv_eq by (done || by rewrite Hlen).
    cbn [q_ar q_r]. by rewrite bind_app, app_assoc.
  - unfold same_reads, reads_due. simpl. rewrite decide_True, pv_on_pv_eq by (done || by rewrite Hlen).
    simpl. by rewrite app_nil_r.
  - unfold same_reads, reads_due. simpl v_reads. rewrite pv_on_pv_eq by (simpl; by rewrite Hlen). simpl.
    change (pv (v <| v_reads ::= fun l => l ++ [r] |>)) with (pv v). rewrite app_nil_r. split; [|done].
    destruct Hr as [_ Hrp Hrpl Hrb _]. rewrite routes_of_app, routes_of_cons, decide_True, bind_app by done.
    rewrite Hq, <- app_assoc. simpl. unfold remaining_beats at 3. by rewrite Hrb, Hrpl, app_nil_r.
  - pose proof (write_beat_keeps wr m v) as [Er _]. pose proof (write_beat_ports wr m v) as [Ep _].
    destruct (write_beat wr m v) as [wr' v']. simpl in *.
    apply reads_kept; rewrite ?advance_reads, ?Er; try done; by apply (advance_proj _ _ _ v).
  - apply reads_kept; try done; by apply (complete_proj _ _ _ v).
  - pose proof (write_exclusive_keeps wr v) as [Er _]. pose proof (write_exclusive_ports wr v) as [Ep _].
    destruct (write_exclusive wr v) as [wr' v']. simpl in *.
    apply reads_kept; try done; [by rewrite <- Er | by apply (complete_proj _ _ _ v)..].
  - by destruct (Hnr (rt_port r)).
Qed.

Lemma step_reads sp v e v' port :
  view_wf sp v -> step sp v e v' ->
  reads_due v port ++ (ar_accepted port e ≫= beats_of)
    = (fst <$> (accesses v e ≫= fetched port)) ++ reads_due v' port /\
  q_r (pv v port) ++ (snd <$> (accesses v e ≫= fetched port)) = r_received port e ++ q_r (pv v' port).
Proof.
  intros Hv Hst. destruct (decide (event_port e = port)) as [He|He].
  2:{ destruct (step_other_accesses sp v e v' port Hst He) as [_ ->].
      destruct (step_other_routes sp v e v' port Hst He) as [Hr _].
      destruct (other_traffic e port He) as (_ & _ & -> & _ & ->).
      unfold reads_due. rewrite Hr, (step_other_port sp v e v' port Hst He). simpl. by rewrite !app_nil_r. }
  assert ((forall q, e <> ReadBeat q) -> accesses v e ≫= fetched port = []) as Hno.
  { intros Hnr. destruct e; simpl; try (by destruct (v_writes v)).
    - destruct (v_writes v) as [|wr ws]; [done|]. destruct (served _); [|done]. unfold commit_access.
      by destruct (response_is_success _).
    - destruct (v_writes v) as [|wr ws]; [done|]. unfold exclusive_access. by destruct (exclusive_succeeds wr v).
    - by destruct (Hnr port0). }
  assert ((exists q, e = ReadBeat q) \/ (forall q, e <> ReadBeat q)) as [[q ->]|Hnr]
    by (destruct e; eauto).
  - inversion Hst as [| | | | | | | | | | |v0 r rs ms Hr Hl Hms]; subst. clear Hst.
    destruct (front_read sp v r rs Hv Hr) as ([Hst Hb] & _).
    pose proof (rs_port _ _ Hst) as Hp. rewrite <- (vw_length sp v Hv) in Hp.
    assert (accesses v (ReadBeat (rt_port r))
      = [Fetched (rt_port r) (rt_payload r) (rt_beat r) (read_beat r (v_heap v)).1]) as ->.
    { simpl. rewrite Hr. by destruct (v_writes v). }
    destruct (read_beat r (v_heap v)) as [beat h']. simpl. rewrite decide_True by done. simpl.
    unfold reads_due. rewrite pv_on_pv_eq by done. simpl. rewrite Hr, (after_read_beats _ r rs Hb) by done.
    by rewrite app_nil_r.
  - destruct (step_same_reads sp v e v' port Hv Hst He Hnr) as [H1 H2]. rewrite (Hno Hnr). simpl.
    by rewrite app_nil_r.
Qed.

(** ** Writes *)

(** Beat [i] of a staged burst, as it came from the port. *)
Definition staged_beat wr (i : nat) : WriteDataPayload :=
  {| wd_data := wt_staged_data wr !!! i; wd_strobe := wt_staged_strobe wr !!! i;
     wd_last := (S i =? burst_beats (rt_payload (wt_route wr)))%nat |}.
Definition staged_beats wr : list WriteDataPayload :=
  staged_beat wr <$> seq 0 (rt_beat (wt_route wr)).

(** The bytes the first [n] beats of a burst write. *)
Definition beat_write p (i : nat) (w : WriteDataPayload) : list (Z * Z) :=
  bytes_at (beat_at p i) (beat_bytes (wd_data w) p i) (beat_strobes (wd_strobe w) p i).
Definition burst_write p (ws : list WriteDataPayload) (n : nat) : list (Z * Z) :=
  seq 0 n ≫= fun i => beat_write p i (ws !!! i).
Definition committed wr : list (Z * Z) :=
  burst_write (rt_payload (wt_route wr)) (staged_beats wr) (wt_commit_beat wr).

(** A write burst that has been answered: its beats, how many of them were
    written, and the response. *)
Record BurstRecord := {
  br_payload : AddressPayload;
  br_beats : list WriteDataPayload;
  br_written : nat;
  br_response : Response
}.

(** Every beat of the burst took effect: OKAY, or EXOKAY for an exclusive one. *)
Definition acknowledged p (resp : Response) : bool :=
  if ap_lock p then bool_decide (resp = ExclusiveOkay) else response_is_success resp.

Record burst_done (b : BurstRecord) : Prop := {
  bd_length : length (br_beats b) = burst_beats (br_payload b);
  bd_written : if acknowledged (br_payload b) (br_response b)
               then br_written b = burst_beats (br_payload b)
               else (br_written b < burst_beats (br_payload b))%nat;
  bd_exclusive : ap_lock (br_payload b) = true -> br_written b = 0%nat \/
                 br_written b = burst_beats (br_payload b)
}.

(** What holds of a burst on its way, and of those behind the front. *)
Definition route_ok wr : Prop :=
  response_is_success (wt_response wr) = true /\
  (wt_commit_beat wr = 0%nat \/
   wt_data_complete wr = true /\ rt_exclusive (wt_route wr) = false /\ is_Some (served (wt_route wr))).
Definition untouched wr : Prop := rt_beat (wt_route wr) = 0%nat /\ wt_commit_beat wr = 0%nat.
Definition writes_ok v : Prop := Forall route_ok (v_writes v) /\ Forall untouched (tail (v_writes v)).

(** The write side of a port: what it sent ([aws], [ws]) and received ([bs]),
    and the bytes written for it, in terms of the answered bursts [hist] and
    of what is still in the fabric. *)
Record history (port : nat) (aws : list AddressPayload) (ws : list WriteDataPayload)
    (bs : list WriteResponsePayload) (bytes : list (Z * Z)) (hist : list BurstRecord) v : Prop := {
  hs_aw : aws = (br_payload <$> hist) ++ ((fun wr => rt_payload (wt_route wr)) <$> writes_of port (v_writes v))
                ++ q_aw (pv v port);
  hs_w : ws = (hist ≫= br_beats) ++ (writes_of port (v_writes v) ≫= staged_beats) ++ q_w (pv v port);
  hs_b : (fun b => (wr_id b, wr_response b)) <$> bs ++ q_b (pv v port)
         = (fun b => (ap_id (br_payload b), br_response b)) <$> hist;
  hs_bytes : bytes = (hist ≫= fun b => burst_write (br_payload b) (br_beats b) (br_written b))
                     ++ (writes_of port (v_writes v) ≫= committed);
  hs_done : Forall burst_done hist
}.

Lemma combine_success a b :
  response_is_success (combine_response a b) = response_is_success a && response_is_success b.
Proof. by destruct a, b. Qed.

Lemma untouched_nothing wr : untouched wr -> staged_beats wr = [] /\ committed wr = [].
Proof. intros [Hb Hc]. unfold staged_beats, committed. by rewrite Hb, Hc. Qed.

Lemma untouched_routes port l :
  Forall untouched l ->
  writes_of port l ≫= staged_beats = [] /\ writes_of port l ≫= committed = [].
Proof.
  induction 1 as [|wr l Hwr _ [IH1 IH2]]; [done|]. rewrite writes_of_cons.
  destruct (decide _); [|done]. destruct (untouched_nothing wr Hwr) as [E1 E2].
  split; [by change (staged_beats wr ++ (writes_of port l ≫= staged_beats) = []); rewrite E1
         | by change (committed wr ++ (writes_of port l ≫= committed) = []); rewrite E2].
Qed.

Lemma stage_staged wr w sp :
  write_wf sp wr -> wt_data_complete wr = false ->
  wd_last w = (S (rt_beat (wt_route wr)) =? burst_beats (rt_payload (wt_route wr)))%nat ->
  staged_beats (stage wr w) = staged_beats wr ++ [w].
Proof.
  intros Hwr Hinc Hlast. pose proof (ww_beat _ _ Hwr) as Hb. rewrite Hinc in Hb.
  destruct (rs_payload _ _ (ww_static _ _ Hwr)) as [Hpw _]. pose proof (burst_beats_bound _ Hpw) as Hmax.
  destruct (ww_data _ _ Hwr) as [Hd _], (ww_strobe _ _ Hwr) as [Hs _]. unfold MAX_BURST_BEATS in *.
  unfold staged_beats. change (rt_beat (wt_route (stage wr w))) with (S (rt_beat (wt_route wr))).
  rewrite seq_S, fmap_app. cbn [fmap list_fmap plus]. f_equal.
  - apply list_fmap_ext. intros _ i Hi%list_elem_of_lookup_2%elem_of_seq. unfold staged_beat, stage. cbn.
    by rewrite !list_lookup_total_insert_ne by lia.
  - f_equal. unfold staged_beat, stage. cbn. rewrite !list_lookup_total_insert, !decide_True by lia.
    destruct w as [d st l]. cbn in *. by rewrite <- Hlast.
Qed.

Lemma staged_beats_lookup wr i :
  (i < rt_beat (wt_route wr))%nat -> staged_beats wr !!! i = staged_beat wr i.
Proof.
  intros Hi. apply list_lookup_total_correct. unfold staged_beats.
  by rewrite list_lookup_fmap, seq_lookup_lt.
Qed.

Lemma staged_beat_wf sp wr i :
  write_wf sp wr -> (i < burst_beats (rt_payload (wt_route wr)))%nat -> write_beat_wf (staged_beat wr i).
Proof.
  intros Hwr Hi. destruct (rs_payload _ _ (ww_static _ _ Hwr)) as [Hpw _].
  pose proof (burst_beats_bound _ Hpw) as Hmax. unfold MAX_BURST_BEATS in *.
  destruct (ww_data _ _ Hwr) as [Hd1 Hd2], (ww_strobe _ _ Hwr) as [Hs1 Hs2]. unfold MAX_BURST_BEATS in *.
  split; [apply (Forall_lookup_1 _ _ i _ Hd2) | apply (Forall_lookup_1 _ _ i _ Hs2)]; apply lookup_total_lt; lia.
Qed.

(** An exclusive burst, written as one access, writes the bytes of its beats. *)
Lemma exclusive_writes wr sp :
  write_wf sp wr -> rt_exclusive (wt_route wr) = true -> wt_data_complete wr = true ->
  bytes_at (ap_address (rt_payload (wt_route wr))) (exclusive_bytes wr) (exclusive_strobes wr)
    = burst_write (rt_payload (wt_route wr)) (staged_beats wr) (burst_beats (rt_payload (wt_route wr))).
Proof.
  intros Hwr Hx Hc. pose proof (ww_beat _ _ Hwr) as Hb. rewrite Hc in Hb.
  destruct (exclusive_lengths sp wr Hwr) as [Hl _].
  assert (length (exclusive_bytes wr)
    = (burst_beats (rt_payload (wt_route wr)) * Z.to_nat (burst_bytes (rt_payload (wt_route wr))))%nat) as Hl'.
  { rewrite <- (exclusive_total sp wr Hwr), <- Hl. lia. }
  unfold bytes_at, burst_write. rewrite Hl', bind_chunks. apply bind_ext_in.
  intros i Hi%elem_of_seq. destruct (exclusive_beat sp wr Hwr Hx i) as [Hat Hcount]; [lia|].
  destruct (static_beat_facts sp _ i (ww_static _ _ Hwr)) as (_ & _ & _ & _ & _ & Hd); [lia|].
  destruct (staged_beat_wf sp wr i Hwr) as [Hld Hls]; [lia|].
  rewrite staged_beats_lookup by lia. unfold beat_write, bytes_at, beat_strobes, beat_bytes.
  rewrite subspan_length by lia. replace (beat_count _ i) with (Z.to_nat (burst_bytes (rt_payload (wt_route wr)))) by lia.
  apply bind_ext_in. intros k Hk%elem_of_seq.
  assert (exclusive_strobes wr !!! (i * Z.to_nat (burst_bytes (rt_payload (wt_route wr))) + k)%nat
    = b2z (nz ((wt_staged_strobe wr !!! i) !!! (beat_first (rt_payload (wt_route wr)) i + k)%nat))) as ->.
  { unfold exclusive_strobes. apply list_lookup_total_correct.
    rewrite list_lookup_fmap, seq_lookup_lt by (rewrite (exclusive_total sp wr Hwr); nia). cbn.
    by rewrite (staged_byte_of_beat sp wr Hwr Hx) by lia. }
  assert (exclusive_bytes wr !!! (i * Z.to_nat (burst_bytes (rt_payload (wt_route wr))) + k)%nat
    = (wt_staged_data wr !!! i) !!! (beat_first (rt_payload (wt_route wr)) i + k)%nat) as ->.
  { unfold exclusive_bytes. apply list_lookup_total_correct.
    rewrite list_lookup_fmap, seq_lookup_lt by (rewrite (exclusive_total sp wr Hwr); nia). cbn.
    by rewrite (staged_byte_of_beat sp wr Hwr Hx) by lia. }
  cbn [staged_beat wd_data wd_strobe] in *.
  rewrite (list_lookup_total_fmap (fun x => b2z (nz x)) _ k) by (rewrite subspan_length; lia).
  rewrite !subspan_lookup by lia. rewrite Hat, Nat2Z.inj_add, Nat2Z.inj_mul, Z2Nat.id by lia.
  by rewrite Z.add_assoc.
Qed.

(** ** The routes on their way *)
Lemma writes_popped l : Forall route_ok l /\ Forall untouched (tail l) -> Forall route_ok (tail l) /\ Forall untouched (tail (tail l)).
Proof. intros [Hr Hu]. destruct l as [|wr ws]; [done|]. inversion Hr. split; [done|]. destruct ws; [done|]. by inversion Hu. Qed.

Lemma write_beat_ok wr ws m v :
  route_ok wr -> wt_data_complete wr = true -> rt_exclusive (wt_route wr) = false ->
  served (wt_route wr) = Some m -> Forall route_ok ws -> Forall untouched ws ->
  writes_ok (let '(wr', v') := write_beat wr m v in advance wr' ws v').
Proof.
  intros [Hok Hcm] Hc Hx Hm Hr Hu. pose proof (write_beat_route wr m v) as (Er & Ec & _ & _ & _).
  assert (wt_commit_beat (write_beat wr m v).1 <> burst_beats (rt_payload (wt_route wr)) ->
    response_is_success (wt_response (write_beat wr m v).1) = true) as Hresp.
  { unfold write_beat. destruct (write_impl _ _ _ _ _) as [resp h']. cbn [fst].
    destruct (response_is_success resp) eqn:E; cbn; [|done]. intros _.
    destruct (is_exit _ _); cbn; by rewrite combine_success, Hok, E. }
  destruct (write_beat wr m v) as [wr' v']. cbn [fst] in *. unfold writes_ok. rewrite advance_writes, Er.
  destruct (Nat.eqb_spec (wt_commit_beat wr') (burst_beats (rt_payload (wt_route wr)))) as [He|He].
  - split; [done|]. destruct ws; [done | by inversion Hu].
  - split; [|done]. constructor; [|done]. split; [by apply Hresp|]. right.
    rewrite Ec, Er, Hm. by split_and!.
Qed.

Lemma step_writes_ok sp v e v' : writes_ok v -> step sp v e v' -> writes_ok v'.
Proof.
  intros Hok Hst. pose proof (writes_popped _ Hok) as Hpop. pose proof Hok as [Hr Hu].
  destruct Hst as [| | | | |v port p rest r Hp Hq Hl Hfr| |v wr ws w rest r Hw Hinc Hq Hlast Hstr
    |v wr ws m r Hw Hc Hx Hm Hl|v wr ws r Hw Hc Hx Hm Hl|v wr ws r Hw Hc Hx Hl|v r rs ms Hrd Hl Hms];
    try exact Hok; unfold writes_ok in *; simpl v_writes.
  - destruct Hfr as [_ _ _ Hb _]. split.
    + apply Forall_app_2; [done|]. constructor; [|done]. split; [done | by left].
    + destruct (v_writes v) as [|wr ws]; [done|]. apply Forall_app_2; [done|]. by constructor.
  - rewrite Hw in Hr, Hu, Hpop. split; [|done]. constructor; [|apply Hpop].
    inversion_clear Hr as [|? ? [Ha Hb] _]. split; [done|]. destruct Hb as [Hb|(Hb & _)]; [by left | congruence].
  - rewrite Hw in Hr, Hu, Hpop. inversion_clear Hr. by apply write_beat_ok.
  - by rewrite Hw in Hpop.
  - pose proof (write_exclusive_keeps wr v) as [_ E]. destruct (write_exclusive wr v) as [wr' v'].
    by rewrite Hw in Hpop.
  - by destruct (read_beat r (v_heap v)).
Qed.

(** ** One transition of the history *)
Lemma history_same port aws ws bs bytes hist v v' :
  writes_of port (v_writes v') = writes_of port (v_writes v) ->
  q_aw (pv v' port) = q_aw (pv v port) -> q_w (pv v' port) = q_w (pv v port) ->
  q_b (pv v' port) = q_b (pv v port) ->
  history port aws ws bs bytes hist v -> history port aws ws bs bytes hist v'.
Proof. intros E1 E2 E3 E4 []. by constructor; rewrite ?E1, ?E2, ?E3, ?E4. Qed.

Section Front.
Context (port : nat) (v : View H) (wr : WriteRoute) (wrs : list WriteRoute).
Context (Hw : v_writes v = wr :: wrs) (Hport : rt_port (wt_route wr) = port) (Hu : Forall untouched wrs).

(** The front burst goes on. *)
Lemma history_front aws ws bs bytes hist wr' v' extra :
  v_ports v' = v_ports v -> v_writes v' = wr' :: wrs -> wt_route wr' = wt_route wr ->
  staged_beats wr' = staged_beats wr -> committed wr' = committed wr ++ extra ->
  history port aws ws bs bytes hist v -> history port aws ws bs (bytes ++ extra) hist v'.
Proof.
  intros Hp Hw' Hr Hs Hc [Haw Hws Hb Hby Hd]. destruct (untouched_routes port wrs Hu) as [Es Ec].
  rewrite Hw, writes_of_cons, decide_True in * by done. cbn [fmap list_fmap mbind list_bind] in *.
  rewrite Es in Hws. rewrite Ec in Hby. rewrite app_nil_r in *.
  constructor; rewrite ?Hw', ?writes_of_cons, ?Hr, ?(pv_ports v v') by done;
    rewrite ?decide_True by done; cbn [fmap list_fmap mbind list_bind]; rewrite ?Es, ?Ec, ?Hs, ?Hc, ?Hr, ?app_nil_r;
    try done. by rewrite Hby, app_assoc.
Qed.

(** The front burst is answered. *)
Lemma history_complete aws ws bs bytes hist wr' v' extra n :
  (port < length (v_ports v))%nat -> v_ports v' = v_ports v -> wt_route wr' = wt_route wr ->
  committed wr ++ extra = burst_write (rt_payload (wt_route wr)) (staged_beats wr) n ->
  let record := {| br_payload := rt_payload (wt_route wr); br_beats := staged_beats wr;
                   br_written := n; br_response := wt_response wr' |} in
  burst_done record ->
  history port aws ws bs bytes hist v ->
  history port aws ws bs (bytes ++ extra) (hist ++ [record]) (complete wr' wrs v').
Proof.
  intros Hlt Hp Hr Hc record Hdone [Haw Hws Hb Hby Hd]. destruct (untouched_routes port wrs Hu) as [Es Ec].
  rewrite Hw, writes_of_cons, decide_True in * by done. cbn [fmap list_fmap mbind list_bind] in *.
  rewrite Es in Hws. rewrite Ec in Hby. rewrite app_nil_r in *.
  assert (q_b (pv (complete wr' wrs v') port) = q_b (pv v port) ++ [write_response wr']) as Eb.
  { unfold complete. rewrite Hr, Hport, pv_on_pv_eq by (simpl; by rewrite Hp). cbn [q_b].
    by rewrite (pv_ports v). }
  constructor; rewrite ?Eb, ?(complete_proj q_aw _ _ v), ?(complete_proj q_w _ _ v) by done;
    change (v_writes (complete wr' wrs v')) with wrs;
    rewrite ?fmap_app, ?bind_app; cbn [fmap list_fmap mbind list_bind br_payload br_beats br_written];
    rewrite ?Es, ?Ec, ?app_nil_r.
  - rewrite Haw. by rewrite <- !app_assoc.
  - rewrite Hws. by rewrite <- !app_assoc.
  - rewrite app_assoc, <- fmap_app, Hb. unfold record. cbn. by rewrite Hr.
  - subst bytes. by rewrite <- app_assoc, Hc.
  - apply Forall_app_2; [done | by constructor].
Qed.
End Front.

Lemma committed_stage wr w :
  wt_commit_beat wr = 0%nat -> committed (stage wr w) = committed wr ++ [].
Proof. intros E. unfold committed. cbn. by rewrite E. Qed.

Lemma route_incomplete wr : route_ok wr -> wt_data_complete wr = false -> wt_commit_beat wr = 0%nat.
Proof. intros [_ [?|(Hc & _)]]; congruence. Qed.

(** A committed beat, with its place in the burst. *)
Lemma commit_extends wr m v sp ok :
  write_wf sp wr -> wt_data_complete wr = true ->
  ok = response_is_success (write_impl (map_device m)
         (beat_at (rt_payload (wt_route wr)) (wt_commit_beat wr) - map_base m)
         (beat_bytes (wt_staged_data wr !!! wt_commit_beat wr) (rt_payload (wt_route wr)) (wt_commit_beat wr))
         (beat_strobes (wt_staged_strobe wr !!! wt_commit_beat wr) (rt_payload (wt_route wr)) (wt_commit_beat wr))
         (v_heap v)).1 ->
  committed wr ++ (commit_access wr m (v_heap v) ≫= wrote (rt_port (wt_route wr)))
    = burst_write (rt_payload (wt_route wr)) (staged_beats wr)
        (if ok then S (wt_commit_beat wr) else wt_commit_beat wr).
Proof.
  intros Hwr Hc ->. pose proof (ww_beat _ _ Hwr) as Hb. rewrite Hc in Hb. pose proof (ww_commit _ _ Hwr) as Hi.
  unfold commit_access, committed. destruct (response_is_success _); [|apply app_nil_r].
  cbn [mbind list_bind wrote]. rewrite decide_True, app_nil_r by done.
  unfold burst_write. rewrite seq_S, bind_app. cbn [mbind list_bind plus]. rewrite app_nil_r. f_equal.
  rewrite staged_beats_lookup by lia. done.
Qed.

Lemma write_beat_result wr m v sp ok :
  route_ok wr -> write_wf sp wr ->
  ok = response_is_success (write_impl (map_device m)
         (beat_at (rt_payload (wt_route wr)) (wt_commit_beat wr) - map_base m)
         (beat_bytes (wt_staged_data wr !!! wt_commit_beat wr) (rt_payload (wt_route wr)) (wt_commit_beat wr))
         (beat_strobes (wt_staged_strobe wr !!! wt_commit_beat wr) (rt_payload (wt_route wr)) (wt_commit_beat wr))
         (v_heap v)).1 ->
  response_is_success (wt_response (write_beat wr m v).1) = ok /\
  wt_commit_beat (write_beat wr m v).1 =
    if ok then S (wt_commit_beat wr) else burst_beats (rt_payload (wt_route wr)).
Proof.
  intros [Hok _] Hwr ->. unfold write_beat. destruct (write_impl _ _ _ _ _) as [resp h']. cbn [fst].
  destruct (response_is_success resp) eqn:E, (is_exit h' (map_device m)); cbn;
    by rewrite combine_success, Hok, E.
Qed.

Lemma write_device_history sp v wr wrs m aws ws bs bytes hist :
  view_wf sp v -> writes_ok v -> v_writes v = wr :: wrs -> wt_data_complete wr = true ->
  rt_exclusive (wt_route wr) = false ->
  history (rt_port (wt_route wr)) aws ws bs bytes hist v ->
  exists hist', history (rt_port (wt_route wr)) aws ws bs
    (bytes ++ (commit_access wr m (v_heap v) ≫= wrote (rt_port (wt_route wr)))) hist'
    (let '(wr', v') := write_beat wr m v in advance wr' wrs v').
Proof.
  intros Hv [Hok Hu] Hw Hc Hx Hh. rewrite Hw in Hok, Hu. apply Forall_cons in Hok as [Hok _].
  destruct (front_write sp v wr wrs Hv Hw) as (Hwr & Hp & _). rewrite <- (vw_length sp v Hv) in Hp.
  pose proof (ww_static _ _ Hwr) as Hst. pose proof (ww_beat _ _ Hwr) as Hb. rewrite Hc in Hb.
  pose proof (ww_commit _ _ Hwr) as Hi.
  pose proof (commit_extends wr m v sp _ Hwr Hc eq_refl) as Hext.
  destruct (write_beat_result wr m v sp _ Hok Hwr eq_refl) as [Hresp Hcommit].
  destruct (write_impl _ _ _ _ _) as [resp h']. cbn [fst] in *.
  pose proof (write_beat_route wr m v) as (Er & _ & Ed & Es & _).
  pose proof (write_beat_ports wr m v) as [Ep _].
  destruct (write_beat wr m v) as [wr' v']. cbn [fst snd] in *.
  assert (staged_beats wr' = staged_beats wr) as Esb by (unfold staged_beats, staged_beat; by rewrite Er, Ed, Es).
  unfold advance. rewrite Er, Hcommit.
  assert (ap_lock (rt_payload (wt_route wr)) = false) as Hlock by (by rewrite <- (rs_lock _ _ Hst)).
  destruct (Nat.eqb_spec (if response_is_success resp then S (wt_commit_beat wr)
                          else burst_beats (rt_payload (wt_route wr)))
              (burst_beats (rt_payload (wt_route wr)))) as [He|He].
  - eexists. eapply (history_complete _ v); try done. constructor; cbn [br_beats br_payload br_written br_response].
    + unfold staged_beats. by rewrite length_fmap, length_seq.
    + unfold acknowledged. rewrite Hlock, Hresp. by destruct (response_is_success resp).
    + by rewrite Hlock.
  - exists hist. eapply (history_front _ v wr wrs); try done.
    unfold committed at 1. rewrite Er, Esb, Hcommit.
    destruct (response_is_success resp); [by symmetry | done].
Qed.

Lemma rejected_history sp v wr wrs aws ws bs bytes hist :
  let wr' := wr <| wt_response ::= fun x => combine_response x (rt_forced_response (wt_route wr)) |> in
  view_wf sp v -> writes_ok v -> v_writes v = wr :: wrs -> wt_data_complete wr = true ->
  rt_exclusive (wt_route wr) = false -> served (wt_route wr) = None ->
  history (rt_port (wt_route wr)) aws ws bs bytes hist v ->
  exists hist', history (rt_port (wt_route wr)) aws ws bs (bytes ++ []) hist' (complete wr' wrs v).
Proof.
  intros wr' Hv [Hok Hu] Hw Hc Hx Hm Hh. rewrite Hw in Hok, Hu. apply Forall_cons in Hok as [[Hok Hcm] _].
  destruct (front_write sp v wr wrs Hv Hw) as (Hwr & Hp & _). rewrite <- (vw_length sp v Hv) in Hp.
  pose proof (ww_static _ _ Hwr) as Hst. pose proof (ww_beat _ _ Hwr) as Hb. rewrite Hc in Hb.
  assert (wt_commit_beat wr = 0%nat) as H0.
  { destruct Hcm as [?|(_ & _ & Hs)]; [done|]. rewrite Hm in Hs. by destruct Hs. }
  eexists. eapply (history_complete _ v wr wrs Hw eq_refl Hu aws ws bs bytes hist wr' v [] 0); try done.
  - unfold committed. by rewrite H0.
  - constructor; cbn [br_beats br_payload br_written br_response].
    + unfold staged_beats. by rewrite length_fmap, length_seq.
    + unfold acknowledged. rewrite <- (rs_lock _ _ Hst), Hx. unfold wr'. cbn.
      rewrite combine_success, (unserved_fails sp _ Hst Hm), andb_false_r.
      pose proof (ww_commit _ _ Hwr). lia.
    + rewrite <- (rs_lock _ _ Hst), Hx. done.
Qed.

(** EXOKAY is the answer exactly to the exclusive writes that are performed. *)
Lemma exclusive_response wr v sp :
  route_static sp (wt_route wr) ->
  bool_decide (wt_response (write_exclusive wr v).1 = ExclusiveOkay) = exclusive_succeeds wr v.
Proof.
  intros Hst. pose proof (rs_forced _ _ Hst) as Hf.
  unfold write_exclusive, exclusive_succeeds, reserved. destruct (served _) as [m|]; [|by apply bool_decide_eq_false_2].
  destruct (monitor_of _ _ _) as [mon|]; [|done]. destruct (bool_decide (mon_payload mon = _)); [|done].
  destruct (write_impl _ _ _ _ _) as [resp h']. cbn. by destruct resp.
Qed.

Lemma exclusive_history sp v wr wrs aws ws bs bytes hist :
  view_wf sp v -> writes_ok v -> v_writes v = wr :: wrs -> wt_data_complete wr = true ->
  rt_exclusive (wt_route wr) = true ->
  history (rt_port (wt_route wr)) aws ws bs bytes hist v ->
  exists hist', history (rt_port (wt_route wr)) aws ws bs
    (bytes ++ (exclusive_access wr v ≫= wrote (rt_port (wt_route wr)))) hist'
    (let '(wr', v') := write_exclusive wr v in complete wr' wrs v').
Proof.
  intros Hv [Hok Hu] Hw Hc Hx Hh. rewrite Hw in Hok, Hu. apply Forall_cons in Hok as [[Hok Hcm] _].
  destruct (front_write sp v wr wrs Hv Hw) as (Hwr & Hp & _). rewrite <- (vw_length sp v Hv) in Hp.
  pose proof (ww_static _ _ Hwr) as Hst. pose proof (ww_beat _ _ Hwr) as Hb. rewrite Hc in Hb.
  pose proof (ww_commit _ _ Hwr) as Hi.
  assert (wt_commit_beat wr = 0%nat) as H0 by (destruct Hcm as [?|(_ & E & _)]; congruence).
  pose proof (exclusive_response wr v sp Hst) as Hresp. pose proof (write_exclusive_ports wr v) as [Ep Er].
  destruct (write_exclusive wr v) as [wr' v']. cbn [fst snd] in *.
  eexists. eapply (history_complete _ v wr wrs Hw eq_refl Hu aws ws bs bytes hist wr' v' _
    (if exclusive_succeeds wr v then burst_beats (rt_payload (wt_route wr)) else 0%nat)); try done.
  - unfold committed. rewrite H0. unfold exclusive_access. destruct (exclusive_succeeds wr v); [|done].
    cbn [mbind list_bind wrote burst_write seq app]. rewrite decide_True, app_nil_r by done.
    by apply (exclusive_writes wr sp).
  - constructor; cbn [br_beats br_payload br_written br_response].
    + unfold staged_beats. by rewrite length_fmap, length_seq.
    + unfold acknowledged. rewrite <- (rs_lock _ _ Hst), Hx, Hresp. destruct (exclusive_succeeds wr v); [done | lia].
    + intros _. destruct (exclusive_succeeds wr v); auto.
Qed.

Lemma grant_aw_history sp v p rest r port aws ws bs bytes hist :
  (port < length (v_ports v))%nat -> q_aw (pv v port) = p :: rest -> fresh_route sp (v_heap v) port p r ->
  history port aws ws bs bytes hist v ->
  history port aws ws bs bytes hist
    (on_pv port (fun q => q <| q_aw := rest |>) (v <| v_writes ::= fun l => l ++ [new_write r] |>)).
Proof.
  intros Hp Hq [_ Hrp Hrpl Hrb _] [Haw Hws Hb Hby Hd].
  assert (writes_of port (v_writes v ++ [new_write r]) = writes_of port (v_writes v) ++ [new_write r]) as E.
  { unfold writes_of. rewrite filter_app. f_equal. fold (writes_of port [new_write r]).
    rewrite writes_of_cons. simpl. by rewrite decide_True. }
  destruct (untouched_nothing (new_write r)) as [E1 E2]; [done|].
  constructor; rewrite ?pv_on_pv_eq by done; cbn [q_aw q_w q_b];
    change (pv (v <| v_writes ::= fun l => l ++ [new_write r] |>)) with (pv v); simpl v_writes;
    rewrite ?E, ?fmap_app, ?bind_app; cbn [fmap list_fmap mbind list_bind]; rewrite ?E1, ?E2, ?app_nil_r; try done.
  - rewrite Haw, Hq, <- app_assoc. simpl. by rewrite Hrpl.
  - rewrite <- fmap_app. exact Hb.
Qed.

Lemma stage_history sp v wr wrs w rest port aws ws bs bytes hist :
  view_wf sp v -> writes_ok v -> v_writes v = wr :: wrs -> rt_port (wt_route wr) = port ->
  wt_data_complete wr = false -> q_w (pv v port) = w :: rest ->
  wd_last w = (S (rt_beat (wt_route wr)) =? burst_beats (rt_payload (wt_route wr)))%nat ->
  history port aws ws bs bytes hist v ->
  history port aws ws bs bytes hist
    (on_pv port (fun q => q <| q_w := rest |>) (v <| v_writes := stage wr w :: wrs |>)).
Proof.
  intros Hv [Hok Hu] Hw Hport Hinc Hq Hlast [Haw Hws Hb Hby Hd]. rewrite Hw in Hok, Hu.
  apply Forall_cons in Hok as [Hok _].
  destruct (front_write sp v wr wrs Hv Hw) as (Hwr & Hp & _). rewrite <- (vw_length sp v Hv), Hport in Hp.
  destruct (untouched_routes port wrs Hu) as [Es Ec].
  pose proof (committed_stage wr w (route_incomplete wr Hok Hinc)) as Ecm. rewrite app_nil_r in Ecm.
  rewrite Hw, writes_of_cons, decide_True in * by done. cbn [fmap list_fmap mbind list_bind] in *.
  constructor; rewrite ?pv_on_pv_eq by done; cbn [q_aw q_w q_b];
    change (pv (v <| v_writes := stage wr w :: wrs |>)) with (pv v); simpl v_writes;
    rewrite ?writes_of_cons, ?decide_True by done; cbn [fmap list_fmap mbind list_bind]; try done.
  - rewrite (stage_staged wr w sp) by done. rewrite Hws, Hq, Es, !app_nil_r, <- !app_assoc. done.
  - by rewrite Ecm.
Qed.

Lemma step_history sp v e v' port aws ws bs bytes hist :
  view_wf sp v -> writes_ok v -> step sp v e v' -> (port < NumPorts)%nat ->
  history port aws ws bs bytes hist v ->
  exists hist', history port (aws ++ aw_accepted port e) (ws ++ w_accepted port e)
    (bs ++ b_received port e) (bytes ++ (accesses v e ≫= wrote port)) hist' v'.
Proof.
  intros Hv Hok Hst Hport Hh. destruct (decide (event_port e = port)) as [He|He].
  2:{ exists hist. destruct (step_other_accesses sp v e v' port Hst He) as [-> _].
      destruct (step_other_routes sp v e v' port Hst He) as [_ Hr].
      destruct (other_traffic e port He) as (-> & -> & _ & -> & _). rewrite !app_nil_r.
      pose proof (step_other_port sp v e v' port Hst He) as E.
      eapply history_same; [| | | | exact Hh]; by rewrite ?E. }
  rewrite <- (vw_length sp v Hv) in Hport.
  destruct Hst as [v port' p Hp Hr Hl|v port' w Hp Hr Hl|v port' p Hp Hr Hl|v port' b rest Hp Hq
    |v port' b rest Hp Hq|v port' p rest r Hp Hq Hl Hr|v port' p rest r Hp Hq Hl Hr
    |v wr wrs w rest r Hw Hinc Hq Hlast Hstr|v wr wrs m r Hw Hc Hx Hm Hl|v wr wrs r Hw Hc Hx Hm Hl
    |v wr wrs r Hw Hc Hx Hl|v r rs ms Hr Hl Hms]; cbn [event_port] in He; try subst port';
    cbn [aw_accepted w_accepted b_received]; rewrite ?(decide_True _ _ eq_refl), ?app_nil_r;
    try (rewrite accesses_quiet by done; rewrite app_nil_r).
  - exists hist. destruct Hh as [Haw Hws Hb Hby Hd].
    constructor; rewrite ?pv_on_pv_eq by done; cbn [q_aw q_w q_b]; try done.
    subst aws. by rewrite <- !app_assoc.
  - exists hist. destruct Hh as [Haw Hws Hb Hby Hd].
    constructor; rewrite ?pv_on_pv_eq by done; cbn [q_aw q_w q_b]; try done.
    subst ws. by rewrite <- !app_assoc.
  - exists hist. eapply history_same; [| | | | exact Hh]; by rewrite ?(pv_on_pv_proj q_aw), ?(pv_on_pv_proj q_w), ?(pv_on_pv_proj q_b).
  - exists hist. destruct Hh as [Haw Hws Hb Hby Hd]. rewrite Hq in Hb.
    constructor; rewrite ?pv_on_pv_eq by done; cbn [q_aw q_w q_b]; try done.
    by rewrite <- app_assoc.
  - exists hist. eapply history_same; [| | | | exact Hh]; by rewrite ?(pv_on_pv_proj q_aw), ?(pv_on_pv_proj q_w), ?(pv_on_pv_proj q_b).
  - exists hist. by apply (grant_aw_history sp _ p).
  - exists hist. eapply history_same; [| | | | exact Hh]; by rewrite ?(pv_on_pv_proj q_aw), ?(pv_on_pv_proj q_w), ?(pv_on_pv_proj q_b).
  - exists hist. subst r port. by apply (stage_history sp).
  - simpl accesses. rewrite Hw. subst r port. rewrite Hm. by apply (write_device_history sp v wr wrs m aws ws bs bytes hist).
  - subst r port. rewrite <- (app_nil_r bytes). by apply (rejected_history sp v wr wrs aws ws bs bytes hist).
  - simpl accesses. rewrite Hw. subst r port. by apply (exclusive_history sp v wr wrs aws ws bs bytes hist).
  - exists hist. assert (accesses v (ReadBeat (rt_port r)) ≫= wrote port = []) as ->
      by (simpl; rewrite Hr; by destruct (v_writes v)).
    rewrite app_nil_r. destruct (read_beat r (v_heap v)). eapply history_same; [| | | | exact Hh];
      by rewrite ?(pv_on_pv_proj q_aw), ?(pv_on_pv_proj q_w), ?(pv_on_pv_proj q_b).
Qed.

(** ** Runs *)
Record port_reads (port : nat) (es : list event) (log : list access) v v' : Prop := {
  tr_fetched : reads_due v port ++ ((es ≫= ar_accepted port) ≫= beats_of)
               = (fst <$> (log ≫= fetched port)) ++ reads_due v' port;
  tr_received : q_r (pv v port) ++ (snd <$> (log ≫= fetched port))
                = (es ≫= r_received port) ++ q_r (pv v' port)
}.

Context `{!LoadableLaws H}.

Lemma traced_reads sp v es log v' port :
  view_wf sp v -> traced sp v es log v' -> port_reads port es log v v'.
Proof.
  intros Hv Ht. induction Ht as [v|v h es log v' _ _ IH|v e v1 es log v2 Hst _ IH].
  { constructor; simpl; by rewrite ?app_nil_r. }
  { destruct (IH (view_heap_wf sp v h Hv)) as [H1 H2]. by constructor. }
  destruct (IH (step_wf sp v e v1 Hv Hst)) as [H1 H2]. destruct (step_reads sp v e v1 port Hv Hst) as [E1 E2].
  constructor; rewrite ?bind_app, ?fmap_app; cbn [mbind list_bind].
  - rewrite bind_app, app_assoc, E1, <- !app_assoc. by f_equal.
  - rewrite app_assoc, E2, <- !app_assoc. by f_equal.
Qed.

Lemma traced_history sp v es log v' port aws ws bs bytes hist :
  view_wf sp v -> writes_ok v -> traced sp v es log v' -> (port < NumPorts)%nat ->
  history port aws ws bs bytes hist v ->
  exists hist', history port (aws ++ (es ≫= aw_accepted port)) (ws ++ (es ≫= w_accepted port))
    (bs ++ (es ≫= b_received port)) (bytes ++ (log ≫= wrote port)) hist' v'.
Proof.
  intros Hv Hok Ht Hport. revert aws ws bs bytes hist.
  induction Ht as [v|v h es log v' _ _ IH|v e v1 es log v2 Hst _ IH]; intros aws ws bs bytes hist Hh.
  { exists hist. simpl. by rewrite !app_nil_r. }
  { apply (IH (view_heap_wf sp v h Hv) Hok aws ws bs bytes hist). by destruct Hh. }
  destruct (step_history sp v e v1 port aws ws bs bytes hist Hv Hok Hst Hport Hh) as [hist1 Hh1].
  destruct (IH (step_wf sp v e v1 Hv Hst) (step_writes_ok sp v e v1 Hok Hst) _ _ _ _ _ Hh1) as [hist' Hh'].
  exists hist'. rewrite bind_app. cbn [mbind list_bind]. by rewrite !app_assoc.
Qed.

Lemma idle_history f port :
  (port < NumPorts)%nat -> fabric_wf f -> idle f = true ->
  writes_ok (view f) /\ history port [] [] [] [] [] (view f) /\
  reads_due (view f) port = [] /\ q_r (pv (view f) port) = [].
Proof.
  intros Hp Hf (Hr & Hw & Hall)%idle_spec.
  assert (pv (view f) port = empty_port) as Hpv.
  { symmetry. apply (Forall_lookup_1 _ _ port _ Hall). apply lookup_total_lt.
    by rewrite (vw_length _ _ (fw_view f Hf)). }
  unfold writes_ok, reads_due. rewrite Hw, Hr, Hpv. split_and!; try done.
  constructor; rewrite ?Hw, ?Hpv; done.
Qed.
End Traffic.

Section Memory.
Context {cfg : FabricConfig} `{!FabricConfigOk cfg} {H : Type} `{!DeviceHeap H, !DeviceHeapLaws H}.
Context `{!LoadableLaws H, !MemoryLaws H}.
Implicit Types (f : Fabric H).

(** The fabric is a shared memory.  The device accesses of a run that starts
    idle form one log, in which the ports' traffic is interleaved.  The
    memories end with the contents the log leaves in a plain byte store, and
    every read beat has the bytes this store holds at its place in the log.  Per
    port, the R beats are, in order, those fetched for its AR bursts, and
    the bytes written are those its bursts of AW and W send: of each answered
    burst a prefix of its beats, and all of them if the response acknowledges
    it. *)
Theorem fabric_is_a_shared_memory duts f seen f' :
  fabric_wf f -> idle f = true -> Forall dut_wf duts -> run duts f = (Ok seen, f') ->
  let sp := address_space_ f in
  exists log,
    consistent sp (memory sp (f_heap f)) log /\
    (forall x, memory sp (f_heap f') x = replay sp (memory sp (f_heap f)) log x) /\
    forall port, (port < NumPorts)%nat ->
      (seen ≫= ar_accepted port) ≫= beats_of
        = (fst <$> (log ≫= fetched port)) ++ reads_due (view f') port /\
      snd <$> (log ≫= fetched port) = (seen ≫= r_received port) ++ q_r (pv (view f') port) /\
      exists hist, history port (seen ≫= aw_accepted port) (seen ≫= w_accepted port)
                     (seen ≫= b_received port) (log ≫= wrote port) hist (view f').
Proof.
  intros Hf Hidle Hd Hrun sp. destruct (run_spec duts f seen f' Hf Hd Hrun) as (_ & _ & es & Hst & <-).
  pose proof (fw_view f Hf) as Hv. destruct (steps_traced sp _ _ _ Hst) as [log Ht]. exists log.
  destruct (traced_agrees sp (fw_space f Hf) _ _ _ _ Hv Ht) as [Hc Hm]. split; [exact Hc|]. split; [exact Hm|].
  intros port Hp. destruct (idle_history f port Hp Hf Hidle) as (Hok & Hh & Hdue & Hq).
  destruct (traced_reads sp _ _ _ _ port Hv Ht) as [H1 H2]. rewrite Hdue in H1. rewrite Hq in H2.
  destruct (traced_history sp _ _ _ _ port _ _ _ _ _ Hv Hok Ht Hp Hh) as [hist Hh'].
  rewrite !observed_bind by (by intros []). split; [exact H1|]. split; [exact H2|]. by exists hist.
Qed.
End Memory.

(** The traffic of FabricExamples.v: port 0 reads back what port 1 wrote. *)
Lemma example_idle : idle example_fabric = true.
Proof. by vm_compute. Qed.

Lemma fabric_is_a_shared_memory_witness :
  exists log,
    consistent example_space (memory example_space example_heap) log /\
    replay example_space (memory example_space example_heap) log 0x1004 = Some 1 /\
    rd_data <$> (snd <$> (log ≫= fetched 0)) = [[0; 0; 0; 0]; [1; 2; 3; 4]; [5; 6; 7; 8]; [0; 0; 0; 0]].
Proof.
  destruct (fabric_is_a_shared_memory (drives <$> traffic) example_fabric seen_traffic (tested traffic).2
    example_fabric_wf example_idle (tests_wf traffic eq_refl) (tested_ok traffic _ traffic_ok))
    as (log & Hc & Hm & Hports).
  exists log. split; [exact Hc|]. split.
  - transitivity (memory example_space (f_heap (tested traffic).2) 0x1004); [symmetry; apply Hm | by vm_compute].
  - destruct (Hports 0%nat port0) as (_ & Hr & _). rewrite Hr. vm_compute. reflexivity.
Defined.
