(* ===== verification/FabricImage.v ===== *)
(** * The design reads the image

    The image loader and the fabric composed: as long as a design only reads,
    every byte it is given from the range of a loaded segment is the byte of
    the image. *)
From S2P Require Import Prelude RingBuffer Axi Device Memory Uart Interrupts Heap Elf ElfPlan.
From S2P Require Import Fabric FabricSpec FabricPorts FabricInv FabricCommit FabricTheorems FabricRuns.
From S2P Require Import FabricMemory FabricTraffic FabricExamples.

Section Image.
Context {cfg : FabricConfig} `{!FabricConfigOk cfg} {H : Type} `{!DeviceHeap H, !DeviceHeapLaws H}.
Context `{!LoadableLaws H, !MemoryLaws H}.
Implicit Types (h : H) (v : View H) (sp : AddressSpace) (f : Fabric H) (c : Chunk).

(** ** Designs that only read *)
Definition is_aw (e : event) : bool := match e with AcceptAW _ _ => true | _ => false end.
Definition is_fetch (a : access) : bool := match a with Fetched _ _ _ _ => true | _ => false end.
Definition write_free v : Prop := v_writes v = [] /\ forall port, q_aw (pv v port) = [].

Lemma step_write_free sp v e v' :
  view_wf sp v -> write_free v -> step sp v e v' -> is_aw e = false ->
  write_free v' /\ Forall (fun a => is_fetch a = true) (accesses v e).
Proof.
  intros Hv [Hw Hq] Hst. pose proof (vw_length sp v Hv) as Hlen.
  destruct Hst as [| | | | |v port' p rest r Hp Hqa Hl Hr| |v wr ws w rest r Hw' Hinc Hqw Hlast Hstr
    |v wr ws m r Hw' Hc Hx Hm Hl|v wr ws r Hw' Hc Hx Hm Hl|v wr ws r Hw' Hc Hx Hl|v r rs ms Hr Hl Hms];
    intros He; try discriminate He; try (rewrite Hq in Hqa; discriminate Hqa);
    try (rewrite Hw in Hw'; discriminate Hw');
    try (split; [|rewrite accesses_quiet by done; constructor]; split; [exact Hw|]; intros q;
         rewrite (pv_on_pv_proj q_aw) by done; apply Hq).
  unfold accesses. rewrite Hr. split; [|by repeat constructor]. destruct (read_beat r (v_heap v)).
  split; [exact Hw|]. intros q.
  rewrite (pv_on_pv_proj q_aw) by done. apply Hq.
Qed.

Lemma traced_write_free sp v es log v' :
  view_wf sp v -> write_free v -> traced sp v es log v' -> Forall (fun e => is_aw e = false) es ->
  Forall (fun a => is_fetch a = true) log.
Proof.
  intros Hv Hf Ht. induction Ht as [v|v h es log v' _ _ IH|v e v1 es log v2 Hst _ IH]; [by constructor| |].
  { apply (IH (view_heap_wf sp v h Hv) Hf). }
  intros [He Hes]%Forall_cons. destruct (step_write_free sp v e v1 Hv Hf Hst He) as [Hf1 Ha].
  apply Forall_app_2; [done|]. apply IH; [by eapply step_wf | done..].
Qed.

Lemma fetches_agree sp mem log port p i beat :
  Forall (fun a => is_fetch a = true) log -> consistent sp mem log ->
  Fetched port p i beat ∈ log -> beat_agrees mem p i beat.
Proof.
  intros Hf Hc Hin. induction Hf as [|a log Ha _ IH]; [by apply elem_of_nil in Hin|].
  destruct a as [port' bytes|port' p' i' beat']; [done|]. destruct Hc as [Hb Hc].
  apply elem_of_cons in Hin as [[= -> -> -> ->]|Hin]; [done | by apply IH].
Qed.

Lemma elem_of_fetched port (log : list access) p i beat :
  (p, i, beat) ∈ log ≫= fetched port -> Fetched port p i beat ∈ log.
Proof.
  rewrite list_elem_of_bind. intros (a & Ha & Hin). destruct a as [port' bytes|port' p' i' beat']; simpl in Ha.
  { by apply elem_of_nil in Ha. }
  destruct (decide (port' = port)) as [->|]; [|by apply elem_of_nil in Ha].
  by apply list_elem_of_singleton in Ha as [= -> -> ->].
Qed.

(** ** What the memory holds after loading *)
Lemma loaded_memory sp chunks h u h' c j :
  space_wf sp -> Forall chunk_wf chunks -> apply sp chunks h = (Ok u, h') ->
  c ∈ chunks -> (j < length (chunk_bytes c))%nat ->
  memory sp h' (load_address (chunk_segment c) + Z.of_nat j) = Some (chunk_bytes c !!! j).
Proof.
  intros Hsp Hw Ha Hc Hj. destruct (apply_loads sp Hsp chunks h u h' Hw Ha) as ([Ht _] & Hlen & Hbytes & _).
  rewrite Forall_forall in Ht, Hw. destruct (Ht c Hc) as [m Hm]. pose proof (Hw c Hc) as Hcw.
  pose proof (chunk_bytes_length c Hcw) as Hl. destruct Hcw as [Hseg _].
  pose proof Hm as (Hin & Hpos & Hwin & _ & Hfit). unfold memory.
  rewrite (locate_in sp Hsp m _ _ _ Hin Hwin) by lia. cbn. pose proof (Hbytes c m j Hc Hm Hj) as Hb.
  unfold target_offset in *. destruct Hwin as [Hbase _].
  replace (Z.to_nat (load_address (chunk_segment c) - map_base m + Z.of_nat j))
    with (Z.to_nat (load_address (chunk_segment c) - map_base m) + j)%nat by lia.
  rewrite <- Hb. apply lookup_total_lt. rewrite Hlen. lia.
Qed.

Lemma idle_write_free f : fabric_wf f -> idle f = true -> write_free (view f).
Proof.
  intros Hf (_ & Hw & Hall)%idle_spec. split; [done|]. intros port. unfold pv.
  destruct (decide (port < length (v_ports (view f)))%nat) as [Hp|Hp].
  - apply lookup_total_lt in Hp. rewrite <- (Forall_lookup_1 _ _ port _ Hall Hp). done.
  - rewrite list_lookup_total_alt, lookup_ge_None_2 by lia. done.
Qed.

(** The beats a port receives agree with the memory the run starts with, as long
    as no port requests a write. *)
Lemma beats_agree sp v es log v' port n p i beat :
  space_wf sp -> view_wf sp v -> write_free v -> reads_due v port = [] -> q_r (pv v port) = [] ->
  traced sp v es log v' -> Forall (fun e => is_aw e = false) es ->
  ((es ≫= ar_accepted port) ≫= beats_of) !! n = Some (p, i) ->
  (es ≫= r_received port) !! n = Some beat ->
  beat_agrees (memory sp (v_heap v)) p i beat.
Proof.
  intros Hsp Hv Hf Hdue Hq Ht Haw Hn Hr.
  destruct (traced_agrees sp Hsp _ _ _ _ Hv Ht) as [Hcons _].
  pose proof (traced_write_free _ _ _ _ _ Hv Hf Ht Haw) as Hfetch.
  destruct (traced_reads _ _ _ _ _ port Hv Ht) as [H1 H2]. rewrite Hdue, app_nil_l in H1.
  rewrite Hq, app_nil_l in H2. rewrite H1 in Hn.
  assert ((snd <$> (log ≫= fetched port)) !! n = Some beat) as Hs
    by (rewrite H2; by apply lookup_app_l_Some).
  rewrite list_lookup_fmap in Hs. apply fmap_Some in Hs as ([[p' i'] b'] & Hl & ->).
  rewrite lookup_app_l in Hn by (rewrite length_fmap; by eapply lookup_lt_Some).
  rewrite list_lookup_fmap, Hl in Hn. cbn in Hn. injection Hn as -> ->.
  pose proof (elem_of_fetched port log p i _ (list_elem_of_lookup_2 _ _ _ Hl)) as Hin.
  by apply (fetches_agree _ _ log port p i _ Hfetch Hcons Hin).
Qed.

(** A design that only reads is given the image.  After [apply] has loaded a
    plan, and as long as no port requests a write, every R beat that is not an
    error has, on the lane of each byte that lies in a loaded segment, the
    byte of the image (the file's, or zero in the BSS), whatever the ports,
    the burst types and the stalls. *)
Theorem loaded_image_is_read chunks h u f duts seen f' port :
  fabric_wf f -> idle f = true -> Forall chunk_wf chunks ->
  apply (address_space_ f) chunks h = (Ok u, f_heap f) ->
  Forall dut_wf duts -> run duts f = (Ok seen, f') -> (port < NumPorts)%nat ->
  Forall (fun e => is_aw e = false) seen ->
  forall n p i beat,
    ((seen ≫= ar_accepted port) ≫= beats_of) !! n = Some (p, i) ->
    (seen ≫= r_received port) !! n = Some beat ->
    response_is_success (rd_response beat) = true ->
    forall c j k, c ∈ chunks -> (j < length (chunk_bytes c))%nat -> (k < beat_count p i)%nat ->
      beat_at p i + Z.of_nat k = load_address (chunk_segment c) + Z.of_nat j ->
      rd_data beat !!! (beat_first p i + k)%nat = chunk_bytes c !!! j.
Proof.
  intros Hf Hidle Hw Ha Hd Hrun Hp Haw n p i beat Hn Hr Hok c j k Hc Hj Hk Hx.
  destruct (run_spec duts f seen f' Hf Hd Hrun) as (_ & _ & es & Hst & He).
  pose proof (fw_view f Hf) as Hv. destruct (steps_traced _ _ _ _ Hst) as [log Ht].
  destruct (idle_history f port Hp Hf Hidle) as (_ & _ & Hdue & Hq).
  rewrite <- He, (observed_bind (ar_accepted port)) in Hn by (by intros []).
  rewrite <- He, (observed_bind (r_received port)) in Hr by (by intros []).
  assert (Forall (fun e => is_aw e = false) es) as Haw'.
  { rewrite Forall_forall in Haw |- *. intros e Hin. destruct (is_aw e) eqn:E; [|done].
    rewrite <- E. apply Haw. rewrite <- He. apply elem_of_filter_bool. split; [by destruct e | done]. }
  apply (beats_agree _ _ es log _ port n p i beat (fw_space f Hf) Hv (idle_write_free f Hf Hidle) Hdue Hq Ht
    Haw' Hn Hr Hok k); [done|].
  rewrite Hx. by apply (loaded_memory _ chunks h u _ _ _ (fw_space f Hf)).
Qed.
End Image.

(** Six bytes and two zeros are loaded at 0x1008; port 1 then reads the three
    words around them. *)
Definition example_chunk : Chunk :=
  {| chunk_segment := {| virtual_address := 0x1008; physical_address := 0x1008; load_address := 0x1008;
                         file_size := 6; memory_size := 8; flags := 5 |};
     chunk_data := [11; 22; 33; 44; 55; 66] |}.
Definition booted_fabric : Fabric ExampleHeap :=
  fabric_init (apply example_space [example_chunk] example_heap).2 example_space true.
Definition fetches : list (list MasterSignals) :=
  [quiet; master None None (Some (request 3 0x1004 2 false))]
    :: replicate 8 [quiet; quiet].
Definition booted : result (list event) * Fabric ExampleHeap := run (drives <$> fetches) booted_fabric.
Definition seen_fetches : list event := match booted.1 with Ok seen => seen | Throw _ => [] end.

Lemma booted_ok : run (drives <$> fetches) booted_fabric = (Ok seen_fetches, booted.2).
Proof.
  assert (booted.1 = Ok seen_fetches) as E by (vm_compute; reflexivity).
  revert E. unfold booted. destruct (run _ _) as [r f]. cbn [fst snd]. by intros ->.
Qed.

Lemma loaded_image_is_read_witness :
  exists beat, (seen_fetches ≫= r_received 1) !! 2%nat = Some beat /\
    rd_data beat !!! 0%nat = 55 /\ rd_data beat !!! 3%nat = 0.
Proof.
  pose proof (loaded_image_is_read [example_chunk] example_heap tt booted_fabric (drives <$> fetches)
    seen_fetches booted.2 1 (proj1 (fabric_init_wf _ _ _ example_space_wf)) ltac:(by vm_compute)
    ltac:(repeat constructor; cbn; lia) ltac:(by vm_compute) (tests_wf fetches eq_refl) booted_ok port1
    ltac:(apply Forall_forall; intros e He; vm_compute in He;
          repeat (apply elem_of_cons in He as [->|He]; [done|]); by apply elem_of_nil in He)
    2%nat (request 3 0x1004 2 false) 2%nat) as Hread.
  destruct ((seen_fetches ≫= r_received 1) !! 2%nat) as [beat|] eqn:E; [|by vm_compute in E].
  specialize (Hread beat ltac:(by vm_compute) eq_refl).
  assert (response_is_success (rd_response beat) = true) as Hok by (vm_compute in E; by injection E as <-).
  exists beat. split; [done|]. split.
  - apply (Hread Hok example_chunk 4%nat 0%nat); [by left | vm_compute; lia | vm_compute; lia | by vm_compute].
  - apply (Hread Hok example_chunk 7%nat 3%nat); [by left | vm_compute; lia | vm_compute; lia | by vm_compute].
Defined.
