(* ===== verification/Packed.v ===== *)
(** * Packed signals (src/packed.hpp)

    Bit fields of the C++ variables of a Verilated model: an unsigned integer
    of 8, 16, 32 or 64 bits, or an array of 32-bit words for wider signals.
    [sbit] is the abstract view of either representation, a string of bits;
    the operations are specified, and proved, against it. *)
From S2P Require Import Prelude.

Inductive Signal :=
| Scalar (bits value : Z)
| Words (words : list Z).

(** [signal[index]] outside the array is no behaviour of the program; the
    theorems show that fields of the signal never reach it. *)
Definition outside_array : exn := LogicError "array subscript outside the signal".

Definition word (signal : Signal) (index : Z) : result Z :=
  match signal with
  | Scalar bits value =>
      if bits <=? index * 32 then Ok 0 else Ok (u32 (Z.shiftr value (index * 32)))
  | Words words =>
      match words !! Z.to_nat index with
      | Some w => Ok (u32 w)
      | None => Throw outside_array
      end
  end.

(** The type [Unsigned]: no narrower than [unsigned]. *)
Definition unsigned_bits (bits : Z) : Z := if bits <? 32 then 32 else bits.

Definition set_word (index value : Z) : M Signal unit :=
  do signal := get in
  match signal with
  | Scalar bits current =>
      if bits <=? index * 32 then throw (OutOfRange "packed signal word index")
      else
        let w := unsigned_bits bits in
        let shift := index * 32 in
        let mask := wrap w (Z.shiftl UINT32_MAX shift) in
        let current := Z.lor (Z.land current (wrap w (Z.lnot mask))) (wrap w (Z.shiftl value shift)) in
        modify (fun _ => Scalar bits (wrap bits current))
  | Words words =>
      if (Z.to_nat index <? length words)%nat
      then modify (fun _ => Words (<[Z.to_nat index := value]> words))
      else throw outside_array
  end.

Definition bit (signal : Signal) (index : Z) : result bool :=
  try w := word signal (index / 32) in
  Ok (nz (Z.land (Z.shiftr w (index mod 32)) 1)).

Definition set_bit (index : Z) (value : bool) : M Signal unit :=
  let word_index := index / 32 in
  do signal := get in
  do current := lift (word signal word_index) in
  let mask := Z.shiftl 1 (index mod 32) in
  let current := if value then Z.lor current mask else Z.land current (u32 (Z.lnot mask)) in
  set_word word_index current.

(** The part of a field inside one word: the offset in the word, the number of
    bits and their mask. *)
Definition field_count (width copied offset : Z) : Z := Z.min (width - copied) (32 - offset).
Definition low_mask (count : Z) : Z := if count =? 32 then UINT32_MAX else Z.shiftl 1 count - 1.

Fixpoint read_loop (fuel : nat) (signal : Signal) (lsb width copied acc : Z) : result Z :=
  match fuel with
  | O => Ok acc
  | S fuel' =>
      if copied <? width then
        let source_bit := lsb + copied in
        let offset := source_bit mod 32 in
        let count := field_count width copied offset in
        try w := word signal (source_bit / 32) in
        let part := Z.land (Z.shiftr w offset) (low_mask count) in
        read_loop fuel' signal lsb width (copied + count) (Z.lor acc (u64 (Z.shiftl part copied)))
      else Ok acc
  end.

(** Every round copies at least one bit. *)
Definition read_u64 (signal : Signal) (lsb width : Z) : result Z :=
  guard negb (64 <? width) else InvalidArgument "read_u64 width exceeds 64 bits" in
  read_loop (Z.to_nat width) signal lsb width 0 0.

Fixpoint write_loop (fuel : nat) (lsb width value copied : Z) : M Signal unit :=
  match fuel with
  | O => ret tt
  | S fuel' =>
      if copied <? width then
        let destination_bit := lsb + copied in
        let offset := destination_bit mod 32 in
        let count := field_count width copied offset in
        let mask := u32 (Z.shiftl (low_mask count) offset) in
        do signal := get in
        do current := lift (word signal (destination_bit / 32)) in
        let current := Z.lor (Z.land current (u32 (Z.lnot mask)))
                             (Z.land (u32 (Z.shiftl (u32 (Z.shiftr value copied)) offset)) mask) in
        set_word (destination_bit / 32) current ;;;
        write_loop fuel' lsb width value (copied + count)
      else ret tt
  end.

Definition write_u64 (lsb width value : Z) : M Signal unit :=
  if 64 <? width then throw (InvalidArgument "write_u64 width exceeds 64 bits")
  else write_loop (Z.to_nat width) lsb width value 0.

Fixpoint read_bytes (size : nat) (signal : Signal) (lsb : Z) : result (list Z) :=
  match size with
  | O => Ok []
  | S size' =>
      try byte := read_u64 signal lsb 8 in
      try rest := read_bytes size' signal (lsb + 8) in
      Ok (u8 byte :: rest)
  end.

Fixpoint write_bytes (lsb : Z) (value : list Z) : M Signal unit :=
  match value with
  | [] => ret tt
  | byte :: rest => write_u64 lsb 8 byte ;;; write_bytes (lsb + 8) rest
  end.

(** ** Signals as strings of bits *)
Definition signal_bits (signal : Signal) : Z :=
  match signal with
  | Scalar bits _ => bits
  | Words words => 32 * Z.of_nat (length words)
  end.

Definition sbit (signal : Signal) (k : Z) : bool :=
  match signal with
  | Scalar _ value => Z.testbit value k
  | Words words => Z.testbit (words !!! Z.to_nat (k / 32)) (k mod 32)
  end.

Definition signal_wf (signal : Signal) : Prop :=
  match signal with
  | Scalar bits value => (bits = 8 \/ bits = 16 \/ bits = 32 \/ bits = 64) /\ fits bits value
  | Words words => Forall (fits 32) words
  end.

(** [s'] is a well-formed signal of the width of [s]. *)
Definition same_signal (s s' : Signal) : Prop := signal_wf s' /\ signal_bits s' = signal_bits s.

(** The value of a field. *)
Definition is_field (s : Signal) (lsb width r : Z) : Prop :=
  0 <= r /\ forall j, 0 <= j -> Z.testbit r j = (j <? width) && sbit s (lsb + j).

Lemma is_field_unique s lsb width r r' : is_field s lsb width r -> is_field s lsb width r' -> r = r'.
Proof.
  intros [_ H] [_ H']. apply Z.bits_inj'. intros j Hj. by rewrite H, H'.
Qed.

Lemma is_field_fits s lsb width r : 0 <= width -> is_field s lsb width r -> fits width r.
Proof.
  intros Hw [Hr Hb]. replace r with (r mod 2 ^ width) by
    (apply Z.bits_inj'; intros j Hj; rewrite Z.testbit_mod_pow2, !Hb by done;
     destruct (j <? width); [apply andb_true_l | done]).
  by apply wrap_fits.
Qed.

Lemma testbit_wrap w x k : 0 <= w -> Z.testbit (wrap w x) k = (k <? w) && Z.testbit x k.
Proof. apply Z.testbit_mod_pow2. Qed.

Lemma testbit_low_mask count j :
  0 <= count <= 32 -> 0 <= j -> Z.testbit (low_mask count) j = (j <? count).
Proof.
  intros Hc Hj. unfold low_mask.
  assert (Z.testbit (Z.ones count) j = (j <? count)) as Ho.
  { rewrite Z.testbit_ones_nonneg by lia. done. }
  destruct (Z.eqb_spec count 32) as [->|_]; [exact Ho|].
  rewrite Z.shiftl_1_l, Z.sub_1_r, <- Z.ones_equiv. exact Ho.
Qed.

Lemma fits_testbit w x k : fits w x -> w <= k -> Z.testbit x k = false.
Proof.
  intros Hx Hk. destruct (Z.lt_ge_cases k 0).
  { by apply Z.testbit_neg_r. }
  replace x with (wrap w x) by (by apply wrap_small). destruct (Z.lt_ge_cases w 0).
  { unfold fits in Hx. rewrite Z.pow_neg_r in Hx by done. lia. }
  rewrite testbit_wrap by done. by destruct (Z.ltb_spec k w); [lia|].
Qed.

(** Bitwise equality at a non-negative position: the tests become facts. *)
Ltac bit_cases :=
  repeat match goal with
         | |- context [Z.ltb ?a ?b] => destruct (Z.ltb_spec a b); cbn [andb orb negb]; try lia
         | |- context [Z.leb ?a ?b] => destruct (Z.leb_spec a b); cbn [andb orb negb]; try lia
         | |- context [Z.eqb ?a ?b] => destruct (Z.eqb_spec a b); cbn [andb orb negb]; try lia
         end.

(** ** Words *)
Lemma word_spec s i :
  signal_wf s -> 0 <= i -> 32 * i < signal_bits s ->
  exists w, word s i = Ok w /\ fits 32 w /\
    forall j, 0 <= j < 32 -> Z.testbit w j = sbit s (32 * i + j).
Proof.
  intros Hs Hi Hb. destruct s as [bits v|ws]; cbn in *.
  - destruct (Z.leb_spec bits (i * 32)); [lia|]. eexists. split; [done|].
    split; [by apply wrap_fits|]. intros j Hj. unfold u32. rewrite testbit_wrap by done.
    rewrite Z.shiftr_spec by lia. destruct (Z.ltb_spec j 32); [|lia]. cbn. f_equal. lia.
  - destruct (lookup_lt_is_Some_2 ws (Z.to_nat i)) as [w Hw]; [lia|]. rewrite Hw.
    pose proof (Forall_lookup_1 _ _ _ _ Hs Hw) as Hf. exists w. unfold u32.
    rewrite wrap_small by done. split_and!; try done. intros j Hj.
    rewrite (Z.mul_comm 32 i), Z.add_comm, Z.div_add, Z.mod_add, Z.div_small, Z.mod_small by lia.
    cbn [Z.add]. by rewrite (list_lookup_total_correct _ _ _ Hw).
Qed.

(** The bits of the word [i] become those of [v]; the others stay.  Bits past
    the end of a narrow signal are dropped. *)
Definition word_set (i v : Z) (s s' : Signal) : Prop :=
  same_signal s s' /\ forall k, 0 <= k < signal_bits s ->
    sbit s' k = if k / 32 =? i then Z.testbit v (k mod 32) else sbit s k.

Lemma scalar_set_bits bits current v shift k :
  let w := unsigned_bits bits in
  let mask := wrap w (Z.shiftl UINT32_MAX shift) in
  0 <= shift -> 0 <= k < bits -> fits 32 v ->
  Z.testbit (Z.lor (Z.land current (wrap w (Z.lnot mask))) (wrap w (Z.shiftl v shift))) k =
  if (shift <=? k) && (k <? shift + 32) then Z.testbit v (k - shift) else Z.testbit current k.
Proof.
  intros w mask Hs Hk Hv. assert (bits <= w) as Hw by (unfold w, unsigned_bits; bit_cases).
  assert (0 <= w) by lia. unfold mask.
  rewrite Z.lor_spec, Z.land_spec, !testbit_wrap, Z.lnot_spec, testbit_wrap, !Z.shiftl_spec by lia.
  destruct (Z.ltb_spec k w); [cbn [andb]|lia].
  change UINT32_MAX with (Z.ones 32).
  destruct (Z.leb_spec shift k) as [Hle|Hlt]; cbn [andb].
  - rewrite Z.testbit_ones_nonneg by lia.
    destruct (Z.ltb_spec (k - shift) 32), (Z.ltb_spec k (shift + 32)); try lia; cbn [negb].
    + by rewrite andb_false_r.
    + rewrite (fits_testbit 32 v) by (done || lia). by rewrite andb_true_r, orb_false_r.
  - assert (forall x, Z.testbit x (k - shift) = false) as Hn by (intros; apply Z.testbit_neg_r; lia).
    by rewrite !Hn, andb_true_r, orb_false_r.
Qed.

Lemma set_word_spec s i v :
  signal_wf s -> 0 <= i -> 32 * i < signal_bits s -> fits 32 v ->
  exists s', set_word i v s = (Ok tt, s') /\ word_set i v s s'.
Proof.
  intros Hs Hi Hb Hv. unfold set_word, bind, get. destruct s as [bits cur|ws]; cbn in Hb, Hs.
  - destruct (Z.leb_spec bits (i * 32)); [lia|]. eexists. split; [done|].
    assert (0 <= bits) by lia. split.
    { split; [|done]. split; [tauto | by apply wrap_fits]. }
    intros k Hk. cbn [sbit signal_bits] in *. rewrite testbit_wrap by done.
    destruct (Z.ltb_spec k bits); [|lia]. cbn [andb].
    rewrite scalar_set_bits by (done || lia).
    destruct (Z.leb_spec (i * 32) k), (Z.ltb_spec k (i * 32 + 32)), (Z.eqb_spec (k / 32) i);
      cbn [andb]; try done; try (exfalso; zdiv).
    f_equal. zdiv.
  - destruct (Nat.ltb_spec (Z.to_nat i) (length ws)) as [Hl|]; [|lia]. eexists. split; [done|].
    split.
    { split; cbn; [by apply Forall_insert | by rewrite length_insert]. }
    intros k Hk. cbn [sbit signal_bits] in *. destruct (Z.eqb_spec (k / 32) i) as [Heq|Hne].
    + by rewrite Heq, list_lookup_total_insert_eq.
    + rewrite list_lookup_total_insert_ne; [done|]. intros ?. apply Hne. zdiv.
Qed.

(** ** Fields *)

(** The part of a field that the next round handles. *)
Lemma field_step lsb width copied :
  0 <= lsb -> 0 <= copied < width ->
  let offset := (lsb + copied) mod 32 in
  let count := field_count width copied offset in
  0 <= offset < 32 /\ 0 < count <= 32 /\ copied + count <= width /\ offset + count <= 32 /\
  32 * ((lsb + copied) / 32) + offset = lsb + copied /\ 0 <= (lsb + copied) / 32.
Proof.
  intros Hl Hc offset count. pose proof (Z.mod_pos_bound (lsb + copied) 32 ltac:(lia)).
  pose proof (Z.div_mod (lsb + copied) 32 ltac:(lia)). fold offset in H, H0.
  assert (0 <= (lsb + copied) / 32) by (apply Z.div_pos; lia).
  unfold count, field_count. lia.
Qed.

Lemma read_loop_spec fuel s lsb width copied acc :
  signal_wf s -> 0 <= lsb -> lsb + width <= signal_bits s -> 0 <= copied <= width -> width <= 64 ->
  width - copied <= Z.of_nat fuel -> is_field s lsb copied acc ->
  exists r, read_loop fuel s lsb width copied acc = Ok r /\ is_field s lsb width r.
Proof.
  intros Hs Hl Hb. revert copied acc. induction fuel as [|fuel IH]; intros copied acc Hc Hw Hf Ha.
  { exists acc. replace width with copied by lia. done. }
  cbn [read_loop]. destruct (Z.ltb_spec copied width) as [Hlt|];
    [|exists acc; replace width with copied by lia; done].
  destruct (field_step lsb width copied) as (Ho & Hn & Hle & Hin & Heq & Hq); [lia..|].
  set (offset := (lsb + copied) mod 32) in *. set (count := field_count width copied offset) in *.
  destruct (word_spec s ((lsb + copied) / 32)) as (w & -> & Hwf & Hwb); [done | lia | lia|].
  cbn [rbind]. apply IH; [lia | done | lia|]. destruct Ha as [Ha0 Ha]. split.
  { apply Z.lor_nonneg. split; [done|]. apply u64_fits. }
  intros j Hj. rewrite Z.lor_spec, Ha by done. unfold u64. rewrite testbit_wrap, Z.shiftl_spec by lia.
  destruct (Z.lt_ge_cases j copied) as [Hlow|Hhigh].
  { rewrite Z.testbit_neg_r by lia. rewrite andb_false_r, orb_false_r. by bit_cases. }
  rewrite Z.land_spec, Z.shiftr_spec, testbit_low_mask by lia.
  destruct (Z.ltb_spec j copied); [lia|]. cbn [andb orb].
  destruct (Z.ltb_spec (j - copied) count).
  - rewrite Hwb by lia. bit_cases. rewrite andb_true_r. f_equal. lia.
  - rewrite !andb_false_r. by bit_cases.
Qed.

Lemma read_u64_spec s lsb width :
  signal_wf s -> 0 <= lsb -> 0 <= width <= 64 -> lsb + width <= signal_bits s ->
  exists r, read_u64 s lsb width = Ok r /\ is_field s lsb width r.
Proof.
  intros Hs Hl Hw Hb. unfold read_u64. destruct (Z.ltb_spec 64 width); [lia|]. cbn [negb].
  apply read_loop_spec; try done; try lia. split; [done|]. intros j Hj. rewrite Z.testbit_0_l.
  by bit_cases.
Qed.

(** The bits [lsb, lsb + width) become those of [f]; the others are those of [s]. *)
Definition region_set (lsb width : Z) (f : Z -> bool) (s s' : Signal) : Prop :=
  same_signal s s' /\ forall k, 0 <= k < signal_bits s ->
    sbit s' k = if (lsb <=? k) && (k <? lsb + width) then f (k - lsb) else sbit s k.

(** The field is [v]. *)
Definition field_set (lsb width v : Z) : Signal -> Signal -> Prop := region_set lsb width (Z.testbit v).

Lemma field_set_word s s1 s2 lsb width v copied w current :
  0 <= lsb -> 0 <= copied < width -> fits 32 w ->
  let offset := (lsb + copied) mod 32 in
  let count := field_count width copied offset in
  let mask := u32 (Z.shiftl (low_mask count) offset) in
  field_set lsb copied v s s1 ->
  (forall j, 0 <= j < 32 -> Z.testbit w j = sbit s1 (32 * ((lsb + copied) / 32) + j)) ->
  current = Z.lor (Z.land w (u32 (Z.lnot mask)))
                  (Z.land (u32 (Z.shiftl (u32 (Z.shiftr v copied)) offset)) mask) ->
  word_set ((lsb + copied) / 32) current s1 s2 ->
  field_set lsb (copied + count) v s s2.
Proof.
  intros Hl Hc Hwf offset count mask [[Hs1 Hb1] H1] Hwb -> [[Hs2 Hb2] H2].
  destruct (field_step lsb width copied) as (Ho & Hn & Hle & Hin & Heq & Hq); [lia..|].
  fold offset in Ho, Hn, Hle, Hin, Heq. fold count in Hn, Hle, Hin.
  split; [by split; [|congruence]|]. intros k Hk. rewrite H2 by lia. clear H2.
  assert (forall j, 0 <= j < 32 -> Z.testbit mask j = (offset <=? j) && (j <? offset + count)) as Hm.
  { intros j Hj. unfold mask, u32. rewrite testbit_wrap, Z.shiftl_spec by lia.
    destruct (Z.ltb_spec j 32); [cbn [andb]|lia]. destruct (Z.leb_spec offset j); cbn [andb].
    - rewrite testbit_low_mask by lia. by bit_cases.
    - by rewrite Z.testbit_neg_r by lia. }
  destruct (Z.eqb_spec (k / 32) ((lsb + copied) / 32)) as [Hw|Hw].
  - pose proof (Z.div_mod k 32 ltac:(lia)). pose proof (Z.mod_pos_bound k 32 ltac:(lia)).
    unfold u32. rewrite Z.lor_spec, !Z.land_spec, !testbit_wrap, Z.lnot_spec, Hm, Z.shiftl_spec by lia.
    destruct (Z.ltb_spec (k mod 32) 32); [cbn [andb]|lia].
    rewrite Hw in H. set (m := k mod 32) in *. set (q := (lsb + copied) / 32) in *.
    rewrite Hwb, H1 by lia. replace (32 * q + m) with k by lia.
    assert (k - lsb = m - offset + copied) as -> by lia.
    destruct (Z.leb_spec offset m); cbn [andb negb].
    + rewrite testbit_wrap, Z.shiftr_spec by lia.
      destruct (Z.ltb_spec m (offset + count)); cbn [andb negb];
        rewrite ?andb_false_r, ?andb_true_r, ?orb_false_r.
      * by bit_cases.
      * by bit_cases.
    + rewrite !andb_true_r, andb_false_r, orb_false_r. by bit_cases.
  - rewrite H1 by lia. bit_cases; try done. exfalso. apply Hw.
    symmetry. apply (Z.div_unique _ _ _ (k - 32 * ((lsb + copied) / 32))); lia.
Qed.

Lemma testbit_fits w x : 0 <= w -> (forall j, w <= j -> Z.testbit x j = false) -> fits w x.
Proof.
  intros Hw Hx. replace x with (wrap w x); [by apply wrap_fits|].
  apply Z.bits_inj'. intros j Hj. rewrite testbit_wrap by done.
  destruct (Z.ltb_spec j w); [done|]. by rewrite Hx.
Qed.

Lemma lor_fits w x y : 0 <= w -> fits w x -> fits w y -> fits w (Z.lor x y).
Proof.
  intros Hw Hx Hy. apply testbit_fits; [done|]. intros j Hj.
  by rewrite Z.lor_spec, (fits_testbit w x), (fits_testbit w y).
Qed.

Lemma land_fits w x y : 0 <= w -> fits w x -> fits w (Z.land x y).
Proof.
  intros Hw Hx. apply testbit_fits; [done|]. intros j Hj. by rewrite Z.land_spec, (fits_testbit w x).
Qed.

Lemma write_loop_spec fuel s s1 lsb width v copied :
  signal_wf s -> 0 <= lsb -> lsb + width <= signal_bits s -> 0 <= copied <= width ->
  width - copied <= Z.of_nat fuel -> field_set lsb copied v s s1 ->
  exists s', write_loop fuel lsb width v copied s1 = (Ok tt, s') /\ field_set lsb width v s s'.
Proof.
  intros Hs Hl Hb. revert s1 copied. induction fuel as [|fuel IH]; intros s1 copied Hc Hf Hset.
  { exists s1. replace width with copied by lia. done. }
  cbn [write_loop]. destruct (Z.ltb_spec copied width) as [Hlt|];
    [|exists s1; replace width with copied by lia; done].
  destruct (field_step lsb width copied) as (Ho & Hn & Hle & Hin & Heq & Hq); [lia..|].
  pose proof Hset as [[Hs1 Hb1] _].
  destruct (word_spec s1 ((lsb + copied) / 32)) as (w & Hw & Hwf & Hwb); [done | lia | lia|].
  unfold bind at 1, get. unfold bind at 1, lift. rewrite Hw. unfold bind at 1.
  match goal with |- context [set_word _ ?x _] => set (current := x) end.
  destruct (set_word_spec s1 ((lsb + copied) / 32) current) as (s2 & -> & Hset2); [done | lia | lia | |].
  { apply lor_fits; [done | by apply land_fits | by apply land_fits, wrap_fits]. }
  apply IH; [lia | lia|].
  by apply (field_set_word s s1 s2 lsb width v copied w current); try lia.
Qed.

Lemma write_u64_spec s lsb width v :
  signal_wf s -> 0 <= lsb -> 0 <= width <= 64 -> lsb + width <= signal_bits s ->
  exists s', write_u64 lsb width v s = (Ok tt, s') /\ field_set lsb width v s s'.
Proof.
  intros Hs Hl Hw Hb. unfold write_u64. destruct (Z.ltb_spec 64 width); [lia|].
  apply (write_loop_spec _ s); try done; try lia. split; [done|]. intros k Hk. by bit_cases.
Qed.

(** C31: a field of a packed signal holds what is written to it.  Whatever words
    it spans, writing [width <= 64] bits and reading them gives the low bits of
    the value back, and every field that does not overlap reads as before. *)
Theorem packed_field_round_trip s lsb width v :
  signal_wf s -> 0 <= lsb -> 0 <= width <= 64 -> lsb + width <= signal_bits s -> 0 <= v ->
  exists s', write_u64 lsb width v s = (Ok tt, s') /\ signal_wf s' /\
    signal_bits s' = signal_bits s /\
    read_u64 s' lsb width = Ok (v mod 2 ^ width) /\
    forall lsb' width', 0 <= lsb' -> 0 <= width' <= 64 -> lsb' + width' <= signal_bits s ->
      lsb' + width' <= lsb \/ lsb + width <= lsb' ->
      read_u64 s' lsb' width' = read_u64 s lsb' width'.
Proof.
  intros Hs Hl Hw Hb Hv. destruct (write_u64_spec s lsb width v) as (s' & E & [[Hs' Hb'] Hk]); try done.
  exists s'. split_and!; try done.
  - destruct (read_u64_spec s' lsb width) as (r & -> & Hr); [done | done | done | lia|]. f_equal.
    eapply is_field_unique; [exact Hr|]. split; [apply Z.mod_pos_bound, pow2_pos; lia|].
    intros j Hj. rewrite Z.testbit_mod_pow2 by lia. destruct (Z.ltb_spec j width); [|done]. cbn [andb].
    rewrite Hk by lia. bit_cases. f_equal. lia.
  - intros lsb' width' Hl' Hw' Hb'' Hd.
    destruct (read_u64_spec s' lsb' width') as (r' & -> & Hr'); [done | done | done | lia|].
    destruct (read_u64_spec s lsb' width') as (r & -> & Hr); [done..|]. f_equal.
    eapply is_field_unique; [exact Hr'|]. destruct Hr as [Hr0 Hr]. split; [done|].
    intros j Hj. rewrite Hr by done. destruct (Z.ltb_spec j width'); [|done]. cbn [andb].
    rewrite Hk by lia. by bit_cases.
Qed.

(** A width of more than 64 bits is refused before anything is touched. *)
Lemma wide_fields_are_refused s lsb width v :
  64 < width ->
  read_u64 s lsb width = Throw (InvalidArgument "read_u64 width exceeds 64 bits") /\
  write_u64 lsb width v s = (Throw (InvalidArgument "write_u64 width exceeds 64 bits"), s).
Proof. intros Hw. unfold read_u64, write_u64. by destruct (Z.ltb_spec 64 width); [|lia]. Qed.

(** ** Single bits and bytes *)
Lemma bit_spec s i : signal_wf s -> 0 <= i < signal_bits s -> bit s i = Ok (sbit s i).
Proof.
  intros Hs Hi. unfold bit. pose proof (Z.div_mod i 32 ltac:(lia)).
  pose proof (Z.mod_pos_bound i 32 ltac:(lia)). pose proof (Z.div_pos i 32 ltac:(lia) ltac:(lia)).
  destruct (word_spec s (i / 32)) as (w & -> & Hwf & Hwb); [done | lia | lia|]. cbn [rbind]. f_equal.
  assert (Z.land (Z.shiftr w (i mod 32)) 1 = Z.b2z (sbit s i)) as ->; [|by destruct (sbit s i)].
  change 1 with (Z.ones 1) at 1. rewrite Z.land_ones, <- Z.bit0_mod, Z.shiftr_spec by lia.
  rewrite Z.add_0_l, Hwb by lia. do 2 f_equal. lia.
Qed.

Lemma set_bit_spec s i b :
  signal_wf s -> 0 <= i < signal_bits s ->
  exists s', set_bit i b s = (Ok tt, s') /\ field_set i 1 (b2z b) s s'.
Proof.
  intros Hs Hi. unfold set_bit. pose proof (Z.div_mod i 32 ltac:(lia)).
  pose proof (Z.mod_pos_bound i 32 ltac:(lia)). pose proof (Z.div_pos i 32 ltac:(lia) ltac:(lia)).
  destruct (word_spec s (i / 32)) as (w & Hw & Hwf & Hwb); [done | lia | lia|].
  unfold bind, get, lift. rewrite Hw.
  set (n := i mod 32) in *. set (q := i / 32) in *.
  assert (forall j, 0 <= j -> Z.testbit (Z.shiftl 1 n) j = (j =? n)) as Hm.
  { intros j Hj. by rewrite Z.shiftl_1_l, Z.pow2_bits_eqb, Z.eqb_sym by lia. }
  match goal with |- context [set_word _ ?x _] => set (current := x) end.
  assert (forall j, 0 <= j < 32 -> Z.testbit current j = if j =? n then b else Z.testbit w j) as Hc.
  { intros j Hj. unfold current. destruct b.
    - rewrite Z.lor_spec, Hm by lia. destruct (j =? n); [apply orb_true_r | apply orb_false_r].
    - unfold u32. rewrite Z.land_spec, testbit_wrap, Z.lnot_spec, Hm by lia.
      destruct (Z.ltb_spec j 32); [|lia]. destruct (j =? n); [apply andb_false_r | apply andb_true_r]. }
  destruct (set_word_spec s q current) as (s' & -> & Hs' & Hk); [done | lia | lia | |].
  { unfold current. destruct b; [|by apply land_fits]. apply lor_fits; [done..|].
    rewrite Z.shiftl_1_l. split; [lia|]. apply Z.pow_lt_mono_r; lia. }
  exists s'. split; [done|]. split; [done|]. intros k Hkb. rewrite Hk by done.
  pose proof (Z.div_mod k 32 ltac:(lia)). pose proof (Z.mod_pos_bound k 32 ltac:(lia)).
  destruct (Z.eqb_spec (k / 32) q) as [Hq|Hq].
  - rewrite Hq in *. rewrite Hc by lia. destruct (Z.eqb_spec (k mod 32) n).
    + replace (k - i) with 0 by lia. bit_cases. by destruct b.
    + rewrite Hwb by lia. replace (32 * q + k mod 32) with k by lia. by bit_cases.
  - destruct (Z.leb_spec i k), (Z.ltb_spec k (i + 1)); try done.
    exfalso. apply Hq. unfold q. f_equal. lia.
Qed.

(** The bytes of a field: byte [i] holds its bits [8 i .. 8 i + 7]. *)
Lemma read_bytes_spec n s lsb :
  signal_wf s -> 0 <= lsb -> lsb + 8 * Z.of_nat n <= signal_bits s ->
  exists bytes, read_bytes n s lsb = Ok bytes /\ length bytes = n /\ Forall (fits 8) bytes /\
    forall i, (i < n)%nat -> is_field s (lsb + 8 * Z.of_nat i) 8 (bytes !!! i).
Proof.
  intros Hs. revert lsb. induction n as [|n IH]; intros lsb Hl Hb.
  { exists []. split_and!; [done | done | constructor | lia]. }
  cbn [read_bytes]. destruct (read_u64_spec s lsb 8) as (r & -> & Hr); [done | done | lia | lia|].
  destruct (IH (lsb + 8)) as (bytes & -> & Hlen & Hf & Hi); [lia | lia|]. cbn [rbind].
  assert (fits 8 r) as Hr8 by (by eapply is_field_fits).
  replace (u8 r) with r by (symmetry; by apply wrap_small).
  exists (r :: bytes). split_and!; [done | cbn; lia | by constructor|].
  intros [|i] Hin; cbn [lookup_total list_lookup_total].
  - by rewrite Z.add_0_r.
  - replace (lsb + 8 * Z.of_nat (S i)) with (lsb + 8 + 8 * Z.of_nat i) by lia. apply Hi. lia.
Qed.

(** The bits of a list of bytes. *)
Definition bytes_bit (bytes : list Z) (j : Z) : bool :=
  Z.testbit (bytes !!! Z.to_nat (j / 8)) (j mod 8).

Lemma write_bytes_spec s lsb bytes :
  signal_wf s -> 0 <= lsb -> lsb + 8 * Z.of_nat (length bytes) <= signal_bits s ->
  exists s', write_bytes lsb bytes s = (Ok tt, s') /\
    region_set lsb (8 * Z.of_nat (length bytes)) (bytes_bit bytes) s s'.
Proof.
  revert s lsb. induction bytes as [|b bytes IH]; intros s lsb Hs Hl Hb.
  { exists s. split; [done|]. split; [done|]. intros k Hk. cbn [length]. by bit_cases. }
  cbn [length] in Hb. cbn [write_bytes]. unfold bind.
  destruct (write_u64_spec s lsb 8 b) as (s1 & -> & [[Hs1 Hb1] H1]); [done | done | lia | lia|].
  destruct (IH s1 (lsb + 8)) as (s' & -> & [Hs' Hb'] & Hk); [done | lia | lia|].
  exists s'. split; [done|]. split; [split; [done | congruence]|]. intros k Hkb.
  rewrite Hk, H1 by lia. cbn [length]. unfold bytes_bit.
  destruct (Z.leb_spec (lsb + 8) k).
  - destruct (Z.leb_spec lsb k); [|lia]. cbn [andb].
    replace (lsb + 8 + 8 * Z.of_nat (length bytes)) with (lsb + 8 * Z.of_nat (S (length bytes))) by lia.
    destruct (k <? _); [|by bit_cases].
    replace (k - lsb) with (k - (lsb + 8) + 1 * 8) by lia. rewrite Z.div_add, Z.mod_add by lia.
    pose proof (Z.div_pos (k - (lsb + 8)) 8 ltac:(lia) ltac:(lia)).
    rewrite Z2Nat.inj_add by lia. by rewrite Nat.add_comm.
  - cbn [andb]. destruct (Z.leb_spec lsb k); [|done]. cbn [andb].
    destruct (Z.ltb_spec k (lsb + 8)); [|lia].
    destruct (Z.ltb_spec k (lsb + 8 * Z.of_nat (S (length bytes)))); [|lia].
    by rewrite Z.div_small, Z.mod_small by lia.
Qed.

(** A byte array written into a packed signal is read back, byte for byte. *)
Theorem packed_bytes_round_trip s lsb bytes :
  signal_wf s -> 0 <= lsb -> lsb + 8 * Z.of_nat (length bytes) <= signal_bits s ->
  Forall (fits 8) bytes ->
  exists s', write_bytes lsb bytes s = (Ok tt, s') /\ signal_wf s' /\
    signal_bits s' = signal_bits s /\ read_bytes (length bytes) s' lsb = Ok bytes.
Proof.
  intros Hs Hl Hb Hf. destruct (write_bytes_spec s lsb bytes) as (s' & E & [Hs' Hb'] & Hk); [done..|].
  exists s'. split_and!; [done..|].
  destruct (read_bytes_spec (length bytes) s' lsb) as (bytes' & -> & Hlen & _ & Hi); [done | done | lia|].
  f_equal. apply list_eq_same_length with (length bytes); [done | done|].
  intros i x y Hin Hx Hy. eapply is_field_unique.
  - rewrite <- (list_lookup_total_correct _ _ _ Hx). by apply Hi.
  - pose proof (Forall_lookup_1 _ _ _ _ Hf Hy) as Hy8. split; [apply Hy8|]. intros j Hj.
    destruct (Z.ltb_spec j 8); [|by apply (fits_testbit 8)]. cbn [andb]. rewrite Hk by lia.
    unfold bytes_bit. bit_cases.
    replace (lsb + 8 * Z.of_nat i + j - lsb) with (j + Z.of_nat i * 8) by lia.
    rewrite Z.div_add, Z.mod_add, Z.div_small, Z.mod_small, Z.add_0_l, Nat2Z.id by lia.
    by rewrite (list_lookup_total_correct _ _ _ Hy).
Qed.

(** ** Examples *)

(** A 12-bit field across the words of a 96-bit signal. *)
Definition wide_signal : Signal := Words [0xffffffff; 0; 0xffffffff].

Lemma packed_field_round_trip_witness :
  exists s', write_u64 26 12 0xabc wide_signal = (Ok tt, s') /\
    read_u64 s' 26 12 = Ok 0xabc /\ read_u64 s' 0 26 = read_u64 wide_signal 0 26.
Proof.
  destruct (packed_field_round_trip wide_signal 26 12 0xabc) as (s' & E & _ & _ & Hr & Hd);
    [repeat constructor; vm_compute; done | lia | lia | vm_compute; done | lia|].
  exists s'. split_and!; [done | by rewrite Hr | apply Hd; [lia | lia | vm_compute; done | lia]].
Defined.

Lemma packed_bytes_round_trip_witness :
  exists s', write_bytes 32 [1; 2; 3; 4] wide_signal = (Ok tt, s') /\
    read_bytes 4 s' 32 = Ok [1; 2; 3; 4].
Proof.
  destruct (packed_bytes_round_trip wide_signal 32 [1; 2; 3; 4]) as (s' & E & _ & _ & Hr);
    [repeat constructor; vm_compute; done | lia | vm_compute; done
    | repeat constructor; vm_compute; done |].
  by exists s'.
Defined.
