(* ===== verification/Binding.v ===== *)
(** * Signals of the Verilated model (src/verilated_binding.hpp)

    The packed AXI signals of the top module, one bit field per port, and how
    they become the structures of the fabric ([sample]) and are set from them
    ([drive]).  A sampled cycle satisfies what the fabric assumes of its
    inputs, and every driven field reads back. *)
From S2P Require Import Prelude Axi Device Fabric FabricSpec FabricPorts Packed.

(** The generated model: what the DUT drives, then what it is driven with. *)
Record Top := mk_top {
  axi_aw_valid : Signal;
  axi_aw_id : Signal;
  axi_aw_addr : Signal;
  axi_aw_len : Signal;
  axi_aw_size : Signal;
  axi_aw_burst : Signal;
  axi_aw_lock : Signal;
  axi_aw_cache : Signal;
  axi_aw_prot : Signal;
  axi_w_valid : Signal;
  axi_w_data : Signal;
  axi_w_strb : Signal;
  axi_w_last : Signal;
  axi_b_ready : Signal;
  axi_ar_valid : Signal;
  axi_ar_id : Signal;
  axi_ar_addr : Signal;
  axi_ar_len : Signal;
  axi_ar_size : Signal;
  axi_ar_burst : Signal;
  axi_ar_lock : Signal;
  axi_ar_cache : Signal;
  axi_ar_prot : Signal;
  axi_r_ready : Signal;
  axi_aw_ready : Signal;
  axi_w_ready : Signal;
  axi_b_valid : Signal;
  axi_b_id : Signal;
  axi_b_resp : Signal;
  axi_ar_ready : Signal;
  axi_r_valid : Signal;
  axi_r_id : Signal;
  axi_r_data : Signal;
  axi_r_resp : Signal;
  axi_r_last : Signal
}.
#[export] Instance Top_eta : Eta Top := fun t =>
  mk_top (axi_aw_valid t) (axi_aw_id t) (axi_aw_addr t) (axi_aw_len t) (axi_aw_size t)
    (axi_aw_burst t) (axi_aw_lock t) (axi_aw_cache t) (axi_aw_prot t) (axi_w_valid t)
    (axi_w_data t) (axi_w_strb t) (axi_w_last t) (axi_b_ready t) (axi_ar_valid t)
    (axi_ar_id t) (axi_ar_addr t) (axi_ar_len t) (axi_ar_size t) (axi_ar_burst t)
    (axi_ar_lock t) (axi_ar_cache t) (axi_ar_prot t) (axi_r_ready t) (axi_aw_ready t)
    (axi_w_ready t) (axi_b_valid t) (axi_b_id t) (axi_b_resp t) (axi_ar_ready t)
    (axi_r_valid t) (axi_r_id t) (axi_r_data t) (axi_r_resp t) (axi_r_last t).

(** The [static_assert]s of the class; the other widths are those of the fabric. *)
Class BindingConfig := { IdBits : Z }.
Class BindingConfigOk (fabric : FabricConfig) (binding : BindingConfig) := {
  binding_address : AddressBits = 32 \/ AddressBits = 64;
  binding_data : DATA_BYTES = 4%nat \/ DATA_BYTES = 8%nat \/ DATA_BYTES = 16%nat;
  binding_id : 1 <= IdBits <= 32
}.

Section Binding.
Context {fabric : FabricConfig} {binding : BindingConfig}.
Implicit Types (top : Top) (port : nat).

Definition DataBits : Z := 8 * Z.of_nat DATA_BYTES.

(** ** Sampling *)
Definition sample_address (id addr len size burst lock cache prot : Signal) (port : nat)
  : result AddressPayload :=
  let p := Z.of_nat port in
  try id := read_u64 id (p * IdBits) IdBits in
  try address := read_u64 addr (p * AddressBits) AddressBits in
  try length := read_u64 len (p * 8) 8 in
  try size := read_u64 size (p * 3) 3 in
  try burst := read_u64 burst (p * 2) 2 in
  try lock := bit lock p in
  try cache := read_u64 cache (p * 4) 4 in
  try protection := read_u64 prot (p * 3) 3 in
  Ok {| ap_id := id; ap_address := address; ap_length := u8 length; ap_size := u8 size;
        ap_burst := burst_of_code burst; ap_lock := lock; ap_cache := u8 cache;
        ap_protection := u8 protection |}.

Definition sample_port top (port : nat) : result MasterSignals :=
  let p := Z.of_nat port in
  try aw_valid := bit (axi_aw_valid top) p in
  try aw := sample_address (axi_aw_id top) (axi_aw_addr top) (axi_aw_len top) (axi_aw_size top)
              (axi_aw_burst top) (axi_aw_lock top) (axi_aw_cache top) (axi_aw_prot top) port in
  try w_valid := bit (axi_w_valid top) p in
  try data := read_bytes DATA_BYTES (axi_w_data top) (p * DataBits) in
  try strobe := read_u64 (axi_w_strb top) (p * Z.of_nat DATA_BYTES) (Z.of_nat DATA_BYTES) in
  try last := bit (axi_w_last top) p in
  try b_ready := bit (axi_b_ready top) p in
  try ar_valid := bit (axi_ar_valid top) p in
  try ar := sample_address (axi_ar_id top) (axi_ar_addr top) (axi_ar_len top) (axi_ar_size top)
              (axi_ar_burst top) (axi_ar_lock top) (axi_ar_cache top) (axi_ar_prot top) port in
  try r_ready := bit (axi_r_ready top) p in
  Ok {| m_aw_valid := aw_valid; m_aw := aw;
        m_w_valid := w_valid;
        m_w := {| wd_data := data;
                  wd_strobe := map (fun lane => Z.land (Z.shiftr strobe (Z.of_nat lane)) 1)
                                   (seq 0 DATA_BYTES);
                  wd_last := last |};
        m_b_ready := b_ready; m_ar_valid := ar_valid; m_ar := ar; m_r_ready := r_ready |}.

Fixpoint sample_ports top (ports : list nat) : result (list MasterSignals) :=
  match ports with
  | [] => Ok []
  | port :: rest =>
      try value := sample_port top port in
      try values := sample_ports top rest in
      Ok (value :: values)
  end.

Definition sample top : result (list MasterSignals) := sample_ports top (seq 0 NumPorts).

(** ** Driving *)

(** An operation on one signal of the model. *)
Definition on (field : Top -> Signal) `{!Update field} (op : M Signal unit) : M Top unit :=
  fun top => let '(r, signal) := op (field top) in (r, top <| field := signal |>).

Definition drive_port (values : list SlaveSignals) (port : nat) : M Top unit :=
  let p := Z.of_nat port in
  let value := values !!! port in
  on axi_aw_ready (set_bit p (s_aw_ready value)) ;;;
  on axi_w_ready (set_bit p (s_w_ready value)) ;;;
  on axi_b_valid (set_bit p (s_b_valid value)) ;;;
  on axi_b_id (write_u64 (p * IdBits) IdBits (wr_id (s_b value))) ;;;
  on axi_b_resp (write_u64 (p * 2) 2 (response_code (wr_response (s_b value)))) ;;;
  on axi_ar_ready (set_bit p (s_ar_ready value)) ;;;
  on axi_r_valid (set_bit p (s_r_valid value)) ;;;
  on axi_r_id (write_u64 (p * IdBits) IdBits (rd_id (s_r value))) ;;;
  on axi_r_data (write_bytes (p * DataBits) (rd_data (s_r value))) ;;;
  on axi_r_resp (write_u64 (p * 2) 2 (response_code (rd_response (s_r value)))) ;;;
  on axi_r_last (set_bit p (rd_last (s_r value))).

Definition drive_top (values : list SlaveSignals) : M Top unit :=
  for_each (seq 0 NumPorts) (drive_port values).

(** ** Well-formed models *)

(** A signal with a field of [width] bits for every port. *)
Definition has_fields (width : Z) (s : Signal) : Prop :=
  signal_wf s /\ Z.of_nat NumPorts * width <= signal_bits s.

Record top_wf top : Prop := {
  wf_aw_valid : has_fields 1 (axi_aw_valid top);
  wf_aw_id : has_fields IdBits (axi_aw_id top);
  wf_aw_addr : has_fields AddressBits (axi_aw_addr top);
  wf_aw_len : has_fields 8 (axi_aw_len top);
  wf_aw_size : has_fields 3 (axi_aw_size top);
  wf_aw_burst : has_fields 2 (axi_aw_burst top);
  wf_aw_lock : has_fields 1 (axi_aw_lock top);
  wf_aw_cache : has_fields 4 (axi_aw_cache top);
  wf_aw_prot : has_fields 3 (axi_aw_prot top);
  wf_w_valid : has_fields 1 (axi_w_valid top);
  wf_w_data : has_fields DataBits (axi_w_data top);
  wf_w_strb : has_fields (Z.of_nat DATA_BYTES) (axi_w_strb top);
  wf_w_last : has_fields 1 (axi_w_last top);
  wf_b_ready : has_fields 1 (axi_b_ready top);
  wf_ar_valid : has_fields 1 (axi_ar_valid top);
  wf_ar_id : has_fields IdBits (axi_ar_id top);
  wf_ar_addr : has_fields AddressBits (axi_ar_addr top);
  wf_ar_len : has_fields 8 (axi_ar_len top);
  wf_ar_size : has_fields 3 (axi_ar_size top);
  wf_ar_burst : has_fields 2 (axi_ar_burst top);
  wf_ar_lock : has_fields 1 (axi_ar_lock top);
  wf_ar_cache : has_fields 4 (axi_ar_cache top);
  wf_ar_prot : has_fields 3 (axi_ar_prot top);
  wf_r_ready : has_fields 1 (axi_r_ready top);
  wf_aw_ready : has_fields 1 (axi_aw_ready top);
  wf_w_ready : has_fields 1 (axi_w_ready top);
  wf_b_valid : has_fields 1 (axi_b_valid top);
  wf_b_id : has_fields IdBits (axi_b_id top);
  wf_b_resp : has_fields 2 (axi_b_resp top);
  wf_ar_ready : has_fields 1 (axi_ar_ready top);
  wf_r_valid : has_fields 1 (axi_r_valid top);
  wf_r_id : has_fields IdBits (axi_r_id top);
  wf_r_data : has_fields DataBits (axi_r_data top);
  wf_r_resp : has_fields 2 (axi_r_resp top);
  wf_r_last : has_fields 1 (axi_r_last top)
}.

(** ** What is sampled *)
Context {Hok : BindingConfigOk fabric binding}.

Lemma field_range width s port :
  0 <= width -> has_fields width s -> (port < NumPorts)%nat ->
  signal_wf s /\ 0 <= Z.of_nat port * width /\ Z.of_nat port * width + width <= signal_bits s.
Proof. intros Hw [Hs Hb] Hp. split; [done|]. nia. Qed.

Lemma port_field width s port :
  0 <= width <= 64 -> has_fields width s -> (port < NumPorts)%nat ->
  exists r, read_u64 s (Z.of_nat port * width) width = Ok r /\
    is_field s (Z.of_nat port * width) width r /\ fits width r.
Proof.
  intros Hw Hs Hp. destruct (field_range width s port) as (Hs' & Hl & Hb); [lia | done..|].
  destruct (read_u64_spec s (Z.of_nat port * width) width) as (r & E & Hr); [done..|].
  exists r. split_and!; [done..|]. eapply is_field_fits; [lia | done].
Qed.

Lemma port_bit s port :
  has_fields 1 s -> (port < NumPorts)%nat -> bit s (Z.of_nat port) = Ok (sbit s (Z.of_nat port)).
Proof.
  intros Hs Hp. destruct (field_range 1 s port) as (Hs' & Hl & Hb); [lia | done..|].
  apply bit_spec; [done | lia].
Qed.

(** An address payload is the fields of its signals. *)
Record address_sampled (id addr len size burst lock cache prot : Signal) (port : nat)
    (p : AddressPayload) : Prop := {
  as_id : is_field id (Z.of_nat port * IdBits) IdBits (ap_id p);
  as_address : is_field addr (Z.of_nat port * AddressBits) AddressBits (ap_address p);
  as_length : is_field len (Z.of_nat port * 8) 8 (ap_length p);
  as_size : is_field size (Z.of_nat port * 3) 3 (ap_size p);
  as_burst : exists code, is_field burst (Z.of_nat port * 2) 2 code /\ ap_burst p = burst_of_code code;
  as_lock : ap_lock p = sbit lock (Z.of_nat port);
  as_cache : is_field cache (Z.of_nat port * 4) 4 (ap_cache p);
  as_protection : is_field prot (Z.of_nat port * 3) 3 (ap_protection p)
}.

Lemma u8_field width x : width <= 8 -> fits width x -> u8 x = x.
Proof.
  intros Hw [H0 H1]. apply wrap_small. split; [done|].
  destruct (Z.lt_ge_cases width 0); [rewrite Z.pow_neg_r in H1 by done; lia|].
  pose proof (Z.pow_le_mono_r 2 width 8 ltac:(lia) Hw). lia.
Qed.

Lemma address_bits_range : 0 <= AddressBits <= 64.
Proof. destruct binding_address as [-> | ->]; lia. Qed.

Lemma sample_address_spec id addr len size burst lock cache prot port :
  has_fields IdBits id -> has_fields AddressBits addr -> has_fields 8 len -> has_fields 3 size ->
  has_fields 2 burst -> has_fields 1 lock -> has_fields 4 cache -> has_fields 3 prot ->
  (port < NumPorts)%nat ->
  exists p, sample_address id addr len size burst lock cache prot port = Ok p /\
    address_sampled id addr len size burst lock cache prot port p.
Proof.
  intros H1 H2 H3 H4 H5 H6 H7 H8 Hp. unfold sample_address. pose proof binding_id. pose proof address_bits_range.
  destruct (port_field IdBits id port) as (vid & -> & ? & _); [lia | done..|].
  destruct (port_field AddressBits addr port) as (va & -> & ? & _); [lia | done..|].
  destruct (port_field 8 len port) as (vl & -> & ? & ?); [lia | done..|].
  destruct (port_field 3 size port) as (vs & -> & ? & ?); [lia | done..|].
  destruct (port_field 2 burst port) as (vb & -> & ? & _); [lia | done..|].
  rewrite (port_bit lock port) by done.
  destruct (port_field 4 cache port) as (vc & -> & ? & ?); [lia | done..|].
  destruct (port_field 3 prot port) as (vp & -> & ? & ?); [lia | done..|].
  cbn [rbind]. rewrite (u8_field 8 vl), (u8_field 3 vs), (u8_field 4 vc), (u8_field 3 vp) by (done || lia).
  eexists. split; [done|]. constructor; cbn; try done. by exists vb.
Qed.

Record port_sampled top (port : nat) (m : MasterSignals) : Prop := {
  ps_aw_valid : m_aw_valid m = sbit (axi_aw_valid top) (Z.of_nat port);
  ps_aw : address_sampled (axi_aw_id top) (axi_aw_addr top) (axi_aw_len top) (axi_aw_size top)
            (axi_aw_burst top) (axi_aw_lock top) (axi_aw_cache top) (axi_aw_prot top) port (m_aw m);
  ps_w_valid : m_w_valid m = sbit (axi_w_valid top) (Z.of_nat port);
  ps_data_length : length (wd_data (m_w m)) = DATA_BYTES;
  ps_data : forall lane, (lane < DATA_BYTES)%nat ->
    is_field (axi_w_data top) (Z.of_nat port * DataBits + 8 * Z.of_nat lane) 8
      (wd_data (m_w m) !!! lane);
  ps_strobe_length : length (wd_strobe (m_w m)) = DATA_BYTES;
  ps_strobe : forall lane, (lane < DATA_BYTES)%nat ->
    wd_strobe (m_w m) !!! lane =
      b2z (sbit (axi_w_strb top) (Z.of_nat port * Z.of_nat DATA_BYTES + Z.of_nat lane));
  ps_last : wd_last (m_w m) = sbit (axi_w_last top) (Z.of_nat port);
  ps_b_ready : m_b_ready m = sbit (axi_b_ready top) (Z.of_nat port);
  ps_ar_valid : m_ar_valid m = sbit (axi_ar_valid top) (Z.of_nat port);
  ps_ar : address_sampled (axi_ar_id top) (axi_ar_addr top) (axi_ar_len top) (axi_ar_size top)
            (axi_ar_burst top) (axi_ar_lock top) (axi_ar_cache top) (axi_ar_prot top) port (m_ar m);
  ps_r_ready : m_r_ready m = sbit (axi_r_ready top) (Z.of_nat port)
}.

Lemma strobe_lane strobe s lsb width lane :
  is_field s lsb width strobe -> (Z.of_nat lane < width) ->
  Z.land (Z.shiftr strobe (Z.of_nat lane)) 1 = b2z (sbit s (lsb + Z.of_nat lane)).
Proof.
  intros [_ Hb] Hl. change 1 with (Z.ones 1). rewrite Z.land_ones, <- Z.bit0_mod, Z.shiftr_spec by lia.
  rewrite Z.add_0_l, Hb by lia. destruct (Z.ltb_spec (Z.of_nat lane) width); [|lia].
  by destruct (sbit s _).
Qed.

Lemma sample_port_spec top port :
  top_wf top -> (port < NumPorts)%nat ->
  exists m, sample_port top port = Ok m /\ port_sampled top port m.
Proof.
  intros [] Hp. unfold sample_port. pose proof binding_data as Hd.
  rewrite !(port_bit _ port) by done. cbn [rbind].
  destruct (sample_address_spec (axi_aw_id top) (axi_aw_addr top) (axi_aw_len top) (axi_aw_size top)
    (axi_aw_burst top) (axi_aw_lock top) (axi_aw_cache top) (axi_aw_prot top) port)
    as (aw & -> & Haw); [done..|].
  destruct (field_range DataBits (axi_w_data top) port) as (Hs & Hl & Hb); [unfold DataBits; lia | done..|].
  destruct (read_bytes_spec DATA_BYTES (axi_w_data top) (Z.of_nat port * DataBits))
    as (data & -> & Hlen & _ & Hdata); [done | done | unfold DataBits in *; lia|].
  destruct (port_field (Z.of_nat DATA_BYTES) (axi_w_strb top) port) as (strobe & -> & Hstrobe & _);
    [lia | done..|].
  destruct (sample_address_spec (axi_ar_id top) (axi_ar_addr top) (axi_ar_len top) (axi_ar_size top)
    (axi_ar_burst top) (axi_ar_lock top) (axi_ar_cache top) (axi_ar_prot top) port)
    as (ar & -> & Har); [done..|].
  cbn [rbind]. eexists. split; [done|]. constructor; cbn; try done.
  - by rewrite length_fmap, length_seq.
  - intros lane Hlane. erewrite list_lookup_total_correct by
      (rewrite list_lookup_fmap, lookup_seq_lt by done; done).
    apply (strobe_lane _ _ _ (Z.of_nat DATA_BYTES)); [done | lia].
Qed.

Lemma sample_ports_spec top ports :
  top_wf top -> Forall (fun port => port < NumPorts)%nat ports ->
  exists ms, sample_ports top ports = Ok ms /\ Forall2 (port_sampled top) ports ms.
Proof.
  intros Ht. induction 1 as [|port ports Hp _ IH]; [by exists []|]. cbn [sample_ports].
  destruct (sample_port_spec top port Ht Hp) as (m & -> & Hm). destruct IH as (ms & -> & Hms).
  exists (m :: ms). split; [done|]. by constructor.
Qed.

(** No request is in the last page of a 64-bit address space (see [request_wf]);
    on a 32-bit bus there is none. *)
Definition below_last_page (masters : list MasterSignals) : Prop :=
  AddressBits = 32 \/
  forall port, (port < NumPorts)%nat ->
    (m_aw_valid (masters !!! port) = true -> ap_address (m_aw (masters !!! port)) < 2 ^ 64 - 4096) /\
    (m_ar_valid (masters !!! port) = true -> ap_address (m_ar (masters !!! port)) < 2 ^ 64 - 4096).

Lemma sampled_request id addr len size burst lock cache prot port p :
  address_sampled id addr len size burst lock cache prot port p ->
  AddressBits = 32 \/ ap_address p < 2 ^ 64 - 4096 -> request_wf p.
Proof.
  intros [] Ha. pose proof binding_id as Hid. pose proof binding_address as Hb.
  apply is_field_fits in as_id0, as_address0, as_length0, as_size0; try (destruct Hb; lia).
  unfold request_wf, payload_wf, fits in *.
  pose proof (Z.pow_le_mono_r 2 IdBits 64). destruct Hb as [Hb|Hb]; rewrite Hb in *; lia.
Qed.

Lemma sample_spec top :
  top_wf top ->
  exists masters, sample top = Ok masters /\ length masters = NumPorts /\
    (forall port, (port < NumPorts)%nat -> port_sampled top port (masters !!! port)) /\
    (below_last_page masters -> inputs_wf masters).
Proof.
  intros Ht. destruct (sample_ports_spec top (seq 0 NumPorts) Ht) as (ms & E & Hms).
  { apply Forall_forall. intros port Hp%elem_of_seq. lia. }
  assert (length ms = NumPorts) as Hlen by (by rewrite <- (Forall2_length _ _ _ Hms), length_seq).
  assert (forall port, (port < NumPorts)%nat -> port_sampled top port (ms !!! port)) as Hps.
  { intros port Hp. eapply Forall2_lookup_lr; [exact Hms | by rewrite lookup_seq_lt|].
    apply list_lookup_lookup_total_lt. lia. }
  exists ms. split_and!; [done..|]. intros Ha port Hp. destruct (Hps port Hp).
  split_and!; intros Hv; [|by split|]; (eapply sampled_request; [eassumption|]);
    (destruct Ha as [?|Ha]; [by left | right; by apply (Ha port Hp)]).
Qed.

(** C29: [sample] reads a cycle of the model.  Every port gets exactly the fields
    of its signals, with data and strobes of the width of the bus; no field is
    missed and nothing outside a signal is read.  The result satisfies what the
    fabric's theorems assume of the DUT's signals: always on a 32-bit bus, and
    on a 64-bit bus if no request is in the last page. *)
Theorem sampled_cycle_is_well_formed top :
  top_wf top ->
  exists masters, sample top = Ok masters /\ length masters = NumPorts /\
    (forall port, (port < NumPorts)%nat -> port_sampled top port (masters !!! port)) /\
    (below_last_page masters -> inputs_wf masters).
Proof. apply sample_spec. Qed.

(** ** What is driven *)

(** The signals [sample] reads. *)
Definition inputs_of top : list Signal :=
  [ axi_aw_valid top; axi_aw_id top; axi_aw_addr top; axi_aw_len top; axi_aw_size top;
    axi_aw_burst top; axi_aw_lock top; axi_aw_cache top; axi_aw_prot top;
    axi_w_valid top; axi_w_data top; axi_w_strb top; axi_w_last top; axi_b_ready top;
    axi_ar_valid top; axi_ar_id top; axi_ar_addr top; axi_ar_len top; axi_ar_size top;
    axi_ar_burst top; axi_ar_lock top; axi_ar_cache top; axi_ar_prot top; axi_r_ready top ].

(** The fields of the first [n] ports are [f], the rest of the signal is [s0]. *)
Definition filled (width : Z) (f : nat -> Z -> bool) (n : nat) (s0 s : Signal) : Prop :=
  same_signal s0 s /\ forall k, 0 <= k < signal_bits s0 ->
    sbit s k = if k <? Z.of_nat n * width then f (Z.to_nat (k / width)) (k mod width) else sbit s0 k.

Lemma filled_0 width f s : signal_wf s -> filled width f 0 s s.
Proof. intros Hs. split; [done|]. intros k Hk. by bit_cases. Qed.

Lemma filled_step width f n s0 s s' :
  0 < width -> filled width f n s0 s ->
  region_set (Z.of_nat n * width) width (f n) s s' -> filled width f (S n) s0 s'.
Proof.
  intros Hw [[Hs Hb] Hf] [[Hs' Hb'] Hr]. split; [split; [done | congruence]|]. intros k Hk.
  rewrite Hr, Hf by lia. replace (Z.of_nat (S n) * width) with (Z.of_nat n * width + width) by lia.
  destruct (Z.leb_spec (Z.of_nat n * width) k); cbn [andb]; [|by bit_cases].
  destruct (Z.ltb_spec k (Z.of_nat n * width + width)); [|by bit_cases].
  replace k with (k - Z.of_nat n * width + Z.of_nat n * width) at 2 3 by lia.
  rewrite Z.div_add, Z.mod_add, Z.div_small, Z.mod_small by lia. by rewrite Z.add_0_l, Nat2Z.id.
Qed.

(** What is read back from the fields of a port. *)
Lemma filled_sbit width f n s0 s port j :
  0 < width -> filled width f n s0 s -> (port < n)%nat -> Z.of_nat n * width <= signal_bits s0 ->
  0 <= j < width -> sbit s (Z.of_nat port * width + j) = f port j.
Proof.
  intros Hw [_ Hf] Hp Hb Hj. rewrite Hf by nia.
  destruct (Z.ltb_spec (Z.of_nat port * width + j) (Z.of_nat n * width)); [|nia].
  rewrite Z.add_comm, Z.div_add, Z.mod_add, Z.div_small, Z.mod_small by lia.
  by rewrite Z.add_0_l, Nat2Z.id.
Qed.

Lemma filled_bit f n s0 s port :
  has_fields 1 s0 -> filled 1 f n s0 s -> n = NumPorts -> (port < n)%nat ->
  bit s (Z.of_nat port) = Ok (f port 0).
Proof.
  intros [Hs0 Hb0] Hf -> Hp. pose proof Hf as [[Hs Hb] _]. rewrite bit_spec by (done || lia).
  rewrite <- (filled_sbit 1 f NumPorts s0 s port 0) by (done || lia). do 2 f_equal. lia.
Qed.

Lemma filled_u64 width v n s0 s port :
  0 < width <= 64 -> has_fields width s0 -> filled width (fun port => Z.testbit (v port)) n s0 s ->
  n = NumPorts -> (port < n)%nat ->
  read_u64 s (Z.of_nat port * width) width = Ok (v port mod 2 ^ width).
Proof.
  intros Hw [Hs0 Hb0] Hf -> Hp. pose proof Hf as [[Hs Hb] _].
  destruct (read_u64_spec s (Z.of_nat port * width) width) as (r & -> & Hr); [done | nia | lia | nia|].
  f_equal. eapply is_field_unique; [exact Hr|]. split; [apply Z.mod_pos_bound, pow2_pos; lia|].
  intros j Hj. rewrite Z.testbit_mod_pow2 by lia. destruct (Z.ltb_spec j width); [|done].
  cbn [andb]. by rewrite (filled_sbit width _ NumPorts s0) by (done || lia).
Qed.

Lemma filled_bytes v n s0 s port :
  has_fields DataBits s0 -> filled DataBits (fun port => bytes_bit (v port)) n s0 s ->
  n = NumPorts -> (port < n)%nat -> length (v port) = DATA_BYTES -> Forall (fits 8) (v port) ->
  read_bytes DATA_BYTES s (Z.of_nat port * DataBits) = Ok (v port).
Proof.
  intros [Hs0 Hb0] Hf -> Hp Hlen Hv. pose proof Hf as [[Hs Hb] _]. pose proof binding_data as Hd.
  assert (0 < DataBits) as HD by (unfold DataBits; lia).
  destruct (read_bytes_spec DATA_BYTES s (Z.of_nat port * DataBits)) as (bytes & -> & Hl & _ & Hi);
    [done | nia | unfold DataBits in *; nia|].
  f_equal. apply list_eq_same_length with DATA_BYTES; [done | done|].
  intros i x y Hin Hx Hy. eapply is_field_unique.
  - rewrite <- (list_lookup_total_correct _ _ _ Hx). by apply Hi.
  - pose proof (Forall_lookup_1 _ _ _ _ Hv Hy) as Hy8. split; [apply Hy8|]. intros j Hj.
    destruct (Z.ltb_spec j 8); [|by apply (fits_testbit 8)]. cbn [andb].
    rewrite <- Z.add_assoc. rewrite (filled_sbit DataBits _ NumPorts s0) by (done || unfold DataBits; lia).
    unfold bytes_bit. replace (8 * Z.of_nat i + j) with (j + Z.of_nat i * 8) by lia.
    rewrite Z.div_add, Z.mod_add, Z.div_small, Z.mod_small, Z.add_0_l, Nat2Z.id by lia.
    by rewrite (list_lookup_total_correct _ _ _ Hy).
Qed.

Lemma fill_bit v n s0 s :
  has_fields 1 s0 -> filled 1 (fun port => Z.testbit (b2z (v port))) n s0 s -> (n < NumPorts)%nat ->
  exists s', set_bit (Z.of_nat n) (v n) s = (Ok tt, s') /\
    filled 1 (fun port => Z.testbit (b2z (v port))) (S n) s0 s'.
Proof.
  intros [Hs0 Hb0] Hf Hn. pose proof Hf as [[Hs Hb] _].
  destruct (set_bit_spec s (Z.of_nat n) (v n)) as (s' & E & Hset); [done | lia|].
  exists s'. split; [done|]. eapply filled_step; [lia | exact Hf|]. by rewrite Z.mul_1_r.
Qed.

Lemma fill_u64 width v n s0 s :
  0 < width <= 64 -> has_fields width s0 ->
  filled width (fun port => Z.testbit (v port)) n s0 s -> (n < NumPorts)%nat ->
  exists s', write_u64 (Z.of_nat n * width) width (v n) s = (Ok tt, s') /\
    filled width (fun port => Z.testbit (v port)) (S n) s0 s'.
Proof.
  intros Hw [Hs0 Hb0] Hf Hn. pose proof Hf as [[Hs Hb] _].
  destruct (write_u64_spec s (Z.of_nat n * width) width (v n)) as (s' & E & Hset);
    [done | nia | lia | nia|].
  exists s'. split; [done|]. by eapply filled_step; [lia | exact Hf|].
Qed.

Lemma fill_bytes v n s0 s :
  has_fields DataBits s0 -> filled DataBits (fun port => bytes_bit (v port)) n s0 s ->
  (n < NumPorts)%nat -> length (v n) = DATA_BYTES ->
  exists s', write_bytes (Z.of_nat n * DataBits) (v n) s = (Ok tt, s') /\
    filled DataBits (fun port => bytes_bit (v port)) (S n) s0 s'.
Proof.
  intros [Hs0 Hb0] Hf Hn Hlen. pose proof Hf as [[Hs Hb] _]. pose proof binding_data as Hd.
  assert (0 < DataBits) as HD by (unfold DataBits; lia).
  destruct (write_bytes_spec s (Z.of_nat n * DataBits) (v n)) as (s' & E & Hset);
    [done | nia | rewrite Hlen; fold DataBits; nia|].
  exists s'. split; [done|]. rewrite Hlen in Hset. by eapply filled_step; [lia | exact Hf|].
Qed.

Lemma on_ok field `{!Update field} (op : M Signal unit) (k : unit -> M Top unit) top s :
  op (field top) = (Ok tt, s) -> bind (on field op) k top = k tt (top <| field := s |>).
Proof. unfold bind, on. by intros ->. Qed.

Lemma on_last field `{!Update field} (op : M Signal unit) top s :
  op (field top) = (Ok tt, s) -> on field op top = (Ok tt, top <| field := s |>).
Proof. unfold on. by intros ->. Qed.

Section Driven.
Context (values : list SlaveSignals).

(** The signals after the first [n] ports have been driven. *)
Record driven (n : nat) (top0 top : Top) : Prop := {
  dr_aw_ready : filled 1 (fun port => Z.testbit (b2z (s_aw_ready (values !!! port)))) n
    (axi_aw_ready top0) (axi_aw_ready top);
  dr_w_ready : filled 1 (fun port => Z.testbit (b2z (s_w_ready (values !!! port)))) n
    (axi_w_ready top0) (axi_w_ready top);
  dr_b_valid : filled 1 (fun port => Z.testbit (b2z (s_b_valid (values !!! port)))) n
    (axi_b_valid top0) (axi_b_valid top);
  dr_b_id : filled IdBits (fun port => Z.testbit (wr_id (s_b (values !!! port)))) n
    (axi_b_id top0) (axi_b_id top);
  dr_b_resp : filled 2 (fun port => Z.testbit (response_code (wr_response (s_b (values !!! port))))) n
    (axi_b_resp top0) (axi_b_resp top);
  dr_ar_ready : filled 1 (fun port => Z.testbit (b2z (s_ar_ready (values !!! port)))) n
    (axi_ar_ready top0) (axi_ar_ready top);
  dr_r_valid : filled 1 (fun port => Z.testbit (b2z (s_r_valid (values !!! port)))) n
    (axi_r_valid top0) (axi_r_valid top);
  dr_r_id : filled IdBits (fun port => Z.testbit (rd_id (s_r (values !!! port)))) n
    (axi_r_id top0) (axi_r_id top);
  dr_r_data : filled DataBits (fun port => bytes_bit (rd_data (s_r (values !!! port)))) n
    (axi_r_data top0) (axi_r_data top);
  dr_r_resp : filled 2 (fun port => Z.testbit (response_code (rd_response (s_r (values !!! port))))) n
    (axi_r_resp top0) (axi_r_resp top);
  dr_r_last : filled 1 (fun port => Z.testbit (b2z (rd_last (s_r (values !!! port))))) n
    (axi_r_last top0) (axi_r_last top);
  dr_inputs : inputs_of top = inputs_of top0
}.

Lemma driven_0 top : top_wf top -> driven 0 top top.
Proof. intros []. constructor; (apply filled_0; by eapply proj1) || done. Qed.

Lemma drive_port_fills top0 top n :
  top_wf top0 -> driven n top0 top -> (n < NumPorts)%nat ->
  length (rd_data (s_r (values !!! n))) = DATA_BYTES ->
  exists top', drive_port values n top = (Ok tt, top') /\ driven (S n) top0 top'.
Proof.
  intros [] [] Hn Hlen. pose proof binding_id. unfold drive_port.
  destruct (fill_bit (fun port => s_aw_ready (values !!! port)) n (axi_aw_ready top0) (axi_aw_ready top))
    as (s1 & E1 & F1); [done..|].
  destruct (fill_bit (fun port => s_w_ready (values !!! port)) n (axi_w_ready top0) (axi_w_ready top))
    as (s2 & E2 & F2); [done..|].
  destruct (fill_bit (fun port => s_b_valid (values !!! port)) n (axi_b_valid top0) (axi_b_valid top))
    as (s3 & E3 & F3); [done..|].
  destruct (fill_u64 IdBits (fun port => wr_id (s_b (values !!! port))) n (axi_b_id top0) (axi_b_id top))
    as (s4 & E4 & F4); [lia | done..|].
  destruct (fill_u64 2 (fun port => response_code (wr_response (s_b (values !!! port)))) n (axi_b_resp top0) (axi_b_resp top))
    as (s5 & E5 & F5); [lia | done..|].
  destruct (fill_bit (fun port => s_ar_ready (values !!! port)) n (axi_ar_ready top0) (axi_ar_ready top))
    as (s6 & E6 & F6); [done..|].
  destruct (fill_bit (fun port => s_r_valid (values !!! port)) n (axi_r_valid top0) (axi_r_valid top))
    as (s7 & E7 & F7); [done..|].
  destruct (fill_u64 IdBits (fun port => rd_id (s_r (values !!! port))) n (axi_r_id top0) (axi_r_id top))
    as (s8 & E8 & F8); [lia | done..|].
  destruct (fill_bytes (fun port => rd_data (s_r (values !!! port))) n (axi_r_data top0) (axi_r_data top))
    as (s9 & E9 & F9); [done..|].
  destruct (fill_u64 2 (fun port => response_code (rd_response (s_r (values !!! port)))) n (axi_r_resp top0) (axi_r_resp top))
    as (s10 & E10 & F10); [lia | done..|].
  destruct (fill_bit (fun port => rd_last (s_r (values !!! port))) n (axi_r_last top0) (axi_r_last top))
    as (s11 & E11 & F11); [done..|].
  rewrite (on_ok axi_aw_ready _ _ _ s1) by exact E1.
  rewrite (on_ok axi_w_ready _ _ _ s2) by exact E2.
  rewrite (on_ok axi_b_valid _ _ _ s3) by exact E3.
  rewrite (on_ok axi_b_id _ _ _ s4) by exact E4.
  rewrite (on_ok axi_b_resp _ _ _ s5) by exact E5.
  rewrite (on_ok axi_ar_ready _ _ _ s6) by exact E6.
  rewrite (on_ok axi_r_valid _ _ _ s7) by exact E7.
  rewrite (on_ok axi_r_id _ _ _ s8) by exact E8.
  rewrite (on_ok axi_r_data _ _ _ s9) by exact E9.
  rewrite (on_ok axi_r_resp _ _ _ s10) by exact E10.
  rewrite (on_last axi_r_last _ _ s11) by exact E11.
  eexists. split; [done|]. by constructor.
Qed.
End Driven.

Lemma drive_ports_spec values top0 k n top :
  top_wf top0 -> driven values n top0 top -> (n + k <= NumPorts)%nat ->
  (forall port, (port < NumPorts)%nat -> length (rd_data (s_r (values !!! port))) = DATA_BYTES) ->
  exists top', for_each (seq n k) (drive_port values) top = (Ok tt, top') /\
    driven values (n + k) top0 top'.
Proof.
  intros Ht. revert n top. induction k as [|k IH]; intros n top Hd Hk Hlen.
  { exists top. by rewrite Nat.add_0_r. }
  cbn [seq for_each]. unfold bind.
  destruct (drive_port_fills values top0 top n) as (top1 & -> & Hd1); [done | done | lia | apply Hlen; lia|].
  destruct (IH (S n) top1) as (top' & -> & Hd'); [done | lia | done|].
  exists top'. split; [done|]. by replace (n + S k)%nat with (S n + k)%nat by lia.
Qed.

(** What the DUT sees of one port. *)
Record port_driven (port : nat) (v : SlaveSignals) top : Prop := {
  pd_aw_ready : bit (axi_aw_ready top) (Z.of_nat port) = Ok (s_aw_ready v);
  pd_w_ready : bit (axi_w_ready top) (Z.of_nat port) = Ok (s_w_ready v);
  pd_b_valid : bit (axi_b_valid top) (Z.of_nat port) = Ok (s_b_valid v);
  pd_b_id : read_u64 (axi_b_id top) (Z.of_nat port * IdBits) IdBits
            = Ok (wr_id (s_b v) mod 2 ^ IdBits);
  pd_b_resp : read_u64 (axi_b_resp top) (Z.of_nat port * 2) 2
              = Ok (response_code (wr_response (s_b v)));
  pd_ar_ready : bit (axi_ar_ready top) (Z.of_nat port) = Ok (s_ar_ready v);
  pd_r_valid : bit (axi_r_valid top) (Z.of_nat port) = Ok (s_r_valid v);
  pd_r_id : read_u64 (axi_r_id top) (Z.of_nat port * IdBits) IdBits
            = Ok (rd_id (s_r v) mod 2 ^ IdBits);
  pd_r_data : Forall (fits 8) (rd_data (s_r v)) ->
    read_bytes DATA_BYTES (axi_r_data top) (Z.of_nat port * DataBits) = Ok (rd_data (s_r v));
  pd_r_resp : read_u64 (axi_r_resp top) (Z.of_nat port * 2) 2
              = Ok (response_code (rd_response (s_r v)));
  pd_r_last : bit (axi_r_last top) (Z.of_nat port) = Ok (rd_last (s_r v))
}.

(** The data is an array of the width of the bus. *)
Definition slave_wf (v : SlaveSignals) : Prop := length (rd_data (s_r v)) = DATA_BYTES.

Lemma response_code_mod r : response_code r mod 2 ^ 2 = response_code r.
Proof. by destruct r. Qed.

Lemma filled_port_bit v s0 s port :
  has_fields 1 s0 -> filled 1 (fun port => Z.testbit (b2z (v port))) NumPorts s0 s ->
  (port < NumPorts)%nat -> bit s (Z.of_nat port) = Ok (v port).
Proof.
  intros Hs Hf Hp. rewrite (filled_bit _ NumPorts s0 s port Hs Hf eq_refl Hp). by destruct (v port).
Qed.

Lemma driven_port values top0 top port :
  top_wf top0 -> driven values NumPorts top0 top -> (port < NumPorts)%nat ->
  slave_wf (values !!! port) -> port_driven port (values !!! port) top.
Proof.
  intros [] [] Hp Hlen. pose proof binding_id.
  constructor.
  - by apply (filled_port_bit (fun port => s_aw_ready (values !!! port)) (axi_aw_ready top0)).
  - by apply (filled_port_bit (fun port => s_w_ready (values !!! port)) (axi_w_ready top0)).
  - by apply (filled_port_bit (fun port => s_b_valid (values !!! port)) (axi_b_valid top0)).
  - apply (filled_u64 IdBits (fun port => wr_id (s_b (values !!! port))) NumPorts (axi_b_id top0)); done || lia.
  - rewrite <- response_code_mod.
    apply (filled_u64 2 (fun port => response_code (wr_response (s_b (values !!! port)))) NumPorts (axi_b_resp top0)); done || lia.
  - by apply (filled_port_bit (fun port => s_ar_ready (values !!! port)) (axi_ar_ready top0)).
  - by apply (filled_port_bit (fun port => s_r_valid (values !!! port)) (axi_r_valid top0)).
  - apply (filled_u64 IdBits (fun port => rd_id (s_r (values !!! port))) NumPorts (axi_r_id top0)); done || lia.
  - intros Hf. by apply (filled_bytes (fun port => rd_data (s_r (values !!! port))) NumPorts (axi_r_data top0)).
  - rewrite <- response_code_mod.
    apply (filled_u64 2 (fun port => response_code (rd_response (s_r (values !!! port)))) NumPorts (axi_r_resp top0)); done || lia.
  - by apply (filled_port_bit (fun port => rd_last (s_r (values !!! port))) (axi_r_last top0)).
Qed.

Lemma filled_has_fields width f n s0 s :
  has_fields width s0 -> filled width f n s0 s -> has_fields width s.
Proof. intros [_ Hb] [[Hs' Hb'] _]. split; [done | by rewrite Hb']. Qed.

Lemma driven_wf values n top0 top : top_wf top0 -> driven values n top0 top -> top_wf top.
Proof.
  intros [] [].
  repeat match goal with
         | Hf : filled ?w _ _ (?field top0) (?field top), Hs : has_fields _ (?field top0) |- _ =>
             apply (filled_has_fields w _ _ _ _ Hs) in Hf
         end.
  injection dr_inputs0 as ? ? ? ? ? ? ? ? ? ? ? ? ? ? ? ? ? ? ? ? ? ? ? ?.
  constructor; congruence || done.
Qed.

Lemma sample_same_inputs top top' : inputs_of top' = inputs_of top -> sample top' = sample top.
Proof.
  intros Hi. unfold sample. induction (seq 0 NumPorts) as [|port ports IH]; [done|].
  cbn [sample_ports]. rewrite IH. assert (sample_port top' port = sample_port top port) as ->; [|done].
  injection Hi as ? ? ? ? ? ? ? ? ? ? ? ? ? ? ? ? ? ? ? ? ? ? ? ?. unfold sample_port.
  repeat match goal with H : _ top' = _ top |- _ => rewrite H; clear H end. done.
Qed.

Lemma driven_cycle_spec top values :
  top_wf top -> (forall port, (port < NumPorts)%nat -> slave_wf (values !!! port)) ->
  exists top', drive_top values top = (Ok tt, top') /\ top_wf top' /\ sample top' = sample top /\
    forall port, (port < NumPorts)%nat -> port_driven port (values !!! port) top'.
Proof.
  intros Ht Hv. destruct (drive_ports_spec values top NumPorts 0 top Ht) as (top' & E & Hd);
    [by apply driven_0 | lia | intros; by apply Hv|].
  exists top'. split_and!; [done | by eapply driven_wf | apply sample_same_inputs, Hd|].
  intros port Hp. by eapply driven_port; [done | done | done | apply Hv].
Qed.

(** C30: [drive] presents a cycle to the model.  Every port's fields of the
    model's inputs read back as the values of that port (ids cut to [IdBits]),
    for all ports at once although they share the packed signals, and nothing
    that [sample] reads has changed. *)
Theorem driven_cycle_reads_back top values :
  top_wf top -> (forall port, (port < NumPorts)%nat -> slave_wf (values !!! port)) ->
  exists top', drive_top values top = (Ok tt, top') /\ top_wf top' /\ sample top' = sample top /\
    forall port, (port < NumPorts)%nat -> port_driven port (values !!! port) top'.
Proof. apply driven_cycle_spec. Qed.
End Binding.
