(* ===== verification/Platform.v ===== *)
(** * The platform (src/platform.hpp, src/platform.cpp, examples/fuxi/sim/fuxi_platform.cpp)

    Device types with their options, platform specifications, and the
    [Platform] that is built from them: the device objects (a [Heap]), the
    address map and the sideband connections with their settling order.
    [PlatformTheorems.v] has the theorems. *)
From Stdlib Require Import Ascii.
From stdpp Require Import sorting.
From S2P Require Import Prelude Text Axi Device Memory Uart Interrupts Heap Host.

Definition invalid {A} (message : string) : result A := Throw (InvalidArgument message).

(** ** Names *)

(** [text.find(c)]: the text before and after the first [c]. *)
Fixpoint split_at (c : ascii) (text : string) : option (string * string) :=
  match text with
  | EmptyString => None
  | String a rest =>
      if bool_decide (a = c) then Some (EmptyString, rest)
      else match split_at c rest with
           | Some (before, after) => Some (String a before, after)
           | None => None
           end
  end.

Definition endpoint (text : string) : result (string * string) :=
  match split_at "."%char text with
  | Some (instance, port) =>
      if bool_decide (instance = EmptyString) || bool_decide (port = EmptyString)
      then invalid ("expected instance.port: " +:+ text)
      else Ok (instance, port)
  | None => invalid ("expected instance.port: " +:+ text)
  end.

Definition name_char (c : ascii) : bool :=
  let n := nat_of_ascii c in
  ((97 <=? n) && (n <=? 122) || (65 <=? n) && (n <=? 90) || (48 <=? n) && (n <=? 57)
   || (n =? 95) || (n =? 45))%nat.

Fixpoint all_chars (f : ascii -> bool) (s : string) : bool :=
  match s with
  | EmptyString => true
  | String c rest => f c && all_chars f rest
  end.

Definition validate_name (name : string) : result unit :=
  guard negb (bool_decide (name = EmptyString)) && all_chars name_char name
    else InvalidArgument ("invalid name: " +:+ name) in
  Ok tt.

(** ** Options and configurations *)
Definition Properties : Type := gmap string string.

Inductive OptionKind := OptString | OptUnsigned | OptBoolean.
#[export] Instance OptionKind_eq_dec : EqDecision OptionKind.
Proof. solve_decision. Defined.

Record DeviceOption := {
  option_name : string;
  option_kind : OptionKind;
  default_value : string;
  option_help : string;
  minimum : Z;
  maximum : Z
}.

(** [std::map::emplace]: an existing entry stays. *)
Definition emplace {A} (key : string) (value : A) (m : gmap string A) : gmap string A :=
  match m !! key with Some _ => m | None => <[key := value]> m end.

Definition config_text (values : Properties) (name : string) : result string :=
  match values !! name with
  | Some value => Ok value
  | None => invalid ("unknown device option: " +:+ name)
  end.

Definition config_number (values : Properties) (name : string) : result Z :=
  try text := config_text values name in parse_unsigned text.

Definition config_boolean (values : Properties) (name : string) : result bool :=
  try text := config_text values name in Ok (bool_decide (text = "true")).

(** ** Specifications *)
Record DeviceSpec := { spec_id : string; spec_type : string; spec_properties : Properties }.
Record MappingSpec := { mapping_device : string; mapping_base : Z; mapping_size : Z }.
Record ConnectionSpec := { source : string; destination : string }.
Record PlatformSpec := mk_platform_spec {
  devices : list DeviceSpec;
  mappings : list MappingSpec;
  connections : list ConnectionSpec
}.
#[export] Instance DeviceSpec_eta : Eta DeviceSpec := fun d =>
  Build_DeviceSpec (spec_id d) (spec_type d) (spec_properties d).
#[export] Instance PlatformSpec_eta : Eta PlatformSpec := fun s =>
  mk_platform_spec (devices s) (mappings s) (connections s).

(** [PlatformSpec::device]: the index of the instance. *)
Definition spec_device (id : string) (spec : PlatformSpec) : result nat :=
  match list_find (fun d => spec_id d = id) (devices spec) with
  | Some (i, _) => Ok i
  | None => invalid ("unknown device instance: " +:+ id)
  end.

Fixpoint erase_connections (id : string) (l : list ConnectionSpec) : result (list ConnectionSpec) :=
  match l with
  | [] => Ok []
  | c :: rest =>
      try (src, _) := endpoint (source c) in
      try erase :=
        if bool_decide (src = id) then Ok true
        else try (dst, _) := endpoint (destination c) in Ok (bool_decide (dst = id)) in
      try kept := erase_connections id rest in
      Ok (if (erase : bool) then kept else c :: kept)
  end.

Definition spec_remove (id : string) (spec : PlatformSpec) : result PlatformSpec :=
  try _ := spec_device id spec in
  try kept := erase_connections id (connections spec) in
  Ok {| devices := filter (fun d => spec_id d <> id) (devices spec);
        mappings := filter (fun m => mapping_device m <> id) (mappings spec);
        connections := kept |}.

Definition spec_map (id : string) (base size : Z) (spec : PlatformSpec) : result PlatformSpec :=
  try _ := spec_device id spec in
  Ok (spec <| mappings ::= fun l =>
        filter (fun m => mapping_device m <> id) l
        ++ [{| mapping_device := id; mapping_base := base; mapping_size := size |}] |>).

Definition spec_set (assignment : string) (spec : PlatformSpec) : result PlatformSpec :=
  match split_at "="%char assignment with
  | None => invalid "expected instance.option=value"
  | Some (target, value) =>
      try (id, key) := endpoint target in
      try i := spec_device id spec in
      Ok (spec <| devices ::= alter (fun d => d <| spec_properties ::= <[key := value]> |>) i |>)
  end.

Record DefaultMap := {
  rom_base : Z; rom_size : Z;
  ram_base : Z; ram_size : Z;
  uart_base : Z; uart_size : Z;
  exit_base : Z; exit_size : Z
}.

Definition default_map : DefaultMap := {|
  rom_base := 0; rom_size := 0x10000;
  ram_base := 0x80000000; ram_size := 0x08000000;
  uart_base := 0x10000000; uart_size := 0x100;
  exit_base := 0x10001000; exit_size := 4
|}.

Definition default_platform (m : DefaultMap) : PlatformSpec := {|
  devices :=
    [ {| spec_id := "rom"; spec_type := "rom";
         spec_properties := {[ "size" := to_string (rom_size m) ]} |};
      {| spec_id := "ram"; spec_type := "ram";
         spec_properties := {[ "size" := to_string (ram_size m) ]} |};
      {| spec_id := "uart"; spec_type := "uart"; spec_properties := ∅ |};
      {| spec_id := "exit"; spec_type := "exit"; spec_properties := ∅ |} ];
  mappings :=
    [ {| mapping_device := "rom"; mapping_base := rom_base m; mapping_size := rom_size m |};
      {| mapping_device := "ram"; mapping_base := ram_base m; mapping_size := ram_size m |};
      {| mapping_device := "uart"; mapping_base := uart_base m; mapping_size := uart_size m |};
      {| mapping_device := "exit"; mapping_base := exit_base m; mapping_size := exit_size m |} ];
  connections := []
|}.

(** ** Device types and their registry *)

(** [UartDevice] on two C streams. *)
Class UartStreams `{!HostSystem} (B : Type) := stream_backend : File -> File -> B.

Section Registry.
Context `{!HostSystem} {B : Type} `{!UartBackend B, !UartStreams B}.

(** [create] is [None] for an empty [std::function]; it returns [None] for a
    null device. *)
Record DeviceType := {
  type_options : list DeviceOption;
  create : option (Properties -> M HostState (option (AnyDevice B)));
  image_option : string
}.

Definition DeviceRegistry : Type := gmap string DeviceType.

Definition find_option (name : string) (options : list DeviceOption) : option DeviceOption :=
  List.find (fun o => bool_decide (option_name o = name)) options.

Fixpoint check_options (names : list string) (options : list DeviceOption) : result unit :=
  match options with
  | [] => Ok tt
  | o :: rest =>
      try _ := validate_name (option_name o) in
      guard negb (bool_decide (option_name o ∈ names))
        else InvalidArgument ("duplicate device option: " +:+ option_name o) in
      guard negb (maximum o <? minimum o)
        else InvalidArgument ("invalid option bounds: " +:+ option_name o) in
      check_options (option_name o :: names) rest
  end.

Definition check_image_option (type : DeviceType) : result unit :=
  if bool_decide (image_option type = EmptyString) then Ok tt
  else match find_option (image_option type) (type_options type) with
       | Some o => guard bool_decide (option_kind o = OptString)
                     else InvalidArgument "image option must be a string property" in Ok tt
       | None => invalid "image option must be a string property"
       end.

Definition registry_add (name : string) (type : DeviceType) (registry : DeviceRegistry)
  : result DeviceRegistry :=
  try _ := validate_name name in
  guard bool_decide (is_Some (create type))
    else InvalidArgument ("missing device factory: " +:+ name) in
  try _ := check_options [] (type_options type) in
  try _ := check_image_option type in
  match registry !! name with
  | Some _ => invalid ("duplicate device type: " +:+ name)
  | None => Ok (<[name := type]> registry)
  end.

Definition registry_type (name : string) (registry : DeviceRegistry) : result DeviceType :=
  match registry !! name with
  | Some type => Ok type
  | None => invalid ("unknown device type: " +:+ name)
  end.

(** The keys of a [std::map], in its order. *)
Definition sorted_keys (properties : Properties) : list string :=
  merge_sort String.le (map_to_list properties).*1.

Fixpoint check_keys (name : string) (schema : list DeviceOption) (keys : list string) : result unit :=
  match keys with
  | [] => Ok tt
  | key :: rest =>
      guard bool_decide (is_Some (find_option key schema))
        else InvalidArgument ("unknown option for " +:+ name +:+ ": " +:+ key) in
      check_keys name schema rest
  end.

Definition check_value (o : DeviceOption) (value : string) : result unit :=
  match option_kind o with
  | OptUnsigned =>
      try number := parse_unsigned value in
      guard negb ((number <? minimum o) || (maximum o <? number))
        else InvalidArgument ("option out of range: " +:+ option_name o) in
      Ok tt
  | OptBoolean =>
      guard bool_decide (value = "true") || bool_decide (value = "false")
        else InvalidArgument ("option expects true or false: " +:+ option_name o) in
      Ok tt
  | OptString => Ok tt
  end.

Fixpoint configure_options (properties : Properties) (schema : list DeviceOption)
    (values : Properties) : result Properties :=
  match schema with
  | [] => Ok values
  | o :: rest =>
      let value := default (default_value o) (properties !! option_name o) in
      try _ := check_value o value in
      configure_options properties rest (emplace (option_name o) value values)
  end.

Definition configure (name : string) (properties : Properties) (registry : DeviceRegistry)
  : result Properties :=
  try type := registry_type name registry in
  try _ := check_keys name (type_options type) (sorted_keys properties) in
  configure_options properties (type_options type) ∅.

(** [DeviceRegistry::print_help] *)
Definition option_line (o : DeviceOption) : string :=
  "    " +:+ option_name o +:+ " (default '" +:+ default_value o +:+ "'): " +:+ option_help o
  +:+ newline.

Definition registry_help (registry : DeviceRegistry) : string :=
  newline +:+ "Device properties (--set INSTANCE.PROPERTY=VALUE):" +:+ newline +:+
  concatenate (flat_map
    (fun name =>
       match registry !! name with
       | Some type => ("  " +:+ name +:+ newline) :: map option_line (type_options type)
       | None => []
       end)
    (merge_sort String.le (map_to_list registry).*1)).

(** ** The built-in types *)
Definition memory_options : list DeviceOption := [
  {| option_name := "size"; option_kind := OptUnsigned; default_value := "65536";
     option_help := "Memory capacity in bytes";
     minimum := 1; maximum := UINT64_MAX |};
  {| option_name := "image"; option_kind := OptString; default_value := "";
     option_help := "Raw image loaded at the device's sole mapping";
     minimum := 0; maximum := UINT64_MAX |} ].

Definition rom_type : DeviceType := {|
  type_options := memory_options;
  create := Some (fun c =>
    do size := lift (config_number c "size") in
    do bytes := mk_rom [] size in
    ret (Some (DevRom bytes)));
  image_option := "image"
|}.

Definition ram_type : DeviceType := {|
  type_options := memory_options;
  create := Some (fun c =>
    do size := lift (config_number c "size") in
    do bytes := mk_ram size in
    ret (Some (DevRam bytes)));
  image_option := "image"
|}.

Definition uart_type : DeviceType := {|
  type_options := [
    {| option_name := "input"; option_kind := OptString; default_value := "-";
       option_help := "Input file, or - for stdin";
       minimum := 0; maximum := UINT64_MAX |};
    {| option_name := "output"; option_kind := OptString; default_value := "-";
       option_help := "Output file, or - for stdout";
       minimum := 0; maximum := UINT64_MAX |};
    {| option_name := "character-cycles"; option_kind := OptUnsigned; default_value := "16";
       option_help := "Simulated cycles per RX timeout character";
       minimum := 1; maximum := UINT64_MAX / 4 |};
    {| option_name := "input-poll-cycles"; option_kind := OptUnsigned; default_value := "1024";
       option_help := "Cycles between empty host input polls (1 for immediate polling)";
       minimum := 1; maximum := UINT64_MAX |} ];
  create := Some (fun c =>
    do input_path := lift (config_text c "input") in
    do input := open_input input_path in
    do output_path := lift (config_text c "output") in
    do output := open_output output_path in
    let uart := mk_uart (stream_backend input output) in
    do cycles := lift (config_number c "character-cycles") in
    do uart := lift (set_character_cycles cycles uart) in
    do poll := lift (config_number c "input-poll-cycles") in
    do uart := lift (set_input_poll_cycles poll uart) in
    ret (Some (DevUart uart)));
  image_option := ""
|}.

Definition exit_type : DeviceType := {|
  type_options := [];
  create := Some (fun _ => ret (Some (DevExit exit_init)));
  image_option := ""
|}.

Definition register_builtin_devices (registry : DeviceRegistry) : result DeviceRegistry :=
  try registry := registry_add "rom" rom_type registry in
  try registry := registry_add "ram" ram_type registry in
  try registry := registry_add "uart" uart_type registry in
  registry_add "exit" exit_type registry.

(** ** The Fuxi platform *)
Definition clint_type : DeviceType := {|
  type_options := [
    {| option_name := "divider"; option_kind := OptUnsigned; default_value := "1";
       option_help := "CPU cycles per mtime tick";
       minimum := 1; maximum := UINT64_MAX |} ];
  create := Some (fun c =>
    do divider := lift (config_number c "divider") in
    do clint := lift (mk_clint divider) in
    ret (Some (DevClint clint)));
  image_option := ""
|}.

Definition plic_type : DeviceType := {|
  type_options := [
    {| option_name := "sources"; option_kind := OptUnsigned; default_value := "31";
       option_help := "External interrupt sources";
       minimum := 1; maximum := 1023 |};
    {| option_name := "contexts"; option_kind := OptUnsigned; default_value := "2";
       option_help := "Interrupt target contexts";
       minimum := 1; maximum := 64 |} ];
  create := Some (fun c =>
    do sources := lift (config_number c "sources") in
    do contexts := lift (config_number c "contexts") in
    do plic := lift (mk_plic (Z.to_nat (u32 sources)) (Z.to_nat (u32 contexts))) in
    ret (Some (DevPlic plic (replicate (sources_ plic + 1) None))));
  image_option := ""
|}.

Definition fuxi_register_devices (registry : DeviceRegistry) : result DeviceRegistry :=
  try registry := registry_add "riscv-clint" clint_type registry in
  registry_add "riscv-plic" plic_type registry.

(** The generated constants of fuxi_platform.h. *)
Class FuxiConfig := {
  FUXI_CLINT_BASE : Z; FUXI_CLINT_SIZE : Z;
  FUXI_PLIC_BASE : Z; FUXI_PLIC_SIZE : Z;
  FUXI_UART_IRQ : Z
}.

Definition fuxi_defaults `{!FuxiConfig} (m : DefaultMap) : result PlatformSpec :=
  let spec := default_platform m in
  let spec := spec <| devices ::= fun l => l ++
    [ {| spec_id := "clint"; spec_type := "riscv-clint"; spec_properties := ∅ |};
      {| spec_id := "plic"; spec_type := "riscv-plic"; spec_properties := ∅ |} ] |> in
  try spec := spec_map "clint" FUXI_CLINT_BASE FUXI_CLINT_SIZE spec in
  try spec := spec_map "plic" FUXI_PLIC_BASE FUXI_PLIC_SIZE spec in
  Ok (spec <| connections ::= fun l => l ++
    [ {| source := "uart.irq";
         destination := "plic.source" +:+ to_string FUXI_UART_IRQ |} ] |>).
End Registry.
Arguments DeviceType {_} B.
Arguments DeviceRegistry {_} B.
