(* ===== verification/PlatformInstance.v ===== *)
(** * Platform instances (class [Platform] of src/platform.hpp, src/platform.cpp)

    Construction in the order of the code (configurations, devices, windows,
    images, connections, reset) and the operations of a clock cycle.  The
    devices are allocated in the order of the specification, so that the
    pointer of a device is its index there. *)
From S2P Require Import Prelude Text Axi Device Memory Uart Interrupts Heap Host Platform.

Record RawImage := { image_path : string; image_address : Z }.

Section Instances.
Context `{!HostSystem} {B : Type} `{!UartBackend B, !UartStreams B}.
Implicit Types (h : Heap B) (registry : DeviceRegistry B) (instances : gmap string DevicePtr).

Record Platform := mk_platform {
  heap_ : Heap B;
  devices_ : gmap string DevicePtr;
  order_ : list DevicePtr;
  address_space_ : AddressSpace;
  images_ : list RawImage;
  was_reset_ : bool
}.
#[export] Instance Platform_eta : Eta Platform := fun p =>
  mk_platform (heap_ p) (devices_ p) (order_ p) (address_space_ p) (images_ p) (was_reset_ p).

(** ** Devices *)
Fixpoint make_configs registry (specs : list DeviceSpec) (configs : gmap string Properties)
  : result (gmap string Properties) :=
  match specs with
  | [] => Ok configs
  | d :: rest =>
      try _ := validate_name (spec_id d) in
      try config := configure (spec_type d) (spec_properties d) registry in
      match configs !! spec_id d with
      | Some _ => invalid ("duplicate device instance: " +:+ spec_id d)
      | None => make_configs registry rest (<[spec_id d := config]> configs)
      end
  end.

(** [configs.at(id)] *)
Definition config_of (configs : gmap string Properties) (id : string) : result Properties :=
  match configs !! id with
  | Some config => Ok config
  | None => Throw (OutOfRange "map::at")
  end.

Definition make_device registry (configs : gmap string Properties) (d : DeviceSpec)
  : M HostState (AnyDevice B) :=
  do type := lift (registry_type (spec_type d) registry) in
  do config := lift (config_of configs (spec_id d)) in
  match create type with
  | None => throw (RuntimeError "bad_function_call")
  | Some factory =>
      do created := factory config in
      match created with
      | None => lift (invalid ("factory returned null: " +:+ spec_id d))
      | Some device => ret device
      end
  end.

Fixpoint make_devices registry (configs : gmap string Properties) (specs : list DeviceSpec)
    h instances : M HostState (Heap B * gmap string DevicePtr) :=
  match specs with
  | [] => ret (h, instances)
  | d :: rest =>
      do device := make_device registry configs d in
      make_devices registry configs rest (h ++ [device])
        (emplace (A := DevicePtr) (spec_id d) (length h) instances)
  end.

Definition platform_device instances (id : string) : result DevicePtr :=
  match instances !! id with
  | Some d => Ok d
  | None => invalid ("unknown device instance: " +:+ id)
  end.

(** ** Windows and images *)
Fixpoint map_windows instances (address_bits : Z) (specs : list MappingSpec) (space : AddressSpace)
  : result AddressSpace :=
  match specs with
  | [] => Ok space
  | m :: rest =>
      guard negb ((address_bits =? 32) &&
                  ((2 ^ 32 <=? mapping_base m) || (2 ^ 32 - mapping_base m <? mapping_size m)))
        else InvalidArgument ("mapping does not fit 32-bit address space: " +:+ mapping_device m) in
      try device := platform_device instances (mapping_device m) in
      try space := space_map (mapping_base m) (mapping_size m) device (mapping_device m) space in
      map_windows instances address_bits rest space
  end.

Fixpoint collect_images registry (configs : gmap string Properties) (windows : list MappingSpec)
    (specs : list DeviceSpec) : result (list RawImage) :=
  match specs with
  | [] => Ok []
  | d :: rest =>
      try type := registry_type (spec_type d) registry in
      try image :=
        if bool_decide (image_option type = EmptyString) then Ok None
        else
          try config := config_of configs (spec_id d) in
          try path := config_text config (image_option type) in
          if bool_decide (path = EmptyString) then Ok None
          else match filter (fun m => mapping_device m = spec_id d) windows with
               | [m] => Ok (Some {| image_path := path; image_address := mapping_base m |})
               | _ => invalid ("image property requires exactly one mapping: " +:+ spec_id d)
               end in
      try images := collect_images registry configs windows rest in
      Ok (option_list image ++ images)
  end.

(** ** Connections *)

(** The width of an [InputSignal] (the default; no device changes it). *)
Definition INPUT_WIDTH : Z := 1.

Definition input_source h (d : DevicePtr) (i : nat) : option SignalRef :=
  match h !! d with
  | Some (DevPlic p inputs) => mjoin (inputs !! i)
  | _ => None
  end.

Definition set_source (d : DevicePtr) (i : nat) (signal : SignalRef) h : Heap B :=
  alter (fun device =>
           match device with
           | DevPlic p inputs => DevPlic p (<[i := Some signal]> inputs)
           | other => other
           end) d h.

(** [Platform::output] *)
Definition platform_output instances h (name : string) (width : Z) : result SignalRef :=
  try (id, port) := endpoint name in
  try d := platform_device instances id in
  match h !! d ≫= fun device => device_output device port with
  | None => invalid ("unknown output: " +:+ name)
  | Some signal =>
      guard negb (negb (sig_width signal =? width) || (width =? 0) || (64 <? width))
        else InvalidArgument ("signal width mismatch: " +:+ name) in
      Ok (d, port)
  end.

Record Wiring := {
  wired : Heap B;
  successors : gmap DevicePtr (list DevicePtr);
  indegree : gmap DevicePtr nat
}.

Definition connect_one instances (c : ConnectionSpec) (w : Wiring) : result Wiring :=
  try (src_id, _) := endpoint (source c) in
  try (dst_id, dst_port) := endpoint (destination c) in
  try src := platform_device instances src_id in
  try dst := platform_device instances dst_id in
  match wired w !! dst ≫= fun device => device_input device dst_port with
  | None => invalid ("unknown input: " +:+ destination c)
  | Some i =>
      match input_source (wired w) dst i with
      | Some _ => invalid ("input has multiple drivers: " +:+ destination c)
      | None =>
          try signal := platform_output instances (wired w) (source c) INPUT_WIDTH in
          Ok {| wired := set_source dst i signal (wired w);
                successors := <[src := default [] (successors w !! src) ++ [dst]]> (successors w);
                indegree := <[dst := S (default 0%nat (indegree w !! dst))]> (indegree w) |}
      end
  end.

Fixpoint connect_all instances (l : list ConnectionSpec) (w : Wiring) : result Wiring :=
  match l with
  | [] => Ok w
  | c :: rest => try w := connect_one instances c w in connect_all instances rest w
  end.

(** ** The settling order: [order_] grows while it is walked. *)
Fixpoint visit_successors (next : list DevicePtr) (indegree : gmap DevicePtr nat)
    (order : list DevicePtr) : gmap DevicePtr nat * list DevicePtr :=
  match next with
  | [] => (indegree, order)
  | d :: rest =>
      let n := (default 0 (indegree !! d) - 1)%nat in
      visit_successors rest (<[d := n]> indegree)
        (if (n =? 0)%nat then order ++ [d] else order)
  end.

Fixpoint topological_order (fuel i : nat) (succ : gmap DevicePtr (list DevicePtr))
    (indegree : gmap DevicePtr nat) (order : list DevicePtr) : list DevicePtr :=
  match fuel with
  | O => order
  | S fuel' =>
      match order !! i with
      | None => order
      | Some d =>
          let '(indegree, order) := visit_successors (default [] (succ !! d)) indegree order in
          topological_order fuel' (S i) succ indegree order
      end
  end.

(** The devices of the specification, in its order. *)
Definition device_pointers instances (specs : list DeviceSpec) : list DevicePtr :=
  omap (fun d => instances !! spec_id d) specs.

Definition connect instances (spec : PlatformSpec) h : result (Heap B * list DevicePtr) :=
  let pointers := device_pointers instances (devices spec) in
  let start := {| wired := h; successors := ∅;
                  indegree := foldl (fun m d => <[d := 0%nat]> m) ∅ pointers |} in
  try w := connect_all instances (connections spec) start in
  let roots := filter (fun d => indegree w !! d = Some 0%nat) pointers in
  let order := topological_order (length pointers) 0 (successors w) (indegree w) roots in
  guard (length order =? size instances)%nat
    else InvalidArgument "sideband connection cycle" in
  Ok (wired w, order).

(** ** Cycles *)
Definition settle_all (order : list DevicePtr) h : Heap B :=
  foldl (fun h d => heap_call settle_device d h) h order.

Definition platform_settle (p : Platform) : Platform :=
  p <| heap_ ::= settle_all (order_ p) |>.

Definition platform_reset (p : Platform) : Platform :=
  platform_settle
    (p <| heap_ ::= fun h => foldl (fun h d => heap_call reset_device d h) h (order_ p) |>).

Definition begin_cycle (reset_active : bool) (p : Platform) : Platform :=
  (if reset_active && negb (was_reset_ p) then platform_reset p else p)
    <| was_reset_ := reset_active |>.

Definition end_cycle (reset_active : bool) (p : Platform) : Platform :=
  if negb reset_active
  then platform_settle
         (p <| heap_ ::= fun h => foldl (fun h d => heap_call tick_device d h) h (order_ p) |>)
  else p.

(** [Platform::Platform]; the [host_] member is the state of the computation. *)
Definition build_platform registry (spec : PlatformSpec) (address_bits : Z) : M HostState Platform :=
  if negb ((address_bits =? 32) || (address_bits =? 64))
  then throw (InvalidArgument "invalid address width")
  else
    do configs := lift (make_configs registry (devices spec) ∅) in
    do (h, instances) := make_devices registry configs (devices spec) [] ∅ in
    do space := lift (map_windows instances address_bits (mappings spec) empty_space) in
    let space := space_freeze space in
    do images := lift (collect_images registry configs (mappings spec) (devices spec)) in
    do (h, order) := lift (connect instances spec h) in
    ret (platform_reset
           {| heap_ := h; devices_ := instances; order_ := order; address_space_ := space;
              images_ := images; was_reset_ := false |}).
End Instances.
Arguments Platform : clear implicits.
Arguments Wiring : clear implicits.
