(* ===== verification/Topology.v ===== *)
(** * The settling order of a platform

    [Platform::connect] orders the devices so that a signal is settled before
    its readers.  The loop is compared with the graph of the connections: it
    orders all devices exactly when the graph has no cycle. *)
From S2P Require Import Prelude Text Axi Device Memory Uart Interrupts Heap Platform PlatformInstance.

(** The number of times [d] occurs in a list. *)
Definition occurrences (d : DevicePtr) (l : list DevicePtr) : nat := length (filter (fun x => x = d) l).

Lemma occurrences_cons d x l :
  occurrences d (x :: l) = ((if decide (x = d) then 1 else 0) + occurrences d l)%nat.
Proof. unfold occurrences. rewrite filter_cons. by destruct (decide (x = d)). Qed.

Lemma occurrences_zero d l : occurrences d l = 0%nat <-> d ∉ l.
Proof.
  induction l as [|x l IH]; [split; [intros _; apply not_elem_of_nil | done]|].
  rewrite occurrences_cons, not_elem_of_cons. destruct (decide (x = d)); naive_solver lia.
Qed.

(** The in-degree a map records. *)
Definition degree (m : gmap DevicePtr nat) (d : DevicePtr) : nat := default 0%nat (m !! d).

Lemma degree_insert m x n d : degree (<[x := n]> m) d = if decide (x = d) then n else degree m d.
Proof.
  unfold degree. destruct (decide (x = d)) as [->|].
  - by rewrite lookup_insert_eq.
  - by rewrite lookup_insert_ne.
Qed.

Lemma visit_successors_cons x next m order :
  visit_successors (x :: next) m order =
  visit_successors next (<[x := (degree m x - 1)%nat]> m)
    (if (degree m x - 1 =? 0)%nat then order ++ [x] else order).
Proof. done. Qed.

(** Visiting the successors of one device takes their edges away and appends
    the devices that have no edge left, each once. *)
Lemma visit_successors_spec next m order :
  (forall d, occurrences d next <= degree m d)%nat ->
  exists added, (visit_successors next m order).2 = order ++ added /\ NoDup added /\
    (forall d, d ∈ added <-> d ∈ next /\ degree m d = occurrences d next) /\
    (forall d, degree (visit_successors next m order).1 d = degree m d - occurrences d next)%nat.
Proof.
  revert m order. induction next as [|x next IH]; intros m order Hle.
  { exists []. rewrite app_nil_r. split_and!; [done | constructor | set_solver | intros d; cbn; lia]. }
  rewrite visit_successors_cons. set (n := (degree m x - 1)%nat).
  assert (forall d, degree (<[x := n]> m) d
    = degree m d - (if decide (x = d) then 1 else 0))%nat as Hdeg.
  { intros d. rewrite degree_insert. destruct (decide (x = d)) as [->|]; lia. }
  assert (forall d, (if decide (x = d) then 1 else 0) + occurrences d next <= degree m d)%nat as Hle'.
  { intros d. rewrite <- occurrences_cons. apply Hle. }
  destruct (IH (<[x := n]> m) (if (n =? 0)%nat then order ++ [x] else order)) as (added & Ho & Hnd & Hin & Hd).
  { intros d. rewrite Hdeg. specialize (Hle' d). lia. }
  pose proof (Hle' x) as Hx. rewrite decide_True in Hx by done.
  assert (forall d, degree (visit_successors next (<[x := n]> m)
            (if (n =? 0)%nat then order ++ [x] else order)).1 d
          = degree m d - occurrences d (x :: next))%nat as Hd'.
  { intros d. rewrite Hd, Hdeg, occurrences_cons. lia. }
  destruct (Nat.eqb_spec n 0) as [Hn|Hn].
  - assert (x ∉ next) as Hxn by (apply occurrences_zero; lia).
    exists (x :: added). rewrite Ho, <- app_assoc. split_and!; [done | | | done].
    + constructor; [|done]. rewrite Hin. tauto.
    + intros d. rewrite !elem_of_cons, Hin, Hdeg, occurrences_cons.
      destruct (decide (x = d)) as [->|Hne]; [|naive_solver lia].
      assert (occurrences d next = 0%nat) by (by apply occurrences_zero). naive_solver lia.
  - exists added. rewrite Ho. split_and!; [done | done | | done].
    intros d. rewrite elem_of_cons, Hin, Hdeg, occurrences_cons. specialize (Hle' d).
    destruct (decide (x = d)) as [->|Hne]; [|naive_solver lia].
    split; [naive_solver lia|]. intros [_ Heq]. split; [|lia].
    destruct (decide (d ∈ next)) as [|Hni]; [done|]. apply occurrences_zero in Hni. lia.
Qed.

(** ** The graph *)
Section Graph.
Context (nodes : list DevicePtr) (Hnodes : NoDup nodes).
Context (edges : list (DevicePtr * DevicePtr)) (Hedges : forall s d, (s, d) ∈ edges -> s ∈ nodes /\ d ∈ nodes).

(** The targets of the edges from [s], and the number of edges into [d] from
    devices outside a list. *)
Definition targets (s : DevicePtr) : list DevicePtr := snd <$> filter (fun e => e.1 = s) edges.
Definition open_edges (seen : list DevicePtr) (d : DevicePtr) : nat :=
  length (filter (fun e => e.2 = d /\ e.1 ∉ seen) edges).

Lemma open_edges_zero seen d :
  open_edges seen d = 0%nat <-> forall s, (s, d) ∈ edges -> s ∈ seen.
Proof.
  unfold open_edges. rewrite length_zero_iff_nil. split.
  - intros Hf s Hs. destruct (decide (s ∈ seen)); [done|]. exfalso.
    assert ((s, d) ∈ filter (fun e => e.2 = d /\ e.1 ∉ seen) edges) as Hin
      by (by apply list_elem_of_filter).
    rewrite Hf in Hin. by apply elem_of_nil in Hin.
  - intros Hs. destruct (filter _ edges) as [|[s d'] l] eqn:E; [done|]. exfalso.
    assert ((s, d') ∈ filter (fun e => e.2 = d /\ e.1 ∉ seen) edges) as Hin by (rewrite E; by left).
    apply list_elem_of_filter in Hin as [[<- Hn] Hin]. by apply Hn, Hs.
Qed.

(** Seeing one more device closes its edges. *)
Lemma open_edges_snoc seen x d :
  x ∉ seen -> open_edges seen d = (occurrences d (targets x) + open_edges (seen ++ [x]) d)%nat.
Proof.
  intros Hx. unfold open_edges, targets, occurrences. clear Hedges.
  induction edges as [|[s d'] l IH]; [done|]. rewrite !filter_cons. cbn [fst snd].
  repeat case_decide; cbn [fmap list_fmap length]; rewrite ?filter_cons; repeat case_decide;
    cbn [length]; rewrite ?IH; try lia; exfalso; set_solver.
Qed.

Lemma targets_nodes x d : d ∈ targets x -> d ∈ nodes /\ (x, d) ∈ edges.
Proof.
  unfold targets. intros ([s d'] & -> & [<- Hin]%list_elem_of_filter)%list_elem_of_fmap. cbn in *.
  split; [by eapply Hedges | done].
Qed.

(** ** The loop *)
Record ordering (i : nat) (m : gmap DevicePtr nat) (order : list DevicePtr) : Prop := {
  ord_nodup : NoDup order;
  ord_nodes : forall d, d ∈ order -> d ∈ nodes;
  ord_index : (i <= length order)%nat;
  ord_degree : forall d, degree m d = open_edges (take i order) d;
  ord_ready : forall d, d ∈ nodes -> d ∈ order <-> degree m d = 0%nat;
  ord_sorted : forall l1 d l2, order = l1 ++ d :: l2 -> forall s, (s, d) ∈ edges -> s ∈ l1
}.

Lemma ordering_step i m order x :
  ordering i m order -> order !! i = Some x ->
  ordering (S i) (visit_successors (targets x) m order).1 (visit_successors (targets x) m order).2.
Proof.
  intros [Hnd Hno Hi Hdeg Hready Hsort] Hx.
  assert (x ∉ take i order) as Hxt.
  { intros (j & Hj)%list_elem_of_lookup. apply lookup_take_Some in Hj as [Hj ?].
    pose proof (NoDup_lookup _ _ _ _ Hnd Hj Hx). lia. }
  assert (take (S i) order = take i order ++ [x]) as Htake by (by apply take_S_r).
  destruct (visit_successors_spec (targets x) m order) as (added & -> & Hna & Hin & Hd).
  { intros d. rewrite Hdeg, (open_edges_snoc (take i order) x d) by done. lia. }
  assert (forall l, take (S i) (order ++ l) = take i order ++ [x]) as Htake'.
  { intros l. rewrite take_app_le; [done|]. apply lookup_lt_Some in Hx. lia. }
  assert (forall d, d ∈ added -> d ∈ nodes /\ d ∉ order) as Hadd.
  { intros d [Hd1 Hd2]%Hin. destruct (targets_nodes x d Hd1) as [Hdn _]. split; [done|].
    rewrite Hready by done. rewrite Hd2, occurrences_zero. tauto. }
  assert (forall d, degree (visit_successors (targets x) m order).1 d
            = open_edges (take i order ++ [x]) d) as Hdeg'.
  { intros d. rewrite Hd, Hdeg, (open_edges_snoc (take i order) x d) by done. lia. }
  split.
  - apply NoDup_app. split_and!; [done | intros d Hd1 Hd2; by apply (Hadd d Hd2) | done].
  - intros d [?|?]%elem_of_app; [auto | by apply Hadd].
  - rewrite length_app. apply lookup_lt_Some in Hx. lia.
  - intros d. by rewrite Htake', Hdeg'.
  - intros d Hdn. rewrite elem_of_app, Hin, (Hready d Hdn), Hd.
    pose proof (open_edges_snoc (take i order) x d Hxt) as Ho. rewrite <- Hdeg in Ho.
    destruct (decide (d ∈ targets x)) as [Ht|Ht].
    + split; [intros [?|[_ ?]]; lia|]. intros. right. split; [done | lia].
    + apply occurrences_zero in Ht as Ht0. rewrite Ht0. split; [intros [?|[??]]; [lia | done]|].
      intros. left. lia.
  - intros l1 d l2 Hsplit s Hs.
    destruct (decide (length l1 < length order)%nat) as [Hlt|Hge].
    + apply (Hsort l1 d (take (length order - S (length l1)) l2)); [|done].
      pose proof (f_equal (take (length order)) Hsplit) as Ht.
      rewrite take_app_length, take_app_ge in Ht by lia. etransitivity; [exact Ht|]. f_equal.
      destruct (length order - length l1)%nat as [|k] eqn:Ek; [lia|]. cbn [take]. do 2 f_equal. lia.
    + assert (d ∈ added) as Hda.
      { assert ((order ++ added) !! length l1 = Some d) as Hlk
          by (rewrite Hsplit; by apply list_lookup_middle).
        rewrite lookup_app_r in Hlk by lia. by eapply list_elem_of_lookup_2. }
      assert (order `prefix_of` l1) as [l1' ->].
      { exists (take (length l1 - length order) added).
        pose proof (f_equal (take (length l1)) Hsplit) as Ht.
        rewrite take_app_length, take_app_ge in Ht by lia. done. }
      apply elem_of_app. left.
      assert (open_edges (take i order ++ [x]) d = 0%nat) as Hz.
      { rewrite <- Hdeg', Hd. apply Hin in Hda as [_ ->]. lia. }
      pose proof (proj1 (open_edges_zero _ d) Hz s Hs) as Hmem.
      rewrite <- Htake in Hmem. by eapply elem_of_take in Hmem as (? & ? & _); eapply list_elem_of_lookup_2.
Qed.

(** The fuel, one step per node, carries the loop to the end of the list. *)
Lemma topological_order_spec fuel i succ m order :
  (forall s, default [] (succ !! s) = targets s) ->
  ordering i m order -> (length nodes <= fuel + i)%nat ->
  exists m', ordering (length (topological_order fuel i succ m order)) m'
               (topological_order fuel i succ m order).
Proof.
  intros Hsucc. revert i m order. induction fuel as [|fuel IH]; intros i m order Ho Hf.
  - exists m. cbn. pose proof Ho as [Hnd Hno Hi _ _ _].
    assert (length order <= length nodes)%nat by (by apply submseteq_length, NoDup_submseteq).
    by replace (length order) with i by lia.
  - cbn [topological_order]. destruct (order !! i) as [x|] eqn:Hx.
    + rewrite Hsucc. pose proof (ordering_step i m order x Ho Hx) as Hstep.
      destruct (visit_successors (targets x) m order) as [m' order']. apply IH; [done | lia].
    + exists m. apply lookup_ge_None in Hx. pose proof (ord_index _ _ _ Ho).
      by replace (length order) with i by lia.
Qed.

(** A finished ordering. *)
Definition ranked (rank : DevicePtr -> nat) : Prop :=
  forall s d, (s, d) ∈ edges -> (rank s < rank d)%nat.

Lemma finished_complete m order rank :
  ordering (length order) m order -> ranked rank -> order ≡ₚ nodes.
Proof.
  intros [Hnd Hno _ Hdeg Hready _] Hr. rewrite take_ge in Hdeg by done.
  assert (forall n d, rank d = n -> d ∈ nodes -> d ∈ order) as Hall.
  { induction n as [n IH] using lt_wf_ind. intros d Hd Hn. apply Hready; [done|].
    rewrite Hdeg. apply open_edges_zero. intros s Hs. apply (IH (rank s)); [|done|by apply (Hedges s d)].
    rewrite <- Hd. by apply Hr. }
  apply NoDup_Permutation; [done..|]. intros d. split; [apply Hno | by eapply Hall].
Qed.

(** The position of a device in an order. *)
Definition position (order : list DevicePtr) (d : DevicePtr) : nat :=
  from_option fst 0%nat (list_find (fun x => x = d) order).

Lemma position_lookup order k d : NoDup order -> order !! k = Some d -> position order d = k.
Proof.
  intros Hnd Hk. unfold position.
  assert (list_find (fun x => x = d) order = Some (k, d)) as ->; [|done].
  apply list_find_Some. split_and!; [done..|]. intros j y Hj Hlt ->.
  pose proof (NoDup_lookup _ _ _ _ Hnd Hj Hk). lia.
Qed.

Lemma finished_ranked m order :
  ordering (length order) m order -> order ≡ₚ nodes -> ranked (position order).
Proof.
  intros Ho Hp s d Hs. pose proof (Hedges s d Hs) as [_ Hd]. rewrite <- Hp in Hd.
  apply list_elem_of_split in Hd as (l1 & l2 & Hsplit).
  pose proof (ord_sorted _ _ _ Ho l1 d l2 Hsplit s Hs) as (k & Hk)%list_elem_of_lookup.
  pose proof (ord_nodup _ _ _ Ho) as Hnd. apply lookup_lt_Some in Hk as Hlt.
  rewrite (position_lookup order k s), (position_lookup order (length l1) d); try done.
  - rewrite Hsplit. by apply list_lookup_middle.
  - rewrite Hsplit. by rewrite lookup_app_l.
Qed.
End Graph.
