(* ===== verification/PlatformTheorems.v ===== *)
(** * Platforms: theorems

    Building a platform orders its devices along the connections or rejects a
    cycle, and after every clock cycle the interrupt lines are settled. *)
From Stdlib Require Import Ascii.
From S2P Require Import Prelude Text Axi Device Memory Uart Interrupts Heap HeapLines Host Platform PlatformInstance.
From S2P Require Import Topology.

(** ** Instances *)

(** Device [i] of the specification is the object with pointer [i]. *)
Definition instances_ok (instances : gmap string DevicePtr) (ids : list string) : Prop :=
  forall id p, instances !! id = Some p <-> ids !! p = Some id.

Lemma instances_ok_nodup instances ids : instances_ok instances ids -> NoDup ids.
Proof.
  intros Hi. apply NoDup_alt. intros i j id H1%Hi H2%Hi. congruence.
Qed.

Lemma instances_ok_size instances ids : instances_ok instances ids -> size instances = length ids.
Proof.
  intros Hi. pose proof (instances_ok_nodup _ _ Hi) as Hnd.
  rewrite <- size_dom, <- (size_list_to_set (C := gset string) ids Hnd). f_equal.
  apply set_eq. intros id. rewrite elem_of_dom, elem_of_list_to_set, list_elem_of_lookup.
  split; intros [p Hp]; exists p; by apply Hi.
Qed.

Lemma instances_ok_snoc instances ids id :
  instances_ok instances ids -> instances !! id = None ->
  instances_ok (<[id := length ids]> instances) (ids ++ [id]).
Proof.
  intros Hi Hn id' p. destruct (decide (id' = id)) as [->|Hne].
  - rewrite lookup_insert_eq. split.
    + intros [= <-]. by apply list_lookup_middle.
    + intros [Hp|[? Hp]]%lookup_app_Some; [apply Hi in Hp; congruence|].
      apply list_lookup_singleton_Some in Hp as [? _]. f_equal. lia.
  - rewrite lookup_insert_ne by done. rewrite (Hi id' p). split.
    + intros Hp. by apply lookup_app_l_Some.
    + intros [Hp|[? Hp]]%lookup_app_Some; [done|].
      by apply list_lookup_singleton_Some in Hp as [_ [= ->]].
Qed.

Lemma device_pointers_seq instances (specs : list DeviceSpec) :
  instances_ok instances (spec_id <$> specs) ->
  device_pointers instances specs = seq 0 (length specs).
Proof.
  intros Hi. unfold device_pointers.
  assert (forall start l, (forall i d, l !! i = Some d -> instances !! spec_id d = Some (start + i)%nat) ->
    omap (fun d => instances !! spec_id d) l = seq start (length l)) as Hg.
  { intros start l. revert start. induction l as [|d l IH]; intros start Hl; [done|].
    cbn [omap list_omap length seq]. rewrite (Hl 0%nat d) by done. rewrite Nat.add_0_r. f_equal.
    apply IH. intros i d' Hd. rewrite (Hl (S i) d') by done. f_equal. lia. }
  apply Hg. intros i d Hd. apply Hi. by rewrite list_lookup_fmap, Nat.add_0_l, Hd.
Qed.

(** The bases and sizes of a specification are 64-bit values. *)
Definition mapping_fits (m : MappingSpec) : Prop :=
  fits 64 (mapping_base m) /\ fits 64 (mapping_size m).

Section Build.
Context `{!HostSystem} {B : Type} `{!UartBackend B, !UartStreams B}.
Implicit Types (d : DevicePtr) (h : Heap B) (dev : AnyDevice B) (registry : DeviceRegistry B)
  (instances : gmap string DevicePtr) (w : Wiring B).

(** A device as a factory makes it: no input is connected yet. *)
Record fresh_device dev : Prop := {
  fr_wf : device_wf dev;
  fr_inputs : match dev with
              | DevPlic p inputs => inputs = replicate (S (sources_ p)) None
              | _ => True
              end
}.

(** The factories of a registry make fresh devices. *)
Definition fresh_registry registry : Prop :=
  forall name type factory config host dev host',
    registry !! name = Some type -> create type = Some factory ->
    factory config host = (Ok (Some dev), host') -> fresh_device dev.

Lemma make_device_fresh registry configs (d : DeviceSpec) host dev host' :
  fresh_registry registry -> make_device registry configs d host = (Ok dev, host') ->
  fresh_device dev.
Proof.
  intros Hfr Hm. unfold make_device in Hm. lifted Hm as type Et. lifted Hm as config Ec.
  unfold registry_type in Et. destruct (registry !! spec_type d) as [type'|] eqn:El; [|done].
  injection Et as ->. destruct (create type) as [factory|] eqn:Ef; [|done].
  returned Hm as [dev'|] host1 Eo; [|done]. injection Hm as -> ->. by eapply Hfr.
Qed.

Lemma make_devices_spec registry configs specs h instances ids host h' instances' host' :
  fresh_registry registry -> instances_ok instances ids -> length h = length ids ->
  NoDup (ids ++ (spec_id <$> specs)) -> Forall fresh_device h ->
  make_devices registry configs specs h instances host = (Ok (h', instances'), host') ->
  instances_ok instances' (ids ++ (spec_id <$> specs)) /\
  length h' = length (ids ++ (spec_id <$> specs)) /\ Forall fresh_device h'.
Proof.
  intros Hfr. revert h instances ids host.
  induction specs as [|d specs IH]; intros h instances ids host Hi Hl Hnd Hh Hm.
  { injection Hm as -> -> _. by rewrite app_nil_r. }
  cbn [make_devices fmap list_fmap] in *. returned Hm as dev host1 Ed.
  assert (instances !! spec_id d = None) as Hnone.
  { apply eq_None_not_Some. intros [p Hp%Hi]. apply NoDup_app in Hnd as (_ & Hnd & _).
    apply (Hnd (spec_id d)); [by eapply list_elem_of_lookup_2 | by left]. }
  unfold emplace in Hm. rewrite Hnone, Hl in Hm.
  replace (ids ++ spec_id d :: (spec_id <$> specs))
    with ((ids ++ [spec_id d]) ++ (spec_id <$> specs)) in * by (by rewrite <- app_assoc).
  eapply IH; [by apply instances_ok_snoc | | done | | exact Hm].
  - rewrite !length_app, Hl. done.
  - apply Forall_app. split; [done|]. constructor; [|constructor].
    by eapply make_device_fresh.
Qed.

Lemma make_configs_nodup registry specs configs configs' :
  make_configs registry specs configs = Ok configs' ->
  NoDup (spec_id <$> specs) /\ forall d : DeviceSpec, d ∈ specs -> configs !! spec_id d = None.
Proof.
  revert configs. induction specs as [|d specs IH]; intros configs Hm.
  { split; [constructor|]. by intros d ?%elem_of_nil. }
  cbn [make_configs] in Hm. destruct (validate_name (spec_id d)); [|done].
  destruct (configure _ _ _) as [c|e]; [|done]. cbn [rbind] in Hm.
  destruct (configs !! spec_id d) eqn:E; [done|]. destruct (IH _ Hm) as [Hnd Hn]. split.
  - cbn. constructor; [|done]. intros (d' & Hd & Hin)%list_elem_of_fmap.
    specialize (Hn d' Hin). rewrite <- Hd, lookup_insert_eq in Hn. done.
  - intros d' [->|Hin]%elem_of_cons; [done|]. specialize (Hn d' Hin).
    destruct (decide (spec_id d' = spec_id d)) as [->|]; [done|]. by rewrite lookup_insert_ne in Hn.
Qed.

(** ** Sources *)
Lemma set_source_lookup d i signal h (d' : DevicePtr) :
  set_source d i signal h !! d' =
    (if decide (d = d')
     then (fun dev => match dev with
                      | DevPlic p inputs => DevPlic p (<[i := Some signal]> inputs)
                      | other => other
                      end) <$> h !! d'
     else h !! d').
Proof.
  unfold set_source, Heap in *. destruct (decide (d = d')) as [->|].
  - by rewrite list_lookup_alter_eq.
  - by rewrite list_lookup_alter_ne.
Qed.

Lemma set_source_length d i signal h : length (set_source d i signal h) = length h.
Proof. apply length_alter. Qed.

Lemma set_source_input d i signal h (d' : DevicePtr) port :
  (set_source d i signal h !! d' ≫= fun dev => device_input dev port)
  = (h !! d' ≫= fun dev => device_input dev port).
Proof.
  rewrite set_source_lookup. destruct (decide (d = d')) as [->|]; [|done].
  by destruct (h !! d') as [[]|].
Qed.

Lemma set_source_output d i signal h (d' : DevicePtr) port :
  (set_source d i signal h !! d' ≫= fun dev => device_output dev port)
  = (h !! d' ≫= fun dev => device_output dev port).
Proof.
  rewrite set_source_lookup. destruct (decide (d = d')) as [->|]; [|done].
  by destruct (h !! d') as [[]|].
Qed.

Lemma set_source_other d i signal h d' i' :
  (d', i') <> (d, i) -> input_source (set_source d i signal h) d' i' = input_source h d' i'.
Proof.
  intros Hne. unfold input_source. rewrite set_source_lookup. destruct (decide (d = d')) as [->|]; [|done].
  destruct (h !! d') as [[]|]; cbn; try done. rewrite list_lookup_insert_ne; [done | congruence].
Qed.

(** The input ports of every device are there. *)
Definition ports_ok h : Prop :=
  forall (d : DevicePtr) p inputs, h !! d = Some (DevPlic p inputs) -> length inputs = S (sources_ p).

Lemma fresh_ports h : Forall fresh_device h -> ports_ok h.
Proof.
  intros Hh d p inputs Hd. eapply Forall_lookup_1 in Hh; [|exact Hd].
  by rewrite (fr_inputs _ Hh), length_replicate.
Qed.

Lemma set_source_ports d i signal h : ports_ok h -> ports_ok (set_source d i signal h).
Proof.
  intros Hp d' p inputs. rewrite set_source_lookup. destruct (decide (d = d')); [|apply Hp].
  destruct (h !! d') as [dev|] eqn:E; cbn; [|done]. destruct dev; intros; simplify_eq.
  rewrite length_insert. by eapply Hp.
Qed.

Lemma port_index_lt name prefix limit i :
  (0 < limit)%nat -> port_index name prefix limit = Some i -> (i < limit)%nat.
Proof.
  intros Hl. unfold port_index. destruct (strip_prefix prefix name); [|done].
  destruct (from_all_chars 32 10 s) as [v|] eqn:E; [|done].
  destruct (Z.ltb_spec v (Z.of_nat limit)); [|done]. intros [= <-]. lia.
Qed.

Lemma set_source_set d i signal h port :
  ports_ok h -> (h !! d ≫= fun dev => device_input dev port) = Some i ->
  input_source (set_source d i signal h) d i = Some signal.
Proof.
  intros Hp Hi. unfold input_source. rewrite set_source_lookup, decide_True by done.
  destruct (h !! d) as [dev|] eqn:E; [|done]. cbn in *. destruct dev as [| | | | |p inputs]; try done.
  cbn in *. destruct (port_index port "source" (sources_ p + 1)) as [[|j]|] eqn:Ej; simplify_eq.
  apply port_index_lt in Ej; [|lia]. rewrite list_lookup_insert_eq; [done|].
  rewrite (Hp d p inputs E). lia.
Qed.

(** ** Connecting *)

(** The connection as an edge between objects. *)
Definition edge_of instances (c : ConnectionSpec) : option (DevicePtr * DevicePtr) :=
  match endpoint (source c), endpoint (destination c) with
  | Ok (src_id, _), Ok (dst_id, _) =>
      src ← instances !! src_id; dst ← instances !! dst_id; Some (src, dst)
  | _, _ => None
  end.

(** The reader of a connection is attached to the signal. *)
Definition attached instances h (c : ConnectionSpec) : Prop :=
  exists src_id src_port dst_id dst_port src dst i,
    endpoint (source c) = Ok (src_id, src_port) /\
    endpoint (destination c) = Ok (dst_id, dst_port) /\
    instances !! src_id = Some src /\ instances !! dst_id = Some dst /\
    (h !! dst ≫= fun dev => device_input dev dst_port) = Some i /\
    input_source h dst i = Some (src, src_port).

(** The maps of [connect] describe the edges so far. *)
Record wired_ok (n : nat) (edges : list (DevicePtr * DevicePtr)) w : Prop := {
  wo_successors s : default [] (successors w !! s) = targets edges s;
  wo_degree d : degree (indegree w) d = open_edges edges [] d;
  wo_keys d : (d < n)%nat -> is_Some (indegree w !! d);
  wo_edges s d : (s, d) ∈ edges -> (s < n)%nat /\ (d < n)%nat;
  wo_length : length (wired w) = n;
  wo_ports : ports_ok (wired w);
  wo_sources d i s port : input_source (wired w) d i = Some (s, port) -> (s, d) ∈ edges
}.

Definition only_invalid (e : exn) : Prop := exists message, e = InvalidArgument message.

Lemma endpoint_throws text e : endpoint text = Throw e -> only_invalid e.
Proof. unfold endpoint, invalid. repeat case_match; intros; simplify_eq; by eexists. Qed.

Lemma platform_output_spec instances h name width r :
  platform_output instances h name width = r ->
  match r with
  | Ok (d, port) => exists id, endpoint name = Ok (id, port) /\ instances !! id = Some d
  | Throw e => only_invalid e
  end.
Proof.
  unfold platform_output, platform_device, invalid. intros <-.
  destruct (endpoint name) as [[id port]|e] eqn:E; cbn; [|by eapply endpoint_throws].
  destruct (instances !! id) as [d|] eqn:Ed; cbn; [|by eexists].
  destruct (h !! d ≫= _); [|by eexists]. destruct (negb _); [|by eexists]. by exists id.
Qed.

Lemma targets_snoc edges s d s' :
  targets (edges ++ [(s, d)]) s' = targets edges s' ++ (if decide (s = s') then [d] else []).
Proof.
  unfold targets. rewrite filter_app, fmap_app. f_equal. rewrite filter_cons. cbn [fst].
  by destruct (decide (s = s')).
Qed.

Lemma open_edges_snoc_edge edges s d d' :
  open_edges (edges ++ [(s, d)]) [] d' = (open_edges edges [] d' + if decide (d = d') then 1 else 0)%nat.
Proof.
  unfold open_edges. rewrite filter_app, length_app. f_equal. rewrite filter_cons. cbn [fst snd].
  destruct (decide (d = d')) as [->|]; case_decide as Hc; try done; try set_solver.
Qed.

Lemma connect_one_spec instances ids c w edges :
  instances_ok instances ids -> wired_ok (length ids) edges w ->
  match connect_one instances c w with
  | Ok w' => exists e, edge_of instances c = Some e /\ wired_ok (length ids) (edges ++ [e]) w' /\
      attached instances (wired w') c /\
      forall c', attached instances (wired w) c' -> attached instances (wired w') c'
  | Throw e => only_invalid e
  end.
Proof.
  intros Hi [Hsu Hde Hke Hed Hle Hpo Hso]. unfold connect_one, edge_of, platform_device, invalid.
  destruct (endpoint (source c)) as [[src_id src_port]|e] eqn:Es; cbn; [|by eapply endpoint_throws].
  destruct (endpoint (destination c)) as [[dst_id dst_port]|e] eqn:Ed; cbn; [|by eapply endpoint_throws].
  destruct (instances !! src_id) as [src|] eqn:Isrc; cbn; [|by eexists].
  destruct (instances !! dst_id) as [dst|] eqn:Idst; cbn; [|by eexists].
  destruct (wired w !! dst ≫= _) as [i|] eqn:Ei; [|by eexists].
  destruct (input_source (wired w) dst i) as [old|] eqn:Eold; [by eexists|].
  destruct (platform_output instances (wired w) (source c) INPUT_WIDTH) as [[d port]|e] eqn:Eo; cbn.
  2:{ by apply platform_output_spec in Eo. }
  apply platform_output_spec in Eo as (id & Hid & Hd).
  rewrite Es in Hid. injection Hid as <- <-. rewrite Isrc in Hd. injection Hd as <-.
  exists (src, dst). split; [done|]. cbn [wired].
  assert (attached instances (set_source dst i (src, src_port) (wired w)) c) as Hatt.
  { exists src_id, src_port, dst_id, dst_port, src, dst, i. split_and!; try done.
    - by rewrite set_source_input.
    - by eapply set_source_set. }
  split; [|split; [exact Hatt|]].
  - split; cbn [successors indegree wired].
    + intros s. rewrite targets_snoc. destruct (decide (src = s)) as [->|].
      * by rewrite lookup_insert_eq, Hsu.
      * by rewrite lookup_insert_ne, Hsu, app_nil_r.
    + intros d. rewrite degree_insert, open_edges_snoc_edge, <- !Hde.
      destruct (decide (dst = d)) as [->|]; unfold degree; lia.
    + intros d Hd'. destruct (decide (dst = d)) as [->|]; [rewrite lookup_insert_eq; by eexists|].
      rewrite lookup_insert_ne by done. by apply Hke.
    + intros s d [?|Heq]%elem_of_app; [by apply Hed|]. apply list_elem_of_singleton in Heq as [= -> ->].
      split; eapply lookup_lt_Some; by apply Hi.
    + by rewrite set_source_length.
    + by apply set_source_ports.
    + intros d j s port Hs. apply elem_of_app.
      destruct (decide ((d, j) = (dst, i))) as [[= -> ->]|Hne].
      * right. rewrite (set_source_set _ _ _ _ dst_port) in Hs by done. simplify_eq. by left.
      * left. rewrite set_source_other in Hs by done. by eapply Hso.
  - intros c' (s1 & p1 & s2 & p2 & src' & dst' & i' & H1 & H2 & H3 & H4 & H5 & H6).
    exists s1, p1, s2, p2, src', dst', i'. split_and!; try done; [by rewrite set_source_input|].
    rewrite set_source_other; [done|]. intros [= -> ->]. congruence.
Qed.

Lemma connect_all_spec instances ids l w edges :
  instances_ok instances ids -> wired_ok (length ids) edges w ->
  match connect_all instances l w with
  | Ok w' => exists es, Forall2 (fun c e => edge_of instances c = Some e) l es /\
      wired_ok (length ids) (edges ++ es) w' /\
      Forall (attached instances (wired w')) l /\
      forall c', attached instances (wired w) c' -> attached instances (wired w') c'
  | Throw e => only_invalid e
  end.
Proof.
  intros Hi. revert w edges. induction l as [|c l IH]; intros w edges Hw.
  { exists []. rewrite app_nil_r. split_and!; [constructor | done | constructor | done]. }
  cbn [connect_all]. pose proof (connect_one_spec instances ids c w edges Hi Hw) as Hc.
  destruct (connect_one instances c w) as [w1|e]; cbn [rbind]; [|done].
  destruct Hc as (e & He & Hw1 & Ha & Hk). specialize (IH w1 (edges ++ [e]) Hw1).
  destruct (connect_all instances l w1) as [w'|ex]; [|done].
  destruct IH as (es & Hes & Hw' & Hal & Hk'). exists (e :: es).
  rewrite <- app_assoc in Hw'. split_and!; [by constructor | done | constructor; auto | auto].
Qed.

(** ** The connections a platform accepts *)

(** The text [instance.port]: the instance is the part before the first dot. *)
Definition names_port (text instance port : string) : Prop :=
  text = instance +:+ String "."%char port /\ instance <> EmptyString /\ port <> EmptyString /\
  all_chars (fun a => negb (bool_decide (a = "."%char))) instance = true.

(** [c] leads from an output of a device to input [i] of device [dst], as wide
    as the input. *)
Definition connects instances h (c : ConnectionSpec) (dst : DevicePtr) (i : nat) : Prop :=
  exists src_id src_port dst_id dst_port src signal,
    names_port (source c) src_id src_port /\ names_port (destination c) dst_id dst_port /\
    instances !! src_id = Some src /\ instances !! dst_id = Some dst /\
    (h !! src ≫= fun dev => device_output dev src_port) = Some signal /\ sig_width signal = INPUT_WIDTH /\
    (h !! dst ≫= fun dev => device_input dev dst_port) = Some i.

(** Every connection leads from an output to an input, and no input has two. *)
Definition connectable instances h (l : list ConnectionSpec) : Prop :=
  exists inputs, Forall2 (fun c x => connects instances h c x.1 x.2) l inputs /\ NoDup inputs.

Lemma split_at_spec a text before after :
  split_at a text = Some (before, after) <->
  text = before +:+ String a after /\ all_chars (fun x => negb (bool_decide (x = a))) before = true.
Proof.
  revert before. induction text as [|x text IH]; intros before; cbn.
  { split; [done|]. intros [Hb _]. by destruct before. }
  case_bool_decide as Hx; subst.
  - split; [by intros [= <- <-]|]. intros [Ht Hb]. destruct before as [|y before]; cbn in Ht, Hb.
    + by injection Ht as ->.
    + injection Ht as -> ->. by rewrite bool_decide_true in Hb.
  - destruct before as [|y before].
    + split; [by destruct (split_at a text) as [[]|]|]. intros [Ht _]. injection Ht as ? ?. by destruct Hx.
    + cbn. transitivity (x = y /\ split_at a text = Some (before, after)).
      * destruct (split_at a text) as [[b' r']|]; naive_solver.
      * rewrite IH. cbn [String.append]. destruct (bool_decide_reflect (y = a)); cbn [negb andb].
        -- naive_solver.
        -- split; [by intros (-> & -> & ?) | by intros [ [= -> ->] ?]].
Qed.

Lemma endpoint_spec text instance port :
  endpoint text = Ok (instance, port) <-> names_port text instance port.
Proof.
  unfold endpoint, names_port, invalid.
  transitivity (split_at "."%char text = Some (instance, port) /\ instance <> EmptyString /\ port <> EmptyString).
  - destruct (split_at "."%char text) as [[b r]|]; [|naive_solver].
    repeat case_bool_decide; cbn; naive_solver.
  - rewrite split_at_spec. tauto.
Qed.

Lemma connects_iff instances h c dst i :
  connects instances h c dst i <->
  exists src_id src_port dst_id dst_port src signal,
    endpoint (source c) = Ok (src_id, src_port) /\ endpoint (destination c) = Ok (dst_id, dst_port) /\
    instances !! src_id = Some src /\ instances !! dst_id = Some dst /\
    (h !! src ≫= fun dev => device_output dev src_port) = Some signal /\ sig_width signal = INPUT_WIDTH /\
    (h !! dst ≫= fun dev => device_input dev dst_port) = Some i.
Proof.
  unfold connects.
  by split; intros (a & b & x & y & s & sg & H1%endpoint_spec & H2%endpoint_spec & Hr); exists a, b, x, y, s, sg.
Qed.

Lemma connects_fun instances h c dst i dst' i' :
  connects instances h c dst i -> connects instances h c dst' i' -> (dst, i) = (dst', i').
Proof.
  intros (? & ? & ? & ? & ? & ? & _ & Hd & _ & ? & _ & _ & ?)%connects_iff
    (? & ? & ? & ? & ? & ? & _ & Hd' & _ & ? & _ & _ & ?)%connects_iff.
  rewrite Hd in Hd'. injection Hd' as <- <-. by simplify_eq.
Qed.

(** The devices of [h] with the inputs [used] attached. *)
Record attached_to h (used : list (DevicePtr * nat)) w : Prop := {
  at_input (d : DevicePtr) port :
    (wired w !! d ≫= fun dev => device_input dev port) = (h !! d ≫= fun dev => device_input dev port);
  at_output (d : DevicePtr) port :
    (wired w !! d ≫= fun dev => device_output dev port) = (h !! d ≫= fun dev => device_output dev port);
  at_ports : ports_ok (wired w);
  at_used d i : is_Some (input_source (wired w) d i) <-> (d, i) ∈ used
}.

(** The parts of a [connects] fact, with the endpoints already known. *)
Ltac connection_parts :=
  intros ? ? (? & ? & ? & ? & ? & ? & Hs' & Hd' & ? & ? & ? & ? & ?)%connects_iff;
  repeat match goal with
         | E : endpoint ?t = _, E' : endpoint ?t = _ |- _ =>
             rewrite E in E'; first [discriminate E' | injection E' as ? ?; subst]
         end; simplify_eq.

Lemma connect_one_accepts instances h used c w :
  attached_to h used w ->
  match connect_one instances c w with
  | Ok w' => exists dst i, connects instances h c dst i /\ (dst, i) ∉ used /\
                           attached_to h (used ++ [(dst, i)]) w'
  | Throw _ => forall dst i, connects instances h c dst i -> (dst, i) ∈ used
  end.
Proof.
  intros [Hin Hout Hpo Hus]. unfold connect_one, platform_device, platform_output, invalid.
  destruct (endpoint (source c)) as [[src_id src_port]|e] eqn:Es; cbn; [|by connection_parts].
  destruct (endpoint (destination c)) as [[dst_id dst_port]|e] eqn:Ed; cbn; [|by connection_parts].
  unfold platform_device.
  destruct (instances !! src_id) as [src|] eqn:Isrc; cbn; [|by connection_parts].
  destruct (instances !! dst_id) as [dst|] eqn:Idst; cbn; [|by connection_parts].
  rewrite Hin. destruct (h !! dst ≫= _) as [i|] eqn:Ei; [|by connection_parts].
  pose proof (Hus dst i) as Hd.
  destruct (input_source (wired w) dst i) as [old|] eqn:Eold.
  { connection_parts. apply Hd. by eexists. }
  rewrite Hout. destruct (h !! src ≫= _) as [signal|] eqn:Eo; cbn; [|by connection_parts].
  destruct (sig_width signal =? INPUT_WIDTH) eqn:Ewd; cbn.
  2:{ apply Z.eqb_neq in Ewd. by connection_parts. }
  apply Z.eqb_eq in Ewd. exists dst, i. split; [|split].
  { apply connects_iff. by exists src_id, src_port, dst_id, dst_port, src, signal. }
  { intros Hu%Hd. by destruct Hu. }
  split; cbn [wired].
  - intros d port. by rewrite set_source_input, Hin.
  - intros d port. by rewrite set_source_output, Hout.
  - by apply set_source_ports.
  - intros d j. rewrite elem_of_app, list_elem_of_singleton, <- Hus.
    destruct (decide ((d, j) = (dst, i))) as [[= -> ->]|Hne].
    + rewrite (set_source_set _ _ _ _ dst_port) by (done || by rewrite Hin). naive_solver.
    + rewrite set_source_other by done. naive_solver.
Qed.

Lemma connect_all_accepts instances h l used w :
  attached_to h used w -> NoDup used ->
  let accepted := exists inputs, Forall2 (fun c x => connects instances h c x.1 x.2) l inputs /\ NoDup (used ++ inputs) in
  match connect_all instances l w with Ok _ => accepted | Throw _ => ~ accepted end.
Proof.
  intros Hw Hnd. cbn zeta. revert used w Hw Hnd. induction l as [|c l IH]; intros used w Hw Hnd.
  { exists []. by rewrite app_nil_r. }
  cbn [connect_all]. pose proof (connect_one_accepts instances h used c w Hw) as Hc.
  destruct (connect_one instances c w) as [w1|e]; cbn [rbind].
  - destruct Hc as (dst & i & Hc & Hn & Hw1).
    assert (NoDup (used ++ [(dst, i)])) as Hnd1.
    { apply NoDup_app. split_and!; [done | set_solver | apply NoDup_singleton]. }
    specialize (IH _ _ Hw1 Hnd1). destruct (connect_all instances l w1).
    + destruct IH as (inputs & Hf & Hi). exists ((dst, i) :: inputs). rewrite <- app_assoc in Hi. by split; [constructor|].
    + intros (inputs & Hf & Hi). apply IH. destruct (Forall2_cons_inv_l _ _ _ _ Hf) as ([d j] & inputs' & Hc' & Hf' & ->).
      cbn in Hc'. rewrite <- (connects_fun _ _ _ _ _ _ _ Hc Hc') in Hi. exists inputs'. by rewrite <- app_assoc.
  - intros (inputs & Hf & Hi). destruct (Forall2_cons_inv_l _ _ _ _ Hf) as ([d j] & inputs' & Hc' & Hf' & ->).
    apply NoDup_app in Hi as (_ & Hi & _). apply (Hi (d, j)); [by apply Hc | by left].
Qed.

Lemma start_indegree (l : list DevicePtr) (m : gmap DevicePtr nat) d :
  foldl (fun m d => <[d := 0%nat]> m) m l !! d = if decide (d ∈ l) then Some 0%nat else m !! d.
Proof.
  revert m. induction l as [|x l IH]; intros m; [done|]. cbn [foldl]. rewrite IH.
  destruct (decide (d ∈ l)), (decide (d ∈ x :: l)); try done; try set_solver.
  - assert (d = x) as -> by set_solver. by rewrite lookup_insert_eq.
  - rewrite lookup_insert_ne; [done | set_solver].
Qed.

Lemma start_wired instances (specs : list DeviceSpec) h :
  instances_ok instances (spec_id <$> specs) -> length h = length specs -> Forall fresh_device h ->
  wired_ok (length specs) []
    {| wired := h; successors := ∅;
       indegree := foldl (fun m d => <[d := 0%nat]> m) ∅ (device_pointers instances specs) |}.
Proof.
  intros Hi Hl Hf. rewrite (device_pointers_seq _ _ Hi). split; cbn [successors indegree wired].
  - intros s. by rewrite lookup_empty.
  - intros d. unfold degree. rewrite start_indegree. by destruct (decide _).
  - intros d Hd. rewrite start_indegree, decide_True; [by eexists|]. apply elem_of_seq. lia.
  - by intros s d ?%elem_of_nil.
  - done.
  - by apply fresh_ports.
  - intros d i s port. unfold input_source. destruct (h !! d) as [dev|] eqn:E; [|done].
    eapply Forall_lookup_1 in Hf; [|exact E]. apply fr_inputs in Hf. destruct dev; try done. subst.
    change (mjoin (replicate (S (sources_ p)) None !! i) = Some (s, port) -> (s, d) ∈ []).
    destruct (replicate (S (sources_ p)) None !! i) eqn:Er; [|done].
    by apply lookup_replicate in Er as [-> _].
Qed.

Lemma start_attached (specs : list DeviceSpec) instances h :
  Forall fresh_device h ->
  attached_to h []
    {| wired := h; successors := ∅;
       indegree := foldl (fun m d => <[d := 0%nat]> m) ∅ (device_pointers instances specs) |}.
Proof.
  intros Hf. split; cbn [wired]; [done | done | by apply fresh_ports |].
  intros d i. split; [|by intros ?%elem_of_nil]. unfold input_source. intros [source Hs].
  destruct (h !! d) as [dev|] eqn:E; [|done]. eapply Forall_lookup_1 in Hf; [|exact E].
  apply fr_inputs in Hf. destruct dev; try done. subst.
  change (mjoin (replicate (S (sources_ p)) None !! i) = Some source) in Hs.
  destruct (replicate (S (sources_ p)) None !! i) eqn:Er; [|done].
  by apply lookup_replicate in Er as [-> _].
Qed.

(** The devices [connect] starts with are those no connection leads to. *)
Lemma start_ordering edges w n :
  wired_ok n edges w ->
  ordering (seq 0 n) edges 0 (indegree w)
    (filter (fun d => indegree w !! d = Some 0%nat) (seq 0 n)).
Proof.
  intros [Hsu Hde Hke Hed _ _ _]. split.
  - apply NoDup_filter, NoDup_seq.
  - by intros d [_ Hd]%list_elem_of_filter.
  - lia.
  - exact Hde.
  - intros d Hd. rewrite list_elem_of_filter. unfold degree.
    destruct (Hke d) as [k Hk]; [apply elem_of_seq in Hd; lia|]. rewrite Hk. cbn. naive_solver.
  - intros l1 d l2 Hs s Hin.
    assert (d ∈ filter (fun d => indegree w !! d = Some 0%nat) (seq 0 n)) as Hd
      by (rewrite Hs; set_solver).
    apply list_elem_of_filter in Hd as [Hd _].
    assert (open_edges edges [] d = 0%nat) as Hz by (rewrite <- Hde; unfold degree; by rewrite Hd).
    apply (proj1 (open_edges_zero _ _ _ )) with (s := s) in Hz; [|done]. by apply elem_of_nil in Hz.
Qed.

(** Every device comes after the devices it reads. *)
Definition sources_first h (order : list DevicePtr) : Prop :=
  forall d i s port, input_source h d i = Some (s, port) ->
  exists l1 l2, order = l1 ++ d :: l2 /\ s ∈ l1.

Definition acyclic instances (l : list ConnectionSpec) : Prop :=
  exists rank : DevicePtr -> nat,
    forall c s d, c ∈ l -> edge_of instances c = Some (s, d) -> (rank s < rank d)%nat.

Lemma forall2_edge instances (l : list ConnectionSpec) es s d :
  Forall2 (fun c e => edge_of instances c = Some e) l es ->
  (s, d) ∈ es <-> exists c, c ∈ l /\ edge_of instances c = Some (s, d).
Proof.
  intros Hf. induction Hf as [|c e l es He _ IH].
  - split; [by intros ?%elem_of_nil | by intros (? & ?%elem_of_nil & _)].
  - rewrite elem_of_cons, IH. setoid_rewrite elem_of_cons. naive_solver.
Qed.

Lemma ranked_acyclic instances (l : list ConnectionSpec) es rank :
  Forall2 (fun c e => edge_of instances c = Some e) l es ->
  ranked es rank <->
  forall c s d, c ∈ l -> edge_of instances c = Some (s, d) -> (rank s < rank d)%nat.
Proof.
  intros Hf. unfold ranked. split.
  - intros Hr c s d Hc He. apply Hr. apply (forall2_edge instances l); eauto.
  - intros Hr s d (c & ? & ?)%(forall2_edge instances l); [|done]. by eapply Hr.
Qed.

Lemma connect_spec instances (spec : PlatformSpec) h :
  instances_ok instances (spec_id <$> devices spec) ->
  length h = length (devices spec) -> Forall fresh_device h ->
  match connect instances spec h with
  | Ok (h', order) =>
      acyclic instances (connections spec) /\ order ≡ₚ seq 0 (length h) /\
      sources_first h' order /\ Forall (attached instances h') (connections spec) /\
      length h' = length h /\ ports_ok h' /\ connectable instances h (connections spec)
  | Throw e =>
      only_invalid e /\ ~ (connectable instances h (connections spec) /\ acyclic instances (connections spec))
  end.
Proof.
  intros Hi Hl Hf. unfold connect. pose proof (start_wired instances (devices spec) h Hi Hl Hf) as Hw.
  assert (length (spec_id <$> devices spec) = length (devices spec)) as Hn by apply length_fmap.
  rewrite <- Hn in Hw.
  pose proof (connect_all_spec instances _ (connections spec) _ [] Hi Hw) as Hc.
  pose proof (connect_all_accepts instances h (connections spec) [] _
    (start_attached (devices spec) instances h Hf) (NoDup_nil_2 (A := DevicePtr * nat))) as Hac.
  destruct (connect_all instances (connections spec) _) as [w|e]; cbn [rbind]; [|by split; [|intros [Hcon _]; apply Hac in Hcon]].
  destruct Hc as (es & Hes & Hwok & Hatt & _). rewrite Hn in Hwok. cbn [app] in Hwok.
  rewrite (device_pointers_seq _ _ Hi), length_seq, (instances_ok_size _ _ Hi), Hn.
  set (n := length (devices spec)) in *.
  pose proof (start_ordering es w n Hwok) as Hstart.
  assert (forall s d, (s, d) ∈ es -> s ∈ seq 0 n /\ d ∈ seq 0 n) as Hedge.
  { intros s d Hin. destruct (wo_edges _ _ _ Hwok s d Hin). rewrite !elem_of_seq. lia. }
  destruct (topological_order_spec (seq 0 n) (NoDup_seq _ _) es Hedge n 0 (successors w) (indegree w)
              (filter (fun d => indegree w !! d = Some 0%nat) (seq 0 n))) as (m' & Hfin).
  { apply (wo_successors _ _ _ Hwok). } { exact Hstart. } { rewrite length_seq. lia. }
  set (order := topological_order _ _ _ _ _) in *.
  destruct (Nat.eqb_spec (length order) n) as [Hlen|Hlen].
  - assert (order ≡ₚ seq 0 n) as Hperm.
    { apply submseteq_length_Permutation; [|rewrite length_seq; lia].
      apply NoDup_submseteq; [apply Hfin | apply Hfin]. }
    split_and!.
    + exists (position order). apply (ranked_acyclic _ _ es); [done|].
      by eapply finished_ranked.
    + by rewrite Hl.
    + intros d i s port Hs. pose proof (wo_sources _ _ _ Hwok _ _ _ _ Hs) as Hin.
      assert (d ∈ order) as Hd by (rewrite Hperm; by apply (Hedge s d)).
      apply list_elem_of_split in Hd as (l1 & l2 & Hsplit). exists l1, l2. split; [done|].
      by eapply (ord_sorted _ _ _ _ _ Hfin).
    + done.
    + by rewrite (wo_length _ _ _ Hwok), Hl.
    + apply (wo_ports _ _ _ Hwok).
    + exact Hac.
  - split; [by eexists|]. intros [_ [rank Hr] ].
    apply Hlen. apply (ranked_acyclic _ _ es) in Hr; [|done].
    pose proof (finished_complete (seq 0 n) (NoDup_seq _ _) es Hedge m' order rank Hfin Hr) as Hp.
    by rewrite Hp, length_seq.
Qed.
End Build.
