(* ===== verification/PlatformCycles.v ===== *)
(** * Platform cycles: theorems

    One clock cycle ticks every device once and then settles the interrupt
    lines in the order of the connections, which leaves no line out of date. *)
From S2P Require Import Prelude Text Axi Device Memory Uart Interrupts Heap Host Platform PlatformInstance.
From S2P Require Import Topology PlatformTheorems.

(** ** Settling is idempotent *)
Section Gateway.
Context (level : nat -> Z).
Implicit Types p : Plic.

(** The gateway of a source lets nothing through. *)
Definition gateway_closed p (i : nat) : Prop := nz (level i) && negb (busy_ p !!! i) = false.

Lemma gateway_closes p i : gateway_closed (gateway level p i) i.
Proof.
  unfold gateway_closed, gateway. destruct (nz (level i) && negb (busy_ p !!! i)) eqn:E; [|done].
  apply andb_false_iff. right. cbn. rewrite list_lookup_total_alt.
  destruct (decide (i < length (busy_ p))%nat).
  - by rewrite list_lookup_insert_eq.
  - by rewrite lookup_ge_None_2 by (rewrite length_insert; lia).
Qed.

Lemma gateway_keeps_closed p i j : gateway_closed p j -> gateway_closed (gateway level p i) j.
Proof.
  unfold gateway_closed, gateway. destruct (nz (level i) && negb (busy_ p !!! i)) eqn:E; [|done].
  cbn. intros Hj. destruct (decide (i = j)) as [->|].
  - rewrite E in Hj. done.
  - by rewrite list_lookup_total_insert_ne.
Qed.

Lemma gateways_close l p : forall i, i ∈ l -> gateway_closed (foldl (gateway level) p l) i.
Proof.
  assert (forall l p i, gateway_closed p i -> gateway_closed (foldl (gateway level) p l) i) as Hk.
  { intros l'. induction l' as [|x l' IH]; intros p' i Hi; [done|]. by apply IH, gateway_keeps_closed. }
  revert p. induction l as [|x l IH]; intros p i; [by intros ?%elem_of_nil|]. cbn [foldl].
  intros [->|Hi]%elem_of_cons; [apply Hk, gateway_closes | by apply IH].
Qed.

Lemma gateways_closed l p :
  (forall i, i ∈ l -> gateway_closed p i) -> foldl (gateway level) p l = p.
Proof.
  induction l as [|x l IH]; intros Hc; [done|]. cbn [foldl]. unfold gateway at 2.
  rewrite (Hc x) by (by left). apply IH. intros i Hi. apply Hc. by right.
Qed.

Lemma plic_settle_idem p : plic_settle level (plic_settle level p) = plic_settle level p.
Proof.
  unfold plic_settle. set (q := foldl _ p _).
  assert (sources_ q = sources_ p) as Hs.
  { unfold q. generalize (seq 1 (sources_ p)) as l. intros l. revert p q.
    induction l as [|x l IH]; intros p q; [done|]. cbn [foldl]. rewrite IH.
    unfold gateway. by destruct (_ && _). }
  change (sources_ (plic_notify q)) with (sources_ q). rewrite Hs.
  rewrite (gateways_closed _ (plic_notify q)).
  - unfold plic_notify. destruct q. done.
  - apply (gateways_close (seq 1 (sources_ p)) p).
Qed.

Lemma plic_settle_ext level' p :
  (forall i, level' i = level i) -> plic_settle level' p = plic_settle level p.
Proof.
  intros He. unfold plic_settle. f_equal. generalize (seq 1 (sources_ p)) as l. intros l. revert p.
  induction l as [|x l IH]; intros p; [done|]. cbn [foldl]. unfold gateway at 2 4. by rewrite He, IH.
Qed.
End Gateway.

Section Cycles.
Context `{!HostSystem} {B : Type} `{!UartBackend B, !UartStreams B}.
Implicit Types (d : DevicePtr) (h : Heap B) (dev : AnyDevice B) (order : list DevicePtr)
  (p : Platform B).

(** ** What a device call leaves alone *)
Definition same_wiring h h' : Prop :=
  length h' = length h /\ forall d i, input_source h' d i = input_source h d i.

Lemma same_wiring_refl h : same_wiring h h.
Proof. done. Qed.
Lemma same_wiring_trans h1 h2 h3 : same_wiring h1 h2 -> same_wiring h2 h3 -> same_wiring h1 h3.
Proof. intros [H1 H2] [H3 H4]. split; [congruence|]. intros. by rewrite H4. Qed.

Definition inputs_of dev : list (option SignalRef) :=
  match dev with DevPlic _ inputs => inputs | _ => [] end.

Lemma input_source_inputs h d i :
  input_source h d i = (h !! d ≫= fun dev => mjoin (inputs_of dev !! i)).
Proof. unfold input_source. by destruct (h !! d) as [[]|]. Qed.

(** A method that keeps the connections of its device. *)
Definition keeps_inputs (method : Heap B -> AnyDevice B -> AnyDevice B) : Prop :=
  forall h dev, inputs_of (method h dev) = inputs_of dev.

Lemma heap_call_lookup method d h d' :
  heap_call method d h !! d' = (if decide (d = d') then method h <$> h !! d' else h !! d').
Proof.
  unfold heap_call, Heap in *. destruct (decide (d = d')) as [->|].
  - by rewrite list_lookup_alter_eq.
  - by rewrite list_lookup_alter_ne.
Qed.

Lemma heap_call_wiring method d h : keeps_inputs method -> same_wiring h (heap_call method d h).
Proof.
  intros Hk. split; [apply length_alter|]. intros d' i. rewrite !input_source_inputs, heap_call_lookup.
  destruct (decide (d = d')); [|done]. destruct (h !! d') as [dev|]; cbn; [|done]. by rewrite Hk.
Qed.

Lemma settle_keeps : keeps_inputs settle_device.
Proof. by intros h []. Qed.
Lemma tick_keeps : keeps_inputs tick_device.
Proof. by intros h []. Qed.
Lemma reset_keeps : keeps_inputs reset_device.
Proof. by intros h []. Qed.

Lemma foldl_wiring method order h :
  keeps_inputs method -> same_wiring h (foldl (fun h d => heap_call method d h) h order).
Proof.
  intros Hk. revert h. induction order as [|d order IH]; intros h; [apply same_wiring_refl|].
  cbn [foldl]. eapply same_wiring_trans; [by apply heap_call_wiring | apply IH].
Qed.

Lemma insert_wiring h d dev dev' :
  h !! d = Some dev -> inputs_of dev' = inputs_of dev -> same_wiring h (<[d := dev']> h).
Proof.
  intros Hd Hi. split; [apply length_insert|]. intros d' i. rewrite !input_source_inputs.
  unfold Heap in *. destruct (decide (d' = d)) as [->|].
  - rewrite list_lookup_insert_eq by (by eapply lookup_lt_Some). rewrite Hd. cbn. by rewrite Hi.
  - by rewrite list_lookup_insert_ne.
Qed.

Lemma heap_read_wiring d offset data enable h :
  same_wiring h (heap_read d offset data enable h).2.
Proof.
  unfold heap_read. destruct (h !! d) as [[]|] eqn:E; try apply same_wiring_refl;
    repeat (destruct (uart_read _ _ _ _) as [[? ?] ?] || destruct (plic_read _ _ _ _) as [[? ?] ?]);
    by eapply insert_wiring.
Qed.

Lemma heap_write_wiring d offset data strobe h :
  same_wiring h (heap_write d offset data strobe h).2.
Proof.
  unfold heap_write. destruct (h !! d) as [[]|] eqn:E; try apply same_wiring_refl;
    repeat (destruct (rom_write _ _ _ _) || destruct (ram_write _ _ _ _) || destruct (uart_write _ _ _ _)
            || destruct (exit_write _ _ _ _) || destruct (clint_write _ _ _ _)
            || destruct (plic_write _ _ _ _ _)); by eapply insert_wiring.
Qed.

(** ** Settled heaps *)
Definition settled_at h d : Prop := forall dev, h !! d = Some dev -> settle_device h dev = dev.
Definition settled h : Prop := forall d, settled_at h d.

Lemma signal_value_call method d h s port :
  s <> d -> signal_value (heap_call method d h) (Some (s, port)) = signal_value h (Some (s, port)).
Proof. intros Hne. cbn. by rewrite heap_call_lookup, decide_False. Qed.

(** The levels a device reads when none of its sources has changed. *)
Lemma input_level_call method d h d' dev i :
  h !! d' = Some dev -> (forall s port, input_source h d' i = Some (s, port) -> s <> d) ->
  input_level (heap_call method d h) (inputs_of dev) i = input_level h (inputs_of dev) i.
Proof.
  intros Hd Hs. unfold input_level. rewrite input_source_inputs, Hd in Hs. cbn in Hs.
  destruct (mjoin (inputs_of dev !! i)) as [[s port]|]; [|done]. by eapply signal_value_call, Hs.
Qed.

Lemma settle_device_ext h h' dev :
  (forall i, input_level h' (inputs_of dev) i = input_level h (inputs_of dev) i) ->
  settle_device h' dev = settle_device h dev.
Proof. intros Hl. destruct dev; try done. cbn. by rewrite (plic_settle_ext (input_level h inputs)). Qed.

Lemma settle_device_idem h dev : settle_device h (settle_device h dev) = settle_device h dev.
Proof. destruct dev; try done. cbn. by rewrite plic_settle_idem. Qed.

(** In a settling order no device reads one that is settled with or after it. *)
Lemma source_not_later h order seen x todo d i s port :
  NoDup order -> sources_first h order -> order = seen ++ x :: todo -> d ∈ seen ++ [x] ->
  input_source h d i = Some (s, port) -> s <> x.
Proof.
  intros Hnd Hsrc Ho (k & Hk)%list_elem_of_lookup Hi ->.
  destruct (Hsrc d i x port Hi) as (l1 & l2 & Hl & (j & Hj)%list_elem_of_lookup).
  assert (order !! length seen = Some x) as Hx by (rewrite Ho; by apply list_lookup_middle).
  assert (order !! k = Some d) as Hd.
  { rewrite Ho. replace (seen ++ x :: todo) with ((seen ++ [x]) ++ todo) by (by rewrite <- app_assoc).
    by apply lookup_app_l_Some. }
  assert (order !! length l1 = Some d) as Hd' by (rewrite Hl; by apply list_lookup_middle).
  assert (order !! j = Some x) as Hxj by (rewrite Hl; by apply lookup_app_l_Some).
  apply lookup_lt_Some in Hk, Hj. rewrite length_app in Hk. cbn in Hk.
  pose proof (NoDup_lookup _ _ _ _ Hnd Hd Hd'). pose proof (NoDup_lookup _ _ _ _ Hnd Hx Hxj). lia.
Qed.

Lemma settle_all_settled order h :
  NoDup order -> sources_first h order -> (forall d, (d < length h)%nat -> d ∈ order) ->
  settled (settle_all order h).
Proof.
  intros Hnd Hsrc Hall. unfold settle_all.
  assert (forall todo seen h', order = seen ++ todo -> same_wiring h h' ->
            (forall d, d ∈ seen -> settled_at h' d) ->
            let h'' := foldl (fun h d => heap_call settle_device d h) h' todo in
            same_wiring h h'' /\ forall d, d ∈ order -> settled_at h'' d) as Hloop.
  { intros todo. induction todo as [|x todo IH]; intros seen h' Ho Hw Hs.
    { rewrite app_nil_r in Ho. subst. done. }
    cbn [foldl]. apply (IH (seen ++ [x])); [by rewrite <- app_assoc | |].
    { eapply same_wiring_trans; [done | by apply heap_call_wiring, settle_keeps]. }
    intros d Hd dev Hdev. rewrite heap_call_lookup in Hdev.
    assert (exists dev0, h' !! d = Some dev0 /\
              settle_device h' dev = dev /\ inputs_of dev = inputs_of dev0) as (dev0 & Hd0 & Hsd & Hin).
    { destruct (decide (x = d)) as [->|Hne].
      - destruct (h' !! d) as [dev0|]; [|done]. injection Hdev as <-. exists dev0.
        split_and!; [done | apply settle_device_idem | apply settle_keeps].
      - exists dev. split_and!; [done | | done]. apply (Hs d); [|done].
        apply elem_of_app in Hd as [?|?%list_elem_of_singleton]; [done | congruence]. }
    rewrite <- Hsd at 2. apply settle_device_ext. intros i. rewrite Hin.
    apply (input_level_call _ _ _ d); [done|]. intros s port Hi. rewrite (proj2 Hw) in Hi.
    by eapply source_not_later. }
  destruct (Hloop order [] h eq_refl (same_wiring_refl h)) as [Hw Hset]; [by intros d ?%elem_of_nil|].
  intros d dev Hdev. apply (Hset d); [|done]. apply Hall. rewrite <- (proj1 Hw).
  by eapply lookup_lt_Some.
Qed.

(** ** Each device once *)
Lemma foldl_call_lookup method order h d :
  (forall h h' dev, method h dev = method h' dev) -> NoDup order ->
  foldl (fun h d => heap_call method d h) h order !! d
  = if decide (d ∈ order) then method [] <$> h !! d else h !! d.
Proof.
  intros Hm Hnd. revert h. induction Hnd as [|x order Hx Hnd IH]; intros h; [done|].
  cbn [foldl]. rewrite IH, heap_call_lookup. pose proof (elem_of_cons order d x) as Hc.
  destruct (decide (x = d)) as [Heq|Hne], (decide (d ∈ order)), (decide (d ∈ x :: order));
    try done; try naive_solver.
  destruct (h !! d); [|done]. cbn. f_equal. apply Hm.
Qed.

Lemma foldl_call_map method order h :
  (forall h h' dev, method h dev = method h' dev) -> NoDup order ->
  (forall d, (d < length h)%nat -> d ∈ order) ->
  foldl (fun h d => heap_call method d h) h order = method [] <$> h.
Proof.
  intros Hm Hnd Hall. apply list_eq. intros d.
  rewrite list_lookup_fmap. etransitivity; [by apply foldl_call_lookup|].
  unfold Heap, DevicePtr in *. destruct (decide (d ∈ order)) as [|Hn]; [done|]. rewrite lookup_ge_None_2; [done|].
  destruct (decide (d < length h)%nat) as [Hlt|]; [by apply Hall in Hlt | lia].
Qed.

(** ** Platforms that run *)
Record platform_ok p : Prop := {
  po_order : order_ p ≡ₚ seq 0 (length (heap_ p));
  po_sources : sources_first (heap_ p) (order_ p)
}.

(** What happens to a platform: the clock cycle and the accesses of the AXI
    fabric (calls of [Device::read] and [Device::write]). *)
Inductive platform_step : Platform B -> Platform B -> Prop :=
| step_begin reset_active p : platform_step p (begin_cycle reset_active p)
| step_end reset_active p : platform_step p (end_cycle reset_active p)
| step_read d offset data enable p :
    platform_step p (p <| heap_ := (heap_read d offset data enable (heap_ p)).2 |>)
| step_write d offset data strobe p :
    platform_step p (p <| heap_ := (heap_write d offset data strobe (heap_ p)).2 |>).

Lemma platform_ok_wiring p p' :
  platform_ok p -> order_ p' = order_ p -> same_wiring (heap_ p) (heap_ p') -> platform_ok p'.
Proof.
  intros [Ho Hs] Heq [Hl Hi]. split; rewrite Heq; [by rewrite Hl|].
  intros d i s port. rewrite Hi. apply Hs.
Qed.

Lemma settle_all_wiring order h : same_wiring h (settle_all order h).
Proof. apply foldl_wiring, settle_keeps. Qed.

Lemma platform_reset_ok p : platform_ok p -> platform_ok (platform_reset p).
Proof.
  intros Hp. apply (platform_ok_wiring p); [done..|]. unfold platform_reset, platform_settle.
  eapply same_wiring_trans; [apply (foldl_wiring reset_device), reset_keeps | apply settle_all_wiring].
Qed.

Lemma platform_step_ok p p' : platform_ok p -> platform_step p p' -> platform_ok p'.
Proof.
  intros Hp Hs. destruct Hs as [r p|r p|d o data en p|d o data st p].
  - unfold begin_cycle. apply (platform_ok_wiring (if r && negb (was_reset_ p) then platform_reset p else p));
      [|done..]. destruct (r && _); [by apply platform_reset_ok | done].
  - unfold end_cycle. destruct (negb r); [|done]. apply (platform_ok_wiring p); [done..|].
    eapply same_wiring_trans; [apply (foldl_wiring tick_device), tick_keeps | apply settle_all_wiring].
  - apply (platform_ok_wiring p); [done | done | apply heap_read_wiring].
  - apply (platform_ok_wiring p); [done | done | apply heap_write_wiring].
Qed.

Lemma platform_settle_settled p : platform_ok p -> settled (heap_ (platform_settle p)).
Proof.
  intros [Ho Hs]. apply settle_all_settled; [| done |].
  - rewrite Ho. apply NoDup_seq.
  - intros d Hd. rewrite Ho. apply elem_of_seq. lia.
Qed.

Implicit Types registry : DeviceRegistry B.

Lemma made_instances registry (spec : PlatformSpec) configs host h instances host' :
  fresh_registry registry -> make_configs registry (devices spec) ∅ = Ok configs ->
  make_devices registry configs (devices spec) [] ∅ host = (Ok (h, instances), host') ->
  instances_ok instances (spec_id <$> devices spec) /\ length h = length (devices spec) /\
  Forall fresh_device h.
Proof.
  intros Hf Hc Hm. apply make_configs_nodup in Hc as [Hnd _].
  destruct (make_devices_spec registry configs (devices spec) [] ∅ [] host h instances host' Hf)
    as (Hi & Hl & Hfr); try done.
  split_and!; [done | | done]. by rewrite Hl, app_nil_l, length_fmap.
Qed.

(** C21: the connections decide the settling order.  [connect] succeeds exactly
    if every connection leads from an output of a device to an input of a device
    that is as wide, no input has two drivers, and the connections have no
    cycle.  Then every input is attached to its signal, and the order holds
    every device once, each after the devices it reads.  Otherwise it throws
    [std::invalid_argument]. *)
Theorem connections_decide_the_settling_order registry (spec : PlatformSpec) configs host h instances host' :
  fresh_registry registry -> make_configs registry (devices spec) ∅ = Ok configs ->
  make_devices registry configs (devices spec) [] ∅ host = (Ok (h, instances), host') ->
  match connect instances spec h with
  | Ok (h', order) =>
      connectable instances h (connections spec) /\ acyclic instances (connections spec) /\
      order ≡ₚ seq 0 (length h) /\ sources_first h' order /\ Forall (attached instances h') (connections spec)
  | Throw e =>
      only_invalid e /\
      ~ (connectable instances h (connections spec) /\ acyclic instances (connections spec))
  end.
Proof.
  intros Hf Hc Hm. destruct (made_instances registry spec configs host h instances host' Hf Hc Hm) as (Hi & Hl & Hfr).
  pose proof (connect_spec instances spec h Hi Hl Hfr) as Hs.
  destruct (connect instances spec h) as [[h' order]|e]; [tauto | done].
Qed.

(** The parts of a platform that has been built. *)
Record built registry (spec : PlatformSpec) (bits : Z) (host : HostState) (p : Platform B)
    (host' : HostState) : Prop := {
  bt_bits : bits = 32 \/ bits = 64;
  bt_parts : exists configs h instances space images h' order,
    make_configs registry (devices spec) ∅ = Ok configs /\
    make_devices registry configs (devices spec) [] ∅ host = (Ok (h, instances), host') /\
    map_windows instances bits (mappings spec) empty_space = Ok space /\
    collect_images registry configs (mappings spec) (devices spec) = Ok images /\
    connect instances spec h = Ok (h', order) /\
    p = platform_reset
          {| heap_ := h'; devices_ := instances; order_ := order;
             address_space_ := space_freeze space; images_ := images; was_reset_ := false |}
}.

Lemma build_platform_parts registry (spec : PlatformSpec) bits host p host' :
  build_platform registry spec bits host = (Ok p, host') -> built registry spec bits host p host'.
Proof.
  unfold build_platform. destruct ((bits =? 32) || (bits =? 64)) eqn:Eb; [|done]. cbn [negb]. intros Hb.
  lifted Hb as configs Ec. returned Hb as [h instances] host1 Em. lifted Hb as space Es.
  lifted Hb as images Ei. lifted Hb as [h' order] Eo. injection Hb as <- ->. constructor.
  - apply orb_true_iff in Eb as [?%Z.eqb_eq|?%Z.eqb_eq]; auto.
  - by exists configs, h, instances, space, images, h', order.
Qed.

Lemma build_platform_ok registry spec bits host p host' :
  fresh_registry registry -> build_platform registry spec bits host = (Ok p, host') ->
  platform_ok p /\ settled (heap_ p).
Proof.
  intros Hf Hb. destruct (build_platform_parts _ _ _ _ _ _ Hb)
    as [_ (configs & h & instances & space & images & h' & order & Ec & Em & _ & _ & Eo & ->)].
  destruct (made_instances registry spec configs host h instances host' Hf Ec Em) as (Hi & Hl & Hfr).
  pose proof (connect_spec instances spec h Hi Hl Hfr) as Hs. rewrite Eo in Hs.
  destruct Hs as (_ & Hperm & Hsrc & _ & Hlen & _).
  set (p0 := {| heap_ := h' |}). assert (platform_ok p0) as Hp0.
  { split; [cbn; by rewrite Hlen | done]. }
  split; [by apply platform_reset_ok | apply platform_settle_settled].
  apply (platform_ok_wiring p0); [done | done |]. apply foldl_wiring, reset_keeps.
Qed.

Lemma foldl_order_map method p :
  platform_ok p -> (forall h h' dev, method h dev = method h' dev) ->
  foldl (fun h d => heap_call method d h) (heap_ p) (order_ p) = method [] <$> heap_ p.
Proof.
  intros [Ho _] Hm. apply foldl_call_map; [done | rewrite Ho; apply NoDup_seq|].
  intros d Hd. rewrite Ho. apply elem_of_seq. lia.
Qed.

(** C20: the clock cycle of a platform.  Whatever cycles and device accesses it
    has been through, an active cycle ticks every device exactly once and then
    settles: no device would change its outputs if it were settled again, so
    every interrupt line shows the present levels of its sources.  A cycle in
    reset ticks nothing, and the first one resets every device once and settles
    the lines. *)
Theorem interrupt_lines_settle_every_cycle registry (spec : PlatformSpec) bits host p0 host' p :
  fresh_registry registry -> build_platform registry spec bits host = (Ok p0, host') ->
  rtc platform_step p0 p ->
  settled (heap_ p0) /\
  (let p' := end_cycle false p in
   heap_ p' = settle_all (order_ p) (tick_device [] <$> heap_ p) /\ settled (heap_ p')) /\
  heap_ (end_cycle true p) = heap_ p /\
  (was_reset_ p = false ->
   let p' := begin_cycle true p in
   heap_ p' = settle_all (order_ p) (reset_device [] <$> heap_ p) /\ settled (heap_ p') /\
   heap_ (begin_cycle true p') = heap_ p').
Proof.
  intros Hf Hb Hr. destruct (build_platform_ok registry spec bits host p0 host' Hf Hb) as [Hp0 Hs0].
  assert (platform_ok p) as Hp.
  { eapply rtc_invariant; [|exact Hp0|exact Hr]. intros a b. apply platform_step_ok. }
  split; [done|]. split; [split | split; [done|]].
  - change (settle_all (order_ p) (foldl (fun h d => heap_call tick_device d h) (heap_ p) (order_ p))
            = settle_all (order_ p) (tick_device [] <$> heap_ p)).
    by rewrite (foldl_order_map tick_device) by (done || by intros ?? []).
  - apply platform_settle_settled, (platform_ok_wiring p); [done | done |].
    apply foldl_wiring, tick_keeps.
  - intros Hw. unfold begin_cycle. rewrite Hw. cbn [andb negb]. split; [|split; [|done]].
    + change (settle_all (order_ p) (foldl (fun h d => heap_call reset_device d h) (heap_ p) (order_ p))
              = settle_all (order_ p) (reset_device [] <$> heap_ p)).
      by rewrite (foldl_order_map reset_device) by (done || by intros ?? []).
    + apply platform_settle_settled, (platform_ok_wiring p); [done | done |].
      apply foldl_wiring, reset_keeps.
Qed.
End Cycles.
