(* ===== verification/PlatformConfig.v ===== *)
(** * Device configurations, and the Fuxi platform as an example

    [DeviceRegistry::configure] accepts exactly the properties the schema of a
    device type allows.  The built-in registry and the Fuxi extension are
    instances of the assumptions of the platform theorems. *)
From stdpp Require Import sorting.
From S2P Require Import Prelude Text RingBuffer Axi Device Memory Uart Interrupts InterruptTheorems Heap HeapLines Host Platform.
From S2P Require Import PlatformInstance Topology PlatformTheorems PlatformCycles.

Lemma emplace_fresh {A} (key : string) (value : A) (m : gmap string A) :
  m !! key = None -> emplace key value m = <[key := value]> m.
Proof. unfold emplace. by intros ->. Qed.

Section Configure.
Context `{!HostSystem} {B : Type} `{!UartBackend B, !UartStreams B}.
Implicit Types (registry : DeviceRegistry B) (type : DeviceType B) (schema : list DeviceOption)
  (properties values : Properties).

(** The value an option has: the given one or the default. *)
Definition option_value properties (o : DeviceOption) : string :=
  default (default_value o) (properties !! option_name o).

Definition valid_value (o : DeviceOption) (value : string) : Prop :=
  match option_kind o with
  | OptUnsigned => exists n, parse_unsigned value = Ok n /\ minimum o <= n <= maximum o
  | OptBoolean => value = "true" \/ value = "false"
  | OptString => True
  end.

Definition acceptable schema properties : Prop :=
  (forall key, is_Some (properties !! key) -> key ∈ (option_name <$> schema)) /\
  Forall (fun o => valid_value o (option_value properties o)) schema.

Lemma parse_unsigned_throws text e : parse_unsigned text = Throw e -> only_invalid e.
Proof.
  unfold parse_unsigned. repeat case_match; intros [= <-]; by eexists.
Qed.

Lemma check_value_spec o value :
  match check_value o value with
  | Ok _ => valid_value o value
  | Throw e => only_invalid e /\ ~ valid_value o value
  end.
Proof.
  unfold check_value, valid_value. destruct (option_kind o); [done| |].
  - destruct (parse_unsigned value) as [n|e] eqn:E; cbn.
    + bool_cases; cbn; try (split; [by eexists|]; intros (n' & [= <-] & ?); lia).
      exists n. split; [done | lia].
    + split; [by eapply parse_unsigned_throws|]. by intros (? & ? & _).
  - repeat case_bool_decide; cbn; try tauto. split; [by eexists | tauto].
Qed.

Lemma find_option_spec name schema :
  is_Some (find_option name schema) <-> name ∈ (option_name <$> schema).
Proof.
  unfold find_option. induction schema as [|o schema IH]; cbn.
  { split; [by intros [? ?] | by intros ?%elem_of_nil]. }
  rewrite elem_of_cons. case_bool_decide; [naive_solver|]. rewrite IH. naive_solver.
Qed.

Lemma check_keys_spec name schema keys :
  match check_keys name schema keys with
  | Ok _ => Forall (fun key => key ∈ (option_name <$> schema)) keys
  | Throw e => only_invalid e /\ ~ Forall (fun key => key ∈ (option_name <$> schema)) keys
  end.
Proof.
  induction keys as [|key keys IH]; [constructor|]. cbn [check_keys].
  pose proof (find_option_spec key schema) as Hk. case_bool_decide as Hf.
  - destruct (check_keys name schema keys) as [[]|e].
    + constructor; [by apply Hk | done].
    + split; [tauto|]. intros [_ ?]%Forall_cons. tauto.
  - split; [by eexists|]. intros [? _]%Forall_cons. tauto.
Qed.

Lemma sorted_keys_elem properties key :
  key ∈ sorted_keys properties <-> is_Some (properties !! key).
Proof.
  unfold sorted_keys. rewrite (merge_sort_Permutation String.le), list_elem_of_fmap. split.
  - intros ([k v] & -> & Hin%elem_of_map_to_list). by exists v.
  - intros [v Hv]. exists (key, v). split; [done|]. by apply elem_of_map_to_list.
Qed.

Lemma configure_options_spec properties schema values :
  NoDup (option_name <$> schema) -> (forall o, o ∈ schema -> values !! option_name o = None) ->
  match configure_options properties schema values with
  | Ok values' =>
      Forall (fun o => valid_value o (option_value properties o)) schema /\
      (forall o, o ∈ schema -> values' !! option_name o = Some (option_value properties o)) /\
      (forall key, key ∉ (option_name <$> schema) -> values' !! key = values !! key)
  | Throw e =>
      only_invalid e /\ ~ Forall (fun o => valid_value o (option_value properties o)) schema
  end.
Proof.
  revert values. induction schema as [|o schema IH]; intros values Hnd Hn.
  { cbn. split_and!; [constructor | by intros o ?%elem_of_nil | done]. }
  cbn [fmap list_fmap] in Hnd. apply NoDup_cons in Hnd as [Ho Hnd]. cbn [configure_options].
  pose proof (check_value_spec o (option_value properties o)) as Hc.
  change (default (default_value o) (properties !! option_name o)) with (option_value properties o).
  destruct (check_value o (option_value properties o)) as [[]|e]; cbn [rbind].
  2:{ split; [tauto|]. intros [? _]%Forall_cons. tauto. }
  rewrite (emplace_fresh _ _ values) by (apply Hn; by left).
  assert (forall o', o' ∈ schema ->
    (<[option_name o := option_value properties o]> (values : gmap string string))
      !! option_name o' = None) as Hn'.
  { intros o' Hin. rewrite lookup_insert_ne; [apply Hn; by right|]. intros Heq. apply Ho.
    rewrite Heq. by apply list_elem_of_fmap_2. }
  specialize (IH _ Hnd Hn').
  destruct (configure_options properties schema _) as [values'|e].
  - destruct IH as (Hv & Hl & Hk). split_and!; [by constructor | |].
    + intros o' [->|Hin]%elem_of_cons; [|by apply Hl]. rewrite Hk by done.
      apply (lookup_insert_eq (M := gmap string)).
    + intros key Hkey. cbn in Hkey. apply not_elem_of_cons in Hkey as [Hne Hkey].
      rewrite Hk by done. by apply (lookup_insert_ne (M := gmap string)).
  - split; [tauto|]. intros [_ ?]%Forall_cons. tauto.
Qed.

(** What [DeviceRegistry::add] guarantees of the types it lets in. *)
Definition type_ok type : Prop := NoDup (option_name <$> type_options type).
Definition registry_ok registry : Prop := map_Forall (A := DeviceType B) (fun _ => type_ok) (registry : gmap string _).

Lemma check_options_nodup names schema :
  check_options names schema = Ok tt ->
  NoDup (option_name <$> schema) /\ forall o, o ∈ schema -> option_name o ∉ names.
Proof.
  revert names. induction schema as [|o schema IH]; intros names Hc.
  { split; [constructor | by intros o ?%elem_of_nil]. }
  cbn [check_options] in Hc. destruct (validate_name _); [|done]. cbn [rbind] in Hc.
  case_bool_decide as Hin; [done|]. cbn [negb] in Hc. destruct (maximum o <? minimum o); [done|].
  destruct (IH _ Hc) as [Hnd Hn]. split.
  - cbn. constructor; [|done]. intros (o' & Heq & Ho')%list_elem_of_fmap.
    apply (Hn o' Ho'). rewrite Heq. by left.
  - intros o' [->|Ho']%elem_of_cons; [done|]. specialize (Hn o' Ho'). set_solver.
Qed.

Lemma registry_add_ok name type registry registry' :
  registry_ok registry -> registry_add name type registry = Ok registry' -> registry_ok registry'.
Proof.
  unfold registry_add, registry_ok. intros Hr. destruct (validate_name name); [|done]. cbn [rbind].
  case_bool_decide; [|done]. destruct (check_options [] (type_options type)) as [[]|] eqn:Ec; [|done].
  cbn [rbind]. destruct (check_image_option type); [|done]. cbn [rbind].
  destruct (registry !! name); [done|]. intros [= <-].
  apply (map_Forall_insert_2 (M := gmap string)); [|done]. by apply check_options_nodup in Ec as [? _].
Qed.

Lemma registry_add_lookup name type registry registry' :
  registry_add name type registry = Ok registry' -> registry' !! name = Some type.
Proof.
  unfold registry_add. destruct (validate_name name); [|done]. cbn [rbind].
  case_bool_decide; [|done]. destruct (check_options [] (type_options type)); [|done]. cbn [rbind].
  destruct (check_image_option type); [|done]. cbn [rbind].
  destruct (registry !! name); [done|]. intros [= <-].
  apply (lookup_insert_eq (M := gmap string)).
Qed.

Lemma registry_add_keeps name type registry registry' name' type' :
  registry_add name type registry = Ok registry' -> registry !! name' = Some type' ->
  registry' !! name' = Some type'.
Proof.
  unfold registry_add. intros Ha Hl. destruct (validate_name name); [|done]. cbn [rbind] in Ha.
  case_bool_decide; [|done]. destruct (check_options [] (type_options type)); [|done]. cbn [rbind] in Ha.
  destruct (check_image_option type); [|done]. cbn [rbind] in Ha.
  destruct (registry !! name) eqn:E; [done|]. injection Ha as <-.
  apply (lookup_insert_Some (M := gmap string)). right. split; [congruence | done].
Qed.

Lemma configure_spec registry name type properties :
  registry_ok registry -> registry !! name = Some type ->
  match configure name properties registry with
  | Ok values =>
      acceptable (type_options type) properties /\
      (forall o, o ∈ type_options type ->
         config_text values (option_name o) = Ok (option_value properties o)) /\
      (forall key, key ∉ (option_name <$> type_options type) -> values !! key = None)
  | Throw e => only_invalid e /\ ~ acceptable (type_options type) properties
  end.
Proof.
  intros Hr Ht. unfold configure, registry_type, acceptable. rewrite Ht. cbn [rbind].
  set (schema := type_options type).
  pose proof (check_keys_spec name schema (sorted_keys properties)) as Hk.
  assert (Forall (fun key => key ∈ (option_name <$> schema)) (sorted_keys properties) <->
    (forall key, is_Some (properties !! key) -> key ∈ (option_name <$> schema))) as Hkeys.
  { rewrite Forall_forall. by setoid_rewrite sorted_keys_elem. }
  destruct (check_keys name schema (sorted_keys properties)) as [[]|e]; cbn [rbind].
  2:{ split; [tauto|]. intros [? _]. tauto. }
  pose proof (configure_options_spec properties schema ∅ (Hr _ _ Ht)) as Ho.
  destruct (configure_options properties schema ∅) as [values|e].
  - destruct Ho as (Hv & Hl & Hn); [intros; apply lookup_empty|]. split_and!; [tauto | done | |].
    + intros o Hin. unfold config_text. by rewrite Hl.
    + intros key Hkey. by rewrite Hn.
  - destruct Ho as [He Hn]; [intros; apply lookup_empty|]. tauto.
Qed.

(** A specification with bad properties stops [make_configs]. *)
Lemma configure_throws registry name properties e :
  registry_ok registry -> configure name properties registry = Throw e -> only_invalid e.
Proof.
  intros Hr Hc. destruct (registry !! name) as [type|] eqn:Et.
  - pose proof (configure_spec registry name type properties Hr Et) as Hs. rewrite Hc in Hs. apply Hs.
  - unfold configure, registry_type in Hc. rewrite Et in Hc. injection Hc as <-. by eexists.
Qed.

Lemma validate_name_throws name e : validate_name name = Throw e -> only_invalid e.
Proof. unfold validate_name. destruct (_ && _); [done|]. intros [= <-]. by eexists. Qed.

Lemma make_configs_rejects registry specs configs d type :
  registry_ok registry -> d ∈ specs -> registry !! spec_type d = Some type ->
  ~ acceptable (type_options type) (spec_properties d) ->
  exists e, only_invalid e /\ make_configs registry specs configs = Throw e.
Proof.
  intros Hr Hd Ht Hn. revert configs. induction specs as [|d' specs IH]; intros configs; [by apply not_elem_of_nil in Hd|].
  cbn [make_configs]. destruct (validate_name (spec_id d')) as [[]|e] eqn:Ev; cbn [rbind].
  2:{ exists e. split; [by eapply validate_name_throws | done]. }
  destruct (configure (spec_type d') (spec_properties d') registry) as [config|e] eqn:Ec; cbn [rbind].
  2:{ exists e. split; [by eapply configure_throws | done]. }
  destruct (configs !! spec_id d'); [by eexists; split; [eexists|]|].
  apply elem_of_cons in Hd as [->|Hd]; [|by apply IH].
  pose proof (configure_spec registry _ type (spec_properties d') Hr Ht) as Hs. rewrite Ec in Hs. destruct Hn. apply Hs.
Qed.

(** C23: [configure] accepts properties exactly when each of them is an option of
    the type and each option has, given or by default, a value of its kind
    within its bounds.  The configuration then has exactly the options of the
    type, each with its given value or its default.  Otherwise it throws
    [std::invalid_argument].  A platform whose specification has such a device
    anywhere is rejected before any factory has run: the host is as it was, no
    file is opened and no memory allocated for the devices before it either. *)
Theorem configure_accepts_exactly_valid_properties registry name type properties :
  registry_ok registry -> registry !! name = Some type ->
  match configure name properties registry with
  | Ok values =>
      acceptable (type_options type) properties /\
      (forall o, o ∈ type_options type ->
         config_text values (option_name o) = Ok (option_value properties o)) /\
      (forall key, key ∉ (option_name <$> type_options type) -> values !! key = None)
  | Throw e =>
      only_invalid e /\ ~ acceptable (type_options type) properties /\
      forall spec id bits host,
        {| spec_id := id; spec_type := name; spec_properties := properties |} ∈ devices spec ->
        exists e, only_invalid e /\ build_platform registry spec bits host = (Throw e, host)
  end.
Proof.
  intros Hr Ht. pose proof (configure_spec registry name type properties Hr Ht) as Hs.
  destruct (configure name properties registry) as [values|e]; [exact Hs|].
  destruct Hs as [He Hn]. split; [exact He|]. split; [exact Hn|]. intros spec id bits host Hd.
  unfold build_platform. destruct (negb _); [by eexists; split; [eexists|]|].
  destruct (make_configs_rejects registry (devices spec) ∅ _ type Hr Hd Ht Hn) as (e' & He' & Em).
  exists e'. split; [exact He'|]. unfold bind, lift. by rewrite Em.
Qed.

(** ** The registered types make fresh devices *)
Definition makes_fresh type : Prop :=
  forall factory config host dev host',
    create type = Some factory -> factory config host = (Ok (Some dev), host') -> fresh_device dev.

Lemma fresh_registry_add name type registry registry' :
  fresh_registry registry -> makes_fresh type ->
  registry_add name type registry = Ok registry' -> fresh_registry registry'.
Proof.
  unfold registry_add. intros Hr Hf. destruct (validate_name name); [|done]. cbn [rbind].
  case_bool_decide; [|done]. destruct (check_options [] (type_options type)); [|done]. cbn [rbind].
  destruct (check_image_option type); [|done]. cbn [rbind].
  destruct (registry !! name); [done|]. intros [= <-] name' type' factory config host dev host' Hn Hc Hd.
  apply (lookup_insert_Some (M := gmap string)) in Hn as [[-> <-]|[_ Hn]];
    [by eapply Hf | by eapply Hr].
Qed.

Lemma config_number_fits values name n : config_number values name = Ok n -> fits 64 n.
Proof. unfold config_number. destruct (config_text _ _); [|done]. cbn [rbind]. apply parse_unsigned_fits. Qed.

Lemma clint_made divider c : fits 64 divider -> mk_clint divider = Ok c -> clint_wf c.
Proof.
  intros [? ?]. unfold mk_clint. destruct (nz divider) eqn:E; [|done]. intros [= <-]. apply nz_true in E.
  apply clint_reset_wf. cbn. lia.
Qed.

Lemma plic_made sources contexts p : mk_plic sources contexts = Ok p -> plic_wf p /\ notified p.
Proof. intros E. pose proof (mk_plic_spec sources contexts) as Hp. by rewrite E in Hp. Qed.

Ltac factory_cases :=
  intros factory config host dev host' [= <-] Hd; cbn beta in Hd;
  repeat match type of Hd with
         | bind (lift _) _ _ = _ => let E := fresh "E" in lifted Hd as ? E
         | bind _ _ _ = _ => let E := fresh in returned Hd as ? ? E; clear E
         end; injection Hd as <-.

Lemma builtin_types_make_fresh :
  makes_fresh rom_type /\ makes_fresh ram_type /\ makes_fresh uart_type /\
  makes_fresh exit_type /\ makes_fresh clint_type /\ makes_fresh plic_type.
Proof.
  split_and!; factory_cases; split; try done.
  - eapply clint_made; [by eapply config_number_fits | done].
  - by eapply plic_made.
  - by rewrite Nat.add_1_r.
Qed.

Lemma fuxi_registry_ok registry registry' :
  fresh_registry registry -> registry_ok registry ->
  (try r := register_builtin_devices registry in fuxi_register_devices r) = Ok registry' ->
  fresh_registry registry' /\ registry_ok registry'.
Proof.
  intros Hf Hr. unfold register_builtin_devices, fuxi_register_devices.
  destruct builtin_types_make_fresh as (H1 & H2 & H3 & H4 & H5 & H6).
  repeat (match goal with
          | |- context [registry_add ?n ?t ?r] =>
              is_var r; destruct (registry_add n t r) eqn:?; cbn [rbind]; [|done]
          end). intros [= <-].
  split;
    repeat match goal with
           | E : registry_add _ _ _ = Ok ?r |- fresh_registry ?r =>
               refine (fresh_registry_add _ _ _ _ _ _ E); [clear E | assumption]
           | E : registry_add _ _ _ = Ok ?r |- registry_ok ?r =>
               refine (registry_add_ok _ _ _ _ _ E); clear E
           end; assumption.
Qed.
End Configure.
