(* ===== verification/ElfHeap.v ===== *)
(** * Loading images into a platform

    Loading changes the contents of memories and nothing else: the wiring of
    the devices and their settled interrupt lines survive it. *)
From S2P Require Import Prelude Text Axi Device Memory Uart Interrupts Heap Elf.
From S2P Require Import Platform PlatformInstance PlatformTheorems PlatformCycles.

Section Loading.
Context {B : Type} `{!UartBackend B}.
Implicit Types (h : Heap B) (d : DevicePtr) (dev : AnyDevice B).

Definition memory dev : bool := match dev with DevRom _ | DevRam _ => true | _ => false end.

(** The same device, except that a memory may hold other bytes. *)
Definition same_but_bytes dev dev' : Prop :=
  dev' = dev \/ (memory dev = true /\ memory dev' = true).

#[export] Instance same_but_bytes_preorder : PreOrder same_but_bytes.
Proof.
  split; [by left|]. intros x y z [->|[? ?]] [->|[? ?]]; unfold same_but_bytes; auto.
Qed.

Definition memory_only : Heap B -> Heap B -> Prop := Forall2 same_but_bytes.

Lemma memory_only_refl h : memory_only h h.
Proof. apply (reflexivity (R := Forall2 same_but_bytes)). Qed.

Lemma memory_only_trans h1 h2 h3 : memory_only h1 h2 -> memory_only h2 h3 -> memory_only h1 h3.
Proof. apply (transitivity (R := Forall2 same_but_bytes)). Qed.

Lemma memory_only_insert h d dev dev' :
  h !! d = Some dev -> memory dev = true -> memory dev' = true -> memory_only h (<[d := dev']> h).
Proof.
  intros Hd Hm Hm'. assert (h = <[d := dev]> h) as E.
  { unfold Heap, DevicePtr in *. symmetry. by apply list_insert_id. }
  rewrite E at 1. apply Forall2_insert; [apply memory_only_refl | by right].
Qed.

Lemma heap_load_memory d offset data h : memory_only h (heap_load d offset data h).2.
Proof.
  unfold heap_load. destruct (h !! d) as [dev|] eqn:E; [|apply memory_only_refl].
  destruct dev; try apply memory_only_refl.
  - destruct (rom_load _ _ _). by eapply memory_only_insert.
  - destruct (ram_load _ _ _). by eapply memory_only_insert.
Qed.

(** A computation that only loads. *)
Definition only_loads {A} (c : M (Heap B) A) : Prop :=
  forall h0 h, memory_only h0 h -> wp c (fun _ => memory_only h0) (fun _ => memory_only h0) h.

Lemma only_loads_bind {A A'} (c : M (Heap B) A) (k : A -> M (Heap B) A') :
  only_loads c -> (forall a, only_loads (k a)) -> only_loads (bind c k).
Proof.
  intros Hc Hk h0 h Hh. eapply wp_seq; [by apply Hc|]. intros a h' Hh'. by apply Hk.
Qed.

Lemma only_loads_ret {A} (a : A) : only_loads (ret a).
Proof. by intros h0 h Hh. Qed.
Lemma only_loads_throw {A} e : only_loads (throw e : M (Heap B) A).
Proof. by intros h0 h Hh. Qed.
Lemma only_loads_gets {A} (f : Heap B -> A) : only_loads (gets f).
Proof. by intros h0 h Hh. Qed.

Lemma device_load_only d offset data : only_loads (device_load d offset data).
Proof.
  intros h0 h Hh. unfold wp, device_load. pose proof (heap_load_memory d offset data h) as Hl.
  change (load_impl d offset data h) with (heap_load d offset data h).
  destruct (heap_load d offset data h) as [r h']. by eapply memory_only_trans.
Qed.

Lemma wp_both {A} (c : M (Heap B) A) (P : Heap B -> Prop) h :
  P (c h).2 -> wp c (fun _ => P) (fun _ => P) h.
Proof. unfold wp. by destruct (c h) as [[a|e] h']. Qed.

Lemma space_load_only space address data : only_loads (space_load (H := Heap B) space address data).
Proof.
  unfold space_load. destruct (_ =? _)%nat; [apply only_loads_ret|].
  destruct (space_resolve _ _ _) as [m|]; [|apply only_loads_ret].
  apply only_loads_bind; [apply only_loads_gets|]. intros ok. destruct (negb ok); [apply only_loads_ret|].
  apply only_loads_bind; [apply only_loads_gets|]. intros fit. destruct (negb fit); [apply only_loads_ret|].
  apply device_load_only.
Qed.

Lemma load_or_throw_only space address data what :
  only_loads (load_or_throw (H := Heap B) space address data what).
Proof.
  unfold load_or_throw. apply only_loads_bind; [apply space_load_only|]. intros r.
  destruct (negb _); [apply only_loads_throw | apply only_loads_ret].
Qed.

Lemma zero_fill_only space fuel address remaining :
  only_loads (zero_fill (H := Heap B) space fuel address remaining).
Proof.
  revert address remaining. induction fuel as [|fuel IH]; intros; cbn [zero_fill]; [apply only_loads_ret|].
  destruct (_ =? _); [apply only_loads_ret|]. apply only_loads_bind; [apply load_or_throw_only | auto].
Qed.

Lemma apply_only space chunks : only_loads (apply (H := Heap B) space chunks).
Proof.
  intros h0 h Hh. unfold wp, apply. destruct (check_chunks space h [] chunks); [|done].
  apply wp_for_each_inv; [done|]. intros c h1 _ Hh1. unfold apply_chunk, apply_segment.
  apply only_loads_bind; [|intros; apply zero_fill_only | done].
  destruct (negb _); [apply load_or_throw_only | apply only_loads_ret].
Qed.

(** ** What loading leaves alone *)
Lemma memory_only_lookup h h' d :
  memory_only h h' ->
  h' !! d = h !! d \/
  exists dev dev', h !! d = Some dev /\ h' !! d = Some dev' /\ memory dev = true /\ memory dev' = true.
Proof.
  intros Hm. destruct (h !! d) as [dev|] eqn:E.
  - destruct (Forall2_lookup_l _ _ _ _ _ Hm E) as (dev' & E' & [->|[? ?]]); [by left|].
    right. by exists dev, dev'.
  - left. unfold Heap, DevicePtr in *. apply lookup_ge_None in E. apply lookup_ge_None.
    by rewrite <- (Forall2_length _ _ _ Hm).
Qed.

Lemma memory_only_wiring h h' : memory_only h h' -> same_wiring h h'.
Proof.
  intros Hm. split; [symmetry; apply (Forall2_length _ _ _ Hm)|]. intros d i.
  rewrite !input_source_inputs.
  destruct (memory_only_lookup h h' d Hm) as [->|(dev & dev' & -> & -> & H1 & H2)]; [done|].
  cbn. by destruct dev, dev'.
Qed.

Lemma memory_only_level h h' inputs i : memory_only h h' -> input_level h' inputs i = input_level h inputs i.
Proof.
  intros Hm. unfold input_level, signal_value. destruct (mjoin (inputs !! i)) as [[d name]|]; [|done].
  destruct (memory_only_lookup h h' d Hm) as [->|(dev & dev' & -> & -> & H1 & H2)]; [done|].
  by destruct dev, dev'.
Qed.

Lemma memory_only_settled h h' : memory_only h h' -> settled h -> settled h'.
Proof.
  intros Hm Hs d dev Hd.
  destruct (memory_only_lookup h h' d Hm) as [E|(dev0 & dev' & _ & E & _ & Hmem)].
  - rewrite E in Hd. specialize (Hs d dev Hd). destruct dev; try exact Hs. cbn in *.
    by rewrite (plic_settle_ext (input_level h inputs)) by (intros; by apply memory_only_level).
  - rewrite Hd in E. injection E as ->. by destruct dev'.
Qed.
End Loading.
