(* ===== verification/PlatformLines.v ===== *)
(** * Signals of a platform

    A platform keeps the outputs of its devices, so a sideband binding that has
    been bound once reads the same devices in every cycle.  Its CLINTs and PLICs
    keep their invariants from construction on.  The clock
    cycle does not touch the memories. *)
From S2P Require Import Prelude Text Axi Device Memory Uart Interrupts InterruptTheorems Heap HeapLines Host.
From S2P Require Import Elf ElfPlan Platform PlatformInstance Topology PlatformTheorems PlatformCycles ElfHeap.

Section Lines.
Context `{!HostSystem} {B : Type} `{!UartBackend B, !UartStreams B}.
Implicit Types (h : Heap B) (d : DevicePtr) (dev : AnyDevice B) (p : Platform B).

Lemma set_source_lines d i signal h : heap_lines h (set_source d i signal h).
Proof.
  unfold set_source. apply (heap_call_lines (fun _ device => match device with
    | DevPlic p inputs => DevPlic p (<[i := Some signal]> inputs)
    | other => other
    end) d h). by intros h' [].
Qed.

Lemma connect_all_lines instances l (w w' : Wiring B) :
  connect_all instances l w = Ok w' -> heap_lines (wired w) (wired w').
Proof.
  revert w. induction l as [|c l IH]; intros w; cbn [connect_all]; [by intros [= <-]|].
  destruct (connect_one instances c w) as [w1|] eqn:E; [|done]. cbn [rbind]. intros Hc.
  transitivity (wired w1); [|by apply IH]. revert E. unfold connect_one.
  destruct (endpoint (source c)) as [ [? ?]|]; [|done]. cbn [rbind].
  destruct (endpoint (destination c)) as [ [? ?]|]; [|done]. cbn [rbind].
  destruct (platform_device _ _); [|done]. cbn [rbind]. destruct (platform_device _ _); [|done]. cbn [rbind].
  destruct (_ ≫= _); [|done]. destruct (input_source _ _ _); [done|].
  destruct (platform_output _ _ _ _); [|done]. intros [= <-]. apply set_source_lines.
Qed.

Lemma connect_lines instances spec h h' order :
  connect instances spec h = Ok (h', order) -> heap_lines h h'.
Proof.
  unfold connect. destruct (connect_all _ _ _) as [w|] eqn:E; [|done]. cbn [rbind].
  destruct (_ =? _)%nat; [|done]. intros [= <- _]. by apply connect_all_lines in E.
Qed.

Lemma platform_settle_lines p : heap_lines (heap_ p) (heap_ (platform_settle p)).
Proof. apply (foldl_lines settle_device), settle_lines. Qed.

Lemma platform_reset_lines p : heap_lines (heap_ p) (heap_ (platform_reset p)).
Proof.
  unfold platform_reset. etransitivity; [|apply platform_settle_lines].
  apply (foldl_lines reset_device), reset_lines.
Qed.

Lemma platform_step_lines p p' : platform_step p p' -> heap_lines (heap_ p) (heap_ p').
Proof.
  intros [r p0|r p0|d o data en p0|d o data st p0].
  - unfold begin_cycle. destruct (r && _); [|apply (reflexivity (R := heap_lines))]. apply (platform_reset_lines p0).
  - unfold PlatformInstance.end_cycle. destruct (negb r); [|apply (reflexivity (R := heap_lines))].
    etransitivity; [|apply platform_settle_lines]. apply (foldl_lines tick_device), tick_lines.
  - apply heap_read_lines.
  - apply heap_write_lines.
Qed.

Lemma platform_steps_lines p p' : rtc platform_step p p' -> heap_lines (heap_ p) (heap_ p').
Proof.
  induction 1 as [p|p1 p2 p3 Hs _ IH]; [apply (reflexivity (R := heap_lines))|].
  etransitivity; [by apply platform_step_lines | done].
Qed.

Lemma memory_only_lines h h' : memory_only h h' -> heap_lines h h'.
Proof.
  intros Hm. eapply Forall2_impl; [exact Hm|]. intros dev dev' [->|[H1 H2] ]; [apply (reflexivity (R := keeps_lines))|].
  apply no_output_lines; [by destruct dev | by destruct dev'].
Qed.

Lemma build_platform_wf registry spec bits host p host' :
  fresh_registry registry -> build_platform registry spec bits host = (Ok p, host') ->
  Forall device_wf (heap_ p).
Proof.
  intros Hf Hb. destruct (build_platform_parts _ _ _ _ _ _ Hb)
    as [_ (configs & h & inst & space & images & h' & order & Ec & Em & _ & _ & Eo & ->)].
  destruct (made_instances registry spec configs host h inst host' Hf Ec Em) as (_ & _ & Hfr).
  eapply heap_lines_wf; [apply platform_reset_lines|]. eapply heap_lines_wf; [by eapply connect_lines|].
  eapply Forall_impl; [exact Hfr | apply fr_wf].
Qed.
End Lines.

(** ** The clock cycle and the memories *)
Section Memories.
Context {B : Type} `{!UartBackend B}.
Implicit Types (h : Heap B) (p : Platform B) (d : DevicePtr).

Definition same_bytes h h' : Prop := forall d, heap_bytes h' d = heap_bytes h d.

#[export] Instance same_bytes_preorder : PreOrder same_bytes.
Proof. split; [done|]. intros h1 h2 h3 H1 H2 d. by rewrite H2. Qed.

Lemma heap_call_bytes method d h :
  (forall h dev, memory_bytes (method h dev) = memory_bytes dev) -> same_bytes h (heap_call method d h).
Proof.
  intros Hm d'. unfold heap_bytes. rewrite heap_call_lookup. destruct (decide _); [|done].
  destruct (h !! d') as [dev|]; [|done]. cbn. apply Hm.
Qed.

Lemma foldl_bytes method order h :
  (forall h dev, memory_bytes (method h dev) = memory_bytes dev) ->
  same_bytes h (foldl (fun h d => heap_call method d h) h order).
Proof.
  intros Hm. revert h. induction order as [|d order IH]; intros h; [done|]. cbn [foldl].
  transitivity (heap_call method d h); [by apply heap_call_bytes | apply IH].
Qed.

Lemma settle_bytes order h : same_bytes h (settle_all order h).
Proof. apply foldl_bytes. by intros ? []. Qed.

Lemma begin_cycle_bytes reset p : same_bytes (heap_ p) (heap_ (begin_cycle reset p)).
Proof.
  unfold begin_cycle. destruct (_ && _); [|done]. cbn.
  etransitivity; [|apply settle_bytes]. apply (foldl_bytes reset_device). by intros ? [].
Qed.

Lemma end_cycle_bytes reset p : same_bytes (heap_ p) (heap_ (PlatformInstance.end_cycle reset p)).
Proof.
  unfold PlatformInstance.end_cycle. destruct reset; [done|]. cbn.
  etransitivity; [|apply settle_bytes]. apply (foldl_bytes tick_device). by intros ? [].
Qed.

Lemma platform_reset_bytes p : same_bytes (heap_ p) (heap_ (platform_reset p)).
Proof.
  unfold platform_reset. cbn. etransitivity; [|apply settle_bytes].
  apply (foldl_bytes reset_device). by intros ? [].
Qed.
End Memories.
