(* ===== verification/PlatformDefault.v ===== *)
(** * The default platform

    [default_platform] describes ROM, RAM, UART and Exit device at the addresses
    of a memory map.  It builds exactly if the windows of the map are valid. *)
From S2P Require Import Prelude Text Axi Device Memory Uart Interrupts Heap Host Elf ElfPlan.
From S2P Require Import Platform PlatformInstance Topology PlatformTheorems PlatformCycles PlatformConfig ElfHeap PlatformLines.

(** ** Windows *)
Section Windows.
Context (instances : gmap string DevicePtr) (bits : Z).

(** The window of a specification; every device of it exists. *)
Definition window (m : MappingSpec) : Mapping := {|
  map_base := mapping_base m; map_size := mapping_size m;
  map_device := default (0%nat : DevicePtr) (instances !! mapping_device m); map_name := mapping_device m
|}.

Definition window_ok (m : MappingSpec) : Prop :=
  mapping_wf (window m) /\ (bits = 32 -> mapping_base m + mapping_size m <= 2 ^ 32).

(** Each window is valid and disjoint from those mapped before. *)
Fixpoint windows_ok (mapped : list Mapping) (specs : list MappingSpec) : Prop :=
  match specs with
  | [] => True
  | m :: rest => window_ok m /\ Forall (disjoint_windows (window m)) mapped /\
                 windows_ok (window m :: mapped) rest
  end.

Lemma windows_ok_perm l l' specs : l ≡ₚ l' -> windows_ok l specs -> windows_ok l' specs.
Proof.
  revert l l'. induction specs as [|m specs IH]; intros l l' Hl; [done|]. intros (H1 & H2 & H3).
  split; [done|]. split; [by rewrite <- Hl|]. eapply IH; [by apply perm_skip | done].
Qed.

Lemma map_windows_spec specs sp :
  space_wf sp -> frozen_ sp = false -> Forall mapping_fits specs ->
  Forall (fun m => is_Some (instances !! mapping_device m)) specs ->
  match map_windows instances bits specs sp with
  | Ok sp' => windows_ok (mappings_ sp) specs /\ mappings_ sp' ≡ₚ (window <$> specs) ++ mappings_ sp
  | Throw _ => ~ windows_ok (mappings_ sp) specs
  end.
Proof.
  intros Hsp Hfr Hf Hi. revert sp Hsp Hfr Hi. induction Hf as [|m specs [Hb Hs] _ IH];
    intros sp Hsp Hfr Hi; cbn [map_windows windows_ok]; [done|].
  apply Forall_cons in Hi as [ [d Hd] Hi].
  assert (platform_device instances (mapping_device m) = Ok d) as Ed by (unfold platform_device; by rewrite Hd).
  assert (map_device (window m) = d) as Hw by (unfold window, map_device; by rewrite Hd).
  destruct (negb _) eqn:Eb; cbn [rbind].
  2:{ intros ([ (? & ? & ?) Hbits] & _). cbn in *. apply negb_false_iff, andb_true_iff in Eb as [->%Z.eqb_eq Eb].
      apply orb_true_iff in Eb as [?%Z.leb_le|?%Z.ltb_lt]; specialize (Hbits eq_refl); lia. }
  rewrite Ed. cbn [rbind].
  pose proof (space_map_spec sp (mapping_base m) (mapping_size m) d (mapping_device m) Hsp Hb Hs) as Hm.
  replace {| map_base := mapping_base m |} with (window m) in Hm by (by rewrite <- Hw).
  cbv zeta in Hm. destruct (space_map _ _ _ _ _) as [sp1|]; cbn [rbind].
  2:{ intros ([? _] & ? & _). by apply Hm. }
  destruct Hm as ((_ & Hwf & Hdis) & Hsp1 & Hperm & Hfr1).
  specialize (IH sp1 Hsp1 ltac:(by rewrite Hfr1) Hi).
  destruct (map_windows instances bits specs sp1) as [sp'|].
  - destruct IH as [Hok Hp]. split.
    + split; [split; [done|]|].
      * intros ->. apply negb_true_iff in Eb. cbn in Eb. apply orb_false_iff in Eb as [?%Z.leb_gt ?%Z.ltb_ge]. lia.
      * split; [done|]. by eapply windows_ok_perm.
    + rewrite Hp, Hperm. cbn. by rewrite Permutation_middle.
  - intros (_ & _ & H). apply IH. by eapply windows_ok_perm; [symmetry|].
Qed.
End Windows.

(** ** The devices *)
Section Default.
Context `{!HostSystem} {B : Type} `{!UartBackend B, !UartStreams B}.

(** A registry with the built-in types. *)
Record has_builtin_types (registry : DeviceRegistry B) : Prop := {
  bi_rom : registry !! "rom" = Some rom_type;
  bi_ram : registry !! "ram" = Some ram_type;
  bi_uart : registry !! "uart" = Some uart_type;
  bi_exit : registry !! "exit" = Some exit_type
}.

Lemma builtin_types_registered registry registry' :
  register_builtin_devices registry = Ok registry' -> has_builtin_types registry'.
Proof.
  unfold register_builtin_devices.
  destruct (registry_add "rom" _ _) as [r1|] eqn:E1; [|done]. cbn [rbind].
  destruct (registry_add "ram" _ _) as [r2|] eqn:E2; [|done]. cbn [rbind].
  destruct (registry_add "uart" _ _) as [r3|] eqn:E3; [|done]. cbn [rbind]. intros E4.
  constructor.
  - refine (registry_add_keeps _ _ _ _ _ _ E4 _). refine (registry_add_keeps _ _ _ _ _ _ E3 _).
    refine (registry_add_keeps _ _ _ _ _ _ E2 _). exact (registry_add_lookup _ _ _ _ E1).
  - refine (registry_add_keeps _ _ _ _ _ _ E4 _). refine (registry_add_keeps _ _ _ _ _ _ E3 _).
    exact (registry_add_lookup _ _ _ _ E2).
  - refine (registry_add_keeps _ _ _ _ _ _ E4 _). exact (registry_add_lookup _ _ _ _ E3).
  - exact (registry_add_lookup _ _ _ _ E4).
Qed.

Lemma fuxi_keeps_builtin_types registry registry' :
  has_builtin_types registry -> fuxi_register_devices registry = Ok registry' -> has_builtin_types registry'.
Proof.
  unfold fuxi_register_devices. intros [].
  destruct (registry_add "riscv-clint" _ _) as [r1|] eqn:E1; [|done]. cbn [rbind]. intros E2.
  constructor; refine (registry_add_keeps _ _ _ _ _ _ E2 _); by refine (registry_add_keeps _ _ _ _ _ _ E1 _).
Qed.

Context (registry : DeviceRegistry B) (Htypes : has_builtin_types registry).

Definition memory_config (size : string) : Properties := <["image" := EmptyString]> {["size" := size]}.

Lemma configure_memory name type size :
  registry !! name = Some type -> type_options type = memory_options -> fits 64 size ->
  configure name {["size" := to_string size]} registry
    = if size =? 0 then invalid "option out of range: size" else Ok (memory_config (to_string size)).
Proof.
  intros Ht Ho Hs. unfold configure, registry_type. rewrite Ht. cbn [rbind]. rewrite Ho.
  pose proof (parse_unsigned_to_string size Hs) as Hp. revert Hp. generalize (to_string size) as text.
  intros text Hp.
  replace (sorted_keys {["size" := text]}) with ["size"] by by vm_compute.
  replace (check_keys name memory_options ["size"]) with (Ok tt) by by vm_compute. cbn [rbind].
  unfold memory_options. cbn [configure_options option_name].
  replace (({["size" := text]} : Properties) !! "size") with (Some text) by by vm_compute.
  change (default ?d (Some text)) with text. unfold check_value at 1. cbn [option_kind minimum maximum option_name]. rewrite Hp. cbn [rbind].
  destruct Hs as [H0 H1]. rewrite (proj2 (Z.ltb_ge UINT64_MAX size)) by (unfold UINT64_MAX; lia).
  destruct (Z.eqb_spec size 0) as [->|Hz]; [done|]. rewrite (proj2 (Z.ltb_ge size 1)) by lia. cbn [orb negb rbind].
  vm_cast_no_check (eq_refl (Ok (memory_config text))).
Qed.

Lemma configure_plain name type config :
  registry !! name = Some type -> configure_options ∅ (type_options type) ∅ = Ok config ->
  configure name ∅ registry = Ok config.
Proof.
  intros Ht Hc. unfold configure, registry_type. rewrite Ht. cbn [rbind].
  replace (sorted_keys ∅) with (@nil string) by by vm_compute. exact Hc.
Qed.

Definition uart_config : Properties :=
  <["input" := "-"]> (<["output" := "-"]> (<["character-cycles" := "16"]> {["input-poll-cycles" := "1024"]})).

Definition default_configs (m : DefaultMap) : gmap string Properties :=
  <["exit" := ∅]> (<["uart" := uart_config]>
    (<["ram" := memory_config (to_string (ram_size m))]> {["rom" := memory_config (to_string (rom_size m))]})).

Definition sizes_fit (m : DefaultMap) : Prop := Forall mapping_fits (mappings (default_platform m)).

Lemma sizes_fit_memories m : sizes_fit m -> fits 64 (rom_size m) /\ fits 64 (ram_size m).
Proof.
  unfold sizes_fit, default_platform. cbn. rewrite !Forall_cons. unfold mapping_fits. cbn. tauto.
Qed.

Lemma default_configs_made m :
  sizes_fit m ->
  match make_configs registry (devices (default_platform m)) ∅ with
  | Ok configs => rom_size m <> 0 /\ ram_size m <> 0 /\ configs = default_configs m
  | Throw e => rom_size m = 0 \/ ram_size m = 0
  end.
Proof.
  intros Hm. destruct (sizes_fit_memories m Hm) as [Hrom Hram].
  assert (configure "uart" ∅ registry = Ok uart_config) as Huart.
  { apply (configure_plain "uart" uart_type); [exact (bi_uart registry Htypes) | vm_cast_no_check (eq_refl (Ok uart_config))]. }
  assert (configure "exit" ∅ registry = Ok ∅) as Hexit.
  { apply (configure_plain "exit" exit_type); [exact (bi_exit registry Htypes) | reflexivity]. }
  unfold default_platform, default_configs. cbn [devices make_configs spec_id spec_type spec_properties].
  rewrite (configure_memory "rom" rom_type), (configure_memory "ram" ram_type) 
    by (done || exact (bi_rom registry Htypes) || exact (bi_ram registry Htypes)).
  rewrite Huart, Hexit.
  generalize (memory_config (to_string (rom_size m))) (memory_config (to_string (ram_size m))). intros c1 c2.
  assert (validate_name "rom" = Ok tt /\ validate_name "ram" = Ok tt /\ validate_name "uart" = Ok tt /\
          validate_name "exit" = Ok tt) as (-> & -> & -> & ->) by by vm_compute. cbn [rbind].
  destruct (Z.eqb_spec (rom_size m) 0) as [Hz1|Hz1]; [by left|]. cbn [rbind]. rewrite lookup_empty.
  destruct (Z.eqb_spec (ram_size m) 0) as [Hz2|Hz2]; cbn [rbind]; [by right|].
  split; [exact Hz1|]. split; [exact Hz2|].
  match goal with |- _ = ?configs => vm_cast_no_check (eq_refl configs) end.
Qed.

Definition default_instances : gmap string DevicePtr :=
  <["exit" := 3%nat]> (<["uart" := 2%nat]> (<["ram" := 1%nat]> {["rom" := 0%nat]})).

Definition zeroed (size : Z) : list Z := replicate (Z.to_nat size) 0.

Lemma memory_size size : fits 64 size -> config_number (memory_config (to_string size)) "size" = Ok size.
Proof.
  intros Hs. unfold config_number. pose proof (parse_unsigned_to_string size Hs) as Hp. revert Hp.
  generalize (to_string size) as text. intros text Hp.
  assert (config_text (memory_config text) "size" = Ok text) as -> by vm_cast_no_check (eq_refl (Ok text)).
  exact Hp.
Qed.

Lemma default_config_lookup m :
  config_of (default_configs m) "rom" = Ok (memory_config (to_string (rom_size m))) /\
  config_of (default_configs m) "ram" = Ok (memory_config (to_string (ram_size m))) /\
  config_of (default_configs m) "uart" = Ok uart_config /\ config_of (default_configs m) "exit" = Ok ∅.
Proof.
  unfold default_configs.
  generalize (memory_config (to_string (rom_size m))) (memory_config (to_string (ram_size m))). intros c1 c2.
  split_and!; match goal with |- _ = ?config => vm_cast_no_check (eq_refl config) end.
Qed.

(** The memory of the process suffices for the ROM and then the RAM: a vector
    for the one, a mapping or a vector for the other. *)
Definition rom_allocated (size : Z) (system system' : Os) : Prop :=
  allocate_vector size system = (None, system').
Definition ram_allocated (size : Z) (system system' : Os) : Prop :=
  map_anonymous size system = (true, system') \/
  exists unmapped, map_anonymous size system = (false, unmapped) /\ allocate_vector size unmapped = (None, system').
Definition memory_suffices (m : DefaultMap) (system : Os) : Prop :=
  exists system1 system2, rom_allocated (rom_size m) system system1 /\ ram_allocated (ram_size m) system1 system2.

Lemma make_rom configs d size host :
  spec_type d = "rom" -> config_of configs (spec_id d) = Ok (memory_config (to_string size)) ->
  fits 64 size -> size <> 0 ->
  match make_device registry configs d host with
  | (Ok dev, host') => dev = DevRom (zeroed size) /\ rom_allocated size (os host) (os host')
  | (Throw _, _) => forall system, ~ rom_allocated size (os host) system
  end.
Proof.
  intros Ht Hc Hs Hz. unfold make_device, registry_type. rewrite Ht, (bi_rom registry Htypes), Hc.
  unfold rom_type, bind, lift, ret. cbn [create]. rewrite (memory_size size Hs).
  unfold mk_rom, bind, vector_buffer, rom_allocated. cbn [allocate_vector host_memory].
  destruct (allocate_vector size (os host)) as [ [failure|] system]; [by intros system'|].
  rewrite (proj2 (Z.eqb_neq size 0)) by done. destruct Hs as [H0 _]. cbn [length].
  change (Z.of_nat 0) with 0. rewrite (proj2 (Z.ltb_ge size 0)) by done. done.
Qed.

Lemma make_ram configs d size host :
  spec_type d = "ram" -> config_of configs (spec_id d) = Ok (memory_config (to_string size)) ->
  fits 64 size -> size <> 0 ->
  match make_device registry configs d host with
  | (Ok dev, host') => dev = DevRam (zeroed size) /\ ram_allocated size (os host) (os host')
  | (Throw _, _) => forall system, ~ ram_allocated size (os host) system
  end.
Proof.
  intros Ht Hc Hs Hz. unfold make_device, registry_type. rewrite Ht, (bi_ram registry Htypes), Hc.
  unfold ram_type, bind, lift, ret. cbn [create]. rewrite (memory_size size Hs).
  unfold mk_ram, bind, anonymous_mapping, ram_allocated. rewrite (proj2 (Z.eqb_neq size 0)) by done.
  cbn [map_anonymous host_memory]. destruct (map_anonymous size (os host)) as [ [] system]; cbn [negb].
  - split; [done | by left].
  - unfold vector_buffer. cbn [allocate_vector host_memory os update].
    destruct (allocate_vector size system) as [ [failure|] system'] eqn:Ea.
    + intros system1 [Hf|(unmapped & [= <-] & Hf)]; [discriminate Hf | congruence].
    + split; [done|]. right. by exists system.
Qed.

Lemma make_uart configs d host :
  spec_type d = "uart" -> config_of configs (spec_id d) = Ok uart_config ->
  exists u host', make_device registry configs d host = (Ok (DevUart u), host').
Proof.
  intros Ht Hc. unfold make_device, registry_type. rewrite Ht, (bi_uart registry Htypes), Hc.
  unfold uart_type, bind, lift, ret. cbn [create].
  assert (config_text uart_config "input" = Ok "-" /\ config_text uart_config "output" = Ok "-" /\
          config_number uart_config "character-cycles" = Ok 16 /\
          config_number uart_config "input-poll-cycles" = Ok 1024) as (-> & -> & -> & ->).
  { split_and!; match goal with |- _ = ?v => vm_cast_no_check (eq_refl v) end. }
  unfold open_input, open_output, open. rewrite bool_decide_true by done.
  cbn. by eexists _, _.
Qed.

Lemma make_exit configs d host config :
  spec_type d = "exit" -> config_of configs (spec_id d) = Ok config ->
  make_device registry configs d host = (Ok (DevExit exit_init), host).
Proof.
  intros Ht Hc. unfold make_device, registry_type. by rewrite Ht, (bi_exit registry Htypes), Hc.
Qed.

Lemma default_devices_made m host :
  sizes_fit m -> rom_size m <> 0 -> ram_size m <> 0 ->
  match make_devices registry (default_configs m) (devices (default_platform m)) [] ∅ host with
  | (Ok (h, instances), _) =>
      memory_suffices m (os host) /\ instances = default_instances /\
      exists u, h = [DevRom (zeroed (rom_size m)); DevRam (zeroed (ram_size m)); DevUart u; DevExit exit_init]
  | (Throw _, _) => ~ memory_suffices m (os host)
  end.
Proof.
  intros Hm Hz1 Hz2. destruct (sizes_fit_memories m Hm) as [Hrom Hram].
  destruct (default_config_lookup m) as (C1 & C2 & C3 & C4).
  revert C1 C2 C3 C4. generalize (default_configs m) as configs. intros configs C1 C2 C3 C4.
  unfold default_platform. cbn [devices make_devices]. unfold bind.
  match goal with |- context [make_device registry configs ?d host] =>
    pose proof (make_rom configs d (rom_size m) host eq_refl C1 Hrom Hz1) as H1;
    destruct (make_device registry configs d host) as [ [dev1|e1] host1] end.
  2:{ intros (system1 & system2 & Ha & _). exact (H1 system1 Ha). }
  destruct H1 as [-> H1].
  match goal with |- context [make_device registry configs ?d host1] =>
    pose proof (make_ram configs d (ram_size m) host1 eq_refl C2 Hram Hz2) as H2;
    destruct (make_device registry configs d host1) as [ [dev2|e2] host2] end.
  2:{ intros (system1 & system2 & Ha & Hb). unfold rom_allocated in H1, Ha. rewrite H1 in Ha.
      injection Ha as <-. exact (H2 system2 Hb). }
  destruct H2 as [-> H2].
  match goal with |- context [make_device registry configs ?d host2] =>
    destruct (make_uart configs d host2 eq_refl C3) as (u & host3 & ->) end.
  match goal with |- context [make_device registry configs ?d host3] =>
    rewrite (make_exit configs d host3 ∅ eq_refl C4) end.
  unfold ret. split; [by exists (os host1), (os host2)|]. split; [reflexivity|]. by exists u.
Qed.

Lemma default_images m :
  collect_images registry (default_configs m) (mappings (default_platform m)) (devices (default_platform m))
    = Ok [].
Proof.
  destruct (default_config_lookup m) as (C1 & C2 & C3 & C4). revert C1 C2 C3 C4.
  generalize (default_configs m) as configs. intros configs C1 C2 _ _.
  assert (forall text, config_text (memory_config text) "image" = Ok EmptyString) as Hi
    by (intros text; vm_cast_no_check (eq_refl (@Ok string EmptyString))).
  unfold default_platform, collect_images, registry_type. cbn [devices mappings spec_id spec_type].
  rewrite (bi_rom registry Htypes), (bi_ram registry Htypes), (bi_uart registry Htypes), (bi_exit registry Htypes), C1, C2.
  unfold rom_type, ram_type, uart_type, exit_type. cbn [image_option rbind].
  assert (bool_decide ("image" = "") = false /\ bool_decide ("" = "") = true) as [-> Ht] by done.
  rewrite !Hi. cbn [rbind]. rewrite Ht. reflexivity.
Qed.

Lemma default_lookup :
  default_instances !! "rom" = Some (0%nat : DevicePtr) /\ default_instances !! "ram" = Some (1%nat : DevicePtr) /\
  default_instances !! "uart" = Some (2%nat : DevicePtr) /\ default_instances !! "exit" = Some (3%nat : DevicePtr).
Proof. split_and!; match goal with |- _ = ?v => vm_cast_no_check (eq_refl v) end. Qed.

Opaque default_instances.

Lemma default_connect m (h : Heap B) :
  instances_ok default_instances (spec_id <$> devices (default_platform m)) ->
  length h = 4%nat -> Forall fresh_device h ->
  exists order, connect default_instances (default_platform m) h = Ok (h, order) /\ order ≡ₚ seq 0 4.
Proof.
  intros Hi Hl Hf. pose proof (connect_spec default_instances (default_platform m) h Hi Hl Hf) as Hs.
  assert (forall h' order, connect default_instances (default_platform m) h = Ok (h', order) -> h' = h) as Hh.
  { intros h' order. unfold connect. cbn [connections default_platform connect_all rbind wired].
    destruct (_ =? _)%nat; [|done]. by intros [= <-]. }
  destruct (connect default_instances (default_platform m) h) as [ [h' order]|e] eqn:E.
  - destruct Hs as (_ & Hp & _). rewrite Hl in Hp. pose proof (Hh h' order eq_refl) as ->.
    exists order. split; [reflexivity | exact Hp].
  - destruct Hs as [_ []]. split; [exists []; by split; constructor|]. exists (fun _ => 0%nat). intros c s d Hc _.
    destruct (proj1 (elem_of_nil c) Hc).
Qed.

(** A map every window of which is valid: not empty, inside the address space of
    the bus and disjoint from the others. *)
Definition valid_map (bits : Z) (m : DefaultMap) : Prop :=
  windows_ok default_instances bits [] (mappings (default_platform m)).

(** The windows of the four devices, which are allocated in this order. *)
Definition default_windows (m : DefaultMap) : list Mapping := [
  {| map_base := rom_base m; map_size := rom_size m; map_device := 0; map_name := "rom" |};
  {| map_base := ram_base m; map_size := ram_size m; map_device := 1; map_name := "ram" |};
  {| map_base := uart_base m; map_size := uart_size m; map_device := 2; map_name := "uart" |};
  {| map_base := exit_base m; map_size := exit_size m; map_device := 3; map_name := "exit" |} ]%nat.

Lemma default_windows_eq m : window default_instances <$> mappings (default_platform m) = default_windows m.
Proof.
  destruct default_lookup as (H0 & H1 & H2 & H3).
  unfold default_platform, window. cbn [mappings fmap list_fmap mapping_device].
  by rewrite H0, H1, H2, H3.
Qed.

(** C22: the default platform builds exactly for valid maps.  In a registry with the
    built-in types, whose factories make fresh devices, [Platform]'s constructor
    accepts the default specification of a map if and only if its windows are
    valid and the process can allocate the ROM and then the RAM; it reads the
    sizes back from the text the specification has them in.  Each device then
    answers at its window, the memories are zero, and no image is to be loaded. *)
Theorem default_platform_builds_exactly_for_valid_maps bits m host :
  fresh_registry registry -> sizes_fit m ->
  match build_platform registry (default_platform m) bits host with
  | (Ok p, _) =>
      (bits = 32 \/ bits = 64) /\ valid_map bits m /\ memory_suffices m (os host) /\
      mappings_ (address_space_ p) ≡ₚ default_windows m /\ order_ p ≡ₚ [0; 1; 2; 3]%nat /\ images_ p = [] /\
      heap_bytes (heap_ p) 0%nat = zeroed (rom_size m) /\ heap_bytes (heap_ p) 1%nat = zeroed (ram_size m)
  | (Throw _, _) => bits <> 32 /\ bits <> 64 \/ ~ valid_map bits m \/ ~ memory_suffices m (os host)
  end.
Proof.
  intros Hfresh Hm. unfold build_platform.
  destruct ((bits =? 32) || (bits =? 64)) eqn:Eb; cbn [negb].
  2:{ left. apply orb_false_iff in Eb as [?%Z.eqb_neq ?%Z.eqb_neq]. done. }
  assert (bits = 32 \/ bits = 64) as Hbits by (apply orb_true_iff in Eb as [?%Z.eqb_eq|?%Z.eqb_eq]; auto).
  pose proof (default_configs_made m Hm) as Hc.
  destruct (make_configs registry (devices (default_platform m)) ∅) as [configs|e] eqn:Ec.
  2:{ right. left. intros ([ (_ & H1 & _) _] & _ & [ (_ & H2 & _) _] & _). cbn in H1, H2. lia. }
  destruct Hc as (Hz1 & Hz2 & ->). pose proof (default_devices_made m host Hm Hz1 Hz2) as Hd.
  unfold bind at 1, lift at 1. unfold bind at 1.
  destruct (make_devices registry (default_configs m) (devices (default_platform m)) [] ∅ host)
    as [ [ [h instances]|e] host'] eqn:Ed; [|by right; right].
  destruct Hd as (Hmem & Hinst & u & Hh).
  destruct (made_instances registry (default_platform m) (default_configs m) host _ _ host' Hfresh Ec Ed)
    as (Hi & Hl & Hfr). rewrite Hh in Hl, Hfr. rewrite Hinst in Hi.
  clear Ed. rewrite Hinst, Hh. clear Hinst Hh h instances.
  set (h := [DevRom _; _; _; _]) in *.
  destruct (default_connect m h Hi Hl Hfr) as (order & Eo & Hp).
  pose proof (map_windows_spec default_instances bits (mappings (default_platform m)) empty_space
    empty_space_wf eq_refl Hm) as Hw.
  assert (Forall (fun x => is_Some (default_instances !! mapping_device x)) (mappings (default_platform m))) as Hsome.
  { destruct default_lookup as (H0 & H1 & H2 & H3). unfold default_platform. cbn [mappings].
    repeat (apply Forall_cons; split; [cbn [mapping_device]; eauto|]). constructor. }
  specialize (Hw Hsome). rewrite default_windows_eq in Hw.
  unfold bind, lift. destruct (map_windows _ _ _ _) as [space|e]; [|by right; left].
  rewrite default_images, Eo. destruct Hw as [Hok Hperm]. unfold ret.
  split; [done|]. split; [exact Hok|]. split; [exact Hmem|].
  split; [cbn; rewrite Hperm; by rewrite app_nil_r|]. split; [exact Hp|]. split; [done|].
  split; apply (platform_reset_bytes (mk_platform h default_instances order (space_freeze space) [] false)).
Qed.
End Default.
