(* ===== verification/PlatformExamples.v ===== *)
(** * The Fuxi platform, built from its specification

    The host of HostExamples.v (where every stream is an empty byte queue) and
    the addresses of a RISC-V board stand for the parameters of the model.  The
    built-in and the Fuxi device types are registered, the default
    specification is built, and the platform theorems apply to the result. *)
From S2P Require Import Prelude Text Axi Device Memory Uart Interrupts Heap Host HostExamples Platform.
From S2P Require Import PlatformInstance PlatformTheorems PlatformCycles PlatformConfig PlatformDefault.

#[export] Instance queue_streams : UartStreams BufferUartBackend :=
  fun _ _ => {| input_ := []; output_ := [] |}.
Definition board_host : HostState := fresh_host demo_system.

#[export] Instance board_config : FuxiConfig := {
  FUXI_CLINT_BASE := 0x02000000; FUXI_CLINT_SIZE := 0x10000;
  FUXI_PLIC_BASE := 0x0c000000; FUXI_PLIC_SIZE := 0x4000000;
  FUXI_UART_IRQ := 10
}.

(** The value of a computation that returns, without evaluating it. *)
Definition is_ok {A} (r : result A) : bool := match r with Ok _ => true | Throw _ => false end.
Definition from_ok {A} (otherwise : A) (r : result A) : A :=
  match r with Ok a => a | Throw _ => otherwise end.
Lemma from_ok_spec {A} (otherwise : A) (r : result A) :
  is_ok r = true -> r = Ok (from_ok otherwise r).
Proof. by destruct r. Qed.

Lemma returns_spec {A} (r : result A) : is_ok r = true -> exists a, r = Ok a.
Proof. destruct r as [a|]; [by exists a | done]. Qed.

Lemma from_ok_pair {S A} (otherwise : A) (r : result A * S) :
  is_ok r.1 = true -> r = (Ok (from_ok otherwise r.1), r.2).
Proof. by destruct r as [[] ]. Qed.

Lemma returns_pair {S A} (r : result A * S) : is_ok r.1 = true -> exists a s, r = (Ok a, s).
Proof. destruct r as [[a|] s]; [by exists a, s | done]. Qed.

Lemma throws_spec {A} (r : result A) : is_ok r = false -> exists e, r = Throw e.
Proof. destruct r as [|e]; [done | by exists e]. Qed.

Definition BoardRegistry : Type := DeviceRegistry BufferUartBackend.

Definition empty_registry : BoardRegistry := ∅.

Definition board_types : result BoardRegistry :=
  try registry := register_builtin_devices empty_registry in fuxi_register_devices registry.

Definition board_registry : BoardRegistry := from_ok empty_registry board_types.

Lemma board_types_register : board_types = Ok board_registry.
Proof. apply from_ok_spec. by vm_compute. Qed.

Lemma board_has_plic : board_registry !! "riscv-plic" = Some plic_type.
Proof.
  pose proof board_types_register as H. unfold board_types in H.
  destruct (register_builtin_devices empty_registry) as [r|]; [|done]. cbn [rbind] in H.
  unfold fuxi_register_devices in H. destruct (registry_add "riscv-clint" clint_type r) as [r'|]; [|done].
  by eapply registry_add_lookup.
Qed.

Lemma board_registry_ok : fresh_registry board_registry /\ registry_ok board_registry.
Proof.
  apply (fuxi_registry_ok empty_registry); [by intros ? ? ? ? ? ? | done | apply board_types_register].
Qed.

Definition board_map : DefaultMap := {|
  rom_base := 0; rom_size := 64; ram_base := 0x80000000; ram_size := 64;
  uart_base := 0x10000000; uart_size := 0x100; exit_base := 0x10001000; exit_size := 4
|}.

Definition board_spec : PlatformSpec := from_ok (mk_platform_spec [] [] []) (fuxi_defaults board_map).

(** The UART's interrupt output drives source 10 of the PLIC. *)
Example board_wiring :
  connections board_spec = [ {| source := "uart.irq"; destination := "plic.source10" |} ].
Proof. by vm_compute. Qed.

(** The platform settles the UART (device 2) before the PLIC (device 5). *)
Example board_order :
  match (build_platform board_registry board_spec 32 board_host).1 with
  | Ok p => order_ p = [0;1;2;3;4;5]%nat /\ length (mappings_ (address_space_ p)) = 6%nat
  | Throw _ => False
  end.
Proof. by vm_compute. Qed.

Definition board_configs : gmap string Properties :=
  from_ok ∅ (make_configs board_registry (devices board_spec) ∅).

Definition board_devices : Heap BufferUartBackend * gmap string DevicePtr :=
  from_ok ([], ∅) (make_devices board_registry board_configs (devices board_spec) [] ∅ board_host).1.

(** What the computation leaves of the host. *)
Definition raw_host : HostState :=
  (make_devices board_registry board_configs (devices board_spec) [] ∅ board_host).2.

(** A specification whose PLIC is its own source. *)
Definition looped_spec : PlatformSpec :=
  board_spec <| connections ::= fun l =>
    l ++ [ {| source := "plic.context0"; destination := "plic.source1" |} ] |>.

(** One that drives a source of the PLIC twice. *)
Definition twice_spec : PlatformSpec :=
  board_spec <| connections ::= fun l =>
    l ++ [ {| source := "clint.mtip"; destination := "plic.source10" |} ] |>.

(** One that connects the 64 bits of the time to a source of the PLIC. *)
Definition wide_spec : PlatformSpec :=
  board_spec <| connections ::= fun l =>
    l ++ [ {| source := "clint.mtime"; destination := "plic.source1" |} ] |>.

Lemma connections_decide_the_settling_order_witness :
  (exists h' order, connect board_devices.2 board_spec board_devices.1 = Ok (h', order) /\
     connectable board_devices.2 board_devices.1 (connections board_spec) /\
     acyclic board_devices.2 (connections board_spec)) /\
  Forall (fun spec => exists e, connect board_devices.2 spec board_devices.1 = Throw e /\
     ~ (connectable board_devices.2 board_devices.1 (connections spec) /\
        acyclic board_devices.2 (connections spec))) [looped_spec; twice_spec; wide_spec].
Proof.
  assert (make_configs board_registry (devices board_spec) ∅ = Ok board_configs) as Hc
    by (apply from_ok_spec; by vm_compute).
  assert (make_devices board_registry board_configs (devices board_spec) [] ∅ board_host
          = (Ok (board_devices.1, board_devices.2), raw_host)) as Hd
    by (rewrite <- surjective_pairing; apply from_ok_pair; by vm_compute).
  assert (is_ok (connect board_devices.2 board_spec board_devices.1) = true) as Hb by by vm_compute.
  assert (forall l, let spec := board_spec <| connections := l |> in
      is_ok (connect board_devices.2 spec board_devices.1) = false ->
      exists e, connect board_devices.2 spec board_devices.1 = Throw e /\
        ~ (connectable board_devices.2 board_devices.1 (connections spec) /\
           acyclic board_devices.2 (connections spec))) as Hrejected.
  { intros l spec Hl. destruct (throws_spec _ Hl) as [e E]. exists e. split; [exact E|].
    pose proof (connections_decide_the_settling_order board_registry spec board_configs
      board_host board_devices.1 board_devices.2 raw_host (proj1 board_registry_ok) Hc Hd) as H.
    rewrite E in H. apply H. }
  split.
  - apply (from_ok_spec ([], [])) in Hb as E. destruct (from_ok _ _) as [h' order].
    exists h', order. split; [done|].
    pose proof (connections_decide_the_settling_order board_registry board_spec board_configs
      board_host board_devices.1 board_devices.2 raw_host (proj1 board_registry_ok) Hc Hd) as H.
    rewrite E in H. tauto.
  - repeat constructor; apply Hrejected; by vm_compute.
Defined.

Lemma interrupt_lines_settle_every_cycle_witness :
  exists p0 host, build_platform board_registry board_spec 32 board_host = (Ok p0, host) /\
    settled (heap_ (end_cycle false (begin_cycle true p0))).
Proof.
  destruct (returns_pair (build_platform board_registry board_spec 32 board_host)) as (p0 & host & E);
    [by vm_compute|].
  exists p0, host. split; [exact E|].
  destruct (interrupt_lines_settle_every_cycle board_registry board_spec 32 board_host p0 host
    (begin_cycle true p0) (proj1 board_registry_ok) E (rtc_once _ _ (step_begin true p0)))
    as (_ & [_ H] & _).
  exact H.
Defined.

(** A UART on a file, and a PLIC with too many sources. *)
Definition unbounded_spec : PlatformSpec := {|
  devices := [ {| spec_id := "uart"; spec_type := "uart"; spec_properties := {[ "output" := "uart.log" ]} |};
               {| spec_id := "plic"; spec_type := "riscv-plic"; spec_properties := {[ "sources" := "1024" ]} |} ];
  mappings := []; connections := []
|}.

Lemma configure_accepts_exactly_valid_properties_witness :
  acceptable (type_options plic_type (B := BufferUartBackend)) {[ "sources" := "63" ]} /\
  ~ acceptable (type_options plic_type (B := BufferUartBackend)) {[ "sources" := "1024" ]} /\
  exists e, build_platform board_registry unbounded_spec 32 board_host = (Throw e, board_host).
Proof.
  pose proof board_has_plic as Ht.
  assert (is_ok (configure "riscv-plic" {[ "sources" := "63" ]} board_registry) = true) as H1
    by by vm_compute.
  assert (is_ok (configure "riscv-plic" {[ "sources" := "1024" ]} board_registry) = false) as H2
    by by vm_compute.
  split.
  - pose proof (configure_accepts_exactly_valid_properties board_registry "riscv-plic" plic_type
      {[ "sources" := "63" ]} (proj2 board_registry_ok) Ht) as H.
    rewrite (from_ok_spec ∅ _ H1) in H. apply H.
  - destruct (throws_spec _ H2) as [e E].
    pose proof (configure_accepts_exactly_valid_properties board_registry "riscv-plic" plic_type
      {[ "sources" := "1024" ]} (proj2 board_registry_ok) Ht) as H.
    rewrite E in H. destruct H as (_ & Hn & Hb). split; [exact Hn|].
    destruct (Hb unbounded_spec "plic" 32 board_host) as (e' & _ & Hb'); [right; left|]. by exists e'.
Defined.

Lemma board_has_builtin_types : has_builtin_types board_registry.
Proof.
  pose proof board_types_register as H. unfold board_types in H.
  destruct (register_builtin_devices empty_registry) as [r|] eqn:E; [|done].
  cbn [rbind] in H. refine (fuxi_keeps_builtin_types r board_registry _ H).
  by eapply builtin_types_registered.
Qed.

Lemma board_sizes_fit : sizes_fit board_map.
Proof. repeat constructor; cbn; lia. Qed.

(** The map of the board is valid; with the Exit device inside the UART's window
    it is not. *)
Definition overlapping_map : DefaultMap := {|
  rom_base := 0; rom_size := 64; ram_base := 0x80000000; ram_size := 64;
  uart_base := 0x10000000; uart_size := 0x2000; exit_base := 0x10001000; exit_size := 4
|}.

(** A valid map with a ROM of 2 GiB, for which the host has no memory. *)
Definition huge_map : DefaultMap := {|
  rom_base := 0; rom_size := 0x80000000; ram_base := 0x90000000; ram_size := 64;
  uart_base := 0xa0000000; uart_size := 0x2000; exit_base := 0xb0000000; exit_size := 4
|}.

Lemma default_platform_builds_exactly_for_valid_maps_witness :
  (exists p host, build_platform board_registry (default_platform board_map) 32 board_host = (Ok p, host) /\
     mappings_ (address_space_ p) ≡ₚ default_windows board_map /\ memory_suffices board_map (os board_host)) /\
  (exists e host, build_platform board_registry (default_platform overlapping_map) 32 board_host = (Throw e, host) /\
     (~ valid_map 32 overlapping_map \/ ~ memory_suffices overlapping_map (os board_host))) /\
  (exists e host, build_platform board_registry (default_platform huge_map) 32 board_host = (Throw e, host) /\
     (~ valid_map 32 huge_map \/ ~ memory_suffices huge_map (os board_host))).
Proof.
  assert (forall m, sizes_fit m -> is_ok (build_platform board_registry (default_platform m) 32 board_host).1 = false ->
    exists e host, build_platform board_registry (default_platform m) 32 board_host = (Throw e, host) /\
      (~ valid_map 32 m \/ ~ memory_suffices m (os board_host))) as Hfails.
  { intros m Hm Hf. pose proof (default_platform_builds_exactly_for_valid_maps board_registry board_has_builtin_types
      32 m board_host (proj1 board_registry_ok) Hm) as H.
    destruct (build_platform board_registry (default_platform m) 32 board_host) as [ [p|e] host]; [discriminate Hf|].
    exists e, host. split; [reflexivity|]. destruct H as [ [Hn _]|H]; [exfalso; exact (Hn eq_refl) | exact H]. }
  split; [|split].
  - destruct (returns_pair (build_platform board_registry (default_platform board_map) 32 board_host))
      as (p & host & E); [by vm_compute|].
    exists p, host. split; [exact E|].
    pose proof (default_platform_builds_exactly_for_valid_maps board_registry board_has_builtin_types 32 board_map
      board_host (proj1 board_registry_ok) board_sizes_fit) as H.
    rewrite E in H. destruct H as (_ & _ & Hmem & Hw & _). split; [exact Hw | exact Hmem].
  - apply Hfails; [repeat constructor; cbn; lia | by vm_compute].
  - apply Hfails; [repeat constructor; cbn; lia | by vm_compute].
Defined.
