(* ===== verification/CommandLine.v ===== *)
(** * The command line (src/sim_main.cpp)

    Options, their parsing, and the help text. *)
From Stdlib Require Import Ascii SpecFloat.
From S2P Require Import Prelude Text Console Memory Fabric Platform.

(** What the C library and the file system provide: [strtod] of a whole text
    ([None] for no number, trailing text or ERANGE), and a binary input stream
    opened at its end: the position [tellg] gives, and the bytes of a [read]
    from the beginning ([None] if it fails).  [file_buffer] is how the vector for
    a file of a size fails, if it does. *)
Class HostLibrary := {
  strtod : string -> option double;
  open_binary : string -> option (Z * (Z -> option (list Z)));
  file_buffer : Z -> option AllocationFailure
}.

(** ** Options *)
Record Options := mk_options {
  elves : list string;
  raw_images : list string;
  trace : option string;
  max_cycles : Z;
  reset_cycles : Z;
  seed : Z;
  stall_probability : double;
  stats : bool;
  help : bool
}.
#[export] Instance Options_eta : Eta Options := fun o =>
  mk_options (elves o) (raw_images o) (trace o) (max_cycles o) (reset_cycles o) (seed o)
    (stall_probability o) (stats o) (help o).

Definition default_options : Options := {|
  elves := []; raw_images := []; trace := None; max_cycles := 10000000; reset_cycles := 5;
  seed := 1; stall_probability := double_zero; stats := false; help := false
|}.

(** [std::strtoull(text, &end, 0)]: white space, a sign, a prefix that selects
    the base, digits.  [None] if nothing is converted or the value is out of
    range. *)
Definition is_space (c : ascii) : bool :=
  let n := nat_of_ascii c in ((9 <=? n) && (n <=? 13) || (n =? 32))%nat.

Fixpoint skip_spaces (s : string) : string :=
  match s with
  | String c rest => if is_space c then skip_spaces rest else s
  | EmptyString => s
  end.

Definition hex_prefix (s : string) : option string :=
  match s with
  | String "0" (String x (String d rest)) =>
      if (bool_decide (x = "x"%char) || bool_decide (x = "X"%char)) &&
         bool_decide (is_Some (digit_value 16 d))
      then Some (String d rest) else None
  | _ => None
  end.

Definition strtoull (text : string) : option (Z * string) :=
  let text := skip_spaces text in
  let '(negative, text) :=
    match text with
    | String "-" rest => (true, rest)
    | String "+" rest => (false, rest)
    | _ => (false, text)
    end in
  let '(base, digits) :=
    match hex_prefix text with
    | Some rest => (16, rest)
    | None => match text with String "0" _ => (8, text) | _ => (10, text) end
    end in
  let '(v, count, rest) := scan_digits base digits 0 0 in
  if (count =? 0)%nat || negb (v <? 2 ^ 64) then None
  else Some (if (negative : bool) then u64 (- v) else v, rest).

(** [parse_unsigned] of sim_main.cpp (not the one of platform.cpp). *)
Definition parse_unsigned (text option : string) : result Z :=
  match text with
  | EmptyString | String "-" _ => Throw (InvalidArgument (option +:+ " expects an unsigned integer"))
  | _ =>
      match strtoull text with
      | Some (value, EmptyString) => Ok value
      | _ => Throw (InvalidArgument ("invalid value for " +:+ option +:+ ": " +:+ text))
      end
  end.

Section Options.
Context `{!HostLibrary}.

Definition parse_probability (text option : string) : result double :=
  match strtod text with
  | Some value =>
      guard negb (SFltb value double_zero || SFltb double_one value)
        else InvalidArgument ("invalid value for " +:+ option +:+ ": " +:+ text) in
      Ok value
  | None => Throw (InvalidArgument ("invalid value for " +:+ option +:+ ": " +:+ text))
  end.

(** The options that take an argument. *)
Definition takes_argument (name : string) : bool :=
  bool_decide (name ∈ ["--elf"; "--rom-image"; "--ram-image"; "--uart-in"; "--uart-out"; "--set";
                       "--load"; "--trace"; "--max-cycles"; "--reset-cycles"; "--seed";
                       "--stall-probability"]).

Definition set_spec (assignment : string) (options : Options) (spec : PlatformSpec)
  : result (Options * PlatformSpec) :=
  try spec := spec_set assignment spec in Ok (options, spec).

Definition apply_argument (name argument : string) (options : Options) (spec : PlatformSpec)
  : result (Options * PlatformSpec) :=
  let named text := bool_decide (name = text) in
  if named "--elf" then Ok (options <| elves ::= fun l => l ++ [argument] |>, spec)
  else if named "--rom-image" then set_spec ("rom.image=" +:+ argument) options spec
  else if named "--ram-image" then set_spec ("ram.image=" +:+ argument) options spec
  else if named "--uart-in" then set_spec ("uart.input=" +:+ argument) options spec
  else if named "--uart-out" then set_spec ("uart.output=" +:+ argument) options spec
  else if named "--set" then set_spec argument options spec
  else if named "--load" then Ok (options <| raw_images ::= fun l => l ++ [argument] |>, spec)
  else if named "--trace" then Ok (options <| trace := Some argument |>, spec)
  else if named "--max-cycles" then
    try n := parse_unsigned argument name in Ok (options <| max_cycles := n |>, spec)
  else if named "--reset-cycles" then
    try n := parse_unsigned argument name in Ok (options <| reset_cycles := n |>, spec)
  else if named "--seed" then
    try n := parse_unsigned argument name in Ok (options <| seed := n |>, spec)
  else
    try p := parse_probability argument name in Ok (options <| stall_probability := p |>, spec).

Definition apply_flag (name : string) (options : Options) : result Options :=
  if bool_decide (name = "--help") || bool_decide (name = "-h") then Ok (options <| help := true |>)
  else if bool_decide (name = "--stats") then Ok (options <| stats := true |>)
  else match name with
       | String "+" _ => Ok options
       | _ => Throw (InvalidArgument ("unknown option: " +:+ name))
       end.

Fixpoint parse_arguments (args : list string) (options : Options) (spec : PlatformSpec)
  : result (Options * PlatformSpec) :=
  match args with
  | [] => Ok (options, spec)
  | name :: rest =>
      if takes_argument name then
        match rest with
        | [] => Throw (InvalidArgument (name +:+ " requires an argument"))
        | argument :: rest =>
            try (options, spec) := apply_argument name argument options spec in
            parse_arguments rest options spec
        end
      else
        try options := apply_flag name options in
        parse_arguments rest options spec
  end.

(** [args] are [argv[1]] to [argv[argc - 1]]. *)
Definition parse_options (trace_enabled : bool) (args : list string) (spec : PlatformSpec)
  : result (Options * PlatformSpec) :=
  try (options, spec) := parse_arguments args default_options spec in
  guard negb (max_cycles options =? 0)
    else InvalidArgument "--max-cycles must be greater than zero" in
  guard trace_enabled || negb (bool_decide (is_Some (trace options)))
    else InvalidArgument "--trace requires tracing to be enabled when configuring the target" in
  Ok (options, spec).
End Options.

Definition lines (l : list string) : string := concatenate (map (fun s => s +:+ newline) l).

Definition help_text (program : string) : string :=
  lines [
    "Usage: " +:+ program +:+ " [options]";
    "";
    "Images:";
    "  --elf FILE             Load ELF32/ELF64 PT_LOADs (repeatable)";
    "  --load TARGET=FILE     Load raw bytes at an address or mapped instance";
    "  --set ID.OPTION=VALUE  Override a registered device property";
    "  --rom-image FILE       Load a raw image at the ROM base";
    "  --ram-image FILE       Load a raw image at the RAM base";
    "";
    "Simulation:";
    "  --max-cycles N         Active cycles before timeout (default 10000000)";
    "  --reset-cycles N       Reset rising edges (default 5)";
    "  --seed N               Random-stall seed (default 1)";
    "  --stall-probability P  AW/W/AR READY stall probability [0,1]";
    "  --stats                Print full-run per-port AXI read traffic";
    "  --trace FILE           Write the build-selected VCD or FST trace";
    "  +NAME[=VALUE]          Pass a plusarg through to the RTL model";
    "";
    "UART:";
    "  --uart-in FILE|-       Input bytes (default stdin)";
    "  --uart-out FILE|-      Output bytes (default stdout)" ].
