(* ===== verification/ImageFiles.v ===== *)
(** * Image files (load_images of src/sim_main.cpp, read_file of src/elf_loader.cpp)

    The images of the platform, of --load and of --elf, planned in this order
    and loaded at once; every ELF file is reported. *)
From Stdlib Require Import Ascii.
From S2P Require Import Prelude Text Console Axi Device Memory Fabric Elf Platform PlatformInstance CommandLine.

Section Images.
Context {H : Type} `{!DeviceHeap H, !HostLibrary} (space : AddressSpace).
Implicit Types (h : H).

(** [read_file] of elf_loader.cpp; [std::streamsize] is a 64-bit signed type. *)
Definition read_file (path : string) : result (list Z) :=
  match open_binary path with
  | None => Throw (ElfError ("cannot open image: " +:+ path))
  | Some (end_, read) =>
      guard negb ((end_ <? 0) || (UINT64_MAX <? end_) || (2 ^ 63 - 1 <? end_))
        else ElfError ("image is too large: " +:+ path) in
      match file_buffer end_ with
      | Some failure => Throw (allocation_exn failure)
      | None =>
          if end_ =? 0 then Ok []
          else match read end_ with
               | Some bytes => Ok bytes
               | None => Throw (ElfError ("cannot read image: " +:+ path))
               end
      end
  end.

(** [ImageLoadPlan::add_raw] and [add_elf] of a path. *)
Definition add_raw_file (path : string) (address : Z) h : M (list Chunk) unit :=
  do bytes := lift (read_file path) in add_raw space bytes address h.
Definition add_elf_file (path : string) h : M (list Chunk) ElfLoadResult :=
  do bytes := lift (read_file path) in add_elf space bytes h.

(** [load_elf] and [load_raw_image] of a path. *)
Definition load_elf_file (path : string) : M H ElfLoadResult :=
  do bytes := lift (read_file path) in load_elf space bytes.
Definition load_raw_file (path : string) (address : Z) : M H unit :=
  do bytes := lift (read_file path) in load_raw_image space bytes address.

(** The window a [--load] request names, if it names one. *)
Fixpoint named_window (target : string) (windows : list Mapping) (address : option Z)
  : result (option Z) :=
  match windows with
  | [] => Ok address
  | m :: rest =>
      if bool_decide (map_name m = target) then
        match address with
        | Some _ => Throw (InvalidArgument ("ambiguous load target: " +:+ target))
        | None => named_window target rest (Some (map_base m))
        end
      else named_window target rest address
  end.

Definition load_target (target : string) : result Z :=
  try named := named_window target (mappings_ space) None in
  match named with
  | Some address => Ok address
  | None => Text.parse_unsigned target
  end.

(** Steps that change the plan, and text for [std::cerr]. *)
Definition on_plan {A} (op : M (list Chunk) A) : M (list Chunk * Console) A :=
  fun '(chunks, out) => let '(r, chunks) := op chunks in (r, (chunks, out)).

Definition add_request h (request : string) : M (list Chunk * Console) unit :=
  match split_at "="%char request with
  | None => throw (InvalidArgument "--load expects ADDRESS|INSTANCE=FILE")
  | Some (target, path) =>
      do address := lift (load_target target) in on_plan (add_raw_file path address h)
  end.

Definition elf_report (path : string) (loaded : ElfLoadResult) : string :=
  "[axi-tb] ELF " +:+ quoted path +:+ ": " +:+
  to_string (Z.of_nat (length (result_segments loaded))) +:+ " segment(s), entry=0x" +:+
  to_hex (result_entry loaded) +:+ newline.

Definition add_elf_option h (path : string) : M (list Chunk * Console) unit :=
  do loaded := on_plan (add_elf_file path h) in
  modify (fun '(chunks, out) => (chunks, print_err (elf_report path loaded) out)).

Definition plan_images (options : Options) (images : list RawImage) h
  : M (list Chunk * Console) unit :=
  for_each images (fun image => on_plan (add_raw_file (image_path image) (image_address image) h)) ;;;
  for_each (raw_images options) (add_request h) ;;;
  for_each (elves options) (add_elf_option h).

Definition load_images (options : Options) (images : list RawImage) : M (H * Console) unit :=
  fun '(h, out) =>
    match plan_images options images h ([], out) with
    | (Ok _, (chunks, out)) => let '(r, h) := apply space chunks h in (r, (h, out))
    | (Throw e, (_, out)) => (Throw e, (h, out))
    end.
End Images.
