(* ===== verification/ImageTheorems.v ===== *)
(** * Images: what is to be loaded

    [image_byte] says which byte the images of a run put at an address: those of
    the platform, of --load and of --elf.  The plan [load_images] makes of them
    covers every such byte. *)
From Stdlib Require Import Ascii.
From S2P Require Import Prelude Text Console Axi Device Fabric Elf ElfPlan ElfParse.
From S2P Require Import Platform PlatformInstance CommandLine ImageFiles.

(** Results of a loop that adds to a list, beside other state. *)
Lemma for_each_adds {A T S} (l : list A) (body : A -> M (list T * S) unit)
    (provides : A -> list T -> Prop) (good : T -> Prop) s s' :
  (forall x new new', provides x new -> provides x (new' ++ new) /\ provides x (new ++ new')) ->
  (forall x s s', x ∈ l -> body x s = (Ok tt, s') ->
     exists new, s'.1 = s.1 ++ new /\ Forall good new /\ provides x new) ->
  for_each l body s = (Ok tt, s') ->
  exists new, s'.1 = s.1 ++ new /\ Forall good new /\ forall x, x ∈ l -> provides x new.
Proof.
  intros Hmono. revert s. induction l as [|x l IH]; intros s Hb Hs.
  { injection Hs as <-. exists []. split_and!; [by rewrite app_nil_r | constructor | by intros x ?%elem_of_nil]. }
  cbn [for_each] in Hs. returned Hs as [] s1 E.
  destruct (Hb x s s1 ltac:(by left) E) as (new1 & E1 & Hg1 & Hp1).
  destruct (IH s1 ltac:(intros; apply Hb; [by right | done]) Hs) as (new2 & E2 & Hg2 & Hp2).
  exists (new1 ++ new2). split_and!; [by rewrite E2, E1, app_assoc | by apply Forall_app_2|].
  intros y [->|Hy]%elem_of_cons; [by apply (Hmono x new1 new2) | by apply (Hmono y new2 new1), Hp2].
Qed.

(** A [read] that succeeds has read as many characters as it was asked for. *)
Class LibraryLaws `{!HostLibrary} : Prop :=
  read_length path end_ read n bytes :
    open_binary path = Some (end_, read) -> read n = Some bytes -> Z.of_nat (length bytes) = n.

Section Images.
Context {H : Type} `{!DeviceHeap H, !LoadableLaws H, !HostLibrary, !LibraryLaws} (space : AddressSpace).
Context (Hspace : space_wf space).
Implicit Types (h : H) (image : list Z).

(** The byte [b] of a raw image at [base] lies at [x]. *)
Definition raw_byte image (base x b : Z) : Prop :=
  exists j, image !! j = Some b /\ x = base + Z.of_nat j.

(** A loadable segment of an ELF image puts [b] at [x]: a byte of the file, or
    the zero of its BSS. *)
Definition elf_byte h image (x b : Z) : Prop :=
  exists header segments s j,
    parse_header image = Ok header /\ parse_load_segments space image h header = Ok segments /\
    s ∈ segments /\ Z.of_nat j < memory_size (public_segment s) /\
    x = load_address (public_segment s) + Z.of_nat j /\
    b = if Z.of_nat j <? file_size (public_segment s)
        then image !!! (Z.to_nat (file_offset s) + j)%nat else 0.

Inductive image_byte h (options : Options) (images : list RawImage) (x b : Z) : Prop :=
| platform_byte i image :
    i ∈ images -> read_file (image_path i) = Ok image -> raw_byte image (image_address i) x b ->
    image_byte h options images x b
| load_byte request target path address image :
    request ∈ raw_images options -> split_at "="%char request = Some (target, path) ->
    load_target space target = Ok address -> read_file path = Ok image ->
    raw_byte image address x b -> image_byte h options images x b
| elf_option_byte path image :
    path ∈ elves options -> read_file path = Ok image -> elf_byte h image x b ->
    image_byte h options images x b.

(** A chunk that holds [b] for [x]. *)
Definition chunk_byte (x b : Z) (c : Chunk) : Prop :=
  exists j, (j < length (chunk_bytes c))%nat /\ x = load_address (chunk_segment c) + Z.of_nat j /\
    chunk_bytes c !!! j = b.

Definition provides (what : Z -> Z -> Prop) (chunks : list Chunk) : Prop :=
  forall x b, what x b -> Exists (chunk_byte x b) chunks.

Lemma provides_mono what chunks chunks' :
  provides what chunks -> provides what (chunks' ++ chunks) /\ provides what (chunks ++ chunks').
Proof. intros Hp. split; intros x b Hx; apply Exists_app; auto. Qed.

Lemma read_file_fits path image : read_file path = Ok image -> fits 64 (Z.of_nat (length image)).
Proof.
  unfold read_file. destruct (open_binary path) as [[end_ read]|] eqn:Eo; [|done].
  destruct ((end_ <? 0) || (UINT64_MAX <? end_) || (2 ^ 63 - 1 <? end_)) eqn:Eb; [done|]. cbn [negb].
  apply orb_false_iff in Eb as [[? ?]%orb_false_iff ?%Z.ltb_ge]. apply Z.ltb_ge in H2.
  destruct (file_buffer end_); [done|]. destruct (end_ =? 0); [by intros [= <-]|]. destruct (read end_) as [bytes|] eqn:Er; [|done].
  intros [= <-]. rewrite (read_length path end_ read end_ bytes Eo Er). unfold fits. lia.
Qed.

Lemma add_raw_provides image address h chunks chunks' :
  fits 64 address -> add_raw space image address h chunks = (Ok tt, chunks') ->
  exists new, chunks' = chunks ++ new /\ Forall chunk_wf new /\ provides (raw_byte image address) new.
Proof.
  intros Ha. unfold add_raw. destruct (Nat.eqb_spec (length image) 0) as [Hz|Hz].
  { intros [= <-]. exists []. rewrite app_nil_r. split_and!; [done | constructor|].
    intros x b (j & Hj & _). apply lookup_lt_Some in Hj. lia. }
  intros Hr. lifted Hr as sum Es. lifted Hr as [] Ev. injection Hr as <-.
  eexists. split; [done|]. unfold checked_add in Es.
  destruct (UINT64_MAX - address <? Z.of_nat (length image)) eqn:Eb; [done|]. apply Z.ltb_ge in Eb.
  unfold UINT64_MAX, fits in *. split.
  - repeat constructor; cbn; unfold fits; lia.
  - intros x b (j & Hj & ->). apply Exists_cons_hd. exists j. unfold chunk_bytes. cbn.
    rewrite Z.sub_diag. cbn. rewrite app_nil_r. apply lookup_lt_Some in Hj as Hlt. split_and!; [done..|].
    by apply list_lookup_total_correct.
Qed.
Lemma add_elf_provides image h chunks res chunks' :
  fits 64 (Z.of_nat (length image)) -> add_elf space image h chunks = (Ok res, chunks') ->
  exists new, chunks' = chunks ++ new /\ Forall chunk_wf new /\ provides (elf_byte h image) new.
Proof.
  intros Hi Ha. unfold add_elf in Ha. lifted Ha as hd Eh. lifted Ha as ps Es. lifted Ha as [] Ev.
  injection Ha as <- <-. exists (map (chunk_of image) ps). split; [done|].
  pose proof (parse_header_spec image) as Hh. rewrite Eh in Hh.
  pose proof (parse_load_segments_spec space Hspace image h hd Hh Hi) as Hs. rewrite Es in Hs. cbn in Hs.
  split.
  - apply Forall_fmap. eapply Forall_impl; [exact Hs|]. intros p Hp. by eapply parsed_chunk_wf.
  - intros x b (hd' & ps' & p & j & Eh' & Es' & Hp & Hj & -> & ->). rewrite Eh in Eh'. injection Eh' as <-.
    rewrite Es in Es'. injection Es' as <-. apply Exists_exists. exists (chunk_of image p).
    split; [by apply list_elem_of_fmap_2|]. rewrite Forall_forall in Hs. specialize (Hs p Hp).
    pose proof (parsed_chunk_wf space image h p Hs) as Hw. pose proof (chunk_bytes_length _ Hw) as Hl.
    destruct Hs as ((_ & Hm & Hf) & _ & Ho & Hsz & _). unfold image_size in Hsz.
    exists j. change (chunk_segment (chunk_of image p)) with (public_segment p) in Hl.
    split_and!; [lia | done|]. unfold chunk_bytes. cbn.
    set (data := take _ _).
    assert (length data = Z.to_nat (file_size (public_segment p))) as Hd
      by (unfold data; rewrite length_take, length_drop; lia).
    destruct (Z.ltb_spec (Z.of_nat j) (file_size (public_segment p))) as [Hlt|Hge].
    + rewrite lookup_total_app_l by lia. unfold data. rewrite !list_lookup_total_alt.
      by rewrite lookup_take_lt, lookup_drop by lia.
    + rewrite lookup_total_app_r by lia. apply lookup_total_replicate_2. lia.
Qed.

(** ** The whole plan *)
Definition fits_images (images : list RawImage) : Prop := Forall (fun i => fits 64 (image_address i)) images.

Lemma named_window_fits target windows address a :
  Forall (fun m => fits 64 (map_base m)) windows -> (forall a, address = Some a -> fits 64 a) ->
  named_window target windows address = Ok (Some a) -> fits 64 a.
Proof.
  intros Hw. revert address. induction Hw as [|m windows Hm _ IH]; intros address Ha; cbn [named_window].
  { intros [= ->]. by apply Ha. }
  case_bool_decide; [|by apply IH]. destruct address; [done|]. apply IH. by intros ? [= <-].
Qed.

Lemma load_target_fits target address : load_target space target = Ok address -> fits 64 address.
Proof.
  unfold load_target. destruct (named_window target (mappings_ space) None) as [[a|]|] eqn:E; [| |done]; cbn.
  - intros [= <-]. refine (named_window_fits target (mappings_ space) None a _ _ E); [|by intros ? [=] ].
    apply Forall_forall. intros m Hm. destruct (mapping_in_wf space Hspace m Hm) as (? & ? & ?). unfold fits, UINT64_MAX in *. lia.
  - apply parse_unsigned_fits.
Qed.

Lemma on_plan_ok {A} (op : M (list Chunk) A) chunks out a s' :
  on_plan op (chunks, out) = (Ok a, s') -> exists chunks', op chunks = (Ok a, chunks') /\ s' = (chunks', out).
Proof. unfold on_plan. destruct (op chunks) as [r chunks']. intros [= -> <-]. by exists chunks'. Qed.

Lemma planned_images h options images out chunks out' :
  fits_images images -> plan_images space options images h ([], out) = (Ok tt, (chunks, out')) ->
  Forall chunk_wf chunks /\ provides (image_byte h options images) chunks.
Proof.
  intros Hfit Hp. unfold plan_images in Hp. returned Hp as [] s1 E1. returned Hp as [] s2 E2.
  eapply (for_each_adds _ _ (fun i => provides (fun x b => exists image,
    read_file (image_path i) = Ok image /\ raw_byte image (image_address i) x b)) chunk_wf) in E1
    as (new1 & F1 & W1 & P1); [|intros; by apply provides_mono|].
  2:{ intros i [c o] s' Hi Hb. apply on_plan_ok in Hb as (c' & Hb & ->). lifted Hb as image Er.
      unfold fits_images in Hfit. rewrite Forall_forall in Hfit.
      destruct (add_raw_provides image (image_address i) h c c' (Hfit i Hi) Hb) as (new & -> & Hw & Hpr).
      exists new. split_and!; [done..|]. intros x b (image' & Er' & Hx). rewrite Er in Er'.
      injection Er' as <-. by apply Hpr. }
  eapply (for_each_adds _ _ (fun request => provides (fun x b => exists target path address image,
    split_at "="%char request = Some (target, path) /\ load_target space target = Ok address /\
    read_file path = Ok image /\ raw_byte image address x b)) chunk_wf) in E2
    as (new2 & F2 & W2 & P2); [|intros; by apply provides_mono|].
  2:{ intros request [c o] s' Hi Hb. unfold add_request in Hb.
      destruct (split_at "="%char request) as [[target path]|] eqn:Esp; [|done].
      lifted Hb as address Et. apply on_plan_ok in Hb as (c' & Hb & ->). lifted Hb as image Er.
      destruct (add_raw_provides image address h c c' (load_target_fits _ _ Et) Hb) as (new & -> & Hw & Hpr).
      exists new. split_and!; [done..|]. intros x b (? & ? & ? & ? & [= <- <-] & Et' & Er' & Hx).
      rewrite Et in Et'. injection Et' as <-. rewrite Er in Er'. injection Er' as <-. by apply Hpr. }
  eapply (for_each_adds _ _ (fun path => provides (fun x b => exists image,
    read_file path = Ok image /\ elf_byte h image x b)) chunk_wf) in Hp
    as (new3 & F3 & W3 & P3); [|intros; by apply provides_mono|].
  2:{ intros path [c o] s' Hi Hb. unfold add_elf_option in Hb. returned Hb as res s3 E.
      apply on_plan_ok in E as (c' & E & ->). injection Hb as <-. lifted E as image Er.
      destruct (add_elf_provides image h c res c' (read_file_fits _ _ Er) E) as (new & -> & Hw & Hpr).
      exists new. split_and!; [done..|]. intros x b (image' & Er' & Hx). rewrite Er in Er'.
      injection Er' as <-. by apply Hpr. }
  cbn [fst] in *. rewrite F2, F1 in F3. cbn in F3. subst chunks.
  split; [by repeat apply Forall_app_2|]. intros x b Hb. apply Exists_app. destruct Hb.
  - left. apply Exists_app. left. eapply P1; eauto.
  - left. apply Exists_app. right. eapply P2; eauto 10.
  - right. eapply P3; eauto.
Qed.
End Images.
