(* ===== verification/Statistics.v ===== *)
(** * Read statistics (class [ReadStatistics] of src/sim_main.cpp) *)
From S2P Require Import Prelude Text Console Axi Device Fabric.

Record PortStatistics := { requests : Z; bytes_requested : Z; beats_received : Z }.
#[export] Instance PortStatistics_inhabited : Inhabited PortStatistics :=
  populate {| requests := 0; bytes_requested := 0; beats_received := 0 |}.

Definition sample_statistics_port (master : MasterSignals) (slave : SlaveSignals)
    (s : PortStatistics) : PortStatistics :=
  let accepted := m_ar_valid master && s_ar_ready slave in
  {| requests := if accepted then u64 (requests s + 1) else requests s;
     bytes_requested :=
       if accepted
       then u64 (bytes_requested s + u64 (Z.shiftl (ap_length (m_ar master) + 1) (ap_size (m_ar master))))
       else bytes_requested s;
     beats_received :=
       if m_r_ready master && s_r_valid slave then u64 (beats_received s + 1) else beats_received s |}.

Definition sample_statistics `{!FabricConfig} (enabled : bool) (masters : list MasterSignals)
    (slaves : list SlaveSignals) (reset : bool) (ports : list PortStatistics) : list PortStatistics :=
  if negb enabled || reset then ports
  else imap (fun port => sample_statistics_port (masters !!! port) (slaves !!! port)) ports.

(** [ReadStatistics::print] *)
Definition port_line (port : nat) (s : PortStatistics) : string :=
  "AXI_STATS port=" +:+ to_string (Z.of_nat port) +:+
  " read_requests=" +:+ to_string (requests s) +:+
  " read_bytes_requested=" +:+ to_string (bytes_requested s) +:+
  " read_beats_received=" +:+ to_string (beats_received s) +:+ newline.

Definition statistics_text (enabled : bool) (active_cycles : Z) (ports : list PortStatistics) : string :=
  if enabled
  then "SIM_STATS active_cycles=" +:+ to_string active_cycles +:+ newline +:+
       concatenate (imap port_line ports)
  else EmptyString.
