(* ===== verification/Sim.v ===== *)
(** * The simulator (src/sim_main.cpp)

    The Verilated model and its pins, the main loop, and the program around it
    with its output and exit statuses.  The Verilated model with its traces, the
    platform definition and the constants of the generated config.hpp are
    parameters: they are generated for each target.  CommandLine.v,
    ImageFiles.v and Statistics.v have the other parts of the file. *)
From Stdlib Require Import Ascii SpecFloat.
From S2P Require Import Prelude Text Console Axi Device Memory Uart Interrupts Heap Host Fabric.
From S2P Require Import Elf Platform PlatformInstance Packed Binding CommandLine ImageFiles Statistics.

Definition CONFIGURATION_ERROR : Z := 2.
Definition PROTOCOL_ERROR : Z := 3.
Definition TIMEOUT_ERROR : Z := 124.

(** The generated configuration and the platform of the target. *)
Class TargetConfig `{!HostSystem} (B : Type) := {
  default_memory : DefaultMap;
  TRACE_ENABLED : bool;
  THREADS : Z;
  register_devices : DeviceRegistry B -> result (DeviceRegistry B);
  platform_defaults : DefaultMap -> result PlatformSpec
}.

(** ** The model, its pins and the sideband *)

(** The members of the generated class: the AXI signals, clock, reset, and the
    pins only a sideband binding knows. *)
Record Members (Pins : Type) := mk_members { axi : Top; clk : Z; aresetn : Z; pins : Pins }.
Arguments mk_members {Pins} axi clk aresetn pins.
Arguments axi {Pins} _.
Arguments clk {Pins} _.
Arguments aresetn {Pins} _.
Arguments pins {Pins} _.
#[export] Instance Members_eta {Pins} : Eta (Members Pins) := fun m =>
  mk_members (axi m) (clk m) (aresetn m) (pins m).

(** The context and the model.  [construct] has the program's arguments and the
    number of threads; [eval] changes both the members and what they do not
    show, and can ask for [sc_time_stamp]; [context_time] is [context.time()].
    A trace is opened on a model, [dump]ed at a time and closed. *)
Class VerilatedModel (Pins : Type) := {
  Model : Type;
  construct : list string -> Z -> result (Members Pins * Model);
  threads : Model -> Z;
  eval : double -> Members Pins * Model -> Members Pins * Model;
  context_time : Model -> Z;
  time_inc : Model -> Model;
  got_finish : Model -> bool;
  final : Members Pins * Model -> Members Pins * Model;
  TraceWriter : Type;
  trace_ever_on : Model -> Model;
  open_trace : string -> Members Pins * Model -> TraceWriter;
  is_open : TraceWriter -> bool;
  dump : Members Pins * Model -> Z -> TraceWriter -> TraceWriter;
  close : TraceWriter -> TraceWriter
}.

(** [double sc_time_stamp()] *)
Definition sc_time_stamp (simulation_time : Z) : double :=
  binary_normalize 53 1024 simulation_time 0 false.

(** The type [config::SidebandBinding]: bound to the platform once, it sets
    pins from the signals it refers to. *)
Class SidebandBinding (B Pins : Type) := {
  Bound : Type;
  bind_sideband : Platform B -> result Bound;
  drive_sideband : Bound -> Heap B -> Pins -> Pins
}.

(** [NoSideband] *)
Definition no_sideband (B Pins : Type) : SidebandBinding B Pins :=
  {| Bound := unit; bind_sideband _ := Ok tt; drive_sideband _ _ pins := pins |}.

(** [fuxi_sim::SidebandBinding] of examples/fuxi/sim/fuxi_platform.hpp *)
Record FuxiPins := mk_fuxi_pins {
  irq_msip : Z; irq_mtip : Z; irq_meip : Z; irq_seip : Z; rtc_time : Z }.

Record FuxiBound := { b_msip : SignalRef; b_mtip : SignalRef; b_meip : SignalRef;
                      b_seip : SignalRef; b_time : SignalRef }.

Section FuxiSideband.
Context `{!HostSystem} {B : Type}.

Definition bind_fuxi (p : Platform B) : result FuxiBound :=
  let output := platform_output (devices_ p) (heap_ p) in
  try msip := output "clint.msip" 1 in
  try mtip := output "clint.mtip" 1 in
  try meip := output "plic.context0" 1 in
  try seip := output "plic.context1" 1 in
  try time := output "clint.mtime" 64 in
  Ok {| b_msip := msip; b_mtip := mtip; b_meip := meip; b_seip := seip; b_time := time |}.

(** [signal.value] of a bound signal; the device always has it. *)
Definition signal_value (h : Heap B) (signal : SignalRef) : Z :=
  match h !! signal.1 ≫= fun device => device_output device signal.2 with
  | Some s => sig_value s
  | None => 0
  end.

(** The [irq_] members are one bit wide ([CData]), [rtc_time] is [QData]. *)
Definition drive_fuxi (bound : FuxiBound) (h : Heap B) (_ : FuxiPins) : FuxiPins := {|
  irq_msip := u8 (signal_value h (b_msip bound));
  irq_mtip := u8 (signal_value h (b_mtip bound));
  irq_meip := u8 (signal_value h (b_meip bound));
  irq_seip := u8 (signal_value h (b_seip bound));
  rtc_time := signal_value h (b_time bound)
|}.

#[export] Instance fuxi_sideband : SidebandBinding B FuxiPins :=
  {| Bound := FuxiBound; bind_sideband := bind_fuxi; drive_sideband := drive_fuxi |}.
End FuxiSideband.

(** ** Signals *)
Definition SIGINT : Z := 2.
Definition SIGTERM : Z := 15.

(** The handler, and the signals it is installed for. *)
Definition handle_interrupt (signal interrupted : Z) : Z := 1.
Definition handled (options : Options) (signal : Z) : bool :=
  (signal =? SIGINT) || ((signal =? SIGTERM) && stats options).

Definition take_signals (options : Options) (l : list Z) (interrupted : Z) : Z :=
  foldl (fun flag signal => if handled options signal then handle_interrupt signal flag else flag)
    interrupted l.

(** The flag at the [n]th time the program looks at it, when [signals n] arrive
    before that look and after the one before.  (A signal without handler ends
    the process.) *)
Fixpoint interrupted_by (options : Options) (signals : nat -> list Z) (n : nat) : Z :=
  match n with
  | O => take_signals options (signals O) 0
  | S n' => take_signals options (signals n) (interrupted_by options signals n')
  end.

(** ** The main loop *)
Section Simulation.
Context {fabric : FabricConfig} {binding : BindingConfig} `{!HostSystem}.
Context {B Pins : Type} `{!UartBackend B, !UartStreams B, !HostLibrary, !TargetConfig B}.
Context {model : VerilatedModel Pins} {sideband : SidebandBinding B Pins}.

(** The devices are one heap: [sim_platform] holds it, and the fabric works on
    it while one of its methods runs. *)
Record Simulation := mk_simulation {
  sim_platform : Platform B;
  sim_bound : Bound;
  sim_fabric : Fabric (Heap B);
  sim_top : Members Pins;
  sim_model : Model;
  sim_trace : option TraceWriter;
  simulation_time : Z;
  sim_statistics : list PortStatistics;
  active_cycles : Z;
  total_cycles : Z;
  sim_console : Console
}.
#[export] Instance Simulation_eta : Eta Simulation := fun s =>
  mk_simulation (sim_platform s) (sim_bound s) (sim_fabric s) (sim_top s) (sim_model s)
    (sim_trace s) (simulation_time s) (sim_statistics s) (active_cycles s) (total_cycles s)
    (sim_console s).

Definition on_platform (f : Platform B -> Platform B) : M Simulation unit :=
  modify (fun s => s <| sim_platform ::= f |>).

Definition on_fabric {A} (op : M (Fabric (Heap B)) A) : M Simulation A := fun s =>
  let '(r, f) := op (sim_fabric s <| f_heap := heap_ (sim_platform s) |>) in
  (r, s <| sim_fabric := f |> <| sim_platform ::= fun p => p <| heap_ := f_heap f |> |>).

Definition on_top (f : Members Pins -> Members Pins) : M Simulation unit :=
  modify (fun s => s <| sim_top ::= f |>).

Definition on_signals (op : M Top unit) : M Simulation unit := fun s =>
  let '(r, signals) := op (axi (sim_top s)) in
  (r, s <| sim_top ::= fun top => top <| axi := signals |> |>).

(** [std::cerr << text] *)
Definition report (text : string) : M Simulation unit :=
  modify (fun s => s <| sim_console ::= print_err text |>).

Definition print_statistics (options : Options) : M Simulation unit :=
  do s := get in report (statistics_text (stats options) (active_cycles s) (sim_statistics s)).

Definition evaluate : M Simulation unit :=
  modify (fun s =>
    let '(top, m) := eval (sc_time_stamp (simulation_time s)) (sim_top s, sim_model s) in
    s <| sim_top := top |> <| sim_model := time_inc m |>
      <| sim_trace ::= fmap (dump (top, m) (context_time m)) |>
      <| simulation_time ::= fun t => u64 (t + 1) |>).

(** [top.final()], and the trace is closed. *)
Definition finalize : M Simulation unit :=
  modify (fun s => let '(top, m) := final (sim_top s, sim_model s) in
                   s <| sim_top := top |> <| sim_model := m |> <| sim_trace ::= fmap close |>).

(** The low phase of a cycle: the inputs of the model are set and it is
    evaluated. *)
Definition low_phase (reset : bool) : M Simulation (list SlaveSignals) :=
  on_platform (begin_cycle reset) ;;;
  modify (fun s => s <| sim_top ::= fun top =>
            top <| pins ::= drive_sideband (sim_bound s) (heap_ (sim_platform s)) |> |>) ;;;
  on_top (fun top => top <| clk := 0 |> <| aresetn := if (reset : bool) then 0 else 1 |>) ;;;
  do responses := on_fabric (drive reset) in
  on_signals (drive_top responses) ;;;
  evaluate ;;;
  ret responses.

(** The high phase: its outputs are taken, and everything moves on. *)
Definition high_phase (options : Options) (reset : bool) (responses : list SlaveSignals)
  : M Simulation unit :=
  do s := get in
  do sampled := lift (sample (axi (sim_top s))) in
  modify (fun s => s <| sim_statistics ::=
                     sample_statistics (stats options) sampled responses reset |>) ;;;
  on_top (fun top => top <| clk := 1 |>) ;;;
  evaluate ;;;
  on_fabric (commit sampled reset) ;;;
  on_platform (PlatformInstance.end_cycle reset) ;;;
  modify (fun s => s <| total_cycles ::= fun n => u64 (n + 1) |>) ;;;
  (when (negb reset) (modify (fun s => s <| active_cycles ::= fun n => u64 (n + 1) |>))).

Definition exit_report (code cycles : Z) : string :=
  "[axi-tb] guest exit code " +:+ to_string code +:+ " (0x" +:+ to_hex code +:+ ") after " +:+
  to_string cycles +:+ " cycle(s)" +:+ newline.

(** The body of the loop: [Some status] if the guest has exited. *)
Definition simulate_cycle (options : Options) : M Simulation (option Z) :=
  do reset := gets (fun s => total_cycles s <? reset_cycles options) in
  do responses := low_phase reset in
  high_phase options reset responses ;;;
  do s := get in
  if exit_completed_ (sim_fabric s) then
    let code := exit_code_ (sim_fabric s) in
    report (exit_report code (active_cycles s)) ;;;
    print_statistics options ;;;
    ret (Some (if code =? 0 then 0 else 1))
  else ret None.

(** [None] is a guest that has not exited; a run that needs more rounds than
    [fuel] is [OutOfFuel]. *)
Inductive LoopEnd := GuestExit (status : Z) | LoopLeft (looks : nat) | OutOfFuel.

Fixpoint simulate (fuel looks : nat) (options : Options) (interrupted : nat -> Z)
  : M Simulation LoopEnd :=
  do s := get in
  if active_cycles s <? max_cycles options then
    if interrupted looks =? 0 then
      if negb (got_finish (sim_model s)) then
        match fuel with
        | O => ret OutOfFuel
        | S fuel' =>
            do exit := simulate_cycle options in
            match exit with
            | Some status => finalize ;;; ret (GuestExit status)
            | None => simulate fuel' (S looks) options interrupted
            end
        end
      else finalize ;;; ret (LoopLeft (S looks))
    else finalize ;;; ret (LoopLeft (S looks))
  else finalize ;;; ret (LoopLeft looks).

(** [catch (...) { top.final(); ...; throw; }] *)
Definition finalize_on_error {A} (c : M Simulation A) : M Simulation A := fun s =>
  match c s with
  | (Throw e, s') => (finalize ;;; throw e) s'
  | ended => ended
  end.

(** The rounds of a run: every one is an active or a reset cycle. *)
Definition loop_fuel (options : Options) : nat := Z.to_nat (reset_cycles options + max_cycles options).

Definition interrupt_report (cycles : Z) : string :=
  "[axi-tb] interrupted after " +:+ to_string cycles +:+ " active cycle(s)" +:+ newline.
Definition finish_report : string :=
  "[axi-tb] DUT called $finish before writing the exit device" +:+ newline.
Definition timeout_report (cycles : Z) : string :=
  "[axi-tb] timeout after " +:+ to_string cycles +:+ " active cycle(s)" +:+ newline.

(** After the loop. *)
Definition end_run (options : Options) (interrupted : nat -> Z) (looks : nat) : M Simulation Z :=
  print_statistics options ;;;
  do s := get in
  if negb (interrupted looks =? 0) then
    report (interrupt_report (active_cycles s)) ;;; ret (128 + interrupted (S looks))
  else if got_finish (sim_model s) then report finish_report ;;; ret PROTOCOL_ERROR
  else report (timeout_report (active_cycles s)) ;;; ret TIMEOUT_ERROR.

Definition run_loop (options : Options) (interrupted : nat -> Z) : M Simulation Z :=
  do ended := finalize_on_error (simulate (loop_fuel options) 0 options interrupted) in
  match ended with
  | GuestExit status => ret status
  | OutOfFuel => throw (LogicError "the main loop does not end")
  | LoopLeft looks => end_run options interrupted looks
  end.

(** ** The program *)

(** What a run works on before the simulation exists: the [host_] member of the
    platform, and the output. *)
Definition World : Type := HostState * Console.
Definition on_host {A} (op : M HostState A) : M World A :=
  fun '(host, out) => let '(r, host) := op host in (r, (host, out)).

Definition start_trace (options : Options) (top : Members Pins) (m : Model)
  : result (Model * option TraceWriter) :=
  match (if TRACE_ENABLED then trace options else None) with
  | Some path =>
      let m := trace_ever_on m in
      let writer := open_trace path (top, m) in
      guard is_open writer else RuntimeError ("cannot open trace output: " +:+ path) in
      Ok (m, Some writer)
  | None => Ok (m, None)
  end.

Definition load_platform (options : Options) (p : Platform B) : M World (Platform B) :=
  fun '(host, out) =>
    match load_images (address_space_ p) options (images_ p) (heap_ p, out) with
    | (Ok _, (h, out)) => (Ok (p <| heap_ := h |>), (host, out))
    | (Throw e, (_, out)) => (Throw e, (host, out))
    end.

(** Everything before the loop. *)
Definition start_simulation (args : list string) (options : Options) (registry : DeviceRegistry B)
    (spec : PlatformSpec) : M World Simulation :=
  do p := on_host (build_platform registry spec AddressBits) in
  do bound := lift (bind_sideband p) in
  do p := load_platform options p in
  do (top, m) := lift (construct args THREADS) in
  if negb (threads m =? THREADS) then
    throw (RuntimeError "generated Verilator model thread count does not match configuration")
  else
    let f := set_seed (seed options) (fabric_init (heap_ p) (address_space_ p) false) in
    let '(r, f) := set_stall_probability (stall_probability options) f in
    do _ := lift r in
    do (m, writer) := lift (start_trace options top m) in
    do out := gets snd in
    ret {| sim_platform := p; sim_bound := bound; sim_fabric := f; sim_top := top;
           sim_model := m; sim_trace := writer; simulation_time := 0;
           sim_statistics := replicate NumPorts inhabitant;
           active_cycles := 0; total_cycles := 0; sim_console := out |}.

Definition run_world (args : list string) (options : Options) (registry : DeviceRegistry B)
    (spec : PlatformSpec) (interrupted : nat -> Z) : M World Z :=
  do s := start_simulation args options registry spec in
  fun '(host, _) => let '(r, s) := run_loop options interrupted s in (r, (host, sim_console s)).

(** The platform is destroyed in the end, however the function is left; its
    devices do nothing then, its host services restore the terminals. *)
Definition run_simulation (args : list string) (options : Options) (registry : DeviceRegistry B)
    (spec : PlatformSpec) (interrupted : nat -> Z) : M (Os * Console) Z :=
  fun '(system, out) =>
    let '(r, (host, out)) :=
      run_world args options registry spec interrupted (fresh_host system, out) in
    (r, (close_host host, out)).

(** [main] *)
Definition print_text (text : string) : M (Os * Console) unit :=
  modify (fun '(system, out) => (system, print_out text out)).

(** What [main] does before it prints the help or runs the simulation. *)
Definition prepare_run (args : list string) : result (DeviceRegistry B * Options * PlatformSpec) :=
  try registry := register_builtin_devices (∅ : DeviceRegistry B) in
  try registry := register_devices registry in
  try spec := platform_defaults default_memory in
  try (options, spec) := parse_options TRACE_ENABLED args spec in
  Ok (registry, options, spec).

Definition run_program (program : string) (args : list string) (signals : nat -> list Z)
  : M (Os * Console) Z :=
  do (registry, options, spec) := lift (prepare_run args) in
  if help options then
    print_text (help_text program) ;;; print_text (registry_help registry) ;;; ret 0
  else run_simulation args options registry spec (interrupted_by options signals).

Definition exit_status (r : result Z) : Z :=
  match r with
  | Ok status => status
  | Throw (ProtocolError _ _) => PROTOCOL_ERROR
  | Throw _ => CONFIGURATION_ERROR
  end.

Definition error_report (e : exn) : string :=
  match e with
  | ProtocolError _ _ => "[axi-tb] AXI protocol error: "
  | ElfError _ => "[axi-tb] image error: "
  | _ => "[axi-tb] configuration error: "
  end +:+ what e +:+ newline.

Definition main (program : string) (args : list string) (signals : nat -> list Z) (system : Os)
  : Z * (Os * Console) :=
  let '(r, (system, out)) := run_program program args signals (system, empty_console) in
  (exit_status r,
   (system, match r with Ok _ => out | Throw e => print_err (error_report e) out end)).
End Simulation.
