(* ===== verification/SimTheorems.v ===== *)
(** * The main loop: termination and exit statuses

    [run_loop] ends within the cycles its options allow, whatever the model
    does, and each exit status means what it says. *)
From S2P Require Import Prelude Text Console Axi Device Memory Uart Interrupts Heap Host Fabric.
From S2P Require Import Elf Platform PlatformInstance Packed Binding.
From S2P Require Import CommandLine ImageFiles Statistics Sim.

Section Loop.
Context {fabric : FabricConfig} {binding : BindingConfig} `{!HostSystem}.
Context {B Pins : Type} `{!UartBackend B, !UartStreams B, !HostLibrary, !TargetConfig B}.
Context {model : VerilatedModel Pins} {sideband : SidebandBinding B Pins}.
Implicit Types (s : Simulation) (options : Options).

(** ** Reasoning about the parts of a cycle *)
Definition with_fabric (f : Fabric (Heap B)) s : Simulation :=
  s <| sim_fabric := f |> <| sim_platform ::= fun p => p <| heap_ := f_heap f |> |>.
Definition shared_fabric s : Fabric (Heap B) := sim_fabric s <| f_heap := heap_ (sim_platform s) |>.

Lemma wp_on_fabric {A} (op : M (Fabric (Heap B)) A) Q E s :
  wp op (fun a f => Q a (with_fabric f s)) (fun e f => E e (with_fabric f s)) (shared_fabric s) ->
  wp (on_fabric op) Q E s.
Proof. unfold wp, on_fabric. fold (shared_fabric s). by destruct (op (shared_fabric s)) as [[a|e] f]. Qed.

Lemma wp_on_signals op Q E s :
  wp op (fun u t => Q u (s <| sim_top ::= fun top => top <| axi := t |> |>))
        (fun e t => E e (s <| sim_top ::= fun top => top <| axi := t |> |>)) (axi (sim_top s)) ->
  wp (on_signals op) Q E s.
Proof. unfold wp, on_signals. by destruct (op (axi (sim_top s))) as [[u|e] t]. Qed.

Lemma wp_lift {S A} (r : result A) Q E (st : S) :
  match r with Ok a => Q a st | Throw e => E e st end -> wp (lift r) Q E st.
Proof. unfold wp, lift. by destruct r. Qed.

(** ** Counting cycles *)

(** The counters and the output, which only few steps touch. *)
Definition counts s : Z * Z * Console := (active_cycles s, total_cycles s, sim_console s).

Lemma counts_evaluate s : counts (evaluate s).2 = counts s.
Proof. unfold evaluate, modify. cbn. by destruct (eval _ _). Qed.

Lemma counts_finalize s : counts (finalize s).2 = counts s.
Proof. unfold finalize, modify. cbn. by destruct (final _). Qed.

Lemma counts_on_fabric {A} (op : M (Fabric (Heap B)) A) s : counts (on_fabric op s).2 = counts s.
Proof. unfold on_fabric. by destruct (op _). Qed.

Lemma counts_on_signals op s : counts (on_signals op s).2 = counts s.
Proof. unfold on_signals. by destruct (op _). Qed.

(** A step that keeps a part of the state. *)
Lemma wp_kept {A C X} (f : Simulation -> X) (c : M Simulation A) n (k : A -> M Simulation C) Q
    (E : exn -> Simulation -> Prop) s :
  f s = n -> (forall s, f (c s).2 = f s) -> (forall e s', f s' = n -> E e s') ->
  (forall a s', f s' = n -> wp (k a) Q E s') -> wp (bind c k) Q E s.
Proof.
  intros Hs Hc He Hk. apply wp_bind. unfold wp at 1. specialize (Hc s). rewrite Hs in Hc.
  destruct (c s) as [[a|e] s']; auto.
Qed.

(** How the guest has exited, and the report of it. *)
Definition exit_of s : option Z :=
  if exit_completed_ (sim_fabric s)
  then Some (if exit_code_ (sim_fabric s) =? 0 then 0 else 1) else None.
Definition exit_text options s : string :=
  exit_report (exit_code_ (sim_fabric s)) (active_cycles s)
  +:+ statistics_text (stats options) (active_cycles s) (sim_statistics s).

(** What a completed cycle does to the counters and the output. *)
Definition cycle_counts options s (ended : option Z) s' : Prop :=
  active_cycles s' = (if total_cycles s <? reset_cycles options then active_cycles s
                      else u64 (active_cycles s + 1)) /\
  total_cycles s' = u64 (total_cycles s + 1) /\
  ended = exit_of s' /\
  sim_console s' = match ended with
                   | Some _ => print_err (exit_text options s') (sim_console s)
                   | None => sim_console s
                   end.

Ltac keep_counts := eapply (wp_kept counts); [eassumption | | (done || by auto) | cbv beta; intros ? ? ?].

(** An exception in a cycle comes before anything is counted or printed. *)
Definition silent s (_ : exn) s' : Prop := counts s' = counts s.

Lemma low_phase_counts reset s :
  wp (low_phase reset) (fun _ s' => counts s' = counts s) (silent s) s.
Proof.
  unfold silent. assert (counts s = counts s) as Hn by done. revert Hn. generalize (counts s) at 2 3 4.
  intros n Hn. unfold low_phase. do 3 (keep_counts; [done|]). keep_counts; [apply counts_on_fabric|].
  keep_counts; [apply counts_on_signals|]. keep_counts; [apply counts_evaluate|]. by wp_steps.
Qed.

Lemma high_phase_counts options reset responses s :
  wp (high_phase options reset responses)
    (fun _ s' => counts s' = (if reset then active_cycles s else u64 (active_cycles s + 1),
                              u64 (total_cycles s + 1), sim_console s)) (silent s) s.
Proof.
  unfold silent. unfold high_phase. assert (counts s = (active_cycles s, total_cycles s, sim_console s)) as Hn by done.
  rewrite Hn. revert Hn. generalize (active_cycles s) (total_cycles s) (sim_console s).
  intros active total console Hn.
  do 4 (keep_counts; [done|]). keep_counts; [apply counts_evaluate|].
  keep_counts; [apply counts_on_fabric|]. keep_counts; [done|]. wp_steps.
  match goal with H : counts _ = _ |- _ => injection H as Ha Ht Hc end.
  destruct reset; cbn [negb]; wp_steps; unfold counts; cbn; by rewrite Ha, Ht, Hc.
Qed.

Lemma append_assoc_err (a b : string) c : print_err b (print_err a c) = print_err (a +:+ b) c.
Proof. unfold print_err. destruct c. cbn. f_equal. apply append_assoc. Qed.

Lemma simulate_cycle_counts options s :
  wp (simulate_cycle options) (cycle_counts options s) (silent s) s.
Proof.
  unfold simulate_cycle, cycle_counts. wp_step. wp_step. cbv beta.
  set (reset := total_cycles s <? reset_cycles options). clearbody reset.
  eapply wp_seq; [apply low_phase_counts|]. intros responses s1 Hs1. cbv beta in *.
  assert (silent s = silent s1) as -> by (unfold silent; by rewrite Hs1).
  injection Hs1 as Ha Ht Hc. rewrite <- Ha, <- Ht, <- Hc. eapply wp_seq; [apply high_phase_counts|].
  intros ? s2 Hs2. cbv beta in *. injection Hs2 as Ha2 Ht2 Hc2.
  wp_step. wp_step. cbv beta. unfold exit_of.
  destruct (exit_completed_ (sim_fabric s2)) eqn:Hx; [|wp_steps; by rewrite Hx].
  unfold print_statistics, report. wp_steps. cbn [sim_fabric update exit_completed_]. rewrite Hx.
  split_and!; [done..|]. cbn. rewrite append_assoc_err, Hc2. done.
Qed.

(** ** The loop *)

(** The counters at the head of the loop: all reset cycles come first. *)
Definition counters_ok options s : Prop :=
  0 <= total_cycles s <= reset_cycles options + max_cycles options /\
  active_cycles s = Z.max 0 (total_cycles s - reset_cycles options).

(** The options the command line can give, with room for the counters. *)
Definition options_ok options : Prop :=
  fits 64 (reset_cycles options) /\ fits 64 (max_cycles options) /\
  reset_cycles options + max_cycles options < 2 ^ 64.

(** How a run ends, and what it has printed on [console] before the loop's end. *)
Definition loop_ended options (interrupted : nat -> Z) (console : Console) (ended : LoopEnd) s : Prop :=
  counters_ok options s /\
  match ended with
  | GuestExit status =>
      exit_of s = Some status /\ sim_console s = print_err (exit_text options s) console
  | LoopLeft looks =>
      Z.of_nat looks <= total_cycles s + 1 /\ sim_console s = console /\
      (active_cycles s = max_cycles options \/
       (exists look, looks = S look /\ interrupted look <> 0) \/
       (exists m t, got_finish m = true /\ final (t, m) = (sim_top s, sim_model s)))
  | OutOfFuel => False
  end.

Lemma counters_step options s s' :
  options_ok options -> counters_ok options s -> active_cycles s < max_cycles options ->
  active_cycles s' = (if total_cycles s <? reset_cycles options then active_cycles s
                      else u64 (active_cycles s + 1)) ->
  total_cycles s' = u64 (total_cycles s + 1) ->
  counters_ok options s' /\ total_cycles s' = total_cycles s + 1.
Proof.
  intros (Hr & Hm & Hsum) [Ht Ha] Hlt Hca Hct.
  assert (total_cycles s' = total_cycles s + 1) as Ht'.
  { rewrite Hct. apply u64_small. unfold fits in *. lia. }
  split; [|done]. unfold counters_ok. rewrite Ht'. split; [lia|]. rewrite Hca.
  destruct (Z.ltb_spec (total_cycles s) (reset_cycles options)); [lia|].
  rewrite u64_small; unfold fits in *; lia.
Qed.

Lemma finalize_spec s :
  exists t m, final (sim_top s, sim_model s) = (t, m) /\
    finalize s = (Ok tt, s <| sim_top := t |> <| sim_model := m |> <| sim_trace ::= fmap close |>).
Proof.
  unfold finalize, modify. destruct (final (sim_top s, sim_model s)) as [t m] eqn:E.
  by exists t, m.
Qed.

(** The loop is left: [finalize] keeps the counters. *)
Ltac leave_loop Hrun :=
  unfold wp, bind; rewrite Hrun; cbn; split; [done|]; split;
  [match goal with
   | s : Simulation |- context [Z.of_nat ?n] => change (Z.of_nat n <= total_cycles s + 1); lia
   end | split; [done|]].

Lemma simulate_spec options interrupted fuel looks s :
  options_ok options -> counters_ok options s -> Z.of_nat looks = total_cycles s ->
  reset_cycles options + max_cycles options - total_cycles s <= Z.of_nat fuel ->
  wp (simulate fuel looks options interrupted) (loop_ended options interrupted (sim_console s))
    (fun _ s' => sim_console s' = sim_console s) s.
Proof.
  intros Ho. revert looks s. induction fuel as [|fuel IH]; intros looks s Hc Hk Hf;
    cbn [simulate]; wp_step; wp_step; cbv beta; destruct (finalize_spec s) as (t & m & Hfin & Hrun).
  - destruct Hc as [Ht Ha]. destruct (Z.ltb_spec (active_cycles s) (max_cycles options)).
    { destruct Ho as (? & ? & ?). unfold fits in *. lia. }
    leave_loop Hrun. left. cbn.
    destruct Ho as (? & ? & ?). unfold fits in *. lia.
  - destruct (Z.ltb_spec (active_cycles s) (max_cycles options)) as [Hlt|Hge];
      [destruct (Z.eqb_spec (interrupted looks) 0); [destruct (got_finish (sim_model s)) eqn:Hg|]|];
      cbn [negb].
    + leave_loop Hrun. right. right.
      by exists (sim_model s), (sim_top s).
    + eapply wp_seq.
      { eapply wp_mono; [apply simulate_cycle_counts | intros a s' Ha; exact Ha|].
        intros ? s' Hs. by injection Hs. }
      intros ended s' (Hca & Hct & He & Hp).
      destruct (counters_step options s s') as [Hc' Ht']; [done..|].
      destruct ended as [status|]; [|rewrite <- Hp; apply IH; [done | lia | lia] ].
      destruct (finalize_spec s') as (t' & m' & _ & Hrun'). unfold wp, bind. rewrite Hrun'. by cbn.
    + leave_loop Hrun. right. left. by exists looks.
    + leave_loop Hrun. left. cbn. destruct Hc as [Ht Ha].
      destruct Ho as (? & ? & ?). unfold fits in *. lia.
Qed.

(** The state the loop starts in. *)
Definition fresh_counters s : Prop := active_cycles s = 0 /\ total_cycles s = 0.

Lemma loop_spec options interrupted s :
  options_ok options -> fresh_counters s ->
  wp (finalize_on_error (simulate (loop_fuel options) 0 options interrupted))
    (loop_ended options interrupted (sim_console s)) (fun _ s' => sim_console s' = sim_console s) s.
Proof.
  intros Ho [Ha Ht]. pose proof Ho as (Hr & Hm & _). unfold fits in *.
  assert (counters_ok options s) as Hc by (split; lia).
  pose proof (simulate_spec options interrupted (loop_fuel options) 0 s Ho Hc) as Hs.
  specialize (Hs ltac:(lia) ltac:(unfold loop_fuel; lia)).
  unfold finalize_on_error, wp in *. destruct (simulate _ _ _ _ s) as [[ended|e] s'] eqn:E; [done|].
  unfold bind. pose proof (counts_finalize s') as Hf. destruct (finalize_spec s') as (t & m & _ & Hrun).
  rewrite Hrun in *. cbn in *. done.
Qed.

(** The final blocks of the design do not take a [$finish] back. *)
Definition finish_is_final : Prop :=
  forall t m, got_finish m = true -> got_finish (final (t, m)).2 = true.

(** ** Interrupts *)
Definition is_flag (z : Z) : Prop := z = 0 \/ z = 1.

Lemma take_signals_flag options l flag :
  is_flag flag ->
  is_flag (take_signals options l flag) /\ (flag = 1 -> take_signals options l flag = 1) /\
  (take_signals options l flag <> 0 ->
   flag <> 0 \/ exists signal, signal ∈ l /\ handled options signal = true).
Proof.
  unfold take_signals, is_flag. revert flag.
  induction l as [|signal l IH]; intros flag Hflag; cbn [foldl]; [tauto|].
  destruct (handled options signal) eqn:Hh.
  - destruct (IH 1 ltac:(by right)) as (H1 & H2 & _). unfold handle_interrupt. split_and!; [done | auto |].
    intros _. right. exists signal. split; [by left | done].
  - destruct (IH flag Hflag) as (H1 & H2 & H3). split_and!; [done | done |].
    intros Hn. destruct (H3 Hn) as [?|(x & ? & ?)]; [by left|]. right. exists x. split; [by right | done].
Qed.

Lemma interrupted_by_is_flag options signals n : is_flag (interrupted_by options signals n).
Proof.
  induction n as [|n IH]; cbn [interrupted_by]; [|by apply take_signals_flag].
  apply take_signals_flag. by left.
Qed.

Lemma interrupted_by_flag options signals n :
  interrupted_by options signals n <> 0 ->
  interrupted_by options signals n = 1 /\ interrupted_by options signals (S n) = 1 /\
  exists look signal, (look <= n)%nat /\ signal ∈ signals look /\ handled options signal = true.
Proof.
  intros Hn. destruct (interrupted_by_is_flag options signals n) as [?|H1]; [done|].
  pose proof (interrupted_by_is_flag options signals n) as Hf. split_and!; [done | |].
  - cbn [interrupted_by]. by apply (take_signals_flag options _ _ Hf).
  - clear H1 Hf. induction n as [|n IH]; cbn [interrupted_by] in Hn.
    + destruct (proj2 (proj2 (take_signals_flag options (signals 0%nat) 0 ltac:(by left))) Hn) as [?|(x & ? & ?)];
        [done | by exists 0%nat, x].
    + destruct (proj2 (proj2 (take_signals_flag options (signals (S n)) _
        (interrupted_by_is_flag options signals n))) Hn) as [Hn'|(x & ? & ?)]; [|by exists (S n), x].
      destruct (IH Hn') as (look & x & ? & ?). exists look, x. split; [lia | done].
Qed.

(** ** The end of a run *)
Definition end_status (interrupted : nat -> Z) (looks : nat) s : Z :=
  if negb (interrupted looks =? 0) then 128 + interrupted (S looks)
  else if got_finish (sim_model s) then PROTOCOL_ERROR else TIMEOUT_ERROR.
Definition end_text options (interrupted : nat -> Z) (looks : nat) s : string :=
  statistics_text (stats options) (active_cycles s) (sim_statistics s) +:+
  (if negb (interrupted looks =? 0) then interrupt_report (active_cycles s)
   else if got_finish (sim_model s) then finish_report else timeout_report (active_cycles s)).

Lemma end_run_spec options interrupted looks s :
  end_run options interrupted looks s
    = (Ok (end_status interrupted looks s),
       s <| sim_console ::= print_err (end_text options interrupted looks s) |>).
Proof.
  unfold end_run, end_status, end_text, print_statistics, report, bind, get, modify.
  destruct (negb _); cbn; [|destruct (got_finish _)]; cbn; unfold ret; do 2 f_equal;
    apply append_assoc_err.
Qed.

(** A signal the handler is installed for has arrived before the loop was left
    or the report was made (the program looks at the flag once per cycle, and
    once more in the end); the status is 128 plus what the handler stores. *)
Definition stopped_by_signal options (signals : nat -> list Z) (status : Z) s : Prop :=
  exists look signal flag, Z.of_nat look <= total_cycles s + 1 /\
    signal ∈ signals look /\ handled options signal = true /\ status = 128 + handle_interrupt signal flag.

(** What an exit status of [run_loop] and the text before it say. *)
Definition status_means options (signals : nat -> list Z) (status : Z) (text : string) s : Prop :=
  let statistics := statistics_text (stats options) (active_cycles s) (sim_statistics s) in
  (exit_of s = Some status /\
   text = exit_report (exit_code_ (sim_fabric s)) (active_cycles s) +:+ statistics) \/
  (stopped_by_signal options signals status s /\ text = statistics +:+ interrupt_report (active_cycles s)) \/
  (got_finish (sim_model s) = true /\ status = PROTOCOL_ERROR /\
   text = statistics +:+ finish_report) \/
  (active_cycles s = max_cycles options /\ got_finish (sim_model s) = false /\
   status = TIMEOUT_ERROR /\ text = statistics +:+ timeout_report (active_cycles s)).

Lemma run_loop_spec options signals s :
  finish_is_final -> options_ok options -> fresh_counters s ->
  let interrupted := interrupted_by options signals in
  match run_loop options interrupted s with
  | (Ok status, s') =>
      counters_ok options s' /\
      exists text, sim_console s' = print_err text (sim_console s) /\
        status_means options signals status text s'
  | (Throw e, s') =>
      sim_console s' = sim_console s /\
      exists s1, simulate (loop_fuel options) 0 options interrupted s = (Throw e, s1) /\
        (finalize s1).2 = s'
  end.
Proof.
  intros Hfin Ho Hs interrupted. pose proof (loop_spec options interrupted s Ho Hs) as Hl.
  unfold run_loop, bind, wp in *. unfold finalize_on_error in *.
  destruct (simulate _ _ _ _ s) as [[ended|e] s1] eqn:E.
  2:{ destruct (finalize_spec s1) as (t & m & _ & Hrun). unfold bind in *. rewrite Hrun in *.
      split; [exact Hl|]. exists s1. by rewrite Hrun. }
  destruct Hl as [Hc Hl]. destruct ended as [status|looks|]; [cbn | | done].
  { destruct Hl as [He Hp]. split; [done|]. exists (exit_text options s1). split; [done|]. by left. }
  destruct Hl as (Hlooks & Hp & Hl). rewrite end_run_spec. split; [done|].
  exists (end_text options interrupted looks s1). split; [cbn; by rewrite Hp|].
  unfold status_means, end_status, end_text, exit_of. cbn. right.
  destruct (Z.eqb_spec (interrupted looks) 0) as [Hz|Hz]; cbn [negb].
  - right. destruct (got_finish (sim_model s1)) eqn:Hg; [by left | right].
    destruct Hl as [Hm|[(look & -> & Hn)|(m & t & Hm & Hf)] ]; [done | |].
    + destruct (interrupted_by_flag options signals look Hn) as (_ & ? & _).
      unfold interrupted in Hz. congruence.
    + specialize (Hfin t m Hm). rewrite Hf in Hfin. cbn in Hfin. congruence.
  - left. destruct (interrupted_by_flag options signals looks Hz) as (_ & Hs1 & look & signal & Hle & Hin & Hsig).
    split; [|done]. exists look, signal, 0. cbn [total_cycles update]. split; [lia|]. split; [done|].
    split; [done|]. cbn [interrupted_by] in Hs1. fold interrupted in Hs1. by rewrite Hs1.
Qed.

(** C7: every run ends, with its status and its report.  Whatever the model does,
    the loop is left after at most [reset_cycles + max_cycles] rounds, by a
    guest exit, an interrupt, [$finish] or after exactly [max_cycles] active
    cycles, or by an exception of a cycle.  The status and the text printed on
    the way say which: 0 or 1 is the guest's exit code, 3 is [$finish], 124 a
    timeout, and 128 plus the value the handler stores a signal it was
    installed for, which had arrived by then; the statistics are printed once;
    an exception leaves nothing printed.  The handler stores 1 whatever the
    signal, so that SIGINT ends a run with 129 ([interrupted_status]) and not
    with the 130 of README.md or the "128 + signal" of the benchmarks'
    README.md: the program differs from its documentation there. *)
Theorem every_run_ends_with_its_status options signals s :
  finish_is_final -> options_ok options -> fresh_counters s ->
  let interrupted := interrupted_by options signals in
  match run_loop options interrupted s with
  | (Ok status, s') =>
      counters_ok options s' /\
      exists text, sim_console s' = print_err text (sim_console s) /\
        status_means options signals status text s'
  | (Throw e, s') =>
      sim_console s' = sim_console s /\
      exists s1, simulate (loop_fuel options) 0 options interrupted s = (Throw e, s1) /\
        (finalize s1).2 = s'
  end.
Proof. apply run_loop_spec. Qed.
End Loop.

(** ** Numbers on the command line *)

(** The check for a leading minus sign does not see one behind white space:
    [strtoull] then negates the number modulo 2^64. *)
Lemma negative_numbers_slip_through :
  parse_unsigned "-1" "--max-cycles"
    = Throw (InvalidArgument "--max-cycles expects an unsigned integer") /\
  parse_unsigned " -1" "--max-cycles" = Ok (2 ^ 64 - 1).
Proof. by vm_compute. Qed.

(** An interrupt during the run ends it with 129, not with the 130 (128 + SIGINT)
    the documentation gives: the handler stores 1. *)
Lemma interrupted_status {fabric : FabricConfig} {binding : BindingConfig} `{!HostSystem}
    {B Pins : Type} `{!UartBackend B} {model : VerilatedModel Pins} {sideband : SidebandBinding B Pins}
    options (s : Simulation (B := B)) :
  active_cycles s < max_cycles options ->
  (run_loop options (interrupted_by options (fun _ => [SIGINT])) s).1 = Ok 129.
Proof.
  intros Hlt. assert (forall n, interrupted_by options (fun _ => [SIGINT]) n = 1) as H1 by by intros n; induction n as [|n IH].
  set (interrupted := interrupted_by _ _) in *. unfold run_loop, bind, finalize_on_error.
  destruct (finalize_spec s) as (t & m & _ & Hrun).
  assert (simulate (loop_fuel options) 0 options interrupted s
          = (Ok (LoopLeft 1), (finalize s).2)) as ->.
  { apply Z.ltb_lt in Hlt. destruct (loop_fuel options); cbn [simulate]; unfold bind, get;
      rewrite Hlt, H1; cbn [Z.eqb]; by rewrite Hrun. }
  rewrite end_run_spec. unfold end_status. by rewrite !H1.
Qed.
