(* ===== verification/SimHost.v ===== *)
(** * The host after a run

    The device factories, the construction of a platform and the program
    composed with the host services: a run hands the terminals back as it has
    found them. *)
From S2P Require Import Prelude Text Console Axi Device Memory Uart Interrupts Heap Host Fabric.
From S2P Require Import Elf Platform PlatformInstance Packed Binding.
From S2P Require Import CommandLine ImageFiles Statistics Sim.

(** ** Computations that only open files *)
Section Opens.
Context `{!HostSystem, !HostLaws}.

Definition only_opens {A} (c : M HostState A) : Prop :=
  forall start s, host_ok start s -> host_ok start (c s).2.

Lemma only_opens_ret {A} (a : A) : only_opens (ret a).
Proof. by intros start s Hs. Qed.
Lemma only_opens_throw {A} e : only_opens (throw e : M HostState A).
Proof. by intros start s Hs. Qed.
Lemma only_opens_lift {A} (r : result A) : only_opens (lift r).
Proof. by intros start s Hs. Qed.
Lemma only_opens_bind {A A'} (c : M HostState A) (k : A -> M HostState A') :
  only_opens c -> (forall a, only_opens (k a)) -> only_opens (bind c k).
Proof.
  intros Hc Hk start s Hs. specialize (Hc start s Hs). unfold bind.
  destruct (c s) as [ [a|e] s']; [by apply Hk | done].
Qed.
Lemma only_opens_lifted {A A'} (r : result A) (k : A -> M HostState A') :
  (forall a, r = Ok a -> only_opens (k a)) -> only_opens (bind (lift r) k).
Proof. intros Hk start s Hs. unfold bind, lift. destruct r as [a|e]; [by apply Hk | done]. Qed.
Lemma only_opens_open path input : only_opens (open path input).
Proof.
  intros start s Hs. pose proof (open_ok start path input s Hs) as Ho. unfold wp in Ho.
  by destruct (open path input s) as [ [file|e] s'].
Qed.
Lemma only_opens_vector size : only_opens (vector_buffer size).
Proof. intros start s. apply vector_buffer_ok. Qed.
Lemma only_opens_mapping size : only_opens (anonymous_mapping size).
Proof. intros start s. apply anonymous_mapping_ok. Qed.
Lemma only_opens_rom image size : only_opens (mk_rom image size).
Proof.
  apply only_opens_bind; [apply only_opens_vector|]. intros _.
  destruct (_ =? _); [apply only_opens_throw|]. destruct (_ <? _); [apply only_opens_throw | apply only_opens_ret].
Qed.
Lemma only_opens_ram size : only_opens (mk_ram size).
Proof.
  unfold mk_ram. destruct (_ =? _); [apply only_opens_throw|].
  apply only_opens_bind; [apply only_opens_mapping|]. intros mapped.
  apply only_opens_bind; [|intros _; apply only_opens_ret].
  destruct mapped; [apply only_opens_ret | apply only_opens_vector].
Qed.
End Opens.
Create HintDb opens.
#[export] Hint Resolve only_opens_ret only_opens_throw only_opens_lift only_opens_bind only_opens_open only_opens_rom only_opens_ram : opens.
#[export] Hint Extern 1 (only_opens (open_input _)) => apply only_opens_open : opens.
#[export] Hint Extern 1 (only_opens (open_output _)) => apply only_opens_open : opens.

(** ** The factories *)
Section Factories.
Context `{!HostSystem, !HostLaws} {B : Type} `{!UartBackend B, !UartStreams B}.
Implicit Types (registry : DeviceRegistry B) (type : DeviceType B).

Definition type_only_opens type : Prop :=
  forall factory config, create type = Some factory -> only_opens (factory config).
Definition registry_only_opens registry : Prop := map_Forall (fun _ => type_only_opens) registry.

Lemma registry_only_opens_add name type registry registry' :
  registry_only_opens registry -> type_only_opens type ->
  registry_add name type registry = Ok registry' -> registry_only_opens registry'.
Proof.
  unfold registry_add. intros Hr Ht. destruct (validate_name name); [|done]. cbn [rbind].
  case_bool_decide; [|done]. destruct (check_options [] (type_options type)); [|done]. cbn [rbind].
  destruct (check_image_option type); [|done]. cbn [rbind]. destruct (registry !! name); [done|]. intros [= <-].
  by apply (map_Forall_insert_2 (M := gmap string)).
Qed.

Lemma types_only_open :
  type_only_opens rom_type /\ type_only_opens ram_type /\ type_only_opens uart_type /\
  type_only_opens exit_type /\ type_only_opens clint_type /\ type_only_opens plic_type.
Proof. split_and!; intros factory config [= <-]; eauto 20 with opens. Qed.

Lemma builtin_only_opens registry registry' :
  registry_only_opens registry -> register_builtin_devices registry = Ok registry' ->
  registry_only_opens registry'.
Proof.
  intros Hr. unfold register_builtin_devices. destruct types_only_open as (H1 & H2 & H3 & H4 & _).
  destruct (registry_add "rom" _ _) as [r1|] eqn:E1; [|done]. cbn [rbind].
  destruct (registry_add "ram" _ _) as [r2|] eqn:E2; [|done]. cbn [rbind].
  destruct (registry_add "uart" _ _) as [r3|] eqn:E3; [|done]. cbn [rbind]. intros E4.
  refine (registry_only_opens_add _ _ _ _ _ H4 E4). refine (registry_only_opens_add _ _ _ _ _ H3 E3).
  refine (registry_only_opens_add _ _ _ _ _ H2 E2). exact (registry_only_opens_add _ _ _ _ Hr H1 E1).
Qed.

Lemma fuxi_only_opens registry registry' :
  registry_only_opens registry -> fuxi_register_devices registry = Ok registry' ->
  registry_only_opens registry'.
Proof.
  intros Hr. unfold fuxi_register_devices. destruct types_only_open as (_ & _ & _ & _ & H1 & H2).
  destruct (registry_add "riscv-clint" _ _) as [r1|] eqn:E1; [|done]. cbn [rbind]. intros E2.
  refine (registry_only_opens_add _ _ _ _ _ H2 E2). exact (registry_only_opens_add _ _ _ _ Hr H1 E1).
Qed.

(** ** The construction of a platform *)
Lemma make_device_only_opens registry configs d :
  registry_only_opens registry -> only_opens (make_device registry configs d).
Proof.
  intros Hr. unfold make_device. apply only_opens_lifted. intros type Ht.
  unfold registry_type in Ht. destruct (registry !! spec_type d) as [type'|] eqn:E; [|done]. injection Ht as ->.
  specialize (Hr _ _ E). apply only_opens_bind; [auto with opens|]. intros config.
  destruct (create type) as [factory|] eqn:Ec; [|auto with opens].
  apply only_opens_bind; [by apply Hr|]. intros [device|]; auto with opens.
Qed.

Lemma make_devices_only_opens registry configs specs h instances :
  registry_only_opens registry -> only_opens (make_devices registry configs specs h instances).
Proof.
  intros Hr. revert h instances. induction specs as [|d specs IH]; intros h instances; cbn [make_devices];
    [auto with opens|]. apply only_opens_bind; [by apply make_device_only_opens | auto].
Qed.

Lemma build_platform_only_opens registry spec bits :
  registry_only_opens registry -> only_opens (build_platform registry spec bits).
Proof.
  intros Hr. unfold build_platform. destruct (negb _); [auto with opens|].
  apply only_opens_bind; [auto with opens|]. intros configs.
  apply only_opens_bind; [by apply make_devices_only_opens|]. intros [h instances].
  apply only_opens_bind; [auto with opens|]. intros space.
  apply only_opens_bind; [auto with opens|]. intros images.
  apply only_opens_bind; [auto with opens|]. intros [h' order]. auto with opens.
Qed.
End Factories.

(** ** The program *)
Section Program.
Context {fabric : FabricConfig} {binding : BindingConfig} `{!HostSystem, !HostLaws}.
Context {B Pins : Type} `{!UartBackend B, !UartStreams B, !HostLibrary, !TargetConfig B}.
Context {model : VerilatedModel Pins} {sideband : SidebandBinding B Pins}.

Definition world_ok (start : Os) : World -> Prop := fun w => host_ok start w.1.

Lemma wp_on_host {A} (op : M HostState A) start w :
  only_opens op -> world_ok start w -> wp (on_host op) (fun _ => world_ok start) (fun _ => world_ok start) w.
Proof.
  intros Ho Hw. destruct w as [host out]. unfold wp, on_host. specialize (Ho start host Hw).
  destruct (op host) as [ [a|e] host']; exact Ho.
Qed.

Lemma wp_lifted {A} (r : result A) start (w : World) :
  world_ok start w -> wp (lift r) (fun _ => world_ok start) (fun _ => world_ok start) w.
Proof. unfold wp, lift. by destruct r. Qed.

Lemma run_world_ok args options registry spec interrupted start w :
  registry_only_opens registry -> world_ok start w ->
  world_ok start (run_world args options registry spec interrupted w).2.
Proof.
  intros Hr Hw. cut (wp (run_world args options registry spec interrupted)
    (fun _ => world_ok start) (fun _ => world_ok start) w).
  { unfold wp. by destruct (run_world _ _ _ _ _ w) as [ [a|e] w']. }
  unfold run_world. eapply wp_seq with (R := fun _ => world_ok start).
  2:{ intros s [host out] Hw'. unfold wp. by destruct (run_loop _ _ s) as [ [status|e] s']. }
  unfold start_simulation. eapply wp_seq; [by apply wp_on_host; [apply build_platform_only_opens|]|].
  intros p w1 Hw1. eapply wp_seq; [by apply wp_lifted|]. intros bound w2 Hw2.
  eapply wp_seq with (R := fun _ => world_ok start).
  { unfold load_platform. destruct w2 as [host out]. unfold wp.
    by destruct (load_images _ _ _ _) as [ [u|e] [h out'] ]. }
  intros p' w3 Hw3. eapply wp_seq; [by apply wp_lifted|]. intros [top m] w4 Hw4. cbv beta iota.
  destruct (negb _); [by apply wp_throw|]. destruct (set_stall_probability _ _) as [r f].
  eapply wp_seq; [by apply wp_lifted|]. intros u w5 Hw5.
  eapply wp_seq; [by apply wp_lifted|]. intros [m' writer] w6 Hw6. cbv beta iota.
  wp_step. wp_step. cbv beta. by apply wp_ret.
Qed.

(** C14: a run leaves the terminals as it has found them.  However the program
    ends (by the guest's exit, a time-out, an interrupt, a protocol violation or
    an error before the simulation starts), every terminal has the attributes
    it had, provided each has been made raw through one descriptor only; without
    a run nothing is touched.  A target's own devices may open files through the
    host services and do nothing else to the host. *)
Theorem terminals_are_restored program args signals system :
  (forall registry registry', registry_only_opens registry ->
     register_devices registry = Ok registry' -> registry_only_opens registry') ->
  let system' := (main program args signals system).2.1 in
  match prepare_run args with
  | Ok (registry, options, spec) =>
      if help options then system' = system
      else
        let host := (run_world args options registry spec (interrupted_by options signals)
                       (fresh_host system, empty_console)).2.1 in
        system' = close_host host /\
        (one_descriptor host -> forall tty, attributes tty system' = attributes tty system)
  | Throw _ => system' = system
  end.
Proof.
  intros Htarget. unfold main, run_program, bind, lift.
  destruct (prepare_run args) as [ [ [registry options] spec]|e] eqn:E; [|done].
  destruct (help options); [done|]. unfold run_simulation. cbv zeta.
  assert (registry_only_opens registry) as Hr.
  { unfold prepare_run in E. destruct (register_builtin_devices ∅) as [registry0|] eqn:E0; [|done].
    cbn [rbind] in E. destruct (register_devices registry0) as [registry1|] eqn:E1; [|done]. cbn [rbind] in E.
    destruct (platform_defaults default_memory); [|done]. cbn [rbind] in E.
    destruct (parse_options _ _ _) as [ [? ?]|]; [|done]. injection E as <- _ _.
    eapply Htarget; [|exact E1]. eapply builtin_only_opens; [|exact E0].
    apply (map_Forall_empty (M := gmap string)). }
  pose proof (run_world_ok args options registry spec (interrupted_by options signals) system
    (fresh_host system, empty_console) Hr (fresh_host_ok system)) as Hok.
  destruct (run_world args options registry spec _ _) as [r [host out] ]. cbn in Hok |- *.
  split; [done|]. intros Hone tty. by apply close_host_restores.
Qed.
End Program.
