(* ===== verification/SimTrace.v ===== *)
(** * The trace of a run

    A trace has one sample per evaluation of the model, at consecutive times,
    and is closed however the main loop is left. *)
From S2P Require Import Prelude Text Console Axi Device Memory Uart Interrupts Heap Host Fabric.
From S2P Require Import Elf Platform PlatformInstance Packed Binding.
From S2P Require Import CommandLine ImageFiles Statistics Sim SimTheorems.

Section Trace.
Context {fabric : FabricConfig} {binding : BindingConfig} `{!HostSystem}.
Context {B Pins : Type} `{!UartBackend B, !UartStreams B, !HostLibrary, !TargetConfig B}.
Context {model : VerilatedModel Pins} {sideband : SidebandBinding B Pins}.
Implicit Types (s : Simulation) (options : Options).

(** The clock of a [VerilatedContext]: it starts at 0 and only [timeInc] moves
    it. *)
Class TimeLaws : Prop := {
  construct_time args n top m : construct args n = Ok (top, m) -> context_time m = 0;
  trace_on_time m : context_time (trace_ever_on m) = context_time m;
  eval_time t tm : context_time (eval t tm).2 = context_time tm.2;
  time_inc_time m : context_time (time_inc m) = u64 (context_time m + 1)
}.
Context {laws : TimeLaws}.

(** What is dumped: the model after each evaluation. *)
Definition Sample : Type := Members Pins * Model.
Definition record_samples (samples : list Sample) (w : TraceWriter) : TraceWriter :=
  foldl (fun w '(time, sample) => dump sample time w) w (imap (fun i sample => (u64 (Z.of_nat i), sample)) samples).

Definition evaluated (samples : list Sample) : Prop :=
  forall i sample, samples !! i = Some sample ->
    exists before, sample = eval (sc_time_stamp (u64 (Z.of_nat i))) before.

(** The trace and the clocks when [samples] have been dumped. *)
Definition tape s : option TraceWriter * Model * Z := (sim_trace s, sim_model s, simulation_time s).
Definition taped (w : option TraceWriter) (samples : list Sample) (t : option TraceWriter * Model * Z) : Prop :=
  evaluated samples /\
  t.1.1 = record_samples samples <$> w /\ context_time t.1.2 = u64 (Z.of_nat (length samples)) /\
  t.2 = u64 (Z.of_nat (length samples)).

Lemma record_samples_snoc samples sample w :
  record_samples (samples ++ [sample]) w = dump sample (u64 (Z.of_nat (length samples))) (record_samples samples w).
Proof. unfold record_samples. rewrite imap_app, foldl_app. cbn. by rewrite Nat.add_0_r. Qed.

Lemma u64_succ (n : nat) : u64 (u64 (Z.of_nat n) + 1) = u64 (Z.of_nat (S n)).
Proof. unfold u64, wrap. rewrite Z.add_mod_idemp_l by lia. f_equal. lia. Qed.

Lemma evaluate_taped w samples s :
  taped w samples (tape s) -> exists sample, taped w (samples ++ [sample]) (tape (evaluate s).2).
Proof.
  intros (He & Ht & Hc & Hn). cbn in Ht, Hc, Hn. unfold evaluate, modify. cbn [snd].
  pose proof (eval_time (sc_time_stamp (simulation_time s)) (sim_top s, sim_model s)) as Hev.
  destruct (eval _ _) as [top m] eqn:E. cbn in Hev. exists (top, m). unfold taped, tape. cbn.
  rewrite length_app, Nat.add_comm. cbn [length plus]. split_and!.
  - intros i sample. rewrite lookup_snoc_Some. intros [[_ Hi]|[-> <-] ]; [by apply He|].
    rewrite <- E, Hn. by eexists.
  - rewrite Ht, Hev, Hc. destruct w as [w|]; [|done]. cbn. by rewrite record_samples_snoc.
  - by rewrite time_inc_time, Hev, Hc, u64_succ.
  - by rewrite Hn, u64_succ.
Qed.

Lemma tape_on_fabric {A} (op : M (Fabric (Heap B)) A) s : tape (on_fabric op s).2 = tape s.
Proof. unfold on_fabric. by destruct (op _). Qed.

Lemma tape_on_signals op s : tape (on_signals op s).2 = tape s.
Proof. unfold on_signals. by destruct (op _). Qed.

(** Between [least] and [most] samples more than [n]. *)
Definition dumped (w : option TraceWriter) (least most : Z) s : Prop :=
  exists samples, least <= Z.of_nat (length samples) <= most /\ taped w samples (tape s).

Lemma dumped_weaken w least most least' most' s :
  dumped w least most s -> least' <= least -> most <= most' -> dumped w least' most' s.
Proof. intros (samples & Hn & Ht) ??. exists samples. split; [lia | done]. Qed.

Ltac keep_tape := eapply (wp_kept tape); [eassumption | | | cbv beta; intros ? ? ?].

(** Evaluation after steps that have kept the tape. *)
Lemma wp_taped {A} (k : unit -> M Simulation A) w samples Q E s t :
  tape s = t -> taped w samples t ->
  (forall sample t' s', tape s' = t' -> taped w (samples ++ [sample]) t' -> wp (k tt) Q E s') ->
  wp (bind evaluate k) Q E s.
Proof.
  intros <- Ht Hk. destruct (evaluate_taped w samples s Ht) as [sample Ht'].
  change (wp (k tt) Q E (evaluate s).2). by eapply Hk.
Qed.

Lemma taped_dumped w samples s t least most :
  tape s = t -> taped w samples t -> least <= Z.of_nat (length samples) <= most -> dumped w least most s.
Proof. intros <- Ht Hn. by exists samples. Qed.

Ltac dumps := solve [intros; eapply taped_dumped; [eassumption | eassumption | rewrite ?length_app; cbn; lia] ].

Lemma low_phase_taped w n reset s :
  dumped w n n s ->
  wp (low_phase reset) (fun _ => dumped w (n + 1) (n + 1)) (fun _ => dumped w n n) s.
Proof.
  intros (samples & Hn & Ht). pose proof (eq_refl (tape s)) as Hs. unfold low_phase.
  do 3 (keep_tape; [done | dumps|]). keep_tape; [apply tape_on_fabric | dumps|].
  keep_tape; [apply tape_on_signals | dumps|].
  eapply wp_taped; [eassumption.. | intros sample t' s1 Hs1 Ht1]. apply wp_ret. dumps.
Qed.

Lemma high_phase_taped w n options reset responses s :
  dumped w n n s ->
  wp (high_phase options reset responses) (fun _ => dumped w (n + 1) (n + 1)) (fun _ => dumped w n (n + 1)) s.
Proof.
  intros (samples & Hn & Ht). pose proof (eq_refl (tape s)) as Hs. unfold high_phase.
  do 4 (keep_tape; [done | dumps|]).
  eapply wp_taped; [eassumption.. | intros sample t' s1 Hs1 Ht1].
  keep_tape; [apply tape_on_fabric | dumps|]. do 2 (keep_tape; [done | dumps|]).
  destruct reset; cbn [negb]; [apply wp_ret; dumps | apply wp_modify; dumps].
Qed.

(** Two samples per cycle. *)
Lemma simulate_cycle_taped w n options s :
  dumped w n n s ->
  wp (simulate_cycle options) (fun _ => dumped w (n + 2) (n + 2)) (fun _ => dumped w n (n + 2)) s.
Proof.
  intros Hd. unfold simulate_cycle. wp_step. wp_step. cbv beta.
  eapply wp_seq.
  { eapply wp_mono; [by apply low_phase_taped | intros a s' H'; exact H' |].
    intros e s' H'. eapply dumped_weaken; [exact H' | lia..]. }
  intros outs s1 H1. cbv beta in *. eapply wp_seq.
  { eapply wp_mono; [by apply high_phase_taped | intros a s' H'; exact H' |].
    intros e s' H'. eapply dumped_weaken; [exact H' | lia..]. }
  intros ? s2 H2. cbv beta in *. replace (n + 1 + 1) with (n + 2) in H2 by lia.
  wp_step. wp_step. cbv beta. destruct (exit_completed_ _); [|by wp_steps].
  unfold print_statistics, report. wp_steps. exact H2.
Qed.

(** ** The loop *)
Definition closed w (least most : Z) s : Prop :=
  exists samples, least <= Z.of_nat (length samples) <= most /\ evaluated samples /\
    sim_trace s = (fun w => close (record_samples samples w)) <$> w.

Lemma finalize_closes w least most s : dumped w least most s -> closed w least most (finalize s).2.
Proof.
  intros (samples & Hn & He & Ht & _). destruct (finalize_spec s) as (t & m & _ & ->). exists samples.
  split; [exact Hn|]. split; [exact He|]. cbn in *. rewrite Ht. by destruct w.
Qed.

Lemma simulate_taped w options interrupted fuel looks s :
  options_ok options -> counters_ok options s ->
  dumped w (2 * total_cycles s) (2 * total_cycles s) s ->
  wp (simulate fuel looks options interrupted)
    (fun ended s' => ended <> OutOfFuel -> closed w (2 * total_cycles s') (2 * total_cycles s') s')
    (fun _ s' => dumped w (2 * total_cycles s') (2 * total_cycles s' + 2) s') s.
Proof.
  intros Ho.
  assert (forall (ended : LoopEnd) s (E : exn -> Simulation -> Prop), dumped w (2 * total_cycles s) (2 * total_cycles s) s ->
    wp (finalize ;;; ret ended)
      (fun ended s' => ended <> OutOfFuel -> closed w (2 * total_cycles s') (2 * total_cycles s') s') E s) as Hend.
  { intros ended s' E Hd. pose proof (finalize_closes _ _ _ _ Hd) as Hc. pose proof (counts_finalize s') as Hn.
    destruct (finalize_spec s') as (t & m & _ & Hrun). unfold wp, bind. rewrite Hrun in *. intros _. exact Hc. }
  revert looks s. induction fuel as [|fuel IH]; intros looks s Hc Hd; cbn [simulate];
    wp_step; wp_step; cbv beta;
    (destruct (Z.ltb_spec (active_cycles s) (max_cycles options)); [|by apply Hend]);
    (destruct (interrupted looks =? 0); [|by apply Hend]); (destruct (negb _); [|by apply Hend]).
  - by apply wp_ret.
  - eapply wp_seq.
    { eapply wp_mono; [apply wp_and; [apply simulate_cycle_counts | by apply simulate_cycle_taped]
                      | intros a s' H'; exact H' |].
      intros e s' [Hs Hd']. injection Hs as Ha Ht _. by rewrite Ht. }
    intros ended s' [(Hca & Hct & _) Hd']. cbv beta in *.
    destruct (counters_step options s s') as [Hc' Ht']; [done..|].
    replace (2 * total_cycles s + 2) with (2 * total_cycles s') in Hd' by lia.
    destruct ended as [status|]; [by apply Hend | by apply IH].
Qed.

Lemma start_trace_spec options top m m' w :
  start_trace options top m = Ok (m', w) ->
  context_time m' = context_time m /\
  match (if TRACE_ENABLED then trace options else None) with
  | Some path => exists m0, w = Some (open_trace path (top, m0)) /\ is_open (open_trace path (top, m0)) = true
  | None => w = None
  end.
Proof.
  unfold start_trace. destruct (if TRACE_ENABLED then _ else _) as [path|]; [|by intros [= <- <-] ].
  destruct (is_open _) eqn:E; [|done]. intros [= <- <-]. split; [apply trace_on_time|]. by exists (trace_ever_on m).
Qed.

(** A simulation starts with an open trace if one is asked for, and no sample. *)
Lemma start_simulation_tape args options registry spec world s w :
  start_simulation args options registry spec world = (Ok s, w) ->
  fresh_counters s /\ dumped (sim_trace s) 0 0 s /\
  match (if TRACE_ENABLED then trace options else None) with
  | Some path => exists tm, sim_trace s = Some (open_trace path tm) /\ is_open (open_trace path tm) = true
  | None => sim_trace s = None
  end.
Proof.
  intros Hst. unfold start_simulation in Hst. returned Hst as p w1 Ep. lifted Hst as bound Eb.
  returned Hst as p' w2 El. lifted Hst as [top m] Ec. destruct (negb _); [done|].
  destruct (set_stall_probability _ _) as [r f]. lifted Hst as u Er.
  lifted Hst as [m' writer] Et. injection Hst as <- _.
  destruct (start_trace_spec _ _ _ _ _ Et) as [Htime Hw]. rewrite (construct_time _ _ _ _ Ec) in Htime.
  split; [done|]. split.
  - exists []. split; [done|]. split; [done|]. cbn. split_and!; [by destruct writer | exact Htime | done].
  - cbn [sim_trace]. destruct (if TRACE_ENABLED then _ else _) as [path|]; [|done].
    destruct Hw as (m0 & ? & ?). by exists (top, m0).
Qed.

(** C13: a trace has every evaluation of the run, and is closed.  A run writes a
    trace exactly if its options name a file and traces are built in.  However
    the main loop is left, by an exit status or by an exception, the trace has
    been opened, given the model after every evaluation, at the times 0, 1, 2
    and so on, two for every cycle, and then closed. *)
Theorem trace_has_every_evaluation args options registry spec world s0 w interrupted r s' :
  options_ok options -> start_simulation args options registry spec world = (Ok s0, w) ->
  run_loop options interrupted s0 = (r, s') ->
  match (if TRACE_ENABLED then trace options else None) with
  | Some path =>
      exists tm samples,
        is_open (open_trace path tm) = true /\
        sim_trace s' = Some (close (record_samples samples (open_trace path tm))) /\ evaluated samples /\
        2 * total_cycles s' <= Z.of_nat (length samples) /\
        match r with
        | Ok _ => Z.of_nat (length samples) = 2 * total_cycles s'
        | Throw _ => Z.of_nat (length samples) <= 2 * total_cycles s' + 2
        end
  | None => sim_trace s' = None
  end.
Proof.
  intros Ho Hs Hrun. destruct (start_simulation_tape _ _ _ _ _ _ _ Hs) as (Hc & Hd & Hw).
  pose proof (loop_spec options interrupted s0 Ho Hc) as Hl.
  assert (counters_ok options s0) as Hc0.
  { destruct Hc, Ho as (Hr & Hm & _). unfold fits in *. split; lia. }
  pose proof (simulate_taped (sim_trace s0) options interrupted (loop_fuel options) 0 s0 Ho Hc0) as Ht.
  rewrite (proj2 Hc) in Ht. specialize (Ht Hd).
  assert (closed (sim_trace s0) (2 * total_cycles s')
            (match r with Ok _ => 2 * total_cycles s' | Throw _ => 2 * total_cycles s' + 2 end) s') as Hclosed.
  { unfold run_loop, bind, wp in *. unfold finalize_on_error in *.
    destruct (simulate _ _ _ _ s0) as [[ended|e] s1].
    - destruct Hl as [_ Hl]. destruct ended as [status|looks|]; [| | done]; specialize (Ht ltac:(done)).
      + by injection Hrun as <- <-.
      + rewrite end_run_spec in Hrun. by injection Hrun as <- <-.
    - pose proof (finalize_closes _ _ _ _ Ht) as Hf. pose proof (counts_finalize s1) as Hn.
      unfold bind in Hrun. destruct (finalize_spec s1) as (t & m & _ & E). rewrite E in *. cbn in Hrun.
      by injection Hrun as <- <-. }
  destruct Hclosed as (samples & Hn & He & Htr).
  destruct (if TRACE_ENABLED then _ else _) as [path|]; [|by rewrite Htr, Hw].
  destruct Hw as (tm & Hw & Hop). exists tm, samples. rewrite Htr, Hw.
  split_and!; [done | done | done | lia | destruct r; lia].
Qed.
End Trace.
