(* ===== verification/SimSafety.v ===== *)
(** * The main loop: safety

    The parts of the simulator composed: the signals the binding samples meet
    what the fabric assumes, the beats the fabric drives meet what the binding
    assumes, and the device accesses of the fabric are steps of the platform.
    So a run fails only for a protocol violation of the design, and every
    cycle starts and ends with settled interrupt lines. *)
From S2P Require Import Prelude Text Console RingBuffer Axi Device Memory Uart Interrupts Heap Host.
From S2P Require Import Fabric.
From S2P Require Import FabricSpec FabricPorts FabricInv FabricCommit FabricTheorems FabricRuns FabricData.
From S2P Require Import Elf ElfPlan Platform PlatformInstance PlatformTheorems PlatformCycles ElfHeap.
From S2P Require Import Packed Binding CommandLine ImageFiles Statistics Sim SimTheorems.

(** ** The windows of a platform *)
Lemma map_windows_wf instances bits specs sp sp' :
  space_wf sp -> Forall mapping_fits specs -> map_windows instances bits specs sp = Ok sp' ->
  space_wf sp'.
Proof.
  intros Hsp Hf. revert sp Hsp. induction Hf as [|m specs [Hb Hs] _ IH]; intros sp Hsp; cbn [map_windows].
  { by intros [= <-]. }
  destruct (negb _); [|done]. destruct (platform_device _ _) as [d|]; [|done]. cbn [rbind].
  pose proof (space_map_spec sp (mapping_base m) (mapping_size m) d (mapping_device m) Hsp Hb Hs) as Hm.
  cbv zeta in Hm. destruct (space_map _ _ _ _ _) as [sp1|]; [|done]. cbn [rbind]. apply IH, Hm.
Qed.

Section Space.
Context `{!HostSystem} {B : Type} `{!UartBackend B, !UartStreams B}.

Lemma build_platform_space (registry : DeviceRegistry B) spec bits host p host' :
  Forall mapping_fits (mappings spec) -> build_platform registry spec bits host = (Ok p, host') ->
  space_wf (address_space_ p).
Proof.
  intros Hf Hb. destruct (build_platform_parts _ _ _ _ _ _ Hb)
    as [_ (configs & h & instances & space & images & h' & order & _ & _ & Em & _ & _ & ->)].
  eapply map_windows_wf in Em; [exact Em | | done]. split; constructor.
Qed.
End Space.

Section Safety.
Context {fabric : FabricConfig} {binding : BindingConfig} `{!HostSystem}.
Context `{!FabricConfigOk fabric, !BindingConfigOk fabric binding}.
Context {B Pins : Type} `{!UartBackend B, !UartStreams B, !HostLibrary, !TargetConfig B}.
Context {model : VerilatedModel Pins} {sideband : SidebandBinding B Pins}.
Implicit Types (s : Simulation) (options : Options) (p : Platform B).

(** The types of a Verilated model: construction and evaluation keep the widths
    of its members.  On a 64-bit bus, its requests avoid the last page. *)
Class ModelLaws : Prop := {
  construct_wf args n top m : construct args n = Ok (top, m) -> top_wf (axi top);
  eval_wf t top m : top_wf (axi top) -> top_wf (axi (eval t (top, m)).1);
  eval_range t top m masters :
    sample (axi (eval t (top, m)).1) = Ok masters -> below_last_page masters
}.
Context {laws : ModelLaws}.

(** ** The invariant at the head of the loop *)
Record sim_ok s : Prop := {
  so_fabric : fabric_wf (shared_fabric s);
  so_sized : sized (view (shared_fabric s));
  so_resets : reset_devices_ (sim_fabric s) = false;
  so_top : top_wf (axi (sim_top s));
  so_platform : platform_ok (sim_platform s)
}.
Definition sim_settled s : Prop := settled (heap_ (sim_platform s)).

(** The one error of a cycle: a violation the design is responsible for. *)
Definition protocol_failure (e : exn) (_ : Simulation) : Prop :=
  exists ctx why, e = ProtocolError (Some ctx) why /\ why ∈ protocol_details /\
    (ec_port ctx < NumPorts)%nat.

Lemma fabric_wf_heap (f : Fabric (Heap B)) h : fabric_wf f -> fabric_wf (f <| f_heap := h |>).
Proof.
  intros [Hsp Hs Hv]. constructor; [done | by destruct Hs; constructor|].
  by apply (rings_wf _ (view f)); try apply Hv.
Qed.

(** Steps that touch neither the fabric nor the platform. *)
Record keeps s s' : Prop := {
  kp_fabric : sim_fabric s' = sim_fabric s;
  kp_platform : sim_platform s' = sim_platform s;
  kp_statistics : sim_statistics s' = sim_statistics s;
  kp_bound : sim_bound s' = sim_bound s;
  kp_top : top_wf (axi (sim_top s'))
}.

Lemma keeps_shared s s' : keeps s s' -> shared_fabric s' = shared_fabric s.
Proof. intros [Hf Hp _ _ _]. unfold shared_fabric. by rewrite Hf, Hp. Qed.

Lemma keeps_ok s s' : sim_ok s -> keeps s s' -> sim_ok s'.
Proof.
  intros [] Hk. pose proof (keeps_shared s s' Hk) as Hs. destruct Hk as [Hf Hp _ _ Ht].
  constructor; by rewrite ?Hs, ?Hf, ?Hp.
Qed.

(** A new platform state with the same windows, queues and wiring. *)
Lemma platform_change_ok s p :
  sim_ok s -> platform_ok p -> sim_ok (s <| sim_platform := p |>).
Proof.
  intros [] Hp. constructor; try done.
  - by apply (fabric_wf_heap (shared_fabric s)).
Qed.

(** ** The platform's part of a cycle *)
Lemma begin_cycle_ok reset p :
  platform_ok p -> settled (heap_ p) ->
  platform_ok (begin_cycle reset p) /\ settled (heap_ (begin_cycle reset p)).
Proof.
  intros Hp Hs. split; [by eapply platform_step_ok; [|apply step_begin]|].
  unfold begin_cycle. destruct (reset && negb (was_reset_ p)); [|done].
  apply platform_settle_settled, (platform_ok_wiring p); [done | done|].
  apply foldl_wiring, reset_keeps.
Qed.

Lemma end_cycle_ok reset p :
  platform_ok p -> (reset = true -> settled (heap_ p)) ->
  platform_ok (PlatformInstance.end_cycle reset p) /\
  settled (heap_ (PlatformInstance.end_cycle reset p)).
Proof.
  intros Hp Hs. split; [by eapply platform_step_ok; [|apply step_end]|].
  unfold PlatformInstance.end_cycle. destruct reset; cbn [negb]; [by apply Hs|].
  apply platform_settle_settled, (platform_ok_wiring p); [done | done|].
  apply foldl_wiring, tick_keeps.
Qed.

(** A device access of the fabric is a step of the platform. *)
Lemma access_ok sp p h' :
  platform_ok p -> h' = heap_ p \/ window_access sp (heap_ p) h' -> platform_ok (p <| heap_ := h' |>).
Proof.
  intros Hp [->|(m & off & data & lanes & _ & _ & [-> | ->])].
  - by destruct p.
  - apply (platform_step_ok p); [done | apply (step_read (map_device m))].
  - apply (platform_step_ok p); [done | apply (step_write (map_device m))].
Qed.

(** ** The fabric's part *)

(** After [drive]: the outputs the DUT sees are those of the fabric. *)
Record fabric_driven s (outs : list SlaveSignals) : Prop := {
  fd_ok : sim_ok s;
  fd_driven : FabricPorts.driven (shared_fabric s);
  fd_outputs : outputs_ (sim_fabric s) = outs;
  fd_wide : forall port, (port < NumPorts)%nat -> slave_wf (outs !!! port)
}.

Lemma drive_ok reset s :
  sim_ok s ->
  wp (on_fabric (drive reset))
    (fun outs s' => fabric_driven s' outs /\ exists rs,
       s' = s <| sim_fabric := shared_fabric s <| random_state_ := rs |> <| outputs_ := outs |> |>)
    protocol_failure s.
Proof.
  intros [Hf Hz Hr Ht Hp]. apply wp_on_fabric.
  pose proof (drive_spec (shared_fabric s) reset (fw_shape _ Hf)) as Hd.
  pose proof (drive_wide (shared_fabric s) reset) as Hw. unfold wp in *.
  destruct (drive reset (shared_fabric s)) as [[outs|e] f']; [|done].
  specialize (Hw outs f' Hf Hz eq_refl). destruct Hd as (Hout & Hdr & Hs & [rs Heq] & _).
  assert (shared_fabric (with_fabric f' s) = f') as Hshared by by destruct f'.
  assert (f_heap f' = heap_ (sim_platform s)) as Hh by by rewrite Heq.
  assert (fabric_wf f') as Hf'.
  { destruct Hf as [Hsp _ Hv]. constructor; [by rewrite Heq | done | by rewrite Heq]. }
  split; [split; [constructor | by rewrite Hshared | done | done]|].
  - by rewrite Hshared.
  - rewrite Hshared, Heq. exact Hz.
  - by rewrite Heq.
  - done.
  - unfold with_fabric. rewrite Hh. by destruct s as [ [] ].
  - exists rs. rewrite Heq. by destruct s as [ [] ].
Qed.

(** What [commit] does to the queues: a reset empties them or finds them
    emptied; otherwise the handshakes of the cycle and transitions of the
    abstract fabric. *)
Definition committed (reset : bool) (outs : list SlaveSignals) (sampled : list MasterSignals)
    (sp : AddressSpace) (v v' : View (Heap B)) : Prop :=
  if reset then v' = v \/ v' = empty_view (v_heap v)
  else exists es, steps sp v es v' /\ filter (fun e => external e) es = cycle_events outs sampled /\
         (v_heap v' = v_heap v \/ window_access sp (v_heap v) (v_heap v')).

Lemma commit_ok reset sampled s outs :
  fabric_driven s outs -> inputs_wf sampled -> (reset = true -> sim_settled s) ->
  wp (on_fabric (commit sampled reset))
    (fun _ s' => sim_ok s' /\ (reset = true -> sim_settled s') /\
       Fabric.address_space_ (sim_fabric s') = Fabric.address_space_ (sim_fabric s) /\
       sim_platform s' = sim_platform s <| heap_ := v_heap (view (shared_fabric s')) |> /\
       committed reset outs sampled (Fabric.address_space_ (sim_fabric s))
         (view (shared_fabric s)) (view (shared_fabric s')))
    protocol_failure s.
Proof.
  intros [[Hf Hz Hr Ht Hp] Hd Hout _] Hin Hset. apply wp_on_fabric.
  assert (forall f', shared_fabric (with_fabric f' s) = f') as Hshared by by intros [].
  assert (forall f', fabric_wf f' -> sized (view f') -> reset_devices_ f' = false ->
    platform_ok (sim_platform s <| heap_ := f_heap f' |>) -> sim_ok (with_fabric f' s)) as Hok.
  { intros f' Hf' Hz' Hr' Hp'. constructor; by rewrite ?Hshared. }
  unfold committed. destruct reset.
  - destruct (commit_reset_spec sampled (shared_fabric s) Hf) as (f' & E & Hf' & _ & _ & Ha & Hr' & Hv).
    change (reset_devices_ (shared_fabric s)) with (reset_devices_ (sim_fabric s)) in *.
    rewrite Hr in *. unfold wp. rewrite E.
    assert (f_heap f' = heap_ (sim_platform s) /\ sized (view f')) as [Hh Hz'].
    { destruct (Fabric.was_reset_ _).
      - split; [apply (f_equal (@v_heap _)) in Hv; exact Hv | by rewrite Hv].
      - destruct Hv as [_ Hv]. split; [apply (f_equal (@v_heap _)) in Hv; exact Hv|].
        rewrite Hv. by apply Forall_replicate. }
    split_and!; [apply Hok; [done.. | by rewrite Hh; destruct (sim_platform s)] | | exact Ha | |].
    + intros _. unfold sim_settled, with_fabric. cbn. rewrite Hh. by apply Hset.
    + by rewrite Hshared.
    + rewrite Hshared. destruct (Fabric.was_reset_ _); [by left | right; apply Hv].
  - pose proof (commit_active_spec (shared_fabric s) sampled Hf Hd Hin) as Hc. unfold wp in *.
    change (outputs_ (shared_fabric s)) with (outputs_ (sim_fabric s)) in Hc. rewrite Hout in Hc.
    destruct (commit sampled false (shared_fabric s)) as [[[]|e] f'].
    + destruct Hc as [es [Hf' Ha _ Hst He Hacc _ Hr']].
      pose proof (steps_access _ _ _ _ (fw_view _ Hf) Hst Hacc) as Hwin.
      split_and!; [|done | exact Ha | by rewrite Hshared |].
      * apply Hok; [done | by eapply steps_sized; [apply Hf | | ] | rewrite Hr'; exact Hr|].
        eapply access_ok; [done|]. exact Hwin.
      * rewrite Hshared. by exists es.
    + destruct Hc as [(ctx & why & -> & Hw & _ & Hport) _]. by exists ctx, why.
Qed.

(** ** The cycle *)
Lemma wp_modify_to {A} (g : Simulation -> Simulation) (k : unit -> M Simulation A) Q E s :
  wp (k tt) Q E (g s) -> wp (bind (modify g) k) Q E s.
Proof. done. Qed.

Lemma evaluate_keeps s s' : keeps s s' -> keeps s (evaluate s').2.
Proof.
  intros [Hf Hp Hst Hb Ht]. unfold evaluate, modify. cbn [snd].
  pose proof (eval_wf (sc_time_stamp (simulation_time s')) (sim_top s') (sim_model s') Ht) as Hw.
  destruct (eval _ _) as [top m]. by constructor.
Qed.

Lemma wp_evaluate {A} (k : unit -> M Simulation A) Q E s s' :
  keeps s s' -> (forall s'', keeps s s'' -> wp (k tt) Q E s'') -> wp (bind evaluate k) Q E s'.
Proof.
  intros Hk Hn. pose proof (evaluate_keeps s s' Hk) as Hk'.
  change (wp (k tt) Q E (evaluate s').2). by apply Hn.
Qed.

(** The low phase: the model is evaluated with the sideband pins of the platform
    and the outputs of the fabric. *)
Record lowered (reset : bool) s (outs : list SlaveSignals) s1 : Prop := {
  lw_driven : fabric_driven s1 outs;
  lw_settled : sim_settled s1;
  lw_platform : sim_platform s1 = begin_cycle reset (sim_platform s);
  lw_view : view (shared_fabric s1)
              = view (shared_fabric s) <| v_heap := heap_ (begin_cycle reset (sim_platform s)) |>;
  lw_space : Fabric.address_space_ (sim_fabric s1) = Fabric.address_space_ (sim_fabric s);
  lw_statistics : sim_statistics s1 = sim_statistics s;
  lw_bound : sim_bound s1 = sim_bound s;
  lw_eval : exists top,
    sim_top s1 = (eval (sc_time_stamp (simulation_time s)) (top, sim_model s)).1 /\
    pins top = drive_sideband (sim_bound s) (heap_ (begin_cycle reset (sim_platform s))) (pins (sim_top s)) /\
    clk top = 0 /\ aresetn top = (if reset then 0 else 1) /\
    exists axi0, drive_top outs axi0 = (Ok tt, axi top)
}.

Lemma low_phase_ok reset s :
  sim_ok s -> sim_settled s -> wp (low_phase reset) (lowered reset s) protocol_failure s.
Proof.
  intros Hok Hset. unfold low_phase.
  destruct (begin_cycle_ok reset (sim_platform s) (so_platform s Hok) Hset) as [Hb Hbs].
  pose proof (platform_change_ok s _ Hok Hb) as Hok1.
  apply wp_modify_to, wp_modify_to, wp_modify_to.
  match goal with |- wp _ _ _ ?st => set (s1 := st) end.
  assert (sim_ok s1) as Hok2.
  { eapply keeps_ok; [exact Hok1|]. constructor; [done.. | apply (so_top s Hok)]. }
  eapply wp_seq; [by apply drive_ok|]. intros outs s2 [Hd [rs Hs2] ]. cbv beta.
  eapply (wp_seq _ _ (fun _ s3 => exists axi0 axi1, drive_top outs axi0 = (Ok tt, axi1) /\ top_wf axi1 /\
    s3 = s2 <| sim_top ::= fun top => top <| axi := axi1 |> |>)).
  { apply wp_on_signals.
    destruct (driven_cycle_spec (axi (sim_top s2)) outs) as (top' & E & Ht' & _);
      [apply Hd | apply Hd|].
    unfold wp. rewrite E. eauto. }
  intros _ s3 (axi0 & axi1 & E & Hw & Hs3). cbv beta.
  assert (keeps s2 s3) as Hk3 by (subst s3; by constructor).
  pose proof (evaluate_keeps s2 s3 Hk3) as Hk4. cut (lowered reset s outs (evaluate s3).2); [done|].
  pose proof (keeps_shared _ _ Hk4) as Hsh. destruct Hd as [Ho Hdr Hout Hwide].
  assert (sim_top (evaluate s3).2 = (eval (sc_time_stamp (simulation_time s)) (sim_top s3, sim_model s)).1) as He.
  { subst s3 s2. unfold evaluate, modify. cbn. by destruct (eval _ _). }
  constructor.
  - constructor; [by eapply keeps_ok | by rewrite Hsh | by rewrite (kp_fabric _ _ Hk4) | done].
  - unfold sim_settled. rewrite (kp_platform _ _ Hk4), Hs2. exact Hbs.
  - by rewrite (kp_platform _ _ Hk4), Hs2.
  - rewrite Hsh, Hs2. unfold shared_fabric. by subst s1.
  - by rewrite (kp_fabric _ _ Hk4), Hs2.
  - by rewrite (kp_statistics _ _ Hk4), Hs2.
  - by rewrite (kp_bound _ _ Hk4), Hs2.
  - exists (sim_top s3). split; [exact He|]. subst s3 s2 s1. split_and!; [done..|]. by exists axi0.
Qed.

(** The high phase: the signals of the model are sampled and committed, then the
    devices tick. *)
Record raised options (reset : bool) (outs : list SlaveSignals) s1 (sampled : list MasterSignals) s2 : Prop := {
  rs_ok : sim_ok s2;
  rs_settled : sim_settled s2;
  rs_sampled : sample (axi (sim_top s1)) = Ok sampled;
  rs_inputs : inputs_wf sampled;
  rs_space : Fabric.address_space_ (sim_fabric s2) = Fabric.address_space_ (sim_fabric s1);
  rs_bound : sim_bound s2 = sim_bound s1;
  rs_statistics : sim_statistics s2
                    = sample_statistics (stats options) sampled outs reset (sim_statistics s1);
  rs_commit : exists v,
    committed reset outs sampled (Fabric.address_space_ (sim_fabric s1)) (view (shared_fabric s1)) v /\
    sim_platform s2 = PlatformInstance.end_cycle reset (sim_platform s1 <| heap_ := v_heap v |>) /\
    view (shared_fabric s2) = v <| v_heap := heap_ (sim_platform s2) |>
}.

Lemma lowered_sample reset s outs s1 :
  lowered reset s outs s1 ->
  exists sampled, sample (axi (sim_top s1)) = Ok sampled /\ inputs_wf sampled.
Proof.
  intros Hl. destruct (sample_spec (axi (sim_top s1)) (so_top _ (fd_ok _ _ (lw_driven _ _ _ _ Hl))))
    as (sampled & E & _ & _ & Hin).
  exists sampled. split; [done|]. apply Hin. destruct (lw_eval _ _ _ _ Hl) as (top & He & _).
  rewrite He in E. by eapply eval_range.
Qed.

(** Statistics and counters play no part in the invariant. *)
Lemma driven_statistics s outs l :
  fabric_driven s outs -> fabric_driven (s <| sim_statistics := l |>) outs.
Proof. intros [ [] ]. by constructor. Qed.

Lemma driven_keeps s s' outs : fabric_driven s outs -> keeps s s' -> fabric_driven s' outs.
Proof.
  intros [Ho Hdr Hout Hw] Hk. constructor; [by eapply keeps_ok | | | done].
  - by rewrite (keeps_shared s s').
  - by rewrite (kp_fabric _ _ Hk).
Qed.

Lemma high_phase_ok options reset s outs s1 :
  lowered reset s outs s1 ->
  wp (high_phase options reset outs) (fun _ s2 => exists sampled, raised options reset outs s1 sampled s2)
    protocol_failure s1.
Proof.
  intros Hl. destruct (lowered_sample _ _ _ _ Hl) as (sampled & E & Hin).
  unfold high_phase. wp_step. wp_step. cbv beta. wp_step. eapply wp_lift_ok; [exact E|]. cbv beta.
  set (stats' := sample_statistics (stats options) sampled outs reset (sim_statistics s1)).
  pose proof (driven_statistics _ _ stats' (lw_driven _ _ _ _ Hl)) as Hd.
  apply wp_modify_to, wp_modify_to.
  apply (wp_evaluate _ _ _ (s1 <| sim_statistics := stats' |>)).
  { constructor; [done.. | apply (so_top s1 (fd_ok _ _ (lw_driven _ _ _ _ Hl)))]. }
  intros s5 Hk5. pose proof (driven_keeps _ _ _ Hd Hk5) as Hd5. pose proof (keeps_shared _ _ Hk5) as Hsh.
  change (shared_fabric (s1 <| sim_statistics := _ |>)) with (shared_fabric s1) in Hsh.
  destruct Hk5 as [Hf5 Hp5 Hst5 Hb5 Ht5]. cbn in Hf5, Hp5, Hst5, Hb5.
  eapply (wp_seq _ _ (fun _ s6 => (sim_ok s6 /\ (reset = true -> sim_settled s6) /\
       Fabric.address_space_ (sim_fabric s6) = Fabric.address_space_ (sim_fabric s5) /\
       sim_platform s6 = sim_platform s5 <| heap_ := v_heap (view (shared_fabric s6)) |> /\
       committed reset outs sampled (Fabric.address_space_ (sim_fabric s5))
         (view (shared_fabric s5)) (view (shared_fabric s6))) /\
       sim_bound s6 = sim_bound s5 /\ sim_statistics s6 = sim_statistics s5)).
  { pose proof (commit_ok reset sampled s5 outs Hd5 Hin) as Hc. unfold wp in *.
    assert (reset = true -> sim_settled s5) as Hset5
      by (intros _; unfold sim_settled; rewrite Hp5; apply (lw_settled _ _ _ _ Hl)).
    specialize (Hc Hset5). unfold on_fabric in *. destruct (commit _ _ _) as [ [u|e] f]; [|done]. done. }
  intros _ s6 ((Hok6 & Hset6 & Hsp6 & Hp6 & Hc6) & Hb6 & Hst6). cbv beta. rewrite Hsh, Hf5 in Hc6.
  destruct (end_cycle_ok reset (sim_platform s6) (so_platform s6 Hok6) Hset6) as [He Hes].
  pose proof (platform_change_ok s6 _ Hok6 He) as Hok7. apply wp_modify_to, wp_modify_to.
  match goal with |- wp _ _ _ ?st => set (s7 := st) end.
  assert (raised options reset outs s1 sampled s7) as Hr.
  { constructor; cbn; [ | exact Hes | exact E | exact Hin | by rewrite Hsp6, Hf5 | by rewrite Hb6, Hb5
                      | by rewrite Hst6, Hst5 |].
    - eapply keeps_ok; [exact Hok7|]. constructor; [done.. | apply (so_top s6 Hok6)].
    - exists (view (shared_fabric s6)). split; [done|]. split; [|done].
      rewrite Hp6 at 1. by rewrite Hp5. }
  clearbody s7. clear -Hr. destruct reset; cbn [negb]; [by apply wp_ret; exists sampled|]. apply wp_modify. exists sampled. destruct Hr as [ [] ]. by constructor.
Qed.

Lemma simulate_cycle_ok options s :
  sim_ok s -> sim_settled s ->
  wp (simulate_cycle options) (fun _ s' => sim_ok s' /\ sim_settled s') protocol_failure s.
Proof.
  intros Hok Hset. unfold simulate_cycle. wp_step. wp_step. cbv beta.
  eapply wp_seq; [by apply low_phase_ok|]. intros outs s1 Hl. cbv beta.
  eapply wp_seq; [by eapply high_phase_ok|]. intros ? s2 (sampled & Hr). cbv beta.
  wp_step. wp_step. cbv beta. destruct Hr as [Ho Hs _ _ _ _ _ _].
  destruct (exit_completed_ (sim_fabric s2)); [|by wp_steps].
  unfold print_statistics, report. wp_steps. split; [|exact Hs].
  eapply keeps_ok; [exact Ho|]. constructor; [done.. | apply (so_top s2 Ho)].
Qed.

(** ** The loop *)
Lemma simulate_ok options interrupted fuel looks s :
  sim_ok s -> sim_settled s ->
  wp (simulate fuel looks options interrupted) (fun _ => sim_settled) protocol_failure s.
Proof.
  assert (forall (ended : LoopEnd) s, sim_settled s ->
    wp (finalize ;;; ret ended) (fun _ => sim_settled) protocol_failure s) as Hend.
  { intros ended s' Hs'. destruct (finalize_spec s') as (t & m & _ & Hrun). unfold wp, bind.
    by rewrite Hrun. }
  revert looks s. induction fuel as [|fuel IH]; intros looks s Hok Hs; cbn [simulate];
    wp_step; wp_step; cbv beta; (destruct (_ <? _); [|by apply Hend]);
    (destruct (interrupted looks =? 0); [|by apply Hend]);
    (destruct (negb _); [|by apply Hend]).
  - by apply wp_ret.
  - eapply wp_seq; [by apply simulate_cycle_ok|]. intros [status|] s' [Hok' Hs']; [by apply Hend | by apply IH].
Qed.

(** ** The state the loop starts in *)

(** The chunks the images of a run are planned as, and the text printed. *)
Definition planned options p (out : Console) (chunks : list Chunk) (out' : Console) : Prop :=
  plan_images (address_space_ p) options (images_ p) (heap_ p) ([], out) = (Ok tt, (chunks, out')).

Lemma load_platform_parts options p host out p' w :
  load_platform options p (host, out) = (Ok p', w) ->
  exists chunks out' h, planned options p out chunks out' /\
    Elf.apply (address_space_ p) chunks (heap_ p) = (Ok tt, h) /\
    p' = p <| heap_ := h |> /\ w = (host, out').
Proof.
  unfold load_platform, load_images, planned.
  destruct (plan_images _ _ _ _ _) as [ [ []|e] [chunks out'] ]; [|done].
  destruct (Elf.apply (address_space_ p) chunks (heap_ p)) as [ [ []|e] h] eqn:Ea; [|done].
  intros [= <- <-]. by exists chunks, out', h.
Qed.

Lemma fabric_init_ok (h : Heap B) space seed stall (f : Fabric (Heap B)) (u : unit) :
  space_wf space ->
  set_stall_probability stall (set_seed seed (fabric_init h space false)) = (Ok u, f) ->
  fabric_wf f /\ view f = empty_view h /\ reset_devices_ f = false /\ f_heap f = h /\
  Fabric.address_space_ f = space.
Proof.
  intros Hsp. destruct (fabric_init_wf h space false Hsp) as [ [_ Hs Hv] He].
  unfold set_stall_probability, modify. destruct (_ || _); [done|]. intros E.
  apply (f_equal snd) in E. cbn [snd] in E. subst f. split; [|done].
  constructor; [done | by destruct Hs; constructor | exact Hv].
Qed.

(** A simulation that has started: the platform as it was built, with the images
    loaded, and everything else as new. *)
Record started options registry (spec : PlatformSpec) (host : HostState) (out : Console) s
    (w : HostState * Console) : Prop := {
  st_ok : sim_ok s;
  st_settled : sim_settled s;
  st_fresh : fresh_counters s;
  st_view : view (shared_fabric s) = empty_view (heap_ (sim_platform s));
  st_statistics : sim_statistics s = replicate NumPorts inhabitant;
  st_time : simulation_time s = 0;
  st_space : Fabric.address_space_ (sim_fabric s) = address_space_ (sim_platform s);
  st_loaded : exists p chunks,
    build_platform registry spec AddressBits host = (Ok p, w.1) /\
    planned options p out chunks w.2 /\
    Elf.apply (address_space_ p) chunks (heap_ p) = (Ok tt, heap_ (sim_platform s)) /\
    bind_sideband p = Ok (sim_bound s) /\
    sim_platform s = p <| heap_ := heap_ (sim_platform s) |> /\
    sim_console s = w.2
}.

Lemma start_simulation_ok args options registry spec host out s w :
  fresh_registry registry -> Forall mapping_fits (mappings spec) ->
  start_simulation args options registry spec (host, out) = (Ok s, w) ->
  started options registry spec host out s w.
Proof.
  intros Hr Hm Hst. unfold start_simulation in Hst. returned Hst as p w1 Ep. lifted Hst as bound Eb.
  returned Hst as p' w2 El. lifted Hst as [top m] Ec. destruct (negb _); [done|].
  destruct (set_stall_probability _ _) as [r f] eqn:Ef. lifted Hst as u Er. subst r.
  lifted Hst as [m' writer] Et. injection Hst as <- <-.
  unfold on_host in Ep. destruct (build_platform registry spec AddressBits host) as [rp host'] eqn:Ebp.
  injection Ep as -> <-. destruct (build_platform_ok registry spec AddressBits host p host' Hr Ebp) as [Hp Hset].
  pose proof (build_platform_space registry spec AddressBits host p host' Hm Ebp) as Hsp.
  destruct (load_platform_parts options p host' out p' w2 El) as (chunks & out' & h & Hplan & Ha & -> & ->).
  pose proof (apply_only (address_space_ p) chunks (heap_ p) (heap_ p) (memory_only_refl _)) as Hl.
  unfold wp in Hl. rewrite Ha in Hl. cbn [heap_ address_space_ update] in Ef.
  destruct (fabric_init_ok h (address_space_ p) (seed options) (stall_probability options) f u Hsp Ef)
    as (Hf & Hz & Hrd & Hh & Hs).
  assert (f <| f_heap := h |> = f) as Hshared by by destruct f; cbn in *; subst.
  match goal with |- started _ _ _ _ _ ?st _ => set (s0 := st) end.
  assert (shared_fabric s0 = f) as Hs0 by exact Hshared.
  constructor; rewrite ?Hs0; try done.
  - constructor; rewrite ?Hs0; [done | by rewrite Hz; apply Forall_replicate | done | by eapply construct_wf|].
    apply (platform_ok_wiring p); [done | done | by apply memory_only_wiring].
  - by apply (memory_only_settled (heap_ p)).
  - by exists p, chunks.
Qed.

(** C6: a run fails only for the design's protocol violations.  Once the
    simulation has started, no cycle can end in an internal error (a queue
    overflow, a field outside a signal, a misrouted access, a loop that does
    not end): an exception of the loop is an AXI protocol error of an existing
    port, which [main] turns into status 3.  Otherwise the platform is left
    with settled interrupt lines. *)
Theorem only_protocol_errors_end_a_run args options registry spec interrupted host out s w :
  fresh_registry registry -> Forall mapping_fits (mappings spec) -> options_ok options ->
  start_simulation args options registry spec (host, out) = (Ok s, w) ->
  match run_loop options interrupted s with
  | (Ok _, s') => settled (heap_ (sim_platform s'))
  | (Throw e, _) =>
      (exists ctx why, e = ProtocolError (Some ctx) why /\ why ∈ protocol_details /\
         (ec_port ctx < NumPorts)%nat) /\
      exit_status (Throw e) = PROTOCOL_ERROR
  end.
Proof.
  intros Hr Hm Ho Hs. destruct (start_simulation_ok args options registry spec host out s w Hr Hm Hs)
    as [Hok Hset Hc _ _ _ _ _].
  pose proof (loop_spec options interrupted s Ho Hc) as Hl.
  pose proof (simulate_ok options interrupted (loop_fuel options) 0 s Hok Hset) as Hsim.
  unfold run_loop, bind, finalize_on_error, wp in *.
  destruct (simulate _ _ _ _ s) as [[ended|e] s1].
  - destruct Hl as [_ Hl]. destruct ended as [status|looks|]; [done | | done].
    by rewrite end_run_spec.
  - destruct Hsim as (ctx & why & -> & Hw & Hport).
    destruct (finalize_spec s1) as (t & m & _ & Hrun). unfold bind. rewrite Hrun.
    split; [by exists ctx, why | done].
Qed.
End Safety.
