(* ===== verification/SimRuns.v ===== *)
(** * The cycles of a simulation

    The main loop as a relation: the cycles it runs one after the other, and the
    handshakes of the design in them.  Whatever the design does, the fabric's
    queues go through transitions of the abstract fabric, between which the
    devices tick without touching the memories. *)
From S2P Require Import Prelude Text Console RingBuffer Axi Device Memory Uart Interrupts Heap Host.
From S2P Require Import Fabric FabricSpec FabricPorts FabricInv FabricCommit FabricTheorems FabricRuns.
From S2P Require Import FabricData FabricMemory FabricTraffic.
From S2P Require Import Elf ElfPlan Platform PlatformInstance PlatformTheorems PlatformCycles ElfHeap PlatformLines.
From S2P Require Import Packed Binding CommandLine ImageFiles Statistics Sim SimTheorems SimSafety.

(** ** The clock cycle and the memories *)
Lemma same_bytes_memory {B} `{!UartBackend B} sp (h h' : Heap B) :
  same_bytes h h' -> pointwise_relation Z eq (FabricMemory.memory sp h') (FabricMemory.memory sp h).
Proof.
  intros Hb x. unfold FabricMemory.memory. destruct (locate sp x) as [[d k]|]; [|done]. cbn. by rewrite Hb.
Qed.
(** ** The handshakes of a cycle at one port *)
Section Handshakes.
Context {fabric : FabricConfig}.
Implicit Types (outs : list SlaveSignals) (inputs : list MasterSignals).

(** Selecting the actions of one port from those of all. *)
Lemma bind_one_port {A} (g : event -> list A) (ev : nat -> list event) port :
  (port < NumPorts)%nat -> (forall q, q <> port -> ev q ≫= g = []) ->
  (seq 0 NumPorts ≫= ev) ≫= g = ev port ≫= g.
Proof.
  intros Hp Hg. assert (forall l, NoDup l -> (l ≫= ev) ≫= g = if decide (port ∈ l) then ev port ≫= g else []) as Hl.
  { induction 1 as [|q l Hq _ IH]; [done|]. rewrite bind_cons, bind_app, IH.
    destruct (decide (q = port)) as [->|Hne].
    - rewrite (decide_True (P := port ∈ port :: l)) by by left. by rewrite decide_False, app_nil_r.
    - rewrite Hg by done. destruct (decide (port ∈ l)) as [Hin|Hn].
      + by rewrite decide_True by by right.
      + rewrite decide_False; [done|]. intros [?|?]%elem_of_cons; [by subst | done]. }
  rewrite Hl by apply NoDup_seq. rewrite decide_True; [done|]. apply elem_of_seq. lia.
Qed.

Lemma bind_nothing {A} (g : event -> list A) l : Forall (fun e => g e = []) l -> l ≫= g = [].
Proof. induction 1 as [|e l He _ IH]; [done|]. by rewrite bind_cons, He. Qed.

(** What a port has sent and received in a cycle. *)
Lemma cycle_ar outs inputs port :
  (port < NumPorts)%nat ->
  cycle_events outs inputs ≫= ar_accepted port
    = if m_ar_valid (inputs !!! port) && s_ar_ready (outs !!! port) then [m_ar (inputs !!! port)] else [].
Proof.
  intros Hp. unfold cycle_events. rewrite bind_app.
  rewrite (bind_nothing _ (seq 0 NumPorts ≫= retire_events outs inputs)).
  2:{ apply Forall_ports. intros q. unfold retire_events. destruct (_ && _), (_ && _); repeat constructor. }
  rewrite app_nil_l, (bind_one_port _ _ port) by (done ||
    (intros q Hq; unfold accept_events; destruct (_ && _), (_ && _), (_ && _); cbn; by rewrite ?decide_False)).
  unfold accept_events. destruct (_ && _), (_ && _), (_ && _); cbn; by rewrite ?decide_True.
Qed.

Lemma cycle_r outs inputs port :
  (port < NumPorts)%nat ->
  cycle_events outs inputs ≫= r_received port
    = if s_r_valid (outs !!! port) && m_r_ready (inputs !!! port) then [s_r (outs !!! port)] else [].
Proof.
  intros Hp. unfold cycle_events. rewrite bind_app.
  rewrite (bind_nothing _ (seq 0 NumPorts ≫= accept_events outs inputs)).
  2:{ apply Forall_ports. intros q. unfold accept_events.
      destruct (_ && _), (_ && _), (_ && _); repeat constructor. }
  rewrite app_nil_r, (bind_one_port _ _ port) by (done ||
    (intros q Hq; unfold retire_events; destruct (_ && _), (_ && _); cbn; by rewrite ?decide_False)).
  unfold retire_events. destruct (_ && _), (_ && _); cbn; by rewrite ?decide_True.
Qed.

(** ** Counting them *)
Definition requested p : Z := Z.shiftl (ap_length p + 1) (ap_size p).
Definition traffic (port : nat) (seen : list event) : PortStatistics := {|
  requests := u64 (Z.of_nat (length (seen ≫= ar_accepted port)));
  bytes_requested := u64 (foldr Z.add 0 (requested <$> (seen ≫= ar_accepted port)));
  beats_received := u64 (Z.of_nat (length (seen ≫= r_received port)))
|}.

Lemma u64_add_l a b : u64 (u64 a + b) = u64 (a + b).
Proof. unfold u64, wrap. by rewrite Z.add_mod_idemp_l by lia. Qed.
Lemma u64_add_r a b : u64 (a + u64 b) = u64 (a + b).
Proof. unfold u64, wrap. by rewrite Z.add_mod_idemp_r by lia. Qed.

Lemma sample_port_counts outs inputs port seen :
  (port < NumPorts)%nat ->
  sample_statistics_port (inputs !!! port) (outs !!! port) (traffic port seen)
    = traffic port (seen ++ cycle_events outs inputs).
Proof.
  intros Hp. unfold sample_statistics_port, traffic. cbn [requests bytes_requested beats_received].
  rewrite !bind_app, (cycle_ar _ _ port Hp), (cycle_r _ _ port Hp), (andb_comm (m_r_ready _)).
  assert (forall (g : AddressPayload -> Z) l x, foldr Z.add 0 (g <$> (l ++ [x])) = foldr Z.add 0 (g <$> l) + g x) as Hsum.
  { intros g l x. induction l as [|y l IH]; cbn; [lia|]. cbn in IH. rewrite IH. lia. }
  f_equal.
  - destruct (_ && _); [|by rewrite app_nil_r]. rewrite u64_add_l, length_app. cbn. f_equal. lia.
  - destruct (_ && _); [|by rewrite app_nil_r]. by rewrite u64_add_l, u64_add_r, Hsum.
  - destruct (_ && _); [|by rewrite app_nil_r]. rewrite u64_add_l, length_app. cbn. f_equal. lia.
Qed.

Definition all_traffic (seen : list event) : list PortStatistics := (fun port => traffic port seen) <$> seq 0 NumPorts.

Lemma no_traffic : all_traffic [] = replicate NumPorts inhabitant.
Proof.
  unfold all_traffic. apply list_eq. intros i. rewrite list_lookup_fmap.
  destruct (decide (i < NumPorts)%nat) as [Hi|Hi].
  - by rewrite lookup_seq_lt, lookup_replicate_2.
  - rewrite lookup_seq_ge, (proj1 (lookup_replicate_None _ _ i)); [done | lia | lia].
Qed.

Lemma sample_counts outs inputs seen :
  sample_statistics true inputs outs false (all_traffic seen) = all_traffic (seen ++ cycle_events outs inputs).
Proof.
  unfold sample_statistics. cbn [negb orb]. apply list_eq. intros i.
  rewrite list_lookup_imap. unfold all_traffic. rewrite !list_lookup_fmap.
  destruct (decide (i < NumPorts)%nat) as [Hi|Hi]; [|by rewrite lookup_seq_ge by lia].
  rewrite lookup_seq_lt by done. cbn. f_equal. by apply sample_port_counts.
Qed.
End Handshakes.

(** ** Cycles *)
Section Cycles.
Context {fabric : FabricConfig} {binding : BindingConfig} `{!HostSystem}.
Context `{!FabricConfigOk fabric, !BindingConfigOk fabric binding}.
Context {B Pins : Type} `{!UartBackend B, !UartStreams B, !HostLibrary, !TargetConfig B}.
Context {model : VerilatedModel Pins} {sideband : SidebandBinding B Pins} {laws : ModelLaws}.
Implicit Types (s : Simulation) (options : Options) (p : Platform B) (seen : list event).

(** When the loop makes another cycle, if no signal has come. *)
Record goes_on options s : Prop := {
  go_budget : active_cycles s < max_cycles options;
  go_finish : got_finish (sim_model s) = false;
  go_exit : exit_completed_ (sim_fabric s) = false
}.

(** The state a simulation is in at the head of the loop, and the handshakes so
    far.  Cycles in reset have none. *)
Inductive cycles options : Simulation -> list event -> Simulation -> Prop :=
| cycles_none s : cycles options s [] s
| cycles_one s seen s1 outs s2 sampled s3 :
    cycles options s seen s1 -> goes_on options s1 ->
    let reset := total_cycles s1 <? reset_cycles options in
    low_phase reset s1 = (Ok outs, s2) -> sample (axi (sim_top s2)) = Ok sampled ->
    high_phase options reset outs s2 = (Ok tt, s3) ->
    cycles options s (seen ++ if reset then [] else cycle_events outs sampled) s3.

(** What holds after any number of cycles. *)
Record ran options s0 seen s : Prop := {
  rn_ok : sim_ok s;
  rn_settled : sim_settled s;
  rn_counters : counters_ok options s;
  rn_console : sim_console s = sim_console s0;
  rn_space : Fabric.address_space_ (sim_fabric s) = Fabric.address_space_ (sim_fabric s0);
  rn_bound : sim_bound s = sim_bound s0;
  rn_platform : rtc platform_step (sim_platform s0) (sim_platform s);
  rn_reset : total_cycles s <= reset_cycles options ->
    seen = [] /\ view (shared_fabric s) = empty_view (heap_ (sim_platform s));
  rn_traced : exists es log,
    traced (Fabric.address_space_ (sim_fabric s0)) (view (shared_fabric s0)) es log (view (shared_fabric s)) /\
    filter (fun e => external e) es = seen;
  rn_statistics : sim_statistics s = if stats options then all_traffic seen else sim_statistics s0
}.

Lemma steps_log sp (v : View (Heap B)) es v' : steps sp v es v' -> exists log, traced sp v es log v'.
Proof. apply steps_traced. Qed.

(** A cycle outside reset, as transitions with the devices changing in between. *)
Lemma cycle_traced options s outs s1 sampled s2 :
  lowered false s outs s1 -> raised options false outs s1 sampled s2 ->
  exists es log, filter (fun e => external e) es = cycle_events outs sampled /\
    traced (Fabric.address_space_ (sim_fabric s)) (view (shared_fabric s)) es log (view (shared_fabric s2)).
Proof.
  intros Hl Hr. destruct (rs_commit _ _ _ _ _ _ Hr) as (v & Hc & Hp & Hv).
  rewrite (lw_space _ _ _ _ Hl) in Hc. destruct Hc as (es & Hst & He & _).
  destruct (steps_log _ _ _ _ Hst) as [log Ht]. exists es, log. split; [done|].
  eapply (traced_env _ _ (heap_ (begin_cycle false (sim_platform s)))).
  { apply same_bytes_memory, begin_cycle_bytes. }
  rewrite (lw_view _ _ _ _ Hl) in Ht.
  rewrite <- (app_nil_r es), <- (app_nil_r log). eapply traced_app; [exact Ht|].
  rewrite Hv, Hp. eapply traced_env; [|apply traced_nil].
  apply same_bytes_memory. etransitivity; [|apply end_cycle_bytes]. done.
Qed.

(** A cycle in reset leaves an empty fabric empty. *)
Lemma cycle_reset options s outs s1 sampled s2 :
  lowered true s outs s1 -> raised options true outs s1 sampled s2 ->
  view (shared_fabric s) = empty_view (heap_ (sim_platform s)) ->
  view (shared_fabric s2) = empty_view (heap_ (sim_platform s2)) /\
  same_bytes (heap_ (sim_platform s)) (heap_ (sim_platform s2)).
Proof.
  intros Hl Hr Hs. destruct (rs_commit _ _ _ _ _ _ Hr) as (v & Hc & Hp & Hv).
  pose proof (lw_view _ _ _ _ Hl) as Hv1. rewrite Hs in Hv1.
  assert (v = empty_view (heap_ (begin_cycle true (sim_platform s)))) as ->.
  { destruct Hc as [-> | ->]; by rewrite Hv1. }
  split; [by rewrite Hv|]. rewrite Hp. apply (begin_cycle_bytes true).
Qed.

Lemma cycle_platform options reset s outs s1 sampled s2 :
  lowered reset s outs s1 -> raised options reset outs s1 sampled s2 ->
  rtc platform_step (sim_platform s) (sim_platform s2).
Proof.
  intros Hl Hr. destruct (rs_commit _ _ _ _ _ _ Hr) as (v & Hc & Hp & _). rewrite Hp, (lw_platform _ _ _ _ Hl).
  eapply rtc_l; [apply (step_begin reset)|].
  assert (v_heap (view (shared_fabric s1)) = heap_ (begin_cycle reset (sim_platform s))) as Hh
    by by rewrite (lw_view _ _ _ _ Hl).
  assert (v_heap v = v_heap (view (shared_fabric s1)) \/
          window_access (Fabric.address_space_ (sim_fabric s1)) (v_heap (view (shared_fabric s1))) (v_heap v)) as Hw.
  { destruct reset; [left; by destruct Hc as [-> | ->] | destruct Hc as (es & _ & _ & Hw); exact Hw]. }
  rewrite Hh in Hw. set (p := begin_cycle reset (sim_platform s)) in *.
  transitivity (p <| heap_ := v_heap v |>); [|apply rtc_once, (step_end reset)].
  destruct Hw as [->|(m & off & data & lanes & _ & _ & [-> | ->])].
  - by destruct p.
  - apply rtc_once, (step_read (map_device m)).
  - apply rtc_once, (step_write (map_device m)).
Qed.

Lemma cycles_ran options s0 seen s :
  options_ok options -> fresh_counters s0 -> sim_ok s0 -> sim_settled s0 ->
  view (shared_fabric s0) = empty_view (heap_ (sim_platform s0)) ->
  sim_statistics s0 = replicate NumPorts inhabitant ->
  cycles options s0 seen s -> ran options s0 seen s.
Proof.
  intros Ho [Ha0 Ht0] Hok Hset Hv0 Hst0 Hc. pose proof Ho as (Hro & Hmo & _). unfold fits in *.
  induction Hc as [s0|s0 seen s1 outs s2 sampled s3 _ IH [Hlt _ _] reset Hlow Hsample Hhigh].
  { constructor; try done; [split; lia | |].
    - exists [], []. split; [constructor | done].
    - rewrite Hst0, no_traffic. by destruct (stats options). }
  specialize (IH Ha0 Ht0 Hok Hset Hv0 Hst0). destruct IH as [Ho1 Hs1 Hc1 Hn1 Hsp1 Hb1 Hp1 Hr1 Ht1 Hst1].
  pose proof (low_phase_ok reset s1 Ho1 Hs1) as Hl. unfold wp in Hl. rewrite Hlow in Hl.
  pose proof (high_phase_ok options reset s1 outs s2 Hl) as Hr. unfold wp in Hr. rewrite Hhigh in Hr.
  destruct Hr as [sampled' Hr]. pose proof (rs_sampled _ _ _ _ _ _ Hr) as E. rewrite E in Hsample.
  injection Hsample as ->.
  pose proof (low_phase_counts reset s1) as Hn2. unfold wp in Hn2. rewrite Hlow in Hn2.
  pose proof (high_phase_counts options reset outs s2) as Hn3. unfold wp in Hn3. rewrite Hhigh in Hn3.
  injection Hn2 as Ha2 Ht2 Hc2. injection Hn3 as Ha3 Ht3 Hc3. rewrite Ha2 in Ha3. rewrite Ht2 in Ht3.
  assert (counters_ok options s3 /\ total_cycles s3 = total_cycles s1 + 1) as [Hc' Ht'].
  { by apply (counters_step options s1 s3). }
  constructor.
  - apply (rs_ok _ _ _ _ _ _ Hr).
  - apply (rs_settled _ _ _ _ _ _ Hr).
  - done.
  - by rewrite Hc3, Hc2.
  - by rewrite (rs_space _ _ _ _ _ _ Hr), (lw_space _ _ _ _ Hl).
  - by rewrite (rs_bound _ _ _ _ _ _ Hr), (lw_bound _ _ _ _ Hl).
  - etransitivity; [exact Hp1|]. by eapply cycle_platform.
  - intros Hle. assert (reset = true) as Hres by (unfold reset; apply Z.ltb_lt; lia).
    destruct (Hr1 ltac:(lia)) as [-> Hv1]. rewrite Hres in *. split; [done|].
    by apply (cycle_reset _ _ _ _ _ _ Hl Hr).
  - destruct Ht1 as (es & log & Ht1 & He1). destruct reset eqn:Hres.
    + destruct (Hr1 ltac:(apply Z.ltb_lt in Hres; lia)) as [-> Hv1].
      destruct (cycle_reset _ _ _ _ _ _ Hl Hr Hv1) as [Hv3 Hb3].
      exists (es ++ []), (log ++ []). split; [|by rewrite filter_app, He1].
      eapply traced_app; [exact Ht1|]. rewrite Hv3, Hv1.
      eapply (traced_env _ _ (heap_ (sim_platform s3))); [by apply same_bytes_memory | apply traced_nil].
    + destruct (cycle_traced _ _ _ _ _ _ Hl Hr) as (es' & log' & He' & Ht3').
      exists (es ++ es'), (log ++ log'). split; [|by rewrite filter_app, He1, He'].
      rewrite Hsp1 in Ht3'. by eapply traced_app.
  - rewrite (rs_statistics _ _ _ _ _ _ Hr), (lw_statistics _ _ _ _ Hl), Hst1.
    destruct (stats options) eqn:Hstats; [|done]. destruct reset; [by rewrite app_nil_r | by apply sample_counts].
Qed.

(** ** The main loop runs cycles *)
(** What a run leaves apart from the pins and the model. *)
Record same_run s s' : Prop := {
  sr_platform : sim_platform s' = sim_platform s;
  sr_fabric : sim_fabric s' = sim_fabric s;
  sr_statistics : sim_statistics s' = sim_statistics s;
  sr_active : active_cycles s' = active_cycles s
}.

Lemma same_run_finalize s s' : same_run s s' -> same_run s (finalize s').2.
Proof.
  intros []. destruct (finalize_spec s') as (t & m & _ & ->). by constructor.
Qed.

Lemma simulate_cycle_cycles options s0 seen s ended s' :
  cycles options s0 seen s -> goes_on options s ->
  simulate_cycle options s = (Ok ended, s') ->
  exists seen' s1, cycles options s0 seen' s1 /\
    match ended with
    | Some status => same_run s1 s' /\ exit_of s1 = Some status
    | None => s1 = s' /\ exit_completed_ (sim_fabric s') = false
    end.
Proof.
  intros Hc Hlt Hs. unfold simulate_cycle in Hs. returned Hs as reset s1 E. injection E as <- <-.
  returned Hs as outs s2 Hlow. returned Hs as [] s3 Hhigh.
  pose proof Hhigh as Hsample. unfold high_phase in Hsample. returned Hsample as s2' s2'' E.
  injection E as <- <-. lifted Hsample as sampled Es. clear Hsample.
  pose proof (cycles_one _ _ _ _ _ _ _ _ Hc Hlt Hlow Es Hhigh) as Hc'.
  eexists _, s3. split; [exact Hc'|]. returned Hs as s4 s5 E. injection E as <- <-.
  unfold exit_of. destruct (exit_completed_ (sim_fabric s3)) eqn:Hx; injection Hs as <- <-;
    [by split; [constructor|] | done].
Qed.

(** How the loop is left from a state it has reached: with the guest's exit, or
    before it. *)
Definition left_from options s0 (exit : option Z) s' : Prop :=
  exists seen s, cycles options s0 seen s /\ same_run s s' /\ exit_of s = exit.
Definition loop_exit (ended : LoopEnd) : option Z :=
  match ended with GuestExit status => Some status | _ => None end.
Definition failed_from options s0 (e : exn) s' : Prop :=
  exists seen s, cycles options s0 seen s /\ simulate_cycle options s = (Throw e, s').

Lemma simulate_cycles options interrupted s0 fuel looks seen s :
  cycles options s0 seen s -> exit_completed_ (sim_fabric s) = false ->
  wp (simulate fuel looks options interrupted) (fun ended => left_from options s0 (loop_exit ended))
    (failed_from options s0) s.
Proof.
  assert (forall (ended : LoopEnd) seen s s', cycles options s0 seen s -> same_run s s' ->
    exit_of s = loop_exit ended ->
    wp (finalize ;;; ret ended) (fun ended => left_from options s0 (loop_exit ended)) (failed_from options s0) s') as Hend.
  { intros ended seen' s1 s' Hc Hs He. pose proof (same_run_finalize _ _ Hs) as Hf.
    destruct (finalize_spec s') as (t & m & _ & Hrun). unfold wp, bind. rewrite Hrun in *. by exists seen', s1. }
  revert looks seen s. induction fuel as [|fuel IH]; intros looks seen s Hc Hx; cbn [simulate];
    wp_step; wp_step; cbv beta; assert (same_run s s) as Hss by done;
    assert (exit_of s = None) as Hx' by (unfold exit_of; by rewrite Hx);
    (destruct (Z.ltb_spec (active_cycles s) (max_cycles options)) as [Hlt|]; [|by eapply Hend]);
    (destruct (interrupted looks =? 0); [|by eapply Hend]);
    (destruct (got_finish (sim_model s)) eqn:Hg; cbn [negb]; [by eapply Hend|]).
  - apply wp_ret. by exists seen, s.
  - apply wp_bind. unfold wp at 1. destruct (simulate_cycle options s) as [ [ended|e] s'] eqn:E; [|by exists seen, s].
    destruct (simulate_cycle_cycles _ _ _ _ _ _ Hc (Build_goes_on _ _ Hlt Hg Hx) E) as (seen' & s1 & Hc' & Hs).
    destruct ended as [status|]; [destruct Hs; by eapply Hend|]. destruct Hs as [-> Hx1]. by eapply IH.
Qed.

(** A run that ends with a status has made cycles; one that ends with an
    exception has made cycles and failed in the next. *)
Lemma run_loop_cycles options interrupted s0 :
  exit_completed_ (sim_fabric s0) = false ->
  match run_loop options interrupted s0 with
  | (Ok status, s') => exists exit, left_from options s0 exit s' /\ (exit = None \/ exit = Some status)
  | (Throw e, _) => (exists s, failed_from options s0 e s) \/ e = LogicError "the main loop does not end"
  end.
Proof.
  intros Hx. pose proof (simulate_cycles options interrupted s0 (loop_fuel options) 0 [] s0 (cycles_none _ _) Hx) as Hs.
  unfold run_loop, bind, finalize_on_error, wp in *. destruct (simulate _ _ _ _ s0) as [ [ended|e] s'].
  - destruct ended as [status|looks|]; [by exists (Some status); auto | | by right].
    rewrite end_run_spec. destruct Hs as (seen & s1 & Hc & [ ] & Hx'). exists None. split; [|by left].
    exists seen, s1. split; [done|]. split; [by constructor | done].
  - destruct (finalize_spec s') as (t & m & _ & Hrun). unfold bind. rewrite Hrun. left. by exists s'.
Qed.
End Cycles.
