(* ===== verification/SimData.v ===== *)
(** * What the design sees of the memories

    The main loop, the platform and the fabric composed: over a whole
    simulation the memories are one byte store, to which the design's bursts
    are applied one after the other, and which starts with the images. *)
From S2P Require Import Prelude Text Console RingBuffer Axi Device Memory Uart Interrupts Heap Host.
From S2P Require Import Fabric FabricSpec FabricPorts FabricInv FabricCommit FabricTheorems FabricRuns.
From S2P Require Import FabricData FabricMemory FabricTraffic FabricImage.
From S2P Require Import Elf ElfPlan Platform PlatformInstance PlatformTheorems PlatformCycles ElfHeap.
From S2P Require Import Packed Binding CommandLine ImageFiles ImageTheorems Statistics.
From S2P Require Import Sim SimTheorems SimSafety SimRuns.

Lemma collect_images_fits `{!HostSystem} {B} (registry : DeviceRegistry B) configs windows specs images :
  Forall mapping_fits windows -> collect_images registry configs windows specs = Ok images ->
  fits_images images.
Proof.
  intros Hw. revert images. induction specs as [|d specs IH]; intros images; cbn [collect_images].
  { intros [= <-]. constructor. }
  destruct (registry_type _ _) as [type|]; [|done]. cbn [rbind].
  assert (forall image, (if bool_decide (image_option type = EmptyString) then Ok None
    else try config := config_of configs (spec_id d) in
         try path := config_text config (image_option type) in
         if bool_decide (path = EmptyString) then Ok None
         else match filter (fun m => mapping_device m = spec_id d) windows with
              | [m] => Ok (Some {| image_path := path; image_address := mapping_base m |})
              | _ => invalid ("image property requires exactly one mapping: " +:+ spec_id d)
              end) = Ok image -> fits_images (option_list image)) as Hi.
  { intros image. case_bool_decide; [by intros [= <-]; constructor|].
    destruct (config_of _ _) as [config|]; [|done]. cbn [rbind].
    destruct (config_text _ _) as [path|]; [|done]. cbn [rbind].
    case_bool_decide; [by intros [= <-]; constructor|].
    destruct (filter _ windows) as [|m [|]] eqn:Ef; [done| |done]. intros [= <-].
    constructor; [|constructor]. cbn. rewrite Forall_forall in Hw.
    assert (m ∈ filter (fun m => mapping_device m = spec_id d) windows) as Hm by (rewrite Ef; by left).
    apply list_elem_of_filter in Hm as [_ Hm]. apply (Hw m Hm). }
  destruct (if bool_decide _ then _ else _) as [image|]; [|done]. cbn [rbind].
  destruct (collect_images registry configs windows specs) as [rest|]; [|done]. cbn [rbind].
  intros [= <-]. apply Forall_app_2; [by apply Hi | by apply IH].
Qed.

Section Data.
Context {fabric : FabricConfig} {binding : BindingConfig} `{!HostSystem}.
Context `{!FabricConfigOk fabric, !BindingConfigOk fabric binding}.
Context {B Pins : Type} `{!UartBackend B, !UartStreams B, !HostLibrary, !LibraryLaws, !TargetConfig B}.
Context {model : VerilatedModel Pins} {sideband : SidebandBinding B Pins} {laws : ModelLaws}.
Implicit Types (s : Simulation) (options : Options) (seen : list event).

Lemma started_ran options registry (spec : PlatformSpec) host out s0 w seen s :
  started options registry spec host out s0 w -> options_ok options -> cycles options s0 seen s ->
  ran options s0 seen s.
Proof. intros [] Ho. by apply cycles_ran. Qed.

(** No exit is pending at the start. *)
Lemma started_running options registry (spec : PlatformSpec) host out s0 w :
  started options registry spec host out s0 w -> exit_completed_ (sim_fabric s0) = false.
Proof.
  intros [_ _ _ Hv]. assert (v_exit (view (shared_fabric s0)) = (false, 0)) as E by by rewrite Hv.
  cbn in E. by injection E as E _.
Qed.

(** The memories of a simulation, as the bus addresses them. *)
Definition sim_memory s : Store := FabricMemory.memory (Fabric.address_space_ (sim_fabric s)) (heap_ (sim_platform s)).

(** The queues of an empty fabric. *)
Lemma empty_history (h : Heap B) port :
  (port < NumPorts)%nat ->
  writes_ok (empty_view h) /\ history port [] [] [] [] [] (empty_view h) /\
  reads_due (empty_view h) port = [] /\ q_r (pv (empty_view h) port) = [] /\ write_free (empty_view h).
Proof.
  intros Hp. assert (forall q, pv (empty_view h) q = empty_port \/ pv (empty_view h) q = inhabitant) as Hpv.
  { intros q. unfold pv, empty_view. cbn. destruct (decide (q < NumPorts)%nat).
    - left. by apply lookup_total_replicate_2.
    - right. rewrite list_lookup_total_alt, (proj1 (lookup_replicate_None _ _ q)); [done | lia]. }
  assert (pv (empty_view h) port = empty_port) as Hport by by apply lookup_total_replicate_2.
  unfold writes_ok, reads_due. rewrite Hport. split_and!; try done.
  - constructor; rewrite ?Hport; done.
  - split; [done|]. intros q. by destruct (Hpv q) as [-> | ->].
Qed.

(** C4: over a whole simulation the memories are one shared memory.  The device
    accesses of the main loop form one log, in which the ports' traffic is
    interleaved.  The memories end with the contents the log leaves in a plain
    byte store, whatever reset, ticks and settling have done in between, and
    every read beat has the bytes this store holds at its place in the log.
    Per port, the R beats are, in order, those fetched for its AR bursts, and
    the bytes written are those its bursts of AW and W send: of each answered
    burst a prefix of its beats, and all of them if the response acknowledges
    it. *)
Theorem simulation_has_one_memory args options registry spec host out s0 w seen s :
  fresh_registry registry -> Forall mapping_fits (mappings spec) -> options_ok options ->
  start_simulation args options registry spec (host, out) = (Ok s0, w) -> cycles options s0 seen s ->
  let sp := Fabric.address_space_ (sim_fabric s0) in
  exists log,
    consistent sp (sim_memory s0) log /\
    (forall x, sim_memory s x = replay sp (sim_memory s0) log x) /\
    forall port, (port < NumPorts)%nat ->
      let v := view (shared_fabric s) in
      (seen ≫= ar_accepted port) ≫= beats_of
        = (fst <$> (log ≫= fetched port)) ++ reads_due v port /\
      snd <$> (log ≫= fetched port) = (seen ≫= r_received port) ++ q_r (pv v port) /\
      exists hist, history port (seen ≫= aw_accepted port) (seen ≫= w_accepted port)
                     (seen ≫= b_received port) (log ≫= wrote port) hist v.
Proof.
  intros Hr Hm Ho Hs Hc sp. pose proof (start_simulation_ok args _ _ _ _ _ _ _ Hr Hm Hs) as Hst.
  destruct (started_ran _ _ _ _ _ _ _ _ _ Hst Ho Hc) as [Hok _ _ _ Hsp _ _ _ (es & log & Ht & He) _].
  destruct Hst as [Hok0 _ _ Hv _ _ _ _]. pose proof (so_fabric _ Hok0) as Hf.
  pose proof (fw_view _ Hf) as Hwf. pose proof (fw_space _ Hf) as Hspace. exists log.
  change (Fabric.address_space_ (shared_fabric s0)) with sp in Hwf, Hspace.
  destruct (traced_agrees sp Hspace _ _ _ _ Hwf Ht) as [Hcons Hmem]. split; [exact Hcons|].
  split; [unfold sim_memory; rewrite Hsp; exact Hmem|]. intros port Hp v. subst v.
  destruct (empty_history (heap_ (sim_platform s0)) port Hp) as (Hw & Hh & Hdue & Hq & _).
  rewrite <- Hv in Hw, Hh, Hdue, Hq.
  destruct (traced_reads sp _ _ _ _ port Hwf Ht) as [Hr1 Hr2]. rewrite Hdue in Hr1.
  rewrite Hq in Hr2.
  destruct (traced_history sp _ _ _ _ port _ _ _ _ _ Hwf Hw Ht Hp Hh) as [hist Hh'].
  rewrite <- He, !observed_bind by (by intros []). split; [exact Hr1|]. split; [exact Hr2|].
  by exists hist.
Qed.

(** C5: the design boots from its images.  As long as it requests no write, every
    R beat of a simulation that is not an error has, for each address in its
    beat at which an image of the run has a byte (an image of the platform, of
    --load or of --elf, the zeros of the BSS included), that byte in the
    address's lane. *)
Theorem design_reads_its_images args options registry spec host out s0 w seen s port p host' :
  fresh_registry registry -> Forall mapping_fits (mappings spec) -> options_ok options ->
  start_simulation args options registry spec (host, out) = (Ok s0, w) -> cycles options s0 seen s ->
  build_platform registry spec AddressBits host = (Ok p, host') ->
  (port < NumPorts)%nat -> Forall (fun e => is_aw e = false) seen ->
  forall n burst i beat k b,
    ((seen ≫= ar_accepted port) ≫= beats_of) !! n = Some (burst, i) ->
    (seen ≫= r_received port) !! n = Some beat ->
    response_is_success (rd_response beat) = true -> (k < beat_count burst i)%nat ->
    image_byte (address_space_ p) (heap_ p) options (images_ p) (beat_at burst i + Z.of_nat k) b ->
    rd_data beat !!! (beat_first burst i + k)%nat = b.
Proof.
  intros Hr Hm Ho Hs Hc Hb Hp Haw n burst i beat k b Hn Hbeat Hsucc Hk Himage.
  pose proof (start_simulation_ok args _ _ _ _ _ _ _ Hr Hm Hs) as Hst.
  destruct (started_ran _ _ _ _ _ _ _ _ _ Hst Ho Hc) as [_ _ _ _ _ _ _ _ (es & log & Ht & He) _].
  destruct Hst as [Hok0 _ _ Hv _ _ Hspe (p' & chunks & Ebp & Hplan & Ha & _ & Hsp & _)].
  rewrite Hb in Ebp. injection Ebp as <- _.
  pose proof (fw_view _ (so_fabric _ Hok0)) as Hwf. pose proof (fw_space _ (so_fabric _ Hok0)) as Hspace.
  change (Fabric.address_space_ (shared_fabric s0)) with (Fabric.address_space_ (sim_fabric s0)) in *.
  assert (Fabric.address_space_ (sim_fabric s0) = address_space_ p) as Esp by by rewrite Hspe, Hsp.
  rewrite Esp in *.
  assert (fits_images (images_ p)) as Hfit.
  { destruct (build_platform_parts _ _ _ _ _ _ Hb) as [_ (configs & h & inst & space & images & h' & order
      & _ & _ & _ & Ei & _ & ->)]. by eapply collect_images_fits. }
  destruct (planned_images (address_space_ p) Hspace _ _ _ _ _ _ Hfit Hplan) as [Hcw Hpr].
  specialize (Hpr _ _ Himage). apply Exists_exists in Hpr as (c & Hin & j & Hj & Hx & <-).
  destruct (empty_history (heap_ (sim_platform s0)) port Hp) as (_ & _ & Hdue & Hq & Hwfree).
  rewrite <- Hv in Hdue, Hq, Hwfree.
  rewrite <- He, (observed_bind (ar_accepted port)) in Hn by (by intros []).
  rewrite <- He, (observed_bind (r_received port)) in Hbeat by (by intros []).
  assert (Forall (fun e => is_aw e = false) es) as Haw'.
  { rewrite Forall_forall in Haw |- *. intros e Hine. destruct (is_aw e) eqn:E; [|done].
    rewrite <- E. apply Haw. rewrite <- He. apply elem_of_filter_bool. split; [by destruct e | done]. }
  apply (beats_agree _ _ es log _ port n burst i beat Hspace Hwf Hwfree Hdue Hq Ht Haw' Hn Hbeat Hsucc k); [done|].
  rewrite Hx. rewrite Hv. by apply (loaded_memory _ chunks (heap_ p) tt).
Qed.
End Data.
