(* ===== verification/SimReport.v ===== *)
(** * What a run reports

    The statistics a run prints count the handshakes of the design, and the
    printed text can be read back. *)
From S2P Require Import Prelude Text Console RingBuffer Axi Device Memory Uart Interrupts Heap Host.
From S2P Require Import Fabric FabricSpec FabricPorts FabricCommit FabricTheorems FabricTraffic.
From S2P Require Import Elf Platform PlatformInstance PlatformTheorems Packed Binding.
From S2P Require Import CommandLine ImageFiles Statistics Sim SimTheorems SimSafety SimRuns SimData.

(** ** Reading a report *)

(** A label and the number after it. *)
Definition read_number (label text : string) : option (Z * string) :=
  rest ← strip_prefix label text; from_chars 64 10 rest.

Definition read_port_line (text : string) : option (Z * PortStatistics * string) :=
  '(port, text) ← read_number "AXI_STATS port=" text;
  '(n, text) ← read_number " read_requests=" text;
  '(bytes, text) ← read_number " read_bytes_requested=" text;
  '(beats, text) ← read_number " read_beats_received=" text;
  rest ← strip_prefix newline text;
  Some (port, {| requests := n; bytes_requested := bytes; beats_received := beats |}, rest).

Fixpoint read_port_lines (n : nat) (text : string) : option (list (Z * PortStatistics) * string) :=
  match n with
  | O => Some ([], text)
  | S n' =>
      '(line, text) ← read_port_line text;
      '(lines, text) ← read_port_lines n' text;
      Some (line :: lines, text)
  end.

(** The active cycles, the ports with their traffic, and the rest of the text. *)
Definition read_statistics (n : nat) (text : string) : option (Z * list (Z * PortStatistics) * string) :=
  '(cycles, text) ← read_number "SIM_STATS active_cycles=" text;
  text ← strip_prefix newline text;
  '(lines, text) ← read_port_lines n text;
  Some (cycles, lines, text).

Definition port_fits (s : PortStatistics) : Prop :=
  fits 64 (requests s) /\ fits 64 (bytes_requested s) /\ fits 64 (beats_received s).

Lemma read_number_back label n rest :
  fits 64 n -> no_digit rest -> read_number label (label +:+ to_string n +:+ rest) = Some (n, rest).
Proof.
  intros Hn Hr. unfold read_number. rewrite strip_prefix_app. cbn. by apply from_chars_to_string.
Qed.

Lemma read_port_line_back (port : nat) s rest :
  fits 64 (Z.of_nat port) -> port_fits s ->
  read_port_line (port_line port s +:+ rest) = Some (Z.of_nat port, s, rest).
Proof.
  intros Hp (H1 & H2 & H3). unfold read_port_line, port_line. rewrite !append_assoc.
  rewrite read_number_back by done. cbn [mbind option_bind].
  rewrite read_number_back by done. cbn [mbind option_bind].
  rewrite read_number_back by done. cbn [mbind option_bind].
  rewrite read_number_back by done. cbn [mbind option_bind].
  rewrite strip_prefix_app. cbn. by destruct s.
Qed.

Lemma read_port_lines_back ports (k : nat) rest :
  Z.of_nat (k + length ports) < 2 ^ 64 -> Forall port_fits ports ->
  read_port_lines (length ports)
    (concatenate (imap (fun i => port_line (k + i)) ports) +:+ rest)
    = Some (imap (fun i s => (Z.of_nat (k + i), s)) ports, rest).
Proof.
  intros Hk Hf. revert k Hk. induction Hf as [|s ports Hs _ IH]; intros k Hk; [done|].
  cbn [length] in Hk. rewrite !imap_cons. cbn [length read_port_lines concatenate foldr].
  rewrite append_assoc, Nat.add_0_r, read_port_line_back by (done || (unfold fits; lia)).
  cbn [mbind option_bind].
  rewrite (imap_ext _ (fun i => port_line (S k + i))) by (intros; simpl; by rewrite Nat.add_succ_r).
  fold (concatenate (imap (fun i => port_line (S k + i)) ports)). rewrite IH by (cbn; lia).
  cbn. do 3 f_equal. apply imap_ext. intros. cbn. by rewrite Nat.add_succ_r.
Qed.

Lemma report_read_back cycles ports rest :
  fits 64 cycles -> Z.of_nat (length ports) < 2 ^ 64 -> Forall port_fits ports ->
  read_statistics (length ports) (statistics_text true cycles ports +:+ rest)
    = Some (cycles, imap (fun i s => (Z.of_nat i, s)) ports, rest).
Proof.
  intros Hc Hl Hf. unfold read_statistics, statistics_text. rewrite !append_assoc.
  rewrite read_number_back by done. cbn [mbind option_bind]. rewrite strip_prefix_app. cbn [mbind option_bind].
  pose proof (read_port_lines_back ports 0 rest Hl Hf) as Hr. cbn [plus] in Hr.
  change (fun i => port_line i) with port_line in Hr. by rewrite Hr.
Qed.

(** C32: a printed report can be read back: the text has the number of active
    cycles and, line after line, the traffic of the ports, whatever follows it. *)
Theorem statistics_read_back cycles ports rest :
  fits 64 cycles -> Z.of_nat (length ports) < 2 ^ 64 -> Forall port_fits ports ->
  read_statistics (length ports) (statistics_text true cycles ports +:+ rest)
    = Some (cycles, imap (fun i s => (Z.of_nat i, s)) ports, rest).
Proof. apply report_read_back. Qed.

(** ** A run and its report *)
Section Report.
Context {fabric : FabricConfig} {binding : BindingConfig} `{!HostSystem}.
Context `{!FabricConfigOk fabric, !BindingConfigOk fabric binding}.
Context {B Pins : Type} `{!UartBackend B, !UartStreams B, !HostLibrary, !TargetConfig B}.
Context {model : VerilatedModel Pins} {sideband : SidebandBinding B Pins} {laws : ModelLaws}.
Implicit Types (s : Simulation) (options : Options) (seen : list event).

Lemma all_traffic_fits seen : length (all_traffic seen) = NumPorts /\ Forall port_fits (all_traffic seen).
Proof.
  unfold all_traffic. rewrite length_fmap, length_seq. split; [done|]. apply Forall_fmap, Forall_forall.
  intros port _. repeat split; apply Z.mod_pos_bound; lia.
Qed.

(** What a run prints before and after its statistics: the report of the guest's
    exit, or one of the reports of the other ends. *)
Definition verdict s (before after : string) : Prop :=
  (before = exit_report (exit_code_ (sim_fabric s)) (active_cycles s) /\ after = EmptyString) \/
  (before = EmptyString /\
   (after = interrupt_report (active_cycles s) \/ after = finish_report \/ after = timeout_report (active_cycles s))).

Lemma status_verdict options signals status text s :
  status_means options signals status text s ->
  exists before after, verdict s before after /\
    text = before +:+ statistics_text (stats options) (active_cycles s) (sim_statistics s) +:+ after.
Proof.
  unfold status_means, verdict. cbv zeta. intros [ [_ ->]|[ [_ ->]|[(_ & _ & ->)|(_ & _ & _ & ->)] ] ].
  - eexists _, EmptyString. split; [by left|]. by rewrite append_nil_r.
  - exists EmptyString. eexists. split; [right; split; [done | by left] | done].
  - exists EmptyString. eexists. split; [right; split; [done | right; by left] | done].
  - exists EmptyString. eexists. split; [right; split; [done | by right; right] | done].
Qed.

(** C12: the statistics count the handshakes of the whole run.  For every run that
    ends with a status there is the sequence of its handshakes outside reset;
    per port, the statistics are the number of read requests in it, the bytes
    these ask for and the read beats received, modulo 2^64.  A run prints the
    report of its end and, with --stats, these statistics, once, from which the
    active cycles and the traffic of every port can be read back; without
    --stats it prints that report and nothing else. *)
Theorem statistics_count_the_traffic args options registry spec host out s0 w signals status s' :
  fresh_registry registry -> Forall mapping_fits (mappings spec) -> options_ok options ->
  finish_is_final -> start_simulation args options registry spec (host, out) = (Ok s0, w) ->
  run_loop options (interrupted_by options signals) s0 = (Ok status, s') ->
  exists seen s before printed after,
    cycles options s0 seen s /\ same_run s s' /\ verdict s' before after /\
    cerr (sim_console s') = cerr (sim_console s0) +:+ before +:+ printed +:+ after /\
    if stats options
    then sim_statistics s' = all_traffic seen /\
         (Z.of_nat NumPorts < 2 ^ 64 ->
          read_statistics NumPorts (printed +:+ after)
            = Some (active_cycles s', imap (fun i t => (Z.of_nat i, t)) (all_traffic seen), after))
    else printed = EmptyString.
Proof.
  intros Hr Hm Ho Hfin Hs Hrun. pose proof (start_simulation_ok args _ _ _ _ _ _ _ Hr Hm Hs) as Hst.
  pose proof (run_loop_cycles options (interrupted_by options signals) s0 (started_running _ _ _ _ _ _ _ Hst)) as Hc.
  rewrite Hrun in Hc. destruct Hc as (exit & (seen & s & Hc & Hsame & _) & _).
  pose proof (rn_statistics _ _ _ _ (started_ran _ _ _ _ _ _ _ _ _ Hst Ho Hc)) as Hcount.
  rewrite <- (sr_statistics _ _ Hsame) in Hcount.
  pose proof (run_loop_spec options signals s0 Hfin Ho (st_fresh _ _ _ _ _ _ _ Hst)) as Hend.
  cbv zeta in Hend. rewrite Hrun in Hend. destruct Hend as ([Ht Ha] & text & Hp & Hmeans).
  apply status_verdict in Hmeans as (before & after & Hv & ->).
  exists seen, s, before. eexists _, after. split; [exact Hc|]. split; [exact Hsame|]. split; [exact Hv|].
  split; [by rewrite Hp|]. destruct (stats options); [|done]. split; [exact Hcount|]. intros Hn. rewrite Hcount.
  destruct (all_traffic_fits seen) as [Hl Hf]. rewrite <- Hl at 1. apply report_read_back; [|by rewrite Hl | exact Hf].
  destruct Ho as (Hro & Hmo & Hsum). unfold fits in *. lia.
Qed.
End Report.
