(* ===== verification/SimSideband.v ===== *)
(** * The interrupts the design sees

    The sideband binding of the Fuxi platform, the settling of the devices and
    the main loop composed: in every cycle the pins of the design are what the
    registers of the CLINT and the PLIC say. *)
From S2P Require Import Prelude Text Console RingBuffer Axi Device Memory Uart Interrupts InterruptTheorems.
From S2P Require Import Heap HeapLines Host Fabric FabricSpec FabricPorts FabricTheorems FabricTraffic.
From S2P Require Import Elf ElfPlan Platform PlatformInstance PlatformTheorems PlatformCycles ElfHeap PlatformLines.
From S2P Require Import Packed Binding CommandLine ImageFiles ImageTheorems Statistics.
From S2P Require Import Sim SimTheorems SimSafety SimRuns SimData.

(** ** The devices behind the signals *)
Section Bound.
Context `{!HostSystem} {B : Type} `{!UartBackend B, !UartStreams B}.
Implicit Types (h : Heap B) (dev : AnyDevice B) (p : Platform B).

Definition has_output h (signal : SignalRef) : Prop :=
  exists dev w, h !! signal.1 = Some dev /\ output_width dev signal.2 = Some w.

Lemma platform_output_ok instances h name width signal :
  platform_output instances h name width = Ok signal ->
  (exists id, endpoint name = Ok (id, signal.2) /\ instances !! id = Some signal.1) /\ has_output h signal.
Proof.
  unfold platform_output, platform_device, has_output, output_width.
  destruct (endpoint name) as [ [id port]|]; [|done]. cbn [rbind].
  destruct (instances !! id) as [d|] eqn:Ei; [|done]. cbn [rbind].
  destruct (h !! d) as [dev|] eqn:Ed; [|done]. cbn.
  destruct (device_output dev port) as [s|] eqn:Es; [|done]. destruct (negb _); [|done]. intros [= <-]. cbn.
  split; [by exists id|]. exists dev, (sig_width s). by rewrite Es.
Qed.

Lemma has_output_lines h h' signal : heap_lines h h' -> has_output h signal -> has_output h' signal.
Proof.
  intros Hl (dev & w & Hd & Ho). destruct (heap_lines_lookup _ _ _ _ Hl Hd) as (dev' & Hd' & Hk).
  exists dev', w. by rewrite (kl_width _ _ Hk).
Qed.

Lemma context0_index n : (0 < n)%nat -> port_index "context0" "context" n = Some 0%nat.
Proof.
  intros Hn. unfold port_index. vm_compute (strip_prefix _ _). cbv beta iota.
  replace (from_all_chars 32 10 "0") with (Some 0) by by vm_compute. by destruct n; [lia|].
Qed.

Lemma context1_index n : port_index "context1" "context" n = if 1 <? Z.of_nat n then Some 1%nat else None.
Proof.
  unfold port_index. vm_compute (strip_prefix _ _). cbv beta iota.
  by replace (from_all_chars 32 10 "1") with (Some 1) by by vm_compute.
Qed.

Lemma clint_output dev w : output_width dev "msip" = Some w -> exists c, dev = DevClint c.
Proof. destruct dev; try done. by eexists. Qed.

Lemma context_output dev w :
  output_width dev "context1" = Some w -> exists q inputs, dev = DevPlic q inputs /\ (1 < contexts_ q)%nat.
Proof.
  destruct dev as [| | | | |q inputs]; try done. intros Ho. exists q, inputs. split; [done|].
  unfold output_width in Ho. cbn [device_output] in Ho. rewrite context1_index in Ho.
  destruct (Z.ltb_spec 1 (Z.of_nat (contexts_ q))); [lia | done].
Qed.

(** What [bind_fuxi] has found on a platform. *)
Record fuxi_wired p (b : FuxiBound) (dc dp : DevicePtr) : Prop := {
  fw_clint : devices_ p !! "clint" = Some dc;
  fw_plic : devices_ p !! "plic" = Some dp;
  fw_bound : b = {| b_msip := (dc, "msip"); b_mtip := (dc, "mtip"); b_meip := (dp, "context0");
                    b_seip := (dp, "context1"); b_time := (dc, "mtime") |};
  fw_msip : has_output (heap_ p) (dc, "msip");
  fw_seip : has_output (heap_ p) (dp, "context1")
}.

Lemma bind_fuxi_wired p b : bind_fuxi p = Ok b -> exists dc dp, fuxi_wired p b dc dp.
Proof.
  unfold bind_fuxi. cbv zeta.
  destruct (platform_output _ _ "clint.msip" 1) as [m|] eqn:E1; [|done]. cbn [rbind].
  destruct (platform_output _ _ "clint.mtip" 1) as [t|] eqn:E2; [|done]. cbn [rbind].
  destruct (platform_output _ _ "plic.context0" 1) as [c0|] eqn:E3; [|done]. cbn [rbind].
  destruct (platform_output _ _ "plic.context1" 1) as [c1|] eqn:E4; [|done]. cbn [rbind].
  destruct (platform_output _ _ "clint.mtime" 64) as [n|] eqn:E5; [|done]. cbn [rbind]. intros [= <-].
  destruct (platform_output_ok _ _ _ _ _ E1) as [(i1 & N1 & D1) O1].
  destruct (platform_output_ok _ _ _ _ _ E2) as [(i2 & N2 & D2) _].
  destruct (platform_output_ok _ _ _ _ _ E3) as [(i3 & N3 & D3) _].
  destruct (platform_output_ok _ _ _ _ _ E4) as [(i4 & N4 & D4) O4].
  destruct (platform_output_ok _ _ _ _ _ E5) as [(i5 & N5 & D5) _].
  vm_compute in N1, N2, N3, N4, N5.
  destruct m as [dc pm], t as [dt pt], c0 as [dp p0], c1 as [dq p1], n as [dn pn]. cbn in *. simplify_eq.
  exists dc, dp. by constructor.
Qed.

Lemma fuxi_devices p b dc dp h :
  fuxi_wired p b dc dp -> heap_lines (heap_ p) h ->
  exists c q inputs, h !! dc = Some (DevClint c) /\ h !! dp = Some (DevPlic q inputs) /\ (1 < contexts_ q)%nat.
Proof.
  intros Hw Hl. destruct (has_output_lines _ _ _ Hl (fw_msip _ _ _ _ Hw)) as (dev & w & Hc & Ho).
  destruct (clint_output _ _ Ho) as [c ->].
  destruct (has_output_lines _ _ _ Hl (fw_seip _ _ _ _ Hw)) as (dev' & w' & Hp & Ho').
  destruct (context_output _ _ Ho') as (q & inputs & -> & Hn). by exists c, q, inputs.
Qed.

(** The line of a context of a settled PLIC. *)
Lemma context_line (h : Heap B) dp q inputs (name : string) (i : nat) :
  h !! dp = Some (DevPlic q inputs) -> plic_wf q -> notified q -> (i < contexts_ q)%nat ->
  port_index name "context" (contexts_ q) = Some i ->
  exists source, chosen q i source /\
    Sim.signal_value h (dp, name) = b2z (threshold_ q !!! i <? priority_ q !!! source).
Proof.
  intros Hd Hw Hn Hi Hp. exists (best q i). split; [apply best_spec, Hw|].
  unfold Sim.signal_value. cbn. rewrite Hd. cbn. rewrite Hp. cbn. unfold notified in Hn. rewrite Hn.
  apply list_lookup_total_correct. by rewrite list_lookup_fmap, lookup_seq_lt.
Qed.

Lemma gateways_kept level q i :
  plic_settle level q = q -> (1 <= i <= sources_ q)%nat -> nz (level i) = true -> busy_ q !!! i = true.
Proof.
  intros Hs Hi Hl. pose proof (gateways_close level (seq 1 (sources_ q)) q i) as Hc.
  unfold gateway_closed in Hc. rewrite Hl in Hc.
  assert (busy_ (foldl (gateway level) q (seq 1 (sources_ q))) = busy_ q) as Hb.
  { change (busy_ (plic_settle level q) = busy_ q). by rewrite Hs. }
  rewrite Hb in Hc. apply negb_false_iff, Hc, elem_of_seq. lia.
Qed.
End Bound.

Lemma u8_bit (z : Z) : z = 0 \/ z = 1 -> u8 z = z.
Proof. by intros [-> | ->]. Qed.
Lemma u8_b2z (b : bool) : u8 (b2z b) = b2z b.
Proof. by destruct b. Qed.

(** ** The pins of a cycle *)
Section Sideband.
Context {fabric : FabricConfig} {binding : BindingConfig} `{!HostSystem}.
Context `{!FabricConfigOk fabric, !BindingConfigOk fabric binding}.
Context {B : Type} `{!UartBackend B, !UartStreams B, !HostLibrary, !TargetConfig B}.
Context {model : VerilatedModel FuxiPins} {laws : ModelLaws}.
Implicit Types (s : Simulation (B := B) (Pins := FuxiPins)) (options : Options) (seen : list event).

(** What the pins show of a CLINT and a PLIC. *)
Record pins_show (c : Clint) (q : Plic) (m : FuxiPins) : Prop := {
  ps_msip : irq_msip m = software_ c;
  ps_mtip : irq_mtip m = b2z (compare_ c <=? time_ c);
  ps_time : rtc_time m = time_ c;
  ps_meip : exists i, chosen q 0 i /\ irq_meip m = b2z (threshold_ q !!! 0%nat <? priority_ q !!! i);
  ps_seip : exists i, chosen q 1 i /\ irq_seip m = b2z (threshold_ q !!! 1%nat <? priority_ q !!! i)
}.

Lemma drive_fuxi_shows (h : Heap B) (p : Platform B) b dc dp c q inputs pins0 :
  fuxi_wired p b dc dp -> h !! dc = Some (DevClint c) -> h !! dp = Some (DevPlic q inputs) ->
  clint_wf c -> plic_wf q -> notified q -> (1 < contexts_ q)%nat ->
  pins_show c q (drive_fuxi b h pins0).
Proof.
  intros Hw Hc Hp Hcw Hqw Hn Hctx. rewrite (fw_bound _ _ _ _ Hw). unfold drive_fuxi. constructor; cbn [irq_msip irq_mtip irq_meip irq_seip rtc_time b_msip b_mtip b_meip b_seip b_time].
  - unfold Sim.signal_value. cbn. rewrite Hc. cbn. apply u8_bit, cl_software, Hcw.
  - unfold Sim.signal_value. cbn. rewrite Hc. cbn. rewrite (cl_timer _ Hcw). apply u8_b2z.
  - unfold Sim.signal_value. cbn. by rewrite Hc.
  - destruct (context_line h dp q inputs "context0" 0 Hp Hqw Hn ltac:(lia)) as (i & Hi & ->).
    + apply context0_index. lia.
    + exists i. by rewrite u8_b2z.
  - destruct (context_line h dp q inputs "context1" 1 Hp Hqw Hn ltac:(lia)) as (i & Hi & ->).
    + rewrite context1_index. destruct (Z.ltb_spec 1 (Z.of_nat (contexts_ q))); [done | lia].
    + exists i. by rewrite u8_b2z.
Qed.

(** C9: the design sees the interrupts the devices raise.  In every cycle of a
    Fuxi simulation, in reset or not, the model is evaluated with pins that show
    the present registers of the devices named clint and plic: msip, the timer
    comparison of mtime and mtimecmp, mtime itself, and for the contexts 0 and 1
    whether the best pending enabled source exceeds the threshold.  Every
    source whose line is up has passed its gateway: its request is pending or in
    service. *)
Theorem design_sees_the_interrupts args options registry spec host out s0 w seen s reset outs s1 :
  fresh_registry registry -> Forall mapping_fits (mappings spec) -> options_ok options ->
  start_simulation args options registry spec (host, out) = (Ok s0, w) -> cycles options s0 seen s ->
  low_phase reset s = (Ok outs, s1) ->
  let h := heap_ (sim_platform s1) in
  exists dc dp c q inputs top,
    devices_ (sim_platform s0) !! "clint" = Some dc /\ h !! dc = Some (DevClint c) /\
    devices_ (sim_platform s0) !! "plic" = Some dp /\ h !! dp = Some (DevPlic q inputs) /\
    sim_top s1 = (eval (sc_time_stamp (simulation_time s)) (top, sim_model s)).1 /\
    pins_show c q (pins top) /\
    forall i, (1 <= i <= sources_ q)%nat -> nz (input_level h inputs i) = true -> busy_ q !!! i = true.
Proof.
  intros Hr Hm Ho Hs Hcy Hlow h. pose proof (start_simulation_ok args _ _ _ _ _ _ _ Hr Hm Hs) as Hst.
  destruct (started_ran _ _ _ _ _ _ _ _ _ Hst Ho Hcy) as [Hok Hset _ _ _ Hb Hrtc _ _ _].
  pose proof (low_phase_ok reset s Hok Hset) as Hl. unfold wp in Hl. rewrite Hlow in Hl.
  destruct Hst as [_ _ _ _ _ _ _ (p & chunks & Ebp & _ & Ha & Hbind & Hp0 & _)].
  destruct (bind_fuxi_wired p _ Hbind) as (dc & dp & Hw).
  assert (heap_lines (heap_ p) h) as Hlines.
  { transitivity (heap_ (sim_platform s0)).
    { apply memory_only_lines. pose proof (apply_only (address_space_ p) chunks (heap_ p) (heap_ p) (memory_only_refl _)) as Hap.
      unfold wp in Hap. by rewrite Ha in Hap. }
    transitivity (heap_ (sim_platform s)); [by apply platform_steps_lines|].
    unfold h. rewrite (lw_platform _ _ _ _ Hl). apply platform_step_lines, step_begin. }
  destruct (fuxi_devices p _ dc dp h Hw Hlines) as (c & q & inputs & Hc & Hq & Hctx).
  pose proof (heap_lines_wf _ _ Hlines (build_platform_wf registry spec AddressBits host p w.1 Hr Ebp)) as Hwf.
  pose proof (Forall_lookup_1 _ _ _ _ Hwf Hc) as Hcw. destruct (Forall_lookup_1 _ _ _ _ Hwf Hq) as [Hqw Hqn].
  destruct (lw_eval _ _ _ _ Hl) as (top & He & Hpins & _).
  exists dc, dp, c, q, inputs, top. split_and!.
  - rewrite Hp0. apply Hw.
  - exact Hc.
  - rewrite Hp0. apply Hw.
  - exact Hq.
  - exact He.
  - rewrite Hpins, Hb, <- (lw_platform _ _ _ _ Hl). by eapply drive_fuxi_shows.
  - intros i Hi Hlev. pose proof (lw_settled _ _ _ _ Hl dp _ Hq) as Hsq. cbn in Hsq. injection Hsq as Hsq.
    by eapply gateways_kept.
Qed.
End Sideband.
