(* ===== verification/SimExit.v ===== *)
(** * The exit of the guest

    Fabric and main loop composed: a run ends with the guest's exit exactly if
    the design has acknowledged a write response with an exit code, and it ends
    in that cycle, with the status and the report of that code. *)
From S2P Require Import Prelude Text Console RingBuffer Axi Device Memory Uart Interrupts Heap Host.
From S2P Require Import Fabric FabricSpec FabricPorts FabricInv FabricCommit FabricTheorems FabricRuns FabricMemory FabricTraffic.
From S2P Require Import Elf ElfPlan Platform PlatformInstance PlatformTheorems Packed Binding.
From S2P Require Import CommandLine ImageFiles Statistics Sim SimTheorems SimSafety SimRuns SimData.

(** ** Exit codes of an abstract run *)
Section Traced.
Context {fabric : FabricConfig} {H : Type} `{!DeviceHeap H, !DeviceHeapLaws H, !LoadableLaws H}.

Lemma traced_exit sp (v : View H) es log v' :
  traced sp v es log v' -> v_exit v' = foldl (fun x e => exit_after e x) (v_exit v) es.
Proof.
  induction 1 as [v|v h es log v' _ _ IH|v e v1 es log v2 Hst _ IH]; [done | exact IH|].
  cbn [foldl]. by rewrite IH, (step_exit sp v e v1 Hst).
Qed.
End Traced.

(** What the exit codes a design has acknowledged make of the exit state. *)
Definition exit_state (codes : list Z) : bool * Z :=
  match codes with [] => (false, 0) | code :: _ => (true, code) end.

Section Exit.
Context {fabric : FabricConfig} {binding : BindingConfig} `{!HostSystem}.
Context `{!FabricConfigOk fabric, !BindingConfigOk fabric binding}.
Context {B Pins : Type} `{!UartBackend B, !UartStreams B, !HostLibrary, !TargetConfig B}.
Context {model : VerilatedModel Pins} {sideband : SidebandBinding B Pins} {laws : ModelLaws}.
Implicit Types (s : Simulation) (options : Options) (seen : list event).

Lemma ran_exit options s0 seen s :
  ran options s0 seen s -> view (shared_fabric s0) = empty_view (heap_ (sim_platform s0)) ->
  (exit_completed_ (sim_fabric s), exit_code_ (sim_fabric s)) = exit_state (exit_codes seen).
Proof.
  intros Hran Hv. destruct (rn_traced _ _ _ _ Hran) as (es & log & Ht & <-).
  pose proof (traced_exit _ _ _ _ _ Ht) as He. rewrite Hv, exit_latched in He. cbn in He. rewrite He.
  unfold exit_state, exit_codes. rewrite observed_bind; [done|]. by intros [].
Qed.

(** The cycle an exit code is acknowledged in is the last one. *)
Lemma exit_in_last_cycle options registry (spec : PlatformSpec) host out s0 w seen s :
  started options registry spec host out s0 w -> options_ok options -> cycles options s0 seen s ->
  exit_codes seen <> [] ->
  exists before last s1, seen = before ++ last /\ cycles options s0 before s1 /\ exit_codes before = [] /\
    total_cycles s = total_cycles s1 + 1.
Proof.
  intros Hst Ho Hc Hx. inversion Hc as [|? before s1 outs s2 sampled ? Hc1 Hgo reset Hlow Hs Hhigh]; subst; [done|].
  exists before. eexists. exists s1. split; [reflexivity|]. split; [exact Hc1|].
  pose proof (started_ran _ _ _ _ _ _ _ _ _ Hst Ho Hc1) as Hran. split.
  - pose proof (ran_exit _ _ _ _ Hran (st_view _ _ _ _ _ _ _ Hst)) as He. rewrite (go_exit _ _ Hgo) in He.
    by destruct (exit_codes before).
  - pose proof (low_phase_counts reset s1) as Hn2. unfold wp in Hn2. rewrite Hlow in Hn2.
    pose proof (high_phase_counts options reset outs s2) as Hn3. unfold wp in Hn3. rewrite Hhigh in Hn3.
    injection Hn2 as Ha2 Ht2 _. injection Hn3 as Ha3 Ht3 _. rewrite Ha2 in Ha3. rewrite Ht2 in Ht3.
    by apply (counters_step options s1 s Ho (rn_counters _ _ _ _ Hran) (go_budget _ _ Hgo)).
Qed.

(** C8: the guest's exit ends the run at once, with its status.  A run that ends
    with a status has made cycles with some handshakes.  If the design has
    acknowledged no exit response in them, the run was ended by a signal that
    had arrived (status 128 plus what the handler stores: 129, where README.md
    documents 130 for SIGINT), by $finish (status 3) or, without $finish, after
    exactly [max_cycles] active cycles (status 124).  Otherwise the first such response came in the
    last cycle, its code decides the status, 0 or 1, and the run has reported
    this code, with the statistics, and nothing else. *)
Theorem guest_exit_ends_the_run args options registry spec host out s0 w signals status s' :
  fresh_registry registry -> Forall mapping_fits (mappings spec) -> options_ok options ->
  finish_is_final -> start_simulation args options registry spec (host, out) = (Ok s0, w) ->
  run_loop options (interrupted_by options signals) s0 = (Ok status, s') ->
  exists seen s, cycles options s0 seen s /\ same_run s s' /\
    match exit_codes seen with
    | [] =>
        stopped_by_signal options signals status s' \/
        (got_finish (sim_model s') = true /\ status = PROTOCOL_ERROR) \/
        (active_cycles s' = max_cycles options /\ got_finish (sim_model s') = false /\ status = TIMEOUT_ERROR)
    | code :: _ =>
        status = (if code =? 0 then 0 else 1) /\
        cerr (sim_console s') = cerr (sim_console s0) +:+ exit_report code (active_cycles s')
          +:+ statistics_text (stats options) (active_cycles s') (sim_statistics s') /\
        exists before last s1, seen = before ++ last /\ cycles options s0 before s1 /\
          exit_codes before = [] /\ total_cycles s = total_cycles s1 + 1
    end.
Proof.
  intros Hr Hm Ho Hfin Hs Hrun. pose proof (start_simulation_ok args _ _ _ _ _ _ _ Hr Hm Hs) as Hst.
  pose proof (run_loop_cycles options (interrupted_by options signals) s0 (started_running _ _ _ _ _ _ _ Hst)) as Hc.
  rewrite Hrun in Hc. destruct Hc as (exit & (seen & s & Hc & Hsame & Hexit) & Hstatus).
  exists seen, s. split; [exact Hc|]. split; [exact Hsame|].
  pose proof (run_loop_spec options signals s0 Hfin Ho (st_fresh _ _ _ _ _ _ _ Hst)) as Hend.
  cbv zeta in Hend. rewrite Hrun in Hend. destruct Hend as (_ & text & Hp & Hmeans).
  pose proof (ran_exit _ _ _ _ (started_ran _ _ _ _ _ _ _ _ _ Hst Ho Hc) (st_view _ _ _ _ _ _ _ Hst)) as Hx.
  pose proof (exit_in_last_cycle _ _ _ _ _ _ _ _ _ Hst Ho Hc) as Hlast.
  unfold exit_of in Hexit. unfold status_means, exit_of in Hmeans. rewrite (sr_fabric _ _ Hsame) in Hmeans.
  destruct (exit_codes seen) as [|code codes] eqn:Ecodes; injection Hx as Hd Hcode; rewrite Hd in Hmeans, Hexit.
  - destruct Hmeans as [ [? _]|[ [? _]|[(? & ? & _)|(? & ? & ? & _)] ] ]; [done | by left | by right; left | by right; right].
  - rewrite Hcode in Hmeans, Hexit. subst exit. destruct Hstatus as [|[= <-] ]; [done|]. split; [done|].
    destruct Hmeans as [ [_ ->]|Hmeans].
    2:{ exfalso. destruct (code =? 0);
          destruct Hmeans as [ [(? & ? & ? & _ & _ & _ & Hst') _]|[(_ & ? & _)|(_ & _ & ? & _)] ]; done. }
    split; [by rewrite Hp | by apply Hlast].
Qed.
End Exit.
