(* ===== verification/SimExamples.v ===== *)
(** * A simulation, from the command line to the exit status

    The Fuxi board of [PlatformExamples.v] with a one-port design that writes
    the Exit register: the program runs by computation, and the theorems of
    the binding and of the main loop apply to it. *)
From S2P Require Import Prelude Text Console Axi Device Memory Uart Interrupts Heap Host HostExamples.
From S2P Require Import Fabric FabricPorts Elf Platform PlatformInstance PlatformTheorems PlatformConfig.
From S2P Require Import PlatformExamples Packed Binding CommandLine ImageFiles Statistics.
From S2P Require Import Sim SimTheorems SimSafety.

#[export] Instance board_fabric : FabricConfig :=
  {| NumPorts := 1; AddressBits := 32; DATA_BYTES := 4; AddressDepth := 2; WriteDataDepth := 4;
     ResponseDepth := 2; RouteDepth := 4 |}.
#[export] Instance board_fabric_ok : FabricConfigOk board_fabric.
Proof. constructor; simpl; try lia. exact bus_width_32. Defined.
#[export] Instance board_binding : BindingConfig := { IdBits := 4 }.
#[export] Instance board_binding_ok : BindingConfigOk board_fabric board_binding.
Proof. constructor; simpl; lia. Defined.

(** No file can be opened, and no text is a floating-point number. *)
#[local] Instance empty_library : HostLibrary := {
  strtod _ := None;
  file_buffer _ := None;
  open_binary _ := None
}.
#[export] Instance board_target : TargetConfig BufferUartBackend := {
  default_memory := board_map;
  TRACE_ENABLED := true;
  THREADS := 1;
  register_devices := fuxi_register_devices;
  platform_defaults := fuxi_defaults
}.

(** ** The design *)
Definition byte_signal (v : Z) : Signal := Scalar 8 v.

(** Its pins in phase [n]: a write of 0 to the Exit register, which an idle
    fabric accepts in one cycle, then the response. *)
Definition design_signals (size : Z) (n : nat) (top : Top) : Top :=
  let busy := b2z (n =? 0)%nat in
  top <| axi_aw_valid := byte_signal busy |> <| axi_aw_addr := Scalar 32 0x10001000 |>
      <| axi_aw_size := byte_signal size |> <| axi_aw_burst := byte_signal 1 |>
      <| axi_w_valid := byte_signal busy |> <| axi_w_data := Scalar 32 0 |>
      <| axi_w_strb := byte_signal 15 |> <| axi_w_last := byte_signal 1 |>
      <| axi_b_ready := byte_signal 1 |>.

Definition quiet_top : Top :=
  let bit := byte_signal 0 in
  mk_top bit bit (Scalar 32 0) bit bit bit bit bit bit
    bit (Scalar 32 0) bit bit bit
    bit bit (Scalar 32 0) bit bit bit bit bit bit bit
    bit bit bit bit bit bit bit bit (Scalar 32 0) bit bit.

(** A phase of the design ends with a rising clock edge outside reset.  Its time
    is counted beside the phase; its trace is the list of the times dumped. *)
Definition design (size : Z) : VerilatedModel FuxiPins := {|
  Model := nat * Z;
  construct _ _ := Ok (mk_members quiet_top 0 0 (mk_fuxi_pins 0 0 0 0 0), (0%nat, 0));
  threads _ := 1;
  eval _ tm :=
    let '(top, (n, time)) := tm in
    if (clk top =? 1) && (aresetn top =? 1) then (top, (S n, time))
    else (top <| axi := design_signals size n (axi top) |>, (n, time));
  context_time m := m.2;
  time_inc m := (m.1, u64 (m.2 + 1));
  got_finish _ := false;
  final tm := tm;
  TraceWriter := list Z * bool;
  trace_ever_on m := m;
  open_trace path _ := ([], true);
  is_open w := w.2;
  dump _ time w := (w.1 ++ [time], w.2);
  close w := (w.1, false)
|}.
#[local] Instance exit_design : VerilatedModel FuxiPins := design 2.

Definition no_signals : nat -> list Z := fun _ => [].
Definition exit_of_main {model : VerilatedModel FuxiPins} (args : list string) : Z :=
  (main "axi_tb" (["--max-cycles"; "20"] ++ args) no_signals demo_system).1.

(** The guest's exit ends the run; so do too few cycles and bad arguments. *)
Example guest_exits : exit_of_main [] = 0.
Proof. by vm_compute. Qed.
Example run_times_out : exit_of_main ["--max-cycles"; "1"] = 124.
Proof. by vm_compute. Qed.
(** Beats wider than the bus are a protocol violation. *)
Example violation_stops : exit_of_main (model := design 7) [] = 3.
Proof. by vm_compute. Qed.
Example missing_image : exit_of_main ["--elf"; "boot.elf"] = 2.
Proof. by vm_compute. Qed.
Example bad_option : exit_of_main ["--max-cycles"; "0"] = 2.
Proof. by vm_compute. Qed.
Example signal_stops : (main "axi_tb" ["--max-cycles"; "20"] (fun _ => [SIGINT]) demo_system).1 = 129.
Proof. by vm_compute. Qed.

(** What the program prints. *)
Definition printed {model : VerilatedModel FuxiPins} (args : list string) : string :=
  cerr (main "axi_tb" (["--max-cycles"; "20"] ++ args) no_signals demo_system).2.2.

Example exit_is_reported :
  printed [] = "[axi-tb] guest exit code 0 (0x0) after 2 cycle(s)" +:+ newline.
Proof. by vm_compute. Qed.
Example statistics_are_printed :
  printed ["--stats"; "--max-cycles"; "1"] = lines [
    "SIM_STATS active_cycles=1";
    "AXI_STATS port=0 read_requests=0 read_bytes_requested=0 read_beats_received=0";
    "[axi-tb] timeout after 1 active cycle(s)" ].
Proof. by vm_compute. Qed.
Example violation_is_reported :
  printed (model := design 7) [] =
    "[axi-tb] AXI protocol error: cycle 5, AXI port 0, AW, ID 0x0, address 0x10001000: " +:+
    "AXI AxSIZE exceeds the data bus width" +:+ newline.
Proof. by vm_compute. Qed.
Example bad_option_is_reported :
  printed ["--max-cycles"; "0"] =
    "[axi-tb] configuration error: --max-cycles must be greater than zero" +:+ newline.
Proof. by vm_compute. Qed.

(** ** The theorems at work *)
Definition board_run : Options := default_options <| max_cycles := 20 |>.

(** Well-formed signals, decided by computation. *)
Definition fields_ok (width : Z) (s : Signal) : bool :=
  match s with
  | Scalar bits v =>
      ((bits =? 8) || (bits =? 16) || (bits =? 32) || (bits =? 64)) && (0 <=? v) && (v <? 2 ^ bits)
      && (Z.of_nat NumPorts * width <=? bits)
  | Words _ => false
  end.

Lemma fields_ok_spec width s : fields_ok width s = true -> has_fields width s.
Proof.
  destruct s as [bits v|]; [|done]. unfold fields_ok, has_fields, signal_wf, fits.
  rewrite !andb_true_iff, !orb_true_iff, !Z.eqb_eq, !Z.leb_le, Z.ltb_lt. cbn [signal_bits]. lia.
Qed.

Lemma quiet_top_wf : top_wf quiet_top.
Proof. constructor; apply fields_ok_spec; by vm_compute. Qed.

Lemma design_signals_wf n top : top_wf top -> top_wf (design_signals 2 n top).
Proof.
  intros []. unfold design_signals. destruct (n =? 0)%nat; cbn;
    constructor; cbn; try done; apply fields_ok_spec; by vm_compute.
Qed.

Lemma exit_design_laws : ModelLaws.
Proof.
  constructor; [intros args n top m [= <- <-]; apply quiet_top_wf| |by intros; left].
  intros time [t c r p] [n m] Ht. cbn in *. destruct (_ && _); [done | by apply design_signals_wf].
Qed.

Lemma sampled_cycle_is_well_formed_witness :
  exists masters, sample (design_signals 2 0 quiet_top) = Ok masters /\ inputs_wf masters /\
    m_aw_valid (masters !!! 0%nat) = true.
Proof.
  destruct (sampled_cycle_is_well_formed (design_signals 2 0 quiet_top)
    (design_signals_wf 0 quiet_top quiet_top_wf)) as (masters & E & _ & Hs & Hin).
  exists masters. split_and!; [done | by apply Hin; left |].
  rewrite (ps_aw_valid _ _ _ (Hs 0%nat ltac:(simpl; lia))). by vm_compute.
Defined.

Definition read_response_cycle : list SlaveSignals := [
  {| s_aw_ready := true; s_w_ready := false; s_b_valid := false; s_b := inhabitant;
     s_ar_ready := true; s_r_valid := true;
     s_r := {| rd_id := 5; rd_data := [1; 2; 3; 4]; rd_response := SlaveError; rd_last := true |} |} ].

Lemma driven_cycle_reads_back_witness :
  exists top, drive_top read_response_cycle quiet_top = (Ok tt, top) /\
    read_bytes 4 (axi_r_data top) 0 = Ok [1; 2; 3; 4] /\ read_u64 (axi_r_resp top) 0 2 = Ok 2 /\
    read_u64 (axi_r_id top) 0 4 = Ok 5.
Proof.
  destruct (driven_cycle_reads_back quiet_top read_response_cycle quiet_top_wf) as (top & E & _ & _ & Hp).
  { intros [|port] Hport; [done | simpl in Hport; lia]. }
  pose proof (Hp 0%nat ltac:(simpl; lia)) as Hport. exists top. split_and!; [done | | |].
  - apply (pd_r_data _ _ _ Hport). repeat constructor; by vm_compute.
  - exact (pd_r_resp _ _ _ Hport).
  - exact (pd_r_id _ _ _ Hport).
Defined.

(** The run of the examples, taken apart. *)
Definition BoardSimulation : Type := Simulation (B := BufferUartBackend) (Pins := FuxiPins).
Definition board_start : result BoardSimulation * World :=
  start_simulation [] board_run board_registry board_spec (board_host, empty_console).

Definition ends_with (status : Z) (r : result BoardSimulation) : bool :=
  match r with
  | Ok s => match run_loop board_run (interrupted_by board_run no_signals) s with
            | (Ok n, _) => n =? status
            | (Throw _, _) => false
            end
  | Throw _ => false
  end.

Lemma board_options_ok : options_ok board_run.
Proof. unfold options_ok, fits. simpl. lia. Qed.

Lemma board_mappings_fit : Forall mapping_fits (mappings board_spec).
Proof.
  apply Forall_forall. intros m Hm.
  assert (forallb (fun m => (0 <=? mapping_base m) && (mapping_base m <? 2 ^ 64) &&
    (0 <=? mapping_size m) && (mapping_size m <? 2 ^ 64)) (mappings board_spec) = true) as H
    by by vm_compute.
  rewrite forallb_forall in H. specialize (H m (proj1 (list_elem_of_In _ _) Hm)).
  rewrite !andb_true_iff, !Z.leb_le, !Z.ltb_lt in H. unfold mapping_fits, fits. lia.
Qed.

Lemma board_finish_is_final : finish_is_final.
Proof. done. Qed.

Lemma board_starts : exists s w, board_start = (Ok s, w).
Proof. apply returns_pair. by vm_compute. Qed.

Lemma board_run_status s w :
  board_start = (Ok s, w) ->
  exists s', run_loop board_run (interrupted_by board_run no_signals) s = (Ok 0, s').
Proof.
  intros E. assert (ends_with 0 board_start.1 = true) as H by by vm_compute.
  rewrite E in H. unfold ends_with in H. cbn [fst] in H.
  destruct (run_loop _ _ s) as [[n|e] s']; [|done].
  apply Z.eqb_eq in H as ->. by exists s'.
Qed.

Lemma board_started s w :
  board_start = (Ok s, w) ->
  started board_run board_registry board_spec board_host empty_console s w.
Proof.
  apply (start_simulation_ok (laws := exit_design_laws) [] _ _ _ _ _ _ _ (proj1 board_registry_ok) board_mappings_fit).
Qed.

Lemma every_run_ends_with_its_status_witness :
  exists s w s' text, board_start = (Ok s, w) /\
    run_loop board_run (interrupted_by board_run no_signals) s = (Ok 0, s') /\
    sim_console s' = print_err text (sim_console s) /\
    status_means board_run no_signals 0 text s'.
Proof.
  destruct board_starts as (s & w & E). destruct (board_run_status s w E) as [s' Hr].
  pose proof (every_run_ends_with_its_status board_run no_signals s board_finish_is_final
    board_options_ok (st_fresh _ _ _ _ _ _ _ (board_started s w E))) as H.
  cbv zeta in H. rewrite Hr in H. destruct H as (_ & text & Hp & Hm).
  exists s, w, s', text. split_and!; [exact E | exact Hr | exact Hp | exact Hm].
Defined.

Lemma only_protocol_errors_end_a_run_witness :
  exists s w s', board_start = (Ok s, w) /\
    run_loop board_run (interrupted_by board_run no_signals) s = (Ok 0, s') /\
    PlatformCycles.settled (heap_ (sim_platform s')).
Proof.
  destruct board_starts as (s & w & E). destruct (board_run_status s w E) as [s' Hr].
  exists s, w, s'. split_and!; [exact E | exact Hr|].
  pose proof (fun interrupted => only_protocol_errors_end_a_run (laws := exit_design_laws) [] board_run board_registry board_spec
    interrupted board_host empty_console s w (proj1 board_registry_ok)) as H.
  specialize (H (interrupted_by board_run no_signals)).
  specialize (H board_mappings_fit).
  specialize (H board_options_ok).
  specialize (H E).
  rewrite Hr in H. exact H.
Defined.
