(* ===== verification/RunExamples.v ===== *)
(** * A design that boots from an image

    The board of [SimExamples.v] with a design that reads two words of RAM, into
    which an image file is loaded, and then exits.  The theorems on whole runs
    apply to it. *)
From S2P Require Import Prelude Text Console Axi Device Memory Uart Interrupts InterruptTheorems Heap Host HostExamples.
From S2P Require Import Fabric FabricSpec FabricPorts FabricCommit FabricTheorems FabricRuns FabricMemory FabricTraffic FabricImage Elf Platform PlatformInstance PlatformTheorems.
From S2P Require Import PlatformConfig PlatformExamples Packed Binding CommandLine ImageFiles ImageTheorems.
From S2P Require Import Statistics Sim SimTheorems SimHost SimTrace SimSafety SimRuns SimData SimReport SimSideband SimExit.
From S2P Require Import SimExamples.

(** ** Running cycles *)
Section Running.
Context {fabric : FabricConfig} {binding : BindingConfig} `{!HostSystem}.
Context {B Pins : Type} `{!UartBackend B, !UartStreams B, !HostLibrary, !TargetConfig B}.
Context {model : VerilatedModel Pins} {sideband : SidebandBinding B Pins}.

(** [n] cycles more, with the handshakes so far. *)
Fixpoint run_cycles (n : nat) (options : Options) (seen : list event) (s : Simulation)
  : option (list event * Simulation) :=
  match n with
  | O => Some (seen, s)
  | S n' =>
      if (active_cycles s <? max_cycles options) && negb (got_finish (sim_model s))
         && negb (exit_completed_ (sim_fabric s)) then
        let reset := total_cycles s <? reset_cycles options in
        match low_phase reset s with
        | (Ok outs, s2) =>
            match sample (axi (sim_top s2)), high_phase options reset outs s2 with
            | Ok sampled, (Ok tt, s3) =>
                run_cycles n' options (seen ++ if reset then [] else cycle_events outs sampled) s3
            | _, _ => None
            end
        | _ => None
        end
      else None
  end.

Lemma run_cycles_sound n options s0 seen s seen' s' :
  cycles options s0 seen s -> run_cycles n options seen s = Some (seen', s') -> cycles options s0 seen' s'.
Proof.
  revert seen s. induction n as [|n IH]; intros seen s Hc; cbn [run_cycles]; [by intros [= <- <-]|].
  destruct (_ && _) eqn:Ego; [|done].
  apply andb_true_iff in Ego as [ [Hlt%Z.ltb_lt Hg%negb_true_iff]%andb_true_iff Hx%negb_true_iff].
  destruct (low_phase _ s) as [ [outs|] s2] eqn:El; [|done].
  destruct (sample _) as [sampled|] eqn:Es; [|done].
  destruct (high_phase _ _ _ _) as [ [ []|] s3] eqn:Eh; [|done].
  apply IH. by eapply (cycles_one _ _ _ _ _ _ _ _ Hc (Build_goes_on _ _ Hlt Hg Hx)).
Qed.
End Running.

(** ** The image and the design *)
Definition boot_image : list Z := [1; 2; 3; 4; 5; 6; 7; 8].
#[export] Instance boot_library : HostLibrary := {
  strtod _ := None;
  file_buffer _ := None;
  open_binary path :=
    if bool_decide (path = "boot.bin") then Some (8, fun n => if n =? 8 then Some boot_image else None)
    else None
}.
#[export] Instance boot_library_laws : LibraryLaws.
Proof.
  intros path end_ read n bytes. cbn. case_bool_decide; [|done]. intros [= <- <-].
  destruct (Z.eqb_spec n 8) as [->|]; [|done]. by intros [= <-].
Qed.

(** A burst of two words at the base of the RAM in its first cycle, a write of
    the Exit register in its seventh. *)
Definition boot_signals (n : nat) (top : Top) : Top :=
  let reads := b2z (n =? 0)%nat in
  let exits := b2z (n =? 6)%nat in
  top <| axi_ar_valid := byte_signal reads |> <| axi_ar_addr := Scalar 32 0x80000000 |>
      <| axi_ar_id := byte_signal 3 |> <| axi_ar_len := byte_signal 1 |> <| axi_ar_size := byte_signal 2 |>
      <| axi_ar_burst := byte_signal 1 |> <| axi_r_ready := byte_signal 1 |>
      <| axi_aw_valid := byte_signal exits |> <| axi_aw_addr := Scalar 32 0x10001000 |>
      <| axi_aw_size := byte_signal 2 |> <| axi_aw_burst := byte_signal 1 |>
      <| axi_w_valid := byte_signal exits |> <| axi_w_data := Scalar 32 0 |>
      <| axi_w_strb := byte_signal 15 |> <| axi_w_last := byte_signal 1 |>
      <| axi_b_ready := byte_signal 1 |>.

#[export] Instance boot_design : VerilatedModel FuxiPins := {|
  Model := nat * Z;
  construct _ _ := Ok (mk_members quiet_top 0 0 (mk_fuxi_pins 0 0 0 0 0), (0%nat, 0));
  threads _ := 1;
  eval _ tm :=
    let '(top, (n, time)) := tm in
    if (clk top =? 1) && (aresetn top =? 1) then (top, (S n, time))
    else (top <| axi := boot_signals n (axi top) |>, (n, time));
  context_time m := m.2;
  time_inc m := (m.1, u64 (m.2 + 1));
  got_finish _ := false;
  final tm := tm;
  TraceWriter := list Z * bool;
  trace_ever_on m := m;
  open_trace path _ := ([], true);
  is_open w := w.2;
  dump _ time w := (w.1 ++ [time], w.2);
  close w := (w.1, false)
|}.

Lemma boot_signals_wf n top : top_wf top -> top_wf (boot_signals n top).
Proof.
  intros []. unfold boot_signals. destruct (n =? 0)%nat, (n =? 6)%nat; cbn;
    constructor; cbn; try done; apply fields_ok_spec; by vm_compute.
Qed.

#[export] Instance boot_laws : ModelLaws.
Proof.
  constructor; [intros args n top m [= <- <-]; apply quiet_top_wf| |by intros; left].
  intros time [t c r p] [n m] Ht. cbn in *. destruct (_ && _); [done | by apply boot_signals_wf].
Qed.

#[export] Instance boot_time : TimeLaws.
Proof.
  constructor; [by intros args n top m [= <- <-] | done | | done].
  intros time [t [n m] ]. cbn. by destruct (_ && _).
Qed.

Definition boot_options : Options :=
  default_options <| max_cycles := 20 |> <| raw_images := ["ram=boot.bin"] |> <| stats := true |>
                  <| trace := Some "run.vcd" |>.
Definition BootSimulation : Type := Simulation (B := BufferUartBackend) (Pins := FuxiPins).
Definition boot_start : result BootSimulation * World :=
  start_simulation [] boot_options board_registry board_spec (board_host, empty_console).

Example boot_exits :
  (main "axi_tb" ["--max-cycles"; "20"; "--load"; "ram=boot.bin"; "--stats"] no_signals demo_system).1 = 0 /\
  cerr (main "axi_tb" ["--max-cycles"; "20"; "--load"; "ram=boot.bin"; "--stats"] no_signals demo_system).2.2
  = lines [
    "[axi-tb] guest exit code 0 (0x0) after 8 cycle(s)";
    "SIM_STATS active_cycles=8";
    "AXI_STATS port=0 read_requests=1 read_bytes_requested=8 read_beats_received=2" ].
Proof. by vm_compute. Qed.

(** ** A prefix of the run *)
Lemma boot_options_ok : options_ok boot_options.
Proof. unfold options_ok, fits. simpl. lia. Qed.

(** What is checked by computation of a state [n] cycles after the start. *)
Definition after_cycles (n : nat) (check : list event -> BootSimulation -> bool) : bool :=
  match boot_start with
  | (Ok s0, _) =>
      match run_cycles n boot_options [] s0 with
      | Some (seen, s) => check seen s
      | None => false
      end
  | _ => false
  end.

Lemma after_cycles_spec n check :
  after_cycles n check = true ->
  exists s0 w seen s, boot_start = (Ok s0, w) /\ cycles boot_options s0 seen s /\ check seen s = true.
Proof.
  unfold after_cycles. destruct boot_start as [ [s0|] w]; [|done].
  destruct (run_cycles n boot_options [] s0) as [ [seen s]|] eqn:E; [|done]. intros Hc.
  exists s0, w, seen, s. split_and!; [done | | done]. eapply run_cycles_sound; [apply cycles_none | exact E].
Qed.

(** The two words are read. *)
Definition reads_the_image (seen : list event) (_ : BootSimulation) : bool :=
  bool_decide (rd_data <$> (seen ≫= r_received 0) = [take 4 boot_image; drop 4 boot_image]).

Lemma simulation_has_one_memory_witness :
  exists s0 w seen s log,
    boot_start = (Ok s0, w) /\ cycles boot_options s0 seen s /\
    rd_data <$> (seen ≫= r_received 0) = [take 4 boot_image; drop 4 boot_image] /\
    consistent (Fabric.address_space_ (sim_fabric s0)) (sim_memory s0) log /\
    snd <$> (log ≫= fetched 0) = (seen ≫= r_received 0) ++ q_r (pv (view (shared_fabric s)) 0).
Proof.
  destruct (after_cycles_spec 13 reads_the_image) as (s0 & w & seen & s & E & Hc & Hr); [by vm_compute|].
  pose proof (simulation_has_one_memory [] boot_options board_registry board_spec board_host empty_console
    s0 w seen s (proj1 board_registry_ok)) as H.
  specialize (H board_mappings_fit boot_options_ok E Hc). destruct H as (log & Hlog & _ & Hp).
  exists s0, w, seen, s, log. split_and!; [exact E | exact Hc | by apply bool_decide_eq_true in Hr | exact Hlog |].
  destruct (Hp 0%nat) as (_ & H & _); [simpl; lia | exact H].
Defined.

(** Before the design writes, its second beat has the third byte of the second
    word in lane 2. *)
Definition second_beat (seen : list event) : option (AddressPayload * nat * ReadDataPayload) :=
  '(burst, i) ← ((seen ≫= ar_accepted 0) ≫= beats_of) !! 1%nat;
  beat ← (seen ≫= r_received 0) !! 1%nat;
  Some (burst, i, beat).

Definition only_reads (seen : list event) (_ : BootSimulation) : bool :=
  forallb (fun e => negb (is_aw e)) seen &&
  match second_beat seen with
  | Some (burst, i, beat) =>
      response_is_success (rd_response beat) && (2 <? beat_count burst i)%nat &&
      (beat_at burst i + 2 =? 0x80000006) && (beat_first burst i =? 0)%nat
  | None => false
  end.

Lemma only_reads_spec seen s :
  only_reads seen s = true ->
  Forall (fun e => is_aw e = false) seen /\
  exists burst i beat,
    ((seen ≫= ar_accepted 0) ≫= beats_of) !! 1%nat = Some (burst, i) /\
    (seen ≫= r_received 0) !! 1%nat = Some beat /\ response_is_success (rd_response beat) = true /\
    (2 < beat_count burst i)%nat /\ beat_at burst i + 2 = 0x80000006 /\ beat_first burst i = 0%nat.
Proof.
  unfold only_reads, second_beat. intros [Haw Hr]%andb_true_iff. split.
  { apply Forall_forall. intros e He. rewrite forallb_forall in Haw. by apply negb_true_iff, Haw, list_elem_of_In. }
  revert Hr. generalize (((seen ≫= ar_accepted 0) ≫= beats_of) !! 1%nat) as due.
  generalize ((seen ≫= r_received 0) !! 1%nat) as received.
  intros [beat|] [ [burst i]|]; cbn [mbind option_bind]; [|done..].
  rewrite !andb_true_iff, Z.eqb_eq, Nat.eqb_eq, Nat.ltb_lt. intros [ [ [Hs Hk] Hat] Hf].
  by exists burst, i, beat.
Qed.

Lemma boot_target_names_ram :
  exists p host, build_platform board_registry board_spec AddressBits board_host = (Ok p, host) /\
    load_target (address_space_ p) "ram" = Ok 0x80000000.
Proof.
  destruct (returns_pair (build_platform board_registry board_spec AddressBits board_host)) as (p & host & E);
    [by vm_compute|].
  exists p, host. split; [exact E|].
  assert (match (build_platform board_registry board_spec AddressBits board_host).1 with
          | Ok p => match load_target (address_space_ p) "ram" with Ok a => a =? 0x80000000 | Throw _ => false end
          | Throw _ => false
          end = true) as H by by vm_compute.
  rewrite E in H. cbn [fst] in H. destruct (load_target _ _); [|done]. by apply Z.eqb_eq in H as ->.
Qed.

Lemma design_reads_its_images_witness :
  exists s0 w seen s beat,
    boot_start = (Ok s0, w) /\ cycles boot_options s0 seen s /\
    (seen ≫= r_received 0) !! 1%nat = Some beat /\ rd_data beat !!! 2%nat = 7.
Proof.
  destruct (after_cycles_spec 10 only_reads) as (s0 & w & seen & s & E & Hc & Hr); [by vm_compute|].
  destruct boot_target_names_ram as (p & host & Hb & Ht).
  apply only_reads_spec in Hr as [Haw (burst & i & beat & En & Ebeat & Hs & Hk & Hat & Hf)].
  exists s0, w, seen, s, beat. split; [exact E|]. split; [exact Hc|]. split; [exact Ebeat|].
  pose proof (design_reads_its_images [] boot_options board_registry board_spec board_host empty_console
    s0 w seen s 0%nat p host (proj1 board_registry_ok)) as H.
  specialize (H board_mappings_fit boot_options_ok E Hc Hb ltac:(simpl; lia) Haw 1%nat burst i beat 2%nat 7
    En Ebeat Hs Hk).
  rewrite Hf in H. apply H. change (Z.of_nat 2) with 2. rewrite Hat.
  apply (load_byte _ _ _ _ _ _ "ram=boot.bin" "ram" "boot.bin" 0x80000000 boot_image);
    [by left | done | exact Ht | done |].
  exists 6%nat. split; reflexivity.
Defined.

(** The statistics of the whole run. *)
Definition boot_ends (r : result BootSimulation * World) : bool :=
  match r with
  | (Ok s, _) => match run_loop boot_options (interrupted_by boot_options no_signals) s with
                 | (Ok n, s') => (n =? 0) && (active_cycles s' =? 8)
                 | (Throw _, _) => false
                 end
  | _ => false
  end.

Lemma boot_run_ends :
  exists s0 w s', boot_start = (Ok s0, w) /\
    run_loop boot_options (interrupted_by boot_options no_signals) s0 = (Ok 0, s') /\ active_cycles s' = 8.
Proof.
  assert (boot_ends boot_start = true) as H by by vm_compute. unfold boot_ends in H.
  destruct boot_start as [ [s0|] w]; [|done]. destruct (run_loop _ _ s0) as [ [n|] s'] eqn:E; [|done].
  apply andb_true_iff in H as [->%Z.eqb_eq ?%Z.eqb_eq]. by exists s0, w, s'.
Qed.

Lemma statistics_count_the_traffic_witness :
  exists s0 w s' seen printed,
    boot_start = (Ok s0, w) /\
    run_loop boot_options (interrupted_by boot_options no_signals) s0 = (Ok 0, s') /\
    exists before after, verdict s' before after /\
    cerr (sim_console s') = cerr (sim_console s0) +:+ before +:+ printed +:+ after /\
    read_statistics NumPorts (printed +:+ after)
      = Some (8, imap (fun i t => (Z.of_nat i, t)) (all_traffic seen), after).
Proof.
  destruct boot_run_ends as (s0 & w & s' & E & Hr & Ha).
  pose proof (statistics_count_the_traffic [] boot_options board_registry board_spec board_host empty_console
    s0 w no_signals 0 s' (proj1 board_registry_ok)) as H.
  specialize (H board_mappings_fit boot_options_ok ltac:(done) E Hr).
  destruct H as (seen & s & before & printed & after & _ & _ & Hv & Hp & H).
  change (stats boot_options) with true in H. cbv iota in H. destruct H as [_ H]. rewrite Ha in H.
  exists s0, w, s', seen, printed. split; [exact E|]. split; [exact Hr|]. exists before, after.
  split; [exact Hv|]. split; [exact Hp|]. apply H. by vm_compute.
Defined.

(** The run ends in the cycle in which the design takes the response of its write
    to the Exit register. *)
Lemma guest_exit_ends_the_run_witness :
  exists s0 w s' seen s before s1,
    boot_start = (Ok s0, w) /\
    run_loop boot_options (interrupted_by boot_options no_signals) s0 = (Ok 0, s') /\
    cycles boot_options s0 seen s /\ head (exit_codes seen) = Some 0 /\
    cycles boot_options s0 before s1 /\ exit_codes before = [] /\ total_cycles s = total_cycles s1 + 1.
Proof.
  destruct boot_run_ends as (s0 & w & s' & E & Hr & _).
  pose proof (guest_exit_ends_the_run [] boot_options board_registry board_spec board_host empty_console
    s0 w no_signals 0 s' (proj1 board_registry_ok)) as H.
  specialize (H board_mappings_fit boot_options_ok ltac:(done) E Hr). destruct H as (seen & s & Hc & _ & H).
  destruct (exit_codes seen) as [|code codes] eqn:Ec.
  - exfalso. destruct H as [(look & signal & flag & _ & H & _)|[ [_ H]|(_ & _ & H)] ];
      [by apply elem_of_nil in H | discriminate H | discriminate H].
  - destruct H as (Hcode & _ & before & last & s1 & _ & Hb & Hx & Ht).
    destruct (Z.eqb_spec code 0) as [->|]; [|discriminate Hcode].
    exists s0, w, s', seen, s, before, s1. rewrite Ec. split_and!; done.
Defined.

Definition boot_statistics : PortStatistics := {| requests := 1; bytes_requested := 8; beats_received := 2 |}.

Lemma statistics_read_back_witness :
  read_statistics 2 (statistics_text true 8 [boot_statistics; boot_statistics] +:+ finish_report)
    = Some (8, [(0, boot_statistics); (1, boot_statistics)], finish_report).
Proof.
  apply (statistics_read_back 8 [boot_statistics; boot_statistics] finish_report);
    [unfold fits; lia | simpl; lia | repeat constructor; simpl; unfold fits; lia].
Defined.

(** The trace of the run: 13 cycles, so 26 samples. *)
Example boot_trace :
  match boot_start with
  | (Ok s, _) => sim_trace (run_loop boot_options (interrupted_by boot_options no_signals) s).2
                 = Some (Z.of_nat <$> seq 0 26, false)
  | _ => False
  end.
Proof. by vm_compute. Qed.

Lemma trace_has_every_evaluation_witness :
  exists s0 w s' tm samples,
    boot_start = (Ok s0, w) /\
    run_loop boot_options (interrupted_by boot_options no_signals) s0 = (Ok 0, s') /\
    sim_trace s' = Some (close (record_samples samples (open_trace "run.vcd" tm))) /\
    Z.of_nat (length samples) = 2 * total_cycles s'.
Proof.
  destruct boot_run_ends as (s0 & w & s' & E & Hr & _).
  pose proof (trace_has_every_evaluation [] boot_options board_registry board_spec (board_host, empty_console)
    s0 w (interrupted_by boot_options no_signals) (Ok 0) s' boot_options_ok) as H.
  specialize (H E Hr). cbn in H. destruct H as (tm & samples & _ & Ht & _ & _ & Hn).
  exists s0, w, s', tm, samples. split_and!; [exact E | exact Hr | exact Ht | exact Hn].
Defined.

(** The pins in the first cycle after the reset. *)
Definition next_low_phase (_ : list event) (s : BootSimulation) : bool := is_ok (low_phase false s).1.

Lemma design_sees_the_interrupts_witness :
  exists s0 w seen s (s1 : BootSimulation) top c q dc,
    boot_start = (Ok s0, w) /\ cycles boot_options s0 seen s /\
    sim_top s1 = (eval (sc_time_stamp (simulation_time s)) (top, sim_model s)).1 /\
    heap_ (sim_platform s1) !! dc = Some (DevClint c) /\ pins_show c q (pins top).
Proof.
  destruct (after_cycles_spec 5 next_low_phase) as (s0 & w & seen & s & E & Hc & Hl); [by vm_compute|].
  destruct (returns_pair _ Hl) as (outs & s1 & El).
  pose proof (design_sees_the_interrupts [] boot_options board_registry board_spec board_host empty_console
    s0 w seen s false outs s1 (proj1 board_registry_ok)) as H.
  specialize (H board_mappings_fit boot_options_ok E Hc El).
  destruct H as (dc & dp & c & q & inputs & top & _ & Hclint & _ & _ & He & Hp & _).
  exists s0, w, seen, s, s1, top, c, q, dc. split_and!; [exact E | exact Hc | exact He | exact Hclint | exact Hp].
Defined.

(** The UART of the board reads the standard input, a terminal. *)
Definition main_args : list string := ["--max-cycles"; "20"; "--load"; "ram=boot.bin"].

Lemma boot_host_is_guarded :
  match prepare_run main_args with
  | Ok (registry, options, spec) =>
      help options = false /\
      length (terminals (run_world main_args options registry spec (interrupted_by options no_signals)
                           (fresh_host demo_system, empty_console)).2.1) = 1%nat
  | Throw _ => False
  end.
Proof. by vm_compute. Qed.

Lemma terminals_are_restored_witness :
  let system' := (main "axi_tb" main_args no_signals demo_system).2.1 in
  attributes (0%nat : Tty) system' = cooked /\ attributes (1%nat : Tty) system' = cooked.
Proof.
  destruct (returns_spec (prepare_run main_args)) as [ [ [registry options] spec] E]; [by vm_compute|].
  pose proof boot_host_is_guarded as Hg. rewrite E in Hg. destruct Hg as [Hhelp Hg].
  pose proof (terminals_are_restored "axi_tb" main_args no_signals demo_system) as H.
  specialize (H fuxi_only_opens). cbv zeta in H. rewrite E, Hhelp in H. destruct H as [_ H].
  assert (one_descriptor (run_world main_args options registry spec (interrupted_by options no_signals)
    (fresh_host demo_system, empty_console)).2.1) as Hone
    by (intros tty; rewrite <- Hg; apply length_filter).
  cbv zeta. split; [exact (H Hone 0%nat) | exact (H Hone 1%nat)].
Defined.
